(* ===== verification/_CoqProject ===== *)
-Q . S2P
Prelude.v
Files.v
Text.v
Hash.v
Serde.v
Tree.v
TreeSpec.v
Witness.v
Leaves.v
LeavesSpec.v
Bundle.v
BundleSpec.v
Cbor.v
ClaimTx.v
ClaimTxSpec.v
Prover.v
Verifier.v
VerifierSpec.v
Blake3.v
Blake3Spec.v
Blake3Rows.v
Air.v
AirFacts.v
AirLookups.v
AirSound.v
AirRows.v
AirComplete.v
ProofSystem.v
ProofExamples.v
Ledger.v
Storage.v
LedgerSpec.v
StorageSpec.v
Recovery.v
Actor.v
ActorSpec.v
Handle.v
LedgerProof.v
Fixtures.v
LedgerExamples.v
Network.v
NetworkSpec.v
Outbound.v
Consensus.v
ConsensusSpec.v
Lifecycle.v
NodeExamples.v
Ingest.v
IngestSpec.v
IngestCorrect.v
IngestCodec.v
IngestExamples.v
Cli.v
CliSpec.v
SnapshotTool.v
CliExamples.v
