(* ===== verification/Prelude.v ===== *)
(** * Omega commitment: a verification development

    ** The program

    The workspace under [src/omega-commitment/crates] commits to a snapshot of
    the Cardano ledger and lets holders claim committed entries on another
    ledger.  Its parts are used in this order.

    - [omega-utxo-snapshot] asks a Cardano node for the whole UTxO set and
      writes the CBOR answer; [omega-commitment-ingest] turns CBOR files into
      lists of ledger entries; [omega-commitment-core] encodes the entries as
      leaves, builds Merkle trees and inclusion witnesses;
      [omega-commitment-cli] and [omega-commitment-bundle] write commitments,
      witnesses and the bundle over seven sub-trees.
    - [omega-claim-tx] is the claim transaction and its CBOR envelope;
      [omega-claim-prover] proves, with a batch of AIRs, that a claimed leaf is
      in a committed tree; [omega-claim-verifier] checks such a proof.
    - [omega-mock-ledger] applies verified claims to a database, at most once
      per leaf, behind a writer actor, and is the openraft log store and state
      machine; [omega-network] carries raft messages and snapshots over libp2p;
      [omega-toy-consensus] starts and stops a node and serves JSON-RPC.

    ** Files

    A component has a file of definitions, translated from the source, and
    files of theorems ([...Spec] and the like); [...Examples] files hold
    instances of the interfaces and the theorems at concrete inputs.

    - [Prelude]: bytes, machine integers, the [result] of fallible code
      ([Ok], [Err], [Panic]) with its notations, sorting.  [Files]: paths and
      the file system.  [Text]: decimal numbers.  [Serde]:
      [core/serde_helpers.rs].
    - [Hash], [Tree], [TreeSpec], [Witness], [Leaves], [LeavesSpec]:
      [omega-commitment-core] ([hash.rs], [tree.rs], [witness.rs], the seven
      [*_leaf.rs] and [snapshot_manifest.rs]).
    - [Bundle], [BundleSpec]: [omega-commitment-bundle] ([sub_tree_id.rs],
      [recompute.rs], [bundle.rs]).
    - [Cbor]: the interface of minicbor, with an implementation of it.
      [ClaimTx], [ClaimTxSpec]: [omega-claim-tx/src/lib.rs].
    - [Prover], [Blake3], [Blake3Spec], [Blake3Rows], [Air], [AirFacts],
      [AirLookups], [AirRows], [AirSound], [AirComplete], [ProofSystem],
      [ProofExamples]: [omega-claim-prover] ([lib.rs], [blake3_trace.rs]).
      [Verifier], [VerifierSpec]: [omega-claim-verifier/src/lib.rs].
    - [Ledger], [LedgerSpec]: tables and writer of [omega-mock-ledger]
      ([lib.rs], [schema.rs], [writer.rs]); [Storage], [StorageSpec]: raft
      entries, snapshots and [storage.rs]; [Recovery]: crashes between the
      commits of a batch; [Actor], [ActorSpec]: the writer's channel and its
      concurrent callers; [Handle]: the methods that go through it;
      [LedgerProof]: the ledger with the proof system;
      [Fixtures]: the synthetic claims of the prover's [test_fixtures.rs],
      from the tree to the ledger; [LedgerExamples].
    - [Network], [NetworkSpec]: [omega-network]; [Outbound]: concurrent calls
      through its bounded queue and the loop of the swarm.  [Consensus],
      [ConsensusSpec], [Lifecycle]: [omega-toy-consensus], its configuration,
      JSON-RPC, start, shutdown and [run] command.  [NodeExamples].
    - [Ingest], [IngestSpec], [IngestCorrect], [IngestCodec],
      [IngestExamples]: [omega-commitment-ingest].
    - [Cli], [CliSpec], [SnapshotTool], [CliExamples]: the command line tools.

    ** Modelling

    A pure function is a Rocq function of the same name.  A [u8] to [u128] is
    a [Z], with range checks and wrap-around where the source has them; a
    fixed array is a byte string whose length is part of a [wf] predicate; a
    [HashMap] or table is a [gmap].  Stateful code passes its state: the
    writer's database and files, the receiver's directory, the swarm's maps,
    the file system of a tool, the events of a node's tasks.  A failed step
    keeps what it has changed before.  Code that runs concurrently (the
    callers of the writer, the callers of the swarm) is a system of steps that
    interleave freely: a run is any list of events that the steps allow, and
    the theorems hold for all of them.

    Third-party code is a class: operations, and separately the laws that its
    documentation gives.  The laws are hypotheses of the theorems that use
    them, and every class of laws has an instance here.  They are: hash
    functions ([HashFns]), minicbor ([CborOps], [CborMapOps]), serde_json
    ([JsonInputs], [JsonOutputs]), hex ([HexOps]), BLAKE3's row constraints
    and the STARK ([Blake3Air], [StarkVerifier], [StarkProver]), ciborium and
    the SQLite file format ([Ciborium], [SqliteFiles]), key pairs
    ([Keypairs]), the Cardano node behind pallas ([CardanoNode]) and the
    outcomes of openraft, libp2p, jsonrpsee and tokio ([Runtime]).

    ** What the theorems show

    - Commitments bind.  Encodings are injective, trees and bundles commit to
      the set of their payloads; no injectivity of a hash is assumed, a
      violation computes a collision.  Witnesses verify, and a verifying
      witness opens the leaf that is there.
    - Codecs.  Claims, snapshot files, frames and tool outputs are read back;
      what a decoder accepts is well formed.
    - Proofs.  Traces that satisfy the constraints exhibit a leaf and a path
      to the committed root for every claim; honest traces satisfy them and
      their proofs are accepted.
    - Ledger.  A claim is applied exactly under the documented conditions,
      every leaf is claimed at most once over any sequence of commands, the
      tables stay well formed, the log refines a map from indexes to entries,
      snapshots carry the state over.  Concurrent callers see the commands
      executed one after the other, in the order sent, each gets its own
      reply, and every sent command can be answered.  Claims survive a crash
      at any point of a batch.
    - Nodes.  Snapshot transfer installs what was declared, a remote call
      returns the response of the remote handler to its own request, no caller
      is forgotten, submissions report what was applied; which tasks a start, a failed start and a run leave behind.
    - Tools.  Ingestion refines a reading of the whole file and always
      returns; the supply of a policy is the sum over the UTxOs; the chain
      from a snapshot to witness files and from assembly to verification.
    - What the code gets wrong is stated as a theorem where a model shows it:
      padding leaves can be claimed, a claimant may bring their own commitment,
      an installed snapshot is lost, a crash can lose a membership change, a
      node with the default identity path does not start, a failed start
      leaves tasks running.

    ** Fuel

    Loops that are not structural have a bound that covers every run.  The
    layers of a tree are halved, so its length bounds [grow_layers] and
    [reduce_root]; [chunks], [chunk_blocks], [decode_n] and [loop_n] consume
    at least one byte of their input in each round, so its length is enough
    (the source's count may be larger, the input then ends in an error);
    [print_digits] has more rounds than a [u128] has digits.  Theorems on
    these functions are stated for the bound the definitions use, and say
    that a result is returned.

    ** Not modelled

    - Argument parsing, logging and the lines the tools print: no state.
    - Sockets, timers and scheduling below the events the code handles, the
      wait for a first listen address, and disk faults: third-party code and
      the operating system.
    - The error probability of the proof system; the LogUp argument is taken
      for what it establishes, equal multiplicities.
    - The configuration of the STARK (field extension, FRI parameters): it is
      part of the third-party operations.
    - SQLite's pragmas, write-ahead log and connection pool, and failures to
      start a thread: third-party code and the operating system.
    - [omega-mock-ledger/src/cardano.rs] (documentation of a disabled
      feature), examples, benches, tests and harnesses. *)

From Stdlib Require Import ZArith Lia List Permutation Sorted String.
From Stdlib Require Import Strings.Byte.
From stdpp Require Import base decidable list countable.

#[export] Set Default Goal Selector "!".

Declare Scope omega_scope.
Delimit Scope omega_scope with omega.
Open Scope omega_scope.
Open Scope Z_scope.

(** ** Bytes *)

Abbreviation byte := Byte.byte (only parsing).
Abbreviation bytes := (list Byte.byte).

#[export] Instance byte_eq_dec : EqDecision Byte.byte := Byte.byte_eq_dec.

(** The value of a [u8] and the truncating cast [as u8]. *)
Definition b2z (b : byte) : Z := Z.of_N (Byte.to_N b).

Definition z2b (z : Z) : byte :=
  match Byte.of_N (Z.to_N (z mod 256)) with Some b => b | None => Byte.x00 end.

#[export] Instance byte_countable : Countable Byte.byte :=
  inj_countable Byte.to_N Byte.of_N Byte.of_to_N.

(** The UTF-8 (here: ASCII) bytes of a literal, Rust's [b"..."]. *)
Definition ascii_bytes (s : string) : bytes := String.list_byte_of_string s.

(** [z.to_be_bytes()] of an [n]-byte unsigned integer, and its inverse. *)
Fixpoint be_bytes (n : nat) (z : Z) : bytes :=
  match n with
  | O => []
  | S m => z2b (z / 256 ^ Z.of_nat m) :: be_bytes m z
  end.

Fixpoint be_val (bs : bytes) : Z :=
  match bs with
  | [] => 0
  | b :: bs' => b2z b * 256 ^ Z.of_nat (length bs') + be_val bs'
  end.

(** Ranges of the machine integers the sources use. *)
Definition in_range (w : Z) (z : Z) : Prop := 0 <= z < 2 ^ w.
Abbreviation is_u8 := (in_range 8).
Abbreviation is_u16 := (in_range 16).
Abbreviation is_u32 := (in_range 32).
Abbreviation is_u64 := (in_range 64).
Abbreviation is_u128 := (in_range 128).

#[export] Instance in_range_dec w z : Decision (in_range w z).
Proof. unfold in_range. apply _. Defined.

(** ** Results

    A call of a fallible function returns [Ok], returns [Err], or does not
    return because an index, a slice or an [expect] panics. *)

Inductive result (A E : Type) : Type :=
| Ok (a : A)
| Err (e : E)
| Panic.
Arguments Ok {A E} a.
Arguments Err {A E} e.
Arguments Panic {A E}.

Definition res_bind {A B E} (r : result A E) (f : A → result B E) : result B E :=
  match r with Ok a => f a | Err e => Err e | Panic => Panic end.

Definition res_map {A B E} (f : A → B) (r : result A E) : result B E :=
  match r with Ok a => Ok (f a) | Err e => Err e | Panic => Panic end.

(** Rust's [map_err]. *)
Definition res_map_err {A E F} (f : E → F) (r : result A E) : result A F :=
  match r with Ok a => Ok a | Err e => Err (f e) | Panic => Panic end.

Definition ok_or {A E} (o : option A) (e : E) : result A E :=
  match o with Some a => Ok a | None => Err e end.

(** A step that panics when its value is missing. *)
Definition or_panic {A E} (o : option A) : result A E :=
  match o with Some a => Ok a | None => Panic end.

Definition is_ok {A E} (r : result A E) : bool :=
  match r with Ok _ => true | _ => false end.

(** The [?] operator. *)
Notation "'let?' x ':=' c 'in' k" := (res_bind c (fun x => k))
  (at level 10, x pattern, c at level 100, k at level 200,
   format "'[v' 'let?'  x  ':='  c  'in' '/' k ']'") : omega_scope.

(** An early return: [if !b { return Err(e) }; k]. *)
Notation "'guard!' b 'else' e ';' k" := (if (b : bool) then k else Err e)
  (at level 10, b at level 100, e at level 100, k at level 200,
   format "'[v' 'guard!'  b  'else'  e ';' '/' k ']'") : omega_scope.

(** [iter.map(f).collect::<Result<Vec<_>, _>>()]: the first error wins. *)
Fixpoint res_mapM {A B E} (f : A → result B E) (l : list A) : result (list B) E :=
  match l with
  | [] => Ok []
  | x :: l' => let? y := f x in let? ys := res_mapM f l' in Ok (y :: ys)
  end.

(** ** Lexicographic order of byte strings, Rust's [Ord] on [[u8]] *)

Fixpoint bytes_le (x y : bytes) : bool :=
  match x, y with
  | [], _ => true
  | _ :: _, [] => false
  | a :: x', b :: y' =>
      if b2z a <? b2z b then true
      else if b2z b <? b2z a then false
      else bytes_le x' y'
  end.

(** ** Stable sorting, Rust's [sort] and [sort_by] *)

Section Sort.
Context {A : Type} (le : A → A → bool).

Fixpoint sort_insert (x : A) (l : list A) : list A :=
  match l with
  | [] => [x]
  | y :: l' => if le x y then x :: y :: l' else y :: sort_insert x l'
  end.

Fixpoint stable_sort (l : list A) : list A :=
  match l with
  | [] => []
  | x :: l' => sort_insert x (stable_sort l')
  end.

Definition LeRel (x y : A) : Prop := le x y = true.

Lemma sort_insert_perm x l : Permutation (x :: l) (sort_insert x l).
Proof.
  induction l as [|y l IH]; cbn; [done|].
  destruct (le x y); [done|].
  rewrite <- IH. constructor.
Qed.

Lemma stable_sort_perm l : Permutation l (stable_sort l).
Proof.
  induction l as [|x l IH]; cbn; [done|].
  rewrite <- sort_insert_perm. by constructor.
Qed.

Lemma stable_sort_length l : length (stable_sort l) = length l.
Proof. symmetry. apply Permutation_length, stable_sort_perm. Qed.

Lemma stable_sort_elem l x : x ∈ stable_sort l ↔ x ∈ l.
Proof. by rewrite <- (stable_sort_perm l). Qed.

Hypothesis le_total : ∀ x y, le x y = true ∨ le y x = true.
Hypothesis le_trans : ∀ x y z, le x y = true → le y z = true → le x z = true.

Lemma sort_insert_sorted x l :
  StronglySorted LeRel l → StronglySorted LeRel (sort_insert x l).
Proof.
  induction 1 as [|y l Hl IH Hy]; cbn; [repeat constructor|].
  destruct (le x y) eqn:E.
  - repeat (constructor; auto).
    eapply list.Forall_impl; [exact Hy|]. intros z. by apply le_trans.
  - constructor; [done|].
    rewrite <- sort_insert_perm. constructor; [|done].
    destruct (le_total x y) as [H|H]; [congruence|done].
Qed.

Lemma stable_sort_sorted l : StronglySorted LeRel (stable_sort l).
Proof. induction l; cbn; [constructor|]. by apply sort_insert_sorted. Qed.

(** A sorted list is left unchanged. *)
Lemma stable_sort_id l : StronglySorted LeRel l → stable_sort l = l.
Proof.
  induction 1 as [|x l Hl IH Hx]; cbn; [done|].
  rewrite IH. destruct Hx as [|y l' Hy]; cbn; [done|].
  by rewrite Hy.
Qed.

(** Stability: the elements equivalent to [k] keep their order. *)
Definition equiv_to (k x : A) : bool := le k x && le x k.

Lemma sort_insert_filter k x l :
  StronglySorted LeRel l →
  List.filter (equiv_to k) (sort_insert x l) = List.filter (equiv_to k) (x :: l).
Proof.
  induction 1 as [|y l Hl IH Hy]; cbn; [done|].
  destruct (le x y) eqn:E; cbn; [done|]. rewrite IH. cbn.
  destruct (equiv_to k x) eqn:Ex, (equiv_to k y) eqn:Ey; try done.
  exfalso. unfold equiv_to in *.
  apply andb_true_iff in Ex as [_ Hxk], Ey as [Hky _].
  rewrite (le_trans _ _ _ Hxk Hky) in E. discriminate.
Qed.

Lemma stable_sort_stable k l :
  List.filter (equiv_to k) (stable_sort l) = List.filter (equiv_to k) l.
Proof.
  induction l as [|x l IH]; cbn; [done|].
  rewrite sort_insert_filter by apply stable_sort_sorted. cbn. by rewrite IH.
Qed.

(** Sorting depends only on the multiset when equivalent members of the
    list are equal. *)
Lemma sorted_perm_unique l1 l2 :
  (∀ x y, x ∈ l1 → y ∈ l1 → le x y = true → le y x = true → x = y) →
  StronglySorted LeRel l1 → StronglySorted LeRel l2 →
  Permutation l1 l2 → l1 = l2.
Proof.
  intros Hanti H1. revert l2 Hanti.
  induction H1 as [|x l1 Hl1 IH Hx]; intros l2 Hanti H2 Hp.
  { symmetry. by apply Permutation_nil. }
  destruct H2 as [|y l2 Hl2 Hy].
  { by apply Permutation_sym, Permutation_nil_cons in Hp. }
  rewrite list.Forall_forall in Hx, Hy.
  assert (le_refl : ∀ z, le z z = true) by (intros z; destruct (le_total z z); done).
  assert (x = y) as <-.
  { assert (y ∈ x :: l1) as Hin1 by (rewrite Hp; left).
    assert (x ∈ y :: l2) as Hin2 by (rewrite <- Hp; left).
    apply Hanti; [left|done| |].
    - apply elem_of_cons in Hin1 as [->|?]; [apply le_refl|by apply Hx].
    - apply elem_of_cons in Hin2 as [->|?]; [apply le_refl|by apply Hy]. }
  f_equal. apply IH; [|done|by apply Permutation_cons_inv in Hp].
  intros a b Ha Hb. apply Hanti; by right.
Qed.

Lemma stable_sort_perm_invariant l1 l2 :
  (∀ x y, x ∈ l1 → y ∈ l1 → le x y = true → le y x = true → x = y) →
  Permutation l1 l2 → stable_sort l1 = stable_sort l2.
Proof.
  intros Hanti Hp. apply sorted_perm_unique.
  - intros x y Hx Hy. rewrite stable_sort_elem in Hx, Hy. by apply Hanti.
  - apply stable_sort_sorted.
  - apply stable_sort_sorted.
  - by rewrite <- !stable_sort_perm.
Qed.

End Sort.

(** ** Facts about bytes *)

Create Rewrite HintDb lengths.
Create HintDb omega.

Lemma b2z_range b : 0 <= b2z b < 256.
Proof. unfold b2z. pose proof (Byte.to_N_bounded b). lia. Qed.

Lemma z2b_b2z b : z2b (b2z b) = b.
Proof. by destruct b. Qed.

Lemma b2z_z2b z : b2z (z2b z) = z mod 256.
Proof.
  unfold z2b, b2z. pose proof (Z.mod_pos_bound z 256).
  destruct (Byte.of_N _) as [b|] eqn:E.
  - apply Byte.to_of_N in E. rewrite E. lia.
  - apply Byte.of_N_None_iff in E. lia.
Qed.

#[export] Instance b2z_inj : Inj (=) (=) b2z.
Proof. intros a b H. by rewrite <- (z2b_b2z a), H, z2b_b2z. Qed.

Lemma z2b_inj_u8 a b : is_u8 a → is_u8 b → z2b a = z2b b → a = b.
Proof.
  unfold in_range. intros Ha Hb H. apply (f_equal b2z) in H.
  rewrite !b2z_z2b, !Z.mod_small in H by lia. done.
Qed.

Lemma b2z_z2b_u8 z : is_u8 z → b2z (z2b z) = z.
Proof. intros H. rewrite b2z_z2b. apply Z.mod_small, H. Qed.

(** ** Facts about big-endian integers *)

Lemma length_be_bytes n z : length (be_bytes n z) = n.
Proof. induction n; cbn; auto. Qed.

Lemma length_ascii_bytes s : length (ascii_bytes s) = String.length s.
Proof.
  unfold ascii_bytes. induction s as [|c s IH]; cbn; [done|]. by f_equal.
Qed.

Lemma be_val_range bs : 0 <= be_val bs < 256 ^ Z.of_nat (length bs).
Proof.
  induction bs as [|b bs IH]; [done|].
  pose proof (b2z_range b). cbn [be_val length].
  rewrite Nat2Z.inj_succ, Z.pow_succ_r by lia. nia.
Qed.

Lemma be_val_be_bytes n z : be_val (be_bytes n z) = z mod 256 ^ Z.of_nat n.
Proof.
  induction n as [|n IH]; cbn [be_bytes be_val].
  { by rewrite Z.mod_1_r. }
  rewrite IH, length_be_bytes, b2z_z2b, Nat2Z.inj_succ, Z.pow_succ_r by lia.
  rewrite (Z.mul_comm 256), Z.rem_mul_r by lia. lia.
Qed.

Lemma be_val_be_bytes_small n z :
  0 <= z < 256 ^ Z.of_nat n → be_val (be_bytes n z) = z.
Proof. intros H. rewrite be_val_be_bytes. by apply Z.mod_small. Qed.

Lemma be_bytes_mod n z : be_bytes n (z mod 256 ^ Z.of_nat n) = be_bytes n z.
Proof.
  enough (∀ m, (n <= m)%nat → be_bytes n (z mod 256 ^ Z.of_nat m) = be_bytes n z) by auto.
  intros m. induction n as [|n IH]; intros Hm; cbn [be_bytes]; [done|].
  rewrite IH by lia. f_equal. apply b2z_inj. rewrite !b2z_z2b.
  replace (Z.of_nat m) with (Z.of_nat n + (1 + Z.of_nat (m - S n))) by lia.
  rewrite Z.pow_add_r, (Z.pow_add_r 256 1), Z.pow_1_r by lia.
  rewrite Z.rem_mul_r by nia.
  rewrite (Z.mul_comm (256 ^ Z.of_nat n)), Z.div_add by lia.
  rewrite (Z.div_small (z mod _)) by (apply Z.mod_pos_bound; lia).
  rewrite Z.rem_mul_r by lia.
  rewrite Z.add_0_l, (Z.mul_comm 256), Z.mod_add by lia. by rewrite Z.mod_mod by lia.
Qed.

Lemma be_bytes_be_val bs : be_bytes (length bs) (be_val bs) = bs.
Proof.
  induction bs as [|b bs IH]; cbn [be_bytes be_val length]; [done|].
  pose proof (be_val_range bs) as Hr. f_equal.
  - rewrite Z.div_add_l by lia. rewrite (Z.div_small (be_val bs)) by done.
    by rewrite Z.add_0_r, z2b_b2z.
  - rewrite <- be_bytes_mod, Z.add_comm, Z.mod_add by lia.
    rewrite be_bytes_mod. exact IH.
Qed.

Lemma be_bytes_inj n a b :
  0 <= a < 256 ^ Z.of_nat n → 0 <= b < 256 ^ Z.of_nat n →
  be_bytes n a = be_bytes n b → a = b.
Proof.
  intros Ha Hb H. apply (f_equal be_val) in H.
  by rewrite !be_val_be_bytes_small in H.
Qed.

Lemma be_bytes8_inj a b : is_u64 a → is_u64 b → be_bytes 8 a = be_bytes 8 b → a = b.
Proof. exact (be_bytes_inj 8 a b). Qed.

Lemma be_bytes4_inj a b : is_u32 a → is_u32 b → be_bytes 4 a = be_bytes 4 b → a = b.
Proof. exact (be_bytes_inj 4 a b). Qed.

Lemma be_bytes16_inj a b : is_u128 a → is_u128 b → be_bytes 16 a = be_bytes 16 b → a = b.
Proof. exact (be_bytes_inj 16 a b). Qed.

#[global] Arguments be_bytes : simpl never.

#[export] Hint Rewrite @length_app length_be_bytes length_ascii_bytes : lengths.

(** ** Facts about the byte order *)

Lemma bytes_le_total x y : bytes_le x y = true ∨ bytes_le y x = true.
Proof.
  revert y. induction x as [|a x IH]; intros [|b y]; cbn; auto.
  destruct (Z.ltb_spec (b2z a) (b2z b)), (Z.ltb_spec (b2z b) (b2z a)); auto.
Qed.

Lemma bytes_le_refl x : bytes_le x x = true.
Proof. destruct (bytes_le_total x x); done. Qed.

Lemma bytes_le_antisym x y : bytes_le x y = true → bytes_le y x = true → x = y.
Proof.
  revert y. induction x as [|a x IH]; intros [|b y]; cbn; try done.
  destruct (Z.ltb_spec (b2z a) (b2z b)), (Z.ltb_spec (b2z b) (b2z a));
    try done; try lia.
  intros. f_equal; [apply b2z_inj; lia|auto].
Qed.

Lemma bytes_le_trans x y z :
  bytes_le x y = true → bytes_le y z = true → bytes_le x z = true.
Proof.
  revert y z. induction x as [|a x IH]; intros [|b y] [|c z]; cbn; try done.
  destruct (Z.ltb_spec (b2z a) (b2z b)), (Z.ltb_spec (b2z b) (b2z a)),
    (Z.ltb_spec (b2z b) (b2z c)), (Z.ltb_spec (b2z c) (b2z b)),
    (Z.ltb_spec (b2z a) (b2z c)), (Z.ltb_spec (b2z c) (b2z a));
    try done; try lia. apply IH.
Qed.

Lemma bytes_le_app_lt x y x' y' :
  length x = length y → be_val x < be_val y → bytes_le (x ++ x') (y ++ y') = true.
Proof.
  revert y. induction x as [|a x IH]; intros [|b y] Hl Hv; cbn [length be_val app bytes_le] in *; try lia.
  injection Hl as Hl. pose proof (be_val_range x) as Hx. pose proof (be_val_range y) as Hy. rewrite Hl in *.
  destruct (Z.ltb_spec (b2z a) (b2z b)) as [|H1]; [done|].
  destruct (Z.ltb_spec (b2z b) (b2z a)) as [H2|H2]; [nia|].
  replace (b2z b) with (b2z a) in Hv by lia. apply IH; [done|lia].
Qed.

#[export] Hint Resolve bytes_le_total bytes_le_trans bytes_le_antisym bytes_le_refl : omega.

(** ** Facts about lists *)

Lemma elem_of_concat {A} (x : A) ls : x ∈ concat ls ↔ ∃ l, x ∈ l ∧ l ∈ ls.
Proof.
  rewrite list_elem_of_In, in_concat. setoid_rewrite <- list_elem_of_In. naive_solver.
Qed.

(** Two members with one image, when there are any. *)
Lemma fmap_nodup_or {A} `{EqDecision B} (f : A → B) (l : list A) :
  NoDup l → NoDup (f <$> l) ∨ ∃ x y, x ∈ l ∧ y ∈ l ∧ x ≠ y ∧ f x = f y.
Proof.
  induction 1 as [|x l Hx Hl [IH|(y & z & Hy & Hz & H)]]; [left; constructor|..].
  - destruct (decide (f x ∈ f <$> l)) as [Hf|Hf]; [|left; by constructor].
    apply list_elem_of_fmap in Hf as (y & E & Hy). right. exists x, y. split; [left|]. split; [by right|].
    split; [by intros ->|done].
  - right. exists y, z. split; [by right|]. by split; [right|].
Qed.

(** Elements of a duplicate-free concatenation are disjoint. *)
Lemma concat_nodup_disjoint {A B} (f : A → list B) l x y k :
  NoDup (concat (f <$> l)) → x ∈ l → y ∈ l → x ≠ y → k ∈ f x → k ∉ f y.
Proof.
  induction l as [|z l IH]; cbn; [by intros _ ?%not_elem_of_nil|]. intros (_ & Hd & Hn)%list.NoDup_app Hx Hy Hxy Hk Hk'.
  assert (Hin : ∀ u j, u ∈ l → j ∈ f u → j ∈ concat (f <$> l)).
  { intros u j Hu Hj. apply elem_of_concat. exists (f u). by split; [|apply list_elem_of_fmap_2]. }
  apply elem_of_cons in Hx as [->|Hx], Hy as [->|Hy]; [done|by apply (Hd k), (Hin y)|by apply (Hd k), (Hin x)|by apply (IH Hn Hx Hy)].
Qed.

(** ** Facts about results *)

Lemma res_bind_ok {A B E} (r : result A E) (f : A → result B E) b :
  res_bind r f = Ok b ↔ ∃ a, r = Ok a ∧ f a = Ok b.
Proof. destruct r; cbn; naive_solver. Qed.

Lemma res_mapM_ok {A B E} (f : A → result B E) l ys :
  res_mapM f l = Ok ys ↔ Forall2 (λ x y, f x = Ok y) l ys.
Proof.
  revert ys. induction l as [|x l IH]; intros ys; cbn.
  - split; [intros [= <-]; constructor|]. by inversion 1.
  - rewrite res_bind_ok. setoid_rewrite res_bind_ok. split.
    + intros (y & Hy & ys' & Hys & [= <-]). constructor; [done|]. by apply IH.
    + inversion 1; subst. naive_solver.
Qed.

Lemma Ok_inj {A E} (a b : A) : @Ok A E a = Ok b → a = b.
Proof. by intros [= ->]. Qed.

(** Takes apart hypotheses that say a chain of fallible steps succeeded. *)
Ltac destruct_ok :=
  repeat match goal with
  | H : res_bind _ _ = Ok _ |- _ =>
      let x := fresh "x" in let E := fresh "E" in
      apply res_bind_ok in H as (x & E & H); cbn beta in H
  | H : (match ?x with (_, _) => _ end) = Ok _ |- _ => destruct x; cbn beta iota in H
  | H : (if ?b then _ else Err _) = Ok _ |- _ =>
      let E := fresh "E" in destruct b eqn:E; [|discriminate H]
  | H : ok_or ?o _ = Ok _ |- _ =>
      let E := fresh "E" in destruct o eqn:E; [cbn [ok_or] in H|discriminate H]
  | H : Ok ?a = Ok ?b |- _ => apply Ok_inj in H; first [subst b | subst a | idtac]
  end.

(** ** Facts about lists *)

Lemma app_eq_len {A} (a b x y : list A) :
  length a = length b → a ++ x = b ++ y → a = b ∧ x = y.
Proof. intros Hl H. by apply app_inj_1 in H. Qed.

Lemma app_eq_len_r {A} (a b x y : list A) :
  length x = length y → a ++ x = b ++ y → a = b ∧ x = y.
Proof. intros Hl H. by apply app_inj_2 in H. Qed.

Lemma cons_eq_cons {A} (a b : A) (x y : list A) : a :: x = b :: y → a = b ∧ x = y.
Proof. by intros [= -> ->]. Qed.

(** Splits equations between concatenations of fields of known widths. *)
Ltac split_fields :=
  repeat match goal with
  | H : _ ++ _ = _ ++ _ |- _ =>
      apply app_eq_len in H as [? H]; [|autorewrite with lengths; cbn; congruence || lia]
  | H : [_] = [_] |- _ => injection H as H
  | H : _ :: _ = _ :: _ |- _ => injection H as ? H
  end.

(** Proves a decidable closed proposition by evaluation. *)
Ltac by_compute := apply (bool_decide_eq_true_1 _); vm_compute; reflexivity.
