(* ===== verification/Files.v ===== *)
(** * Paths and files

    The parts of [std::path] and [std::fs] the programs use.  A path is the
    list of its components from the root, absolute and normalised; the file
    system is a map from paths to directories and files.  The root directory
    is the empty path and always exists.  Symbolic links, permissions and
    I/O faults are not modelled. *)

From S2P Require Import Prelude.
From Stdlib Require Import ZArith Lia List String.
From stdpp Require Import base decidable strings gmap list.

Local Open Scope Z_scope.

Abbreviation Path := (list string).

(** The last dot of a file name: what is before and after it. *)
Fixpoint rsplit_dot (s : string) : option (string * string) :=
  match s with
  | EmptyString => None
  | String a s' =>
      match rsplit_dot s' with
      | Some (l, r) => Some (String a l, r)
      | None => if Ascii.eqb a (Ascii.ascii_of_nat 46) then Some (EmptyString, s') else None
      end
  end.

(** [Path::extension]: none for a name whose only dot is its first character. *)
Definition extension (p : Path) : option string :=
  match last p with
  | None => None
  | Some name => match rsplit_dot name with
                 | Some (EmptyString, _) | None => None
                 | Some (_, ext) => Some ext
                 end
  end.

Definition file_stem (name : string) : string :=
  match rsplit_dot name with
  | Some (EmptyString, _) | None => name
  | Some (stem, _) => stem
  end.

Definition with_extension (p : Path) (ext : string) : Path :=
  match last p with
  | None => p
  | Some name => removelast p ++ [(file_stem name +:+ "." +:+ ext)%string]
  end.

Inductive FsNode : Type := FsDir | FsFile (content : bytes).
Abbreviation Fs := (gmap Path FsNode).

Inductive FsError : Type := NotFound | NotADirectory | IsADirectory.

(** Whether a component above the last one is a file. *)
Fixpoint below_file (fs : Fs) (acc rest : Path) : bool :=
  match rest with
  | [] | [_] => false
  | c :: rest' =>
      match fs !! (acc ++ [c]) with
      | Some (FsFile _) => true
      | _ => below_file fs (acc ++ [c]) rest'
      end
  end.

(** [std::fs::read]. *)
Definition fs_read (fs : Fs) (p : Path) : result bytes FsError :=
  guard! negb (below_file fs [] p) else NotADirectory;
  match fs !! p with
  | None => Err NotFound
  | Some FsDir => Err IsADirectory
  | Some (FsFile b) => Ok b
  end.

(** [std::fs::create_dir_all]. *)
Fixpoint create_dirs (fs : Fs) (acc rest : Path) : result Fs FsError :=
  match rest with
  | [] => Ok fs
  | c :: rest' =>
      match fs !! (acc ++ [c]) with
      | Some (FsFile _) => Err NotADirectory
      | Some FsDir => create_dirs fs (acc ++ [c]) rest'
      | None => create_dirs (<[acc ++ [c] := FsDir]> fs) (acc ++ [c]) rest'
      end
  end.

Definition create_dir_all (fs : Fs) (p : Path) : result Fs FsError := create_dirs fs [] p.

(** Whether a file can be created at [p]: its parent is a directory, or [p]
    is directly below the root. *)
Definition parent_dir (fs : Fs) (p : Path) : result unit FsError :=
  if decide (removelast p = []) then Ok ()
  else match fs !! removelast p with
  | Some FsDir => Ok ()
  | Some (FsFile _) => Err NotADirectory
  | None => if below_file fs [] (removelast p) then Err NotADirectory else Err NotFound
  end.

(** [std::fs::write]. *)
Definition fs_write (fs : Fs) (p : Path) (b : bytes) : result Fs FsError :=
  let? _ := parent_dir fs p in
  match fs !! p with
  | Some FsDir => Err IsADirectory
  | _ => Ok (<[p := FsFile b]> fs)
  end.

(** [std::fs::canonicalize] of an absolute, normalised path: without
    symbolic links it only has to exist. *)
Definition canonicalize (fs : Fs) (p : Path) : result Path FsError :=
  guard! negb (below_file fs [] p) else NotADirectory;
  match fs !! p with
  | None => if decide (p = []) then Ok p else Err NotFound
  | Some _ => Ok p
  end.

(** The length [std::fs::metadata] reports.  The length of a directory
    depends on the file system; only its being a directory matters here. *)
Definition metadata_len (fs : Fs) (p : Path) : result Z FsError :=
  match fs !! p with
  | None => Err NotFound
  | Some FsDir => Ok 0
  | Some (FsFile b) => Ok (Z.of_nat (length b))
  end.

(** ** Facts *)

(** Everything below the root is in a directory. *)
Definition wf_fs (fs : Fs) : Prop := ∀ p c x, fs !! (p ++ [c]) = Some x → p = [] ∨ fs !! p = Some FsDir.

(** The same, evaluated. *)
Definition in_dir (fs : Fs) (e : Path * FsNode) : bool :=
  match removelast e.1 with
  | [] => true
  | q => match fs !! q with Some FsDir => true | _ => false end
  end.

Lemma wf_fs_check fs : forallb (in_dir fs) (map_to_list fs) = true → wf_fs fs.
Proof.
  intros H p c x Hx. apply elem_of_map_to_list in Hx. rewrite forallb_forall in H.
  specialize (H _ (proj1 (list_elem_of_In _ _) Hx)). unfold in_dir in H. cbn [fst] in H. rewrite removelast_last in H.
  destruct p as [|d p]; [by left|]. right. by destruct (fs !! (d :: p)) as [[]|].
Qed.

Lemma create_dirs_keeps fs acc rest fs' q :
  create_dirs fs acc rest = Ok fs' → fs !! q = Some FsDir → fs' !! q = Some FsDir.
Proof.
  revert fs acc. induction rest as [|c rest IH]; intros fs acc; cbn [create_dirs]; [by intros [= <-]|].
  destruct (fs !! (acc ++ [c])) as [[|b]|] eqn:E; [by apply IH|done|]. intros H Hq. eapply IH; [exact H|].
  rewrite lookup_insert_ne by congruence. done.
Qed.

Lemma create_dirs_creates fs acc rest fs' :
  create_dirs fs acc rest = Ok fs' → rest ≠ [] → fs' !! (acc ++ rest) = Some FsDir.
Proof.
  revert fs acc. induction rest as [|c rest IH]; intros fs acc; [done|]. cbn [create_dirs]. intros H _.
  assert (Hd : ∀ fs1, create_dirs fs1 (acc ++ [c]) rest = Ok fs' → fs1 !! (acc ++ [c]) = Some FsDir →
    fs' !! (acc ++ c :: rest) = Some FsDir).
  { intros fs1 H1 Hc. destruct rest as [|c' rest']; [by apply (create_dirs_keeps _ _ _ _ _ H1)|].
    change (c :: c' :: rest') with ([c] ++ c' :: rest'). rewrite app_assoc. by apply (IH fs1). }
  destruct (fs !! (acc ++ [c])) as [[|b]|] eqn:E; [by apply (Hd fs)|done|].
  apply (Hd _ H). by rewrite lookup_insert_eq.
Qed.
