(* ===== verification/Text.v ===== *)
(** * Numbers as text

    The parsing and printing of unsigned integers by the Rust standard
    library, in decimal. *)

From S2P Require Import Prelude.
From Stdlib Require Import ZArith Lia List String Ascii.
From stdpp Require Import base decidable strings list.

Local Open Scope Z_scope.

Definition digit_of (a : Ascii.ascii) : option Z :=
  let n := Z.of_nat (Ascii.nat_of_ascii a) in
  if (48 <=? n) && (n <=? 57) then Some (n - 48) else None.

(** The digits of a [w]-bit integer, from the left; too large a value is an
    error. *)
Fixpoint parse_digits (w acc : Z) (s : string) : option Z :=
  match s with
  | EmptyString => Some acc
  | String a s' =>
      match digit_of a with
      | Some d => let acc' := 10 * acc + d in if acc' <? 2 ^ w then parse_digits w acc' s' else None
      | None => None
      end
  end.

(** [str::parse] at a [w]-bit unsigned type: an optional plus sign and at least
    one digit. *)
Definition parse_uint (w : Z) (s : string) : option Z :=
  match s with
  | EmptyString => None
  | String a s' =>
      if Ascii.eqb a (Ascii.ascii_of_nat 43) then
        match s' with EmptyString => None | _ => parse_digits w 0 s' end
      else parse_digits w 0 s
  end.

Definition parse_u64 (s : string) : option Z := parse_uint 64 s.
Definition parse_u128 (s : string) : option Z := parse_uint 128 s.

Definition digit_char (d : Z) : Ascii.ascii := Ascii.ascii_of_nat (Z.to_nat (48 + d)).

(** The decimal digits in front of [rest].  A number of [w] bits has at most
    [w] digits, so [w] rounds are enough. *)
Fixpoint print_digits (fuel : nat) (z : Z) (rest : string) : string :=
  match fuel with
  | O => rest
  | S fuel' =>
      let rest := String (digit_char (z mod 10)) rest in
      if z <? 10 then rest else print_digits fuel' (z / 10) rest
  end.

(** [to_string] of a [u128]. *)
Definition u128_to_string (z : Z) : string := print_digits 129 z "".

(** ** Facts *)

Lemma digit_of_char d : 0 <= d < 10 → digit_of (digit_char d) = Some d.
Proof.
  intros Hd. assert (H : d = 0 ∨ d = 1 ∨ d = 2 ∨ d = 3 ∨ d = 4 ∨ d = 5 ∨ d = 6 ∨ d = 7 ∨ d = 8 ∨ d = 9) by lia.
  by repeat (destruct H as [->|H]; [done|]); subst.
Qed.

Lemma digit_char_not_plus d : 0 <= d < 10 → Ascii.eqb (digit_char d) (Ascii.ascii_of_nat 43) = false.
Proof.
  intros Hd. assert (H : d = 0 ∨ d = 1 ∨ d = 2 ∨ d = 3 ∨ d = 4 ∨ d = 5 ∨ d = 6 ∨ d = 7 ∨ d = 8 ∨ d = 9) by lia.
  by repeat (destruct H as [->|H]; [done|]); subst.
Qed.

(** Parsing the printed digits of [z] behind those of [acc]: reading [z] then
    [rest] is reading [rest] from [z]. *)
Lemma parse_print w fuel z rest :
  0 <= z < 2 ^ w → z < 2 ^ Z.of_nat fuel → (0 < fuel)%nat →
  parse_digits w 0 (print_digits fuel z rest) = parse_digits w z rest.
Proof.
  revert z rest. induction fuel as [|fuel IH]; intros z rest Hz Hf Hpos; [lia|]. cbn [print_digits].
  pose proof (Z.mod_pos_bound z 10 ltac:(lia)) as Hm. pose proof (Z.div_mod z 10 ltac:(lia)) as Hdm.
  assert (Hstep : ∀ q, 0 <= q → 10 * q + z mod 10 = z →
    parse_digits w q (String (digit_char (z mod 10)) rest) = parse_digits w z rest).
  { intros q Hq Hqz. cbn [parse_digits]. rewrite digit_of_char by lia. cbv zeta. rewrite Hqz.
    by rewrite (proj2 (Z.ltb_lt z _)) by lia. }
  destruct (Z.ltb_spec z 10); [apply Hstep; lia|].
  assert (Hp : 2 ^ Z.of_nat (S fuel) = 2 * 2 ^ Z.of_nat fuel) by (rewrite Nat2Z.inj_succ, Z.pow_succ_r; lia).
  rewrite IH; [apply Hstep; lia|lia|lia|].
  destruct fuel; [cbn in Hf; lia|lia].
Qed.

Lemma print_digits_head fuel z rest : 0 <= z → (0 < fuel)%nat →
  ∃ d s, print_digits fuel z rest = String (digit_char d) s ∧ 0 <= d < 10.
Proof.
  revert z rest. induction fuel as [|fuel IH]; intros z rest Hz Hf; [lia|]. cbn [print_digits].
  pose proof (Z.mod_pos_bound z 10 ltac:(lia)). destruct (z <? 10); [by eexists _, _|].
  destruct fuel as [|fuel]; [by eexists _, _|]. apply IH; [|lia]. apply Z.div_pos; lia.
Qed.

Lemma parse_u128_to_string z : is_u128 z → parse_u128 (u128_to_string z) = Some z.
Proof.
  intros Hz. unfold u128_to_string, parse_u128, parse_uint.
  destruct (print_digits_head 129 z "" (proj1 Hz) ltac:(lia)) as (d & s & E & Hd).
  pose proof (parse_print 128 129 z "" Hz) as H. rewrite E in *. rewrite digit_char_not_plus by done.
  rewrite H; [done| |lia]. unfold in_range in Hz. cbn. lia.
Qed.
