(* ===== verification/Hash.v ===== *)
(** * Hash functions

    [omega-commitment-core/src/hash.rs].  BLAKE3 and SHA3-256 come from
    third-party crates, so they are the operations of the class [HashFns],
    and the only fact used about them is the documented one, that both
    return 32 bytes ([HashLaws]).  Nothing assumes that they are injective:
    binding theorems return an explicit pair of colliding inputs
    ([Collision]) instead.  [toy_hashes] is a concrete instance used to
    evaluate definitions and to show that hypotheses can hold. *)

From S2P Require Import Prelude.
From Stdlib Require Import ZArith Lia List.
From stdpp Require Import base decidable list.

Local Open Scope Z_scope.

Class HashFns := {
  blake3_hash : bytes → bytes;
  sha3_digest : bytes → bytes
}.

Class HashLaws (HF : HashFns) : Prop := {
  blake3_hash_len : ∀ x, length (blake3_hash x) = 32%nat;
  sha3_digest_len : ∀ x, length (sha3_digest x) = 32%nat
}.

(** [type Hash = [u8; 32]]: a byte string of length 32. *)
Definition is_hash (h : bytes) : Prop := length h = 32%nat.

#[export] Instance is_hash_dec h : Decision (is_hash h).
Proof. unfold is_hash. apply _. Defined.

#[global] Typeclasses Opaque is_hash.

Section Hash.
Context {HF : HashFns}.

Definition blake3_256 (data : bytes) : bytes := blake3_hash data.

(** [hasher.update(a); hasher.update(b)] hashes the concatenation. *)
Definition sha3_256 (data : bytes) : bytes := sha3_digest data.

Definition dual_hash (data : bytes) : bytes * bytes :=
  (blake3_256 data, sha3_256 data).

Context {HL : HashLaws HF}.

Lemma length_blake3_256 x : length (blake3_256 x) = 32%nat.
Proof. apply blake3_hash_len. Qed.

Lemma length_sha3_256 x : length (sha3_256 x) = 32%nat.
Proof. apply sha3_digest_len. Qed.

End Hash.

#[export] Hint Rewrite @length_blake3_256 @length_sha3_256 using (exact _) : lengths.

(** Two different inputs with one digest. *)
Definition Collision (h : bytes → bytes) (p : bytes * bytes) : Prop :=
  p.1 ≠ p.2 ∧ h p.1 = h p.2.

#[export] Instance Collision_dec h p : Decision (Collision h p).
Proof. unfold Collision. apply _. Defined.

(** A polynomial checksum modulo [2^31 - 1], padded to 32 bytes. *)
Definition toy_hash (seed : Z) (x : bytes) : bytes :=
  replicate 28 Byte.x00 ++
  be_bytes 4 (fold_left (λ a b, (a * 65537 + b2z b + 1) mod 2147483647) x seed).

Definition toy_hashes : HashFns :=
  {| blake3_hash := toy_hash 7; sha3_digest := toy_hash 11 |}.

#[export] Instance toy_hash_laws : HashLaws toy_hashes.
Proof. split; intros x; cbn [blake3_hash sha3_digest toy_hashes]; unfold toy_hash; by rewrite length_app, length_be_bytes. Qed.
