(* ===== verification/Serde.v ===== *)
(** * Serde adapters

    [omega-commitment-core/src/serde_helpers.rs]: the adapters between hashes
    or 128-bit integers and the values a serde format holds.  A serializer is
    the value it is handed, a deserializer the value it offers to the visitor.
    The hex crate is a parameter, [HexOps]. *)

From S2P Require Import Prelude Text Hash.
From Stdlib Require Import ZArith Lia List String.
From stdpp Require Import base decidable strings list.

Local Open Scope Z_scope.

Class HexOps := { hex_encode : bytes → string; hex_decode : string → option bytes }.

Class HexLaws (HX : HexOps) : Prop := {
  hex_roundtrip x : hex_decode (hex_encode x) = Some x
}.

(** A value of serde's data model: what a serializer is handed, and what a
    self-describing format offers.  The narrower integers arrive at
    [visit_u64] and [visit_i64]; [CNone] is [null] in JSON, where [CSome] is
    transparent. *)
Inductive Content : Type :=
| CStr (s : string)
| CU64 (z : Z)
| CU128 (z : Z)
| CI64 (z : Z)
| CI128 (z : Z)
| CSeq (l : list Content)
| CNone
| CSome (c : Content)
| COther.

Inductive SerdeError : Type := SerdeType | SerdeHex | SerdeHashLen | SerdeInt.

(** [String::deserialize]. *)
Definition de_string (c : Content) : result string SerdeError :=
  match c with CStr s => Ok s | _ => Err SerdeType end.

(** [Option::<String>::deserialize]. *)
Definition de_option_string (c : Content) : result (option string) SerdeError :=
  match c with
  | CNone => Ok None
  | CSome c => let? s := de_string c in Ok (Some s)
  | c => let? s := de_string c in Ok (Some s)
  end.

Definition u128_dec_serialize (v : Z) : Content := CStr (u128_to_string v).

(** The visitor [V] of [u128_dec::deserialize]; a method it does not define is
    a type error. *)
Definition u128_dec_deserialize (d : Content) : result Z SerdeError :=
  match d with
  | CStr s => ok_or (parse_u128 s) SerdeInt
  | CU64 v | CU128 v => Ok v
  | CI64 v | CI128 v => guard! (0 <=? v) else SerdeInt; Ok v
  | CSeq _ | CNone | CSome _ | COther => Err SerdeType
  end.

Section Serde.
Context {HX : HexOps}.

(** The closure of [hex_vec_hash::deserialize]; [opt_hex] has the same lines. *)
Definition decode_hash (s : string) : result bytes SerdeError :=
  let? b := ok_or (hex_decode s) SerdeHex in
  guard! Nat.eqb (length b) 32 else SerdeHashLen;
  Ok b.

Definition hex_vec_hash_serialize (v : list bytes) : Content :=
  CSeq ((λ h, CStr (hex_encode h)) <$> v).

Definition hex_vec_hash_deserialize (d : Content) : result (list bytes) SerdeError :=
  let? strs := match d with CSeq l => res_mapM de_string l | _ => Err SerdeType end in
  res_mapM decode_hash strs.

Definition opt_hex_serialize (v : option bytes) : Content :=
  match v with None => CNone | Some b => CSome (CStr (hex_encode b)) end.

Definition opt_hex_deserialize (d : Content) : result (option bytes) SerdeError :=
  let? opt := de_option_string d in
  match opt with
  | None => Ok None
  | Some s => let? arr := decode_hash s in Ok (Some arr)
  end.

End Serde.

(** ** Round trips *)

Section RoundTrips.
Context {HX : HexOps}.

Lemma decode_hash_ok s b : decode_hash s = Ok b ↔ hex_decode s = Some b ∧ is_hash b.
Proof.
  unfold decode_hash, is_hash. destruct (hex_decode s) as [b'|]; cbn; [|naive_solver].
  destruct (Nat.eqb_spec (length b') 32); naive_solver.
Qed.

(** The hash adapters accept exactly the strings that are hex of 32 bytes, in
    a list or alone, and an absent hash. *)
Theorem serde_hash_adapters_exact (strs : list string) (s : string) (v : list bytes) (o : option bytes) :
  (hex_vec_hash_deserialize (CSeq (CStr <$> strs)) = Ok v ↔
     Forall2 (λ s h, hex_decode s = Some h ∧ is_hash h) strs v) ∧
  (opt_hex_deserialize (CStr s) = Ok o ↔ ∃ h, o = Some h ∧ hex_decode s = Some h ∧ is_hash h) ∧
  opt_hex_deserialize CNone = Ok None.
Proof.
  assert (E : res_mapM de_string (CStr <$> strs) = Ok strs).
  { clear. induction strs as [|s strs IH]; [done|]. cbn. by rewrite IH. }
  split_and!; [| |done].
  - unfold hex_vec_hash_deserialize. rewrite E. cbn [res_bind]. clear E. revert v.
    induction strs as [|s' strs IH]; intros v; cbn.
    + split; [intros [= <-]; constructor|intros H; by inversion H].
    + split.
      * intros H. destruct_ok. constructor; [by apply decode_hash_ok|by apply IH].
      * intros H. inversion H as [|? h ? v' Hh Hv]; subst. apply decode_hash_ok in Hh.
        apply IH in Hv. rewrite Hh. cbn. by rewrite Hv.
  - unfold opt_hex_deserialize. cbn. split.
    + intros H. destruct (decode_hash s) as [b| |] eqn:Hb; simplify_eq/=.
      exists b. split; [done|]. by apply decode_hash_ok.
    + intros (h & -> & Hh). apply decode_hash_ok in Hh. by rewrite Hh.
Qed.

(** What the adapters write, they read back: lists of hashes, optional hashes
    and 128-bit integers. *)
Theorem serde_roundtrip (HXL : HexLaws HX) (v : list bytes) (o : option bytes) (z : Z)
    (Hv : Forall is_hash v) (Ho : from_option is_hash True o) (Hz : is_u128 z) :
  hex_vec_hash_deserialize (hex_vec_hash_serialize v) = Ok v ∧
  opt_hex_deserialize (opt_hex_serialize o) = Ok o ∧
  u128_dec_deserialize (u128_dec_serialize z) = Ok z.
Proof.
  assert (D : ∀ h, is_hash h → decode_hash (hex_encode h) = Ok h).
  { intros h Hh. apply decode_hash_ok. by rewrite hex_roundtrip. }
  split_and!.
  - unfold hex_vec_hash_deserialize, hex_vec_hash_serialize.
    assert (E : res_mapM de_string ((λ h, CStr (hex_encode h)) <$> v) = Ok (hex_encode <$> v)).
    { clear. induction v as [|h v IH]; [done|]. cbn. by rewrite IH. }
    rewrite E. cbn [res_bind]. clear E. induction Hv as [|h v Hh Hv IH]; [done|]. cbn.
    rewrite D by done. cbn. by rewrite IH.
  - destruct o as [b|]; [|done]. cbn. by rewrite D.
  - unfold u128_dec_serialize, u128_dec_deserialize. by rewrite parse_u128_to_string.
Qed.

End RoundTrips.
