(* ===== verification/Tree.v ===== *)
(** * The binary Merkle tree

    [omega-commitment-core/src/tree.rs].  [build_v1] is the domain-separated
    tree over raw leaf payloads, [build] the legacy tree over hashes; both
    grow layers upwards with the loop [grow_layers].  [merkle_root] is the
    reference definition of the root of a perfect binary tree, [walk] the
    replay of an authentication path. *)

From S2P Require Import Prelude Hash.
From Stdlib Require Import ZArith Lia List Permutation Sorted String.
From stdpp Require Import base decidable list.

Local Open Scope Z_scope.

Definition DOMAIN_LEAF : bytes := ascii_bytes "omega:v2:leaf".
Definition DOMAIN_NODE : bytes := ascii_bytes "omega:v2:node".
Definition EMPTY_INDEX_SENTINEL : Z := 2 ^ 64 - 1.
Definition ZERO_HASH : bytes := replicate 32 Byte.x00.

Inductive BuildError : Type :=
| DuplicateLeafPayload (sub_tree_id : Z) (index : nat).

Record MerkleTree := { mt_leaves : list bytes; mt_layers : list (list bytes) }.

(** [usize::next_power_of_two]. *)
Definition next_power_of_two (n : nat) : nat := (2 ^ Nat.log2_up n)%nat.

(** [iter().position(|p| p == x)]. *)
Fixpoint position (x : bytes) (l : list bytes) : option nat :=
  match l with
  | [] => None
  | y :: l' => if decide (y = x) then Some 0%nat else S <$> position x l'
  end.

(** The first window [[w0, w1]] of [windows(2)] with [w0 == w1]. *)
Fixpoint equal_window (l : list bytes) : option bytes :=
  match l with
  | x :: (y :: _) as l' => if decide (x = y) then Some y else equal_window l'
  | _ => None
  end.

(** [while leaves.len() < target { leaves.push(pad) }]. *)
Definition pad_to (target : nat) (pad : bytes) (leaves : list bytes) : list bytes :=
  leaves ++ replicate (target - length leaves)%nat pad.

Section Layers.
Context (node : bytes → bytes → bytes).

(** One pass of [for chunk in prev.chunks(2)]; a chunk of one element
    panics at [chunk[1]]. *)
Fixpoint next_layer (prev : list bytes) : option (list bytes) :=
  match prev with
  | [] => Some []
  | [_] => None
  | l :: r :: prev' => cons (node l r) <$> next_layer prev'
  end.

(** The loop [while layers.last().len() > 1], from its current last layer. *)
Fixpoint grow_layers (fuel : nat) (last : list bytes) : option (list (list bytes)) :=
  if (1 <? length last)%nat then
    match fuel with
    | O => None
    | S fuel' => next ← next_layer last; cons last <$> grow_layers fuel' next
    end
  else Some [last].

(** Reference: the root of the perfect tree of depth [d] over [2^d] leaves. *)
Fixpoint merkle_root (d : nat) (leaves : list bytes) : bytes :=
  match d with
  | O => default [] (head leaves)
  | S d' => node (merkle_root d' (take (2 ^ d')%nat leaves))
                 (merkle_root d' (drop (2 ^ d')%nat leaves))
  end.

(** One step up: the index's low bit says on which side [cur] sits. *)
Definition step_up (idx : Z) (cur sib : bytes) : bytes :=
  if Z.land idx 1 =? 0 then node cur sib else node sib cur.

(** The replay of an authentication path from the leaf upwards. *)
Fixpoint walk (idx : Z) (cur : bytes) (siblings : list bytes) : bytes :=
  match siblings with
  | [] => cur
  | s :: ss => walk (idx / 2) (step_up idx cur s) ss
  end.

(** [for layer in &layers[..depth] { siblings.push(layer[idx ^ 1]); idx /= 2 }];
    a missing index panics. *)
Fixpoint sibling_path (layers : list (list bytes)) (idx : Z) : option (list bytes) :=
  match layers with
  | [] => Some []
  | layer :: layers' =>
      s ← layer !! Z.to_nat (Z.lxor idx 1);
      cons s <$> sibling_path layers' (idx / 2)
  end.

End Layers.

Section Tree.
Context {HF : HashFns}.

Definition leaf_preimage (sub_tree_id canonical_index : Z) (payload : bytes) : bytes :=
  DOMAIN_LEAF ++ [z2b sub_tree_id] ++ be_bytes 8 canonical_index ++
  be_bytes 8 (Z.of_nat (length payload)) ++ payload.

Definition leaf_hash_v2 (sub_tree_id canonical_index : Z) (payload : bytes) : bytes :=
  blake3_256 (leaf_preimage sub_tree_id canonical_index payload).

Definition node_preimage (left right : bytes) : bytes := DOMAIN_NODE ++ left ++ right.

Definition node_hash_v2 (left right : bytes) : bytes :=
  blake3_256 (node_preimage left right).

(** The legacy node hash, [blake3_256(left || right)]. *)
Definition node_hash_legacy (left right : bytes) : bytes := blake3_256 (left ++ right).

Definition build_layers_v1 (leaves : list bytes) : option MerkleTree :=
  layers ← grow_layers node_hash_v2 (length leaves) leaves;
  Some {| mt_leaves := leaves; mt_layers := layers |}.

(** The leaf hashes of sorted payloads, each bound to its sorted index. *)
Definition leaf_hashes (sub_tree_id : Z) (payloads : list bytes) : list bytes :=
  imap (λ i p, leaf_hash_v2 sub_tree_id (Z.of_nat i) p) payloads.

Definition padded_leaves (sub_tree_id : Z) (payloads : list bytes) : list bytes :=
  pad_to (next_power_of_two (Nat.max (length payloads) 1))
    (leaf_hash_v2 sub_tree_id EMPTY_INDEX_SENTINEL []) (leaf_hashes sub_tree_id payloads).

Definition build_v1 (sub_tree_id : Z) (payloads : list bytes) : result MerkleTree BuildError :=
  let payloads := stable_sort bytes_le payloads in
  match equal_window payloads with
  | Some w => Err (DuplicateLeafPayload sub_tree_id (default 0%nat (position w payloads)))
  | None => or_panic (build_layers_v1 (padded_leaves sub_tree_id payloads))
  end.

Definition build_legacy (input : list bytes) : option MerkleTree :=
  let input := stable_sort bytes_le input in
  let leaves := pad_to (next_power_of_two (Nat.max (length input) 1)) ZERO_HASH input in
  layers ← grow_layers node_hash_legacy (length leaves) leaves;
  Some {| mt_leaves := leaves; mt_layers := layers |}.

Definition build (input : list bytes) : option MerkleTree := build_legacy input.

(** [root()]: both [expect]s panic on an empty vector. *)
Definition root (t : MerkleTree) : option bytes := last (mt_layers t) ≫= head.

Definition depth (t : MerkleTree) : nat := (length (mt_layers t) - 1)%nat.

Definition leaf_count (t : MerkleTree) : nat := length (mt_leaves t).

End Tree.

(** ** Layers *)

Lemma pow2_S d : (2 ^ S d = 2 ^ d + 2 ^ d)%nat.
Proof. cbn. lia. Qed.

Lemma pow2_pos d : (0 < 2 ^ d)%nat.
Proof. apply Nat.neq_0_lt_0, Nat.pow_nonzero. lia. Qed.

Lemma pow2_gt d : (d < 2 ^ d)%nat.
Proof. apply Nat.pow_gt_lin_r. lia. Qed.

Lemma of_nat_pow2 d : Z.of_nat (2 ^ d) = 2 ^ Z.of_nat d.
Proof. by rewrite Nat2Z.inj_pow. Qed.

Section LayersFacts.
Context (node : bytes → bytes → bytes).

Notation next_layer := (next_layer node).
Notation merkle_root := (merkle_root node).
Notation walk := (walk node).

Lemma next_layer_total n l :
  length l = (n + n)%nat → ∃ l', next_layer l = Some l' ∧ length l' = n.
Proof.
  revert l. induction n as [|n IH]; intros l Hl.
  - destruct l; [|discriminate]. by exists [].
  - destruct l as [|a [|b l]]; cbn in Hl; [lia|lia|].
    destruct (IH l) as (l' & E & El); [lia|].
    exists (node a b :: l'). cbn. by rewrite E, El.
Qed.

Lemma next_layer_lookup l l' i a b :
  next_layer l = Some l' → l !! (i + i)%nat = Some a → l !! S (i + i) = Some b →
  l' !! i = Some (node a b).
Proof.
  revert l l'. induction i as [|i IH]; intros l l' Hn Ha Hb;
    destruct l as [|x [|y l]]; try discriminate; cbn in Hn;
    destruct (next_layer l) as [m|] eqn:E; try discriminate; injection Hn as <-.
  - cbn in *. congruence.
  - rewrite Nat.add_succ_r in Ha, Hb. cbn. eapply IH; eauto.
Qed.

Lemma next_layer_app n l1 l2 l1' l2' :
  length l1 = (n + n)%nat → next_layer l1 = Some l1' → next_layer l2 = Some l2' →
  next_layer (l1 ++ l2) = Some (l1' ++ l2').
Proof.
  revert l1 l1'. induction n as [|n IH]; intros l1 l1' Hl H1 H2.
  - destruct l1; [|discriminate]. injection H1 as <-. done.
  - destruct l1 as [|a [|b l1]]; cbn in Hl; [lia|lia|]. cbn in *.
    destruct (next_layer l1) as [m|] eqn:E; [|discriminate]. injection H1 as <-.
    rewrite (IH l1 m); [done|lia|done|done].
Qed.

(** Halving a layer does not change the root. *)
Lemma merkle_root_next d l l' :
  length l = (2 ^ S d)%nat → next_layer l = Some l' →
  merkle_root (S d) l = merkle_root d l'.
Proof.
  revert l l'. induction d as [|d IH]; intros l l' Hl Hn.
  { destruct l as [|a [|b [|]]]; try discriminate. cbn in Hn. by injection Hn as <-. }
  rewrite pow2_S in Hl. pose proof (pow2_S d).
  rewrite <- (take_drop (2 ^ S d)%nat l) in Hn.
  destruct (next_layer_total (2 ^ d)%nat (take (2 ^ S d)%nat l)) as (l1 & E1 & L1).
  { rewrite length_take. lia. }
  destruct (next_layer_total (2 ^ d)%nat (drop (2 ^ S d)%nat l)) as (l2 & E2 & L2).
  { rewrite length_drop. lia. }
  rewrite (next_layer_app (2 ^ d)%nat _ _ l1 l2) in Hn; [|rewrite length_take; lia|done|done].
  injection Hn as <-.
  change (merkle_root (S (S d)) l) with
    (node (merkle_root (S d) (take (2 ^ S d)%nat l)) (merkle_root (S d) (drop (2 ^ S d)%nat l))).
  rewrite (IH _ l1), (IH _ l2); [|rewrite length_drop; lia|done|rewrite length_take; lia|done].
  change (merkle_root (S d) (l1 ++ l2)) with
    (node (merkle_root d (take (2 ^ d)%nat (l1 ++ l2))) (merkle_root d (drop (2 ^ d)%nat (l1 ++ l2)))).
  rewrite take_app_length', drop_app_length' by lia. done.
Qed.

(** A stack of layers, from [2^d] leaves up to the root. *)
Inductive layered : nat → list (list bytes) → Prop :=
| layered_root r : layered 0 [[r]]
| layered_step d l l' ls :
    length l = (2 ^ S d)%nat → next_layer l = Some l' →
    layered d (l' :: ls) → layered (S d) (l :: l' :: ls).

Lemma grow_layers_layered fuel d l :
  length l = (2 ^ d)%nat → (d <= fuel)%nat →
  ∃ ls, grow_layers node fuel l = Some (l :: ls) ∧ layered d (l :: ls).
Proof.
  revert fuel l. induction d as [|d IH]; intros fuel l Hl Hf.
  { destruct l as [|r [|]]; try discriminate.
    exists []. split; [by destruct fuel|constructor]. }
  pose proof (pow2_pos d). rewrite pow2_S in Hl. destruct fuel as [|fuel]; [lia|].
  destruct (next_layer_total _ _ Hl) as (l' & En & Ll).
  destruct (IH fuel l' Ll) as (ls & Eg & Hlay); [lia|].
  exists (l' :: ls). split.
  - cbn [grow_layers]. destruct (Nat.ltb_spec 1 (length l)); [|lia].
    rewrite En. cbn. by rewrite Eg.
  - constructor; [by rewrite pow2_S|done|done].
Qed.

Lemma layered_length d ls : layered d ls → length ls = S d.
Proof. induction 1; cbn in *; lia. Qed.

Lemma layered_last d l ls :
  layered d (l :: ls) → last (l :: ls) = Some [merkle_root d l].
Proof.
  remember (l :: ls) as lss eqn:E. intros H. revert l ls E.
  induction H as [r|d l l' ls Hl Hn H IH]; intros ? ? [= <- <-]; [done|].
  rewrite (merkle_root_next _ _ _ Hl Hn), <- (IH l' ls eq_refl). done.
Qed.

Lemma layered_head_length d l ls : layered d (l :: ls) → length l = (2 ^ d)%nat.
Proof. by inversion 1; subst. Qed.

(** *** Indices *)

Lemma lxor_1 idx : Z.lxor idx 1 = if Z.land idx 1 =? 0 then idx + 1 else idx - 1.
Proof.
  rewrite Z.land_ones with (n := 1) by lia. change (2 ^ 1) with 2.
  pose proof (Z.div_mod idx 2 ltac:(lia)) as Hd.
  destruct (Z.eqb_spec (idx mod 2) 0) as [H|H].
  - rewrite <- Z.add_nocarry_lxor; [done|].
    rewrite Z.land_ones with (n := 1) by lia. by change (2 ^ 1) with 2.
  - assert (idx mod 2 = 1) by (pose proof (Z.mod_pos_bound idx 2); lia).
    replace idx with (Z.lxor (idx - 1) 1) at 1.
    { by rewrite Z.lxor_assoc, Z.lxor_nilpotent, Z.lxor_0_r. }
    rewrite <- Z.add_nocarry_lxor; [lia|].
    rewrite Z.land_ones with (n := 1) by lia. change (2 ^ 1) with 2.
    rewrite Zminus_mod, H0. done.
Qed.

Lemma land_1_mod idx : Z.land idx 1 = idx mod 2.
Proof. by rewrite Z.land_ones with (n := 1) by lia. Qed.

(** The honest path of an index in range reaches the root. *)
Lemma layered_path d l ls idx x :
  layered d (l :: ls) → 0 <= idx → l !! Z.to_nat idx = Some x →
  ∃ sibs, sibling_path (take d (l :: ls)) idx = Some sibs ∧
    length sibs = d ∧ walk idx x sibs = merkle_root d l ∧
    (∀ P : bytes → Prop, Forall (Forall P) (l :: ls) → Forall P sibs).
Proof.
  remember (l :: ls) as lss eqn:E. intros H. revert l ls idx x E.
  induction H as [r|d l l' ls Hl Hn H IH]; intros ? ? idx x [= <- <-] Hidx Hx.
  { exists []. cbn in *. repeat split; [|constructor].
    destruct (Z.to_nat idx); by simplify_eq/=. }
  pose proof (lookup_lt_Some _ _ _ Hx) as Hlt. rewrite Hl, pow2_S in Hlt.
  pose proof (Z.div_mod idx 2 ltac:(lia)) as Hd.
  pose proof (Z.mod_pos_bound idx 2 ltac:(lia)) as Hm.
  assert (Hsib : ∃ s, l !! Z.to_nat (Z.lxor idx 1) = Some s).
  { apply lookup_lt_is_Some. rewrite Hl, pow2_S, lxor_1, land_1_mod.
    destruct (Z.eqb_spec (idx mod 2) 0); lia. }
  destruct Hsib as [s Hs].
  assert (Hup : l' !! Z.to_nat (idx / 2) = Some (step_up node idx x s)).
  { unfold step_up. rewrite lxor_1, land_1_mod in Hs. rewrite land_1_mod.
    destruct (Z.eqb_spec (idx mod 2) 0) as [H0|H0]; apply (next_layer_lookup l);
      [done| | |done| | ].
    - rewrite <- Hx. f_equal. lia.
    - rewrite <- Hs. f_equal. lia.
    - rewrite <- Hs. f_equal. lia.
    - rewrite <- Hx. f_equal. lia. }
  destruct (IH l' ls (idx / 2) (step_up node idx x s) eq_refl)
    as (sibs & Hp & Hlen & Hw & HP); [apply Z.div_pos; lia|exact Hup|].
  exists (s :: sibs). rewrite (merkle_root_next _ _ _ Hl Hn). repeat split.
  - cbn. rewrite Hs. cbn. by rewrite Hp.
  - cbn. by rewrite Hlen.
  - done.
  - intros P HPs. inversion HPs; subst. constructor; [|by apply HP].
    eapply list.Forall_lookup_1; eauto.
Qed.

(** *** Layers whose entries share a property *)

Lemma next_layer_Forall (P : bytes → Prop) l l' :
  (∀ a b, P (node a b)) → next_layer l = Some l' → Forall P l'.
Proof.
  intros HP. revert l'. induction l as [l IH] using (induction_ltof1 _ (@length _)).
  intros l' E. destruct l as [|a [|b l]]; cbn in E; [by injection E as <-|done|].
  destruct (next_layer l) as [m|] eqn:Em; [|done]. injection E as <-.
  constructor; [done|]. apply (IH l); [unfold ltof; cbn; lia|done].
Qed.

Lemma layered_Forall (P : bytes → Prop) d l ls :
  (∀ a b, P (node a b)) → Forall P l → layered d (l :: ls) → Forall (Forall P) (l :: ls).
Proof.
  intros HP Hl H. remember (l :: ls) as lss eqn:E. revert l ls Hl E.
  induction H as [r|d l l' ls Hlen Hn H IH]; intros ? ? Hl [= <- <-]; [by constructor|].
  constructor; [done|]. apply (IH l' ls); [|done]. by eapply next_layer_Forall.
Qed.

End LayersFacts.

(** ** Duplicate detection *)

Lemma equal_window_spec l :
  match equal_window l with
  | Some w => ∃ k, l !! k = Some w ∧ l !! S k = Some w
  | None => ∀ k x y, l !! k = Some x → l !! S k = Some y → x ≠ y
  end.
Proof.
  induction l as [|x l IH]; [done|].
  destruct l as [|y l]; [by intros [|k]|].
  change (equal_window (x :: y :: l)) with
    (if decide (x = y) then Some y else equal_window (y :: l)).
  destruct (decide (x = y)) as [->|Hne]; [by exists 0%nat|].
  destruct (equal_window (y :: l)) as [w|].
  - destruct IH as [k Hk]. by exists (S k).
  - intros [|k] a b Ha Hb; [by simplify_eq/=|by apply (IH k)].
Qed.

(** In a sorted list equal elements are adjacent. *)
Lemma sorted_adjacent l i j x :
  StronglySorted (LeRel bytes_le) l → (i < j)%nat →
  l !! i = Some x → l !! j = Some x → l !! S i = Some x.
Proof.
  intros Hs. revert i j. induction Hs as [|a l Hl IH Ha]; intros i j Hij Hi Hj; [done|].
  destruct i as [|i], j as [|j]; try lia; cbn in *.
  2: { apply (IH i j); [lia|done|done]. }
  injection Hi as ->. destruct Hl as [|b l Hl Hb]; [done|].
  cbn. f_equal. apply bytes_le_antisym; [|by inversion Ha].
  destruct j as [|j]; [cbn in Hj; injection Hj as ->; apply bytes_le_refl|].
  rewrite list.Forall_forall in Hb. apply Hb.
  eapply list_elem_of_lookup_2. exact Hj.
Qed.

Lemma equal_window_none l :
  StronglySorted (LeRel bytes_le) l → equal_window l = None ↔ NoDup l.
Proof.
  intros Hs. pose proof (equal_window_spec l) as H. split.
  - intros E. rewrite E in H. apply NoDup_alt. intros i j x Hi Hj.
    destruct (Nat.lt_trichotomy i j) as [Hlt|[->|Hlt]]; [|done|]; exfalso.
    + eapply (H i x x); [done| |done]. by apply (sorted_adjacent l i j).
    + eapply (H j x x); [done| |done]. by apply (sorted_adjacent l j i).
  - intros Hn. destruct (equal_window l) as [w|]; [|done].
    destruct H as (k & H1 & H2). rewrite NoDup_alt in Hn.
    specialize (Hn _ _ _ H1 H2). lia.
Qed.

Lemma position_spec x l :
  match position x l with
  | Some i => l !! i = Some x ∧ ∀ j, (j < i)%nat → l !! j ≠ Some x
  | None => x ∉ l
  end.
Proof.
  induction l as [|y l IH]; cbn; [by intros ?%elem_of_nil|].
  destruct (decide (y = x)) as [->|Hne]; [by split; [|lia]|].
  destruct (position x l) as [i|]; cbn.
  - destruct IH as [H1 H2]. split; [done|].
    intros [|j] Hj; cbn; [congruence|]. apply H2. lia.
  - by intros [|]%elem_of_cons.
Qed.

Lemma sort_bytes_sorted l : StronglySorted (LeRel bytes_le) (stable_sort bytes_le l).
Proof. apply stable_sort_sorted; eauto with omega. Qed.

Lemma sort_bytes_perm_eq l1 l2 :
  Permutation l1 l2 → stable_sort bytes_le l1 = stable_sort bytes_le l2.
Proof. apply stable_sort_perm_invariant; eauto with omega. Qed.

Lemma sort_bytes_nodup l : NoDup (stable_sort bytes_le l) ↔ NoDup l.
Proof. by rewrite <- (stable_sort_perm bytes_le l). Qed.

(** ** Padding *)

Lemma next_power_of_two_ge n : (n <= next_power_of_two n)%nat.
Proof.
  unfold next_power_of_two. destruct (decide (1 < n)%nat) as [H|H].
  - apply Nat.log2_up_spec in H. lia.
  - pose proof (pow2_pos (Nat.log2_up n)). lia.
Qed.

Lemma length_pad_to n pad l : (length l <= n)%nat → length (pad_to n pad l) = n.
Proof. intros H. unfold pad_to. rewrite length_app, length_replicate. lia. Qed.

Lemma Forall_pad_to (P : bytes → Prop) n pad l :
  Forall P l → P pad → Forall P (pad_to n pad l).
Proof. intros Hl Hp. apply Forall_app. split; [done|by apply Forall_replicate]. Qed.

(** The depth of a tree over [n] items. *)
Definition log_depth (n : nat) : nat := Nat.log2_up (Nat.max n 1).

Section TreeFacts.
Context {HF : HashFns}.

Lemma length_leaf_hashes id ps : length (leaf_hashes id ps) = length ps.
Proof. apply length_imap. Qed.

Lemma length_padded_leaves id ps :
  length (padded_leaves id ps) = (2 ^ log_depth (length ps))%nat.
Proof.
  unfold padded_leaves. rewrite length_pad_to; [done|].
  rewrite length_leaf_hashes. pose proof (next_power_of_two_ge (Nat.max (length ps) 1)). lia.
Qed.

(** What a tree looks like once its layers have been grown. *)
Definition grown (node : bytes → bytes → bytes) (leaves : list bytes) (d : nat)
    (t : MerkleTree) : Prop :=
  mt_leaves t = leaves ∧ length leaves = (2 ^ d)%nat ∧ head (mt_layers t) = Some leaves ∧
  layered node d (mt_layers t).

Lemma grow_layers_grown node leaves d :
  length leaves = (2 ^ d)%nat →
  ∃ layers, grow_layers node (length leaves) leaves = Some layers ∧
    grown node leaves d {| mt_leaves := leaves; mt_layers := layers |}.
Proof.
  intros Hl. destruct (grow_layers_layered node (length leaves) d leaves Hl) as (ls & Hg & H).
  { rewrite Hl. pose proof (pow2_gt d). lia. }
  exists (leaves :: ls). split; [done|]. repeat split; done.
Qed.

Lemma grown_root node leaves d t :
  grown node leaves d t → root t = Some (merkle_root node d leaves).
Proof.
  intros (_ & _ & Hh & H). unfold root.
  destruct (mt_layers t) as [|l ls]; [discriminate|]. injection Hh as ->.
  by rewrite (layered_last _ _ _ _ H).
Qed.

Lemma grown_depth node leaves d t : grown node leaves d t → depth t = d.
Proof.
  intros (_ & _ & _ & H). unfold depth. rewrite (layered_length _ _ _ H). lia.
Qed.

Lemma build_v1_grown id ps :
  NoDup ps →
  ∃ t, build_v1 id ps = Ok t ∧
    grown node_hash_v2 (padded_leaves id (stable_sort bytes_le ps))
      (log_depth (length ps)) t.
Proof.
  intros Hn. unfold build_v1, build_layers_v1.
  rewrite (proj2 (equal_window_none _ (sort_bytes_sorted ps)))
    by by rewrite sort_bytes_nodup.
  rewrite <- (stable_sort_length bytes_le ps).
  destruct (grow_layers_grown node_hash_v2 _ _
    (length_padded_leaves id (stable_sort bytes_le ps))) as (layers & E & Hg).
  rewrite E. cbn. eexists. split; [done|exact Hg].
Qed.

Lemma build_v1_ok_nodup id ps t : build_v1 id ps = Ok t → NoDup ps.
Proof.
  unfold build_v1. destruct (equal_window _) eqn:E; [discriminate|]. intros _.
  apply equal_window_none in E; [|apply sort_bytes_sorted].
  by rewrite sort_bytes_nodup in E.
Qed.

Lemma build_v1_ok_grown id ps t :
  build_v1 id ps = Ok t →
  grown node_hash_v2 (padded_leaves id (stable_sort bytes_le ps)) (log_depth (length ps)) t.
Proof.
  intros H. destruct (build_v1_grown id ps) as (t' & E & Hg).
  { by eapply build_v1_ok_nodup. }
  congruence.
Qed.

End TreeFacts.
