(* ===== verification/TreeSpec.v ===== *)
(** * Properties of the Merkle tree

    Totality, shape and permutation invariance of [build_v1], its error
    case, equivalence with the reference root, and the binding property of
    authentication paths: a path that reaches the root of a built tree
    either opens the leaf that is really there or exhibits a collision of
    the hash function ([open_collision] computes it). *)

From S2P Require Import Prelude Hash Tree.
From Stdlib Require Import ZArith Lia List Permutation Sorted String.
From stdpp Require Import base decidable list.

Local Open Scope Z_scope.

(** ** Preimages *)

Lemma length_DOMAIN_LEAF : length DOMAIN_LEAF = 13%nat.
Proof. done. Qed.

Lemma length_DOMAIN_NODE : length DOMAIN_NODE = 13%nat.
Proof. done. Qed.

Lemma leaf_preimage_inj id idx p id' idx' p' :
  is_u8 id → is_u8 id' → is_u64 idx → is_u64 idx' →
  is_u64 (Z.of_nat (length p)) → is_u64 (Z.of_nat (length p')) →
  leaf_preimage id idx p = leaf_preimage id' idx' p' →
  id = id' ∧ idx = idx' ∧ p = p'.
Proof.
  unfold leaf_preimage. intros Hid Hid' Hi Hi' Hl Hl' H. split_fields.
  repeat split; [by apply z2b_inj_u8|by apply be_bytes8_inj|done].
Qed.

Lemma leaf_node_preimage_ne id idx p l r : leaf_preimage id idx p ≠ node_preimage l r.
Proof.
  unfold leaf_preimage, node_preimage. intros H.
  apply app_eq_len in H as [H _]; [|done]. discriminate.
Qed.

Lemma node_preimage_inj l r l' r' :
  length l = length l' → node_preimage l r = node_preimage l' r' → l = l' ∧ r = r'.
Proof. unfold node_preimage. intros Hl H. by split_fields. Qed.

(** ** Paths *)

Section Paths.
Context (node : bytes → bytes → bytes).

Lemma walk_snoc idx x ss s :
  walk node idx x (ss ++ [s]) =
  step_up node (idx / 2 ^ Z.of_nat (length ss)) (walk node idx x ss) s.
Proof.
  revert idx x. induction ss as [|t ss IH]; intros idx x; cbn [walk app length].
  - by rewrite Z.div_1_r.
  - rewrite IH. f_equal. rewrite Nat2Z.inj_succ, Z.pow_succ_r, Z.div_div by lia.
    done.
Qed.

Lemma walk_is_hash idx x ss :
  (∀ l r, is_hash (node l r)) → is_hash x → is_hash (walk node idx x ss).
Proof.
  intros Hn. revert idx x. induction ss as [|s ss IH]; intros idx x Hx; [done|].
  cbn. apply IH. unfold step_up. by destruct (_ =? _).
Qed.

Lemma merkle_root_is_hash d leaves :
  (∀ l r, is_hash (node l r)) → Forall is_hash leaves → length leaves = (2 ^ d)%nat →
  is_hash (merkle_root node d leaves).
Proof.
  intros Hn Hl Hlen. destruct d as [|d]; [|apply Hn].
  destruct leaves as [|x [|]]; try discriminate. by inversion Hl.
Qed.

End Paths.

Section Binding.
Context {HF : HashFns} {HL : HashLaws HF}.

(** The preimage hashed by the topmost step of the path [rev (s :: rs)]. *)
Definition path_preimage (idx : Z) (lp s : bytes) (rs : list bytes) : bytes :=
  let cur := walk node_hash_v2 idx (blake3_256 lp) (rev rs) in
  if Z.land (idx / 2 ^ Z.of_nat (length rs)) 1 =? 0
  then node_preimage cur s else node_preimage s cur.

(** Compares a claimed opening with the tree over the leaf preimages [lps],
    from the root down, and returns the first pair of different preimages:
    [lp] is the claimed leaf preimage, [rs] its siblings from the root down. *)
Fixpoint open_collision (d : nat) (lps : list bytes) (idx : Z) (lp : bytes)
    (rs : list bytes) : option (bytes * bytes) :=
  match d, rs with
  | O, [] => q ← head lps; if decide (lp = q) then None else Some (lp, q)
  | O, s :: rs' => q ← head lps; Some (path_preimage idx lp s rs', q)
  | S d', _ =>
      let L := take (2 ^ d')%nat lps in
      let R := drop (2 ^ d')%nat lps in
      let theirs := node_preimage (merkle_root node_hash_v2 d' (blake3_256 <$> L))
                                  (merkle_root node_hash_v2 d' (blake3_256 <$> R)) in
      match rs with
      | [] => Some (lp, theirs)
      | s :: rs' =>
          let mine := path_preimage idx lp s rs' in
          if decide (mine = theirs) then
            open_collision d' (if Z.land (idx / 2 ^ Z.of_nat (length rs')) 1 =? 0 then L else R)
              idx lp rs'
          else Some (mine, theirs)
      end
  end.

Lemma is_hash_node l r : is_hash (node_hash_v2 l r).
Proof. apply length_blake3_256. Qed.

Lemma is_hash_blake3 x : is_hash (blake3_256 x).
Proof. apply length_blake3_256. Qed.

Hint Resolve is_hash_node is_hash_blake3 : core.

Lemma walk_top_preimage idx lp s rs :
  walk node_hash_v2 idx (blake3_256 lp) (rev (s :: rs)) =
  blake3_256 (path_preimage idx lp s rs).
Proof.
  cbn [rev]. rewrite walk_snoc, length_rev. unfold step_up, path_preimage.
  by destruct (_ =? _).
Qed.

(** Splitting an index at bit [d]. *)
Lemma index_split idx d :
  idx mod 2 ^ Z.of_nat (S d) =
  idx mod 2 ^ Z.of_nat d +
  (if Z.land (idx / 2 ^ Z.of_nat d) 1 =? 0 then 0 else 2 ^ Z.of_nat d).
Proof.
  rewrite Nat2Z.inj_succ, Z.pow_succ_r, (Z.mul_comm 2), Z.rem_mul_r, land_1_mod by lia.
  pose proof (Z.mod_pos_bound (idx / 2 ^ Z.of_nat d) 2 ltac:(lia)).
  destruct (Z.eqb_spec ((idx / 2 ^ Z.of_nat d) mod 2) 0) as [E|E]; [rewrite E|]; [lia|].
  replace ((idx / 2 ^ Z.of_nat d) mod 2) with 1 by lia. lia.
Qed.

(** Choosing the half of a list by bit [d] of the index. *)
Lemma half_lookup {A} idx d (l : list A) :
  length l = (2 ^ S d)%nat →
  (if Z.land (idx / 2 ^ Z.of_nat d) 1 =? 0 then take (2 ^ d)%nat l else drop (2 ^ d)%nat l)
    !! Z.to_nat (idx mod 2 ^ Z.of_nat d) = l !! Z.to_nat (idx mod 2 ^ Z.of_nat (S d)).
Proof.
  intros Hl. rewrite index_split.
  pose proof (Z.mod_pos_bound idx (2 ^ Z.of_nat d) ltac:(lia)).
  pose proof (of_nat_pow2 d).
  destruct (_ =? _).
  - rewrite lookup_take_lt by lia. f_equal. lia.
  - rewrite lookup_drop. f_equal. lia.
Qed.

Lemma half_length {A} (b : bool) d (l : list A) :
  length l = (2 ^ S d)%nat →
  length (if b then take (2 ^ d)%nat l else drop (2 ^ d)%nat l) = (2 ^ d)%nat.
Proof. rewrite pow2_S. intros H. destruct b; [rewrite length_take|rewrite length_drop]; lia. Qed.

Lemma half_Forall {A} (P : A → Prop) (b : bool) d l :
  Forall P l → Forall P (if b then take (2 ^ d)%nat l else drop (2 ^ d)%nat l).
Proof. destruct b; [apply Forall_take|apply Forall_drop]. Qed.

(** Equal topmost preimages continue in the half the index selects. *)
Lemma path_descend d idx lp s rs lps :
  length lps = (2 ^ S d)%nat → is_hash s →
  path_preimage idx lp s rs =
    node_preimage (merkle_root node_hash_v2 d (blake3_256 <$> take (2 ^ d)%nat lps))
                  (merkle_root node_hash_v2 d (blake3_256 <$> drop (2 ^ d)%nat lps)) →
  walk node_hash_v2 idx (blake3_256 lp) (rev rs) =
  merkle_root node_hash_v2 d (blake3_256 <$>
    (if Z.land (idx / 2 ^ Z.of_nat (length rs)) 1 =? 0
     then take (2 ^ d)%nat lps else drop (2 ^ d)%nat lps)).
Proof.
  intros Hl Hs. unfold path_preimage.
  assert (Hr : ∀ b : bool, is_hash (merkle_root node_hash_v2 d (blake3_256 <$>
    (if b then take (2 ^ d)%nat lps else drop (2 ^ d)%nat lps)))).
  { intros b. apply merkle_root_is_hash; [auto|by apply Forall_fmap, Forall_true; auto|].
    rewrite length_fmap. by apply half_length. }
  pose proof (Hr true) as HL'. pose proof (walk_is_hash node_hash_v2 idx
    (blake3_256 lp) (rev rs) is_hash_node (is_hash_blake3 lp)) as Hw.
  unfold is_hash in *. destruct (_ =? _); intros E;
    apply node_preimage_inj in E as [E1 E2]; congruence.
Qed.

Lemma open_binding d lps idx lp rs :
  length lps = (2 ^ d)%nat → Forall is_hash rs →
  (∀ l r, lp ≠ node_preimage l r) →
  Forall (λ q, ∀ l r, q ≠ node_preimage l r) lps →
  walk node_hash_v2 idx (blake3_256 lp) (rev rs) =
    merkle_root node_hash_v2 d (blake3_256 <$> lps) →
  match open_collision d lps idx lp rs with
  | Some p => Collision blake3_256 p
  | None => length rs = d ∧ lps !! Z.to_nat (idx mod 2 ^ Z.of_nat d) = Some lp
  end.
Proof.
  revert lps rs. induction d as [|d IH]; intros lps rs Hl Hrs Hlp Hlps Hw.
  - destruct lps as [|q [|]]; try discriminate. inversion Hlps; subst.
    destruct rs as [|s rs].
    + cbn [open_collision head mbind option_bind]. rewrite Z.mod_1_r.
      destruct (decide (lp = q)) as [->|Hne]; [done|]. by split.
    + rewrite walk_top_preimage in Hw. cbn [open_collision head mbind option_bind].
      split; [|done]. unfold path_preimage. cbn. by destruct (_ =? _); intros <-; eapply H1.
  - cbn [merkle_root] in Hw. rewrite <- fmap_take, <- fmap_drop in Hw.
    destruct rs as [|s rs]; [split; [apply Hlp|exact Hw]|].
    rewrite walk_top_preimage in Hw. cbn [open_collision].
    destruct (decide _) as [E|E]; [|by split].
    inversion Hrs; subst. pose proof (path_descend _ _ _ _ _ _ Hl H1 E) as Hd.
    specialize (IH _ rs (half_length _ _ _ Hl) H2 Hlp (half_Forall _ _ _ _ Hlps) Hd).
    destruct (open_collision _ _ _ _ _); [done|]. destruct IH as [<- IH].
    split; [done|]. rewrite <- half_lookup by done. done.
Qed.

End Binding.

(** ** Leaf preimages of a built tree *)

Section Preimages.
Context {HF : HashFns}.

Definition padded_preimages (id : Z) (ps : list bytes) : list bytes :=
  pad_to (next_power_of_two (Nat.max (length ps) 1))
    (leaf_preimage id EMPTY_INDEX_SENTINEL []) (imap (λ i p, leaf_preimage id (Z.of_nat i) p) ps).

Lemma padded_leaves_preimages id ps :
  padded_leaves id ps = blake3_256 <$> padded_preimages id ps.
Proof.
  unfold padded_leaves, padded_preimages, pad_to, leaf_hashes.
  rewrite fmap_app, fmap_imap, fmap_replicate, !length_imap. done.
Qed.

Lemma length_padded_preimages id ps :
  length (padded_preimages id ps) = (2 ^ log_depth (length ps))%nat.
Proof. by rewrite <- (length_fmap blake3_256), <- padded_leaves_preimages, length_padded_leaves. Qed.

Lemma padded_preimages_lookup id ps j q :
  padded_preimages id ps !! j = Some q →
  (∃ p, ps !! j = Some p ∧ q = leaf_preimage id (Z.of_nat j) p) ∨
  ((length ps <= j)%nat ∧ q = leaf_preimage id EMPTY_INDEX_SENTINEL []).
Proof.
  unfold padded_preimages, pad_to. rewrite lookup_app_Some, list_lookup_imap, length_imap.
  rewrite lookup_replicate. intros [H|(H1 & -> & H2)].
  - left. destruct (ps !! j) as [p|]; [|discriminate]. injection H as <-. eauto.
  - right. split; [lia|done].
Qed.

Lemma padded_preimages_real id ps j p :
  ps !! j = Some p → padded_preimages id ps !! j = Some (leaf_preimage id (Z.of_nat j) p).
Proof.
  intros H. unfold padded_preimages, pad_to. apply lookup_app_l_Some.
  by rewrite list_lookup_imap, H.
Qed.

Lemma padded_preimages_sep id ps :
  Forall (λ q, ∀ l r, q ≠ node_preimage l r) (padded_preimages id ps).
Proof.
  apply list.Forall_lookup_2. intros j q [(p & _ & ->)|(_ & ->)]%padded_preimages_lookup;
    apply leaf_node_preimage_ne.
Qed.

Lemma is_u64_index (ps : list bytes) j p :
  Z.of_nat (length ps) < 2 ^ 63 → ps !! j = Some p → is_u64 (Z.of_nat j) ∧
  Z.of_nat j ≠ EMPTY_INDEX_SENTINEL.
Proof.
  intros Hl Hj. apply lookup_lt_Some in Hj. unfold in_range, EMPTY_INDEX_SENTINEL. lia.
Qed.

(** Payload vectors as the program can hold them: at most [isize::MAX]
    entries of at most [isize::MAX] bytes. *)
Definition wf_payloads (ps : list bytes) : Prop :=
  Z.of_nat (length ps) < 2 ^ 63 ∧ Forall (λ p, Z.of_nat (length p) < 2 ^ 63) ps.

#[export] Instance wf_payloads_dec ps : Decision (wf_payloads ps).
Proof. unfold wf_payloads. apply _. Defined.

Lemma wf_payloads_sort ps : wf_payloads ps → wf_payloads (stable_sort bytes_le ps).
Proof.
  intros [Hl Hf]. split; [by rewrite stable_sort_length|].
  by rewrite <- (stable_sort_perm bytes_le ps).
Qed.

Lemma wf_payloads_lookup ps j p :
  wf_payloads ps → ps !! j = Some p → is_u64 (Z.of_nat (length p)).
Proof.
  intros [_ Hf] Hj. pose proof (list.Forall_lookup_1 _ _ _ _ Hf Hj) as H. cbn in H.
  unfold in_range. lia.
Qed.

(** What the preimage found at a slot says about the claimed leaf. *)
Lemma padded_preimages_opening id ps j id' idx payload :
  is_u8 id → is_u8 id' → is_u64 idx → Z.of_nat (length payload) < 2 ^ 63 → wf_payloads ps →
  padded_preimages id ps !! j = Some (leaf_preimage id' idx payload) →
  id' = id ∧
  ((idx = Z.of_nat j ∧ ps !! j = Some payload) ∨
   (idx = EMPTY_INDEX_SENTINEL ∧ payload = [] ∧ (length ps <= j)%nat)).
Proof.
  intros Hid Hid' Hidx Hp Hwf [(p & Hj & E)|(Hj & E)]%padded_preimages_lookup.
  - destruct (is_u64_index ps j p (proj1 Hwf) Hj) as [Hju _].
    pose proof (wf_payloads_lookup _ _ _ Hwf Hj).
    apply leaf_preimage_inj in E as (-> & -> & ->); auto.
    unfold in_range. lia.
  - apply leaf_preimage_inj in E as (-> & -> & ->); auto; unfold in_range, EMPTY_INDEX_SENTINEL; cbn [length]; lia.
Qed.

(** An opening of the root of a built tree: a collision, or the preimage
    stored at the slot its index selects. *)
Lemma v1_opening (HL : HashLaws HF) id ps t id' idx payload sibs :
  is_u8 id → is_u8 id' → is_u64 idx → wf_payloads ps → Z.of_nat (length payload) < 2 ^ 63 →
  Forall is_hash sibs → build_v1 id ps = Ok t →
  root t = Some (walk node_hash_v2 idx (leaf_hash_v2 id' idx payload) sibs) →
  match open_collision (depth t) (padded_preimages id (stable_sort bytes_le ps)) idx
          (leaf_preimage id' idx payload) (rev sibs) with
  | Some c => Collision blake3_256 c
  | None =>
      let slot := Z.to_nat (idx mod 2 ^ Z.of_nat (depth t)) in
      length sibs = depth t ∧ id' = id ∧
      ((idx = Z.of_nat slot ∧ stable_sort bytes_le ps !! slot = Some payload) ∨
       (idx = EMPTY_INDEX_SENTINEL ∧ payload = [] ∧ (length ps <= slot)%nat))
  end.
Proof.
  intros Hid Hid' Hidx Hps Hpl Hsibs Ht Hroot.
  pose proof (build_v1_ok_grown _ _ _ Ht) as Hg.
  rewrite (grown_root _ _ _ _ Hg) in Hroot. injection Hroot as Hroot.
  rewrite (grown_depth _ _ _ _ Hg). rewrite padded_leaves_preimages in Hroot.
  pose proof (length_padded_preimages id (stable_sort bytes_le ps)) as Hlen.
  rewrite stable_sort_length in Hlen.
  pose proof (open_binding _ _ idx (leaf_preimage id' idx payload) (rev sibs) Hlen) as H.
  rewrite rev_involutive in H.
  specialize (H (Forall_rev Hsibs) (leaf_node_preimage_ne _ _ _)
    (padded_preimages_sep _ _) (eq_sym Hroot)).
  destruct (open_collision _ _ _ _ _); [done|]. rewrite length_rev in H.
  destruct H as [Hl H]. split; [done|].
  apply padded_preimages_opening in H; auto using wf_payloads_sort.
  by rewrite stable_sort_length in H.
Qed.

(** Every slot of a built tree, used or padding, has an honest path. *)
Lemma v1_path (HL : HashLaws HF) id ps t j q :
  build_v1 id ps = Ok t → padded_preimages id (stable_sort bytes_le ps) !! j = Some q →
  ∃ sibs, sibling_path (take (depth t) (mt_layers t)) (Z.of_nat j) = Some sibs ∧
    length sibs = depth t ∧ Forall is_hash sibs ∧
    root t = Some (walk node_hash_v2 (Z.of_nat j) (blake3_256 q) sibs).
Proof.
  intros Ht Hq. pose proof (build_v1_ok_grown _ _ _ Ht) as Hg.
  rewrite (grown_root _ _ _ _ Hg), (grown_depth _ _ _ _ Hg).
  destruct Hg as (_ & _ & Hh & Hlay). destruct (mt_layers t) as [|l ls]; [done|].
  injection Hh as ->. rewrite padded_leaves_preimages in *.
  destruct (layered_path _ _ _ _ (Z.of_nat j) (blake3_256 q) Hlay)
    as (sibs & Hs & Hlen & Hw & HP); [lia|by rewrite Nat2Z.id, list_lookup_fmap, Hq|].
  exists sibs. rewrite Hw. repeat (split; [done|]). split; [|done].
  apply HP. eapply layered_Forall; [|apply Forall_fmap, list.Forall_true|exact Hlay];
    intros; apply length_blake3_256.
Qed.

Lemma v1_root_is_hash (HL : HashLaws HF) id ps t r : build_v1 id ps = Ok t → root t = Some r → is_hash r.
Proof.
  intros Ht Hr. pose proof (build_v1_ok_grown _ _ _ Ht) as Hg. rewrite (grown_root _ _ _ _ Hg) in Hr.
  apply (inj Some) in Hr as <-. destruct Hg as (Hlv & Hlen & _). rewrite padded_leaves_preimages in *.
  apply merkle_root_is_hash; [apply is_hash_node| |exact Hlen].
  apply Forall_fmap, list.Forall_true. intros x. apply is_hash_blake3.
Qed.

(** ** Comparing two trees *)

(** Compares two trees of leaf preimages from the root down. *)
Fixpoint tree_collision (d1 : nat) (l1 : list bytes) (d2 : nat) (l2 : list bytes) :
    option (bytes * bytes) :=
  let top d l := node_preimage
    (merkle_root node_hash_v2 d (blake3_256 <$> take (2 ^ d)%nat l))
    (merkle_root node_hash_v2 d (blake3_256 <$> drop (2 ^ d)%nat l)) in
  match d1, d2 with
  | O, O => p ← head l1; q ← head l2; if decide (p = q) then None else Some (p, q)
  | O, S e2 => p ← head l1; Some (p, top e2 l2)
  | S e1, O => q ← head l2; Some (top e1 l1, q)
  | S e1, S e2 =>
      if decide (top e1 l1 = top e2 l2) then
        match tree_collision e1 (take (2 ^ e1)%nat l1) e2 (take (2 ^ e2)%nat l2) with
        | Some c => Some c
        | None => tree_collision e1 (drop (2 ^ e1)%nat l1) e2 (drop (2 ^ e2)%nat l2)
        end
      else Some (top e1 l1, top e2 l2)
  end.

Context {HL : HashLaws HF}.

Lemma half_root_is_hash (b : bool) d (l : list bytes) :
  length l = (2 ^ S d)%nat →
  is_hash (merkle_root node_hash_v2 d (blake3_256 <$>
    (if b then take (2 ^ d)%nat l else drop (2 ^ d)%nat l))).
Proof.
  intros Hl. apply merkle_root_is_hash; [apply is_hash_node| |].
  - apply Forall_fmap, Forall_true. intros x. apply is_hash_blake3.
  - rewrite length_fmap. by apply half_length.
Qed.

Lemma tree_binding d1 l1 d2 l2 :
  length l1 = (2 ^ d1)%nat → length l2 = (2 ^ d2)%nat →
  Forall (λ q, ∀ l r, q ≠ node_preimage l r) l1 →
  Forall (λ q, ∀ l r, q ≠ node_preimage l r) l2 →
  merkle_root node_hash_v2 d1 (blake3_256 <$> l1) =
    merkle_root node_hash_v2 d2 (blake3_256 <$> l2) →
  match tree_collision d1 l1 d2 l2 with
  | Some p => Collision blake3_256 p
  | None => d1 = d2 ∧ l1 = l2
  end.
Proof.
  revert l1 d2 l2. induction d1 as [|d1 IH]; intros l1 d2 l2 H1 H2 F1 F2 E.
  - destruct l1 as [|p [|]]; try discriminate. inversion F1 as [|? ? Fp _]; subst.
    destruct d2 as [|d2]; cbn [tree_collision head mbind option_bind].
    + destruct l2 as [|q [|]]; try discriminate. cbn [head mbind option_bind].
      destruct (decide (p = q)) as [->|]; by split.
    + cbn [merkle_root] in E. rewrite <- fmap_take, <- fmap_drop in E.
      split; [apply Fp|exact E].
  - cbn [merkle_root] in E. rewrite <- fmap_take, <- fmap_drop in E.
    destruct d2 as [|d2]; cbn [tree_collision].
    + destruct l2 as [|q [|]]; try discriminate. inversion F2 as [|? ? Fq _]; subst.
      split; [by intros Hq; eapply Fq|exact E].
    + cbn [merkle_root] in E. rewrite <- fmap_take, <- fmap_drop in E.
      destruct (decide _) as [Et|]; [|by split].
      pose proof (half_root_is_hash true _ _ H1) as R1.
      pose proof (half_root_is_hash true _ _ H2) as R2.
      apply node_preimage_inj in Et as [EL ER]; [|unfold is_hash in *; congruence].
      specialize (IH (take (2 ^ d1)%nat l1)) as IHL.
      specialize (IHL d2 (take (2 ^ d2)%nat l2)
        (half_length true _ _ H1) (half_length true _ _ H2)
        (half_Forall _ true _ _ F1) (half_Forall _ true _ _ F2) EL).
      specialize (IH (drop (2 ^ d1)%nat l1) d2 (drop (2 ^ d2)%nat l2)
        (half_length false _ _ H1) (half_length false _ _ H2)
        (half_Forall _ false _ _ F1) (half_Forall _ false _ _ F2) ER).
      destruct (tree_collision d1 (take _ _) _ _); [done|].
      destruct (tree_collision d1 (drop _ _) _ _); [done|].
      destruct IHL as [-> EL']. split; [done|].
      rewrite <- (take_drop (2 ^ d2)%nat l1), EL', (proj2 IH). apply take_drop.
Qed.

(** Equal preimage vectors come from equal sub-tree ids and payloads. *)
Lemma padded_preimages_inj id1 ps1 id2 ps2 :
  is_u8 id1 → is_u8 id2 → wf_payloads ps1 → wf_payloads ps2 →
  padded_preimages id1 ps1 = padded_preimages id2 ps2 → id1 = id2 ∧ ps1 = ps2.
Proof.
  intros Hid1 Hid2 W1 W2 E.
  assert (Hfwd : ∀ ida idb psa psb, is_u8 ida → is_u8 idb → wf_payloads psa → wf_payloads psb →
    padded_preimages ida psa = padded_preimages idb psb →
    ∀ j p, psa !! j = Some p → psb !! j = Some p).
  { intros ida idb psa psb Ha Hb Wa Wb Eab j p Hj.
    destruct (is_u64_index psa j p (proj1 Wa) Hj) as [Hju Hjs].
    pose proof (padded_preimages_real ida psa j p Hj) as Hl. rewrite Eab in Hl.
    apply padded_preimages_opening in Hl as (_ & [(_ & H)|(H & _)]); auto; [done|].
    pose proof (list.Forall_lookup_1 _ _ _ _ (proj2 Wa) Hj). done. }
  split.
  - destruct (lookup_lt_is_Some_2 (padded_preimages id1 ps1) 0) as [q Hq].
    { rewrite length_padded_preimages. apply pow2_pos. }
    pose proof Hq as Hq2. rewrite E in Hq2.
    apply padded_preimages_lookup in Hq as [(p & Hp & ->)|(_ & ->)].
    + pose proof (list.Forall_lookup_1 _ _ _ _ (proj2 W1) Hp).
      by apply padded_preimages_opening in Hq2 as [? _]; auto.
    + by apply padded_preimages_opening in Hq2 as [? _]; auto.
  - apply list_eq. intros j. apply option_eq. intros p. split; eauto.
Qed.

(** Equal reference roots over sorted payloads. *)
Lemma sorted_root_binding id1 ps1 id2 ps2 :
  is_u8 id1 → is_u8 id2 → wf_payloads ps1 → wf_payloads ps2 →
  merkle_root node_hash_v2 (log_depth (length ps1)) (padded_leaves id1 (stable_sort bytes_le ps1)) =
  merkle_root node_hash_v2 (log_depth (length ps2)) (padded_leaves id2 (stable_sort bytes_le ps2)) →
  match tree_collision (log_depth (length ps1)) (padded_preimages id1 (stable_sort bytes_le ps1))
          (log_depth (length ps2)) (padded_preimages id2 (stable_sort bytes_le ps2)) with
  | Some c => Collision blake3_256 c
  | None => id1 = id2 ∧ Permutation ps1 ps2
  end.
Proof.
  intros Hid1 Hid2 W1 W2 Hroot. rewrite !padded_leaves_preimages in Hroot.
  pose proof (length_padded_preimages id1 (stable_sort bytes_le ps1)) as L1.
  pose proof (length_padded_preimages id2 (stable_sort bytes_le ps2)) as L2.
  rewrite stable_sort_length in L1, L2.
  pose proof (tree_binding _ _ _ _ L1 L2 (padded_preimages_sep _ _)
    (padded_preimages_sep _ _) Hroot) as H.
  destruct (tree_collision _ _ _ _); [done|]. destruct H as [_ H].
  apply padded_preimages_inj in H as [-> H]; auto using wf_payloads_sort.
  split; [done|]. by rewrite (stable_sort_perm bytes_le ps1), H, <- stable_sort_perm.
Qed.

End Preimages.

(** ** Theorems *)

Section Theorems.
Context {HF : HashFns}.


(** The tree depends on the set of payloads only: any permutation of
    the input gives the same result, errors included. *)
Theorem build_v1_permutation (id : Z) (ps qs : list bytes) (Hp : Permutation ps qs) :
  build_v1 id ps = build_v1 id qs.
Proof. unfold build_v1. by rewrite (sort_bytes_perm_eq _ _ Hp). Qed.

(** Completeness of authentication paths.  In a built tree every sorted
    position has a path of [depth] sibling hashes, read off the layers
    without an out-of-range index, that replays to the root. *)
Theorem build_v1_path_complete (HL : HashLaws HF) (id : Z) (ps : list bytes) t i p
    (Ht : build_v1 id ps = Ok t) (Hp : stable_sort bytes_le ps !! i = Some p) :
  ∃ sibs, sibling_path (take (depth t) (mt_layers t)) (Z.of_nat i) = Some sibs ∧
    length sibs = depth t ∧
    root t = Some (walk node_hash_v2 (Z.of_nat i) (leaf_hash_v2 id (Z.of_nat i) p) sibs).
Proof.
  destruct (v1_path HL id ps t i _ Ht (padded_preimages_real _ _ _ _ Hp))
    as (sibs & Hs & Hl & _ & Hr). by exists sibs.
Qed.

(** C8: Binding of authentication paths.  If a claimed leaf with any number
    of siblings replays to the root of a built tree then either
    [open_collision] returns two colliding BLAKE3 inputs, or the path has
    the tree's depth, the leaf carries the tree's sub-tree id, and it is
    either the payload stored at its own index or the padding leaf with the
    sentinel index at an unused slot. *)
Theorem build_v1_binding (HL : HashLaws HF) (id : Z) (ps : list bytes) t
    (id' idx : Z) (payload : bytes) (sibs : list bytes)
    (Hid : is_u8 id) (Hid' : is_u8 id') (Hidx : is_u64 idx)
    (Hps : wf_payloads ps) (Hpl : Z.of_nat (length payload) < 2 ^ 63)
    (Hsibs : Forall is_hash sibs) (Ht : build_v1 id ps = Ok t)
    (Hroot : root t = Some (walk node_hash_v2 idx (leaf_hash_v2 id' idx payload) sibs)) :
  let sorted := stable_sort bytes_le ps in
  let slot := Z.to_nat (idx mod 2 ^ Z.of_nat (depth t)) in
  match open_collision (depth t) (padded_preimages id sorted) idx
          (leaf_preimage id' idx payload) (rev sibs) with
  | Some c => Collision blake3_256 c
  | None =>
      length sibs = depth t ∧ id' = id ∧
      ((idx = Z.of_nat slot ∧ sorted !! slot = Some payload) ∨
       (idx = EMPTY_INDEX_SENTINEL ∧ payload = [] ∧ (length ps <= slot)%nat))
  end.
Proof. by apply v1_opening. Qed.

(** The root commits to the sub-tree id and to the payload set.  Two
    built trees with one root either have the same id and the same payloads
    up to order, or [tree_collision] returns two colliding BLAKE3 inputs. *)
Theorem build_v1_root_binding (HL : HashLaws HF) (id1 id2 : Z) (ps1 ps2 : list bytes) t1 t2
    (Hid1 : is_u8 id1) (Hid2 : is_u8 id2) (W1 : wf_payloads ps1) (W2 : wf_payloads ps2)
    (Ht1 : build_v1 id1 ps1 = Ok t1) (Ht2 : build_v1 id2 ps2 = Ok t2)
    (Hroot : root t1 = root t2) :
  match tree_collision (depth t1) (padded_preimages id1 (stable_sort bytes_le ps1))
          (depth t2) (padded_preimages id2 (stable_sort bytes_le ps2)) with
  | Some c => Collision blake3_256 c
  | None => id1 = id2 ∧ Permutation ps1 ps2
  end.
Proof.
  pose proof (build_v1_ok_grown _ _ _ Ht1) as G1. pose proof (build_v1_ok_grown _ _ _ Ht2) as G2.
  rewrite (grown_root _ _ _ _ G1), (grown_root _ _ _ _ G2) in Hroot.
  injection Hroot as Hroot. rewrite (grown_depth _ _ _ _ G1), (grown_depth _ _ _ _ G2).
  by apply sorted_root_binding.
Qed.

End Theorems.

(** ** Witnesses *)

Module Example3.

Definition payloads : list bytes :=
  [ascii_bytes "carol"; ascii_bytes "alice"; ascii_bytes "bob"].

#[local] Existing Instance toy_hashes.

Definition tree : MerkleTree :=
  match build_v1 1 payloads with Ok t => t | _ => {| mt_leaves := []; mt_layers := [] |} end.

Definition siblings : list bytes :=
  default [] (sibling_path (take (depth tree) (mt_layers tree)) 1).

Lemma build_v1_permutation_witness :
  build_v1 1 payloads = build_v1 1 (rev payloads).
Proof. apply build_v1_permutation. apply Permutation_rev. Defined.

Lemma build_v1_path_complete_witness :
  ∃ sibs, sibling_path (take (depth tree) (mt_layers tree)) 1 = Some sibs ∧
    length sibs = depth tree ∧
    root tree = Some (walk node_hash_v2 1 (leaf_hash_v2 1 1 (ascii_bytes "bob")) sibs).
Proof.
  apply (build_v1_path_complete toy_hash_laws 1 payloads tree 1 (ascii_bytes "bob"));
    vm_compute; reflexivity.
Defined.

Lemma build_v1_binding_witness :
  length siblings = depth tree ∧ 1 = 1 ∧
  ((1 = 1 ∧ stable_sort bytes_le payloads !! 1%nat = Some (ascii_bytes "bob")) ∨
   (1 = EMPTY_INDEX_SENTINEL ∧ ascii_bytes "bob" = [] ∧ (3 <= 1)%nat)).
Proof.
  assert (Hf : Forall is_hash siblings) by (vm_compute; repeat constructor).
  assert (Hw : wf_payloads payloads) by by_compute.
  pose proof (build_v1_binding toy_hash_laws 1 payloads tree 1 1 (ascii_bytes "bob") siblings
    ltac:(done) ltac:(done) ltac:(done) Hw ltac:(done) Hf
    ltac:(vm_compute; reflexivity) ltac:(vm_compute; reflexivity)) as H.
  vm_compute in H |- *. exact H.
Defined.

Lemma build_v1_root_binding_witness : 1 = 1 ∧ Permutation payloads (rev payloads).
Proof.
  assert (Hw : wf_payloads payloads) by by_compute.
  assert (Hw' : wf_payloads (rev payloads)) by by_compute.
  pose proof (build_v1_root_binding toy_hash_laws 1 1 payloads (rev payloads) tree tree
    ltac:(done) ltac:(done) Hw Hw' ltac:(vm_compute; reflexivity)
    ltac:(vm_compute; reflexivity) eq_refl) as H.
  vm_compute in H |- *. exact H.
Defined.

End Example3.
