(* ===== verification/Witness.v ===== *)
(** * Inclusion witnesses of the legacy tree

    [omega-commitment-core/src/witness.rs]: construction of a witness from a
    tree (by index or by leaf) and its verification.  Every witness built
    from a tree of depth below 32 verifies; a witness of the tree's depth
    that verifies opens the leaf at its index or exhibits a collision. *)

From S2P Require Import Prelude Hash Tree TreeSpec.
From Stdlib Require Import ZArith Lia List Permutation Sorted String.
From stdpp Require Import base decidable list.

Local Open Scope Z_scope.

Record InclusionWitness := {
  iw_leaf : bytes;
  iw_leaf_index : Z;
  iw_siblings : list bytes
}.

Section Witness.
Context {HF : HashFns}.

(** [build_at_index]: the outer option is a panic of [layer[sib_idx]], the
    inner one the function's own [Option]. *)
Definition build_at_index (t : MerkleTree) (leaf_index : Z) : option (option InclusionWitness) :=
  match mt_leaves t !! Z.to_nat leaf_index with
  | None => Some None
  | Some leaf =>
      siblings ← sibling_path (take (depth t) (mt_layers t)) leaf_index;
      Some (Some {| iw_leaf := leaf; iw_leaf_index := leaf_index; iw_siblings := siblings |})
  end.

(** [build]: the position is truncated by [as u32]. *)
Definition build_for_leaf (t : MerkleTree) (leaf : bytes) : option (option InclusionWitness) :=
  match position leaf (mt_leaves t) with
  | None => Some None
  | Some pos =>
      let leaf_index := Z.of_nat pos mod 2 ^ 32 in
      siblings ← sibling_path (take (depth t) (mt_layers t)) leaf_index;
      Some (Some {| iw_leaf := leaf; iw_leaf_index := leaf_index; iw_siblings := siblings |})
  end.

Definition verify (w : InclusionWitness) (root : bytes) : bool :=
  let depth := length (iw_siblings w) in
  if (32 <=? depth)%nat then false
  else if 2 ^ Z.of_nat depth <=? iw_leaf_index w then false
  else bool_decide (walk node_hash_legacy (iw_leaf_index w) (iw_leaf w) (iw_siblings w) = root).

(** ** The legacy tree *)

Lemma build_grown input :
  ∃ t, build input = Some t ∧
    grown node_hash_legacy
      (pad_to (next_power_of_two (Nat.max (length input) 1)) ZERO_HASH (stable_sort bytes_le input))
      (log_depth (length input)) t.
Proof.
  unfold build, build_legacy. rewrite stable_sort_length.
  edestruct (grow_layers_grown node_hash_legacy) as (layers & E & Hg);
    [|rewrite E; cbn; eexists; split; [done|exact Hg]].
  rewrite length_pad_to; [done|]. rewrite stable_sort_length.
  pose proof (next_power_of_two_ge (Nat.max (length input) 1)). lia.
Qed.

Lemma grown_witness node leaves d t idx x :
  grown node leaves d t → 0 <= idx → leaves !! Z.to_nat idx = Some x →
  ∃ sibs, sibling_path (take (depth t) (mt_layers t)) idx = Some sibs ∧ length sibs = d ∧
    root t = Some (walk node idx x sibs) ∧
    (∀ P : bytes → Prop, Forall (Forall P) (mt_layers t) → Forall P sibs).
Proof.
  intros Hg Hidx Hx. rewrite (grown_root _ _ _ _ Hg), (grown_depth _ _ _ _ Hg).
  destruct Hg as (_ & _ & Hh & Hlay). destruct (mt_layers t) as [|l ls]; [done|].
  injection Hh as ->.
  destruct (layered_path _ _ _ _ _ _ Hlay Hidx Hx) as (sibs & ? & ? & Hw & ?).
  exists sibs. by rewrite Hw.
Qed.

Lemma grown_index_bound node leaves d t idx x :
  grown node leaves d t → 0 <= idx → leaves !! Z.to_nat idx = Some x → idx < 2 ^ Z.of_nat d.
Proof.
  intros (_ & Hl & _) Hi Hx. apply lookup_lt_Some in Hx. pose proof (of_nat_pow2 d). lia.
Qed.

(** A witness that carries an honest path verifies. *)
Lemma verify_honest t d leaves idx x sibs r :
  grown node_hash_legacy leaves d t → (d < 32)%nat → 0 <= idx < 2 ^ Z.of_nat d →
  length sibs = d → root t = Some r → root t = Some (walk node_hash_legacy idx x sibs) →
  verify {| iw_leaf := x; iw_leaf_index := idx; iw_siblings := sibs |} r = true.
Proof.
  intros Hg Hd Hi Hl Hr Hw. unfold verify. cbn [iw_siblings iw_leaf_index iw_leaf]. rewrite Hl.
  destruct (Nat.leb_spec 32 d); [lia|]. destruct (Z.leb_spec (2 ^ Z.of_nat d) idx); [lia|].
  apply bool_decide_eq_true. congruence.
Qed.

Lemma build_at_index_cases t d leaves i r :
  grown node_hash_legacy leaves d t → (d < 32)%nat → root t = Some r → 0 <= i →
  match build_at_index t i with
  | Some (Some w) => mt_leaves t !! Z.to_nat i = Some (iw_leaf w) ∧ iw_leaf_index w = i ∧ verify w r = true
  | Some None => Z.of_nat (leaf_count t) <= i
  | None => False
  end.
Proof.
  intros Hg Hd Hr Hi. unfold build_at_index, leaf_count. rewrite (proj1 Hg).
  destruct (_ !! _) as [x|] eqn:Hx; [|apply lookup_ge_None in Hx; lia].
  destruct (grown_witness _ _ _ _ _ _ Hg Hi Hx) as (sibs & Hs & Hl & Hw & _).
  rewrite Hs. cbn. split; [done|]. split; [done|].
  eapply (verify_honest _ _ _ _ _ _ _ Hg); eauto.
  split; [done|]. by apply (grown_index_bound _ _ _ _ _ _ Hg Hi Hx).
Qed.

(** ** Two openings of one root *)

(** The 64-byte buffer hashed at one step of the path. *)
Definition step_preimage (idx : Z) (cur sib : bytes) : bytes :=
  if Z.land idx 1 =? 0 then cur ++ sib else sib ++ cur.

Lemma step_up_legacy idx cur sib :
  step_up node_hash_legacy idx cur sib = blake3_256 (step_preimage idx cur sib).
Proof. unfold step_up, step_preimage. by destruct (_ =? _). Qed.

Lemma step_preimage_inj idx x y s t :
  is_hash x → is_hash y → is_hash s → is_hash t →
  step_preimage idx x s = step_preimage idx y t → x = y ∧ s = t.
Proof.
  unfold step_preimage, is_hash. intros ? ? ? ? E.
  destruct (_ =? _); apply app_eq_len in E as [-> ->]; done || congruence.
Qed.

(** The topmost pair of preimages that differ although their hashes agree,
    for two paths with one index. *)
Fixpoint walk_collision (idx : Z) (x y : bytes) (ss ts : list bytes) : option (bytes * bytes) :=
  match ss, ts with
  | s :: ss', t :: ts' =>
      let p := step_preimage idx x s in
      let q := step_preimage idx y t in
      match walk_collision (idx / 2) (blake3_256 p) (blake3_256 q) ss' ts' with
      | Some c => Some c
      | None => if decide (p = q) then None else Some (p, q)
      end
  | _, _ => None
  end.

Lemma walk_binding (HL : HashLaws HF) idx x y ss ts :
  is_hash x → is_hash y → Forall is_hash ss → Forall is_hash ts → length ss = length ts →
  walk node_hash_legacy idx x ss = walk node_hash_legacy idx y ts →
  match walk_collision idx x y ss ts with
  | Some c => Collision blake3_256 c
  | None => x = y ∧ ss = ts
  end.
Proof.
  intros Hx Hy Hss. revert idx x y ts Hx Hy.
  induction Hss as [|s ss Hs Hss IH]; intros idx x y ts Hx Hy Hts Hl Hw;
    destruct Hts as [|t ts Ht Hts]; try discriminate; [done|].
  cbn [walk walk_collision] in *. rewrite !step_up_legacy in Hw.
  specialize (IH (idx / 2) _ _ ts (is_hash_blake3 (step_preimage idx x s))
    (is_hash_blake3 (step_preimage idx y t)) Hts ltac:(by injection Hl) Hw).
  destruct (walk_collision _ _ _ ss ts); [done|]. destruct IH as [IH ->].
  destruct (decide _) as [E|]; [|by split].
  by apply step_preimage_inj in E as [-> ->].
Qed.

End Witness.

Section Theorems.
Context {HF : HashFns}.

(** Completeness of the legacy witness.  Building a tree never panics.
    For a tree of depth below 32, [build_at_index] returns a witness for
    exactly the indices of padded leaves, [build] for exactly the leaf
    hashes that occur, and every witness returned carries the asked leaf and
    verifies against the root. *)
Theorem witness_complete (input : list bytes) (Hd : (log_depth (length input) < 32)%nat) :
  ∃ t r, build input = Some t ∧ root t = Some r ∧
    (∀ i, is_u32 i →
       match build_at_index t i with
       | Some (Some w) => mt_leaves t !! Z.to_nat i = Some (iw_leaf w) ∧
                          iw_leaf_index w = i ∧ verify w r = true
       | Some None => Z.of_nat (leaf_count t) <= i
       | None => False
       end) ∧
    (∀ x, match build_for_leaf t x with
          | Some (Some w) => iw_leaf w = x ∧
              mt_leaves t !! Z.to_nat (iw_leaf_index w) = Some x ∧ verify w r = true
          | Some None => x ∉ mt_leaves t
          | None => False
          end).
Proof.
  destruct (build_grown input) as (t & E & Hg). pose proof (grown_root _ _ _ _ Hg) as Hr.
  eexists t, _. split; [done|]. split; [exact Hr|].
  pose proof (proj1 Hg) as Hlv. split.
  - intros i Hi. pose proof (build_at_index_cases _ _ _ i _ Hg Hd Hr (proj1 Hi)) as Hc.
    destruct (build_at_index t i) as [[w|]|]; naive_solver.
  - intros x. unfold build_for_leaf. rewrite Hlv.
    pose proof (position_spec x (mt_leaves t)) as Hp. rewrite Hlv in Hp.
    destruct (position _ _) as [i|]; [|done]. destruct Hp as [Hx _].
    assert (Hx' := Hx). rewrite <- (Nat2Z.id i) in Hx'.
    pose proof (grown_index_bound _ _ _ _ _ _ Hg (Nat2Z.is_nonneg i) Hx') as Hb.
    assert (Z.of_nat i < 2 ^ 32).
    { eapply Z.lt_le_trans; [exact Hb|]. apply Z.pow_le_mono_r; lia. }
    rewrite Z.mod_small by lia.
    destruct (grown_witness _ _ _ _ _ _ Hg (Nat2Z.is_nonneg i) Hx') as (sibs & Hs & Hl & Hw & _).
    rewrite Hs. cbn. split; [done|]. split; [done|].
    eapply (verify_honest _ _ _ _ _ _ _ Hg); eauto. lia.
Qed.

(** Soundness of the legacy witness at the tree's depth.  A witness with
    as many siblings as the tree is deep that verifies against the root
    opens the padded leaf at its index, or [walk_collision] against the
    honest path returns two colliding BLAKE3 inputs. *)
Theorem witness_sound (HL : HashLaws HF) (input : list bytes) t r (w : InclusionWitness)
    (Hin : Forall is_hash input) (Ht : build input = Some t) (Hr : root t = Some r)
    (Hleaf : is_hash (iw_leaf w)) (Hidx : is_u32 (iw_leaf_index w))
    (Hsibs : Forall is_hash (iw_siblings w)) (Hlen : length (iw_siblings w) = depth t)
    (Hv : verify w r = true) :
  ∃ honest, build_at_index t (iw_leaf_index w) = Some (Some honest) ∧
    match walk_collision (iw_leaf_index w) (iw_leaf w) (iw_leaf honest)
            (iw_siblings w) (iw_siblings honest) with
    | Some c => Collision blake3_256 c
    | None => w = honest
    end.
Proof.
  destruct (build_grown input) as (t' & E & Hg). rewrite Ht in E. injection E as <-.
  unfold verify in Hv. destruct (32 <=? _)%nat; [done|].
  destruct (Z.leb_spec (2 ^ Z.of_nat (length (iw_siblings w))) (iw_leaf_index w)) as [|Hb]; [done|].
  apply bool_decide_eq_true in Hv. rewrite Hlen, (grown_depth _ _ _ _ Hg) in Hb.
  destruct (lookup_lt_is_Some_2 (mt_leaves t) (Z.to_nat (iw_leaf_index w))) as [x Hx].
  { rewrite (proj1 Hg), (proj1 (proj2 Hg)). unfold in_range in Hidx.
    pose proof (of_nat_pow2 (log_depth (length input))). lia. }
  unfold build_at_index. rewrite Hx. rewrite (proj1 Hg) in Hx.
  destruct (grown_witness _ _ _ _ _ _ Hg (proj1 Hidx) Hx) as (sibs & Hs & Hl & Hw & HF').
  rewrite Hs. cbn. eexists. split; [done|]. cbn [iw_leaf iw_siblings].
  assert (Hpad : Forall is_hash (mt_leaves t)).
  { rewrite (proj1 Hg). apply Forall_pad_to; [|done]. by rewrite <- (stable_sort_perm bytes_le input). }
  assert (Hls : Forall (Forall is_hash) (mt_layers t)).
  { destruct Hg as (Hlv & _ & Hh & Hlay). destruct (mt_layers t) as [|l ls]; [done|].
    injection Hh as Hh. eapply layered_Forall; [|by rewrite Hh, <- Hlv|exact Hlay].
    intros a b. apply length_blake3_256. }
  rewrite (proj1 Hg) in Hpad. pose proof (list.Forall_lookup_1 _ _ _ _ Hpad Hx) as Hxh.
  pose proof (walk_binding HL (iw_leaf_index w) (iw_leaf w) x (iw_siblings w) sibs
    Hleaf Hxh Hsibs (HF' _ Hls)) as H.
  rewrite (grown_depth _ _ _ _ Hg) in Hlen. specialize (H ltac:(congruence) ltac:(congruence)).
  destruct (walk_collision _ _ _ _ _); [done|]. destruct H as [<- <-]. by destruct w.
Qed.

End Theorems.

Module ExampleWitness.

#[local] Existing Instance toy_hashes.

Definition leaves : list bytes := blake3_256 <$> [ascii_bytes "a"; ascii_bytes "b"; ascii_bytes "c"].

Definition tree : MerkleTree :=
  default {| mt_leaves := []; mt_layers := [] |} (build leaves).

Definition opening : InclusionWitness :=
  match build_at_index tree 2 with
  | Some (Some w) => w
  | _ => {| iw_leaf := []; iw_leaf_index := 0; iw_siblings := [] |}
  end.

Lemma witness_complete_witness :
  ∃ t r, build leaves = Some t ∧ root t = Some r ∧
    match build_at_index t 2 with
    | Some (Some w) => mt_leaves t !! 2%nat = Some (iw_leaf w) ∧
                       iw_leaf_index w = 2 ∧ verify w r = true
    | Some None => Z.of_nat (leaf_count t) <= 2
    | None => False
    end.
Proof.
  destruct (witness_complete leaves) as (t & r & H1 & H2 & H3 & _); [vm_compute; lia|].
  exists t, r. split; [exact H1|]. split; [exact H2|]. exact (H3 2 ltac:(unfold in_range; lia)).
Defined.

Lemma witness_sound_witness :
  ∃ honest, build_at_index tree 2 = Some (Some honest) ∧
    match walk_collision 2 (iw_leaf opening) (iw_leaf honest)
            (iw_siblings opening) (iw_siblings honest) with
    | Some c => Collision blake3_256 c
    | None => opening = honest
    end.
Proof.
  apply (witness_sound toy_hash_laws leaves tree (default [] (root tree)) opening);
    by by_compute || (vm_compute; reflexivity) || (vm_compute; repeat constructor).
Defined.

End ExampleWitness.
