(* ===== verification/Leaves.v ===== *)
(** * Canonical leaf encodings

    The seven leaf types of [omega-commitment-core]: UTXOs
    ([utxo_leaf.rs]), block headers ([header_leaf.rs]), transaction index
    entries ([tx_index_leaf.rs]), token policies ([token_policy_leaf.rs]),
    script registry entries ([script_registry_leaf.rs]), stake entries
    ([stake_state_leaf.rs]) and governance facts
    ([governance_state_leaf.rs]); the optional uniqueness and chain-link
    validators of these files; and the snapshot manifest
    ([snapshot_manifest.rs]).  A fixed-size array field is a byte string
    whose length is part of the record's [wf_*] predicate. *)

From S2P Require Import Prelude Hash.
From Stdlib Require Import ZArith Lia List Permutation Sorted String.
From stdpp Require Import base decidable list gmap.

Local Open Scope Z_scope.

(** [uN::try_from(len)]. *)
Definition try_from_len {E} (w : Z) (len : nat) (e : E) : result Z E :=
  if Z.of_nat len <? 2 ^ w then Ok (Z.of_nat len) else Err e.

(** ** UTXOs *)

Inductive LeafError : Type :=
| AssetCountOverflow
| AssetIdLenOverflow
| AddressLenOverflow
| InlineDatumLenOverflow
| ScriptRefLenOverflow.

Record Asset := { asset_id : bytes; quantity : Z }.

Inductive DatumOption : Type :=
| DatumNone
| DatumHash (hash : bytes)
| DatumInline (data : bytes).

Inductive ScriptLanguage : Type := Native | PlutusV1 | PlutusV2 | PlutusV3.

Definition language_tag_byte (l : ScriptLanguage) : Z :=
  match l with Native => 1 | PlutusV1 => 2 | PlutusV2 => 3 | PlutusV3 => 4 end.

Record ScriptRef := { sr_language : ScriptLanguage; sr_bytes : bytes }.

Record Utxo := {
  utxo_tx_id : bytes;
  output_index : Z;
  address : bytes;
  value_lovelace : Z;
  assets : list Asset;
  datum_option : DatumOption;
  script_ref : option ScriptRef
}.

(** [a.asset_id.cmp(&b.asset_id)], as the order [sort_by] is given. *)
Definition asset_le (a b : Asset) : bool := bytes_le (asset_id a) (asset_id b).

Definition encode_asset (a : Asset) : result bytes LeafError :=
  let? id_len := try_from_len 16 (length (asset_id a)) AssetIdLenOverflow in
  Ok (be_bytes 2 id_len ++ asset_id a ++ be_bytes 8 (quantity a)).

(** The loop [for a in sorted]. *)
Fixpoint encode_assets (l : list Asset) : result bytes LeafError :=
  match l with
  | [] => Ok []
  | a :: l' =>
      let? x := encode_asset a in
      let? y := encode_assets l' in
      Ok (x ++ y)
  end.

Definition encode_datum (d : DatumOption) : result bytes LeafError :=
  match d with
  | DatumNone => Ok [z2b 0]
  | DatumHash hash => Ok (z2b 1 :: hash)
  | DatumInline data =>
      let? n := try_from_len 32 (length data) InlineDatumLenOverflow in
      Ok (z2b 2 :: be_bytes 4 n ++ data)
  end.

Definition encode_script_ref (s : option ScriptRef) : result bytes LeafError :=
  match s with
  | None => Ok [z2b 0]
  | Some sr =>
      let? n := try_from_len 32 (length (sr_bytes sr)) ScriptRefLenOverflow in
      Ok (z2b 1 :: z2b (language_tag_byte (sr_language sr)) :: be_bytes 4 n ++ sr_bytes sr)
  end.

Definition utxo_encode (u : Utxo) : result bytes LeafError :=
  let? addr_len := try_from_len 16 (length (address u)) AddressLenOverflow in
  let? asset_count := try_from_len 32 (length (assets u)) AssetCountOverflow in
  let? asset_bytes := encode_assets (stable_sort asset_le (assets u)) in
  let? datum_bytes := encode_datum (datum_option u) in
  let? script_bytes := encode_script_ref (script_ref u) in
  Ok (utxo_tx_id u ++ be_bytes 4 (output_index u) ++ be_bytes 2 addr_len ++ address u ++
      be_bytes 8 (value_lovelace u) ++ be_bytes 4 asset_count ++
      asset_bytes ++ datum_bytes ++ script_bytes).

Definition utxo_commit_to_subtree (u : Utxo) : result bytes LeafError := utxo_encode u.

(** ** Block headers *)

Record BlockHeader := {
  hdr_slot : Z;
  block_height : Z;
  hdr_block_hash : bytes;
  prev_hash : bytes
}.

Definition header_encode (h : BlockHeader) : bytes :=
  be_bytes 8 (hdr_slot h) ++ be_bytes 8 (block_height h) ++ hdr_block_hash h ++ prev_hash h.

Definition header_commit_to_subtree (h : BlockHeader) : bytes := header_encode h.

(** The loop [for i in 1..headers.len()], at index [i] with its predecessor. *)
Fixpoint chain_links_from (i : nat) (prev : BlockHeader) (rest : list BlockHeader) : option nat :=
  match rest with
  | [] => None
  | h :: rest' =>
      if hdr_slot h <=? hdr_slot prev then Some i
      else if bool_decide (prev_hash h ≠ hdr_block_hash prev) then Some i
      else chain_links_from (S i) h rest'
  end.

Definition validate_chain_links (headers : list BlockHeader) : option nat :=
  match headers with [] => None | h :: rest => chain_links_from 1 h rest end.

(** ** Transaction index entries *)

Record TxIndexEntry := {
  txi_tx_id : bytes;
  txi_slot : Z;
  txi_block_hash : bytes;
  tx_position : Z
}.

Definition tx_index_encode (e : TxIndexEntry) : bytes :=
  txi_tx_id e ++ be_bytes 8 (txi_slot e) ++ txi_block_hash e ++ be_bytes 4 (tx_position e).

Definition tx_index_commit_to_subtree (e : TxIndexEntry) : bytes := tx_index_encode e.

(** ** Token policies *)

Record TokenPolicy := {
  policy_id : bytes;
  first_issuance_slot : Z;
  total_supply_at_h : Z
}.

Definition token_policy_encode (p : TokenPolicy) : bytes :=
  policy_id p ++ be_bytes 8 (first_issuance_slot p) ++ be_bytes 16 (total_supply_at_h p).

Definition token_policy_commit_to_subtree (p : TokenPolicy) : bytes := token_policy_encode p.

(** ** Script registry entries *)

Record ScriptEntry := {
  script_hash : bytes;
  deployment_slot : Z;
  script_size_bytes : Z;
  se_language : Z
}.

Definition script_encode (s : ScriptEntry) : bytes :=
  script_hash s ++ be_bytes 8 (deployment_slot s) ++ be_bytes 4 (script_size_bytes s) ++
  [z2b (se_language s)].

Definition script_commit_to_subtree (s : ScriptEntry) : bytes := script_encode s.

(** ** Stake entries *)

Inductive DrepDelegation : Type :=
| DrepNone
| DrepKeyHash (hash : bytes)
| DrepScriptHash (hash : bytes)
| DrepAlwaysAbstain
| DrepAlwaysNoConfidence.

Definition drep_tag_byte (d : DrepDelegation) : Z :=
  match d with
  | DrepNone => 0 | DrepKeyHash _ => 1 | DrepScriptHash _ => 2
  | DrepAlwaysAbstain => 3 | DrepAlwaysNoConfidence => 4
  end.

Record StakeEntry := {
  stake_credential_hash : bytes;
  delegated_pool : bytes;
  delegated_drep : DrepDelegation;
  rewards_lovelace : Z;
  is_pool_operator : Z
}.

Definition drep_payload (d : DrepDelegation) : bytes :=
  match d with
  | DrepKeyHash hash | DrepScriptHash hash => hash
  | DrepNone | DrepAlwaysAbstain | DrepAlwaysNoConfidence => []
  end.

Definition stake_encode (s : StakeEntry) : bytes :=
  stake_credential_hash s ++ delegated_pool s ++ [z2b (drep_tag_byte (delegated_drep s))] ++
  drep_payload (delegated_drep s) ++ be_bytes 8 (rewards_lovelace s) ++ [z2b (is_pool_operator s)].

Definition stake_commit_to_subtree (s : StakeEntry) : bytes := stake_encode s.

(** ** Governance facts *)

Inductive GovernanceFact : Type :=
| Treasury (key : bytes) (value : Z) (slot : Z)
| CcSeat (key : bytes) (value : Z) (slot : Z)
| RatifiedAction (key : bytes) (value : Z) (slot : Z)
| InFlightAction (key : bytes) (value : Z) (slot : Z)
| AccountState (reserves treasury deposits fee_pot : Z).

Definition gov_kind (f : GovernanceFact) : Z :=
  match f with
  | Treasury _ _ _ => 0 | CcSeat _ _ _ => 1 | RatifiedAction _ _ _ => 2
  | InFlightAction _ _ _ => 3 | AccountState _ _ _ _ => 4
  end.

Definition governance_encode (f : GovernanceFact) : bytes :=
  match f with
  | Treasury key value slot | CcSeat key value slot
  | RatifiedAction key value slot | InFlightAction key value slot =>
      z2b (gov_kind f) :: key ++ be_bytes 16 value ++ be_bytes 8 slot
  | AccountState reserves treasury deposits fee_pot =>
      z2b (gov_kind f) :: be_bytes 8 reserves ++ be_bytes 8 treasury ++
      be_bytes 8 deposits ++ be_bytes 8 fee_pot
  end.

Definition governance_commit_to_subtree (f : GovernanceFact) : bytes := governance_encode f.

Definition fact_identity (f : GovernanceFact) : Z * bytes :=
  match f with
  | Treasury key _ _ | CcSeat key _ _ | RatifiedAction key _ _ | InFlightAction key _ _ =>
      (gov_kind f, key)
  | AccountState _ _ _ _ => (gov_kind f, replicate 32 Byte.x00)
  end.

(** ** Uniqueness validators *)

(** The loop [if !seen.insert(key) { return Some(i) }]. *)
Fixpoint first_repeat {K} `{Countable K} (seen : gset K) (i : nat) (keys : list K) : option nat :=
  match keys with
  | [] => None
  | k :: keys' =>
      if decide (k ∈ seen) then Some i else first_repeat ({[ k ]} ∪ seen) (S i) keys'
  end.

Definition validate_tx_uniqueness (entries : list TxIndexEntry) : option nat :=
  first_repeat ∅ 0 (txi_tx_id <$> entries).

Definition validate_policy_id_uniqueness (entries : list TokenPolicy) : option nat :=
  first_repeat ∅ 0 (policy_id <$> entries).

Definition validate_script_hash_uniqueness (entries : list ScriptEntry) : option nat :=
  first_repeat ∅ 0 (script_hash <$> entries).

Definition validate_stake_credential_uniqueness (entries : list StakeEntry) : option nat :=
  first_repeat ∅ 0 (stake_credential_hash <$> entries).

Definition validate_governance_keys_unique_per_kind (entries : list GovernanceFact) : option nat :=
  first_repeat ∅ 0 (fact_identity <$> entries).

(** ** The snapshot manifest *)

Definition K_STABILITY : Z := 2160.

Inductive StakeSnapshot : Type := Mark | StakeSet | Go.

Record SnapshotManifest := {
  sm_block_hash : bytes;
  sm_slot : Z;
  sm_epoch : Z;
  stability_depth : Z;
  stake_snapshot_select : StakeSnapshot
}.

Inductive ManifestError : Type := StabilityTooShallow (actual required : Z).

Definition manifest_validate (m : SnapshotManifest) : result unit ManifestError :=
  if stability_depth m <? K_STABILITY
  then Err (StabilityTooShallow (stability_depth m) K_STABILITY)
  else Ok ().

(** ** Legacy leaf hashes *)

Section LeafHash.
Context {HF : HashFns}.

Definition utxo_leaf_hash (u : Utxo) : result bytes LeafError :=
  let? enc := utxo_encode u in Ok (blake3_256 enc).
Definition header_leaf_hash (h : BlockHeader) : bytes := blake3_256 (header_encode h).
Definition tx_index_leaf_hash (e : TxIndexEntry) : bytes := blake3_256 (tx_index_encode e).
Definition token_policy_leaf_hash (p : TokenPolicy) : bytes := blake3_256 (token_policy_encode p).
Definition script_leaf_hash (s : ScriptEntry) : bytes := blake3_256 (script_encode s).
Definition stake_leaf_hash (s : StakeEntry) : bytes := blake3_256 (stake_encode s).
Definition governance_leaf_hash (f : GovernanceFact) : bytes := blake3_256 (governance_encode f).

End LeafHash.
