(* ===== verification/LeavesSpec.v ===== *)
(** * Properties of the leaf encodings

    [CanonicalLeaf] is what a leaf type promises to the tree builders: the
    committed payload determines the leaf, up to the order of a UTXO's
    assets.  All seven leaf types are instances.  Encodings of variable
    width are shown prefix-free ([PrefixInj]). *)

From S2P Require Import Prelude Hash Leaves.
From Stdlib Require Import ZArith Lia List Permutation Sorted String.
From stdpp Require Import base decidable list gmap.

Local Open Scope Z_scope.

(** ** Well-formed leaves: array widths and integer ranges *)

Definition wf_asset (a : Asset) : Prop := is_u64 (quantity a).

Definition wf_datum (d : DatumOption) : Prop :=
  match d with DatumHash h => is_hash h | _ => True end.

Definition wf_utxo (u : Utxo) : Prop :=
  is_hash (utxo_tx_id u) ∧ is_u32 (output_index u) ∧ is_u64 (value_lovelace u) ∧
  Forall wf_asset (assets u) ∧ wf_datum (datum_option u).

Definition wf_header (h : BlockHeader) : Prop :=
  is_u64 (hdr_slot h) ∧ is_u64 (block_height h) ∧ is_hash (hdr_block_hash h) ∧ is_hash (prev_hash h).

Definition wf_tx_index (e : TxIndexEntry) : Prop :=
  is_hash (txi_tx_id e) ∧ is_u64 (txi_slot e) ∧ is_hash (txi_block_hash e) ∧ is_u32 (tx_position e).

Definition wf_token_policy (p : TokenPolicy) : Prop :=
  length (policy_id p) = 28%nat ∧ is_u64 (first_issuance_slot p) ∧ is_u128 (total_supply_at_h p).

Definition wf_script (s : ScriptEntry) : Prop :=
  length (script_hash s) = 28%nat ∧ is_u64 (deployment_slot s) ∧
  is_u32 (script_size_bytes s) ∧ is_u8 (se_language s).

Definition wf_drep (d : DrepDelegation) : Prop :=
  match d with DrepKeyHash h | DrepScriptHash h => length h = 28%nat | _ => True end.

Definition wf_stake (s : StakeEntry) : Prop :=
  length (stake_credential_hash s) = 28%nat ∧ length (delegated_pool s) = 28%nat ∧
  wf_drep (delegated_drep s) ∧ is_u64 (rewards_lovelace s) ∧ is_u8 (is_pool_operator s).

Definition wf_governance (f : GovernanceFact) : Prop :=
  match f with
  | Treasury k v s | CcSeat k v s | RatifiedAction k v s | InFlightAction k v s =>
      is_hash k ∧ is_u128 v ∧ is_u64 s
  | AccountState r t d p => is_u64 r ∧ is_u64 t ∧ is_u64 d ∧ is_u64 p
  end.

#[export] Instance wf_asset_dec a : Decision (wf_asset a).
Proof. unfold wf_asset. apply _. Defined.
#[export] Instance wf_datum_dec d : Decision (wf_datum d).
Proof. destruct d; apply _. Defined.
#[export] Instance wf_utxo_dec u : Decision (wf_utxo u).
Proof. unfold wf_utxo. apply _. Defined.
#[export] Instance wf_header_dec h : Decision (wf_header h).
Proof. unfold wf_header. apply _. Defined.
#[export] Instance wf_tx_index_dec e : Decision (wf_tx_index e).
Proof. unfold wf_tx_index. apply _. Defined.
#[export] Instance wf_token_policy_dec p : Decision (wf_token_policy p).
Proof. unfold wf_token_policy. apply _. Defined.
#[export] Instance wf_script_dec s : Decision (wf_script s).
Proof. unfold wf_script. apply _. Defined.
#[export] Instance wf_drep_dec d : Decision (wf_drep d).
Proof. destruct d; apply _. Defined.
#[export] Instance wf_stake_dec s : Decision (wf_stake s).
Proof. unfold wf_stake. apply _. Defined.
#[export] Instance wf_governance_dec f : Decision (wf_governance f).
Proof. destruct f; apply _. Defined.

(** ** Prefix-free encoders *)

Definition PrefixInj {A E} (wf : A → Prop) (enc : A → result bytes E) : Prop :=
  ∀ a b p q r s, wf a → wf b → enc a = Ok p → enc b = Ok q → p ++ r = q ++ s → a = b ∧ r = s.

Lemma try_from_len_ok {E} w n (e : E) z :
  try_from_len w n e = Ok z ↔ z = Z.of_nat n ∧ Z.of_nat n < 2 ^ w.
Proof. unfold try_from_len. destruct (Z.ltb_spec (Z.of_nat n) (2 ^ w)); naive_solver lia. Qed.

Lemma try_from_len_err {E} w n (e e' : E) :
  try_from_len w n e = Err e' ↔ e' = e ∧ 2 ^ w <= Z.of_nat n.
Proof. unfold try_from_len. destruct (Z.ltb_spec (Z.of_nat n) (2 ^ w)); naive_solver lia. Qed.

(** Adds the length conversions to [destruct_ok]. *)
Ltac destruct_leaf := repeat (destruct_ok; match goal with
  | H : try_from_len _ _ _ = Ok _ |- _ => apply try_from_len_ok in H as [-> ?]
  end); destruct_ok.

(** A length-prefixed field can be read back. *)
Lemma len_prefix_inj n (a b x y : bytes) :
  Z.of_nat (length a) < 256 ^ Z.of_nat n → Z.of_nat (length b) < 256 ^ Z.of_nat n →
  be_bytes n (Z.of_nat (length a)) ++ a ++ x = be_bytes n (Z.of_nat (length b)) ++ b ++ y →
  a = b ∧ x = y.
Proof.
  intros Ha Hb H. apply app_eq_len in H as [Hl H]; [|by rewrite !length_be_bytes].
  apply be_bytes_inj in Hl; [|lia|lia]. apply app_eq_len in H; [done|lia].
Qed.

Lemma encode_asset_prefix : PrefixInj wf_asset encode_asset.
Proof.
  intros a b p q r s Wa Wb Ha Hb H. unfold encode_asset in *. destruct_leaf.
  rewrite <- !app_assoc in H.
  apply (len_prefix_inj 2) in H as [Hid H]; [|done|done].
  apply app_eq_len in H as [Hq H]; [|by rewrite !length_be_bytes].
  apply be_bytes8_inj in Hq; [|done|done]. destruct a, b; cbn in *. by subst.
Qed.

Lemma encode_assets_prefix l m p q r s :
  Forall wf_asset l → Forall wf_asset m → length l = length m →
  encode_assets l = Ok p → encode_assets m = Ok q → p ++ r = q ++ s → l = m ∧ r = s.
Proof.
  intros Hl. revert m p q. induction Hl as [|a l Ha Hl IH]; intros m p q Hm Hlen Ep Eq E;
    destruct Hm as [|b m Hb Hm]; try discriminate; cbn in Ep, Eq; destruct_leaf; [done|].
  rewrite <- !app_assoc in E. eapply (encode_asset_prefix a b) in E as [-> E]; eauto.
  eapply IH in E as [-> ->]; eauto.
Qed.

Lemma encode_datum_prefix : PrefixInj wf_datum encode_datum.
Proof.
  intros a b p q r s Wa Wb Ha Hb H. destruct a, b; cbn in Ha, Hb; destruct_leaf;
    cbn in H; try discriminate.
  - by injection H as ->.
  - injection H as H. apply app_eq_len in H as [-> ->]; [done|].
    cbn in Wa, Wb. unfold is_hash in *. congruence.
  - apply cons_eq_cons in H as [_ H]. rewrite <- !app_assoc in H.
    by apply (len_prefix_inj 4) in H as [-> ->].
Qed.

Lemma encode_script_ref_prefix : PrefixInj (λ _, True) encode_script_ref.
Proof.
  intros a b p q r s _ _ Ha Hb H. destruct a as [[la ba]|], b as [[lb bb]|];
    cbn in Ha, Hb; destruct_leaf; cbn in H; try discriminate.
  - apply cons_eq_cons in H as [_ H]. apply cons_eq_cons in H as [Hl H]. rewrite <- !app_assoc in H.
    apply (len_prefix_inj 4) in H as [-> ->]; [|done|done].
    by destruct la, lb.
  - by injection H as ->.
Qed.

(** ** The interface to the tree builders *)

Class CanonicalLeaf (A : Type) := {
  wf_leaf : A → Prop;
  commit : A → result bytes LeafError;
  same_leaf : A → A → Prop;
  same_leaf_equiv : Equivalence same_leaf;
  commit_no_panic : ∀ a, commit a ≠ Panic;
  commit_inj : ∀ a b p, wf_leaf a → wf_leaf b →
    commit a = Ok p → commit b = Ok p → same_leaf a b;
  commit_proper : ∀ a b, same_leaf a b → commit a = commit b
}.

#[export] Existing Instance same_leaf_equiv.

(** UTXOs agree up to the canonical order of their assets. *)
Definition same_utxo (u v : Utxo) : Prop :=
  utxo_tx_id u = utxo_tx_id v ∧ output_index u = output_index v ∧ address u = address v ∧
  value_lovelace u = value_lovelace v ∧
  stable_sort asset_le (assets u) = stable_sort asset_le (assets v) ∧
  datum_option u = datum_option v ∧ script_ref u = script_ref v.

Lemma utxo_encode_inj u v p :
  wf_utxo u → wf_utxo v → utxo_encode u = Ok p → utxo_encode v = Ok p → same_utxo u v.
Proof.
  intros (Ut & Uo & Uv & Ua & Ud) (Vt & Vo & Vv & Va & Vd) Eu Ev.
  unfold utxo_encode, is_hash in *. destruct_leaf. rename Eu into E.
  apply app_eq_len in E as [Et E]; [|congruence].
  apply app_eq_len in E as [Eo E]; [|by rewrite !length_be_bytes].
  apply (len_prefix_inj 2) in E as [Ea E]; [|done|done].
  apply app_eq_len in E as [Ev E]; [|by rewrite !length_be_bytes].
  apply app_eq_len in E as [Ec E]; [|by rewrite !length_be_bytes].
  apply be_bytes4_inj in Eo; [|done|done]. apply be_bytes8_inj in Ev; [|done|done].
  apply be_bytes4_inj in Ec; [|split; lia|split; lia]. apply Nat2Z.inj in Ec.
  rewrite (stable_sort_perm asset_le (assets u)) in Ua.
  rewrite (stable_sort_perm asset_le (assets v)) in Va.
  eapply encode_assets_prefix in E as [Es E]; [|exact Ua|exact Va| |done|done];
    [|by rewrite !stable_sort_length].
  destruct (encode_datum_prefix _ _ _ _ _ _ Ud Vd E7 E2 E) as [Ed Er].
  rewrite <- (app_nil_r x8), <- (app_nil_r x3) in Er.
  destruct (encode_script_ref_prefix _ _ _ _ _ _ I I E8 E3 Er) as [Es' _].
  repeat split; done.
Qed.

Lemma header_encode_inj h k :
  wf_header h → wf_header k → header_encode h = header_encode k → h = k.
Proof.
  unfold wf_header, header_encode, is_hash. intros (?&?&?&?) (?&?&?&?) E. split_fields.
  apply be_bytes8_inj in H7; [|done|done]. apply be_bytes8_inj in H8; [|done|done].
  destruct h, k; cbn in *; congruence.
Qed.

Lemma tx_index_encode_inj e f :
  wf_tx_index e → wf_tx_index f → tx_index_encode e = tx_index_encode f → e = f.
Proof.
  unfold wf_tx_index, tx_index_encode, is_hash. intros (?&?&?&?) (?&?&?&?) E. split_fields.
  apply be_bytes8_inj in H8; [|done|done]. apply be_bytes4_inj in E; [|done|done].
  destruct e, f; cbn in *; congruence.
Qed.

Lemma token_policy_encode_inj p q :
  wf_token_policy p → wf_token_policy q → token_policy_encode p = token_policy_encode q → p = q.
Proof.
  unfold wf_token_policy, token_policy_encode. intros (?&?&?) (?&?&?) E. split_fields.
  apply be_bytes8_inj in H6; [|done|done]. apply be_bytes16_inj in E; [|done|done].
  destruct p, q; cbn in *; congruence.
Qed.

Lemma script_encode_inj s t :
  wf_script s → wf_script t → script_encode s = script_encode t → s = t.
Proof.
  unfold wf_script, script_encode. intros (?&?&?&?) (?&?&?&?) E. split_fields.
  apply be_bytes8_inj in H8; [|done|done]. apply be_bytes4_inj in H9; [|done|done].
  apply z2b_inj_u8 in E; [|done|done]. destruct s, t; cbn in *; congruence.
Qed.

Lemma drep_tag_payload_inj d e (x y : bytes) :
  wf_drep d → wf_drep e → z2b (drep_tag_byte d) = z2b (drep_tag_byte e) →
  drep_payload d ++ x = drep_payload e ++ y → d = e ∧ x = y.
Proof.
  destruct d, e; intros Wd We; try (by vm_compute; discriminate); intros _ E; cbn in *.
  all: try done.
  all: apply app_eq_len in E as [-> ->]; [done|congruence].
Qed.

Lemma stake_encode_inj s t :
  wf_stake s → wf_stake t → stake_encode s = stake_encode t → s = t.
Proof.
  unfold wf_stake, stake_encode.
  intros (Hc&Hp&Hd&Hr&Ho) (Hc'&Hp'&Hd'&Hr'&Ho') E.
  apply app_eq_len in E as [Ec E]; [|congruence].
  apply app_eq_len in E as [Ep E]; [|congruence].
  apply cons_eq_cons in E as [Et E].
  eapply drep_tag_payload_inj in E as [Ed E]; [|done|done|done].
  apply app_eq_len in E as [Er E]; [|by rewrite !length_be_bytes].
  apply be_bytes8_inj in Er; [|done|done]. injection E as E.
  apply z2b_inj_u8 in E; [|done|done]. destruct s, t; cbn in *; congruence.
Qed.

Lemma key_value_slot_inj k v s k' v' s' :
  is_hash k → is_hash k' → is_u128 v → is_u128 v' → is_u64 s → is_u64 s' →
  k ++ be_bytes 16 v ++ be_bytes 8 s = k' ++ be_bytes 16 v' ++ be_bytes 8 s' →
  k = k' ∧ v = v' ∧ s = s'.
Proof.
  unfold is_hash. intros ? ? ? ? ? ? E. split_fields.
  apply be_bytes16_inj in H6; [|done|done]. apply be_bytes8_inj in E; done.
Qed.

Lemma governance_encode_inj f g :
  wf_governance f → wf_governance g → governance_encode f = governance_encode g → f = g.
Proof.
  intros Wf Wg E. destruct f, g; cbn in Wf, Wg; cbn [governance_encode gov_kind] in E;
    apply cons_eq_cons in E as [Ek E]; try (by vm_compute in Ek; discriminate).
  1-4: apply key_value_slot_inj in E as (-> & -> & ->); naive_solver.
  destruct Wf as (?&?&?&?), Wg as (?&?&?&?). split_fields.
  apply be_bytes8_inj in H7, H8, H9, E; try done. congruence.
Qed.

(** ** Instances *)

Lemma res_ok_inj_leaf {A} (enc : A → bytes) (wf : A → Prop) :
  (∀ a b, wf a → wf b → enc a = enc b → a = b) →
  ∀ a b p, wf a → wf b →
    @Ok bytes LeafError (enc a) = Ok p → @Ok bytes LeafError (enc b) = Ok p → a = b.
Proof. intros H a b p Wa Wb [= <-] [= E]. by apply H. Qed.

Definition total_leaf {A} (wf : A → Prop) (enc : A → bytes)
    (inj : ∀ a b, wf a → wf b → enc a = enc b → a = b) : CanonicalLeaf A.
Proof.
  refine {| wf_leaf := wf; commit a := Ok (enc a); same_leaf := eq |}.
  - done.
  - by apply res_ok_inj_leaf.
  - by intros a b ->.
Defined.

#[export] Instance header_leaf : CanonicalLeaf BlockHeader :=
  total_leaf wf_header header_commit_to_subtree header_encode_inj.
#[export] Instance tx_index_leaf : CanonicalLeaf TxIndexEntry :=
  total_leaf wf_tx_index tx_index_commit_to_subtree tx_index_encode_inj.
#[export] Instance token_policy_leaf : CanonicalLeaf TokenPolicy :=
  total_leaf wf_token_policy token_policy_commit_to_subtree token_policy_encode_inj.
#[export] Instance script_leaf : CanonicalLeaf ScriptEntry :=
  total_leaf wf_script script_commit_to_subtree script_encode_inj.
#[export] Instance stake_leaf : CanonicalLeaf StakeEntry :=
  total_leaf wf_stake stake_commit_to_subtree stake_encode_inj.
#[export] Instance governance_leaf : CanonicalLeaf GovernanceFact :=
  total_leaf wf_governance governance_commit_to_subtree governance_encode_inj.

Lemma same_utxo_equiv : Equivalence same_utxo.
Proof.
  split; unfold same_utxo.
  - done.
  - intros u v (?&?&?&?&?&?&?). repeat split; by symmetry.
  - intros u v w (?&?&?&?&?&?&?) (?&?&?&?&?&?&?). repeat split; congruence.
Qed.

Lemma same_utxo_encode u v : same_utxo u v → utxo_encode u = utxo_encode v.
Proof.
  intros (H1 & H2 & H3 & H4 & H5 & H6 & H7). unfold utxo_encode.
  assert (Hlen : length (assets u) = length (assets v)).
  { by rewrite <- (stable_sort_length asset_le (assets u)), H5, stable_sort_length. }
  by rewrite H1, H2, H3, H4, H5, H6, H7, Hlen.
Qed.

Lemma res_bind_no_panic {A B E} (r : result A E) (f : A → result B E) :
  r ≠ Panic → (∀ a, f a ≠ Panic) → res_bind r f ≠ Panic.
Proof. destruct r; cbn; auto. Qed.

Lemma try_from_len_no_panic {E} w n (e : E) : try_from_len w n e ≠ Panic.
Proof. unfold try_from_len. by destruct (_ <? _). Qed.

Lemma encode_assets_no_panic l : encode_assets l ≠ Panic.
Proof.
  induction l; cbn; [done|]. unfold encode_asset.
  repeat (apply res_bind_no_panic; [|intros ?]); auto using @try_from_len_no_panic.
Qed.

Lemma utxo_encode_no_panic u : utxo_encode u ≠ Panic.
Proof.
  unfold utxo_encode, encode_datum, encode_script_ref.
  repeat (apply res_bind_no_panic; [|intros ?]);
    auto using @try_from_len_no_panic, encode_assets_no_panic.
  - destruct (datum_option u); [done|done|].
    apply res_bind_no_panic; auto using @try_from_len_no_panic.
  - destruct (script_ref u); [|done].
    apply res_bind_no_panic; auto using @try_from_len_no_panic.
Qed.

#[export] Instance utxo_leaf : CanonicalLeaf Utxo := {|
  wf_leaf := wf_utxo; commit := utxo_commit_to_subtree; same_leaf := same_utxo;
  same_leaf_equiv := same_utxo_equiv; commit_no_panic := utxo_encode_no_panic;
  commit_inj := utxo_encode_inj; commit_proper := same_utxo_encode
|}.

(** ** Validators *)

(** [o] is the index of the second occurrence of the first repeated key. *)
Definition first_duplicate {K} (keys : list K) (o : option nat) : Prop :=
  match o with
  | None => NoDup keys
  | Some i => NoDup (take i keys) ∧
      ∃ k j, (j < i)%nat ∧ keys !! i = Some k ∧ keys !! j = Some k
  end.

Lemma first_repeat_spec {K} `{Countable K} (seen : gset K) i keys :
  match first_repeat seen i keys with
  | None => NoDup keys ∧ ∀ k, k ∈ keys → k ∉ seen
  | Some n => ∃ m k, n = (i + m)%nat ∧ NoDup (take m keys) ∧
      (∀ k, k ∈ take m keys → k ∉ seen) ∧ keys !! m = Some k ∧ (k ∈ seen ∨ k ∈ take m keys)
  end.
Proof.
  revert seen i. induction keys as [|k keys IH]; intros seen i; cbn.
  { split; [constructor|]. by intros ? ?%elem_of_nil. }
  destruct (decide (k ∈ seen)) as [Hk|Hk].
  { exists 0%nat, k. split; [lia|]. split; [constructor|].
    split; [by intros ? ?%elem_of_nil|]. auto. }
  specialize (IH ({[k]} ∪ seen) (S i)).
  destruct (first_repeat _ _ keys) as [n|].
  - destruct IH as (m & k' & -> & Hnd & Hs & Hl & Hin). exists (S m), k'. cbn.
    split; [lia|]. split.
    { constructor; [|done]. intros Hk'. apply (Hs _ Hk'). set_solver. }
    split; [intros x [->|Hx]%elem_of_cons; [done|specialize (Hs _ Hx); set_solver]|].
    split; [done|]. rewrite elem_of_cons. set_solver.
  - destruct IH as [Hnd Hs]. split.
    + constructor; [|done]. intros Hk'. apply (Hs _ Hk'). set_solver.
    + intros x [->|Hx]%elem_of_cons; [done|]. specialize (Hs _ Hx). set_solver.
Qed.

Lemma first_repeat_first_duplicate {K} `{Countable K} (keys : list K) :
  first_duplicate keys (first_repeat ∅ 0 keys).
Proof.
  pose proof (first_repeat_spec ∅ 0 keys) as Hs. unfold first_duplicate.
  destruct (first_repeat ∅ 0 keys) as [n|]; [|apply Hs].
  destruct Hs as (m & k & -> & Hnd & _ & Hl & [[]%not_elem_of_empty|Hin]). cbn.
  split; [done|]. apply list_elem_of_lookup_1 in Hin as [j Hj].
  apply lookup_take_Some in Hj as [Hj Hlt]. by exists k, j.
Qed.

(** Header [i + 1] extends header [i]. *)
Definition linked (headers : list BlockHeader) (i : nat) : Prop :=
  ∀ a b, headers !! i = Some a → headers !! S i = Some b →
    hdr_slot a < hdr_slot b ∧ prev_hash b = hdr_block_hash a.

Lemma chain_links_from_spec i prev rest :
  match chain_links_from i prev rest with
  | None => ∀ k, linked (prev :: rest) k
  | Some n => ∃ m, n = (i + m)%nat ∧ (m < length rest)%nat ∧
      ¬ linked (prev :: rest) m ∧ ∀ k, (k < m)%nat → linked (prev :: rest) k
  end.
Proof.
  revert i prev. induction rest as [|h rest IH]; intros i prev; cbn [chain_links_from].
  { by intros [|k] a b. }
  assert (Hbad : ¬ (hdr_slot prev < hdr_slot h ∧ prev_hash h = hdr_block_hash prev) →
    ∃ m, i = (i + m)%nat ∧ (m < length (h :: rest))%nat ∧ ¬ linked (prev :: h :: rest) m ∧
      ∀ k, (k < m)%nat → linked (prev :: h :: rest) k).
  { intros Hn. exists 0%nat. split; [lia|]. split; [cbn; lia|].
    split; [|lia]. intros Hl. by apply Hn, Hl. }
  destruct (Z.leb_spec (hdr_slot h) (hdr_slot prev)); [apply Hbad; lia|].
  destruct (bool_decide_reflect (prev_hash h ≠ hdr_block_hash prev)) as [|He];
    [by apply Hbad; intros [_ ?]|].
  assert (H0 : linked (prev :: h :: rest) 0).
  { intros a b [= <-] [= <-]. split; [done|]. by apply dec_stable. }
  specialize (IH (S i) h). destruct (chain_links_from _ _ _) as [n|].
  - destruct IH as (m & -> & Hm & Hb & Hk). exists (S m). split; [lia|]. split; [cbn; lia|].
    split; [done|]. intros [|k] Hlt; [done|]. apply Hk. lia.
  - intros [|k]; [done|]. apply IH.
Qed.

(** ** Theorems *)

(** C24: The canonical UTXO bytes determine the UTXO up to the order of its
    assets: equal encodings mean equal fields and equal sorted assets. *)
Theorem utxo_encode_injective (u v : Utxo) (p : bytes)
    (Wu : wf_utxo u) (Wv : wf_utxo v)
    (Eu : utxo_encode u = Ok p) (Ev : utxo_encode v = Ok p) :
  utxo_tx_id u = utxo_tx_id v ∧ output_index u = output_index v ∧ address u = address v ∧
  value_lovelace u = value_lovelace v ∧ Permutation (assets u) (assets v) ∧
  datum_option u = datum_option v ∧ script_ref u = script_ref v.
Proof.
  destruct (utxo_encode_inj u v p Wu Wv Eu Ev) as (?&?&?&?&E&?&?). repeat split; try done.
  by rewrite (stable_sort_perm asset_le (assets u)), E, <- stable_sort_perm.
Qed.

(** The asset bundle is canonical: reordering assets with pairwise
    different ids does not change the encoding. *)
Theorem utxo_encode_asset_order (u v : Utxo)
    (Hnd : NoDup (asset_id <$> assets u)) (Hp : Permutation (assets u) (assets v))
    (Hrest : v = {| utxo_tx_id := utxo_tx_id u; output_index := output_index u;
                    address := address u; value_lovelace := value_lovelace u;
                    assets := assets v; datum_option := datum_option u;
                    script_ref := script_ref u |}) :
  utxo_encode u = utxo_encode v.
Proof.
  apply same_utxo_encode. rewrite Hrest. repeat split; try done. cbn.
  apply stable_sort_perm_invariant; [| | |done].
  - intros a b. apply bytes_le_total.
  - intros a b c. apply bytes_le_trans.
  - intros a b Ha Hb Hab Hba. pose proof (bytes_le_antisym _ _ Hab Hba) as E.
    apply list_elem_of_lookup_1 in Ha as [i Hi], Hb as [j Hj].
    rewrite NoDup_alt in Hnd. assert (i = j) as ->.
    { apply (Hnd i j (asset_id a)); rewrite list_lookup_fmap; [by rewrite Hi|].
      rewrite Hj. cbn. by rewrite E. }
    congruence.
Qed.

(** Two entries with one asset id keep their given order, so the same
    bundle listed in another order encodes differently. *)
Example utxo_encode_duplicate_asset_order :
  let mk l := {| utxo_tx_id := replicate 32 Byte.x01; output_index := 0; address := [Byte.x61];
                 value_lovelace := 5; assets := l; datum_option := DatumNone;
                 script_ref := None |} in
  let a := {| asset_id := [Byte.x0a]; quantity := 1 |} in
  let b := {| asset_id := [Byte.x0a]; quantity := 2 |} in
  Permutation [a; b] [b; a] ∧ is_ok (utxo_encode (mk [a; b])) = true ∧
  utxo_encode (mk [a; b]) ≠ utxo_encode (mk [b; a]).
Proof. cbn zeta. split; [constructor|]. split; [done|]. vm_compute. discriminate. Qed.

Lemma encode_assets_outcome l :
  match encode_assets l with
  | Ok p => Forall (λ a, Z.of_nat (length (asset_id a)) < 2 ^ 16) l ∧
      length p = sum_list_with (λ a, 10 + length (asset_id a))%nat l
  | Err e => e = AssetIdLenOverflow ∧ Exists (λ a, 2 ^ 16 <= Z.of_nat (length (asset_id a))) l
  | Panic => False
  end.
Proof.
  induction l as [|a l IH]; [by split|]. cbn [encode_assets].
  unfold encode_asset. destruct (try_from_len _ _ _) as [n|e|] eqn:E.
  - apply try_from_len_ok in E as [-> Hl]. cbn [res_bind].
    destruct (encode_assets l) as [p|e|]; cbn [res_bind]; [|naive_solver|done].
    destruct IH as [IHf IHl]. split; [by constructor|].
    rewrite !length_app, !length_be_bytes, IHl. cbn. lia.
  - apply try_from_len_err in E as [-> Hl]. cbn. split; [done|by left].
  - by apply try_from_len_no_panic in E.
Qed.

Definition datum_width (d : DatumOption) : nat :=
  match d with DatumNone => 1 | DatumHash h => 1 + length h | DatumInline b => 5 + length b end.

Definition script_ref_width (s : option ScriptRef) : nat :=
  match s with None => 1 | Some sr => 6 + length (sr_bytes sr) end.

(** Every outcome of the UTXO encoder.  It never panics; it succeeds
    exactly when every length fits its prefix, and the bytes then have the
    documented width; otherwise it reports the first length, in field order,
    that does not fit. *)
Theorem utxo_encode_outcomes (u : Utxo) :
  let addr_fits := Z.of_nat (length (address u)) < 2 ^ 16 in
  let count_fits := Z.of_nat (length (assets u)) < 2 ^ 32 in
  let ids_fit := Forall (λ a, Z.of_nat (length (asset_id a)) < 2 ^ 16) (assets u) in
  let datum_fits := match datum_option u with
                    | DatumInline d => Z.of_nat (length d) < 2 ^ 32 | _ => True end in
  let script_fits := match script_ref u with
                     | Some s => Z.of_nat (length (sr_bytes s)) < 2 ^ 32 | None => True end in
  match utxo_encode u with
  | Ok p =>
      addr_fits ∧ count_fits ∧ ids_fit ∧ datum_fits ∧ script_fits ∧
      length p = (length (utxo_tx_id u) + 18 + length (address u) +
                  sum_list_with (λ a, 10 + length (asset_id a))%nat (assets u) +
                  datum_width (datum_option u) + script_ref_width (script_ref u))%nat
  | Err AddressLenOverflow => ¬ addr_fits
  | Err AssetCountOverflow => addr_fits ∧ ¬ count_fits
  | Err AssetIdLenOverflow => addr_fits ∧ count_fits ∧ ¬ ids_fit
  | Err InlineDatumLenOverflow => addr_fits ∧ count_fits ∧ ids_fit ∧ ¬ datum_fits
  | Err ScriptRefLenOverflow => addr_fits ∧ count_fits ∧ ids_fit ∧ datum_fits ∧ ¬ script_fits
  | Panic => False
  end.
Proof.
  cbn zeta. unfold utxo_encode, try_from_len.
  destruct (Z.ltb_spec (Z.of_nat (length (address u))) (2 ^ 16)) as [Ha|Ha]; [|cbn; lia].
  destruct (Z.ltb_spec (Z.of_nat (length (assets u))) (2 ^ 32)) as [Hc|Hc]; [|cbn; lia].
  cbn [res_bind]. pose proof (encode_assets_outcome (stable_sort asset_le (assets u))) as Hs.
  pose proof (stable_sort_perm asset_le (assets u)) as Hp.
  destruct (encode_assets _) as [ab|e|]; cbn [res_bind]; [|destruct Hs as [-> Hs]|done].
  2: { split; [done|]. split; [done|]. rewrite <- Hp in Hs.
       apply Exists_Forall_neg; [intros a; lia|]. eapply list.Exists_impl; [exact Hs|].
       cbn. intros a. lia. }
  rewrite <- Hp in Hs. destruct Hs as [Hids Hw].
  destruct (datum_option u) as [|h|d] eqn:Ed; cbn [encode_datum];
    [| |unfold try_from_len; destruct (Z.ltb_spec (Z.of_nat (length d)) (2 ^ 32)); [|cbn; auto with lia]];
    cbn [res_bind];
  (destruct (script_ref u) as [sr|] eqn:Es; cbn [encode_script_ref];
    [unfold try_from_len;
     destruct (Z.ltb_spec (Z.of_nat (length (sr_bytes sr))) (2 ^ 32)); [|cbn; auto with lia]|];
   cbn [res_bind]; repeat (split; [done|]);
   repeat (progress (autorewrite with lengths; cbn [length datum_width script_ref_width])); lia).
Qed.

(** The fixed-layout leaves have the documented widths and their bytes
    determine them. *)
Theorem fixed_leaf_encodings :
  (∀ h, wf_header h → length (header_encode h) = 80%nat ∧
     ∀ k, wf_header k → header_encode k = header_encode h → k = h) ∧
  (∀ e, wf_tx_index e → length (tx_index_encode e) = 76%nat ∧
     ∀ f, wf_tx_index f → tx_index_encode f = tx_index_encode e → f = e) ∧
  (∀ p, wf_token_policy p → length (token_policy_encode p) = 52%nat ∧
     ∀ q, wf_token_policy q → token_policy_encode q = token_policy_encode p → q = p) ∧
  (∀ s, wf_script s → length (script_encode s) = 41%nat ∧
     ∀ t, wf_script t → script_encode t = script_encode s → t = s) ∧
  (∀ s, wf_stake s →
     length (stake_encode s) = match delegated_drep s with
       | DrepKeyHash _ | DrepScriptHash _ => 94%nat | _ => 66%nat end ∧
     ∀ t, wf_stake t → stake_encode t = stake_encode s → t = s) ∧
  (∀ f, wf_governance f →
     length (governance_encode f) = match f with AccountState _ _ _ _ => 33%nat | _ => 57%nat end ∧
     ∀ g, wf_governance g → governance_encode g = governance_encode f → g = f).
Proof.
  repeat split; intros.
  all: try (by eapply header_encode_inj + eapply tx_index_encode_inj +
    eapply token_policy_encode_inj + eapply script_encode_inj + eapply stake_encode_inj +
    eapply governance_encode_inj).
  - destruct H as (?&?&?&?). unfold header_encode, is_hash in *. autorewrite with lengths. lia.
  - destruct H as (?&?&?&?). unfold tx_index_encode, is_hash in *. autorewrite with lengths. lia.
  - destruct H as (?&?&?). unfold token_policy_encode. autorewrite with lengths. lia.
  - destruct H as (?&?&?&?). unfold script_encode. autorewrite with lengths. cbn. lia.
  - destruct H as (?&?&Hd&?&?). unfold stake_encode. autorewrite with lengths. cbn [length].
    autorewrite with lengths. destruct (delegated_drep s); cbn in *; lia.
  - unfold governance_encode, is_hash in *. destruct f; cbn in H; cbn [length];
      autorewrite with lengths; unfold is_hash in *; lia.
Qed.

(** Each uniqueness validator returns [None] exactly when no key repeats,
    and otherwise the index of the second occurrence of the first repeated
    key (for governance facts the key is the kind together with the key
    field, and [AccountState] counts as one key). *)
Theorem uniqueness_validators :
  (∀ l, first_duplicate (txi_tx_id <$> l) (validate_tx_uniqueness l)) ∧
  (∀ l, first_duplicate (policy_id <$> l) (validate_policy_id_uniqueness l)) ∧
  (∀ l, first_duplicate (script_hash <$> l) (validate_script_hash_uniqueness l)) ∧
  (∀ l, first_duplicate (stake_credential_hash <$> l) (validate_stake_credential_uniqueness l)) ∧
  (∀ l, first_duplicate (fact_identity <$> l) (validate_governance_keys_unique_per_kind l)).
Proof. repeat split; intros l; apply first_repeat_first_duplicate. Qed.

(** The chain-link validator returns [None] exactly when slots strictly
    increase and every header names its predecessor's hash; otherwise it
    returns the index of the first header that breaks the chain. *)
Theorem validate_chain_links_spec (headers : list BlockHeader) :
  match validate_chain_links headers with
  | None => ∀ i, linked headers i
  | Some n => ∃ i, n = S i ∧ (n < length headers)%nat ∧ ¬ linked headers i ∧
      ∀ k, (k < i)%nat → linked headers k
  end.
Proof.
  destruct headers as [|h rest]; cbn [validate_chain_links]; [by intros i a b|].
  pose proof (chain_links_from_spec 1 h rest) as H. destruct (chain_links_from _ _ _); [|done].
  destruct H as (m & -> & Hm & Hb & Hk). exists m. split; [lia|]. split; [cbn; lia|]. done.
Qed.

(** A manifest is accepted exactly when its stability depth reaches
    [k = 2160]; a rejection carries the recorded and the required depth. *)
Theorem manifest_validate_spec (m : SnapshotManifest) :
  manifest_validate m =
  if decide (2160 <= stability_depth m) then Ok ()
  else Err (StabilityTooShallow (stability_depth m) 2160).
Proof.
  unfold manifest_validate, K_STABILITY.
  destruct (Z.ltb_spec (stability_depth m) 2160), (decide _); try done; lia.
Qed.

(** ** Witnesses *)

Module ExampleLeaves.

Definition asset (b : byte) (q : Z) : Asset := {| asset_id := [b]; quantity := q |}.

Definition utxo (l : list Asset) : Utxo :=
  {| utxo_tx_id := replicate 32 Byte.x01; output_index := 3; address := [Byte.x61; Byte.x62];
     value_lovelace := 5000000; assets := l; datum_option := DatumInline [Byte.xff];
     script_ref := Some {| sr_language := PlutusV2; sr_bytes := [Byte.x00; Byte.x01] |} |}.

Definition ab : Utxo := utxo [asset Byte.x0a 1; asset Byte.x0b 2].
Definition ba : Utxo := utxo [asset Byte.x0b 2; asset Byte.x0a 1].

Lemma utxo_encode_injective_witness :
  Permutation (assets ab) (assets ba).
Proof.
  refine (proj1 (proj2 (proj2 (proj2 (proj2
    (utxo_encode_injective ab ba
      (match utxo_encode ab with Ok p => p | _ => [] end) _ _ _ _))))));
    by_compute || (vm_compute; reflexivity).
Defined.

Lemma utxo_encode_asset_order_witness : utxo_encode ab = utxo_encode ba.
Proof.
  apply utxo_encode_asset_order; [by_compute| |reflexivity]. constructor.
Defined.

End ExampleLeaves.
