(* ===== verification/Bundle.v ===== *)
(** * The commitment bundle

    [omega-commitment-bundle]: the seven sub-trees and their canonical order
    ([sub_tree_id.rs]), recomputation of a sub-tree's roots from its input
    file ([recompute.rs]), and assembly and verification of the bundle
    record ([bundle.rs]).  JSON parsing is serde_json, a parameter
    ([JsonInputs]); the input directory is a function from sub-trees to file
    contents, [None] where the file cannot be read.  The [published] and
    [recomputed] texts of a mismatch are diagnostics and are left out. *)

From S2P Require Import Prelude Hash Tree Leaves.
From Stdlib Require Import ZArith Lia List Permutation Sorted String.
From stdpp Require Import base decidable list gmap.

Local Open Scope Z_scope.

Definition SUB_TREE_ID_UTXO : Z := 1.
Definition SUB_TREE_ID_HEADER : Z := 2.
Definition SUB_TREE_ID_TX_INDEX : Z := 3.
Definition SUB_TREE_ID_TOKEN_POLICY : Z := 4.
Definition SUB_TREE_ID_SCRIPT : Z := 5.
Definition SUB_TREE_ID_STAKE : Z := 6.
Definition SUB_TREE_ID_GOVERNANCE : Z := 7.

Inductive SubTreeId : Type :=
| StUtxo | StHeader | StTxIndex | StTokenPolicy | StScript | StStake | StGovernance.

#[export] Instance SubTreeId_eq_dec : EqDecision SubTreeId.
Proof. solve_decision. Defined.

Definition ALL : list SubTreeId :=
  [StUtxo; StHeader; StTxIndex; StTokenPolicy; StScript; StStake; StGovernance].

Definition filename (st : SubTreeId) : string :=
  match st with
  | StUtxo => "utxo.json" | StHeader => "header.json" | StTxIndex => "tx_index.json"
  | StTokenPolicy => "token_policy.json" | StScript => "script.json"
  | StStake => "stake.json" | StGovernance => "governance.json"
  end.

Definition label (st : SubTreeId) : string :=
  match st with
  | StUtxo => "utxo" | StHeader => "header" | StTxIndex => "tx-index"
  | StTokenPolicy => "token-policy" | StScript => "script"
  | StStake => "stake" | StGovernance => "governance"
  end.

Definition numeric_id (st : SubTreeId) : Z :=
  match st with
  | StUtxo => SUB_TREE_ID_UTXO | StHeader => SUB_TREE_ID_HEADER
  | StTxIndex => SUB_TREE_ID_TX_INDEX | StTokenPolicy => SUB_TREE_ID_TOKEN_POLICY
  | StScript => SUB_TREE_ID_SCRIPT | StStake => SUB_TREE_ID_STAKE
  | StGovernance => SUB_TREE_ID_GOVERNANCE
  end.

(** [serde_json::from_str] at the seven input shapes. *)
Class JsonInputs := {
  parse_utxos : bytes → option (list Utxo);
  parse_headers : bytes → option (list BlockHeader);
  parse_entries : bytes → option (list TxIndexEntry);
  parse_policies : bytes → option (list TokenPolicy);
  parse_scripts : bytes → option (list ScriptEntry);
  parse_stake_entries : bytes → option (list StakeEntry);
  parse_facts : bytes → option (list GovernanceFact)
}.

(** The sources of the [anyhow] error of [recompute]. *)
Inductive RecomputeError : Type :=
| JsonError
| LeafEncode (e : LeafError)
| BuildRejected (e : BuildError).

Record SubTreeRoots := {
  str_blake3_root : bytes;
  str_sha3_root : bytes;
  str_input_digest : bytes;
  str_leaf_count : nat;
  str_tree_depth : nat;
  str_item_count : nat
}.

Definition BUNDLE_SCHEMA_VERSION : Z := 1.

Record SubTreeRecord := {
  sub_tree : string;
  blake3_root : bytes;
  sha3_root : bytes;
  input_digest : bytes;
  rec_leaf_count : nat;
  rec_tree_depth : nat;
  item_count : nat
}.

Record BundleRecord := {
  schema_version : Z;
  blake3_bundle_root : bytes;
  sha3_bundle_root : bytes;
  sub_trees : list SubTreeRecord
}.

#[export] Instance SubTreeRecord_eq_dec : EqDecision SubTreeRecord.
Proof. solve_decision. Defined.

Inductive BundleError : Type :=
| BundleIo (path : string)
| BundleRecompute (sub_tree : string) (source : RecomputeError)
| BundleMismatch (field : string)
| SchemaVersionMismatch (published current : Z).

Section Bundle.
Context {HF : HashFns} {JI : JsonInputs}.

Definition build_payloads (st : SubTreeId) (raw : bytes) :
    result (Z * list bytes * nat) RecomputeError :=
  match st with
  | StUtxo =>
      let? l := ok_or (parse_utxos raw) JsonError in
      let? payloads := res_map_err LeafEncode (res_mapM utxo_commit_to_subtree l) in
      Ok (SUB_TREE_ID_UTXO, payloads, length l)
  | StHeader =>
      let? l := ok_or (parse_headers raw) JsonError in
      Ok (SUB_TREE_ID_HEADER, header_commit_to_subtree <$> l, length l)
  | StTxIndex =>
      let? l := ok_or (parse_entries raw) JsonError in
      Ok (SUB_TREE_ID_TX_INDEX, tx_index_commit_to_subtree <$> l, length l)
  | StTokenPolicy =>
      let? l := ok_or (parse_policies raw) JsonError in
      Ok (SUB_TREE_ID_TOKEN_POLICY, token_policy_commit_to_subtree <$> l, length l)
  | StScript =>
      let? l := ok_or (parse_scripts raw) JsonError in
      Ok (SUB_TREE_ID_SCRIPT, script_commit_to_subtree <$> l, length l)
  | StStake =>
      let? l := ok_or (parse_stake_entries raw) JsonError in
      Ok (SUB_TREE_ID_STAKE, stake_commit_to_subtree <$> l, length l)
  | StGovernance =>
      let? l := ok_or (parse_facts raw) JsonError in
      Ok (SUB_TREE_ID_GOVERNANCE, governance_commit_to_subtree <$> l, length l)
  end.

(** The internal node of the SHA3 aggregation. *)
Definition node_hash_sha3 (left right : bytes) : bytes := sha3_256 (left ++ right).

(** [while current.len() > 1 { .. }; current[0]]. *)
Fixpoint reduce_root (node : bytes → bytes → bytes) (fuel : nat) (current : list bytes) :
    option bytes :=
  if (1 <? length current)%nat then
    match fuel with
    | O => None
    | S fuel' => next ← next_layer node current; reduce_root node fuel' next
    end
  else head current.

Definition sha3_root_of_v1 (sub_tree_id : Z) (payloads : list bytes) : option bytes :=
  let payloads := stable_sort bytes_le payloads in
  let leaves := padded_leaves sub_tree_id payloads in
  reduce_root node_hash_sha3 (length leaves) leaves.

Definition recompute (st : SubTreeId) (raw : bytes) : result SubTreeRoots RecomputeError :=
  let input_digest := blake3_256 raw in
  let? (sub_tree_id, payloads, item_count) := build_payloads st raw in
  let? tree := res_map_err BuildRejected (build_v1 sub_tree_id payloads) in
  let? blake3_root := or_panic (root tree) in
  let? sha3_root := or_panic (sha3_root_of_v1 sub_tree_id payloads) in
  Ok {| str_blake3_root := blake3_root; str_sha3_root := sha3_root;
        str_input_digest := input_digest; str_leaf_count := leaf_count tree;
        str_tree_depth := depth tree; str_item_count := item_count |}.

Definition record_of (st : SubTreeId) (roots : SubTreeRoots) : SubTreeRecord :=
  {| sub_tree := label st; blake3_root := str_blake3_root roots;
     sha3_root := str_sha3_root roots; input_digest := str_input_digest roots;
     rec_leaf_count := str_leaf_count roots; rec_tree_depth := str_tree_depth roots;
     item_count := str_item_count roots |}.

(** The body of [for st in ALL]. *)
Definition assemble_one (input_dir : SubTreeId → option bytes) (st : SubTreeId) :
    result SubTreeRecord BundleError :=
  let? raw := ok_or (input_dir st) (BundleIo (filename st)) in
  let? roots := res_map_err (BundleRecompute (label st)) (recompute st raw) in
  Ok (record_of st roots).

Definition aggregate_blake3 (sub_trees : list SubTreeRecord) : bytes :=
  blake3_256 (concat (blake3_root <$> sub_trees)).

Definition aggregate_sha3 (sub_trees : list SubTreeRecord) : bytes :=
  sha3_256 (concat (sha3_root <$> sub_trees)).

Definition assemble (input_dir : SubTreeId → option bytes) : result BundleRecord BundleError :=
  let? sub_trees := res_mapM (assemble_one input_dir) ALL in
  Ok {| schema_version := BUNDLE_SCHEMA_VERSION;
        blake3_bundle_root := aggregate_blake3 sub_trees;
        sha3_bundle_root := aggregate_sha3 sub_trees;
        sub_trees := sub_trees |}.

(** The first published record of the zip whose item count differs. *)
Fixpoint item_count_mismatch (published recomputed : list SubTreeRecord) : option string :=
  match published, recomputed with
  | p :: ps, r :: rs =>
      if Nat.eqb (item_count p) (item_count r) then item_count_mismatch ps rs
      else Some (sub_tree p)
  | _, _ => None
  end.

Definition bundle_verify (bundle : BundleRecord) (input_dir : SubTreeId → option bytes) :
    result unit BundleError :=
  let? fresh := assemble input_dir in
  guard! bool_decide (blake3_bundle_root fresh = blake3_bundle_root bundle)
    else BundleMismatch "blake3_bundle_root";
  guard! bool_decide (sha3_bundle_root fresh = sha3_bundle_root bundle)
    else BundleMismatch "sha3_bundle_root";
  guard! Nat.eqb (length (sub_trees fresh)) (length (sub_trees bundle))
    else BundleMismatch "sub_trees.len";
  match item_count_mismatch (sub_trees bundle) (sub_trees fresh) with
  | Some l => Err (BundleMismatch ("item_count[" ++ l ++ "]"))
  | None =>
      guard! bool_decide (sub_trees fresh = sub_trees bundle) else BundleMismatch "sub_trees";
      guard! (schema_version fresh =? schema_version bundle)
        else SchemaVersionMismatch (schema_version bundle) (schema_version fresh);
      Ok ()
  end.

End Bundle.
