(* ===== verification/BundleSpec.v ===== *)
(** * Properties of the bundle

    Recomputed roots agree with the reference Merkle roots for both hash
    functions, [verify] accepts a record exactly when it is the record that
    [assemble] produces, and the bundle root commits to the payload set of
    every sub-tree.  [commits_entries] lifts this from payloads to entries
    through the [CanonicalLeaf] interface. *)

From S2P Require Import Prelude Hash Tree TreeSpec Leaves LeavesSpec Bundle.
From Stdlib Require Import ZArith Lia List Permutation Sorted String.
From stdpp Require Import base decidable list gmap.

Local Open Scope Z_scope.

Section Recompute.
Context {HF : HashFns} {JI : JsonInputs}.

Lemma reduce_root_merkle node fuel d l :
  length l = (2 ^ d)%nat → (d <= fuel)%nat →
  reduce_root node fuel l = Some (merkle_root node d l).
Proof.
  revert fuel l. induction d as [|d IH]; intros fuel l Hl Hf.
  { destruct l as [|x [|]]; try discriminate. by destruct fuel. }
  pose proof (pow2_pos d). pose proof Hl as Hl'. rewrite pow2_S in Hl'.
  destruct fuel as [|fuel]; [lia|].
  destruct (next_layer_total node _ _ Hl') as (l' & En & Ll).
  cbn [reduce_root]. destruct (Nat.ltb_spec 1 (length l)); [|lia].
  rewrite En. cbn [mbind option_bind]. rewrite (merkle_root_next _ _ _ _ Hl En).
  apply IH; [done|lia].
Qed.

Lemma sha3_root_of_v1_merkle id ps :
  sha3_root_of_v1 id ps =
  Some (merkle_root node_hash_sha3 (log_depth (length ps))
          (padded_leaves id (stable_sort bytes_le ps))).
Proof.
  unfold sha3_root_of_v1. rewrite <- (stable_sort_length bytes_le ps).
  pose proof (length_padded_leaves id (stable_sort bytes_le ps)) as Hl.
  apply reduce_root_merkle; [done|]. rewrite Hl.
  pose proof (pow2_gt (log_depth (length (stable_sort bytes_le ps)))). lia.
Qed.

(** The roots of a sub-tree over the payloads [ps], by the reference
    definition of the tree. *)
Definition reference_roots (id : Z) (raw : bytes) (ps : list bytes) : SubTreeRoots :=
  let d := log_depth (length ps) in
  let leaves := padded_leaves id (stable_sort bytes_le ps) in
  {| str_blake3_root := merkle_root node_hash_v2 d leaves;
     str_sha3_root := merkle_root node_hash_sha3 d leaves;
     str_input_digest := blake3_256 raw; str_leaf_count := (2 ^ d)%nat;
     str_tree_depth := d; str_item_count := length ps |}.

Lemma ok_or_bind_ok {A B E} (o : option A) (e : E) (f : A → result B E) b :
  res_bind (ok_or o e) f = Ok b ↔ ∃ a, o = Some a ∧ f a = Ok b.
Proof. destruct o; cbn; naive_solver. Qed.

Lemma res_map_err_ok {A E F} (f : E → F) (r : result A E) a :
  res_map_err f r = Ok a ↔ r = Ok a.
Proof. destruct r; cbn; naive_solver. Qed.

Lemma build_payloads_ok st raw id ps n :
  build_payloads st raw = Ok (id, ps, n) → id = numeric_id st ∧ n = length ps.
Proof.
  destruct st; cbn [build_payloads]; rewrite ok_or_bind_ok; intros (l & _ & H).
  - apply res_bind_ok in H as (p & Hp & [= <- <- <-]). split; [done|].
    apply res_map_err_ok, res_mapM_ok in Hp. by apply Forall2_length in Hp.
  - injection H as <- <- <-. by rewrite length_fmap.
  - injection H as <- <- <-. by rewrite length_fmap.
  - injection H as <- <- <-. by rewrite length_fmap.
  - injection H as <- <- <-. by rewrite length_fmap.
  - injection H as <- <- <-. by rewrite length_fmap.
  - injection H as <- <- <-. by rewrite length_fmap.
Qed.

Lemma res_mapM_no_panic {A B E} (f : A → result B E) l :
  (∀ a, f a ≠ Panic) → res_mapM f l ≠ Panic.
Proof.
  intros Hf. induction l as [|a l IH]; cbn; [done|].
  apply res_bind_no_panic; [apply Hf|]. intros b. by apply res_bind_no_panic.
Qed.

Lemma build_payloads_no_panic st raw : build_payloads st raw ≠ Panic.
Proof.
  destruct st; cbn [build_payloads];
    (apply res_bind_no_panic; [by destruct (ok_or _ _) eqn:E; unfold ok_or in E; case_match|]);
    intros l; try done.
  apply res_bind_no_panic; [|done].
  pose proof (res_mapM_no_panic _ l utxo_encode_no_panic) as H.
  unfold utxo_commit_to_subtree. by destruct (res_mapM _ _).
Qed.

Lemma recompute_cases st raw :
  match build_payloads st raw with
  | Ok (id, ps, n) =>
      (NoDup ps ∧ recompute st raw = Ok (reference_roots id raw ps)) ∨
      (¬ NoDup ps ∧ ∃ i, recompute st raw = Err (BuildRejected (DuplicateLeafPayload id i)))
  | Err e => recompute st raw = Err e
  | Panic => False
  end.
Proof.
  unfold recompute. destruct (build_payloads st raw) as [[[id ps] n]|e|] eqn:E; [|done|].
  2: by apply build_payloads_no_panic in E.
  apply build_payloads_ok in E as [_ ->]. cbn [res_bind].
  destruct (decide (NoDup ps)) as [Hn|Hn]; [left|right]; (split; [done|]).
  - destruct (build_v1_grown id ps Hn) as (t & Et & Hg). rewrite Et. cbn [res_map_err res_bind].
    rewrite (grown_root _ _ _ _ Hg), sha3_root_of_v1_merkle. cbn [or_panic res_bind].
    unfold reference_roots, leaf_count. rewrite (grown_depth _ _ _ _ Hg), (proj1 Hg).
    by rewrite (proj1 (proj2 Hg)).
  - unfold build_v1. rewrite <- sort_bytes_nodup, <- equal_window_none in Hn by apply sort_bytes_sorted.
    destruct (equal_window _); [|done]. eexists. reflexivity.
Qed.

End Recompute.

Section Assemble.
Context {HF : HashFns} {JI : JsonInputs}.
Implicit Types (dir : SubTreeId → option bytes) (b : BundleRecord).

(** The payloads of a sub-tree, when its file can be read and parsed and
    every leaf encodes. *)
Definition dir_payloads dir (st : SubTreeId) : option (list bytes) :=
  raw ← dir st;
  match build_payloads st raw with Ok (_, ps, _) => Some ps | _ => None end.

Definition reference_record dir (st : SubTreeId) (ps : list bytes) : SubTreeRecord :=
  record_of st (reference_roots (numeric_id st) (default [] (dir st)) ps).

Lemma assemble_one_cases dir st :
  match dir_payloads dir st with
  | Some ps =>
      if decide (NoDup ps) then assemble_one dir st = Ok (reference_record dir st ps)
      else ∃ i, assemble_one dir st = Err (BundleRecompute (label st)
             (BuildRejected (DuplicateLeafPayload (numeric_id st) i)))
  | None => ∃ e, assemble_one dir st = Err e ∧
      (dir st = None ↔ e = BundleIo (filename st))
  end.
Proof.
  unfold dir_payloads, assemble_one, reference_record.
  destruct (dir st) as [raw|]; cbn [mbind option_bind ok_or res_bind default]; [|by eexists].
  pose proof (recompute_cases st raw) as H.
  destruct (build_payloads st raw) as [[[id ps] n]|e|] eqn:E; [| |done].
  - apply build_payloads_ok in E as [-> ->].
    destruct H as [[Hn ->]|[Hn [i ->]]]; destruct (decide (NoDup ps)); try done. by exists i.
  - rewrite H. cbn. eexists. split; [done|]. done.
Qed.

Lemma assemble_one_ok dir st r :
  assemble_one dir st = Ok r →
  ∃ ps, dir_payloads dir st = Some ps ∧ NoDup ps ∧ r = reference_record dir st ps.
Proof.
  intros H. pose proof (assemble_one_cases dir st) as Hc.
  destruct (dir_payloads dir st) as [ps|].
  - destruct (decide (NoDup ps)); [|destruct Hc as [i Hc]; congruence].
    exists ps. split; [done|]. split; [done|]. congruence.
  - destruct Hc as (e & He & _). congruence.
Qed.

Lemma assemble_ok dir b :
  assemble dir = Ok b ↔
  ∃ rs, Forall2 (λ st r, assemble_one dir st = Ok r) ALL rs ∧
    b = {| schema_version := BUNDLE_SCHEMA_VERSION; blake3_bundle_root := aggregate_blake3 rs;
           sha3_bundle_root := aggregate_sha3 rs; sub_trees := rs |}.
Proof.
  unfold assemble. rewrite res_bind_ok. setoid_rewrite res_mapM_ok. naive_solver.
Qed.

Lemma assemble_no_panic dir : assemble dir ≠ Panic.
Proof.
  unfold assemble. apply res_bind_no_panic; [|done]. apply res_mapM_no_panic.
  intros st Hst. pose proof (assemble_one_cases dir st) as Hc. rewrite Hst in Hc.
  destruct (dir_payloads dir st) as [ps|]; [destruct (decide (NoDup ps))|]; naive_solver.
Qed.

Lemma records_reference dir sts rs :
  Forall2 (λ st r, assemble_one dir st = Ok r) sts rs →
  rs = (λ st, reference_record dir st (default [] (dir_payloads dir st))) <$> sts.
Proof.
  induction 1 as [|st r sts rs Hr H IH]; cbn; [done|]. rewrite IH.
  by apply assemble_one_ok in Hr as (ps & -> & _ & ->).
Qed.

(** Assembly fails with an I/O or a recompute error only. *)
Lemma assemble_error_kind dir sts e :
  res_mapM (assemble_one dir) sts = Err e →
  match e with BundleIo _ | BundleRecompute _ _ => True | _ => False end.
Proof.
  induction sts as [|st sts IH]; cbn; [done|].
  unfold assemble_one at 1. destruct (dir st) as [raw|]; cbn; [|by intros [= <-]].
  destruct (recompute st raw); cbn; [|by intros [= <-]|done].
  by destruct (res_mapM _ sts).
Qed.

Lemma item_count_mismatch_refl l : item_count_mismatch l l = None.
Proof. induction l as [|r l IH]; cbn; [done|]. by rewrite Nat.eqb_refl. Qed.

End Assemble.

(** ** Binding of the bundle root *)

Lemma concat_hashes_inj (l m : list bytes) :
  Forall is_hash l → Forall is_hash m → length l = length m → concat l = concat m → l = m.
Proof.
  intros Hl. revert m. induction Hl as [|x l Hx Hl IH]; intros m Hm Hlen E;
    destruct Hm as [|y m Hy Hm]; try discriminate; [done|]. cbn in E.
  apply app_eq_len in E as [-> E]; [|unfold is_hash in *; congruence].
  f_equal. apply IH; [done| |done]. by injection Hlen.
Qed.

Section BundleBinding.
Context {HF : HashFns} {JI : JsonInputs}.
Implicit Types (dir : SubTreeId → option bytes) (b : BundleRecord).

(** Compares the sub-trees of two inputs in turn. *)
Fixpoint sub_tree_collision dir1 dir2 (sts : list SubTreeId) : option (bytes * bytes) :=
  match sts with
  | [] => None
  | st :: sts' =>
      ps1 ← dir_payloads dir1 st; ps2 ← dir_payloads dir2 st;
      match tree_collision (log_depth (length ps1))
              (padded_preimages (numeric_id st) (stable_sort bytes_le ps1))
              (log_depth (length ps2))
              (padded_preimages (numeric_id st) (stable_sort bytes_le ps2)) with
      | Some c => Some c
      | None => sub_tree_collision dir1 dir2 sts'
      end
  end.

(** Two different BLAKE3 inputs behind two bundles with one root. *)
Definition bundle_collision dir1 dir2 b1 b2 : option (bytes * bytes) :=
  let p1 := concat (blake3_root <$> sub_trees b1) in
  let p2 := concat (blake3_root <$> sub_trees b2) in
  if decide (p1 = p2) then sub_tree_collision dir1 dir2 ALL else Some (p1, p2).

(** All payload vectors of the input are representable. *)
Definition wf_dir dir : Prop :=
  Forall (λ st, match dir_payloads dir st with Some ps => wf_payloads ps | None => True end) ALL.

#[export] Instance wf_dir_dec dir : Decision (wf_dir dir).
Proof.
  unfold wf_dir. apply list.Forall_dec. intros st. destruct (dir_payloads dir st); apply _.
Defined.

Lemma numeric_id_u8 st : is_u8 (numeric_id st).
Proof. by destruct st. Qed.

Context {HL : HashLaws HF}.

Lemma reference_root_is_hash id ps :
  is_hash (merkle_root node_hash_v2 (log_depth (length ps))
             (padded_leaves id (stable_sort bytes_le ps))).
Proof.
  apply merkle_root_is_hash; [apply is_hash_node| |].
  - rewrite padded_leaves_preimages. apply Forall_fmap, Forall_true. intros x. apply is_hash_blake3.
  - by rewrite length_padded_leaves, stable_sort_length.
Qed.

Lemma records_are_hashes dir sts rs :
  Forall2 (λ st r, assemble_one dir st = Ok r) sts rs → Forall is_hash (blake3_root <$> rs).
Proof.
  induction 1 as [|st r sts rs Hr H IH]; [constructor|]. cbn. constructor; [|done].
  apply assemble_one_ok in Hr as (ps & _ & _ & ->). apply reference_root_is_hash.
Qed.

Lemma sub_tree_collision_spec dir1 dir2 sts rs1 rs2 :
  (∀ st, st ∈ sts → st ∈ ALL) → wf_dir dir1 → wf_dir dir2 →
  Forall2 (λ st r, assemble_one dir1 st = Ok r) sts rs1 →
  Forall2 (λ st r, assemble_one dir2 st = Ok r) sts rs2 →
  blake3_root <$> rs1 = blake3_root <$> rs2 →
  match sub_tree_collision dir1 dir2 sts with
  | Some c => Collision blake3_256 c
  | None => ∀ st, st ∈ sts → ∃ ps1 ps2, dir_payloads dir1 st = Some ps1 ∧
      dir_payloads dir2 st = Some ps2 ∧ Permutation ps1 ps2
  end.
Proof.
  intros Hall W1 W2 H1. revert rs2. induction H1 as [|st r1 sts rs1 Hr1 H1 IH]; intros rs2 H2 E.
  { by intros st ?%elem_of_nil. }
  inversion H2 as [|? r2 ? rs2' Hr2 H2']; subst. cbn in E.
  apply cons_eq_cons in E as [Er E].
  apply assemble_one_ok in Hr1 as (ps1 & Hp1 & _ & ->), Hr2 as (ps2 & Hp2 & _ & ->).
  cbn [sub_tree_collision]. rewrite Hp1, Hp2. cbn [mbind option_bind].
  assert (Hst : st ∈ ALL) by (apply Hall; left).
  unfold wf_dir in W1, W2. rewrite list.Forall_forall in W1, W2.
  pose proof (W1 st Hst) as Wp1. pose proof (W2 st Hst) as Wp2. rewrite Hp1 in Wp1. rewrite Hp2 in Wp2.
  pose proof (sorted_root_binding _ _ _ _ (numeric_id_u8 st) (numeric_id_u8 st) Wp1 Wp2 Er) as Hb.
  destruct (tree_collision _ _ _ _); [done|]. destruct Hb as [_ Hperm].
  specialize (IH (λ s Hs, Hall s (list_elem_of_further _ _ _ Hs)) rs2' H2' E).
  destruct (sub_tree_collision _ _ _); [done|].
  intros s [->|Hs]%elem_of_cons; [by eauto|by apply IH].
Qed.

End BundleBinding.

(** ** Theorems *)

Section Theorems.
Context {HF : HashFns} {JI : JsonInputs}.

(** Assembly never panics.  A record has schema version 1, the seven
    sub-trees in canonical order, each with the reference BLAKE3 and SHA3
    Merkle roots, depth, padded and unpadded counts of its duplicate-free
    payloads, and bundle roots over the concatenated sub-tree roots.  It
    fails only when some file is unreadable, unparsable or unencodable, or
    has duplicate payloads. *)
Theorem assemble_spec (dir : SubTreeId → option bytes) :
  match assemble dir with
  | Ok b =>
      schema_version b = 1 ∧
      (∃ ps : SubTreeId → list bytes,
         (∀ st, dir_payloads dir st = Some (ps st) ∧ NoDup (ps st)) ∧
         sub_trees b = (λ st, reference_record dir st (ps st)) <$> ALL) ∧
      blake3_bundle_root b = blake3_256 (concat (blake3_root <$> sub_trees b)) ∧
      sha3_bundle_root b = sha3_256 (concat (sha3_root <$> sub_trees b))
  | Err e => ∃ st, match dir_payloads dir st with Some ps => ¬ NoDup ps | None => True end
  | Panic => False
  end.
Proof.
  destruct (assemble dir) as [b|e|] eqn:E.
  - apply assemble_ok in E as (rs & H & ->).
    cbn [schema_version blake3_bundle_root sha3_bundle_root sub_trees].
    split; [done|]. split; [|done]. exists (λ st, default [] (dir_payloads dir st)).
    assert (Hall : ∀ st, ∃ ps, dir_payloads dir st = Some ps ∧ NoDup ps).
    { intros st. destruct (Forall2_lookup_l _ _ _ (Z.to_nat (numeric_id st - 1)) st H)
        as (r & _ & Hr); [by destruct st|].
      apply assemble_one_ok in Hr as (ps & Hp & Hn & _). eauto. }
    split; [intros st; destruct (Hall st) as (ps & -> & Hn); done|].
    by apply records_reference.
  - unfold assemble in E. destruct (res_mapM _ _) as [|e'|] eqn:Em; [done| |done].
    clear E. induction ALL as [|st sts IH]; [done|]. cbn in Em.
    pose proof (assemble_one_cases dir st) as Hc.
    destruct (assemble_one dir st) as [r|e''|] eqn:Eo.
    + cbn in Em. destruct (res_mapM _ sts); try done. by apply IH.
    + exists st. destruct (dir_payloads dir st) as [ps|]; [|done].
      destruct (decide (NoDup ps)); [congruence|done].
    + exists st. destruct (dir_payloads dir st) as [ps|]; [|done].
      destruct (decide (NoDup ps)); [congruence|done].
  - by apply assemble_no_panic in E.
Qed.

(** [verify] accepts a published record exactly when it is the record
    assembled from the inputs; every mismatch error means the assembled
    record differs; other errors are those of assembly; it never panics. *)
Theorem bundle_verify_spec (b : BundleRecord) (dir : SubTreeId → option bytes) :
  match bundle_verify b dir with
  | Ok _ => assemble dir = Ok b
  | Err (BundleMismatch _) | Err (SchemaVersionMismatch _ _) =>
      ∃ fresh, assemble dir = Ok fresh ∧ fresh ≠ b
  | Err e => assemble dir = Err e
  | Panic => False
  end.
Proof.
  unfold bundle_verify. destruct (assemble dir) as [f|e|] eqn:E.
  - cbn [res_bind].
    case_bool_decide; [|by exists f; split; [|congruence]].
    case_bool_decide; [|by exists f; split; [|congruence]].
    destruct (Nat.eqb_spec (length (sub_trees f)) (length (sub_trees b)));
      [|by exists f; split; [|congruence]].
    destruct (item_count_mismatch _ _) as [l|] eqn:Ei.
    { exists f. split; [done|]. intros ->. by rewrite item_count_mismatch_refl in Ei. }
    case_bool_decide; [|by exists f; split; [|congruence]].
    destruct (Z.eqb_spec (schema_version f) (schema_version b));
      [|by exists f; split; [|congruence]].
    f_equal. destruct f, b; cbn in *; congruence.
  - cbn. destruct e; try done; unfold assemble in E.
    + destruct (res_mapM _ ALL) eqn:Em; try done. injection E as ->. exfalso.
      by eapply assemble_error_kind in Em.
    + destruct (res_mapM _ ALL) eqn:Em; try done. injection E as ->. exfalso.
      by eapply assemble_error_kind in Em.
  - by apply assemble_no_panic in E.
Qed.

(** C9: The bundle root commits to every sub-tree.  Two inputs that assemble
    to one BLAKE3 bundle root have the same payload set in each of the seven
    sub-trees, or [bundle_collision] returns two colliding BLAKE3 inputs. *)
Theorem bundle_root_binding (HL : HashLaws HF) (dir1 dir2 : SubTreeId → option bytes)
    (b1 b2 : BundleRecord) (W1 : wf_dir dir1) (W2 : wf_dir dir2)
    (H1 : assemble dir1 = Ok b1) (H2 : assemble dir2 = Ok b2)
    (Hroot : blake3_bundle_root b1 = blake3_bundle_root b2) :
  match bundle_collision dir1 dir2 b1 b2 with
  | Some c => Collision blake3_256 c
  | None => ∀ st, ∃ ps1 ps2, dir_payloads dir1 st = Some ps1 ∧
      dir_payloads dir2 st = Some ps2 ∧ Permutation ps1 ps2
  end.
Proof.
  apply assemble_ok in H1 as (rs1 & F1 & ->), H2 as (rs2 & F2 & ->). cbn in Hroot.
  unfold bundle_collision. cbn [sub_trees].
  destruct (decide _) as [E|E]; [|by split].
  apply concat_hashes_inj in E;
    [|by eapply records_are_hashes|by eapply records_are_hashes|].
  2: { rewrite !length_fmap. apply Forall2_length in F1, F2. congruence. }
  pose proof (sub_tree_collision_spec dir1 dir2 ALL rs1 rs2 (λ _ H, H) W1 W2 F1 F2 E) as H.
  destruct (sub_tree_collision _ _ _); [done|]. intros st. apply H.
  destruct st; vm_compute; by repeat constructor.
Qed.

End Theorems.

(** ** From payloads to entries *)

Lemma Forall2_perm_r {A B} (R : A → B → Prop) l k k' :
  Forall2 R l k → Permutation k k' → ∃ l', Permutation l l' ∧ Forall2 R l' k'.
Proof.
  intros HR Hp. revert l HR.
  induction Hp as [|y k k' Hp IH|y z k|k1 k2 k3 _ IH1 _ IH2]; intros l HR.
  - inversion HR; subst. by exists [].
  - inversion HR as [|x ? l0 ? Hx HR']; subst. destruct (IH _ HR') as (l' & ? & ?).
    exists (x :: l'). by split; constructor.
  - inversion HR as [|x1 ? l0 ? H1 HR']; subst. inversion HR' as [|x2 ? l1 ? H2 HR2]; subst.
    exists (x2 :: x1 :: l1). split; [constructor|]. by repeat constructor.
  - destruct (IH1 _ HR) as (l2 & ? & HR2). destruct (IH2 _ HR2) as (l3 & ? & ?).
    exists l3. split; [by etransitivity|done].
Qed.

Section Entries.
Context {A : Type} {CL : CanonicalLeaf A}.

(** The payload set of a sub-tree determines its entries.  For each of
    the leaf types, two entry lists whose committed payloads are equal up to
    order are themselves equal up to order, entry by entry (for UTXOs, up to
    the order of assets inside an entry). *)
Theorem payloads_determine_entries (l1 l2 : list A) (ps1 ps2 : list bytes)
    (W1 : Forall wf_leaf l1) (W2 : Forall wf_leaf l2)
    (H1 : res_mapM commit l1 = Ok ps1) (H2 : res_mapM commit l2 = Ok ps2)
    (Hp : Permutation ps1 ps2) :
  ∃ l, Permutation l2 l ∧ Forall2 same_leaf l1 l.
Proof.
  apply res_mapM_ok in H1, H2. symmetry in Hp.
  destruct (Forall2_perm_r _ _ _ _ H2 Hp) as (l & Hl & HR). exists l. split; [done|].
  rewrite Hl in W2. clear H2 Hp Hl l2. revert l HR W2.
  induction H1 as [|a p l1 ps1 Ha H1 IH]; intros l HR W2.
  - inversion HR; subst. constructor.
  - inversion HR as [|b ? l' ? Hb HR']; subst. inversion W1; inversion W2; subst.
    constructor; [by eapply commit_inj|by apply IH].
Qed.

End Entries.

(** ** Witnesses *)

Module ExampleBundle.

#[local] Existing Instance toy_hashes.

(** Reads one header per byte and no entries of the other kinds. *)
#[local] Instance toy_json : JsonInputs := {|
  parse_utxos _ := Some [];
  parse_headers raw := Some ((λ b, {| hdr_slot := b2z b; block_height := 1;
    hdr_block_hash := replicate 32 b; prev_hash := replicate 32 Byte.x00 |}) <$> raw);
  parse_entries _ := Some []; parse_policies _ := Some []; parse_scripts _ := Some [];
  parse_stake_entries _ := Some []; parse_facts _ := Some []
|}.

Definition dir (headers : bytes) (st : SubTreeId) : option bytes :=
  match st with StHeader => Some headers | _ => Some [] end.

Definition assembled (headers : bytes) : BundleRecord :=
  match assemble (dir headers) with
  | Ok b => b
  | _ => {| schema_version := 0; blake3_bundle_root := []; sha3_bundle_root := []; sub_trees := [] |}
  end.

Lemma bundle_root_binding_witness :
  ∃ ps1 ps2, dir_payloads (dir [Byte.x01; Byte.x02]) StHeader = Some ps1 ∧
    dir_payloads (dir [Byte.x02; Byte.x01]) StHeader = Some ps2 ∧ Permutation ps1 ps2.
Proof.
  assert (Hn : bundle_collision (dir [Byte.x01; Byte.x02]) (dir [Byte.x02; Byte.x01])
    (assembled [Byte.x01; Byte.x02]) (assembled [Byte.x02; Byte.x01]) = None)
    by (vm_compute; reflexivity).
  pose proof (bundle_root_binding toy_hash_laws
    (dir [Byte.x01; Byte.x02]) (dir [Byte.x02; Byte.x01])
    (assembled [Byte.x01; Byte.x02]) (assembled [Byte.x02; Byte.x01])
    ltac:(by_compute) ltac:(by_compute) ltac:(vm_compute; reflexivity)
    ltac:(vm_compute; reflexivity) ltac:(vm_compute; reflexivity)) as H.
  rewrite Hn in H. exact (H StHeader).
Defined.

Lemma payloads_determine_entries_witness :
  ∃ l, Permutation [LeavesSpec.ExampleLeaves.ba] l ∧ Forall2 same_leaf [LeavesSpec.ExampleLeaves.ab] l.
Proof.
  apply (payloads_determine_entries (A := Utxo) [LeavesSpec.ExampleLeaves.ab] [LeavesSpec.ExampleLeaves.ba]
    (match res_mapM utxo_encode [LeavesSpec.ExampleLeaves.ab] with Ok p => p | _ => [] end)
    (match res_mapM utxo_encode [LeavesSpec.ExampleLeaves.ab] with Ok p => p | _ => [] end));
    [by repeat constructor; by_compute|by repeat constructor; by_compute|..];
    vm_compute; reflexivity.
Defined.

End ExampleBundle.
