(* ===== verification/Cbor.v ===== *)
(** * CBOR primitives

    The [minicbor] encoder and decoder are third-party code.  [CborOps] has
    the operations the sources call: an encoder appends the bytes of one
    item, a decoder returns the item at the front of its remaining input and
    what follows it, or fails ([None]).  [CborLaws] states what the clients
    rely on: reading an item just written returns it and leaves the rest, an
    item read lies in the range of its type, and reading consumes input.
    [rfc8949] implements the operations for the subset used and satisfies
    the laws. *)

From S2P Require Import Prelude.
From Stdlib Require Import ZArith Lia List.
From stdpp Require Import base decidable list.

Local Open Scope Z_scope.

Class CborOps := {
  enc_u8 : Z → bytes;
  enc_u64 : Z → bytes;
  enc_bytes : bytes → bytes;
  enc_array : Z → bytes;
  dec_u8 : bytes → option (Z * bytes);
  dec_u64 : bytes → option (Z * bytes);
  dec_bytes : bytes → option (bytes * bytes);
  (** [Decoder::array]: [None] inside for an indefinite-length array. *)
  dec_array : bytes → option (option Z * bytes)
}.

(** The rest [r] is a proper suffix of the input [d]. *)
Definition consumes (d r : bytes) : Prop := ∃ p, p ≠ [] ∧ d = p ++ r.

Class CborLaws (CO : CborOps) : Prop := {
  dec_enc_u8 z r : is_u8 z → dec_u8 (enc_u8 z ++ r) = Some (z, r);
  dec_enc_u64 z r : is_u64 z → dec_u64 (enc_u64 z ++ r) = Some (z, r);
  dec_enc_bytes x r : is_u64 (Z.of_nat (length x)) → dec_bytes (enc_bytes x ++ r) = Some (x, r);
  dec_enc_array z r : is_u64 z → dec_array (enc_array z ++ r) = Some (Some z, r);
  dec_u8_spec d z r : dec_u8 d = Some (z, r) → is_u8 z ∧ consumes d r;
  dec_u64_spec d z r : dec_u64 d = Some (z, r) → is_u64 z ∧ consumes d r;
  dec_bytes_spec d x r : dec_bytes d = Some (x, r) →
    consumes d r ∧ (length x + length r < length d)%nat;
  dec_array_spec d o r : dec_array d = Some (o, r) →
    (match o with Some z => is_u64 z | None => True end) ∧ consumes d r
}.

Lemma consumes_length d r : consumes d r → (length r < length d)%nat.
Proof.
  intros (p & Hp & ->). rewrite length_app. destruct p; [done|]. cbn. lia.
Qed.

Lemma consumes_trans a b c : consumes a b → consumes b c → consumes a c.
Proof.
  intros (p & Hp & ->) (q & Hq & ->). exists (p ++ q). rewrite app_assoc.
  split; [by destruct p|done].
Qed.

(** ** Sequences of items *)

(** [isize::MAX] on a 64-bit target. *)
Definition ISIZE_MAX : Z := 2 ^ 63 - 1.

(** [Vec::with_capacity(n)] panics when the allocation exceeds
    [isize::MAX] bytes. *)
Definition with_capacity {Er} (elem_size n : Z) : result unit Er :=
  if n * elem_size <=? ISIZE_MAX then Ok () else Panic.

(** [for _ in 0..n { v.push(dec(d)?) }].  Every element consumes input, so
    the length of the input bounds the number of rounds. *)
Fixpoint decode_n {A Er} (dec : bytes → result (A * bytes) Er) (fuel : nat) (n : Z)
    (d : bytes) : result (list A * bytes) Er :=
  if n <=? 0 then Ok ([], d)
  else match fuel with
  | O => Panic
  | S fuel' =>
      let? (x, d) := dec d in
      let? (xs, d) := decode_n dec fuel' (n - 1) d in
      Ok (x :: xs, d)
  end.

(** A vector of [n] elements of the given size can be allocated. *)
Definition allocatable (elem_size : Z) (n : nat) : Prop := Z.of_nat n * elem_size <= ISIZE_MAX.

#[export] Instance allocatable_dec s n : Decision (allocatable s n).
Proof. unfold allocatable. apply _. Defined.
Lemma allocatable_u64 s n : 1 <= s → allocatable s n → is_u64 (Z.of_nat n).
Proof. unfold allocatable, ISIZE_MAX, in_range. nia. Qed.

(** [dec] reads back what [enc] writes, and leaves the rest. *)
Definition Reads {A Er} (wf : A → Prop) (enc : A → bytes)
    (dec : bytes → result (A * bytes) Er) : Prop :=
  ∀ x r, wf x → dec (enc x ++ r) = Ok (x, r).

(** [dec] makes progress. *)
Definition Consuming {A Er} (dec : bytes → result (A * bytes) Er) : Prop :=
  ∀ d x r, dec d = Ok (x, r) → consumes d r.

Lemma Reads_nonempty {A Er} (wf : A → Prop) enc (dec : bytes → result (A * bytes) Er) x :
  Reads wf enc dec → Consuming dec → wf x → enc x ≠ [].
Proof.
  intros HR HC Hx E. specialize (HR x [] Hx). rewrite E in HR.
  apply HC, consumes_length in HR. cbn in HR. lia.
Qed.

Lemma concat_length_ge {A Er} (wf : A → Prop) enc (dec : bytes → result (A * bytes) Er) (l : list A) :
  Reads wf enc dec → Consuming dec → Forall wf l → (length l <= length (concat (enc <$> l)))%nat.
Proof.
  intros HR HC Hl. induction Hl as [|x l Hx Hl IH]; cbn; [lia|]. rewrite length_app.
  pose proof (Reads_nonempty _ _ _ _ HR HC Hx). destruct (enc x); [done|]. cbn. lia.
Qed.

Lemma decode_n_enc {A Er} (wf : A → Prop) enc (dec : bytes → result (A * bytes) Er) (l : list A) fuel r :
  Reads wf enc dec → Forall wf l → (length l <= fuel)%nat →
  decode_n dec fuel (Z.of_nat (length l)) (concat (enc <$> l) ++ r) = Ok (l, r).
Proof.
  intros HR Hl. revert fuel. induction Hl as [|x l Hx Hl IH]; intros fuel Hf.
  { by destruct fuel. }
  destruct fuel as [|fuel]; [cbn in Hf; lia|]. cbn [decode_n length].
  destruct (Z.leb_spec (Z.of_nat (S (length l))) 0); [lia|].
  cbn [concat fmap list_fmap]. rewrite <- app_assoc, HR by done. cbn [res_bind].
  replace (Z.of_nat (S (length l)) - 1) with (Z.of_nat (length l)) by lia.
  cbn in Hf. by rewrite IH by lia.
Qed.

Lemma decode_n_spec {A Er} (dec : bytes → result (A * bytes) Er) (P : A → Prop) fuel n d l r :
  (∀ d x r, dec d = Ok (x, r) → (length d <= Z.to_nat ISIZE_MAX)%nat → P x ∧ consumes d r) →
  (length d <= Z.to_nat ISIZE_MAX)%nat → decode_n dec fuel n d = Ok (l, r) →
  Forall P l ∧ (length r <= length d)%nat ∧ Z.of_nat (length l) = Z.max 0 n.
Proof.
  intros HD. revert n d l. induction fuel as [|fuel IH]; intros n d l Hd H; cbn [decode_n] in H;
    destruct (Z.leb_spec n 0); try done.
  - injection H as <- <-. cbn. split; [constructor|lia].
  - injection H as <- <-. cbn. split; [constructor|lia].
  - destruct_ok. injection H as <- <-. pose proof (HD _ _ _ E Hd) as [Hx Hc].
    apply consumes_length in Hc. apply IH in E0 as (Hl & Hr & Hn); [|lia].
    split; [by constructor|]. cbn. lia.
Qed.

(** More fuel than input bytes changes nothing: the bound is enough. *)
Lemma decode_n_fuel {A Er} (dec : bytes → result (A * bytes) Er) f1 f2 n d :
  Consuming dec → (length d < f1)%nat → (length d < f2)%nat →
  decode_n dec f1 n d = decode_n dec f2 n d.
Proof.
  intros HC. revert f2 n d. induction f1 as [|f1 IH]; intros f2 n d H1 H2; [lia|].
  destruct f2 as [|f2]; [lia|]. cbn [decode_n]. destruct (n <=? 0); [done|].
  destruct (dec d) as [[x r]|e|] eqn:E; cbn [res_bind]; [|done|done].
  apply HC, consumes_length in E. by rewrite (IH f2) by lia.
Qed.

(** ** An instance *)

Module Rfc8949.

(** The head of a data item: major type and argument, shortest form. *)
Definition enc_head (major arg : Z) : bytes :=
  if arg <? 24 then [z2b (major * 32 + arg)]
  else if arg <? 2 ^ 8 then z2b (major * 32 + 24) :: be_bytes 1 arg
  else if arg <? 2 ^ 16 then z2b (major * 32 + 25) :: be_bytes 2 arg
  else if arg <? 2 ^ 32 then z2b (major * 32 + 26) :: be_bytes 4 arg
  else z2b (major * 32 + 27) :: be_bytes 8 arg.

Definition take_be (n : nat) (d : bytes) : option (Z * bytes) :=
  if (n <=? length d)%nat then Some (be_val (take n d), drop n d) else None.

(** Any of the five widths is accepted; additional information above 27 is
    not a definite argument. *)
Definition dec_head (major : Z) (d : bytes) : option (Z * bytes) :=
  match d with
  | [] => None
  | b :: d' =>
      let info := b2z b - major * 32 in
      if (info <? 0) || (27 <? info) then None
      else if info <? 24 then Some (info, d')
      else if info =? 24 then take_be 1 d'
      else if info =? 25 then take_be 2 d'
      else if info =? 26 then take_be 4 d'
      else take_be 8 d'
  end.

Lemma take_be_enc n z r :
  0 <= z < 256 ^ Z.of_nat n → take_be n (be_bytes n z ++ r) = Some (z, r).
Proof.
  intros Hz. unfold take_be. rewrite length_app, length_be_bytes.
  destruct (Nat.leb_spec n (n + length r)); [|lia].
  rewrite take_app_length', drop_app_length' by by rewrite length_be_bytes.
  by rewrite be_val_be_bytes_small.
Qed.

Lemma take_be_spec n d z r :
  (n <= 8)%nat → take_be n d = Some (z, r) → is_u64 z ∧ ∃ p, d = p ++ r.
Proof.
  unfold take_be. intros Hn. destruct (Nat.leb_spec n (length d)); [|done]. intros [= <- <-].
  split; [|by exists (take n d); rewrite take_drop].
  pose proof (be_val_range (take n d)) as Hr. rewrite length_take, Nat.min_l in Hr by done.
  unfold in_range. change (2 ^ 64) with (256 ^ 8). split; [lia|].
  eapply Z.lt_le_trans; [apply Hr|]. apply Z.pow_le_mono_r; lia.
Qed.

Lemma dec_enc_head major z r :
  0 <= major <= 7 → is_u64 z → dec_head major (enc_head major z ++ r) = Some (z, r).
Proof.
  unfold in_range. intros Hm Hz. unfold enc_head, dec_head.
  repeat match goal with
  | |- context [?a <? ?b] => destruct (Z.ltb_spec a b)
  end; cbn [app]; rewrite b2z_z2b, Z.mod_small by lia.
  all: repeat match goal with
  | |- context [?m * 32 + ?k - ?m * 32] =>
      replace (m * 32 + k - m * 32) with k by lia
  end.
  1: by destruct (Z.ltb_spec z 0), (Z.ltb_spec 27 z), (Z.ltb_spec z 24); try lia.
  all: cbn [Z.ltb Z.eqb Z.compare orb Pos.compare Pos.compare_cont Pos.eqb].
  all: apply take_be_enc; lia.
Qed.

Lemma dec_head_spec major d z r :
  dec_head major d = Some (z, r) → is_u64 z ∧ consumes d r.
Proof.
  destruct d as [|b d]; [done|]. unfold dec_head.
  destruct (orb _ _) eqn:Eb; [done|]. apply orb_false_iff in Eb as [E1 E2].
  apply Z.ltb_ge in E1, E2.
  assert (Hskip : ∀ n, (n <= 8)%nat → take_be n d = Some (z, r) → is_u64 z ∧ consumes (b :: d) r).
  { intros n Hn H. apply take_be_spec in H as (Hz & p & ->); [|done].
    split; [done|]. by exists (b :: p). }
  destruct (Z.ltb_spec (b2z b - major * 32) 24).
  { intros [= <- <-]. split; [unfold in_range; lia|]. by exists [b]. }
  repeat case_match; apply Hskip; lia.
Qed.

#[export] Instance ops : CborOps := {|
  enc_u8 z := enc_head 0 z;
  enc_u64 z := enc_head 0 z;
  enc_bytes x := enc_head 2 (Z.of_nat (length x)) ++ x;
  enc_array z := enc_head 4 z;
  dec_u8 d := '(z, r) ← dec_head 0 d; if z <? 256 then Some (z, r) else None;
  dec_u64 d := dec_head 0 d;
  dec_bytes d := '(z, r) ← dec_head 2 d;
    if z <=? Z.of_nat (length r) then Some (take (Z.to_nat z) r, drop (Z.to_nat z) r) else None;
  dec_array d := match d with
    | Byte.x9f :: r => Some (None, r)
    | _ => '(z, r) ← dec_head 4 d; Some (Some z, r)
    end
|}.

Lemma enc_array_not_indefinite z r :
  0 <= z < 2 ^ 64 → ∃ b d, enc_head 4 z ++ r = b :: d ∧ b ≠ Byte.x9f.
Proof.
  intros Hz. unfold enc_head.
  repeat match goal with |- context [?a <? ?b] => destruct (Z.ltb_spec a b) end;
    cbn [app]; eexists _, _; (split; [reflexivity|]); intros E;
    apply (f_equal b2z) in E; rewrite b2z_z2b, Z.mod_small in E by lia; cbn in E; lia.
Qed.

#[export] Instance laws : CborLaws ops.
Proof.
  split; cbn.
  - intros z r Hz. rewrite dec_enc_head; [|lia|unfold in_range in *; lia]. cbn.
    destruct (Z.ltb_spec z 256); [done|]. unfold in_range in Hz. lia.
  - intros z r Hz. apply dec_enc_head; [lia|done].
  - intros x r Hx. rewrite <- app_assoc, dec_enc_head; [|lia|done]. cbn.
    rewrite length_app. destruct (Z.leb_spec (Z.of_nat (length x)) (Z.of_nat (length x + length r))); [|lia].
    by rewrite Nat2Z.id, take_app_length, drop_app_length.
  - intros z r Hz. destruct (enc_array_not_indefinite z r Hz) as (b & d & E & Hb).
    pose proof (dec_enc_head 4 z r ltac:(lia) Hz) as H. rewrite E in *.
    destruct b; try done; by rewrite H.
  - intros d z r H. destruct (dec_head 0 d) as [[z' r']|] eqn:E; [|done]. cbn in H.
    apply dec_head_spec in E as [Hz Hc]. destruct (Z.ltb_spec z' 256); [|done].
    injection H as <- <-. unfold in_range in *. split; [lia|done].
  - intros d z r. apply dec_head_spec.
  - intros d x r H. destruct (dec_head 2 d) as [[z' r']|] eqn:E; [|done]. cbn in H.
    apply dec_head_spec in E as [Hz Hc]. destruct (Z.leb_spec z' (Z.of_nat (length r'))); [|done].
    injection H as <- <-. pose proof (consumes_length _ _ Hc). split.
    + destruct Hc as (p & Hp & ->). exists (p ++ take (Z.to_nat z') r').
      rewrite <- app_assoc, take_drop. split; [by destruct p|done].
    + rewrite length_take, length_drop. lia.
  - intros d o r H.
    assert (Hd : (d = Byte.x9f :: r ∧ o = None) ∨
      ∃ z, o = Some z ∧ dec_head 4 d = Some (z, r)).
    { destruct d as [|b d]; [done|]. destruct b; try (by injection H as <- <-; left).
      all: right; destruct (dec_head 4 _) as [[z' r']|]; [|done]; injection H as <- <-; eauto. }
    destruct Hd as [[-> ->]|(z & -> & E)].
    + split; [done|]. by exists [Byte.x9f].
    + by apply dec_head_spec in E.
Qed.

End Rfc8949.
