(* ===== verification/ClaimTx.v ===== *)
(** * Claim transactions

    [omega-claim-tx/src/lib.rs]: the claim transaction types and their CBOR
    envelope [[version, payload, blake3(payload)]].  A decoder is the input
    that remains; its position is the length consumed.  Field names in error
    values are the source's strings.  [CborError::Encode] cannot occur (the
    writer of a [Vec] is infallible), so encoders are total functions.
    [Vec::with_capacity] is modelled with its panic on capacities above
    [isize::MAX] bytes. *)

From S2P Require Import Prelude Hash Cbor.
From Stdlib Require Import ZArith Lia List String.
From stdpp Require Import base decidable list.

Local Open Scope Z_scope.

Definition CLAIM_TX_WIRE_VERSION : Z := 2.
Definition VARIANT_UTXO : Z := 0.
Definition VARIANT_COLLECTION : Z := 1.
Definition CHECKSUM_LEN : nat := 32.

Record ClaimPublicInputs := {
  sub_tree_id : Z;
  leaf_index : Z;
  tree_depth : Z;
  per_sub_tree_root : bytes;
  bundle_root_blake3 : bytes;
  nullifier : bytes;
  recipient_starstream_addr : bytes
}.

Record ClaimWitness := {
  leaf_payload : bytes;
  merkle_path : list bytes;
  signing_key_proof : bytes
}.

(** [ProofBytes] is a transparent wrapper of a byte string. *)
Record ClaimUtxo := {
  cu_public : ClaimPublicInputs;
  cu_witness : ClaimWitness;
  cu_proof : bytes
}.

Record ClaimCollection := {
  cc_public : list ClaimPublicInputs;
  cc_witness : list ClaimWitness;
  cc_proof : bytes
}.

Inductive ClaimTx : Type :=
| TxUtxo (claim : ClaimUtxo)
| TxCollection (claim : ClaimCollection).

Inductive CborError : Type :=
| CborDecode
| UnsupportedVersion (version : Z)
| ChecksumMismatch
| NonCanonicalPayload
| TrailingBytes (position total : nat)
| InvalidByteLength (field : string) (expected actual : nat)
| InvalidArrayLength (field : string) (expected actual : Z)
| IndefiniteArray (field : string)
| UnknownVariant (variant : Z)
| CollectionArityMismatch (public witness : nat).

Section ClaimTx.
Context {CO : CborOps} {HF : HashFns}.

(** ** Encoding *)

Definition encode_public_inputs (p : ClaimPublicInputs) : bytes :=
  enc_array 7 ++ enc_u8 (sub_tree_id p) ++ enc_u64 (leaf_index p) ++ enc_u8 (tree_depth p) ++
  enc_bytes (per_sub_tree_root p) ++ enc_bytes (bundle_root_blake3 p) ++
  enc_bytes (nullifier p) ++ enc_bytes (recipient_starstream_addr p).

Definition encode_witness (w : ClaimWitness) : bytes :=
  enc_array 3 ++ enc_bytes (leaf_payload w) ++
  enc_array (Z.of_nat (length (merkle_path w))) ++ concat (enc_bytes <$> merkle_path w) ++
  enc_bytes (signing_key_proof w).

Definition encode_utxo (c : ClaimUtxo) : bytes :=
  enc_array 3 ++ encode_public_inputs (cu_public c) ++ encode_witness (cu_witness c) ++
  enc_bytes (cu_proof c).

Definition encode_collection (c : ClaimCollection) : bytes :=
  enc_array 3 ++
  enc_array (Z.of_nat (length (cc_public c))) ++ concat (encode_public_inputs <$> cc_public c) ++
  enc_array (Z.of_nat (length (cc_witness c))) ++ concat (encode_witness <$> cc_witness c) ++
  enc_bytes (cc_proof c).

Definition encode_claim_tx (tx : ClaimTx) : bytes :=
  enc_array 2 ++
  match tx with
  | TxUtxo claim => enc_u64 VARIANT_UTXO ++ encode_utxo claim
  | TxCollection claim => enc_u64 VARIANT_COLLECTION ++ encode_collection claim
  end.

Definition encode_payload (tx : ClaimTx) : bytes := encode_claim_tx tx.

Definition validate (tx : ClaimTx) : result unit CborError :=
  match tx with
  | TxCollection claim =>
      guard! Nat.eqb (length (cc_public claim)) (length (cc_witness claim))
        else CollectionArityMismatch (length (cc_public claim)) (length (cc_witness claim));
      Ok ()
  | TxUtxo _ => Ok ()
  end.

Definition to_cbor (tx : ClaimTx) : result bytes CborError :=
  let? _ := validate tx in
  let payload := encode_payload tx in
  let checksum := blake3_256 payload in
  Ok (enc_array 3 ++ enc_u64 CLAIM_TX_WIRE_VERSION ++ enc_bytes payload ++ enc_bytes checksum).

(** ** Decoding *)

(** A decoder primitive; its failure becomes [CborError::Decode]. *)
Definition rd {A} (o : option (A * bytes)) : result (A * bytes) CborError := ok_or o CborDecode.

Definition array_len (d : bytes) (field : string) : result (Z * bytes) CborError :=
  let? (o, d) := rd (dec_array d) in
  let? n := ok_or o (IndefiniteArray field) in
  Ok (n, d).

Definition expect_array (d : bytes) (field : string) (expected : Z) : result bytes CborError :=
  let? (actual, d) := array_len d field in
  guard! (actual =? expected) else InvalidArrayLength field expected actual;
  Ok d.

Definition expect_end (d : bytes) (total : nat) : result unit CborError :=
  let position := (total - length d)%nat in
  guard! Nat.eqb position total else TrailingBytes position total;
  Ok ().

Definition read_hash (d : bytes) (field : string) : result (bytes * bytes) CborError :=
  let? (x, d) := rd (dec_bytes d) in
  guard! Nat.eqb (length x) CHECKSUM_LEN else InvalidByteLength field CHECKSUM_LEN (length x);
  Ok (x, d).

(** The sizes of the element types on a 64-bit target. *)
Definition SIZE_PUBLIC_INPUTS : Z := 144.
Definition SIZE_WITNESS : Z := 72.
Definition SIZE_HASH : Z := 32.

Definition decode_vec {A} (elem_size : Z) (dec : bytes → result (A * bytes) CborError)
    (field : string) (d : bytes) : result (list A * bytes) CborError :=
  let? (n, d) := array_len d field in
  let? _ := with_capacity elem_size n in
  decode_n dec (S (length d)) n d.

Definition decode_public_inputs (d : bytes) : result (ClaimPublicInputs * bytes) CborError :=
  let? d := expect_array d "public_inputs" 7 in
  let? (sub_tree_id, d) := rd (dec_u8 d) in
  let? (leaf_index, d) := rd (dec_u64 d) in
  let? (tree_depth, d) := rd (dec_u8 d) in
  let? (per_sub_tree_root, d) := read_hash d "per_sub_tree_root" in
  let? (bundle_root_blake3, d) := read_hash d "bundle_root_blake3" in
  let? (nullifier, d) := read_hash d "nullifier" in
  let? (recipient, d) := read_hash d "recipient_starstream_addr" in
  Ok ({| sub_tree_id := sub_tree_id; leaf_index := leaf_index; tree_depth := tree_depth;
         per_sub_tree_root := per_sub_tree_root; bundle_root_blake3 := bundle_root_blake3;
         nullifier := nullifier; recipient_starstream_addr := recipient |}, d).

Definition decode_witness (d : bytes) : result (ClaimWitness * bytes) CborError :=
  let? d := expect_array d "witness" 3 in
  let? (leaf_payload, d) := rd (dec_bytes d) in
  let? (merkle_path, d) := decode_vec SIZE_HASH
    (λ d, read_hash d "witness.merkle_path.sibling") "witness.merkle_path" d in
  let? (signing_key_proof, d) := rd (dec_bytes d) in
  Ok ({| leaf_payload := leaf_payload; merkle_path := merkle_path;
         signing_key_proof := signing_key_proof |}, d).

Definition decode_utxo (d : bytes) : result (ClaimUtxo * bytes) CborError :=
  let? d := expect_array d "utxo" 3 in
  let? (public, d) := decode_public_inputs d in
  let? (witness, d) := decode_witness d in
  let? (proof, d) := rd (dec_bytes d) in
  Ok ({| cu_public := public; cu_witness := witness; cu_proof := proof |}, d).

Definition decode_collection (d : bytes) : result (ClaimCollection * bytes) CborError :=
  let? d := expect_array d "collection" 3 in
  let? (public, d) := decode_vec SIZE_PUBLIC_INPUTS decode_public_inputs "collection.public" d in
  let? (witness, d) := decode_vec SIZE_WITNESS decode_witness "collection.witness" d in
  guard! Nat.eqb (length public) (length witness)
    else CollectionArityMismatch (length public) (length witness);
  let? (proof, d) := rd (dec_bytes d) in
  Ok ({| cc_public := public; cc_witness := witness; cc_proof := proof |}, d).

Definition decode_claim_tx (d : bytes) : result (ClaimTx * bytes) CborError :=
  let? d := expect_array d "claim_tx" 2 in
  let? (variant, d) := rd (dec_u64 d) in
  if variant =? VARIANT_UTXO then
    let? (c, d) := decode_utxo d in Ok (TxUtxo c, d)
  else if variant =? VARIANT_COLLECTION then
    let? (c, d) := decode_collection d in Ok (TxCollection c, d)
  else Err (UnknownVariant variant).

Definition decode_payload (payload : bytes) : result ClaimTx CborError :=
  let? (tx, d) := decode_claim_tx payload in
  let? _ := expect_end d (length payload) in
  Ok tx.

Definition from_cbor (input : bytes) : result ClaimTx CborError :=
  let? d := expect_array input "envelope" 3 in
  let? (version, d) := rd (dec_u64 d) in
  guard! (version =? CLAIM_TX_WIRE_VERSION) else UnsupportedVersion version;
  let? (payload, d) := rd (dec_bytes d) in
  let? (checksum, d) := read_hash d "checksum" in
  let? _ := expect_end d (length input) in
  guard! bool_decide (blake3_256 payload = checksum) else ChecksumMismatch;
  let? decoded := decode_payload payload in
  guard! bool_decide (encode_payload decoded = payload) else NonCanonicalPayload;
  Ok decoded.

End ClaimTx.
