(* ===== verification/ClaimTxSpec.v ===== *)
(** * Properties of the claim transaction codec

    Round trip of the envelope, soundness of decoding (what is accepted is
    well formed, canonical and bound by its checksum), the outcome of every
    envelope check, and the panic reachable through a declared length. *)

From S2P Require Import Prelude Hash Cbor ClaimTx.
From Stdlib Require Import ZArith Lia List String.
From stdpp Require Import base decidable list.

Local Open Scope Z_scope.

(** ** Well-formed transactions: field ranges and allocation limits *)

Definition wf_public (p : ClaimPublicInputs) : Prop :=
  is_u8 (sub_tree_id p) ∧ is_u64 (leaf_index p) ∧ is_u8 (tree_depth p) ∧
  is_hash (per_sub_tree_root p) ∧ is_hash (bundle_root_blake3 p) ∧
  is_hash (nullifier p) ∧ is_hash (recipient_starstream_addr p).

Definition wf_witness (w : ClaimWitness) : Prop :=
  allocatable 1 (length (leaf_payload w)) ∧ allocatable 1 (length (signing_key_proof w)) ∧
  allocatable SIZE_HASH (length (merkle_path w)) ∧ Forall is_hash (merkle_path w).

Definition wf_tx (tx : ClaimTx) : Prop :=
  match tx with
  | TxUtxo c => wf_public (cu_public c) ∧ wf_witness (cu_witness c) ∧
      allocatable 1 (length (cu_proof c))
  | TxCollection c =>
      Forall wf_public (cc_public c) ∧ Forall wf_witness (cc_witness c) ∧
      allocatable SIZE_PUBLIC_INPUTS (length (cc_public c)) ∧
      allocatable SIZE_WITNESS (length (cc_witness c)) ∧ allocatable 1 (length (cc_proof c))
  end.

#[export] Instance wf_public_dec p : Decision (wf_public p).
Proof. unfold wf_public. apply _. Defined.
#[export] Instance wf_witness_dec w : Decision (wf_witness w).
Proof. unfold wf_witness. apply _. Defined.
#[export] Instance wf_tx_dec tx : Decision (wf_tx tx).
Proof. destruct tx; apply _. Defined.

Section Codec.
Context {CO : CborOps} {HF : HashFns} {CL : CborLaws CO}.

(** ** Primitive readers *)

Lemma array_len_enc n field r : is_u64 n → array_len (enc_array n ++ r) field = Ok (n, r).
Proof. intros Hn. unfold array_len, rd. by rewrite dec_enc_array. Qed.

Lemma expect_array_enc n field r : is_u64 n → expect_array (enc_array n ++ r) field n = Ok r.
Proof. intros Hn. unfold expect_array. rewrite array_len_enc by done. cbn. by rewrite Z.eqb_refl. Qed.

Lemma rd_u8 z r : is_u8 z → rd (dec_u8 (enc_u8 z ++ r)) = Ok (z, r).
Proof. intros Hz. unfold rd. by rewrite dec_enc_u8. Qed.

Lemma rd_u64 z r : is_u64 z → rd (dec_u64 (enc_u64 z ++ r)) = Ok (z, r).
Proof. intros Hz. unfold rd. by rewrite dec_enc_u64. Qed.

Lemma rd_bytes x r : allocatable 1 (length x) → rd (dec_bytes (enc_bytes x ++ r)) = Ok (x, r).
Proof.
  intros Hx. unfold rd. rewrite dec_enc_bytes; [done|]. by apply (allocatable_u64 1).
Qed.

Lemma read_hash_enc field : Reads is_hash enc_bytes (λ d, read_hash d field).
Proof.
  intros x r Hx. unfold read_hash, rd, is_hash in *. rewrite dec_enc_bytes by by rewrite Hx.
  cbn. by rewrite Hx.
Qed.

Lemma rd_ok {A} (o : option (A * bytes)) p : rd o = Ok p ↔ o = Some p.
Proof. destruct o; cbn; naive_solver. Qed.

Lemma array_len_spec d field n r : array_len d field = Ok (n, r) → is_u64 n ∧ consumes d r.
Proof.
  unfold array_len. intros H. destruct_ok. apply rd_ok, dec_array_spec in E as [Ho Hc].
  injection H as -> ->. done.
Qed.

Lemma expect_array_spec d field n r : expect_array d field n = Ok r → consumes d r.
Proof. unfold expect_array. intros H. destruct_ok. by apply array_len_spec in E as [_ ?]. Qed.

Lemma read_hash_spec d field x r : read_hash d field = Ok (x, r) → is_hash x ∧ consumes d r.
Proof.
  unfold read_hash. intros H. destruct_ok. injection H as -> ->.
  apply rd_ok, dec_bytes_spec in E as [Hc _]. apply Nat.eqb_eq in E0. done.
Qed.

(** ** Sequences *)

Lemma decode_vec_enc {A} (wf : A → Prop) enc dec size field (l : list A) r :
  Reads wf enc dec → Consuming dec → Forall wf l → 1 <= size → allocatable size (length l) →
  decode_vec size dec field (enc_array (Z.of_nat (length l)) ++ concat (enc <$> l) ++ r) = Ok (l, r).
Proof.
  intros HR HC Hl Hs Ha. unfold decode_vec.
  rewrite array_len_enc by by apply (allocatable_u64 size). cbn [res_bind].
  unfold with_capacity, allocatable in *.
  destruct (Z.leb_spec (Z.of_nat (length l) * size) ISIZE_MAX); [|lia]. cbn [res_bind].
  apply (decode_n_enc wf); [done|done|].
  pose proof (concat_length_ge _ _ _ _ HR HC Hl). rewrite length_app. lia.
Qed.

Lemma decode_vec_spec {A} (dec : bytes → result (A * bytes) CborError) (P : A → Prop) size field d l r :
  (∀ d x r, dec d = Ok (x, r) → (length d <= Z.to_nat ISIZE_MAX)%nat → P x ∧ consumes d r) →
  (length d <= Z.to_nat ISIZE_MAX)%nat → 1 <= size → decode_vec size dec field d = Ok (l, r) →
  Forall P l ∧ (length r < length d)%nat ∧ allocatable size (length l).
Proof.
  intros HD Hd Hs H. unfold decode_vec in H. destruct_ok. apply array_len_spec in E as [Hz Hc].
  apply consumes_length in Hc. unfold with_capacity in E0.
  destruct (Z.leb_spec (z * size) ISIZE_MAX); [|done].
  apply (decode_n_spec dec P) in H as (Hl & Hr & Hn); [|done|lia].
  split; [done|]. split; [lia|]. unfold allocatable, in_range in *. rewrite Hn. nia.
Qed.

End Codec.

Create HintDb cbor.

Section Types.
Context {CO : CborOps} {HF : HashFns} {CL : CborLaws CO}.

(** A successful decoding step, as one fact per step. *)
Ltac facts :=
  repeat match goal with
  | H : expect_array _ _ _ = Ok _ |- _ => apply expect_array_spec, consumes_length in H
  | H : rd (dec_u8 _) = Ok _ |- _ =>
      apply rd_ok, dec_u8_spec in H as [? H]; apply consumes_length in H
  | H : rd (dec_u64 _) = Ok _ |- _ =>
      apply rd_ok, dec_u64_spec in H as [? H]; apply consumes_length in H
  | H : rd (dec_bytes _) = Ok _ |- _ =>
      apply rd_ok, dec_bytes_spec in H as [? H]
  | H : read_hash _ _ = Ok _ |- _ =>
      apply read_hash_spec in H as [? H]; apply consumes_length in H
  end.

Lemma decode_public_inputs_enc : Reads wf_public encode_public_inputs decode_public_inputs.
Proof.
  intros p r (H1 & H2 & H3 & H4 & H5 & H6 & H7).
  unfold decode_public_inputs, encode_public_inputs. rewrite <- !app_assoc.
  rewrite expect_array_enc by done. cbn [res_bind]. rewrite rd_u8 by done. cbn [res_bind].
  rewrite rd_u64 by done. cbn [res_bind]. rewrite rd_u8 by done. cbn [res_bind].
  do 4 (rewrite (read_hash_enc _) by done; cbn [res_bind]). by destruct p.
Qed.

(** The remaining input of a decoder is a suffix of its input. *)
Lemma expect_array_consumes d field n r : expect_array d field n = Ok r → consumes d r.
Proof. apply expect_array_spec. Qed.

Lemma rd_bytes_consumes d x r : rd (dec_bytes d) = Ok (x, r) → consumes d r.
Proof. intros H. by apply rd_ok, dec_bytes_spec in H as [? _]. Qed.

Lemma rd_u8_consumes d x r : rd (dec_u8 d) = Ok (x, r) → consumes d r.
Proof. intros H. by apply rd_ok, dec_u8_spec in H as [_ ?]. Qed.

Lemma rd_u64_consumes d x r : rd (dec_u64 d) = Ok (x, r) → consumes d r.
Proof. intros H. by apply rd_ok, dec_u64_spec in H as [_ ?]. Qed.

Lemma read_hash_consumes d field x r : read_hash d field = Ok (x, r) → consumes d r.
Proof. intros H. by apply read_hash_spec in H as [_ ?]. Qed.

Hint Resolve expect_array_consumes rd_bytes_consumes rd_u8_consumes rd_u64_consumes
  read_hash_consumes consumes_trans : cbor.

Lemma decode_public_inputs_consuming : Consuming decode_public_inputs.
Proof.
  intros d x r H. unfold decode_public_inputs in H. destruct_ok. injection H as _ ->.
  eauto 20 with cbor.
Qed.

Lemma decode_public_inputs_wf d p r : decode_public_inputs d = Ok (p, r) → wf_public p.
Proof.
  intros H. unfold decode_public_inputs in H. destruct_ok. injection H as <- ->. facts.
  unfold wf_public. cbn. by repeat (split; [done|]).
Qed.

Lemma decode_n_suffix {A} (dec : bytes → result (A * bytes) CborError) fuel n d l r :
  Consuming dec → decode_n dec fuel n d = Ok (l, r) → d = r ∨ consumes d r.
Proof.
  intros HC. revert n d l. induction fuel as [|fuel IH]; intros n d l H; cbn [decode_n] in H;
    destruct (n <=? 0); try done; try (injection H as <- <-; by left).
  destruct_ok. injection H as <- <-. apply HC in E. apply IH in E0 as [->|E0]; eauto with cbor.
Qed.

Lemma decode_vec_consuming {A} (dec : bytes → result (A * bytes) CborError) size field :
  Consuming dec → Consuming (decode_vec size dec field).
Proof.
  intros HC d l r H. unfold decode_vec in H. destruct_ok. apply array_len_spec in E as [_ Hc].
  apply decode_n_suffix in H as [->|H]; eauto with cbor.
Qed.

Lemma decode_witness_enc : Reads wf_witness encode_witness decode_witness.
Proof.
  intros w r (H1 & H2 & H3 & H4). unfold decode_witness, encode_witness.
  rewrite <- !app_assoc. rewrite expect_array_enc by done. cbn [res_bind].
  rewrite rd_bytes by done. cbn [res_bind].
  rewrite (decode_vec_enc is_hash enc_bytes);
    [|apply read_hash_enc|intros ? ? ?; apply read_hash_consumes|done|done|done].
  cbn [res_bind]. rewrite rd_bytes by done. cbn. by destruct w.
Qed.

Lemma decode_witness_consuming : Consuming decode_witness.
Proof.
  intros d x r H. unfold decode_witness in H. destruct_ok. injection H as _ ->.
  apply decode_vec_consuming in E1; [|intros ? ? ?; apply read_hash_consumes].
  eauto 20 with cbor.
Qed.

Lemma decode_witness_wf d w r :
  (length d <= Z.to_nat ISIZE_MAX)%nat → decode_witness d = Ok (w, r) → wf_witness w.
Proof.
  intros Hd H. unfold decode_witness in H. destruct_ok. injection H as <- ->. facts.
  apply (decode_vec_spec _ is_hash) in E1 as (Hl & Hlt & Ha); [| |lia|done].
  - unfold wf_witness, allocatable in *. cbn. repeat split; [lia|lia|done|done].
  - intros d' y' r' Hy _. by apply read_hash_spec in Hy.
Qed.

Lemma decode_claim_tx_enc tx r :
  wf_tx tx → validate tx = Ok () → decode_claim_tx (encode_claim_tx tx ++ r) = Ok (tx, r).
Proof.
  intros Hw Hv. unfold decode_claim_tx, encode_claim_tx. rewrite <- app_assoc.
  rewrite expect_array_enc by done. cbn [res_bind]. destruct tx as [c|c].
  - destruct Hw as (H1 & H2 & H3). rewrite <- app_assoc, rd_u64 by done. cbn [res_bind].
    change (VARIANT_UTXO =? VARIANT_UTXO) with true. cbn iota.
    unfold decode_utxo, encode_utxo. rewrite <- !app_assoc, expect_array_enc by done. cbn [res_bind].
    rewrite decode_public_inputs_enc by done. cbn [res_bind].
    rewrite decode_witness_enc by done. cbn [res_bind]. rewrite rd_bytes by done. by destruct c.
  - destruct Hw as (H1 & H2 & H3 & H4 & H5). rewrite <- app_assoc, rd_u64 by done. cbn [res_bind].
    change (VARIANT_COLLECTION =? VARIANT_UTXO) with false.
    change (VARIANT_COLLECTION =? VARIANT_COLLECTION) with true. cbn iota.
    unfold decode_collection, encode_collection.
    rewrite <- !app_assoc, expect_array_enc by done. cbn [res_bind].
    rewrite (decode_vec_enc wf_public encode_public_inputs);
      [|apply decode_public_inputs_enc|apply decode_public_inputs_consuming|done|done|done].
    cbn [res_bind].
    rewrite (decode_vec_enc wf_witness encode_witness);
      [|apply decode_witness_enc|apply decode_witness_consuming|done|done|done].
    cbn [res_bind]. cbn in Hv.
    destruct (Nat.eqb (length (cc_public c)) (length (cc_witness c))); [|done].
    rewrite rd_bytes by done. by destruct c.
Qed.

Lemma decode_claim_tx_wf d tx r :
  (length d <= Z.to_nat ISIZE_MAX)%nat → decode_claim_tx d = Ok (tx, r) →
  wf_tx tx ∧ validate tx = Ok ().
Proof.
  intros Hd H. unfold decode_claim_tx in H. destruct_ok.
  apply expect_array_spec, consumes_length in E. apply rd_u64_consumes, consumes_length in E0.
  destruct (_ =? _); [|destruct (_ =? _); [|done]]; destruct_ok; injection H as <- ->.
  - unfold decode_utxo in E1. destruct_ok. injection E1 as <- ->.
    apply expect_array_spec, consumes_length in E2.
    pose proof (decode_public_inputs_consuming _ _ _ E3) as Hc. apply consumes_length in Hc.
    pose proof (decode_witness_consuming _ _ _ E4) as Hc'. apply consumes_length in Hc'.
    apply decode_public_inputs_wf in E3. apply decode_witness_wf in E4; [|lia].
    apply rd_ok, dec_bytes_spec in E5 as [_ E5]. cbn. unfold allocatable.
    split; [|done]. split; [done|]. split; [done|]. lia.
  - unfold decode_collection in E1. destruct_ok. injection E1 as <- ->.
    apply expect_array_spec, consumes_length in E2.
    apply (decode_vec_spec _ wf_public) in E3 as (Hp & Hlt & Ha); [| |lia|done].
    2: { intros d' y' r' Hy _. split; [by eapply decode_public_inputs_wf|].
         by eapply decode_public_inputs_consuming. }
    apply (decode_vec_spec _ wf_witness) in E4 as (Hw & Hlt' & Ha'); [| |lia|done].
    2: { intros d' y' r' Hy Hd'. split; [by eapply decode_witness_wf|].
         by eapply decode_witness_consuming. }
    apply rd_ok, dec_bytes_spec in E6 as [_ E6]. cbn. rewrite E5. unfold allocatable in *.
    split; [|done]. repeat (split; [done|]). lia.
Qed.

End Types.

(** ** Theorems *)

Section Theorems.
Context {CO : CborOps} {HF : HashFns}.

Lemma expect_end_spec d total :
  (length d <= total)%nat →
  expect_end d total = if decide (d = []) then Ok () else Err (TrailingBytes (total - length d) total).
Proof.
  intros Hl. unfold expect_end. destruct (Nat.eqb_spec (total - length d) total) as [E|E].
  - destruct (decide (d = [])) as [|Hd]; [done|]. destruct d; [done|]. cbn in *. lia.
  - destruct (decide (d = [])) as [->|]; [cbn in E; lia|done].
Qed.

Lemma from_cbor_envelope_eq (CL : CborLaws CO) v payload checksum rest :
  is_u64 v → allocatable 1 (length payload) → allocatable 1 (length checksum) →
  let input := enc_array 3 ++ enc_u64 v ++ enc_bytes payload ++ enc_bytes checksum ++ rest in
  from_cbor input =
  if decide (v ≠ 2) then Err (UnsupportedVersion v)
  else if decide (length checksum ≠ 32%nat)
    then Err (InvalidByteLength "checksum" 32 (length checksum))
  else if decide (rest ≠ [])
    then Err (TrailingBytes (length input - length rest) (length input))
  else if decide (blake3_256 payload ≠ checksum) then Err ChecksumMismatch
  else let? tx := decode_payload payload in
       if decide (encode_payload tx = payload) then Ok tx else Err NonCanonicalPayload.
Proof.
  intros Hv Hp Hc input. unfold from_cbor, input at 1. rewrite expect_array_enc by done.
  cbn [res_bind]. rewrite rd_u64 by done. cbn [res_bind]. unfold CLAIM_TX_WIRE_VERSION.
  destruct (Z.eqb_spec v 2), (decide (v ≠ 2)); try done.
  rewrite rd_bytes by done. cbn [res_bind]. unfold read_hash. rewrite rd_bytes by done.
  cbn [res_bind]. unfold CHECKSUM_LEN.
  destruct (Nat.eqb_spec (length checksum) 32), (decide (length checksum ≠ 32%nat)); try done.
  cbn [res_bind]. rewrite expect_end_spec.
  2: { unfold input. rewrite !length_app. lia. }
  destruct (decide (rest = [])), (decide (rest ≠ [])); try done. cbn [res_bind].
  case_bool_decide; destruct (decide (blake3_256 payload ≠ checksum)); try done.
  destruct (decode_payload payload); cbn [res_bind]; [|done|done].
  case_bool_decide; destruct (decide _); done.
Qed.

(** C16: Round trip.  A well-formed claim whose vectors have matching arity
    encodes, and decoding the envelope returns the claim. *)
Theorem claim_tx_roundtrip (CL : CborLaws CO) (HL : HashLaws HF) (tx : ClaimTx)
    (Hw : wf_tx tx) (Hv : validate tx = Ok ())
    (Hm : allocatable 1 (length (encode_payload tx))) :
  ∃ wire, to_cbor tx = Ok wire ∧ from_cbor wire = Ok tx.
Proof.
  unfold to_cbor. rewrite Hv. cbn [res_bind]. eexists. split; [done|].
  rewrite <- (app_nil_r (enc_bytes (blake3_256 _))).
  assert (Hh : length (blake3_256 (encode_payload tx)) = 32%nat) by apply length_blake3_256.
  rewrite from_cbor_envelope_eq; [|done|done|done|by rewrite Hh].
  repeat (destruct (decide _) as [H|_]; [by destruct H|]).
  unfold decode_payload, encode_payload.
  rewrite <- (app_nil_r (encode_claim_tx tx)) at 1.
  rewrite decode_claim_tx_enc by done. cbn [res_bind]. rewrite expect_end_spec by (cbn; lia).
  destruct (decide ([] = [])) as [_|H]; [|by destruct H]. cbn [res_bind].
  destruct (decide _) as [_|H]; [done|by destruct H].
Qed.

(** C17: Soundness of decoding.  An accepted envelope is a definite
    three-element array holding version 2, the canonical payload of the
    returned claim and the BLAKE3 digest of that payload, with nothing after
    it; the claim is well formed and its vectors have matching arity. *)
Theorem from_cbor_sound (CL : CborLaws CO) (input : bytes) (tx : ClaimTx)
    (Hlen : allocatable 1 (length input)) (H : from_cbor input = Ok tx) :
  wf_tx tx ∧ validate tx = Ok () ∧
  ∃ d1 d2 d3, dec_array input = Some (Some 3, d1) ∧ dec_u64 d1 = Some (2, d2) ∧
    dec_bytes d2 = Some (encode_payload tx, d3) ∧
    dec_bytes d3 = Some (blake3_256 (encode_payload tx), []).
Proof.
  assert (Hd : (length input <= Z.to_nat ISIZE_MAX)%nat) by (unfold allocatable in Hlen; lia).
  unfold from_cbor, read_hash in H. destruct_ok. injection E3 as -> ->.
  apply bool_decide_eq_true in E6 as <-. apply bool_decide_eq_true in E8 as <-.
  apply Z.eqb_eq in E1 as ->.
  unfold expect_array, array_len in E. destruct_ok. injection E1 as -> ->.
  apply Z.eqb_eq in E8 as ->. apply rd_ok in E0, E2, E3, E4. subst.
  pose proof (dec_array_spec _ _ _ E3) as [_ Ha%consumes_length].
  pose proof (dec_u64_spec _ _ _ E0) as [_ Hu%consumes_length].
  pose proof (dec_bytes_spec _ _ _ E2) as [_ Hb]. pose proof (dec_bytes_spec _ _ _ E4) as [_ Hc].
  unfold decode_payload in E7. destruct_ok. apply decode_claim_tx_wf in E as [Hw Hv]; [|lia].
  split; [done|]. split; [done|]. do 3 eexists. split; [exact E3|]. split; [exact E0|].
  split; [exact E2|]. rewrite E4. do 2 f_equal.
  rewrite expect_end_spec in E5 by lia. by destruct (decide _).
Qed.

(** The outcome of every check on an envelope written by a CBOR encoder:
    version first, then the checksum's length, trailing bytes, the checksum
    itself, the payload and finally its canonicality. *)
Theorem from_cbor_envelope (CL : CborLaws CO) (v : Z) (payload checksum rest : bytes)
    (Hv : is_u64 v) (Hp : allocatable 1 (length payload))
    (Hc : allocatable 1 (length checksum)) :
  let input := enc_array 3 ++ enc_u64 v ++ enc_bytes payload ++ enc_bytes checksum ++ rest in
  from_cbor input =
  if decide (v ≠ 2) then Err (UnsupportedVersion v)
  else if decide (length checksum ≠ 32%nat)
    then Err (InvalidByteLength "checksum" 32 (length checksum))
  else if decide (rest ≠ [])
    then Err (TrailingBytes (length input - length rest) (length input))
  else if decide (blake3_256 payload ≠ checksum) then Err ChecksumMismatch
  else let? tx := decode_payload payload in
       if decide (encode_payload tx = payload) then Ok tx else Err NonCanonicalPayload.
Proof. by apply from_cbor_envelope_eq. Qed.

(** A declared collection length is handed to [Vec::with_capacity]
    before any element is read, so a short envelope with a valid checksum
    makes the decoder panic instead of returning an error. *)
Theorem from_cbor_capacity_panic (CL : CborLaws CO) (HL : HashLaws HF) (n : Z)
    (Hn : is_u64 n) (Hbig : ISIZE_MAX < n * SIZE_PUBLIC_INPUTS)
    (Hm : allocatable 1 (length (enc_array 2 ++ enc_u64 1 ++ enc_array 3 ++ enc_array n))) :
  let payload := enc_array 2 ++ enc_u64 1 ++ enc_array 3 ++ enc_array n in
  from_cbor (enc_array 3 ++ enc_u64 2 ++ enc_bytes payload ++ enc_bytes (blake3_256 payload)) = Panic.
Proof.
  intros payload. rewrite <- (app_nil_r (enc_bytes (blake3_256 payload))).
  assert (Hh : length (blake3_256 payload) = 32%nat) by apply length_blake3_256.
  rewrite from_cbor_envelope_eq; [|done|done|done|by rewrite Hh].
  repeat (destruct (decide _) as [H|_]; [by destruct H|]).
  unfold decode_payload, decode_claim_tx, payload. rewrite expect_array_enc by done. cbn [res_bind].
  rewrite rd_u64 by done. cbn [res_bind]. change (1 =? VARIANT_UTXO) with false.
  change (1 =? VARIANT_COLLECTION) with true. cbn iota. unfold decode_collection.
  rewrite expect_array_enc by done. cbn [res_bind]. unfold decode_vec.
  rewrite <- (app_nil_r (enc_array n)), array_len_enc by done. cbn [res_bind].
  unfold with_capacity. destruct (Z.leb_spec (n * SIZE_PUBLIC_INPUTS) ISIZE_MAX); [lia|done].
Qed.

End Theorems.

(** ** Witnesses *)

Module ExampleClaim.

#[local] Existing Instance toy_hashes.
#[local] Existing Instance Rfc8949.ops.

Definition public : ClaimPublicInputs :=
  {| sub_tree_id := 1; leaf_index := 300; tree_depth := 2;
     per_sub_tree_root := replicate 32 Byte.x01; bundle_root_blake3 := replicate 32 Byte.x02;
     nullifier := replicate 32 Byte.x03; recipient_starstream_addr := replicate 32 Byte.x04 |}.

Definition witness : ClaimWitness :=
  {| leaf_payload := [Byte.x61; Byte.x62]; merkle_path := [replicate 32 Byte.x05; replicate 32 Byte.x06];
     signing_key_proof := [] |}.

Definition claim : ClaimTx :=
  TxCollection {| cc_public := [public; public]; cc_witness := [witness; witness];
                  cc_proof := [Byte.xaa] |}.

Definition wire : bytes := match to_cbor claim with Ok b => b | _ => [] end.

Lemma claim_tx_roundtrip_witness : ∃ w, to_cbor claim = Ok w ∧ from_cbor w = Ok claim.
Proof.
  apply (claim_tx_roundtrip Rfc8949.laws toy_hash_laws); by_compute || (vm_compute; reflexivity).
Defined.

Lemma from_cbor_sound_witness : wf_tx claim ∧ validate claim = Ok ().
Proof.
  destruct (from_cbor_sound Rfc8949.laws wire claim) as (H1 & H2 & _);
    [by_compute|vm_compute; reflexivity|by split].
Defined.

Lemma from_cbor_envelope_witness :
  from_cbor (enc_array 3 ++ enc_u64 1 ++ enc_bytes [] ++ enc_bytes [] ++ []) =
  Err (UnsupportedVersion 1).
Proof.
  rewrite (from_cbor_envelope Rfc8949.laws 1 [] [] []); [done|done|by_compute|by_compute].
Defined.

Lemma from_cbor_capacity_panic_witness :
  let payload := enc_array 2 ++ enc_u64 1 ++ enc_array 3 ++ enc_array (2 ^ 60) in
  from_cbor (enc_array 3 ++ enc_u64 2 ++ enc_bytes payload ++ enc_bytes (blake3_256 payload)) = Panic.
Proof.
  apply (from_cbor_capacity_panic Rfc8949.laws toy_hash_laws (2 ^ 60)); [done|done|by_compute].
Defined.

End ExampleClaim.
