(* ===== verification/Prover.v ===== *)
(** * Prover-side checks and public values

    [omega-claim-prover/src/lib.rs] up to the algebraic part: the published
    commitment, witness validation, the layout of the proof's public values
    and the digest that binds a proof to its commitment and public inputs.
    Trace generation and the AIR constraints are in [Air], the entry points
    in [ProofSystem]. *)

From S2P Require Import Prelude Hash Tree Witness ClaimTx.
From Stdlib Require Import ZArith Lia List String.
From stdpp Require Import base decidable list.

Local Open Scope Z_scope.

Definition MAX_V01_LEAF_PREIMAGE_LEN : nat := 64.
Definition MAX_V01_LEAF_PAYLOAD_LEN : nat :=
  (MAX_V01_LEAF_PREIMAGE_LEN - length DOMAIN_LEAF - 1 - 8 - 8)%nat.
Definition PROOF_ENVELOPE_VERSION : Z := 2.
Definition SUB_TREE_COUNT : nat := 7.
Definition HASH_LEN : nat := 32.
Definition LEAF_INDEX_LEN : nat := 8.
Definition PUBLIC_SUB_TREE_ID_OFFSET : nat := 0.
Definition PUBLIC_LEAF_INDEX_OFFSET : nat := (PUBLIC_SUB_TREE_ID_OFFSET + 1)%nat.
Definition PUBLIC_TREE_DEPTH_OFFSET : nat := (PUBLIC_LEAF_INDEX_OFFSET + LEAF_INDEX_LEN)%nat.
Definition PUBLIC_ROOT_OFFSET : nat := (PUBLIC_TREE_DEPTH_OFFSET + 1)%nat.
Definition PROOF_BINDING_WORD_OFFSET : nat := (PUBLIC_ROOT_OFFSET + HASH_LEN)%nat.
Definition PROOF_BINDING_WORDS : nat := 32.
Definition PROOF_PUBLIC_VALUE_COUNT : nat := (PROOF_BINDING_WORD_OFFSET + PROOF_BINDING_WORDS)%nat.
Definition DOMAIN_PROOF_BINDING : bytes := ascii_bytes "omega:proof:v2:binding".

(** The arrays of seven are lists of length [SUB_TREE_COUNT]. *)
Record OmegaCommitment := {
  oc_bundle_root_blake3 : bytes;
  sub_tree_roots_blake3 : list bytes;
  item_counts : list Z;
  leaf_counts : list Z;
  tree_depths : list Z
}.

#[export] Instance OmegaCommitment_eq_dec : EqDecision OmegaCommitment.
Proof. solve_decision. Defined.

#[export] Instance ClaimPublicInputs_eq_dec : EqDecision ClaimPublicInputs.
Proof. solve_decision. Defined.

Record MembershipWitness := {
  mw_public : ClaimPublicInputs;
  mw_leaf_payload : bytes;
  mw_merkle_path : list bytes
}.

(** [MembershipWitness::from_inclusion]. *)
Definition from_inclusion (public : ClaimPublicInputs) (leaf_payload : bytes)
    (inclusion : InclusionWitness) : MembershipWitness :=
  {| mw_public := public; mw_leaf_payload := leaf_payload; mw_merkle_path := iw_siblings inclusion |}.

Record CheckedWitness := {
  cw_public : ClaimPublicInputs;
  cw_leaf_payload : bytes;
  cw_merkle_path : list bytes;
  cw_leaf_hash : bytes
}.

(** [ProverConfig] holds the seed of the STARK configuration. *)
Record ProofEnvelope := {
  pe_version : Z;
  pe_rng_seed : Z;
  pe_commitment : OmegaCommitment;
  pe_public_inputs : list ClaimPublicInputs;
  pe_public_values : list (list Z);
  pe_stark_proof : bytes
}.

Inductive ProverError : Type :=
| PrUnknownSubTree (sub_tree_id : Z)
| LeafTooLargeForV01 (actual limit witness_index : nat)
| LeafIndexOutOfRange (witness_index : nat) (leaf_index item_count : Z)
| PathDepthMismatch (witness_index expected actual : nat)
| PathMismatch (witness_index : nat)
| PrPublicBundleRootMismatch (witness_index : nat)
| PublicSubTreeRootMismatch (witness_index : nat)
| PublicTreeDepthMismatch (witness_index : nat)
| TreeDepthTooLarge (witness_index : nat) (depth : Z)
| PrCommitmentMismatch (expected actual : bytes)
| Serialize.

(** The AIRs of a batch: one per membership claim, then the BLAKE3 AIR. *)
Inductive OmegaProofAir : Type := AirMembership | AirBlake3.

Definition proof_airs (membership_count : nat) : list OmegaProofAir :=
  replicate membership_count AirMembership ++ [AirBlake3].

(** [OmegaCommitment::sub_tree_index]. *)
Definition pr_sub_tree_index (id : Z) : result nat ProverError :=
  if id <? 1 then Err (PrUnknownSubTree id)
  else if (SUB_TREE_COUNT <=? Z.to_nat (id - 1))%nat then Err (PrUnknownSubTree id)
  else Ok (Z.to_nat (id - 1)).

Definition leaf_preimage_len (payload_len : nat) : nat :=
  (length DOMAIN_LEAF + 1 + 8 + 8 + payload_len)%nat.

Section Prover.
Context {HF : HashFns}.

Definition bundle_root (roots : list bytes) : bytes := blake3_256 (concat roots).

Definition validate_bundle_root (c : OmegaCommitment) : result unit ProverError :=
  let recomputed := bundle_root (sub_tree_roots_blake3 c) in
  guard! bool_decide (recomputed = oc_bundle_root_blake3 c)
    else PrCommitmentMismatch (oc_bundle_root_blake3 c) recomputed;
  Ok ().

(** The same loop as in [InclusionWitness::verify], over [node_hash_v2]. *)
Definition walk_v1_path (leaf : bytes) (leaf_index : Z) (siblings : list bytes) : bytes :=
  walk node_hash_v2 leaf_index leaf siblings.

Definition validate_witness (c : OmegaCommitment) (witness_index : nat) (w : MembershipWitness) :
    result CheckedWitness ProverError :=
  let public := mw_public w in
  let preimage_len := leaf_preimage_len (length (mw_leaf_payload w)) in
  guard! (preimage_len <=? MAX_V01_LEAF_PREIMAGE_LEN)%nat
    else LeafTooLargeForV01 preimage_len MAX_V01_LEAF_PREIMAGE_LEN witness_index;
  guard! bool_decide (bundle_root_blake3 public = oc_bundle_root_blake3 c)
    else PrPublicBundleRootMismatch witness_index;
  let? i := pr_sub_tree_index (sub_tree_id public) in
  let? item_count := or_panic (item_counts c !! i) in
  guard! (leaf_index public <? item_count)
    else LeafIndexOutOfRange witness_index (leaf_index public) item_count;
  let? commitment_depth := or_panic (tree_depths c !! i) in
  let expected_depth := Z.to_nat commitment_depth in
  guard! (commitment_depth <=? 255) else TreeDepthTooLarge witness_index commitment_depth;
  guard! (tree_depth public =? commitment_depth mod 256)
    else PublicTreeDepthMismatch witness_index;
  let? root := or_panic (sub_tree_roots_blake3 c !! i) in
  guard! bool_decide (per_sub_tree_root public = root)
    else PublicSubTreeRootMismatch witness_index;
  guard! Nat.eqb (length (mw_merkle_path w)) expected_depth
    else PathDepthMismatch witness_index expected_depth (length (mw_merkle_path w));
  let leaf := leaf_hash_v2 (sub_tree_id public) (leaf_index public) (mw_leaf_payload w) in
  guard! bool_decide (walk_v1_path leaf (leaf_index public) (mw_merkle_path w) = root)
    else PathMismatch witness_index;
  Ok {| cw_public := public; cw_leaf_payload := mw_leaf_payload w;
        cw_merkle_path := mw_merkle_path w; cw_leaf_hash := leaf |}.

(** [witnesses.iter().enumerate().map(..).collect()], from index [i]. *)
Fixpoint validate_witnesses_from (c : OmegaCommitment) (i : nat) (ws : list MembershipWitness) :
    result (list CheckedWitness) ProverError :=
  match ws with
  | [] => Ok []
  | w :: ws' =>
      let? x := validate_witness c i w in
      let? xs := validate_witnesses_from c (S i) ws' in
      Ok (x :: xs)
  end.

Definition validate_witnesses (c : OmegaCommitment) (ws : list MembershipWitness) :
    result (list CheckedWitness) ProverError := validate_witnesses_from c 0 ws.

(** ** The binding digest *)

Definition public_input_bytes (p : ClaimPublicInputs) : bytes :=
  [z2b (sub_tree_id p)] ++ be_bytes 8 (leaf_index p) ++ [z2b (tree_depth p)] ++
  per_sub_tree_root p ++ bundle_root_blake3 p ++ nullifier p ++ recipient_starstream_addr p.

Definition proof_binding_preimage (c : OmegaCommitment) (pis : list ClaimPublicInputs) : bytes :=
  DOMAIN_PROOF_BINDING ++ oc_bundle_root_blake3 c ++ concat (sub_tree_roots_blake3 c) ++
  concat (be_bytes 8 <$> item_counts c) ++ concat (be_bytes 8 <$> leaf_counts c) ++
  concat (be_bytes 4 <$> tree_depths c) ++ be_bytes 8 (Z.of_nat (length pis)) ++
  concat (public_input_bytes <$> pis).

Definition proof_binding_digest (c : OmegaCommitment) (pis : list ClaimPublicInputs) : bytes :=
  blake3_256 (proof_binding_preimage c pis).

Definition proof_binding_words (c : OmegaCommitment) (pis : list ClaimPublicInputs) : list Z :=
  b2z <$> proof_binding_digest c pis.

(** ** Public values *)

(** [for (i, byte) in bs.iter().enumerate() { values[offset + i] = byte }]. *)
Fixpoint set_bytes (values : list Z) (offset : nat) (bs : bytes) : list Z :=
  match bs with
  | [] => values
  | b :: bs' => set_bytes (<[offset := b2z b]> values) (S offset) bs'
  end.

(** [values[offset..].copy_from_slice(words)]. *)
Definition set_suffix (values : list Z) (offset : nat) (words : list Z) : list Z :=
  take offset values ++ words.

Definition public_values_of (binding : list Z) (p : ClaimPublicInputs) : list Z :=
  let values := replicate PROOF_PUBLIC_VALUE_COUNT 0 in
  let values := <[PUBLIC_SUB_TREE_ID_OFFSET := sub_tree_id p]> values in
  let values := set_bytes values PUBLIC_LEAF_INDEX_OFFSET (be_bytes 8 (leaf_index p)) in
  let values := <[PUBLIC_TREE_DEPTH_OFFSET := tree_depth p]> values in
  let values := set_bytes values PUBLIC_ROOT_OFFSET (per_sub_tree_root p) in
  set_suffix values PROOF_BINDING_WORD_OFFSET binding.

Definition proof_public_values (c : OmegaCommitment) (pis : list ClaimPublicInputs) : list (list Z) :=
  let binding := proof_binding_words c pis in
  public_values_of binding <$> pis.

End Prover.
