(* ===== verification/Verifier.v ===== *)
(** * The claim verifier

    [omega-claim-verifier/src/lib.rs]: the sequence of checks that [verify]
    makes before and around the STARK verification.  [postcard] decoding and
    [p3_batch_stark::verify_batch] are third-party code, the operations of
    the class [StarkVerifier]. *)

From S2P Require Import Prelude Hash Tree ClaimTx Prover.
From Stdlib Require Import ZArith Lia List String.
From stdpp Require Import base decidable list.

Local Open Scope Z_scope.

Inductive VerifyError : Type :=
| VeUnsupportedVersion (version : Z)
| CommitmentMismatch
| PublicInputMismatch
| UnknownSubTree (index : nat) (sub_tree_id : Z)
| PublicBundleRootMismatch (index : nat)
| WrongSubTreeRoot (index : nat)
| DepthMismatch (index : nat) (expected actual : Z)
| InvalidProof.

Class StarkVerifier := {
  BatchProof : Type;
  decode_envelope : bytes → option ProofEnvelope;
  decode_batch_proof : bytes → option BatchProof;
  degree_bits : BatchProof → list Z;
  (** [verify_batch] with the configuration derived from a seed. *)
  verify_batch : Z → list OmegaProofAir → BatchProof → list (list Z) → bool
}.

(** [sub_tree_id.checked_sub(1)], then [index < 7]. *)
Definition sub_tree_index (id : Z) : option nat :=
  if id <? 1 then None
  else if (Z.to_nat (id - 1) <? 7)%nat then Some (Z.to_nat (id - 1)) else None.

Section Verifier.
Context {HF : HashFns} {SV : StarkVerifier}.

(** One round of the loop of [validate_public_inputs]. *)
Definition check_public_input (c : OmegaCommitment) (index : nat) (p : ClaimPublicInputs) :
    result unit VerifyError :=
  guard! bool_decide (bundle_root_blake3 p = oc_bundle_root_blake3 c)
    else PublicBundleRootMismatch index;
  let? i := ok_or (sub_tree_index (sub_tree_id p)) (UnknownSubTree index (sub_tree_id p)) in
  let? root := or_panic (sub_tree_roots_blake3 c !! i) in
  guard! bool_decide (per_sub_tree_root p = root) else WrongSubTreeRoot index;
  let? expected := or_panic (tree_depths c !! i) in
  guard! (expected <? 256) else InvalidProof;
  guard! (tree_depth p =? expected) else DepthMismatch index expected (tree_depth p);
  Ok ().

Fixpoint validate_public_inputs_from (c : OmegaCommitment) (index : nat)
    (pis : list ClaimPublicInputs) : result unit VerifyError :=
  match pis with
  | [] => Ok ()
  | p :: pis' =>
      let? _ := check_public_input c index p in
      validate_public_inputs_from c (S index) pis'
  end.

Definition validate_public_inputs (c : OmegaCommitment) (pis : list ClaimPublicInputs) :
    result unit VerifyError := validate_public_inputs_from c 0 pis.

(** [for (i, byte) in bs.iter().enumerate() { if values[offset + i] != byte .. }]. *)
Fixpoint check_bytes (values : list Z) (offset : nat) (bs : bytes) : result unit VerifyError :=
  match bs with
  | [] => Ok ()
  | b :: bs' =>
      let? v := or_panic (values !! offset) in
      guard! (v =? b2z b) else InvalidProof;
      check_bytes values (S offset) bs'
  end.

(** One round of the loop of [validate_envelope_public_values]. *)
Definition check_public_values (binding : list Z) (values : list Z) (p : ClaimPublicInputs) :
    result unit VerifyError :=
  guard! Nat.eqb (length values) PROOF_PUBLIC_VALUE_COUNT else InvalidProof;
  let? v := or_panic (values !! PUBLIC_SUB_TREE_ID_OFFSET) in
  guard! (v =? sub_tree_id p) else InvalidProof;
  let? _ := check_bytes values PUBLIC_LEAF_INDEX_OFFSET (be_bytes 8 (leaf_index p)) in
  let? d := or_panic (values !! PUBLIC_TREE_DEPTH_OFFSET) in
  guard! (d =? tree_depth p) else InvalidProof;
  let? _ := check_bytes values PUBLIC_ROOT_OFFSET (per_sub_tree_root p) in
  guard! bool_decide (drop PROOF_BINDING_WORD_OFFSET values = binding) else InvalidProof;
  Ok ().

(** The loop over [public_values.iter().zip(public_inputs)]. *)
Fixpoint check_all_public_values (binding : list Z) (pvs : list (list Z))
    (pis : list ClaimPublicInputs) : result unit VerifyError :=
  match pvs, pis with
  | values :: pvs', p :: pis' =>
      let? _ := check_public_values binding values p in
      check_all_public_values binding pvs' pis'
  | _, _ => Ok ()
  end.

Definition validate_envelope_public_values (c : OmegaCommitment) (pis : list ClaimPublicInputs)
    (pvs : list (list Z)) : result unit VerifyError :=
  guard! Nat.eqb (length pvs) (length pis) else InvalidProof;
  check_all_public_values (proof_binding_words c pis) pvs pis.

Definition verify_membership_batch (e : ProofEnvelope) : result unit VerifyError :=
  let? proof := ok_or (decode_batch_proof (pe_stark_proof e)) InvalidProof in
  let airs := proof_airs (length (pe_public_inputs e)) in
  guard! Nat.eqb (length (degree_bits proof)) (length airs) else InvalidProof;
  let public_values := pe_public_values e ++ [[]] in
  guard! verify_batch (pe_rng_seed e) airs proof public_values else InvalidProof;
  Ok ().

(** [verify]. *)
Definition verify_claim (c : OmegaCommitment) (pis : list ClaimPublicInputs) (proof : bytes) :
    result unit VerifyError :=
  let? e := ok_or (decode_envelope proof) InvalidProof in
  guard! (pe_version e =? PROOF_ENVELOPE_VERSION) else VeUnsupportedVersion (pe_version e);
  guard! bool_decide (pe_commitment e = c) else CommitmentMismatch;
  guard! bool_decide (pe_public_inputs e = pis) else PublicInputMismatch;
  let? _ := validate_public_inputs c pis in
  let? _ := validate_envelope_public_values c pis (pe_public_values e) in
  verify_membership_batch e.

End Verifier.
