(* ===== verification/VerifierSpec.v ===== *)
(** * Specification of the prover's checks and of the verifier

    The public values are laid out without gaps and the verifier accepts
    exactly the vector the prover computes; the binding digest determines
    the commitment and the public inputs up to a collision; [verify_claim]
    accepts exactly when every documented condition holds; witness
    validation is sound and complete for trees built by [build_v1]. *)

From S2P Require Import Prelude Hash Tree TreeSpec LeavesSpec ClaimTx ClaimTxSpec Prover Verifier.
From Stdlib Require Import ZArith Lia List String Permutation.
From stdpp Require Import base decidable list.

Local Open Scope Z_scope.

(** A commitment header as its Rust type holds it. *)
Definition wf_commitment (c : OmegaCommitment) : Prop :=
  is_hash (oc_bundle_root_blake3 c) ∧
  (length (sub_tree_roots_blake3 c) = 7%nat ∧ Forall is_hash (sub_tree_roots_blake3 c)) ∧
  (length (item_counts c) = 7%nat ∧ Forall is_u64 (item_counts c)) ∧
  (length (leaf_counts c) = 7%nat ∧ Forall is_u64 (leaf_counts c)) ∧
  (length (tree_depths c) = 7%nat ∧ Forall is_u32 (tree_depths c)).

#[export] Instance wf_commitment_dec c : Decision (wf_commitment c).
Proof. unfold wf_commitment. apply _. Defined.

(** ** Layout of the public values *)

Section Layout.
Context {HF : HashFns}.

(** Reference: the fields of one claim, in order and without gaps. *)
Definition public_layout (binding : list Z) (p : ClaimPublicInputs) : list Z :=
  [sub_tree_id p] ++ (b2z <$> be_bytes 8 (leaf_index p)) ++ [tree_depth p] ++
  (b2z <$> per_sub_tree_root p) ++ binding.

Lemma public_values_layout binding p :
  is_hash (per_sub_tree_root p) → public_values_of binding p = public_layout binding p.
Proof.
  unfold public_values_of, public_layout, is_hash.
  pose proof (length_be_bytes 8 (leaf_index p)) as Hi. revert Hi.
  generalize (be_bytes 8 (leaf_index p)) (per_sub_tree_root p). intros bs r Hi Hr.
  do 8 (destruct bs as [|? bs]; [discriminate|]). destruct bs; [|discriminate].
  do 32 (destruct r as [|? r]; [discriminate|]). destruct r; [|discriminate].
  reflexivity.
Qed.

Lemma length_public_layout binding p :
  is_hash (per_sub_tree_root p) → length (public_layout binding p) = (42 + length binding)%nat.
Proof.
  intros Hr. unfold public_layout.
  rewrite !length_app, !length_fmap, length_be_bytes, Hr. cbn. lia.
Qed.

Lemma check_bytes_spec values off bs :
  (off + length bs <= length values)%nat →
  check_bytes values off bs =
    if decide (take (length bs) (drop off values) = b2z <$> bs) then Ok () else Err InvalidProof.
Proof.
  revert off. induction bs as [|b bs IH]; intros off Hl; cbn [check_bytes length] in *.
  { by rewrite take_0. }
  destruct (lookup_lt_is_Some_2 values off) as [v Hv]; [lia|].
  rewrite Hv, (drop_S _ _ _ Hv). cbn [or_panic res_bind take].
  rewrite IH by lia. rewrite fmap_cons.
  destruct (Z.eqb_spec v (b2z b)) as [->|Hne].
  - repeat case_decide; congruence.
  - rewrite decide_False by congruence. done.
Qed.

(** A vector of the expected width, cut into the fields of the layout. *)
Lemma public_layout_cut (values : list Z) :
  length values = PROOF_PUBLIC_VALUE_COUNT →
  ∃ v a d r b, values = [v] ++ a ++ [d] ++ r ++ b ∧ length a = 8%nat ∧ length r = 32%nat.
Proof.
  change PROOF_PUBLIC_VALUE_COUNT with 74%nat. intros H.
  destruct values as [|v values]; [discriminate|]. injection H as H.
  rewrite <- (take_drop 8 values). destruct (drop 8 values) as [|d rest] eqn:E.
  { apply (f_equal length) in E. rewrite length_drop in E. cbn in E. lia. }
  assert (length rest = 64%nat).
  { apply (f_equal length) in E. rewrite length_drop in E. cbn in E. lia. }
  exists v, (take 8 values), d, (take 32 rest), (drop 32 rest).
  rewrite !length_take. repeat split; [|lia|lia]. cbn [app].
  by rewrite <- app_assoc, take_drop || rewrite take_drop.
Qed.

Lemma check_public_values_spec binding values p :
  length binding = 32%nat → is_hash (per_sub_tree_root p) →
  check_public_values binding values p =
    if decide (values = public_values_of binding p) then Ok () else Err InvalidProof.
Proof.
  intros Hb Hr. rewrite public_values_layout by done. unfold check_public_values.
  destruct (Nat.eqb_spec (length values) PROOF_PUBLIC_VALUE_COUNT) as [Hl|Hl].
  2: { rewrite decide_False; [done|]. intros ->. by rewrite length_public_layout, Hb in Hl. }
  destruct (public_layout_cut _ Hl) as (v & a & d & r & b & -> & Ha & Hr').
  rewrite !check_bytes_spec by (rewrite Hl, ?length_be_bytes, ?Hr; cbv; lia).
  assert (E1 : ([v] ++ a ++ [d] ++ r ++ b) !! PUBLIC_TREE_DEPTH_OFFSET = Some d).
  { transitivity ((a ++ d :: r ++ b) !! 8%nat); [done|]. by apply list_lookup_middle. }
  assert (E2 : drop PUBLIC_ROOT_OFFSET ([v] ++ a ++ [d] ++ r ++ b) = r ++ b).
  { change PUBLIC_ROOT_OFFSET with (S 9). cbn [app drop].
    change (a ++ d :: r ++ b) with (a ++ [d] ++ r ++ b). rewrite app_assoc.
    apply drop_app_length'. rewrite length_app, Ha. done. }
  assert (E3 : drop PROOF_BINDING_WORD_OFFSET ([v] ++ a ++ [d] ++ r ++ b) = b).
  { change PROOF_BINDING_WORD_OFFSET with (PUBLIC_ROOT_OFFSET + 32)%nat.
    rewrite <- drop_drop, E2. by apply drop_app_length'. }
  rewrite E1, E2, E3, length_be_bytes, Hr. cbn [app drop lookup list_lookup or_panic res_bind
    PUBLIC_SUB_TREE_ID_OFFSET PUBLIC_LEAF_INDEX_OFFSET Nat.add].
  rewrite ?drop_0, !take_app_length' by done. unfold public_layout. cbn [app].
  destruct (decide (v :: a ++ d :: r ++ b = _)) as [E|E].
  - apply cons_eq_cons in E as [-> E]. apply app_eq_len in E as [-> E]; [|by rewrite Ha, length_fmap, length_be_bytes].
    apply cons_eq_cons in E as [-> E]. apply app_eq_len in E as [-> ->]; [|by rewrite Hr', length_fmap, Hr].
    rewrite !Z.eqb_refl, !decide_True by done. cbn. by rewrite bool_decide_true.
  - destruct (Z.eqb_spec v (sub_tree_id p)); [|done].
    case_decide; [|done]. cbn [res_bind]. destruct (Z.eqb_spec d (tree_depth p)); [|done].
    case_decide; [|done]. cbn [res_bind]. rewrite bool_decide_false; [done|].
    congruence.
Qed.

Context {HL : HashLaws HF}.

Lemma length_proof_binding_words c pis : length (proof_binding_words c pis) = 32%nat.
Proof. unfold proof_binding_words. by rewrite length_fmap; apply length_blake3_256. Qed.

Lemma check_all_public_values_spec binding pvs pis :
  length binding = 32%nat → Forall (λ p, is_hash (per_sub_tree_root p)) pis →
  length pvs = length pis →
  check_all_public_values binding pvs pis =
    if decide (pvs = public_values_of binding <$> pis) then Ok () else Err InvalidProof.
Proof.
  intros Hb Hp. revert pvs. induction Hp as [|p pis Hr Hp IH]; intros [|v pvs] Hl;
    try discriminate; [done|].
  cbn [check_all_public_values]. rewrite check_public_values_spec by done.
  rewrite fmap_cons. destruct (decide (v = _)) as [->|Hne]; cbn [res_bind].
  - rewrite IH by (by injection Hl). repeat case_decide; congruence.
  - rewrite decide_False by congruence. done.
Qed.

Lemma validate_public_values_spec c pis pvs :
  Forall (λ p, is_hash (per_sub_tree_root p)) pis →
  validate_envelope_public_values c pis pvs =
    if decide (pvs = proof_public_values c pis) then Ok () else Err InvalidProof.
Proof.
  intros Hp. unfold validate_envelope_public_values, proof_public_values.
  destruct (Nat.eqb_spec (length pvs) (length pis)) as [Hl|Hl].
  - apply check_all_public_values_spec; [apply length_proof_binding_words|done|done].
  - rewrite decide_False; [done|]. intros ->. by rewrite length_fmap in Hl.
Qed.

End Layout.

(** ** Public inputs against the commitment *)

(** What the verifier requires of one claim's public inputs. *)
Definition input_consistent (c : OmegaCommitment) (p : ClaimPublicInputs) : Prop :=
  bundle_root_blake3 p = oc_bundle_root_blake3 c ∧ 1 <= sub_tree_id p <= 7 ∧
  sub_tree_roots_blake3 c !! Z.to_nat (sub_tree_id p - 1) = Some (per_sub_tree_root p) ∧
  tree_depths c !! Z.to_nat (sub_tree_id p - 1) = Some (tree_depth p) ∧ tree_depth p < 256.

#[export] Instance input_consistent_dec c p : Decision (input_consistent c p).
Proof. unfold input_consistent. apply _. Defined.

(** The defect that an error value reports about the input at [index]. *)
Definition input_defect (c : OmegaCommitment) (index : nat) (p : ClaimPublicInputs)
    (e : VerifyError) : Prop :=
  match e with
  | PublicBundleRootMismatch i => i = index ∧ bundle_root_blake3 p ≠ oc_bundle_root_blake3 c
  | UnknownSubTree i id => i = index ∧ id = sub_tree_id p ∧ ¬ 1 <= id <= 7
  | WrongSubTreeRoot i => i = index ∧
      sub_tree_roots_blake3 c !! Z.to_nat (sub_tree_id p - 1) ≠ Some (per_sub_tree_root p)
  | InvalidProof => ∃ d, tree_depths c !! Z.to_nat (sub_tree_id p - 1) = Some d ∧ 256 <= d
  | DepthMismatch i d d' => i = index ∧ d' = tree_depth p ∧ d ≠ d' ∧
      tree_depths c !! Z.to_nat (sub_tree_id p - 1) = Some d
  | _ => False
  end.

Lemma sub_tree_index_spec id :
  sub_tree_index id = if decide (1 <= id <= 7) then Some (Z.to_nat (id - 1)) else None.
Proof.
  unfold sub_tree_index. destruct (Z.ltb_spec id 1); [by rewrite decide_False by lia|].
  destruct (Nat.ltb_spec (Z.to_nat (id - 1)) 7); [rewrite decide_True by lia|rewrite decide_False by lia]; done.
Qed.

(** The prover's and the verifier's index functions agree. *)
Lemma pr_sub_tree_index_spec id :
  pr_sub_tree_index id = ok_or (sub_tree_index id) (PrUnknownSubTree id).
Proof.
  unfold pr_sub_tree_index, sub_tree_index, SUB_TREE_COUNT. destruct (id <? 1); [done|].
  destruct (Nat.leb_spec 7 (Z.to_nat (id - 1))), (Nat.ltb_spec (Z.to_nat (id - 1)) 7); done || lia.
Qed.

Lemma slot_lookup {A} (l : list A) id :
  length l = 7%nat → 1 <= id <= 7 → is_Some (l !! Z.to_nat (id - 1)).
Proof. intros Hl Hid. apply lookup_lt_is_Some. lia. Qed.

Lemma check_public_input_spec c index p :
  wf_commitment c →
  match check_public_input c index p with
  | Ok _ => input_consistent c p
  | Err e => input_defect c index p e
  | Panic => False
  end.
Proof.
  intros (_ & [Hr _] & _ & _ & Hd & _). unfold check_public_input, input_consistent.
  case_bool_decide as Hb; [|done]. rewrite sub_tree_index_spec.
  case_decide as Hid; [|done]. cbn [ok_or res_bind].
  destruct (slot_lookup _ _ Hr Hid) as [root Er], (slot_lookup _ _ Hd Hid) as [d Ed].
  rewrite Er, Ed. cbn [or_panic res_bind]. case_bool_decide as Hroot.
  2: { split; [done|]. rewrite Er. congruence. }
  destruct (Z.ltb_spec d 256) as [Hlt|Hlt]; [|by exists d].
  destruct (Z.eqb_spec (tree_depth p) d) as [E|E]; [|by repeat (split; [done|])].
  subst. auto.
Qed.

Lemma input_defect_inconsistent c index p e :
  input_defect c index p e → ¬ input_consistent c p.
Proof.
  intros He (Hb & Hid & Hr & Hd & Hlt). destruct e; cbn in He; try done.
  - destruct He as (_ & -> & ?). done.
  - by destruct He.
  - by destruct He.
  - destruct He as (_ & -> & Hne & E). congruence.
  - destruct He as (d & E & Hge). assert (d = tree_depth p) by congruence. lia.
Qed.

Lemma validate_public_inputs_from_spec c index pis :
  wf_commitment c →
  match validate_public_inputs_from c index pis with
  | Ok _ => Forall (input_consistent c) pis
  | Err e => ∃ i p, pis !! i = Some p ∧ Forall (input_consistent c) (take i pis) ∧
                    input_defect c (index + i) p e
  | Panic => False
  end.
Proof.
  intros Hc. revert index. induction pis as [|p pis IH]; intros index; cbn; [done|].
  pose proof (check_public_input_spec c index p Hc) as Hp.
  destruct (check_public_input c index p) as [[]|e|]; cbn [res_bind]; [|  |done].
  2: { exists 0%nat, p. rewrite Nat.add_0_r. split; [done|]. by split; [constructor|]. }
  specialize (IH (S index)). destruct (validate_public_inputs_from _ _ _) as [?|e|]; [by constructor| |done].
  destruct IH as (i & q & Hq & Ht & He). exists (S i), q. rewrite Nat.add_succ_r.
  split; [done|]. by split; [constructor|].
Qed.

Lemma validate_public_inputs_ok c pis :
  wf_commitment c → validate_public_inputs c pis = Ok () ↔ Forall (input_consistent c) pis.
Proof.
  intros Hc. unfold validate_public_inputs.
  pose proof (validate_public_inputs_from_spec c 0 pis Hc) as H.
  destruct (validate_public_inputs_from c 0 pis) as [[]|e|]; [done| |done].
  split; [discriminate|]. intros Hf. destruct H as (i & p & Hp & _ & He).
  apply input_defect_inconsistent in He. destruct He. by eapply list.Forall_lookup_1.
Qed.

(** ** The binding digest *)

Section Binding.
Context {HF : HashFns}.

Lemma concat_fmap_inj {A} (P : A → Prop) (f : A → bytes) n l1 l2 x y :
  (∀ a, P a → length (f a) = n) → (∀ a b, P a → P b → f a = f b → a = b) →
  Forall P l1 → Forall P l2 → length l1 = length l2 →
  concat (f <$> l1) ++ x = concat (f <$> l2) ++ y → l1 = l2 ∧ x = y.
Proof.
  intros Hlen Hinj H1. revert l2. induction H1 as [|a l1 Ha H1 IH]; intros l2 H2 Hl E;
    destruct H2 as [|b l2 Hb H2]; try discriminate; [done|].
  rewrite !fmap_cons in E. cbn [concat] in E. rewrite <- !app_assoc in E.
  apply app_eq_len in E as [Eab E]; [|by rewrite !Hlen].
  apply Hinj in Eab as ->; [|done|done].
  apply IH in E as [-> ->]; [done|done|]. by injection Hl.
Qed.

Lemma public_input_bytes_length p : wf_public p → length (public_input_bytes p) = 138%nat.
Proof.
  unfold wf_public, is_hash. intros (_ & _ & _ & H1 & H2 & H3 & H4). unfold public_input_bytes.
  rewrite !length_app, length_be_bytes, H1, H2, H3, H4. done.
Qed.

Lemma public_input_bytes_inj p q :
  wf_public p → wf_public q → public_input_bytes p = public_input_bytes q → p = q.
Proof.
  unfold wf_public, is_hash.
  intros (P1 & P2 & P3 & P4 & P5 & P6 & P7) (Q1 & Q2 & Q3 & Q4 & Q5 & Q6 & Q7) E.
  unfold public_input_bytes in E.
  apply app_eq_len in E as [E1 E]; [|done]. apply app_eq_len in E as [E2 E]; [|by rewrite !length_be_bytes].
  apply app_eq_len in E as [E3 E]; [|done]. apply app_eq_len in E as [E4 E]; [|congruence].
  apply app_eq_len in E as [E5 E]; [|congruence]. apply app_eq_len in E as [E6 E]; [|congruence].
  injection E1 as E1. injection E3 as E3. apply z2b_inj_u8 in E1, E3; [|done..].
  apply be_bytes8_inj in E2; [|done..]. destruct p, q; cbn in *; congruence.
Qed.

Lemma proof_binding_preimage_inj c1 pis1 c2 pis2 :
  wf_commitment c1 → wf_commitment c2 → Forall wf_public pis1 → Forall wf_public pis2 →
  is_u64 (Z.of_nat (length pis1)) → is_u64 (Z.of_nat (length pis2)) →
  proof_binding_preimage c1 pis1 = proof_binding_preimage c2 pis2 → c1 = c2 ∧ pis1 = pis2.
Proof.
  intros (A1 & [A2 A2'] & [A3 A3'] & [A4 A4'] & A5 & A5')
    (B1 & [B2 B2'] & [B3 B3'] & [B4 B4'] & B5 & B5') P1 P2 L1 L2 E.
  unfold proof_binding_preimage in E. apply app_eq_len in E as [_ E]; [|done].
  apply app_eq_len in E as [E1 E]; [|unfold is_hash in *; congruence].
  rewrite <- (list_fmap_id (sub_tree_roots_blake3 c1)), <- (list_fmap_id (sub_tree_roots_blake3 c2)) in E.
  apply (concat_fmap_inj is_hash id 32) in E as [E2 E]; [|done..|congruence].
  apply (concat_fmap_inj is_u64 _ 8) in E as [E3 E];
    [|by intros; apply length_be_bytes|apply be_bytes8_inj|done|done|congruence].
  apply (concat_fmap_inj is_u64 _ 8) in E as [E4 E];
    [|by intros; apply length_be_bytes|apply be_bytes8_inj|done|done|congruence].
  apply (concat_fmap_inj is_u32 _ 4) in E as [E5 E];
    [|by intros; apply length_be_bytes|apply be_bytes4_inj|done|done|congruence].
  apply app_eq_len in E as [En E]; [|by rewrite !length_be_bytes].
  apply be_bytes8_inj in En; [|done..]. apply (f_equal (λ x, x ++ [])) in E.
  apply (concat_fmap_inj wf_public _ 138) in E as [-> _]; [|apply public_input_bytes_length|
    apply public_input_bytes_inj|done|done|lia].
  split; [|done]. destruct c1, c2; cbn in *; congruence.
Qed.

Lemma proof_binding_words_inj c1 pis1 c2 pis2 :
  proof_binding_words c1 pis1 = proof_binding_words c2 pis2 →
  proof_binding_digest c1 pis1 = proof_binding_digest c2 pis2.
Proof. apply (inj (fmap b2z)). Qed.

End Binding.

(** ** Witness validation *)

Section Witnesses.
Context {HF : HashFns}.

Definition checked (w : MembershipWitness) : CheckedWitness :=
  {| cw_public := mw_public w; cw_leaf_payload := mw_leaf_payload w;
     cw_merkle_path := mw_merkle_path w;
     cw_leaf_hash := leaf_hash_v2 (sub_tree_id (mw_public w)) (leaf_index (mw_public w))
                       (mw_leaf_payload w) |}.

(** What the prover requires of one witness. *)
Definition witness_valid (c : OmegaCommitment) (w : MembershipWitness) : Prop :=
  let p := mw_public w in
  (length (mw_leaf_payload w) <= 34)%nat ∧ input_consistent c p ∧
  (∃ n, item_counts c !! Z.to_nat (sub_tree_id p - 1) = Some n ∧ leaf_index p < n) ∧
  length (mw_merkle_path w) = Z.to_nat (tree_depth p) ∧
  walk node_hash_v2 (leaf_index p) (cw_leaf_hash (checked w)) (mw_merkle_path w) =
    per_sub_tree_root p.

Lemma validate_witness_ok c i w cw :
  wf_commitment c → validate_witness c i w = Ok cw ↔ cw = checked w ∧ witness_valid c w.
Proof.
  intros (_ & [Hr _] & [Hi _] & _ & Hd & Hdu). unfold validate_witness, witness_valid, input_consistent.
  rewrite pr_sub_tree_index_spec, sub_tree_index_spec.
  assert (Hpre : (leaf_preimage_len (length (mw_leaf_payload w)) <=? MAX_V01_LEAF_PREIMAGE_LEN)%nat
    = (length (mw_leaf_payload w) <=? 34)%nat).
  { unfold leaf_preimage_len, MAX_V01_LEAF_PREIMAGE_LEN. rewrite length_DOMAIN_LEAF.
    destruct (Nat.leb_spec (13 + 1 + 8 + 8 + length (mw_leaf_payload w)) 64),
      (Nat.leb_spec (length (mw_leaf_payload w)) 34); done || lia. }
  rewrite Hpre. destruct (Nat.leb_spec (length (mw_leaf_payload w)) 34); [|naive_solver lia].
  case_bool_decide; [|naive_solver]. case_decide as Hid; [|naive_solver]. cbn [ok_or res_bind].
  destruct (slot_lookup _ _ Hr Hid) as [r Er], (slot_lookup _ _ Hd Hid) as [d Ed],
    (slot_lookup _ _ Hi Hid) as [n En].
  rewrite Er, Ed, En. cbn [or_panic res_bind].
  pose proof (list.Forall_lookup_1 _ _ _ _ Hdu Ed) as Hdr. unfold in_range in Hdr.
  destruct (Z.ltb_spec (leaf_index (mw_public w)) n); [|naive_solver lia].
  destruct (Z.leb_spec d 255); [|naive_solver lia]. rewrite Z.mod_small by lia.
  destruct (Z.eqb_spec (tree_depth (mw_public w)) d) as [Ed'|]; [|naive_solver].
  case_bool_decide; [|naive_solver]. cbn [res_bind].
  destruct (Nat.eqb_spec (length (mw_merkle_path w)) (Z.to_nat d)); [|naive_solver].
  unfold walk_v1_path. case_bool_decide as Hw; cycle 1.
  { split; [done|]. intros (_ & _ & _ & _ & _ & E). destruct Hw. cbn in E. congruence. }
  split; [|by intros [-> _]]. intros [= <-]. split; [done|]. subst. naive_solver lia.
Qed.

Lemma validate_witnesses_ok c ws cws :
  wf_commitment c →
  validate_witnesses c ws = Ok cws ↔ cws = checked <$> ws ∧ Forall (witness_valid c) ws.
Proof.
  intros Hc. unfold validate_witnesses. generalize 0%nat. revert cws.
  induction ws as [|w ws IH]; intros cws i; cbn [validate_witnesses_from].
  { split; [by intros [= <-]|by intros [-> _]]. }
  rewrite res_bind_ok. setoid_rewrite res_bind_ok. setoid_rewrite IH.
  setoid_rewrite validate_witness_ok; [|done]. rewrite Forall_cons. naive_solver.
Qed.

End Witnesses.

(** A commitment header whose sub-tree [id] was built from the payloads [ps]. *)
Definition commits `{HashFns} (c : OmegaCommitment) (id : Z) (ps : list bytes) (t : MerkleTree) :
    Prop :=
  1 <= id <= 7 ∧ build_v1 id ps = Ok t ∧
  sub_tree_roots_blake3 c !! Z.to_nat (id - 1) = root t ∧
  item_counts c !! Z.to_nat (id - 1) = Some (Z.of_nat (length ps)) ∧
  tree_depths c !! Z.to_nat (id - 1) = Some (Z.of_nat (depth t)).

Section Theorems.
Context {HF : HashFns} {SV : StarkVerifier}.

Lemma wf_public_roots pis :
  Forall wf_public pis → Forall (λ p, is_hash (per_sub_tree_root p)) pis.
Proof. intros H. eapply list.Forall_impl; [exact H|]. unfold wf_public. tauto. Qed.

Lemma log_depth_bound n : Z.of_nat n < 2 ^ 63 → (log_depth n <= 63)%nat.
Proof.
  intros H. unfold log_depth. apply Nat.log2_up_le_pow2; [lia|].
  enough (Z.of_nat (Nat.max n 1) <= Z.of_nat (2 ^ 63)) by lia. rewrite of_nat_pow2. lia.
Qed.

(** The verifier's field-by-field comparison of an envelope's public
    values accepts exactly the vectors the prover computes from the same
    commitment and public inputs; every other vector, of any length, is an
    [InvalidProof] and no index is out of range. *)
Theorem public_values_check (HL : HashLaws HF) c pis pvs (Hp : Forall wf_public pis) :
  validate_envelope_public_values c pis pvs =
    if decide (pvs = proof_public_values c pis) then Ok () else Err InvalidProof.
Proof. apply validate_public_values_spec. by apply wf_public_roots. Qed.

(** Checking the public inputs never panics; it accepts exactly the lists
    in which every claim names a sub-tree between 1 and 7 together with the
    committed bundle root, sub-tree root and depth; otherwise the error is
    the defect of the first claim that is not consistent, with its index. *)
Theorem validate_public_inputs_spec c pis (Hc : wf_commitment c) :
  match validate_public_inputs c pis with
  | Ok _ => Forall (input_consistent c) pis
  | Err e => ∃ i p, pis !! i = Some p ∧ Forall (input_consistent c) (take i pis) ∧
                    input_defect c i p e ∧ ¬ input_consistent c p
  | Panic => False
  end.
Proof.
  pose proof (validate_public_inputs_from_spec c 0 pis Hc) as H.
  unfold validate_public_inputs. destruct (validate_public_inputs_from c 0 pis); [done| |done].
  destruct H as (i & p & H1 & H2 & H3). exists i, p. repeat (split; [done|]).
  by eapply input_defect_inconsistent.
Qed.

Lemma verify_claim_accepts (HL : HashLaws HF) c pis proof
    (Hc : wf_commitment c) (Hp : Forall wf_public pis) :
  verify_claim c pis proof ≠ Panic ∧
  (verify_claim c pis proof = Ok () ↔
   ∃ e bp, decode_envelope proof = Some e ∧ pe_version e = 2 ∧ pe_commitment e = c ∧
     pe_public_inputs e = pis ∧ Forall (input_consistent c) pis ∧
     pe_public_values e = proof_public_values c pis ∧
     decode_batch_proof (pe_stark_proof e) = Some bp ∧
     length (degree_bits bp) = S (length pis) ∧
     verify_batch (pe_rng_seed e) (proof_airs (length pis)) bp
       (proof_public_values c pis ++ [[]]) = true).
Proof.
  unfold verify_claim. destruct (decode_envelope proof) as [e|]; cbn [ok_or res_bind]; [|naive_solver].
  destruct (Z.eqb_spec (pe_version e) PROOF_ENVELOPE_VERSION) as [Hv|Hv]; [|naive_solver].
  case_bool_decide as Hce; [|naive_solver]. case_bool_decide as Hpe; [|naive_solver].
  pose proof (validate_public_inputs_ok c pis Hc) as Hok.
  pose proof (validate_public_inputs_from_spec c 0 pis Hc) as Hnp.
  fold (validate_public_inputs c pis) in Hnp.
  destruct (validate_public_inputs c pis) as [[]|er|]; cbn [res_bind]; [|naive_solver|done].
  rewrite validate_public_values_spec by (by apply wf_public_roots).
  case_decide as Hpv; cbn [res_bind]; [|naive_solver].
  unfold verify_membership_batch. rewrite Hpe, Hpv.
  destruct (decode_batch_proof _) as [bp|] eqn:Hbp; cbn [ok_or res_bind]; [|naive_solver].
  unfold proof_airs at 1 3. rewrite length_app, length_replicate, Nat.add_comm. cbn [length Nat.add].
  destruct (Nat.eqb_spec (length (degree_bits bp)) (S (length pis))); [|naive_solver].
  destruct (verify_batch _ _ _ _) eqn:Hvb; (split; [done|split; [|try done]]).
  - intros _. exists e, bp. auto 10.
  - done.
  - intros (e' & bp' & [= <-] & _ & _ & _ & _ & _ & Hbp' & _ & Hvb').
    rewrite Hbp in Hbp'. injection Hbp' as <-. congruence.
Qed.


(** A batch proof cannot be moved to other claims.  If one vector of
    public values passes the check for two pairs of a commitment and a
    non-empty list of public inputs, then the pairs are equal, nullifiers
    and recipients included, or the two binding preimages collide. *)
Theorem public_values_binding (HL : HashLaws HF) c1 pis1 c2 pis2 pvs
    (Hc1 : wf_commitment c1) (Hc2 : wf_commitment c2)
    (Hp1 : Forall wf_public pis1) (Hp2 : Forall wf_public pis2)
    (Hl1 : is_u64 (Z.of_nat (length pis1))) (Hne : pvs ≠ [])
    (H1 : validate_envelope_public_values c1 pis1 pvs = Ok ())
    (H2 : validate_envelope_public_values c2 pis2 pvs = Ok ()) :
  (c1 = c2 ∧ pis1 = pis2) ∨
  Collision blake3_256 (proof_binding_preimage c1 pis1, proof_binding_preimage c2 pis2).
Proof.
  rewrite validate_public_values_spec in H1 by (by apply wf_public_roots).
  rewrite validate_public_values_spec in H2 by (by apply wf_public_roots).
  destruct (decide _) as [E1|]; [|done]. destruct (decide _) as [E2|] in H2; [|done]. rewrite E1 in E2, Hne. clear E1 H1 H2.
  assert (Hl : length pis1 = length pis2).
  { apply (f_equal length) in E2. unfold proof_public_values in E2. by rewrite !length_fmap in E2. }
  destruct pis1 as [|p1 pis1], pis2 as [|p2 pis2]; try done.
  unfold proof_public_values in E2. rewrite !fmap_cons in E2. apply cons_eq_cons in E2 as [E _].
  rewrite !public_values_layout in E by (by inversion Hp1; inversion Hp2; unfold wf_public in *; tauto).
  unfold public_layout in E. rewrite !app_assoc in E.
  apply app_eq_len_r in E as [_ E]; [|by rewrite !length_proof_binding_words].
  apply proof_binding_words_inj in E.
  destruct (decide (proof_binding_preimage c1 (p1 :: pis1) = proof_binding_preimage c2 (p2 :: pis2)))
    as [Ep|Ep]; [left|by right].
  apply proof_binding_preimage_inj in Ep; auto. by rewrite <- Hl.
Qed.

(** Soundness of witness validation.  Against a header that commits to
    the tree of [ps], a witness the prover accepts opens the payload stored
    at its sorted index, which is in range, or [open_collision] returns two
    colliding BLAKE3 inputs. *)
Theorem validate_witness_sound (HL : HashLaws HF) c ps t i w cw
    (Hc : wf_commitment c) (Hps : wf_payloads ps) (Hw : wf_public (mw_public w))
    (Hpath : Forall is_hash (mw_merkle_path w))
    (Ht : commits c (sub_tree_id (mw_public w)) ps t)
    (Hok : validate_witness c i w = Ok cw) :
  let id := sub_tree_id (mw_public w) in
  let idx := leaf_index (mw_public w) in
  match open_collision (depth t) (padded_preimages id (stable_sort bytes_le ps)) idx
          (leaf_preimage id idx (mw_leaf_payload w)) (rev (mw_merkle_path w)) with
  | Some x => Collision blake3_256 x
  | None => 0 <= idx < Z.of_nat (length ps) ∧
            stable_sort bytes_le ps !! Z.to_nat idx = Some (mw_leaf_payload w)
  end.
Proof.
  cbn zeta. apply validate_witness_ok in Hok as [_ (Hlen & Hin & (n & Hn & Hlt) & _ & Hwalk)]; [|done].
  destruct Ht as (Hid & Ht & Hr & Hic & _). destruct Hin as (_ & _ & Hroot & _).
  destruct Hw as (Hu8 & Hidx & _).
  assert (n = Z.of_nat (length ps)) as -> by congruence.
  pose proof (v1_opening HL _ _ _ (sub_tree_id (mw_public w)) (leaf_index (mw_public w))
    (mw_leaf_payload w) (mw_merkle_path w) Hu8 Hu8 Hidx Hps ltac:(lia) Hpath Ht) as H.
  rewrite <- Hr, Hroot in H. specialize (H ltac:(by rewrite <- Hwalk)).
  destruct (open_collision _ _ _ _ _); [done|]. unfold in_range in Hidx.
  destruct H as (_ & _ & [[E H]|(E & _)]).
  - split; [lia|]. apply (f_equal Z.to_nat) in E. rewrite Nat2Z.id in E. by rewrite E.
  - destruct Hps as [Hps _]. unfold EMPTY_INDEX_SENTINEL in E. lia.
Qed.

(** Completeness of witness validation.  For every payload of at most 34
    bytes at a sorted position, the path read off the tree exists, has the
    committed depth, and the witness that carries the committed values is
    accepted, whatever the nullifier and the recipient. *)
Theorem validate_witness_complete (HL : HashLaws HF) c id ps t j p null recip i
    (Hc : wf_commitment c) (Hps : wf_payloads ps) (Ht : commits c id ps t)
    (Hj : stable_sort bytes_le ps !! j = Some p) (Hlen : (length p <= 34)%nat) :
  ∃ r sibs, root t = Some r ∧
    sibling_path (take (depth t) (mt_layers t)) (Z.of_nat j) = Some sibs ∧
    is_ok (validate_witness c i
      {| mw_public := {| sub_tree_id := id; leaf_index := Z.of_nat j;
           tree_depth := Z.of_nat (depth t); per_sub_tree_root := r;
           bundle_root_blake3 := oc_bundle_root_blake3 c; nullifier := null;
           recipient_starstream_addr := recip |};
         mw_leaf_payload := p; mw_merkle_path := sibs |}) = true.
Proof.
  destruct Ht as (Hid & Ht & Hr & Hic & Hd).
  destruct (v1_path HL id ps t j _ Ht (padded_preimages_real _ _ _ _ Hj)) as (sibs & Hs & Hl & _ & Hroot).
  eexists _, sibs. split; [exact Hroot|]. split; [done|].
  pose proof (log_depth_bound _ (proj1 Hps)) as Hb.
  rewrite <- (grown_depth _ _ _ _ (build_v1_ok_grown _ _ _ Ht)) in Hb.
  match goal with |- is_ok (validate_witness _ _ ?w) = _ =>
    rewrite (proj2 (validate_witness_ok c i w (checked w) Hc)); [done|] end.
  split; [done|]. unfold witness_valid, input_consistent.
  cbn [mw_public mw_leaf_payload mw_merkle_path sub_tree_id leaf_index tree_depth per_sub_tree_root
    bundle_root_blake3]. rewrite Hr, Hroot, Nat2Z.id.
  split; [done|]. split.
  - repeat (split; [done || lia|]). lia.
  - split; [|done]. eexists. split; [done|]. apply lookup_lt_Some in Hj.
    rewrite stable_sort_length in Hj. lia.
Qed.

End Theorems.

Module ExampleVerifier.

#[local] Existing Instance toy_hashes.

Definition payloads : list bytes := [ascii_bytes "beta"; ascii_bytes "alpha"; ascii_bytes "gamma"].

Definition tree : MerkleTree :=
  match build_v1 1 payloads with Ok t => t | _ => {| mt_leaves := []; mt_layers := [] |} end.

Definition tree_root : bytes := default [] (root tree).

Definition header : OmegaCommitment :=
  {| oc_bundle_root_blake3 := bundle_root (replicate 7 tree_root);
     sub_tree_roots_blake3 := replicate 7 tree_root; item_counts := replicate 7 3;
     leaf_counts := replicate 7 4; tree_depths := replicate 7 2 |}.

Definition public : ClaimPublicInputs :=
  {| sub_tree_id := 1; leaf_index := 2; tree_depth := 2; per_sub_tree_root := tree_root;
     bundle_root_blake3 := oc_bundle_root_blake3 header; nullifier := replicate 32 Byte.x01;
     recipient_starstream_addr := replicate 32 Byte.x02 |}.

Definition witness : MembershipWitness :=
  {| mw_public := public; mw_leaf_payload := ascii_bytes "gamma";
     mw_merkle_path := default [] (sibling_path (take 2 (mt_layers tree)) 2) |}.

Definition envelope : ProofEnvelope :=
  {| pe_version := 2; pe_rng_seed := 1; pe_commitment := header; pe_public_inputs := [public];
     pe_public_values := proof_public_values header [public]; pe_stark_proof := [] |}.

(** A verifier that reads every non-empty string as [envelope]. *)
#[local] Instance toy_stark : StarkVerifier :=
  {| BatchProof := list Z;
     decode_envelope x := match x with [] => None | _ => Some envelope end;
     decode_batch_proof _ := Some [3; 3];
     degree_bits bp := bp;
     verify_batch _ airs _ pvs := Nat.eqb (length airs) (length pvs) |}.

Lemma header_wf : wf_commitment header.
Proof. by_compute. Qed.

Lemma public_wf : Forall wf_public [public].
Proof. constructor; [|done]. repeat split; by_compute. Qed.

Lemma header_commits : commits header 1 payloads tree.
Proof. split; [lia|]. repeat split; vm_compute; reflexivity. Qed.

Lemma public_values_check_witness :
  validate_envelope_public_values header [public] (pe_public_values envelope) = Ok ().
Proof. rewrite (public_values_check toy_hash_laws _ _ _ public_wf). by rewrite decide_True. Defined.

Lemma validate_public_inputs_spec_witness : Forall (input_consistent header) [public].
Proof.
  pose proof (validate_public_inputs_spec header [public] header_wf) as H.
  assert (E : validate_public_inputs header [public] = Ok ()) by (vm_compute; reflexivity).
  rewrite E in H. exact H.
Defined.


Lemma public_values_binding_witness :
  (header = header ∧ [public] = [public]) ∨
  Collision blake3_256 (proof_binding_preimage header [public], proof_binding_preimage header [public]).
Proof.
  apply (public_values_binding toy_hash_laws header [public] header [public]
    (proof_public_values header [public])); try exact header_wf; try exact public_wf;
    try (vm_compute; done).
Defined.

Lemma validate_witness_sound_witness :
  match open_collision (depth tree) (padded_preimages 1 (stable_sort bytes_le payloads)) 2
          (leaf_preimage 1 2 (ascii_bytes "gamma")) (rev (mw_merkle_path witness)) with
  | Some x => Collision blake3_256 x
  | None => 0 <= 2 < Z.of_nat (length payloads) ∧
            stable_sort bytes_le payloads !! Z.to_nat 2 = Some (ascii_bytes "gamma")
  end.
Proof.
  apply (validate_witness_sound toy_hash_laws header payloads tree 0 witness (checked witness)
    header_wf); [by_compute|exact (Forall_inv public_wf)|by_compute|exact header_commits|].
  vm_compute. reflexivity.
Defined.

Lemma validate_witness_complete_witness :
  ∃ r sibs, root tree = Some r ∧
    sibling_path (take (depth tree) (mt_layers tree)) 1 = Some sibs ∧
    is_ok (validate_witness header 0
      {| mw_public := {| sub_tree_id := 1; leaf_index := 1; tree_depth := Z.of_nat (depth tree);
           per_sub_tree_root := r; bundle_root_blake3 := oc_bundle_root_blake3 header;
           nullifier := []; recipient_starstream_addr := [] |};
         mw_leaf_payload := ascii_bytes "beta"; mw_merkle_path := sibs |}) = true.
Proof.
  apply (validate_witness_complete toy_hash_laws header 1 payloads tree 1 (ascii_bytes "beta") [] [] 0
    header_wf); [by_compute|exact header_commits|vm_compute; reflexivity|by_compute].
Defined.

End ExampleVerifier.
