(* ===== verification/Blake3.v ===== *)
(** * The BLAKE3 compression function and its trace rows

    [omega-claim-prover/src/blake3_trace.rs]: the compression function, the
    compressions of a leaf and of a node hash, and the generation of the rows
    of the BLAKE3 trace.  A [u32] word is a [Z] with the wrap-around written
    out; arrays are lists of their fixed length; a row is a list of canonical
    field elements.

    [chunk_hash] is the BLAKE3 specification for inputs of one chunk, written
    with the program's compression function; [Blake3Laws] says that the
    [blake3] crate implements it. *)

From S2P Require Import Prelude Hash Tree.
From Stdlib Require Import ZArith Lia List String.
From stdpp Require Import base decidable list.

Local Open Scope Z_scope.

(** ** Words *)

Definition wrapping_add (a b : Z) : Z := (a + b) mod 2 ^ 32.

Definition rotate_right (x n : Z) : Z :=
  Z.lor (Z.shiftr x n) (Z.shiftl x (32 - n) mod 2 ^ 32).

(** [to_le_bytes] and [from_le_bytes] of a [u32]. *)
Definition le_bytes (n : nat) (z : Z) : bytes := rev (be_bytes n z).
Definition le_val (bs : bytes) : Z := be_val (rev bs).

(** ** Constants *)

Definition CHUNK_START : Z := 1.
Definition CHUNK_END : Z := 2.
Definition ROOT : Z := 8.
Definition LEAF_FLAGS : Z := Z.lor (Z.lor CHUNK_START CHUNK_END) ROOT.
Definition NODE_FIRST_FLAGS : Z := CHUNK_START.
Definition NODE_SECOND_FLAGS : Z := Z.lor CHUNK_END ROOT.
Definition DUMMY_FLAGS : Z := 0.

Definition IV : list Z :=
  [0x6A09E667; 0xBB67AE85; 0x3C6EF372; 0xA54FF53A; 0x510E527F; 0x9B05688C; 0x1F83D9AB; 0x5BE0CD19].

Definition MSG_PERMUTATION : list nat :=
  [2; 6; 3; 10; 7; 0; 4; 13; 1; 11; 12; 5; 9; 14; 15; 8]%nat.

Definition BITS_PER_WORD : nat := 32.
Definition BYTES_PER_WORD : nat := 4.
Definition BLOCK_BYTES : nat := 64.
Definition CV_BYTES : nat := 32.
Definition COUNTER_BYTES : nat := 8.
Definition U32_BYTES : nat := 4.
Definition COMPRESSION_LOOKUP_WIDTH : nat :=
  (BLOCK_BYTES + CV_BYTES + COUNTER_BYTES + U32_BYTES + U32_BYTES + CV_BYTES)%nat.

Definition B3_INPUTS_OFFSET : nat := 0.
Definition B3_CHAINING_VALUES_OFFSET : nat := (B3_INPUTS_OFFSET + 16 * BITS_PER_WORD)%nat.
Definition B3_COUNTER_LOW_OFFSET : nat := (B3_CHAINING_VALUES_OFFSET + 8 * BITS_PER_WORD)%nat.
Definition B3_COUNTER_HI_OFFSET : nat := (B3_COUNTER_LOW_OFFSET + BITS_PER_WORD)%nat.
Definition B3_BLOCK_LEN_OFFSET : nat := (B3_COUNTER_HI_OFFSET + BITS_PER_WORD)%nat.
Definition B3_FLAGS_OFFSET : nat := (B3_BLOCK_LEN_OFFSET + BITS_PER_WORD)%nat.
Definition B3_INITIAL_ROW0_OFFSET : nat := (B3_FLAGS_OFFSET + BITS_PER_WORD)%nat.
Definition B3_INITIAL_ROW2_OFFSET : nat := (B3_INITIAL_ROW0_OFFSET + 8)%nat.
Definition B3_FULL_ROUNDS_OFFSET : nat := (B3_INITIAL_ROW2_OFFSET + 8)%nat.
Definition B3_STATE_WIDTH : nat := (8 + 128 + 8 + 128)%nat.
Definition B3_FULL_ROUND_WIDTH : nat := (B3_STATE_WIDTH * 4)%nat.
Definition B3_FINAL_HELPERS_OFFSET : nat := (B3_FULL_ROUNDS_OFFSET + B3_FULL_ROUND_WIDTH * 7)%nat.
Definition B3_OUTPUTS_OFFSET : nat := (B3_FINAL_HELPERS_OFFSET + 4 * BITS_PER_WORD)%nat.
Definition NUM_BLAKE3_COLS : nat := (B3_OUTPUTS_OFFSET + 16 * BITS_PER_WORD)%nat.

(** ** Compression *)

Record Compression := {
  block_words : list Z;
  cv_words : list Z;
  counter : Z;
  block_len : Z;
  flags : Z;
  output_words : list Z
}.

Definition g (state : list Z) (a b c d : nat) (mx my : Z) : list Z :=
  let state := <[a := wrapping_add (wrapping_add (state !!! a) (state !!! b)) mx]> state in
  let state := <[d := rotate_right (Z.lxor (state !!! d) (state !!! a)) 16]> state in
  let state := <[c := wrapping_add (state !!! c) (state !!! d)]> state in
  let state := <[b := rotate_right (Z.lxor (state !!! b) (state !!! c)) 12]> state in
  let state := <[a := wrapping_add (wrapping_add (state !!! a) (state !!! b)) my]> state in
  let state := <[d := rotate_right (Z.lxor (state !!! d) (state !!! a)) 8]> state in
  let state := <[c := wrapping_add (state !!! c) (state !!! d)]> state in
  <[b := rotate_right (Z.lxor (state !!! b) (state !!! c)) 7]> state.

Definition round (state m : list Z) : list Z :=
  let state := g state 0 4 8 12 (m !!! 0%nat) (m !!! 1%nat) in
  let state := g state 1 5 9 13 (m !!! 2%nat) (m !!! 3%nat) in
  let state := g state 2 6 10 14 (m !!! 4%nat) (m !!! 5%nat) in
  let state := g state 3 7 11 15 (m !!! 6%nat) (m !!! 7%nat) in
  let state := g state 0 5 10 15 (m !!! 8%nat) (m !!! 9%nat) in
  let state := g state 1 6 11 12 (m !!! 10%nat) (m !!! 11%nat) in
  let state := g state 2 7 8 13 (m !!! 12%nat) (m !!! 13%nat) in
  g state 3 4 9 14 (m !!! 14%nat) (m !!! 15%nat).

Definition permute (m : list Z) : list Z := (λ i, m !!! i) <$> MSG_PERMUTATION.

(** [for _ in 0..n { round(&mut state, &m_vec); permute(&mut m_vec) }]. *)
Fixpoint rounds (n : nat) (state m : list Z) : list Z :=
  match n with
  | O => state
  | S n' => rounds n' (round state m) (permute m)
  end.

(** One step of the final loop over [i]. *)
Definition finalize_word (cv : list Z) (state : list Z) (i : nat) : list Z :=
  let state := <[i := Z.lxor (state !!! i) (state !!! (i + 8)%nat)]> state in
  <[(i + 8)%nat := Z.lxor (state !!! (i + 8)%nat) (cv !!! i)]> state.

Definition initial_state (cv : list Z) (counter block_len flags : Z) : list Z :=
  take 8 cv ++ take 4 IV ++ [counter mod 2 ^ 32; Z.shiftr counter 32 mod 2 ^ 32; block_len; flags].

Definition compress (block_words cv_words : list Z) (counter block_len flags : Z) : list Z :=
  let state := rounds 7 (initial_state cv_words counter block_len flags) block_words in
  foldl (finalize_word cv_words) state (seq 0 8).

Definition compression (block_words cv_words : list Z) (counter block_len flags : Z) : Compression :=
  {| block_words := block_words; cv_words := cv_words; counter := counter;
     block_len := block_len; flags := flags;
     output_words := take 8 (compress block_words cv_words counter block_len flags) |}.

(** [block_words]: sixteen little-endian words of a 64-byte block. *)
Definition words_of_block (block : bytes) : list Z :=
  (λ i, le_val (take 4 (drop (i * BYTES_PER_WORD)%nat block))) <$> seq 0 16.

Definition hash_from_words (words : list Z) : bytes := concat (le_bytes 4 <$> words).

(** A block buffer of zeros whose prefix was overwritten with [data]. *)
Definition zero_padded (data : bytes) : bytes :=
  data ++ replicate (BLOCK_BYTES - length data) Byte.x00.

Definition leaf_compression (sub_tree_id leaf_index : Z) (payload : bytes) : Compression :=
  let block := zero_padded (DOMAIN_LEAF ++ [z2b sub_tree_id] ++ be_bytes 8 leaf_index ++
                 be_bytes 8 (Z.of_nat (length payload)) ++ payload) in
  let block_len := Z.of_nat (length DOMAIN_LEAF + 1 + 8 + 8 + length payload) in
  compression (words_of_block block) IV 0 block_len LEAF_FLAGS.

Definition node_compressions (left right : bytes) : Compression * Compression :=
  let preimage := DOMAIN_NODE ++ left ++ right in
  let first := compression (words_of_block (take BLOCK_BYTES preimage)) IV 0
                 (Z.of_nat BLOCK_BYTES) NODE_FIRST_FLAGS in
  let second := compression (words_of_block (zero_padded (drop BLOCK_BYTES preimage)))
                  (output_words first) 0 (Z.of_nat (length preimage - BLOCK_BYTES))
                  NODE_SECOND_FLAGS in
  (first, second).

(** ** Rows *)

(** [row[offset..offset + vals.len()].copy_from_slice(vals)]. *)
Definition write_at (row : list Z) (offset : nat) (vals : list Z) : list Z :=
  take offset row ++ vals ++ drop (offset + length vals) row.

(** [u32_to_bits_le]. *)
Definition bits_le (value : Z) : list Z :=
  (λ i, Z.b2z (Z.testbit value (Z.of_nat i))) <$> seq 0 32.

Definition write_bits (row : list Z) (offset : nat) (value : Z) : list Z :=
  write_at row offset (bits_le value).

Definition write_limbs (row : list Z) (offset : nat) (value : Z) : list Z :=
  let row := write_at row offset [value mod 2 ^ 16] in
  write_at row (offset + 1)%nat [Z.shiftr value 16 mod 2 ^ 16].

(** A loop [for (i, w) in words.iter().enumerate()] over row writes. *)
Fixpoint write_each (f : list Z → nat → Z → list Z) (row : list Z) (i : nat) (words : list Z) : list Z :=
  match words with
  | [] => row
  | w :: words' => write_each f (f row i w) (S i) words'
  end.

Definition verifiable_half_round (a b c d m : Z) (flag : bool) : Z * Z * Z * Z :=
  let '(rot_1, rot_2) := if flag then (8, 7) else (16, 12) in
  let a := wrapping_add a b in
  let a := wrapping_add a m in
  let d := rotate_right (Z.lxor d a) rot_1 in
  let c := wrapping_add c d in
  let b := rotate_right (Z.lxor b c) rot_2 in
  (a, b, c, d).

(** [state[r][j]] of the four-by-four state. *)
Definition at_ (state : list (list Z)) (r j : nat) : Z := (state !!! r) !!! j.

Definition set_ (state : list (list Z)) (r j : nat) (v : Z) : list (list Z) :=
  <[r := <[j := v]> (state !!! r)]> state.

(** One half round on the columns [i], [i+s], [i+2s], [i+3s] modulo 4: [s] is
    0 in the column step and 1 in the diagonal step. *)
Definition half_step (s : nat) (m : nat → Z) (flag : bool) (state : list (list Z)) (i : nat) :
    list (list Z) :=
  let j1 := ((i + s) mod 4)%nat in
  let j2 := ((i + 2 * s) mod 4)%nat in
  let j3 := ((i + 3 * s) mod 4)%nat in
  let '(a, b, c, d) := verifiable_half_round (at_ state 0 i) (at_ state 1 j1) (at_ state 2 j2)
                         (at_ state 3 j3) (m i) flag in
  set_ (set_ (set_ (set_ state 0 i a) 1 j1 b) 2 j2 c) 3 j3 d.

Definition save_state (row : list Z) (offset : nat) (state : list (list Z)) : list Z :=
  foldl (λ row i,
    let row := write_limbs row (offset + i * 2)%nat (at_ state 0 i) in
    let row := write_bits row (offset + 8 + i * BITS_PER_WORD)%nat (at_ state 1 i) in
    let row := write_limbs row (offset + 8 + 128 + i * 2)%nat (at_ state 2 i) in
    write_bits row (offset + 8 + 128 + 8 + i * BITS_PER_WORD)%nat (at_ state 3 i)) row (seq 0 4).

Definition fill_round (row : list Z) (round_offset : nat) (state : list (list Z)) (m : list Z) :
    list Z * list (list Z) :=
  let state := foldl (half_step 0 (λ i, m !!! (2 * i)%nat) false) state (seq 0 4) in
  let row := save_state row round_offset state in
  let state := foldl (half_step 0 (λ i, m !!! (2 * i + 1)%nat) true) state (seq 0 4) in
  let row := save_state row (round_offset + B3_STATE_WIDTH)%nat state in
  let state := foldl (half_step 1 (λ i, m !!! (8 + 2 * i)%nat) false) state (seq 0 4) in
  let row := save_state row (round_offset + B3_STATE_WIDTH * 2)%nat state in
  let state := foldl (half_step 1 (λ i, m !!! (9 + 2 * i)%nat) true) state (seq 0 4) in
  (save_state row (round_offset + B3_STATE_WIDTH * 3)%nat state, state).

(** [for round_index in 0..7 { fill_round(..); permute(&mut m_vec) }]. *)
Fixpoint fill_rounds (n round_index : nat) (row : list Z) (state : list (list Z)) (m : list Z) :
    list Z * list (list Z) :=
  match n with
  | O => (row, state)
  | S n' =>
      let '(row, state) := fill_round row (B3_FULL_ROUNDS_OFFSET + round_index * B3_FULL_ROUND_WIDTH)%nat
                             state m in
      fill_rounds n' (S round_index) row state (permute m)
  end.

(** The message, the chaining value, the counter, the block length and the
    flags, as bits. *)
Definition write_inputs (row : list Z) (c : Compression) : list Z :=
  let row := write_each (λ row i w, write_bits row (B3_INPUTS_OFFSET + i * BITS_PER_WORD)%nat w)
               row 0 (block_words c) in
  let row := write_each (λ row i w, write_bits row (B3_CHAINING_VALUES_OFFSET + i * BITS_PER_WORD)%nat w)
               row 0 (cv_words c) in
  let row := write_bits row B3_COUNTER_LOW_OFFSET (counter c mod 2 ^ 32) in
  let row := write_bits row B3_COUNTER_HI_OFFSET (Z.shiftr (counter c) 32 mod 2 ^ 32) in
  let row := write_bits row B3_BLOCK_LEN_OFFSET (block_len c) in
  write_bits row B3_FLAGS_OFFSET (flags c).

(** The rows 0 and 2 of the initial state, as limbs. *)
Definition write_initial_rows (row cv : list Z) : list Z :=
  foldl (λ row i,
    let row := write_limbs row (B3_INITIAL_ROW0_OFFSET + i * 2)%nat (cv !!! i) in
    write_limbs row (B3_INITIAL_ROW2_OFFSET + i * 2)%nat (IV !!! i)) row (seq 0 4).

(** The sixteen output words, in the order in which the loop writes them. *)
Definition write_outputs (base : nat) (row : list Z) (state : list (list Z)) (cv : list Z) : list Z :=
  foldl (λ row i,
    let s := λ r, at_ state r i in
    let row := write_bits row (base + i * BITS_PER_WORD)%nat (Z.lxor (s 0%nat) (s 2%nat)) in
    let row := write_bits row (base + (4 + i) * BITS_PER_WORD)%nat (Z.lxor (s 1%nat) (s 3%nat)) in
    let row := write_bits row (base + (8 + i) * BITS_PER_WORD)%nat (Z.lxor (s 2%nat) (cv !!! i)) in
    write_bits row (base + (12 + i) * BITS_PER_WORD)%nat (Z.lxor (s 3%nat) (cv !!! (4 + i)%nat)))
    row (seq 0 4).

(** The four-by-four state a row starts from. *)
Definition row_state (c : Compression) : list (list Z) :=
  [take 4 (cv_words c); take 4 (drop 4 (cv_words c)); take 4 IV;
   [counter c mod 2 ^ 32; Z.shiftr (counter c) 32 mod 2 ^ 32; block_len c; flags c]].

Definition fill_trace_row (row : list Z) (c : Compression) : list Z :=
  let row := write_inputs row c in
  let row := write_initial_rows row (cv_words c) in
  let '(row, state) := fill_rounds 7 0 row (row_state c) (block_words c) in
  let row := write_each (λ row i w, write_bits row (B3_FINAL_HELPERS_OFFSET + i * BITS_PER_WORD)%nat w)
               row 0 (state !!! 2%nat) in
  write_outputs B3_OUTPUTS_OFFSET row state (cv_words c).

Definition zero_row (width : nat) : list Z := replicate width 0.

(** One row per compression; when there is none, the first row stays zero. *)
Definition build_blake3_trace (compressions : list Compression) : list (list Z) :=
  let real_rows := Nat.max (length compressions) 1 in
  let height := next_power_of_two real_rows in
  let dummy := compression (replicate 16 0) IV 0 0 DUMMY_FLAGS in
  (fill_trace_row (zero_row NUM_BLAKE3_COLS) <$> compressions) ++
  replicate (real_rows - length compressions) (zero_row NUM_BLAKE3_COLS) ++
  replicate (height - real_rows) (fill_trace_row (zero_row NUM_BLAKE3_COLS) dummy).

(** ** BLAKE3 on one chunk *)

(** The blocks of a chunk after the first: the last block sets [CHUNK_END]
    and [ROOT], and [start] is [CHUNK_START] for the first block only. *)
Fixpoint chunk_blocks (fuel : nat) (cv : list Z) (start : Z) (x : bytes) : list Z :=
  let block k := compress (words_of_block (zero_padded (take BLOCK_BYTES x))) cv 0
                   (Z.of_nat (Nat.min BLOCK_BYTES (length x))) k in
  match fuel with
  | O => cv
  | S fuel' =>
      if (length x <=? BLOCK_BYTES)%nat
      then take 8 (block (Z.lor start (Z.lor CHUNK_END ROOT)))
      else chunk_blocks fuel' (take 8 (block start)) 0 (drop BLOCK_BYTES x)
  end.

(** Fuel: one unit per block. *)
Definition chunk_hash (x : bytes) : bytes :=
  hash_from_words (chunk_blocks (S (length x)) IV CHUNK_START x).

(** The [blake3] crate hashes inputs of at most one 1024-byte chunk as the
    BLAKE3 specification says. *)
Class Blake3Laws (HF : HashFns) : Prop := {
  blake3_one_chunk : ∀ x, (length x <= 1024)%nat → blake3_hash x = chunk_hash x
}.
