(* ===== verification/Blake3Spec.v ===== *)
(** * Specification of the BLAKE3 part

    The compressions of a leaf and of a node compute the tree's hashes; the
    round function used to fill trace rows agrees with the compression
    function; the cells of a filled row that the lookup reads hold the bits of
    the compression's inputs and outputs. *)

From S2P Require Import Prelude Hash Tree TreeSpec Blake3.
From Stdlib Require Import ZArith Lia List String.
From stdpp Require Import base decidable list.

Local Open Scope Z_scope.

(** ** Little-endian words *)

Lemma length_le_bytes n z : length (le_bytes n z) = n.
Proof. unfold le_bytes. by rewrite length_rev, length_be_bytes. Qed.

#[export] Hint Rewrite length_le_bytes : lengths.

Lemma le_bytes_le_val bs : le_bytes (length bs) (le_val bs) = bs.
Proof.
  unfold le_bytes, le_val. rewrite <- (length_rev bs), be_bytes_be_val. apply rev_involutive.
Qed.

Lemma le_val_le_bytes n z : 0 <= z < 256 ^ Z.of_nat n → le_val (le_bytes n z) = z.
Proof.
  intros H. unfold le_bytes, le_val. rewrite rev_involutive. by apply be_val_be_bytes_small.
Qed.

Lemma le_val_range bs : 0 <= le_val bs < 256 ^ Z.of_nat (length bs).
Proof. unfold le_val. rewrite <- (length_rev bs). apply be_val_range. Qed.

Lemma le_bytes_S n z : le_bytes (S n) z = z2b z :: le_bytes n (z / 256).
Proof.
  unfold le_bytes. revert z. induction n as [|n IH]; intros z.
  { unfold be_bytes. cbn. by rewrite Z.div_1_r. }
  change (be_bytes (S (S n)) z) with (z2b (z / 256 ^ Z.of_nat (S n)) :: be_bytes (S n) z).
  cbn [rev]. rewrite IH. rewrite <- app_comm_cons. f_equal.
  change (be_bytes (S n) (z / 256)) with (z2b (z / 256 / 256 ^ Z.of_nat n) :: be_bytes n (z / 256)).
  cbn [rev]. rewrite Z.div_div by lia. repeat f_equal.
  by rewrite Nat2Z.inj_succ, Z.pow_succ_r by lia.
Qed.

Lemma hash_from_words_app a b : hash_from_words (a ++ b) = hash_from_words a ++ hash_from_words b.
Proof. unfold hash_from_words. by rewrite fmap_app, concat_app. Qed.

Lemma length_hash_from_words ws : length (hash_from_words ws) = (4 * length ws)%nat.
Proof.
  unfold hash_from_words. induction ws as [|w ws IH]; [done|].
  rewrite fmap_cons. cbn [concat]. rewrite length_app, length_le_bytes, IH. cbn. lia.
Qed.

(** The bytes of the words of a block are the block. *)
Lemma words_of_block_bytes block :
  length block = 64%nat → hash_from_words (words_of_block block) = block.
Proof.
  intros H. unfold words_of_block.
  enough (∀ n k, (n * 4 + k * 4 = 64)%nat →
    hash_from_words ((λ i, le_val (take 4 (drop (i * BYTES_PER_WORD)%nat block))) <$> seq n k)
    = drop (n * 4) block) as E by (rewrite (E 0%nat 16%nat eq_refl); apply drop_0).
  intros n k. revert n. induction k as [|k IH]; intros n Hn.
  { rewrite drop_ge by lia. done. }
  cbn [seq]. rewrite fmap_cons. change (?a :: ?l) with ([a] ++ l) at 1.
  rewrite hash_from_words_app, IH by lia. unfold hash_from_words. cbn [fmap list_fmap concat].
  rewrite app_nil_r. unfold BYTES_PER_WORD.
  assert (Hl : length (take 4 (drop (n * 4) block)) = 4%nat) by (rewrite length_take, length_drop; lia).
  pose proof (le_bytes_le_val (take 4 (drop (n * 4) block))) as E. rewrite Hl in E. rewrite E.
  replace (S n * 4)%nat with (n * 4 + 4)%nat by lia. rewrite <- drop_drop. apply take_drop.
Qed.

Lemma length_words_of_block block : length (words_of_block block) = 16%nat.
Proof. done. Qed.

Lemma words_of_block_u32 block : Forall is_u32 (words_of_block block).
Proof.
  apply Forall_fmap, list.Forall_forall. intros i _. cbn.
  pose proof (le_val_range (take 4 (drop (i * BYTES_PER_WORD) block))) as H.
  assert (256 ^ Z.of_nat (length (take 4 (drop (i * BYTES_PER_WORD) block))) <= 256 ^ 4).
  { apply Z.pow_le_mono_r; [lia|]. rewrite length_take. lia. }
  unfold in_range. change (2 ^ 32) with (256 ^ 4). lia.
Qed.

Lemma length_zero_padded x : (length x <= 64)%nat → length (zero_padded x) = 64%nat.
Proof. intros H. unfold zero_padded, BLOCK_BYTES. rewrite length_app, length_replicate. lia. Qed.

Lemma zero_padded_full x : length x = 64%nat → zero_padded x = x.
Proof. intros H. unfold zero_padded, BLOCK_BYTES. rewrite H. apply app_nil_r. Qed.

(** ** Hashes of leaves and nodes *)

Lemma chunk_hash_one_block x :
  (length x <= 64)%nat →
  chunk_hash x = hash_from_words (take 8 (compress (words_of_block (zero_padded x)) IV 0
                   (Z.of_nat (length x)) LEAF_FLAGS)).
Proof.
  intros H. unfold chunk_hash. cbn [chunk_blocks].
  rewrite (proj2 (Nat.leb_le _ _)) by exact H. unfold BLOCK_BYTES.
  by rewrite (take_ge x), Nat.min_r by done.
Qed.

Lemma chunk_hash_two_blocks x :
  (64 < length x <= 128)%nat →
  chunk_hash x =
    hash_from_words (take 8 (compress (words_of_block (zero_padded (drop 64 x)))
      (take 8 (compress (words_of_block (take 64 x)) IV 0 64 CHUNK_START))
      0 (Z.of_nat (length x - 64)) NODE_SECOND_FLAGS)).
Proof.
  intros H. unfold chunk_hash. destruct (length x) as [|n] eqn:E; [lia|]. cbn [chunk_blocks].
  rewrite E. unfold BLOCK_BYTES.
  rewrite (proj2 (Nat.leb_gt _ _)) by lia. rewrite length_drop, E.
  rewrite (proj2 (Nat.leb_le _ _)) by lia.
  rewrite Nat.min_l, (Nat.min_r 64) by lia.
  rewrite (take_ge (drop 64 x)) by (rewrite length_drop; lia).
  by rewrite (zero_padded_full (take 64 x)) by (rewrite length_take; lia).
Qed.

Section Hashes.
Context {HF : HashFns}.

Lemma length_leaf_preimage id idx payload :
  length (leaf_preimage id idx payload) = (30 + length payload)%nat.
Proof.
  unfold leaf_preimage. rewrite !length_app, !length_be_bytes, length_DOMAIN_LEAF. cbn. lia.
Qed.

Lemma leaf_compression_chunk id idx payload :
  (length payload <= 34)%nat →
  hash_from_words (output_words (leaf_compression id idx payload)) =
    chunk_hash (leaf_preimage id idx payload).
Proof.
  intros H. rewrite chunk_hash_one_block by (rewrite length_leaf_preimage; lia).
  rewrite length_leaf_preimage. done.
Qed.

Lemma node_compressions_chunk l r :
  is_hash l → is_hash r →
  hash_from_words (output_words (node_compressions l r).2) = chunk_hash (node_preimage l r).
Proof.
  unfold is_hash. intros Hl Hr.
  assert (E : length (node_preimage l r) = 77%nat).
  { unfold node_preimage. rewrite !length_app, Hl, Hr. done. }
  rewrite chunk_hash_two_blocks, E by lia.
  unfold node_compressions. cbn [snd output_words compression]. fold (node_preimage l r). by rewrite E.
Qed.

Context {BL : Blake3Laws HF}.

Lemma leaf_compression_leaf_hash id idx payload :
  (length payload <= 34)%nat →
  hash_from_words (output_words (leaf_compression id idx payload)) = leaf_hash_v2 id idx payload.
Proof.
  intros H. rewrite leaf_compression_chunk by done. unfold leaf_hash_v2, blake3_256.
  rewrite blake3_one_chunk; [done|]. rewrite length_leaf_preimage. lia.
Qed.

Lemma node_compressions_node_hash l r :
  is_hash l → is_hash r →
  hash_from_words (output_words (node_compressions l r).2) = node_hash_v2 l r.
Proof.
  intros Hl Hr. rewrite node_compressions_chunk by done. unfold node_hash_v2, blake3_256.
  rewrite blake3_one_chunk; [done|]. unfold node_preimage, is_hash in *.
  rewrite !length_app, Hl, Hr. cbn. lia.
Qed.

End Hashes.

(** The round functions keep sixteen words. *)
Lemma length_g state a b c d mx my : length (g state a b c d mx my) = length state.
Proof. unfold g. cbv zeta. by rewrite !length_insert. Qed.

Lemma length_round state m : length (round state m) = length state.
Proof. unfold round. cbv zeta. by rewrite !length_g. Qed.

Lemma length_rounds n state m : length (rounds n state m) = length state.
Proof.
  revert state m. induction n as [|n IH]; intros state m; [done|]. cbn [rounds].
  by rewrite IH, length_round.
Qed.

Lemma length_compress bw cv ctr len fl :
  length cv = 8%nat → length (compress bw cv ctr len fl) = 16%nat.
Proof.
  intros H. unfold compress.
  assert (E : length (rounds 7 (initial_state cv ctr len fl) bw) = 16%nat).
  { rewrite length_rounds. unfold initial_state. rewrite !length_app, length_take, H. done. }
  revert E. generalize (rounds 7 (initial_state cv ctr len fl) bw) (seq 0 8). intros st l.
  revert st. induction l as [|i l IH]; intros st E; [done|]. cbn [foldl]. apply IH.
  unfold finalize_word. by rewrite !length_insert.
Qed.

(** ** The two round functions *)

(** A state of four rows of four words. *)
Definition is_square (state : list (list Z)) : Prop :=
  length state = 4%nat ∧ Forall (λ r, length r = 4%nat) state.

Lemma is_square_inv state :
  is_square state → ∃ a b c d, state = [a; b; c; d] ∧
    length a = 4%nat ∧ length b = 4%nat ∧ length c = 4%nat ∧ length d = 4%nat.
Proof.
  intros [H Hf]. destruct state as [|a [|b [|c [|d [|]]]]]; try discriminate.
  rewrite !Forall_cons in Hf. exists a, b, c, d. tauto.
Qed.

Lemma list4 {A} (l : list A) : length l = 4%nat → ∃ a b c d, l = [a; b; c; d].
Proof. intros H. destruct l as [|a [|b [|c [|d [|]]]]]; try discriminate. by exists a, b, c, d. Qed.

(** Filling one round of a row advances the state as [round] does. *)
Lemma fill_round_round row off state m :
  is_square state →
  is_square (fill_round row off state m).2 ∧
  concat (fill_round row off state m).2 = round (concat state) m.
Proof.
  intros (a & b & c & d & -> & Ha & Hb & Hc & Hd)%is_square_inv.
  apply list4 in Ha as (a0 & a1 & a2 & a3 & ->), Hb as (b0 & b1 & b2 & b3 & ->),
    Hc as (c0 & c1 & c2 & c3 & ->), Hd as (d0 & d1 & d2 & d3 & ->).
  unfold fill_round. cbn [snd].
  split; [split; [reflexivity|]|].
  - lazy -[wrapping_add rotate_right Z.lxor]. repeat constructor.
  - lazy -[wrapping_add rotate_right Z.lxor]. reflexivity.
Qed.

Lemma fill_rounds_rounds n k row state m :
  is_square state →
  is_square (fill_rounds n k row state m).2 ∧
  concat (fill_rounds n k row state m).2 = rounds n (concat state) m.
Proof.
  revert k row state m. induction n as [|n IH]; intros k row state m Hs; [done|].
  cbn [fill_rounds rounds].
  destruct (fill_round_round row (B3_FULL_ROUNDS_OFFSET + k * B3_FULL_ROUND_WIDTH) state m Hs) as [Hs' E].
  destruct (fill_round _ _ _ _) as [row' state']. cbn [snd] in *. rewrite <- E. by apply IH.
Qed.

(** The words written to the output cells, from the final state of a row. *)
Definition row_outputs (state : list (list Z)) (cv : list Z) : list Z :=
  ((λ i, Z.lxor (at_ state 0 i) (at_ state 2 i)) <$> seq 0 4) ++
  ((λ i, Z.lxor (at_ state 1 i) (at_ state 3 i)) <$> seq 0 4) ++
  ((λ i, Z.lxor (at_ state 2 i) (cv !!! i)) <$> seq 0 4) ++
  ((λ i, Z.lxor (at_ state 3 i) (cv !!! (4 + i)%nat)) <$> seq 0 4).

Lemma row_outputs_finalize state cv :
  is_square state → row_outputs state cv = foldl (finalize_word cv) (concat state) (seq 0 8).
Proof.
  intros (a & b & c & d & -> & Ha & Hb & Hc & Hd)%is_square_inv.
  apply list4 in Ha as (a0 & a1 & a2 & a3 & ->), Hb as (b0 & b1 & b2 & b3 & ->),
    Hc as (c0 & c1 & c2 & c3 & ->), Hd as (d0 & d1 & d2 & d3 & ->).
  lazy -[Z.lxor]. reflexivity.
Qed.

Lemma row_outputs_compress c k row :
  length (cv_words c) = 8%nat →
  row_outputs (fill_rounds 7 k row (row_state c) (block_words c)).2 (cv_words c) =
    compress (block_words c) (cv_words c) (counter c) (block_len c) (flags c).
Proof.
  intros Hcv. destruct (fill_rounds_rounds 7 k row (row_state c) (block_words c)) as [Hs E].
  { split; [done|]. repeat constructor; rewrite ?length_take, ?length_drop, ?Hcv; done. }
  rewrite row_outputs_finalize by exact Hs. rewrite E. unfold compress.
  assert (concat (row_state c) = initial_state (cv_words c) (counter c) (block_len c) (flags c)) as <-;
    [|reflexivity].
  unfold initial_state, row_state. cbn [concat]. rewrite app_nil_r, (take_ge (drop 4 _)), (take_ge _ 8) by
    (rewrite ?length_drop; lia). by rewrite app_assoc, take_drop.
Qed.

(** ** Cells of a filled row *)

Definition slice (offset n : nat) (row : list Z) : list Z := take n (drop offset row).

(** [row'] differs from [row] only in the columns from [lo] to [hi]. *)
Definition frame (lo hi : nat) (row row' : list Z) : Prop :=
  length row' = length row ∧
  ∀ o n, (o + n <= lo ∨ hi <= o)%nat → slice o n row' = slice o n row.

Lemma length_write_at row off v :
  (off + length v <= length row)%nat → length (write_at row off v) = length row.
Proof. intros H. unfold write_at. rewrite !length_app, length_take, length_drop. lia. Qed.

Lemma slice_write_same row off v :
  (off + length v <= length row)%nat → slice off (length v) (write_at row off v) = v.
Proof.
  intros H. unfold slice, write_at. rewrite drop_app_length' by (rewrite length_take; lia).
  by apply take_app_length'.
Qed.

Lemma slice_lookup o n row i : (i < n)%nat → slice o n row !! i = row !! (o + i)%nat.
Proof. intros H. unfold slice. by rewrite lookup_take_lt, lookup_drop by done. Qed.

Lemma slice_split o n m row : slice o (n + m) row = slice o n row ++ slice (o + n) m row.
Proof. unfold slice. by rewrite <- drop_drop, take_take_drop. Qed.

Lemma write_at_lookup row off v k :
  (off + length v <= length row)%nat →
  write_at row off v !! k =
    if decide (off <= k < off + length v)%nat then v !! (k - off)%nat else row !! k.
Proof.
  intros H. unfold write_at. destruct (decide (k < off)%nat) as [Hk|Hk].
  { rewrite lookup_app_l by (rewrite length_take; lia).
    rewrite lookup_take_lt by done. rewrite decide_False by lia. done. }
  rewrite lookup_app_r by (rewrite length_take; lia). rewrite length_take, Nat.min_l by lia.
  case_decide as Hin.
  - by rewrite lookup_app_l by lia.
  - rewrite lookup_app_r, lookup_drop by lia. f_equal. lia.
Qed.

Lemma slice_ext o n row row' :
  length row' = length row →
  (∀ k, (o <= k < o + n)%nat → row' !! k = row !! k) → slice o n row' = slice o n row.
Proof.
  intros Hl H. apply list_eq. intros i. destruct (decide (i < n)%nat) as [Hi|Hi].
  - rewrite !slice_lookup by done. apply H. lia.
  - rewrite !lookup_ge_None_2; [done|unfold slice; rewrite length_take; lia..].
Qed.

Lemma frame_refl lo hi row : frame lo hi row row.
Proof. by split. Qed.

Lemma frame_trans lo hi r1 r2 r3 : frame lo hi r1 r2 → frame lo hi r2 r3 → frame lo hi r1 r3.
Proof.
  intros [L1 H1] [L2 H2]. split; [congruence|]. intros o n Ho. by rewrite H2, H1.
Qed.

Lemma frame_weaken lo hi lo' hi' r1 r2 :
  (lo' <= lo)%nat → (hi <= hi')%nat → frame lo hi r1 r2 → frame lo' hi' r1 r2.
Proof. intros Hlo Hhi [L H]. split; [done|]. intros o n Ho. apply H. lia. Qed.

Lemma frame_write row off v :
  (off + length v <= length row)%nat → frame off (off + length v) row (write_at row off v).
Proof.
  intros H. split; [by apply length_write_at|]. intros o n Ho.
  apply slice_ext; [by apply length_write_at|]. intros k Hk.
  rewrite write_at_lookup by done. by rewrite decide_False by lia.
Qed.

Lemma frame_write_bits lo hi row off v :
  (lo <= off)%nat → (off + 32 <= hi <= length row)%nat → frame lo hi row (write_bits row off v).
Proof.
  intros H1 H2. eapply frame_weaken; [| |apply frame_write]; change (length (bits_le v)) with 32%nat; lia.
Qed.

Lemma frame_write_limbs lo hi row off v :
  (lo <= off)%nat → (off + 2 <= hi <= length row)%nat → frame lo hi row (write_limbs row off v).
Proof.
  intros H1 H2. unfold write_limbs. eapply frame_trans.
  - eapply frame_weaken; [| |apply (frame_write _ off [v mod 2 ^ 16])]; cbn [length]; lia.
  - assert (length (write_at row off [v mod 2 ^ 16]) = length row) as E
      by (apply length_write_at; cbn [length]; lia).
    eapply frame_weaken; [| |apply (frame_write _ (off + 1)%nat)]; cbn [length]; rewrite ?E; lia.
Qed.

Lemma frame_foldl lo hi (f : list Z → nat → list Z) row l :
  (∀ r i, length r = length row → i ∈ l → frame lo hi r (f r i)) → frame lo hi row (foldl f row l).
Proof.
  revert row. induction l as [|i l IH]; intros row H; [apply frame_refl|]. cbn [foldl].
  assert (Hi : frame lo hi row (f row i)) by (apply H; [done|left]).
  eapply frame_trans; [exact Hi|]. apply IH. intros r j Hr Hj.
  apply H; [by rewrite Hr, (proj1 Hi)|by right].
Qed.

Lemma frame_length lo hi row row' : frame lo hi row row' → length row' = length row.
Proof. by intros []. Qed.

(** One more write into a range of columns. *)
Lemma frame_then_bits lo hi row r off v :
  (lo <= off)%nat → (off + 32 <= hi <= length row)%nat →
  frame lo hi row r → frame lo hi row (write_bits r off v).
Proof.
  intros H1 H2 Hf. eapply frame_trans; [exact Hf|]. apply frame_write_bits; [done|].
  by rewrite (frame_length _ _ _ _ Hf).
Qed.

Lemma frame_then_limbs lo hi row r off v :
  (lo <= off)%nat → (off + 2 <= hi <= length row)%nat →
  frame lo hi row r → frame lo hi row (write_limbs r off v).
Proof.
  intros H1 H2 Hf. eapply frame_trans; [exact Hf|]. apply frame_write_limbs; [done|].
  by rewrite (frame_length _ _ _ _ Hf).
Qed.

Ltac frames :=
  cbv zeta; repeat first [apply frame_then_bits; [lia|lia|] | apply frame_then_limbs; [lia|lia|]];
  try apply frame_refl.

Lemma frame_save_state row off state :
  (off + B3_STATE_WIDTH <= length row)%nat →
  frame off (off + B3_STATE_WIDTH) row (save_state row off state).
Proof.
  intros H. unfold save_state. apply frame_foldl. intros r i Hr Hi. rewrite elem_of_seq in Hi.
  change B3_STATE_WIDTH with 272%nat in *. unfold BITS_PER_WORD. frames.
Qed.

Lemma frame_then_save lo hi row r off state :
  (lo <= off)%nat → (off + B3_STATE_WIDTH <= hi <= length row)%nat →
  frame lo hi row r → frame lo hi row (save_state r off state).
Proof.
  intros H1 H2 Hf. eapply frame_trans; [exact Hf|].
  eapply frame_weaken; [exact H1|apply H2|]. apply frame_save_state.
  rewrite (frame_length _ _ _ _ Hf). lia.
Qed.

Lemma frame_fill_round row off state m :
  (off + B3_FULL_ROUND_WIDTH <= length row)%nat →
  frame off (off + B3_FULL_ROUND_WIDTH) row (fill_round row off state m).1.
Proof.
  intros H. change B3_FULL_ROUND_WIDTH with (4 * B3_STATE_WIDTH)%nat in *. unfold fill_round. cbn [fst].
  repeat (apply frame_then_save; [lia|lia|]). apply frame_refl.
Qed.

Lemma frame_fill_rounds n k row state m :
  (B3_FULL_ROUNDS_OFFSET + (k + n) * B3_FULL_ROUND_WIDTH <= length row)%nat →
  frame (B3_FULL_ROUNDS_OFFSET + k * B3_FULL_ROUND_WIDTH)
    (B3_FULL_ROUNDS_OFFSET + (k + n) * B3_FULL_ROUND_WIDTH) row (fill_rounds n k row state m).1.
Proof.
  revert k row state m. induction n as [|n IH]; intros k row state m H; [apply frame_refl|].
  cbn [fill_rounds].
  assert (Hr : frame (B3_FULL_ROUNDS_OFFSET + k * B3_FULL_ROUND_WIDTH)
    (B3_FULL_ROUNDS_OFFSET + k * B3_FULL_ROUND_WIDTH + B3_FULL_ROUND_WIDTH) row
    (fill_round row (B3_FULL_ROUNDS_OFFSET + k * B3_FULL_ROUND_WIDTH) state m).1)
    by (apply frame_fill_round; lia).
  destruct (fill_round _ _ _ _) as [row' state']. cbn [fst] in Hr.
  eapply frame_trans; [eapply frame_weaken; [| |exact Hr]; lia|].
  eapply frame_weaken; [| |apply IH]; rewrite ?(frame_length _ _ _ _ Hr); lia.
Qed.

(** *** Runs of words *)

Definition bits_of_words (ws : list Z) : list Z := concat (bits_le <$> ws).

Lemma length_bits_le v : length (bits_le v) = 32%nat.
Proof. done. Qed.

Lemma length_bits_of_words ws : length (bits_of_words ws) = (32 * length ws)%nat.
Proof.
  induction ws as [|w ws IH]; [done|]. unfold bits_of_words in *. rewrite fmap_cons. cbn [concat].
  rewrite length_app, IH, length_bits_le. cbn [length]. lia.
Qed.

Lemma write_each_bits off row i ws :
  (off + (i + length ws) * 32 <= length row)%nat →
  let row' := write_each (λ row i w, write_bits row (off + i * BITS_PER_WORD)%nat w) row i ws in
  frame (off + i * 32) (off + (i + length ws) * 32) row row' ∧
  slice (off + i * 32) (length ws * 32) row' = bits_of_words ws.
Proof.
  unfold BITS_PER_WORD. revert row i. induction ws as [|w ws IH]; intros row i H; cbn [write_each length] in *.
  { split; [apply frame_refl|]. done. }
  assert (Hw : frame (off + i * 32) (off + i * 32 + 32) row (write_bits row (off + i * 32) w))
    by (apply frame_write_bits; lia).
  destruct (IH (write_bits row (off + i * 32) w) (S i)) as [Hf Hs].
  { rewrite (frame_length _ _ _ _ Hw). lia. }
  split.
  - eapply frame_trans; [eapply frame_weaken; [| |exact Hw]; lia|].
    eapply frame_weaken; [| |exact Hf]; lia.
  - replace (S (length ws) * 32)%nat with (32 + length ws * 32)%nat by lia. rewrite slice_split.
    replace (off + i * 32 + 32)%nat with (off + S i * 32)%nat by lia. rewrite Hs.
    unfold bits_of_words. rewrite fmap_cons. cbn [concat]. f_equal.
    rewrite (proj2 Hf) by lia. apply (slice_write_same _ _ (bits_le w)). rewrite length_bits_le. lia.
Qed.

(** Writes of words at distinct positions, in any order. *)
Definition write_words (base : nat) (row : list Z) (ps : list (nat * Z)) : list Z :=
  foldl (λ r p, write_bits r (base + p.1 * 32)%nat p.2) row ps.

Lemma write_words_frame base hi row ps :
  (hi <= length row)%nat → Forall (λ p, base + p.1 * 32 + 32 <= hi)%nat ps →
  frame base hi row (write_words base row ps).
Proof.
  intros Hl Hps. revert row Hl. induction Hps as [|[j w] ps Hj Hps IH]; intros row Hl; [apply frame_refl|].
  cbn in *. assert (Hw : frame base hi row (write_bits row (base + j * 32) w))
    by (apply frame_write_bits; lia).
  eapply frame_trans; [exact Hw|]. apply IH. by rewrite (frame_length _ _ _ _ Hw).
Qed.

Lemma write_words_other base row ps j :
  j ∉ ps.*1 → Forall (λ p, base + p.1 * 32 + 32 <= length row)%nat ps →
  slice (base + j * 32) 32 (write_words base row ps) = slice (base + j * 32) 32 row.
Proof.
  intros Hj Hps. revert row Hps. induction ps as [|[k v] ps IH]; intros row Hps; [done|].
  cbn [fmap list_fmap fst] in Hj. rewrite not_elem_of_cons in Hj. destruct Hj as [Hne Hj].
  apply Forall_cons in Hps as [Hkl Hps]. cbn [fst] in Hkl. cbn [write_words foldl fst snd].
  fold (write_words base (write_bits row (base + k * 32) v) ps).
  assert (Hw : frame (base + k * 32) (base + k * 32 + 32) row (write_bits row (base + k * 32) v))
    by (apply frame_write_bits; lia).
  rewrite IH; [|done|by rewrite (frame_length _ _ _ _ Hw)]. apply Hw. lia.
Qed.

Lemma write_words_slice base row ps j w :
  NoDup ps.*1 → Forall (λ p, base + p.1 * 32 + 32 <= length row)%nat ps → (j, w) ∈ ps →
  slice (base + j * 32) 32 (write_words base row ps) = bits_le w.
Proof.
  revert row. induction ps as [|[k v] ps IH]; intros row Hn Hps Hin; [by apply elem_of_nil in Hin|].
  cbn [fmap list_fmap fst] in Hn. apply NoDup_cons in Hn as [Hk Hn].
  apply Forall_cons in Hps as [Hkl Hps]. cbn [fst] in Hkl. cbn [write_words foldl fst snd].
  fold (write_words base (write_bits row (base + k * 32) v) ps).
  assert (Hl : length (write_bits row (base + k * 32) v) = length row)
    by (apply length_write_at; rewrite length_bits_le; lia).
  apply elem_of_cons in Hin as [[= -> ->]|Hin]; [|apply IH; [done|by rewrite Hl|done]].
  rewrite write_words_other; [|done|by rewrite Hl].
  apply (slice_write_same _ _ (bits_le v)). by rewrite length_bits_le.
Qed.

Lemma slice_words base ws row :
  (∀ j w, ws !! j = Some w → slice (base + j * 32) 32 row = bits_le w) →
  slice base (length ws * 32) row = bits_of_words ws.
Proof.
  revert base. induction ws as [|w ws IH]; intros base H; [done|].
  cbn [length]. replace (S (length ws) * 32)%nat with (32 + length ws * 32)%nat by lia.
  rewrite slice_split. unfold bits_of_words. rewrite fmap_cons. cbn [concat]. f_equal.
  - rewrite <- (H 0%nat w eq_refl). f_equal. lia.
  - apply IH. intros j v Hj. rewrite <- (H (S j) v Hj). f_equal. lia.
Qed.

(** *** The cells that the lookup reads *)

(** The input and output columns of a row hold the bits of a compression. *)
Definition io_cells (row : list Z) (c : Compression) : Prop :=
  slice B3_INPUTS_OFFSET (16 * 32) row = bits_of_words (block_words c) ∧
  slice B3_CHAINING_VALUES_OFFSET (8 * 32) row = bits_of_words (cv_words c) ∧
  slice B3_COUNTER_LOW_OFFSET 32 row = bits_le (counter c mod 2 ^ 32) ∧
  slice B3_COUNTER_HI_OFFSET 32 row = bits_le (Z.shiftr (counter c) 32 mod 2 ^ 32) ∧
  slice B3_BLOCK_LEN_OFFSET 32 row = bits_le (block_len c) ∧
  slice B3_FLAGS_OFFSET 32 row = bits_le (flags c) ∧
  slice B3_OUTPUTS_OFFSET (8 * 32) row = bits_of_words (output_words c).

(** A compression as the Rust type holds it, with its output computed. *)
Definition wf_compression (c : Compression) : Prop :=
  (length (block_words c) = 16%nat ∧ Forall is_u32 (block_words c)) ∧
  (length (cv_words c) = 8%nat ∧ Forall is_u32 (cv_words c)) ∧
  is_u64 (counter c) ∧ is_u32 (block_len c) ∧ is_u32 (flags c) ∧
  output_words c = take 8 (compress (block_words c) (cv_words c) (counter c) (block_len c) (flags c)).

Lemma write_outputs_words base row state cv :
  write_outputs base row state cv =
    write_words base row
      ((λ j, (j, row_outputs state cv !!! j)) <$> [0; 4; 8; 12; 1; 5; 9; 13; 2; 6; 10; 14; 3; 7; 11; 15]%nat).
Proof. reflexivity. Qed.

Lemma write_outputs_spec row state cv :
  length row = NUM_BLAKE3_COLS →
  frame B3_OUTPUTS_OFFSET NUM_BLAKE3_COLS row (write_outputs B3_OUTPUTS_OFFSET row state cv) ∧
  slice B3_OUTPUTS_OFFSET (8 * 32) (write_outputs B3_OUTPUTS_OFFSET row state cv) =
    bits_of_words (take 8 (row_outputs state cv)).
Proof.
  intros Hl. rewrite write_outputs_words.
  assert (Hps : Forall (λ p, B3_OUTPUTS_OFFSET + p.1 * 32 + 32 <= NUM_BLAKE3_COLS)%nat
    ((λ j, (j, row_outputs state cv !!! j)) <$> [0; 4; 8; 12; 1; 5; 9; 13; 2; 6; 10; 14; 3; 7; 11; 15]%nat)).
  { apply Forall_fmap. eapply (list.Forall_impl (λ j, j < 16)%nat); [by_compute|].
    intros j Hj. unfold NUM_BLAKE3_COLS, BITS_PER_WORD. cbn [compose fst]. lia. }
  split; [apply write_words_frame; [by rewrite Hl|done]|].
  apply (slice_words _ (take 8 (row_outputs state cv))). intros j w Hj.
  assert (Hj8 : (j < 8)%nat) by (apply lookup_lt_Some in Hj; exact Hj).
  apply write_words_slice; [by_compute|by rewrite Hl|].
  rewrite lookup_take_lt in Hj by done. apply list_lookup_total_correct in Hj as <-.
  apply list_elem_of_fmap. exists j. split; [done|].
  rewrite !elem_of_cons. lia.
Qed.

(** Offsets as sums of widths. *)
Ltac offsets :=
  unfold NUM_BLAKE3_COLS, B3_OUTPUTS_OFFSET, B3_FINAL_HELPERS_OFFSET, B3_FULL_ROUND_WIDTH,
    B3_STATE_WIDTH, B3_FULL_ROUNDS_OFFSET, B3_INITIAL_ROW2_OFFSET, B3_INITIAL_ROW0_OFFSET,
    B3_FLAGS_OFFSET, B3_BLOCK_LEN_OFFSET, B3_COUNTER_HI_OFFSET, B3_COUNTER_LOW_OFFSET,
    B3_CHAINING_VALUES_OFFSET, B3_INPUTS_OFFSET, BITS_PER_WORD in *; lia.

Lemma write_bits_spec row off v :
  (off + 32 <= length row)%nat →
  frame off (off + 32) row (write_bits row off v) ∧ slice off 32 (write_bits row off v) = bits_le v.
Proof.
  intros H. split; [apply frame_write_bits; lia|]. by apply (slice_write_same _ _ (bits_le v)).
Qed.

(** Names the row after the innermost write, with its frame, its contents
    and its length. *)
Ltac write_step :=
  match goal with
  | H : length ?r = NUM_BLAKE3_COLS |- context [write_bits ?r ?o ?v] =>
      let F := fresh "F" in let S := fresh "S" in let L := fresh "L" in let r' := fresh "r" in
      destruct (write_bits_spec r o v) as [F S]; [rewrite H; offsets|];
      assert (L : length (write_bits r o v) = NUM_BLAKE3_COLS)
        by (rewrite (frame_length _ _ _ _ F); exact H);
      set (r' := write_bits r o v) in *; clearbody r'
  | H : length ?r = NUM_BLAKE3_COLS |- context [write_each (λ row i w, write_bits row (?o + i * _)%nat w) ?r 0 ?ws] =>
      let F := fresh "F" in let S := fresh "S" in let L := fresh "L" in let r' := fresh "r" in
      let W := fresh "W" in
      assert (W : (o + (0 + length ws) * 32 <= length r)%nat)
        by (rewrite H; repeat match goal with E : length ws = _ |- _ => rewrite E end; offsets);
      destruct (write_each_bits o r 0 ws W) as [F S];
      set (r' := write_each _ r 0 ws) in *;
      assert (L : length r' = NUM_BLAKE3_COLS) by (rewrite (frame_length _ _ _ _ F); exact H);
      clearbody r'; clear W
  end.

(** Reads a slice in the row of an earlier write. *)
Ltac unframe :=
  repeat match goal with
  | F : frame _ _ ?r ?r' |- slice ?o ?n ?r' = _ => rewrite (proj2 F o n) by offsets
  end.

Lemma write_inputs_spec row c :
  length row = NUM_BLAKE3_COLS → length (block_words c) = 16%nat → length (cv_words c) = 8%nat →
  let row' := write_inputs row c in
  frame 0 B3_INITIAL_ROW0_OFFSET row row' ∧
  slice B3_INPUTS_OFFSET (16 * 32) row' = bits_of_words (block_words c) ∧
  slice B3_CHAINING_VALUES_OFFSET (8 * 32) row' = bits_of_words (cv_words c) ∧
  slice B3_COUNTER_LOW_OFFSET 32 row' = bits_le (counter c mod 2 ^ 32) ∧
  slice B3_COUNTER_HI_OFFSET 32 row' = bits_le (Z.shiftr (counter c) 32 mod 2 ^ 32) ∧
  slice B3_BLOCK_LEN_OFFSET 32 row' = bits_le (block_len c) ∧
  slice B3_FLAGS_OFFSET 32 row' = bits_le (flags c).
Proof.
  intros Hl Hbw Hcv. unfold write_inputs. cbv zeta.
  repeat write_step. rewrite Hbw, Hcv, ?Nat.add_0_l, ?Nat.mul_0_l, ?Nat.add_0_r in *.
  split; [|repeat split; by unframe].
  repeat match goal with
  | F : frame _ _ ?r ?r' |- frame _ _ _ ?r' =>
      eapply frame_trans; [|eapply frame_weaken; [| |exact F]; offsets]; clear F
  end. apply frame_refl.
Qed.

Lemma write_initial_rows_frame row cv :
  length row = NUM_BLAKE3_COLS →
  frame B3_INITIAL_ROW0_OFFSET B3_FULL_ROUNDS_OFFSET row (write_initial_rows row cv).
Proof.
  intros Hl. apply frame_foldl. intros r i Hr Hi. rewrite elem_of_seq in Hi. cbv zeta.
  apply frame_then_limbs; [offsets|rewrite Hr, Hl; offsets|].
  apply frame_then_limbs; [offsets|rewrite Hr, Hl; offsets|]. apply frame_refl.
Qed.

(** Filling a row writes the bits of the compression's inputs and of its
    first eight output words to the columns that the lookup reads. *)
Lemma fill_trace_row_spec row c :
  length row = NUM_BLAKE3_COLS → wf_compression c →
  length (fill_trace_row row c) = NUM_BLAKE3_COLS ∧ io_cells (fill_trace_row row c) c.
Proof.
  intros Hl ([Hbw _] & [Hcv _] & _ & _ & _ & Hout). unfold fill_trace_row. cbv zeta.
  destruct (write_inputs_spec row c Hl Hbw Hcv) as (F1 & S1 & S2 & S3 & S4 & S5 & S6).
  set (r1 := write_inputs row c) in *.
  assert (L1 : length r1 = NUM_BLAKE3_COLS) by (rewrite (frame_length _ _ _ _ F1); exact Hl).
  pose proof (write_initial_rows_frame r1 (cv_words c) L1) as F2.
  set (r2 := write_initial_rows r1 (cv_words c)) in *.
  assert (L2 : length r2 = NUM_BLAKE3_COLS) by (rewrite (frame_length _ _ _ _ F2); exact L1).
  pose proof (frame_fill_rounds 7 0 r2 (row_state c) (block_words c)) as F3.
  pose proof (row_outputs_compress c 0 r2 Hcv) as Ho.
  destruct (fill_rounds_rounds 7 0 r2 (row_state c) (block_words c)) as [Hsq _].
  { split; [done|]. repeat constructor; rewrite ?length_take, ?length_drop, ?Hcv; done. }
  destruct (fill_rounds 7 0 r2 (row_state c) (block_words c)) as [r3 state]. cbn [fst snd] in *.
  specialize (F3 ltac:(rewrite L2; offsets)).
  assert (L3 : length r3 = NUM_BLAKE3_COLS) by (rewrite (frame_length _ _ _ _ F3); exact L2).
  assert (Hs2 : length (state !!! 2%nat) = 4%nat).
  { by apply is_square_inv in Hsq as (? & ? & ? & ? & -> & _ & _ & ? & _). }
  clearbody r1 r2. write_step.
  destruct (write_outputs_spec r state (cv_words c) L) as [F5 S7].
  split; [rewrite (frame_length _ _ _ _ F5); exact L|].
  rewrite Hs2, ?Nat.add_0_l, ?Nat.mul_0_l, ?Nat.add_0_r in F.
  repeat split; [by unframe..|]. by rewrite S7, Hout, Ho.
Qed.
