(* ===== verification/Blake3Rows.v ===== *)
(** * The layout of the rows of the BLAKE3 trace

    [blake3_columns] is a reference for a row: the column groups of
    [p3_blake3_air::Blake3Cols], in order, holding the inputs, the sixteen
    state words after every half round of the specification, and the outputs.
    [fill_trace_row], which writes single columns at computed offsets and
    keeps a four-by-four state, produces exactly this row. *)

From S2P Require Import Prelude Hash Tree Blake3 Blake3Spec.
From Stdlib Require Import ZArith Lia List String.
From stdpp Require Import base decidable list.

Local Open Scope Z_scope.

(** ** Reference *)

(** One half of the quarter round [g]. *)
Definition half_g (state : list Z) (a b c d : nat) (m r1 r2 : Z) : list Z :=
  let state := <[a := wrapping_add (wrapping_add (state !!! a) (state !!! b)) m]> state in
  let state := <[d := rotate_right (Z.lxor (state !!! d) (state !!! a)) r1]> state in
  let state := <[c := wrapping_add (state !!! c) (state !!! d)]> state in
  <[b := rotate_right (Z.lxor (state !!! b) (state !!! c)) r2]> state.

(** The four half quarter rounds on the columns, or on the diagonals. *)
Definition half_columns (state : list Z) (m0 m1 m2 m3 r1 r2 : Z) : list Z :=
  half_g (half_g (half_g (half_g state 0 4 8 12 m0 r1 r2) 1 5 9 13 m1 r1 r2)
    2 6 10 14 m2 r1 r2) 3 7 11 15 m3 r1 r2.

Definition half_diagonals (state : list Z) (m0 m1 m2 m3 r1 r2 : Z) : list Z :=
  half_g (half_g (half_g (half_g state 0 5 10 15 m0 r1 r2) 1 6 11 12 m1 r1 r2)
    2 7 8 13 m2 r1 r2) 3 4 9 14 m3 r1 r2.

(** The states after the four half rounds of a round. *)
Definition round_states (state m : list Z) : list (list Z) :=
  let w k := m !!! k in
  let s1 := half_columns state (w 0%nat) (w 2%nat) (w 4%nat) (w 6%nat) 16 12 in
  let s2 := half_columns s1 (w 1%nat) (w 3%nat) (w 5%nat) (w 7%nat) 8 7 in
  let s3 := half_diagonals s2 (w 8%nat) (w 10%nat) (w 12%nat) (w 14%nat) 16 12 in
  let s4 := half_diagonals s3 (w 9%nat) (w 11%nat) (w 13%nat) (w 15%nat) 8 7 in
  [s1; s2; s3; s4].

Definition limbs (v : Z) : list Z := [v mod 2 ^ 16; Z.shiftr v 16 mod 2 ^ 16].

Definition limbs_of_words (ws : list Z) : list Z := concat (limbs <$> ws).

(** [Blake3State]: rows 0 and 2 as limbs, rows 1 and 3 as bits. *)
Definition state_columns (s : list Z) : list Z :=
  limbs_of_words (take 4 s) ++ bits_of_words (take 4 (drop 4 s)) ++
  limbs_of_words (take 4 (drop 8 s)) ++ bits_of_words (take 4 (drop 12 s)).

Fixpoint rounds_columns (n : nat) (state m : list Z) : list Z :=
  match n with
  | O => []
  | S n' => concat (state_columns <$> round_states state m) ++
            rounds_columns n' (round state m) (permute m)
  end.

Definition blake3_columns (c : Compression) : list Z :=
  let start := initial_state (cv_words c) (counter c) (block_len c) (flags c) in
  bits_of_words (block_words c) ++ bits_of_words (cv_words c) ++
  bits_of_words [counter c mod 2 ^ 32; Z.shiftr (counter c) 32 mod 2 ^ 32; block_len c; flags c] ++
  limbs_of_words (take 4 (cv_words c)) ++ limbs_of_words (take 4 IV) ++
  rounds_columns 7 start (block_words c) ++
  bits_of_words (take 4 (drop 8 (rounds 7 start (block_words c)))) ++
  bits_of_words (compress (block_words c) (cv_words c) (counter c) (block_len c) (flags c)).

(** The last of the four states is the state after the round. *)
Lemma round_states_last state m :
  length state = 16%nat → round_states state m !! 3%nat = Some (round state m).
Proof.
  intros H. do 16 (destruct state as [|? state]; [discriminate H|]). destruct state; [|discriminate H].
  lazy -[wrapping_add rotate_right Z.lxor]. reflexivity.
Qed.

(** ** Appending to a row *)

Lemma write_next pre v m :
  write_at (pre ++ replicate (length v + m) 0) (length pre) v = pre ++ v ++ replicate m 0.
Proof.
  unfold write_at. rewrite take_app_length, replicate_add, <- drop_drop, drop_app_length.
  by rewrite drop_app_length' by (by rewrite length_replicate).
Qed.

Lemma write_next_bits pre off w m :
  off = length pre →
  write_bits (pre ++ replicate (32 + m) 0) off w = pre ++ bits_of_words [w] ++ replicate m 0.
Proof.
  intros ->. unfold write_bits, bits_of_words. cbn [fmap list_fmap concat]. rewrite app_nil_r.
  apply (write_next pre (bits_le w) m).
Qed.

Lemma write_next_words off ws pre i m :
  (off + i * 32 = length pre)%nat →
  write_each (λ row i w, write_bits row (off + i * BITS_PER_WORD)%nat w)
    (pre ++ replicate (length ws * 32 + m) 0) i ws = pre ++ bits_of_words ws ++ replicate m 0.
Proof.
  revert pre i. induction ws as [|w ws IH]; intros pre i H; [done|].
  cbn [write_each length Nat.mul]. unfold BITS_PER_WORD at 2. rewrite <- Nat.add_assoc.
  rewrite write_next_bits by done. rewrite app_assoc, IH.
  - unfold bits_of_words. rewrite fmap_cons. cbn [fmap list_fmap concat].
    by rewrite app_nil_r, <- !app_assoc.
  - rewrite length_app, <- H, length_bits_of_words. cbn [length]. lia.
Qed.

(** A sequence of writes relative to a base column. *)
Definition writes (base : nat) (row : list Z) (ws : list (nat * list Z)) : list Z :=
  foldl (λ r w, write_at r (base + w.1)%nat w.2) row ws.

Lemma write_at_local pre mid post k v :
  (k + length v <= length mid)%nat →
  write_at (pre ++ mid ++ post) (length pre + k) v = pre ++ write_at mid k v ++ post.
Proof.
  intros H. unfold write_at. rewrite take_app_add, take_app_le by lia.
  rewrite <- Nat.add_assoc, drop_app_add, drop_app_le by lia. by rewrite <- !app_assoc.
Qed.

Lemma writes_local pre mid post ws :
  Forall (λ w, w.1 + length w.2 <= length mid)%nat ws →
  writes (length pre) (pre ++ mid ++ post) ws = pre ++ writes 0 mid ws ++ post.
Proof.
  intros H. revert mid H. induction ws as [|[k v] ws IH]; intros mid H; [done|].
  apply Forall_cons in H as [Hk H]. cbn [writes foldl fst snd Nat.add] in *.
  rewrite write_at_local by done. apply IH. by rewrite length_write_at.
Qed.

Lemma writes_next pre n m ws :
  Forall (λ w, w.1 + length w.2 <= n)%nat ws →
  writes (length pre) (pre ++ replicate (n + m) 0) ws =
    pre ++ writes 0 (replicate n 0) ws ++ replicate m 0.
Proof. intros H. rewrite replicate_add. apply writes_local. by rewrite length_replicate. Qed.

(** ** The groups of columns *)

Definition limb_writes (o : nat) (w : Z) : list (nat * list Z) :=
  [(o, [w mod 2 ^ 16]); ((o + 1)%nat, [Z.shiftr w 16 mod 2 ^ 16])].

Definition state_writes (state : list (list Z)) : list (nat * list Z) :=
  concat ((λ i, limb_writes (i * 2) (at_ state 0 i) ++ [((8 + i * 32)%nat, bits_le (at_ state 1 i))] ++
    limb_writes (136 + i * 2) (at_ state 2 i) ++ [((144 + i * 32)%nat, bits_le (at_ state 3 i))]) <$> seq 0 4).

Lemma save_state_writes row off state : save_state row off state = writes off row (state_writes state).
Proof.
  unfold save_state, write_limbs, write_bits, BITS_PER_WORD. cbn [foldl seq].
  rewrite <- !Nat.add_assoc. reflexivity.
Qed.

Lemma state_writes_columns state :
  is_square state → writes 0 (replicate 272 0) (state_writes state) = state_columns (concat state).
Proof.
  intros (a & b & c & d & -> & Ha & Hb & Hc & Hd)%is_square_inv.
  apply list4 in Ha as (a0 & a1 & a2 & a3 & ->), Hb as (b0 & b1 & b2 & b3 & ->),
    Hc as (c0 & c1 & c2 & c3 & ->), Hd as (d0 & d1 & d2 & d3 & ->).
  lazy -[Z.b2z Z.testbit Z.modulo Z.shiftr Z.pow]. reflexivity.
Qed.

Lemma save_state_next pre off m state :
  is_square state → off = length pre →
  save_state (pre ++ replicate (272 + m) 0) off state =
    pre ++ state_columns (concat state) ++ replicate m 0.
Proof.
  intros Hs ->. rewrite save_state_writes, writes_next; [by rewrite state_writes_columns|].
  unfold state_writes, limb_writes. cbn [fmap list_fmap concat seq app].
  repeat constructor; cbn [fst snd length]; rewrite ?length_bits_le; lia.
Qed.

(** The four states that [fill_round] saves are those of the reference. *)
Lemma half_steps_states state m :
  is_square state →
  let s1 := foldl (half_step 0 (λ i, m !!! (2 * i)%nat) false) state (seq 0 4) in
  let s2 := foldl (half_step 0 (λ i, m !!! (2 * i + 1)%nat) true) s1 (seq 0 4) in
  let s3 := foldl (half_step 1 (λ i, m !!! (8 + 2 * i)%nat) false) s2 (seq 0 4) in
  let s4 := foldl (half_step 1 (λ i, m !!! (9 + 2 * i)%nat) true) s3 (seq 0 4) in
  Forall is_square [s1; s2; s3; s4] ∧ @concat Z <$> [s1; s2; s3; s4] = round_states (concat state) m.
Proof.
  intros (a & b & c & d & -> & Ha & Hb & Hc & Hd)%is_square_inv.
  apply list4 in Ha as (a0 & a1 & a2 & a3 & ->), Hb as (b0 & b1 & b2 & b3 & ->),
    Hc as (c0 & c1 & c2 & c3 & ->), Hd as (d0 & d1 & d2 & d3 & ->).
  split; lazy -[wrapping_add rotate_right Z.lxor]; [repeat constructor|reflexivity].
Qed.

Lemma length_limbs_of_words ws : length (limbs_of_words ws) = (2 * length ws)%nat.
Proof.
  unfold limbs_of_words. induction ws as [|w ws IH]; [done|]. rewrite fmap_cons. cbn [concat].
  rewrite length_app, IH. cbn [length limbs]. lia.
Qed.

Lemma length_state_columns s : length s = 16%nat → length (state_columns s) = 272%nat.
Proof.
  intros H. unfold state_columns.
  rewrite !length_app, !length_limbs_of_words, !length_bits_of_words, !length_take, !length_drop, H. done.
Qed.

Lemma is_square_concat state : is_square state → length (concat state) = 16%nat.
Proof.
  intros (a & b & c & d & -> & Ha & Hb & Hc & Hd)%is_square_inv. cbn [concat].
  rewrite !length_app, Ha, Hb, Hc, Hd. done.
Qed.

Lemma fill_round_next pre off m state msg :
  is_square state → off = length pre →
  (fill_round (pre ++ replicate (4 * 272 + m) 0) off state msg).1 =
    pre ++ concat (state_columns <$> round_states (concat state) msg) ++ replicate m 0.
Proof.
  intros Hs ->. destruct (half_steps_states state msg Hs) as [Hsq Est]. rewrite <- Est. clear Est.
  unfold fill_round. cbn [fst]. cbv zeta in Hsq.
  remember (foldl (half_step 0 (λ i, msg !!! (2 * i)%nat) false) state (seq 0 4)) as s1.
  remember (foldl _ s1 (seq 0 4)) as s2. remember (foldl _ s2 (seq 0 4)) as s3.
  remember (foldl _ s3 (seq 0 4)) as s4. rewrite !Forall_cons in Hsq.
  destruct Hsq as (H1 & H2 & H3 & H4 & _).
  pose proof (length_state_columns _ (is_square_concat _ H1)) as L1.
  pose proof (length_state_columns _ (is_square_concat _ H2)) as L2.
  pose proof (length_state_columns _ (is_square_concat _ H3)) as L3.
  change B3_STATE_WIDTH with 272%nat.
  replace (4 * 272 + m)%nat with (272 + (272 + (272 + (272 + m))))%nat by lia.
  cbn [fmap list_fmap concat]. rewrite app_nil_r.
  do 4 (rewrite save_state_next by (done || rewrite !length_app; lia); rewrite ?app_assoc).
  reflexivity.
Qed.

Lemma fill_rounds_next n k pre m state msg :
  is_square state → (B3_FULL_ROUNDS_OFFSET + k * B3_FULL_ROUND_WIDTH = length pre)%nat →
  (fill_rounds n k (pre ++ replicate (n * (4 * 272) + m) 0) state msg).1 =
    pre ++ rounds_columns n (concat state) msg ++ replicate m 0.
Proof.
  revert k pre state msg. induction n as [|n IH]; intros k pre state msg Hs Hk; [done|].
  cbn [fill_rounds rounds_columns].
  replace (S n * (4 * 272) + m)%nat with (4 * 272 + (n * (4 * 272) + m))%nat by lia.
  pose proof (fill_round_next pre (B3_FULL_ROUNDS_OFFSET + k * B3_FULL_ROUND_WIDTH)
    (n * (4 * 272) + m) state msg Hs Hk) as E.
  destruct (fill_round_round (pre ++ replicate (4 * 272 + (n * (4 * 272) + m)) 0)
    (B3_FULL_ROUNDS_OFFSET + k * B3_FULL_ROUND_WIDTH) state msg Hs) as [Hs' Ec].
  destruct (fill_round _ _ _ _) as [row' state']. cbn [fst snd] in *. subst row'.
  rewrite app_assoc, IH; [by rewrite Ec, <- !app_assoc|done|].
  rewrite length_app, <- Hk. destruct (half_steps_states state msg Hs) as [Hsq Est].
  rewrite <- Est. rewrite !Forall_cons in Hsq. destruct Hsq as (H1 & H2 & H3 & H4 & _).
  cbn [fmap list_fmap concat].
  rewrite !length_app, !length_state_columns by (by apply is_square_concat).
  change B3_FULL_ROUND_WIDTH with (4 * 272)%nat. cbn [length]. lia.
Qed.

Lemma length_half_g state a b c d m r1 r2 : length (half_g state a b c d m r1 r2) = length state.
Proof. unfold half_g. cbv zeta. by rewrite !length_insert. Qed.

Lemma round_states_length state m :
  length state = 16%nat → Forall (λ s, length s = 16%nat) (round_states state m).
Proof.
  intros H. unfold round_states, half_diagonals, half_columns. cbv zeta.
  rewrite !Forall_cons, !length_half_g. by repeat split.
Qed.

Lemma length_rounds_columns n state m :
  length state = 16%nat → length (rounds_columns n state m) = (n * (4 * 272))%nat.
Proof.
  revert state m. induction n as [|n IH]; intros state m H; [done|]. cbn [rounds_columns].
  rewrite length_app, IH by (by rewrite length_round).
  pose proof (round_states_length state m H) as Hs. unfold round_states in *. cbv zeta in *.
  rewrite !Forall_cons in Hs. destruct Hs as (H1 & H2 & H3 & H4 & _).
  cbn [fmap list_fmap concat]. rewrite !length_app, !length_state_columns by assumption.
  cbn [length]. lia.
Qed.

Lemma write_inputs_next c m :
  length (block_words c) = 16%nat → length (cv_words c) = 8%nat →
  write_inputs (replicate (896 + m) 0) c =
    (bits_of_words (block_words c) ++ bits_of_words (cv_words c) ++
     bits_of_words [counter c mod 2 ^ 32; Z.shiftr (counter c) 32 mod 2 ^ 32; block_len c; flags c]) ++
    replicate m 0.
Proof.
  intros Hb Hc. unfold write_inputs.
  change [?a; ?b; ?c; ?d] with ([a] ++ [b] ++ [c] ++ [d]).
  replace (896 + m)%nat with (length (block_words c) * 32 +
    (length (cv_words c) * 32 + (32 + (32 + (32 + (32 + m))))))%nat by (rewrite Hb, Hc; lia).
  rewrite <- (app_nil_l (replicate _ 0)).
  rewrite write_next_words by done. rewrite app_nil_l.
  rewrite write_next_words by (rewrite length_bits_of_words, Hb; offsets). rewrite app_assoc.
  do 4 (rewrite write_next_bits by
    (rewrite !length_app, !length_bits_of_words, Hb, Hc; cbn [length]; offsets); rewrite ?app_assoc).
  unfold bits_of_words. rewrite !fmap_app, !concat_app, <- !app_assoc. reflexivity.
Qed.

Definition initial_writes (cv : list Z) : list (nat * list Z) :=
  concat ((λ i, limb_writes (i * 2) (cv !!! i) ++ limb_writes (8 + i * 2) (IV !!! i)) <$> seq 0 4).

Lemma initial_rows_next pre m cv :
  length pre = B3_INITIAL_ROW0_OFFSET → length cv = 8%nat →
  write_initial_rows (pre ++ replicate (16 + m) 0) cv =
    pre ++ (limbs_of_words (take 4 cv) ++ limbs_of_words (take 4 IV)) ++ replicate m 0.
Proof.
  intros Hp Hc.
  assert (E : ∀ row, write_initial_rows row cv = writes (length pre) row (initial_writes cv)).
  { intros row. unfold write_initial_rows, write_limbs. cbn [foldl seq].
    unfold B3_INITIAL_ROW2_OFFSET. rewrite <- Hp, <- !Nat.add_assoc. reflexivity. }
  rewrite E, writes_next.
  - do 8 (destruct cv as [|? cv]; [discriminate Hc|]). reflexivity.
  - unfold initial_writes, limb_writes. cbn [fmap list_fmap concat seq app]. rewrite !Forall_cons.
    cbn [fst snd length]. repeat split; [lia..|constructor].
Qed.

Definition output_writes (ws : list Z) : list (nat * list Z) :=
  (λ j, ((j * 32)%nat, bits_le (ws !!! j))) <$> [0; 4; 8; 12; 1; 5; 9; 13; 2; 6; 10; 14; 3; 7; 11; 15]%nat.

Lemma outputs_next pre off m state cv :
  off = length pre →
  write_outputs off (pre ++ replicate (512 + m) 0) state cv =
    pre ++ bits_of_words (row_outputs state cv) ++ replicate m 0.
Proof.
  intros ->. rewrite write_outputs_words.
  assert (E : ∀ row, write_words (length pre) row ((λ j, (j, row_outputs state cv !!! j)) <$>
    [0; 4; 8; 12; 1; 5; 9; 13; 2; 6; 10; 14; 3; 7; 11; 15]%nat) =
    writes (length pre) row (output_writes (row_outputs state cv))) by reflexivity.
  assert (L : length (row_outputs state cv) = 16%nat) by done. revert E L.
  generalize (row_outputs state cv). intros ws E L. rewrite E, writes_next.
  - do 2 f_equal. do 16 (destruct ws as [|? ws]; [discriminate L|]). destruct ws; [|discriminate L].
    lazy -[Z.b2z Z.testbit]. reflexivity.
  - apply Forall_fmap, list.Forall_forall. intros j Hj. cbn [compose fst snd].
    rewrite length_bits_le. rewrite !elem_of_cons in Hj.
    assert (j < 16)%nat by (repeat destruct Hj as [->|Hj]; [lia..|by apply elem_of_nil in Hj]). lia.
Qed.

(** ** The whole row *)

Lemma fill_trace_row_columns c :
  wf_compression c → fill_trace_row (zero_row NUM_BLAKE3_COLS) c = blake3_columns c.
Proof.
  intros ([Hb _] & [Hc _] & _).
  assert (Hsq : is_square (row_state c)).
  { split; [done|]. repeat constructor; rewrite ?length_take, ?length_drop, ?Hc; done. }
  assert (Estart : concat (row_state c) = initial_state (cv_words c) (counter c) (block_len c) (flags c)).
  { unfold row_state, initial_state. cbn [concat]. rewrite app_nil_r, app_assoc.
    by rewrite (take_take_drop (cv_words c) 4 4). }
  unfold fill_trace_row, zero_row, blake3_columns. cbv zeta.
  replace NUM_BLAKE3_COLS with (896 + (16 + (7 * (4 * 272) + (4 * 32 + (512 + 0)))))%nat by offsets.
  rewrite write_inputs_next by done.
  set (p1 := bits_of_words (block_words c) ++ _ ++ _).
  assert (L1 : length p1 = 896%nat).
  { unfold p1. rewrite !length_app, !length_bits_of_words, Hb, Hc. done. }
  rewrite initial_rows_next by (done || rewrite L1; offsets). rewrite app_assoc.
  set (p2 := p1 ++ _).
  assert (L2 : length p2 = 912%nat).
  { unfold p2. rewrite !length_app, !length_limbs_of_words, !length_take, L1, Hc. done. }
  pose proof (fill_rounds_next 7 0 p2 (4 * 32 + (512 + 0)) (row_state c) (block_words c) Hsq) as Er.
  destruct (fill_rounds_rounds 7 0 (p2 ++ replicate (7 * (4 * 272) + (4 * 32 + (512 + 0))) 0)
    (row_state c) (block_words c) Hsq) as [Hsq' Es].
  pose proof (row_outputs_compress c 0 (p2 ++ replicate (7 * (4 * 272) + (4 * 32 + (512 + 0))) 0) Hc) as Eo.
  destruct (fill_rounds _ _ _ _ _) as [row state]. cbn [fst snd] in *.
  rewrite Er by (rewrite L2; offsets). rewrite app_assoc.
  set (p3 := p2 ++ _).
  assert (L3 : length p3 = B3_FINAL_HELPERS_OFFSET).
  { unfold p3. rewrite length_app, L2, length_rounds_columns by (by apply is_square_concat). offsets. }
  apply is_square_inv in Hsq' as (s0 & s1 & s2 & s3 & -> & H0 & H1 & H2 & H3).
  change ([s0; s1; s2; s3] !!! 2%nat) with s2.
  replace (4 * 32 + (512 + 0))%nat with (length s2 * 32 + (512 + 0))%nat by (by rewrite H2).
  rewrite write_next_words by (rewrite L3; lia). rewrite app_assoc.
  rewrite outputs_next.
  2: { rewrite length_app, length_bits_of_words, H2, L3. offsets. }
  rewrite Eo, <- Estart, <- Es. cbn [concat]. rewrite !app_nil_r.
  replace (take 4 (drop 8 (s0 ++ s1 ++ s2 ++ s3))) with s2.
  - unfold p3, p2, p1. by rewrite <- !app_assoc.
  - rewrite app_assoc. rewrite drop_app_length' by (by rewrite length_app, H0, H1).
    by rewrite take_app_length'.
Qed.

(** ** Properties *)

(** the row that the prover fills for a compression is exactly the row of
    the column layout of [Blake3Cols]: the message, chaining value, counter,
    length and flags as bits, the state after every half round of the BLAKE3
    specification as limbs and bits, and the sixteen output words as bits.
    It has the width of the AIR, and the columns that the lookup reads hold
    the compression's inputs and its chaining-value output. *)
Theorem trace_row_layout c :
  wf_compression c →
  fill_trace_row (zero_row NUM_BLAKE3_COLS) c = blake3_columns c ∧
  length (blake3_columns c) = NUM_BLAKE3_COLS ∧ io_cells (blake3_columns c) c.
Proof.
  intros H. pose proof (fill_trace_row_columns c H) as E. split; [exact E|].
  rewrite <- E. apply fill_trace_row_spec; [apply length_replicate|exact H].
Qed.


Module ExampleBlake3.

(** The specification itself, as the hash function. *)
Definition chunk_hashes : HashFns := {| blake3_hash := chunk_hash; sha3_digest := toy_hash 11 |}.

#[export] Instance chunk_hash_laws : Blake3Laws chunk_hashes.
Proof. by split. Qed.

Definition leaf : Compression := leaf_compression 1 2 (ascii_bytes "gamma").

Lemma trace_row_layout_witness :
  fill_trace_row (zero_row NUM_BLAKE3_COLS) leaf = blake3_columns leaf ∧
  length (blake3_columns leaf) = NUM_BLAKE3_COLS ∧ io_cells (blake3_columns leaf) leaf.
Proof. apply (trace_row_layout leaf). unfold wf_compression. by_compute. Defined.


End ExampleBlake3.
