(* ===== verification/Air.v ===== *)
(** * The membership AIR and its trace

    [omega-claim-prover/src/lib.rs], the algebraic part: the columns of the
    membership trace, the constraints of [OmegaMembershipAir::eval], the
    lookups between the membership traces and the BLAKE3 trace, and the
    generation of both traces.

    Field elements are integers; a constraint is the integer value of its
    polynomial and holds when that value is divisible by the BabyBear prime.
    [p3_blake3_air]'s row constraints are the operation of the class
    [Blake3Air]; the LogUp argument is modelled by what it establishes, equal
    total multiplicities of every tuple ([bus_balanced]). *)

From S2P Require Import Prelude Hash Tree ClaimTx Prover Blake3.
From Stdlib Require Import ZArith Lia List String.
From stdpp Require Import base decidable list.

Local Open Scope Z_scope.

(** ** Field and constraint builder *)

(** The BabyBear modulus. *)
Definition babybear : Z := 2013265921.

Definition fzero (x : Z) : bool := x mod babybear =? 0.

(** [AirBuilder]: asserting appends polynomial values that must vanish, and
    [when] multiplies them by a gate. *)
Definition assert_zero (x : Z) : list Z := [x].
Definition assert_one (x : Z) : list Z := [x - 1].
Definition assert_eq (x y : Z) : list Z := [x - y].
Definition assert_bool (x : Z) : list Z := [x * (x - 1)].
Definition when (gate : Z) (cs : list Z) : list Z := Z.mul gate <$> cs.

(** A loop of assertions over [0..n]. *)
Definition for_each (n : nat) (f : nat → list Z) : list Z := concat (f <$> seq 0 n).

Definition sum_over (n : nat) (f : nat → Z) : Z := fold_right Z.add 0 (f <$> seq 0 n).

(** ** Columns *)

Definition LEAF_PAYLOAD_LEN_CHOICES : nat := (MAX_V01_LEAF_PAYLOAD_LEN + 1)%nat.
Definition REMAINING_INDEX_BITS : nat := 64.

Definition COL_SUB_TREE_ID : nat := 0.
Definition COL_LEAF_INDEX_BE : nat := (COL_SUB_TREE_ID + 1)%nat.
Definition COL_REMAINING_INDEX_BITS : nat := (COL_LEAF_INDEX_BE + LEAF_INDEX_LEN)%nat.
Definition COL_PATH_STEP_INDEX : nat := (COL_REMAINING_INDEX_BITS + REMAINING_INDEX_BITS)%nat.
Definition COL_TREE_DEPTH : nat := (COL_PATH_STEP_INDEX + 1)%nat.
Definition COL_PAYLOAD_LEN : nat := (COL_TREE_DEPTH + 1)%nat.
Definition COL_PAYLOAD_LEN_SELECTOR : nat := (COL_PAYLOAD_LEN + 1)%nat.
Definition COL_PAYLOAD : nat := (COL_PAYLOAD_LEN_SELECTOR + LEAF_PAYLOAD_LEN_CHOICES)%nat.
Definition COL_PREV_NODE : nat := (COL_PAYLOAD + MAX_V01_LEAF_PAYLOAD_LEN)%nat.
Definition COL_SIBLING : nat := (COL_PREV_NODE + HASH_LEN)%nat.
Definition COL_LEFT_NODE : nat := (COL_SIBLING + HASH_LEN)%nat.
Definition COL_RIGHT_NODE : nat := (COL_LEFT_NODE + HASH_LEN)%nat.
Definition COL_NODE_MID : nat := (COL_RIGHT_NODE + HASH_LEN)%nat.
Definition COL_CURRENT_NODE : nat := (COL_NODE_MID + HASH_LEN)%nat.
Definition COL_DIRECTION_BIT : nat := (COL_CURRENT_NODE + HASH_LEN)%nat.
Definition COL_HAS_NODE_HASH : nat := (COL_DIRECTION_BIT + 1)%nat.
Definition COL_IS_FIRST_STEP : nat := (COL_HAS_NODE_HASH + 1)%nat.
Definition COL_IS_REAL_STEP : nat := (COL_IS_FIRST_STEP + 1)%nat.
Definition COL_IS_LAST_STEP : nat := (COL_IS_REAL_STEP + 1)%nat.
Definition NUM_MEMBERSHIP_COLS : nat := (COL_IS_LAST_STEP + 1)%nat.

(** [local[offset + i]] for [i] in [0..n]. *)
Definition cells (local : list Z) (offset n : nat) : list Z :=
  (λ i, local !!! (offset + i)%nat) <$> seq 0 n.

(** ** Constraints *)

Definition assert_payload_len_selector (local : list Z) : list Z :=
  let selector := λ choice, local !!! (COL_PAYLOAD_LEN_SELECTOR + choice)%nat in
  for_each LEAF_PAYLOAD_LEN_CHOICES (λ choice, assert_bool (selector choice)) ++
  assert_one (sum_over LEAF_PAYLOAD_LEN_CHOICES selector) ++
  assert_eq (local !!! COL_PAYLOAD_LEN)
    (sum_over LEAF_PAYLOAD_LEN_CHOICES (λ choice, selector choice * Z.of_nat choice)) ++
  for_each MAX_V01_LEAF_PAYLOAD_LEN (λ payload_index,
    assert_zero (local !!! (COL_PAYLOAD + payload_index)%nat *
                 sum_over (S payload_index) selector)).

Definition assert_remaining_bits_match_leaf_index (local public : list Z) : list Z :=
  for_each LEAF_INDEX_LEN (λ byte_index,
    assert_eq
      (sum_over 8 (λ bit, local !!! (COL_REMAINING_INDEX_BITS + byte_index * 8 + bit)%nat *
                          2 ^ Z.of_nat bit))
      (public !!! (PUBLIC_LEAF_INDEX_OFFSET + LEAF_INDEX_LEN - 1 - byte_index)%nat)).

(** [OmegaMembershipAir::eval] on the window of rows [local], [next].  The
    selectors of the first and last row and of transitions are 0 or 1. *)
Definition eval_membership (is_first_row is_last_row : bool) (local next public : list Z) : list Z :=
  let when_first_row := when (Z.b2z is_first_row) in
  let when_last_row := when (Z.b2z is_last_row) in
  let when_transition := when (Z.b2z (negb is_last_row)) in
  let real := local !!! COL_IS_REAL_STEP in
  let not_real := 1 - real in
  let first_step := local !!! COL_IS_FIRST_STEP in
  let last_step := local !!! COL_IS_LAST_STEP in
  let has_node := local !!! COL_HAS_NODE_HASH in
  let direction := local !!! COL_DIRECTION_BIT in
  let no_node_active := real - has_node in
  let continue_active := real * (1 - last_step) in
  let stop_active := real * last_step in
  (* boolean flags *)
  assert_bool real ++ assert_bool last_step ++ assert_bool first_step ++
  assert_bool has_node ++ assert_bool direction ++
  (* first row *)
  when_first_row (assert_one real ++ assert_one first_step ++
                  assert_zero (local !!! COL_PATH_STEP_INDEX)) ++
  (* public inputs on real rows *)
  when real (
    assert_eq (local !!! COL_SUB_TREE_ID) (public !!! PUBLIC_SUB_TREE_ID_OFFSET) ++
    assert_eq (local !!! COL_TREE_DEPTH) (public !!! PUBLIC_TREE_DEPTH_OFFSET) ++
    for_each LEAF_INDEX_LEN (λ offset,
      assert_eq (local !!! (COL_LEAF_INDEX_BE + offset)%nat)
                (public !!! (PUBLIC_LEAF_INDEX_OFFSET + offset)%nat)) ++
    assert_payload_len_selector local ++
    for_each REMAINING_INDEX_BITS (λ bit,
      assert_bool (local !!! (COL_REMAINING_INDEX_BITS + bit)%nat))) ++
  (* bit decomposition of the leaf index on the first step *)
  when first_step (assert_one real ++ assert_remaining_bits_match_leaf_index local public) ++
  (* direction and swap on rows with a node hash *)
  when has_node (assert_eq direction (local !!! COL_REMAINING_INDEX_BITS)) ++
  when (has_node * (1 - direction)) (for_each HASH_LEN (λ byte,
    assert_eq (local !!! (COL_LEFT_NODE + byte)%nat) (local !!! (COL_PREV_NODE + byte)%nat) ++
    assert_eq (local !!! (COL_RIGHT_NODE + byte)%nat) (local !!! (COL_SIBLING + byte)%nat))) ++
  when (has_node * direction) (for_each HASH_LEN (λ byte,
    assert_eq (local !!! (COL_LEFT_NODE + byte)%nat) (local !!! (COL_SIBLING + byte)%nat) ++
    assert_eq (local !!! (COL_RIGHT_NODE + byte)%nat) (local !!! (COL_PREV_NODE + byte)%nat))) ++
  (* real rows without a node hash *)
  when no_node_active (
    assert_zero (local !!! COL_TREE_DEPTH) ++
    for_each HASH_LEN (λ byte,
      assert_eq (local !!! (COL_CURRENT_NODE + byte)%nat) (local !!! (COL_PREV_NODE + byte)%nat) ++
      assert_zero (local !!! (COL_SIBLING + byte)%nat) ++
      assert_zero (local !!! (COL_LEFT_NODE + byte)%nat) ++
      assert_zero (local !!! (COL_RIGHT_NODE + byte)%nat) ++
      assert_zero (local !!! (COL_NODE_MID + byte)%nat))) ++
  (* last real row *)
  when stop_active (
    assert_eq (local !!! COL_PATH_STEP_INDEX + has_node) (local !!! COL_TREE_DEPTH) ++
    for_each HASH_LEN (λ byte,
      assert_eq (local !!! (COL_CURRENT_NODE + byte)%nat)
                (public !!! (PUBLIC_ROOT_OFFSET + byte)%nat))) ++
  (* transitions *)
  when_transition (
    assert_zero (next !!! COL_IS_FIRST_STEP) ++
    when continue_active (assert_one (next !!! COL_IS_REAL_STEP)) ++
    when stop_active (assert_zero (next !!! COL_IS_REAL_STEP)) ++
    when not_real (assert_zero (next !!! COL_IS_REAL_STEP)) ++
    when not_real (assert_zero (next !!! COL_IS_FIRST_STEP)) ++
    when continue_active (
      assert_eq (next !!! COL_PATH_STEP_INDEX) (local !!! COL_PATH_STEP_INDEX + 1) ++
      for_each HASH_LEN (λ byte,
        assert_eq (next !!! (COL_PREV_NODE + byte)%nat) (local !!! (COL_CURRENT_NODE + byte)%nat)) ++
      for_each (REMAINING_INDEX_BITS - 1) (λ bit,
        assert_eq (next !!! (COL_REMAINING_INDEX_BITS + bit)%nat)
                  (local !!! (COL_REMAINING_INDEX_BITS + bit + 1)%nat)) ++
      assert_zero (next !!! (COL_REMAINING_INDEX_BITS + REMAINING_INDEX_BITS - 1)%nat))) ++
  when_last_row (assert_zero (real * (1 - last_step))) ++
  (* padding rows *)
  when (1 - real) (concat (assert_zero <$> local)).

(** A row of canonical field elements. *)
Definition is_row (width : nat) (row : list Z) : bool :=
  Nat.eqb (length row) width && forallb (λ x, (0 <=? x) && (x <? babybear)) row.

(** Row [i] and its successor, cyclically, satisfy every constraint. *)
Definition window_ok (trace : list (list Z)) (public : list Z) (i : nat) : bool :=
  let h := length trace in
  forallb fzero (eval_membership (Nat.eqb i 0) (Nat.eqb (S i) h)
                   (trace !!! i) (trace !!! (S i mod h)%nat) public).

(** The field's two-adic domain holds traces of at most [2^27] rows. *)
Definition membership_ok (trace : list (list Z)) (public : list Z) : bool :=
  (1 <=? length trace)%nat && (Z.of_nat (length trace) <=? 2 ^ 27) &&
  forallb (is_row NUM_MEMBERSHIP_COLS) trace &&
  forallb (window_ok trace public) (seq 0 (length trace)).

(** ** Lookups *)

Definition const_u32_bytes (value : Z) : list Z := b2z <$> le_bytes 4 value.

(** [byte_expr_from_bits]. *)
Definition byte_from_bits (local : list Z) (offset : nat) : Z :=
  sum_over 8 (λ bit, local !!! (offset + bit)%nat * 2 ^ Z.of_nat bit).

Definition iv_exprs : list Z := concat (const_u32_bytes <$> IV).

Definition leaf_lookup_exprs (local : list Z) : list Z :=
  (b2z <$> DOMAIN_LEAF) ++ [local !!! COL_SUB_TREE_ID] ++
  cells local COL_LEAF_INDEX_BE LEAF_INDEX_LEN ++ replicate 7 0 ++ [local !!! COL_PAYLOAD_LEN] ++
  cells local COL_PAYLOAD MAX_V01_LEAF_PAYLOAD_LEN ++
  replicate (64 - length DOMAIN_LEAF - 1 - LEAF_INDEX_LEN - 8 - MAX_V01_LEAF_PAYLOAD_LEN) 0 ++
  iv_exprs ++ replicate COUNTER_BYTES 0 ++
  [Z.of_nat (length DOMAIN_LEAF + 1 + LEAF_INDEX_LEN + 8) + local !!! COL_PAYLOAD_LEN] ++
  replicate (U32_BYTES - 1) 0 ++ const_u32_bytes LEAF_FLAGS ++ cells local COL_PREV_NODE HASH_LEN.

Definition node_first_lookup_exprs (local : list Z) : list Z :=
  (b2z <$> DOMAIN_NODE) ++ cells local COL_LEFT_NODE HASH_LEN ++
  cells local COL_RIGHT_NODE (64 - length DOMAIN_NODE - HASH_LEN) ++
  iv_exprs ++ replicate COUNTER_BYTES 0 ++ const_u32_bytes 64 ++
  const_u32_bytes NODE_FIRST_FLAGS ++ cells local COL_NODE_MID HASH_LEN.

Definition node_second_lookup_exprs (local : list Z) : list Z :=
  cells local (COL_RIGHT_NODE + (64 - length DOMAIN_NODE - HASH_LEN))
    (HASH_LEN - (64 - length DOMAIN_NODE - HASH_LEN)) ++
  replicate (64 - (length DOMAIN_NODE + HASH_LEN * 2 - 64)) 0 ++
  cells local COL_NODE_MID HASH_LEN ++ replicate COUNTER_BYTES 0 ++ const_u32_bytes 13 ++
  const_u32_bytes NODE_SECOND_FLAGS ++ cells local COL_CURRENT_NODE HASH_LEN.

(** The bytes of [n] words of bits from [offset]. *)
Definition word_bytes (local : list Z) (offset n : nat) : list Z :=
  concat ((λ word, (λ byte, byte_from_bits local (offset + word * 32 + byte * 8)%nat) <$> seq 0 4)
          <$> seq 0 n).

Definition blake3_table_lookup_exprs (local : list Z) : list Z :=
  word_bytes local B3_INPUTS_OFFSET 16 ++ word_bytes local B3_CHAINING_VALUES_OFFSET 8 ++
  word_bytes local B3_COUNTER_LOW_OFFSET 1 ++ word_bytes local B3_COUNTER_HI_OFFSET 1 ++
  word_bytes local B3_BLOCK_LEN_OFFSET 1 ++ word_bytes local B3_FLAGS_OFFSET 1 ++
  word_bytes local B3_OUTPUTS_OFFSET 8.

(** A tuple of field elements with its multiplicity. *)
Abbreviation interaction := (list Z * Z)%type.

Definition field_tuple (exprs : list Z) : list Z := (λ x, x mod babybear) <$> exprs.

(** [OmegaMembershipAir::get_lookups]: what one row receives. *)
Definition membership_lookups (local : list Z) : list interaction :=
  let real := local !!! COL_IS_REAL_STEP in
  let has_node := local !!! COL_HAS_NODE_HASH in
  let node_mult := real * has_node in
  [ (field_tuple (leaf_lookup_exprs local), local !!! COL_IS_FIRST_STEP);
    (field_tuple (node_first_lookup_exprs local), node_mult);
    (field_tuple (node_second_lookup_exprs local), node_mult) ].

(** [OmegaBlake3Air::get_lookups]: what one row sends. *)
Definition blake3_lookups (local : list Z) : list interaction :=
  let flag0 := local !!! B3_FLAGS_OFFSET in
  let flag1 := local !!! (B3_FLAGS_OFFSET + 1)%nat in
  let multiplicity := flag0 + flag1 - flag0 * flag1 in
  [ (field_tuple (blake3_table_lookup_exprs local), multiplicity) ].

(** The total multiplicity of a tuple. *)
Definition bus_total (v : list Z) (l : list interaction) : Z :=
  fold_right (λ p acc, if decide (p.1 = v) then p.2 + acc else acc) 0 l.

(** Both sides of the bus carry every tuple equally often. *)
Definition bus_balanced (receives sends : list interaction) : bool :=
  forallb (λ p, fzero (bus_total p.1 receives - bus_total p.1 sends)) (receives ++ sends).

Class Blake3Air := {
  (** The constraints of [p3_blake3_air::Blake3Air] on one row. *)
  blake3_row_ok : list Z → bool
}.

(** What [p3_batch_stark] proves of a batch: every membership trace satisfies
    its constraints for its public values, every row of the BLAKE3 trace
    satisfies [Blake3Air], and the bus is balanced. *)
Definition batch_ok `{Blake3Air} (membership : list (list (list Z))) (blake3 : list (list Z))
    (public_values : list (list Z)) : bool :=
  Nat.eqb (length membership) (length public_values) &&
  forallb (λ p, membership_ok p.1 p.2) (zip membership public_values) &&
  forallb (λ row, is_row NUM_BLAKE3_COLS row && blake3_row_ok row) blake3 &&
  bus_balanced (concat (membership_lookups <$> concat membership))
               (concat (blake3_lookups <$> blake3)).

(** ** Trace generation *)

Record RealRowValues := {
  rr_step : nat;
  rr_remaining_index : Z;
  rr_direction : Z;
  rr_has_node : bool;
  rr_prev : bytes;
  rr_sibling : bytes;
  rr_left : bytes;
  rr_right : bytes;
  rr_mid : bytes;
  rr_current : bytes
}.

Definition copy_hash (row : list Z) (offset : nat) (hash : bytes) : list Z :=
  write_at row offset (b2z <$> hash).

Definition set_cell (row : list Z) (col : nat) (v : Z) : list Z := write_at row col [v].

Definition fill_real_row (row : list Z) (w : CheckedWitness) (r : RealRowValues) : list Z :=
  let p := cw_public w in
  let row := set_cell row COL_SUB_TREE_ID (sub_tree_id p) in
  let row := write_at row COL_LEAF_INDEX_BE (b2z <$> be_bytes 8 (leaf_index p)) in
  let row := write_at row COL_REMAINING_INDEX_BITS
    ((λ bit, Z.b2z (Z.land (Z.shiftr (rr_remaining_index r) (Z.of_nat bit)) 1 =? 1))
       <$> seq 0 REMAINING_INDEX_BITS) in
  let row := set_cell row COL_PATH_STEP_INDEX (Z.of_nat (rr_step r) mod 2 ^ 32) in
  let row := set_cell row COL_TREE_DEPTH (tree_depth p) in
  let row := set_cell row COL_PAYLOAD_LEN (Z.of_nat (length (cw_leaf_payload w)) mod 256) in
  let row := set_cell row (COL_PAYLOAD_LEN_SELECTOR + length (cw_leaf_payload w)) 1 in
  let row := write_at row COL_PAYLOAD (b2z <$> cw_leaf_payload w) in
  let row := copy_hash row COL_PREV_NODE (rr_prev r) in
  let row := copy_hash row COL_SIBLING (rr_sibling r) in
  let row := copy_hash row COL_LEFT_NODE (rr_left r) in
  let row := copy_hash row COL_RIGHT_NODE (rr_right r) in
  let row := copy_hash row COL_NODE_MID (rr_mid r) in
  let row := copy_hash row COL_CURRENT_NODE (rr_current r) in
  let row := set_cell row COL_DIRECTION_BIT (rr_direction r) in
  let row := set_cell row COL_HAS_NODE_HASH (Z.b2z (rr_has_node r)) in
  let row := set_cell row COL_IS_FIRST_STEP (Z.b2z (Nat.eqb (rr_step r) 0)) in
  let row := set_cell row COL_IS_REAL_STEP 1 in
  set_cell row COL_IS_LAST_STEP
    (Z.b2z (Nat.eqb (rr_step r + 1) (Nat.max (length (cw_merkle_path w)) 1))).

(** One pass of the loop over the path, from [step], [prev] and
    [remaining_index]: the values of the row and its compressions. *)
Definition real_row_step (w : CheckedWitness) (step : nat) (prev : bytes) (remaining_index : Z) :
    RealRowValues * list Compression :=
  let has_node := (0 <? length (cw_merkle_path w))%nat in
  let sibling := default ZERO_HASH (cw_merkle_path w !! step) in
  let direction := if has_node then Z.land remaining_index 1 else 0 in
  let '(lhs, rhs) := if direction =? 0 then (prev, sibling) else (sibling, prev) in
  let '(mid, current, compressions) :=
    if has_node then
      let '(first, second) := node_compressions lhs rhs in
      (hash_from_words (output_words first), hash_from_words (output_words second), [first; second])
    else (ZERO_HASH, prev, []) in
  ({| rr_step := step; rr_remaining_index := remaining_index; rr_direction := direction;
      rr_has_node := has_node; rr_prev := prev; rr_sibling := sibling; rr_left := lhs;
      rr_right := rhs; rr_mid := mid; rr_current := current |}, compressions).

(** [for step in 0..real_rows], [n] steps left. *)
Fixpoint real_rows_from (w : CheckedWitness) (n step : nat) (prev : bytes) (remaining_index : Z) :
    list RealRowValues * list Compression :=
  match n with
  | O => ([], [])
  | S n' =>
      let '(r, cs) := real_row_step w step prev remaining_index in
      let '(rs, css) := real_rows_from w n' (S step) (rr_current r) (Z.shiftr remaining_index 1) in
      (r :: rs, cs ++ css)
  end.

Inductive TraceTamper : Type := PayloadByte | SiblingByte | CurrentNodeByte | LeafIndexByte.

Definition tamper_trace (row : list Z) (t : TraceTamper) : list Z :=
  let column := match t with
    | PayloadByte => COL_PAYLOAD
    | SiblingByte => COL_SIBLING
    | CurrentNodeByte => COL_CURRENT_NODE
    | LeafIndexByte => (COL_LEAF_INDEX_BE + LEAF_INDEX_LEN - 1)%nat
    end in
  set_cell row column ((row !!! column + 1) mod babybear).

(** Applies [f] to the first row. *)
Definition map_head (f : list Z → list Z) (trace : list (list Z)) : list (list Z) :=
  match trace with [] => [] | row :: rows => f row :: rows end.

(** The trace, and the compressions it appends. *)
Definition build_membership_trace (w : CheckedWitness) (tamper : option TraceTamper) :
    list (list Z) * list Compression :=
  let path_len := length (cw_merkle_path w) in
  let real_rows := Nat.max path_len 1 in
  let height := Nat.max (next_power_of_two real_rows) 8 in
  let leaf := leaf_compression (sub_tree_id (cw_public w)) (leaf_index (cw_public w))
                (cw_leaf_payload w) in
  let '(rs, cs) := real_rows_from w real_rows 0 (cw_leaf_hash w) (leaf_index (cw_public w)) in
  let trace := (fill_real_row (zero_row NUM_MEMBERSHIP_COLS) w <$> rs) ++
               replicate (height - real_rows) (zero_row NUM_MEMBERSHIP_COLS) in
  (match tamper with Some t => map_head (λ row, tamper_trace row t) trace | None => trace end,
   leaf :: cs).

(** Only the first witness is tampered with. *)
Fixpoint build_membership_traces (ws : list CheckedWitness) (tamper : option TraceTamper) :
    list (list (list Z)) * list Compression :=
  match ws with
  | [] => ([], [])
  | w :: ws' =>
      let '(t, cs) := build_membership_trace w tamper in
      let '(ts, css) := build_membership_traces ws' None in
      (t :: ts, cs ++ css)
  end.

(** The membership traces and the BLAKE3 trace. *)
Definition build_traces (ws : list CheckedWitness) (tamper : option TraceTamper) :
    list (list (list Z)) * list (list Z) :=
  let '(ts, cs) := build_membership_traces ws tamper in
  (ts, build_blake3_trace cs).
