(* ===== verification/AirFacts.v ===== *)
(** * Facts about the membership AIR

    Primality of the field modulus, the meaning of the constraint builder,
    and the reading of [eval_membership] as a relation between two rows. *)

From S2P Require Import Prelude Hash Tree TreeSpec ClaimTx Prover Blake3 Blake3Spec Air.
From Stdlib Require Import ZArith Znumtheory Lia List String.
From stdpp Require Import base decidable list.

Local Open Scope Z_scope.

(** ** The field *)

Fixpoint no_divisor (fuel : nat) (d : Z) : bool :=
  match fuel with
  | O => true
  | S fuel' => negb (babybear mod d =? 0) && no_divisor fuel' (d + 1)
  end.

Lemma no_divisor_spec fuel d n :
  no_divisor fuel d = true → d <= n < d + Z.of_nat fuel → babybear mod n ≠ 0.
Proof.
  revert d. induction fuel as [|fuel IH]; intros d H Hn; [lia|]. cbn [no_divisor] in H.
  apply andb_true_iff in H as [H1 H2]. destruct (decide (n = d)) as [->|].
  - destruct (Z.eqb_spec (babybear mod d) 0); done.
  - apply (IH (d + 1)); [done|lia].
Qed.

Lemma babybear_prime : Z.prime babybear.
Proof.
  split; [done|]. intros n Hn [q Hq].
  assert (Hc : no_divisor (Z.to_nat 44869) 2 = true) by (vm_compute; reflexivity).
  assert (Hd : ∀ a b, 1 < a → babybear = b * a → a < 44871 → False).
  { intros a b Ha E Hlt. apply (no_divisor_spec _ _ a Hc); [lia|].
    rewrite E. apply Z_mod_mult. }
  clear Hc. unfold babybear in *. destruct (decide (n < 44871)) as [Hlt|Hge].
  - apply (Hd n q); [lia|exact Hq|exact Hlt].
  - apply (Hd q n); nia.
Qed.

Lemma fzero_true x : fzero x = true ↔ x mod babybear = 0.
Proof. unfold fzero. apply Z.eqb_eq. Qed.

Lemma fzero_mul a b : fzero (a * b) = true → fzero a = true ∨ fzero b = true.
Proof.
  rewrite !fzero_true. intros H. assert (babybear ≠ 0) by done.
  apply Z.mod_divide in H; [|done]. apply Z.divide_prime_mul in H; [|apply babybear_prime].
  destruct H; [left|right]; by apply Z.mod_divide.
Qed.

(** Canonical field elements. *)
Definition canon (x : Z) : Prop := 0 <= x < babybear.

Lemma canon_eq x y : canon x → canon y → fzero (x - y) = true → x = y.
Proof.
  unfold canon. rewrite fzero_true. intros Hx Hy H.
  apply Z.mod_divide in H as [k Hk]; [|done]. unfold babybear in *. nia.
Qed.

Lemma fzero_0 : fzero 0 = true.
Proof. done. Qed.

Lemma fzero_sub x : fzero (x - x) = true.
Proof. by rewrite Z.sub_diag. Qed.

Definition bit (x : Z) : Prop := x = 0 ∨ x = 1.

Lemma canon_bit x : canon x → fzero (x * (x - 1)) = true ↔ bit x.
Proof.
  intros Hx. split.
  - intros [H|H]%fzero_mul; [left|right]; apply canon_eq; try done.
    by rewrite Z.sub_0_r.
  - by intros [-> | ->].
Qed.

(** ** The builder *)

Definition holds (cs : list Z) : Prop := Forall (λ x, fzero x = true) cs.

Lemma holds_forallb cs : forallb fzero cs = true ↔ holds cs.
Proof. unfold holds. rewrite forallb_forall, List.Forall_forall. done. Qed.

Lemma holds_app a b : holds (a ++ b) ↔ holds a ∧ holds b.
Proof. apply Forall_app. Qed.

Lemma holds_one x : holds [x] ↔ fzero x = true.
Proof. unfold holds. by rewrite Forall_singleton. Qed.

Lemma holds_concat css : holds (concat css) ↔ Forall holds css.
Proof.
  induction css as [|c css IH]; cbn [concat]; [split; by constructor|].
  by rewrite holds_app, Forall_cons, IH.
Qed.

Lemma holds_for_each n f : holds (for_each n f) ↔ ∀ i, (i < n)%nat → holds (f i).
Proof.
  unfold for_each. rewrite holds_concat, Forall_fmap, list.Forall_forall.
  setoid_rewrite elem_of_seq. split; intros H i Hi; apply H; lia.
Qed.

Lemma holds_when_zero g cs : fzero g = true → holds (when g cs).
Proof.
  rewrite fzero_true. intros Hg. apply Forall_fmap, list.Forall_forall. intros x _. cbn.
  rewrite fzero_true, Zmult_mod, Hg. done.
Qed.

Lemma holds_when_nonzero g cs : fzero g = false → holds (when g cs) ↔ holds cs.
Proof.
  intros Hg. unfold when, holds. rewrite Forall_fmap. apply Forall_iff. intros x. cbn. split.
  - intros [H|H]%fzero_mul; congruence.
  - rewrite !fzero_true. intros H. by rewrite Zmult_mod, H, Z.mul_0_r.
Qed.

(** A gate that is a boolean of the model. *)
Lemma holds_when_bool (b : bool) cs : holds (when (Z.b2z b) cs) ↔ (b = true → holds cs).
Proof.
  destruct b; cbn [Z.b2z].
  - rewrite holds_when_nonzero by done. naive_solver.
  - split; [done|]. intros _. by apply holds_when_zero.
Qed.

Lemma holds_when_bit g cs : bit g → holds (when g cs) ↔ (g = 1 → holds cs).
Proof.
  intros [-> | ->].
  - split; [done|]. intros _. by apply holds_when_zero.
  - rewrite holds_when_nonzero by done. naive_solver.
Qed.

Lemma holds_when_and a b cs : bit a → bit b → holds (when (a * b) cs) ↔ (a = 1 → b = 1 → holds cs).
Proof.
  intros Ha Hb. rewrite holds_when_bit; destruct Ha, Hb; subst; unfold bit; naive_solver lia.
Qed.

Lemma bit_neg a : bit a → bit (1 - a).
Proof. unfold bit. lia. Qed.

Lemma holds_when_ne a b cs : bit a → bit b → holds (when (a - b) cs) ↔ (a ≠ b → holds cs).
Proof.
  intros [-> | ->] [-> | ->]; cbn.
  - split; [done|]. intros _. by apply holds_when_zero.
  - rewrite holds_when_nonzero by done. naive_solver lia.
  - rewrite holds_when_nonzero by done. naive_solver lia.
  - split; [done|]. intros _. by apply holds_when_zero.
Qed.

(** ** Cells *)

Lemma length_cells row off n : length (cells row off n) = n.
Proof. unfold cells. by rewrite length_fmap, length_seq. Qed.

Lemma cells_eq r1 o1 r2 o2 n :
  cells r1 o1 n = cells r2 o2 n ↔ ∀ i, (i < n)%nat → r1 !!! (o1 + i)%nat = r2 !!! (o2 + i)%nat.
Proof.
  unfold cells. split.
  - intros H i Hi. apply (f_equal (λ l, l !! i)) in H.
    rewrite !list_lookup_fmap, !lookup_seq_lt in H by done. by injection H.
  - intros H. apply list_fmap_ext. intros ? i [-> Hi]%lookup_seq. by apply H.
Qed.

Lemma cells_slice row off n :
  (off + n <= length row)%nat → cells row off n = slice off n row.
Proof.
  intros H. apply list_eq. intros i. unfold cells. destruct (decide (i < n)%nat) as [Hi|Hi].
  - rewrite slice_lookup by done. rewrite list_lookup_fmap, lookup_seq_lt by done. cbn.
    symmetry. apply list_lookup_lookup_total_lt. lia.
  - rewrite !lookup_ge_None_2; [done| |by rewrite length_fmap, length_seq; lia].
    unfold slice. rewrite length_take. lia.
Qed.

Lemma canon_lookup row k : Forall canon row → canon (row !!! k).
Proof.
  intros H. destruct (row !! k) as [x|] eqn:E.
  - rewrite (list_lookup_total_correct _ _ _ E). by apply (list.Forall_lookup_1 _ _ _ _ H E).
  - rewrite list_lookup_total_alt, E. done.
Qed.

Lemma assert_eq_cells r1 o1 r2 o2 n :
  Forall canon r1 → Forall canon r2 →
  holds (for_each n (λ i, assert_eq (r1 !!! (o1 + i)%nat) (r2 !!! (o2 + i)%nat))) ↔
  cells r1 o1 n = cells r2 o2 n.
Proof.
  intros H1 H2. rewrite holds_for_each, cells_eq. unfold assert_eq. setoid_rewrite holds_one.
  split; intros H i Hi.
  - apply canon_eq; auto using canon_lookup.
  - rewrite H by done. apply fzero_sub.
Qed.

Lemma assert_zero_cell r k : Forall canon r → holds (assert_zero (r !!! k)) ↔ r !!! k = 0.
Proof.
  intros Hr. unfold assert_zero. rewrite holds_one. split; [|by intros ->].
  intros H. apply canon_eq; [by apply canon_lookup|done|by rewrite Z.sub_0_r].
Qed.

Lemma assert_one_cell r k : Forall canon r → holds (assert_one (r !!! k)) ↔ r !!! k = 1.
Proof.
  intros Hr. unfold assert_one. rewrite holds_one. split; [|by intros ->].
  intros H. apply canon_eq; [by apply canon_lookup|done|done].
Qed.

Lemma assert_eq_cell r1 k1 r2 k2 :
  Forall canon r1 → Forall canon r2 →
  holds (assert_eq (r1 !!! k1) (r2 !!! k2)) ↔ r1 !!! k1 = r2 !!! k2.
Proof.
  intros H1 H2. unfold assert_eq. rewrite holds_one. split; [|intros ->; apply fzero_sub].
  apply canon_eq; by apply canon_lookup.
Qed.

Lemma assert_bool_cell r k : Forall canon r → holds (assert_bool (r !!! k)) ↔ bit (r !!! k).
Proof.
  intros Hr. unfold assert_bool. rewrite holds_one. apply canon_bit. by apply canon_lookup.
Qed.

(** ** The constraints of one window *)

(** The payload length is one-hot encoded, and the payload columns from that
    length on are zero. *)
Definition payload_shape (local : list Z) : Prop :=
  ∃ len : nat, (len <= 34)%nat ∧ local !!! COL_PAYLOAD_LEN = Z.of_nat len ∧
    (∀ k, (k < 35)%nat →
       local !!! (COL_PAYLOAD_LEN_SELECTOR + k)%nat = Z.b2z (Nat.eqb k len)) ∧
    ∀ k, (len <= k < 34)%nat → local !!! (COL_PAYLOAD + k)%nat = 0.

(** The index bits repack to the big-endian bytes of the public leaf index. *)
Definition index_bits_match (local public : list Z) : Prop :=
  ∀ k, (k < 8)%nat →
    fzero (sum_over 8 (λ b, local !!! (COL_REMAINING_INDEX_BITS + k * 8 + b)%nat * 2 ^ Z.of_nat b)
           - public !!! (PUBLIC_LEAF_INDEX_OFFSET + LEAF_INDEX_LEN - 1 - k)%nat) = true.

Section Window.
Variables (is_first is_last : bool) (local next public : list Z).

Notation real := (local !!! COL_IS_REAL_STEP).
Notation first_step := (local !!! COL_IS_FIRST_STEP).
Notation last_step := (local !!! COL_IS_LAST_STEP).
Notation has_node := (local !!! COL_HAS_NODE_HASH).
Notation direction := (local !!! COL_DIRECTION_BIT).
Notation hash off := (cells local off 32).

(** What the constraints say about two consecutive rows. *)
Record window : Prop := {
  w_real : bit real;
  w_last_bit : bit last_step;
  w_first_bit : bit first_step;
  w_node_bit : bit has_node;
  w_dir_bit : bit direction;
  w_first_row : is_first = true → real = 1 ∧ first_step = 1 ∧ local !!! COL_PATH_STEP_INDEX = 0;
  w_public : real = 1 →
    local !!! COL_SUB_TREE_ID = public !!! PUBLIC_SUB_TREE_ID_OFFSET ∧
    local !!! COL_TREE_DEPTH = public !!! PUBLIC_TREE_DEPTH_OFFSET ∧
    cells local COL_LEAF_INDEX_BE 8 = cells public PUBLIC_LEAF_INDEX_OFFSET 8 ∧
    payload_shape local ∧
    ∀ b, (b < 64)%nat → bit (local !!! (COL_REMAINING_INDEX_BITS + b)%nat);
  w_first_bits : first_step = 1 → real = 1 ∧ index_bits_match local public;
  w_direction : has_node = 1 → direction = local !!! COL_REMAINING_INDEX_BITS;
  w_left : has_node = 1 → direction = 0 →
    hash COL_LEFT_NODE = hash COL_PREV_NODE ∧ hash COL_RIGHT_NODE = hash COL_SIBLING;
  w_right : has_node = 1 → direction = 1 →
    hash COL_LEFT_NODE = hash COL_SIBLING ∧ hash COL_RIGHT_NODE = hash COL_PREV_NODE;
  w_no_node : real ≠ has_node →
    local !!! COL_TREE_DEPTH = 0 ∧ hash COL_CURRENT_NODE = hash COL_PREV_NODE ∧
    hash COL_SIBLING = replicate 32 0 ∧ hash COL_LEFT_NODE = replicate 32 0 ∧
    hash COL_RIGHT_NODE = replicate 32 0 ∧ hash COL_NODE_MID = replicate 32 0;
  w_stop : real = 1 → last_step = 1 →
    fzero (local !!! COL_PATH_STEP_INDEX + has_node - local !!! COL_TREE_DEPTH) = true ∧
    hash COL_CURRENT_NODE = cells public PUBLIC_ROOT_OFFSET 32;
  w_transition : is_last = false →
    next !!! COL_IS_FIRST_STEP = 0 ∧
    (real = 1 → last_step = 0 → next !!! COL_IS_REAL_STEP = 1) ∧
    (real = 1 → last_step = 1 → next !!! COL_IS_REAL_STEP = 0) ∧
    (real = 0 → next !!! COL_IS_REAL_STEP = 0) ∧
    (real = 1 → last_step = 0 →
       fzero (next !!! COL_PATH_STEP_INDEX - (local !!! COL_PATH_STEP_INDEX + 1)) = true ∧
       cells next COL_PREV_NODE 32 = hash COL_CURRENT_NODE ∧
       cells next COL_REMAINING_INDEX_BITS 63 = cells local (COL_REMAINING_INDEX_BITS + 1) 63 ∧
       next !!! (COL_REMAINING_INDEX_BITS + 63)%nat = 0);
  w_last_row : is_last = true → real = 1 → last_step = 1;
  w_padding : real = 0 → Forall (λ x, x = 0) local
}.

End Window.

(** ** Sums *)

Lemma fold_add_app l1 l2 :
  fold_right Z.add 0 (l1 ++ l2) = fold_right Z.add 0 l1 + fold_right Z.add 0 l2.
Proof. induction l1; cbn; lia. Qed.

Lemma sum_over_S n f : sum_over (S n) f = sum_over n f + f n.
Proof.
  unfold sum_over. rewrite seq_S, fmap_app, fold_add_app. cbn. lia.
Qed.

Lemma sum_over_ext n f g : (∀ k, (k < n)%nat → f k = g k) → sum_over n f = sum_over n g.
Proof.
  intros H. induction n as [|n IH]; [done|]. rewrite !sum_over_S, IH, H; [done|lia|].
  intros k Hk. apply H. lia.
Qed.

Lemma sum_over_bound n f : (∀ k, (k < n)%nat → bit (f k)) → 0 <= sum_over n f <= Z.of_nat n.
Proof.
  intros H. induction n as [|n IH]; [done|]. rewrite sum_over_S.
  destruct (H n); [lia| |]; specialize (IH ltac:(intros; apply H; lia)); lia.
Qed.

(** The sum against a one-hot vector picks one term. *)
Lemma sum_over_one_hot n len g :
  sum_over n (λ k, Z.b2z (Nat.eqb k len) * g k) = if (len <? n)%nat then g len else 0.
Proof.
  induction n as [|n IH]; [done|]. rewrite sum_over_S, IH.
  destruct (Nat.ltb_spec len n), (Nat.ltb_spec len (S n)), (Nat.eqb_spec n len); try lia;
    subst; cbn [Z.b2z]; lia.
Qed.

Lemma sum_over_zero n f : (∀ k, (k < n)%nat → bit (f k)) → sum_over n f = 0 →
  ∀ k, (k < n)%nat → f k = 0.
Proof.
  induction n as [|n IH]; intros Hb Hs k Hk; [lia|]. rewrite sum_over_S in Hs.
  pose proof (sum_over_bound n f ltac:(intros; apply Hb; lia)).
  destruct (Hb n) as [Hn|Hn]; [lia| |lia].
  destruct (decide (k = n)) as [->|]; [done|]. apply IH; [intros; apply Hb; lia|lia|lia].
Qed.

(** Bits that add up to one are a one-hot vector. *)
Lemma one_hot n f : (∀ k, (k < n)%nat → bit (f k)) → sum_over n f = 1 →
  ∃ len, (len < n)%nat ∧ ∀ k, (k < n)%nat → f k = Z.b2z (Nat.eqb k len).
Proof.
  induction n as [|n IH]; intros Hb Hs; [discriminate|]. rewrite sum_over_S in Hs.
  assert (Hb' : ∀ k, (k < n)%nat → bit (f k)) by (intros; apply Hb; lia).
  destruct (Hb n) as [Hn|Hn]; [lia| |].
  - destruct (IH Hb') as (len & Hl & H); [lia|]. exists len. split; [lia|]. intros k Hk.
    destruct (decide (k = n)) as [->|]; [|apply H; lia].
    rewrite Hn. destruct (Nat.eqb_spec n len); [lia|done].
  - exists n. split; [lia|]. intros k Hk. destruct (decide (k = n)) as [->|].
    + by rewrite Hn, Nat.eqb_refl.
    + rewrite (sum_over_zero n f Hb'); [|lia|lia]. destruct (Nat.eqb_spec k n); [lia|done].
Qed.

Lemma payload_selector_iff local :
  Forall canon local → holds (assert_payload_len_selector local) ↔ payload_shape local.
Proof.
  intros Hc. unfold assert_payload_len_selector, payload_shape.
  change LEAF_PAYLOAD_LEN_CHOICES with 35%nat. change MAX_V01_LEAF_PAYLOAD_LEN with 34%nat.
  set (sel := λ k, local !!! (COL_PAYLOAD_LEN_SELECTOR + k)%nat).
  rewrite !holds_app, !holds_for_each. unfold sel at 1. setoid_rewrite assert_bool_cell; [|done..].
  unfold assert_one, assert_eq, assert_zero. setoid_rewrite holds_one. split.
  - intros (Hb & Hs & Hl & Hp). fold sel in Hb.
    pose proof (sum_over_bound 35 sel Hb) as Hsb.
    assert (Hs1 : sum_over 35 sel = 1) by (apply canon_eq; [unfold canon, babybear; lia|done|done]).
    destruct (one_hot 35 sel Hb Hs1) as (len & Hlen & Hsel). unfold sel in *. exists len. split; [lia|].
    rewrite (sum_over_ext 35 _ (λ k, Z.b2z (Nat.eqb k len) * Z.of_nat k)) in Hl
      by (intros k Hk; cbv beta; by rewrite Hsel).
    rewrite sum_over_one_hot, (proj2 (Nat.ltb_lt _ _)) in Hl by done.
    split; [apply canon_eq; [by apply canon_lookup|unfold canon, babybear; lia|done]|].
    split; [done|]. intros k Hk. specialize (Hp k ltac:(lia)).
    rewrite (sum_over_ext (S k) _ (λ c, Z.b2z (Nat.eqb c len) * 1)) in Hp
      by (intros c Hc'; cbv beta; rewrite Hsel; lia).
    rewrite sum_over_one_hot, (proj2 (Nat.ltb_lt _ _)), Z.mul_1_r in Hp by lia.
    apply canon_eq; [by apply canon_lookup|done|by rewrite Z.sub_0_r].
  - intros (len & Hlen & Hl & Hsel & Hp). fold sel.
    assert (Hs : ∀ n g, (n <= 35)%nat → sum_over n (λ k, sel k * g k) = if (len <? n)%nat then g len else 0).
    { intros n g Hn. rewrite <- sum_over_one_hot. apply sum_over_ext.
      intros k Hk. unfold sel. rewrite Hsel by lia. done. }
    assert (Hs1 : ∀ n, (n <= 35)%nat → sum_over n sel = if (len <? n)%nat then 1 else 0).
    { intros n Hn. rewrite <- (Hs n (λ _, 1)) by done. apply sum_over_ext. intros. lia. }
    split; [intros k Hk; unfold sel; rewrite Hsel by done; destruct (Nat.eqb _ _); [right|left]; done|].
    rewrite Hs1, Hs, (proj2 (Nat.ltb_lt _ _)), Hl by lia. split; [done|]. split; [apply fzero_sub|].
    intros k Hk. rewrite Hs1 by lia. destruct (Nat.ltb_spec len (S k)).
    + by rewrite Hp by lia.
    + by rewrite Z.mul_0_r.
Qed.

Section WindowIff.
Variables (is_first is_last : bool) (local next public : list Z).
Hypotheses (Hl : Forall canon local) (Hn : Forall canon next) (Hp : Forall canon public).

Lemma holds_first_row :
  holds (when (Z.b2z is_first) (assert_one (local !!! COL_IS_REAL_STEP) ++
    assert_one (local !!! COL_IS_FIRST_STEP) ++ assert_zero (local !!! COL_PATH_STEP_INDEX))) ↔
  (is_first = true → local !!! COL_IS_REAL_STEP = 1 ∧ local !!! COL_IS_FIRST_STEP = 1 ∧
     local !!! COL_PATH_STEP_INDEX = 0).
Proof. by rewrite holds_when_bool, !holds_app, !assert_one_cell, assert_zero_cell. Qed.

Lemma holds_bits off n :
  holds (for_each n (λ b, assert_bool (local !!! (off + b)%nat))) ↔
  ∀ b, (b < n)%nat → bit (local !!! (off + b)%nat).
Proof. rewrite holds_for_each. by setoid_rewrite assert_bool_cell. Qed.

Lemma holds_swap a b c d :
  holds (for_each 32 (λ i,
    assert_eq (local !!! (a + i)%nat) (local !!! (b + i)%nat) ++
    assert_eq (local !!! (c + i)%nat) (local !!! (d + i)%nat))) ↔
  cells local a 32 = cells local b 32 ∧ cells local c 32 = cells local d 32.
Proof.
  rewrite holds_for_each, !cells_eq. setoid_rewrite holds_app.
  setoid_rewrite assert_eq_cell; [|done..]. naive_solver.
Qed.

Lemma cells_zero off n :
  cells local off n = replicate n 0 ↔ ∀ i, (i < n)%nat → local !!! (off + i)%nat = 0.
Proof.
  unfold cells. split.
  - intros H i Hi. apply (f_equal (λ l, l !! i)) in H.
    rewrite list_lookup_fmap, lookup_seq_lt, lookup_replicate_2 in H by done. by injection H.
  - intros H. rewrite <- (length_seq n 0) at 2. rewrite <- const_fmap with (f := λ _, 0) by done.
    apply list_fmap_ext. intros ? i [-> Hi]%lookup_seq. by apply H.
Qed.

Lemma holds_no_node :
  holds (assert_zero (local !!! COL_TREE_DEPTH) ++ for_each 32 (λ i,
    assert_eq (local !!! (COL_CURRENT_NODE + i)%nat) (local !!! (COL_PREV_NODE + i)%nat) ++
    assert_zero (local !!! (COL_SIBLING + i)%nat) ++ assert_zero (local !!! (COL_LEFT_NODE + i)%nat) ++
    assert_zero (local !!! (COL_RIGHT_NODE + i)%nat) ++ assert_zero (local !!! (COL_NODE_MID + i)%nat))) ↔
  local !!! COL_TREE_DEPTH = 0 ∧
  cells local COL_CURRENT_NODE 32 = cells local COL_PREV_NODE 32 ∧
  cells local COL_SIBLING 32 = replicate 32 0 ∧ cells local COL_LEFT_NODE 32 = replicate 32 0 ∧
  cells local COL_RIGHT_NODE 32 = replicate 32 0 ∧ cells local COL_NODE_MID 32 = replicate 32 0.
Proof.
  rewrite holds_app, assert_zero_cell, holds_for_each, cells_eq, !cells_zero by done.
  setoid_rewrite holds_app. setoid_rewrite holds_app. setoid_rewrite holds_app. setoid_rewrite holds_app.
  setoid_rewrite assert_eq_cell; [|done..]. setoid_rewrite assert_zero_cell; [|done..].
  naive_solver.
Qed.

Lemma holds_padding : holds (concat (assert_zero <$> local)) ↔ Forall (λ x, x = 0) local.
Proof.
  rewrite holds_concat, Forall_fmap. clear -Hl. revert Hl.
  induction local as [|x l IH]; intros Hl; [split; constructor|].
  apply Forall_cons in Hl as [Hx Hl]. rewrite !Forall_cons, IH by done. cbn. unfold assert_zero. rewrite holds_one. apply and_iff_compat_r. split; [|by intros ->].
  intros H. apply canon_eq; [done|done|by rewrite Z.sub_0_r].
Qed.

Lemma holds_index_bits :
  holds (assert_remaining_bits_match_leaf_index local public) ↔ index_bits_match local public.
Proof.
  unfold assert_remaining_bits_match_leaf_index, index_bits_match, assert_eq.
  rewrite holds_for_each. by setoid_rewrite holds_one.
Qed.

Lemma holds_stop :
  holds (assert_eq (local !!! COL_PATH_STEP_INDEX + local !!! COL_HAS_NODE_HASH)
           (local !!! COL_TREE_DEPTH) ++
         for_each 32 (λ i, assert_eq (local !!! (COL_CURRENT_NODE + i)%nat)
                             (public !!! (PUBLIC_ROOT_OFFSET + i)%nat))) ↔
  fzero (local !!! COL_PATH_STEP_INDEX + local !!! COL_HAS_NODE_HASH - local !!! COL_TREE_DEPTH) = true ∧
  cells local COL_CURRENT_NODE 32 = cells public PUBLIC_ROOT_OFFSET 32.
Proof. rewrite holds_app, assert_eq_cells by done. unfold assert_eq. by rewrite holds_one. Qed.

Lemma holds_continue :
  holds (assert_eq (next !!! COL_PATH_STEP_INDEX) (local !!! COL_PATH_STEP_INDEX + 1) ++
    for_each 32 (λ i, assert_eq (next !!! (COL_PREV_NODE + i)%nat)
                        (local !!! (COL_CURRENT_NODE + i)%nat)) ++
    for_each (64 - 1) (λ i, assert_eq (next !!! (COL_REMAINING_INDEX_BITS + i)%nat)
                        (local !!! (COL_REMAINING_INDEX_BITS + i + 1)%nat)) ++
    assert_zero (next !!! (COL_REMAINING_INDEX_BITS + 64 - 1)%nat)) ↔
  fzero (next !!! COL_PATH_STEP_INDEX - (local !!! COL_PATH_STEP_INDEX + 1)) = true ∧
  cells next COL_PREV_NODE 32 = cells local COL_CURRENT_NODE 32 ∧
  cells next COL_REMAINING_INDEX_BITS 63 = cells local (COL_REMAINING_INDEX_BITS + 1) 63 ∧
  next !!! (COL_REMAINING_INDEX_BITS + 63)%nat = 0.
Proof.
  rewrite !holds_app, assert_eq_cells, assert_zero_cell by done.
  rewrite (cells_eq next COL_REMAINING_INDEX_BITS), holds_for_each.
  setoid_rewrite assert_eq_cell; [|done..]. unfold assert_eq. rewrite holds_one.
  change (COL_REMAINING_INDEX_BITS + 64 - 1)%nat with (COL_REMAINING_INDEX_BITS + 63)%nat.
  change (64 - 1)%nat with 63%nat.
  assert (E : ∀ i, (COL_REMAINING_INDEX_BITS + i + 1 = COL_REMAINING_INDEX_BITS + 1 + i)%nat) by lia.
  setoid_rewrite E. done.
Qed.

Lemma holds_public :
  holds (assert_eq (local !!! COL_SUB_TREE_ID) (public !!! PUBLIC_SUB_TREE_ID_OFFSET) ++
    assert_eq (local !!! COL_TREE_DEPTH) (public !!! PUBLIC_TREE_DEPTH_OFFSET) ++
    for_each 8 (λ i, assert_eq (local !!! (COL_LEAF_INDEX_BE + i)%nat)
                       (public !!! (PUBLIC_LEAF_INDEX_OFFSET + i)%nat)) ++
    assert_payload_len_selector local ++
    for_each 64 (λ b, assert_bool (local !!! (COL_REMAINING_INDEX_BITS + b)%nat))) ↔
  local !!! COL_SUB_TREE_ID = public !!! PUBLIC_SUB_TREE_ID_OFFSET ∧
  local !!! COL_TREE_DEPTH = public !!! PUBLIC_TREE_DEPTH_OFFSET ∧
  cells local COL_LEAF_INDEX_BE 8 = cells public PUBLIC_LEAF_INDEX_OFFSET 8 ∧
  payload_shape local ∧
  ∀ b, (b < 64)%nat → bit (local !!! (COL_REMAINING_INDEX_BITS + b)%nat).
Proof.
  by rewrite !holds_app, !assert_eq_cell, assert_eq_cells, payload_selector_iff, holds_bits.
Qed.

Hypotheses (B1 : bit (local !!! COL_IS_REAL_STEP)) (B2 : bit (local !!! COL_IS_LAST_STEP)).

Lemma holds_transition :
  holds (when (Z.b2z (negb is_last)) (
    assert_zero (next !!! COL_IS_FIRST_STEP) ++
    when (local !!! COL_IS_REAL_STEP * (1 - local !!! COL_IS_LAST_STEP))
      (assert_one (next !!! COL_IS_REAL_STEP)) ++
    when (local !!! COL_IS_REAL_STEP * local !!! COL_IS_LAST_STEP)
      (assert_zero (next !!! COL_IS_REAL_STEP)) ++
    when (1 - local !!! COL_IS_REAL_STEP) (assert_zero (next !!! COL_IS_REAL_STEP)) ++
    when (1 - local !!! COL_IS_REAL_STEP) (assert_zero (next !!! COL_IS_FIRST_STEP)) ++
    when (local !!! COL_IS_REAL_STEP * (1 - local !!! COL_IS_LAST_STEP)) (
      assert_eq (next !!! COL_PATH_STEP_INDEX) (local !!! COL_PATH_STEP_INDEX + 1) ++
      for_each 32 (λ i, assert_eq (next !!! (COL_PREV_NODE + i)%nat)
                          (local !!! (COL_CURRENT_NODE + i)%nat)) ++
      for_each (64 - 1) (λ i, assert_eq (next !!! (COL_REMAINING_INDEX_BITS + i)%nat)
                          (local !!! (COL_REMAINING_INDEX_BITS + i + 1)%nat)) ++
      assert_zero (next !!! (COL_REMAINING_INDEX_BITS + 64 - 1)%nat)))) ↔
  (is_last = false →
    next !!! COL_IS_FIRST_STEP = 0 ∧
    (local !!! COL_IS_REAL_STEP = 1 → local !!! COL_IS_LAST_STEP = 0 → next !!! COL_IS_REAL_STEP = 1) ∧
    (local !!! COL_IS_REAL_STEP = 1 → local !!! COL_IS_LAST_STEP = 1 → next !!! COL_IS_REAL_STEP = 0) ∧
    (local !!! COL_IS_REAL_STEP = 0 → next !!! COL_IS_REAL_STEP = 0) ∧
    (local !!! COL_IS_REAL_STEP = 1 → local !!! COL_IS_LAST_STEP = 0 →
       fzero (next !!! COL_PATH_STEP_INDEX - (local !!! COL_PATH_STEP_INDEX + 1)) = true ∧
       cells next COL_PREV_NODE 32 = cells local COL_CURRENT_NODE 32 ∧
       cells next COL_REMAINING_INDEX_BITS 63 = cells local (COL_REMAINING_INDEX_BITS + 1) 63 ∧
       next !!! (COL_REMAINING_INDEX_BITS + 63)%nat = 0)).
Proof.
  pose proof (bit_neg _ B1) as N1. pose proof (bit_neg _ B2) as N2.
  rewrite holds_when_bool, !holds_app, !holds_when_and, !(holds_when_bit (1 - _)) by done.
  rewrite holds_continue, assert_one_cell, !assert_zero_cell by done.
  assert (E : ∀ x, 1 - x = 1 ↔ x = 0) by lia. rewrite !E.
  destruct is_last; cbn [negb]; naive_solver.
Qed.

Hypotheses (B4 : bit (local !!! COL_HAS_NODE_HASH)) (B5 : bit (local !!! COL_DIRECTION_BIT))
  (B3 : bit (local !!! COL_IS_FIRST_STEP)).

Lemma eval_rest_iff :
  holds (eval_membership is_first is_last local next public) ↔
  window is_first is_last local next public.
Proof.
  unfold eval_membership. cbv zeta. change HASH_LEN with 32%nat. change LEAF_INDEX_LEN with 8%nat.
  change REMAINING_INDEX_BITS with 64%nat. rewrite !holds_app, !assert_bool_cell by done.
  pose proof (bit_neg _ B1) as N1. pose proof (bit_neg _ B5) as N5.
  rewrite holds_first_row, holds_transition.
  rewrite (holds_when_bit _ _ B1), holds_public, (holds_when_bit _ _ B3), holds_app, assert_one_cell,
    holds_index_bits, (holds_when_bit _ _ B4), assert_eq_cell by done.
  rewrite (holds_when_and _ _ _ B4 N5), (holds_when_and _ _ _ B4 B5), !holds_swap.
  rewrite (holds_when_ne _ _ _ B1 B4), holds_no_node, (holds_when_and _ _ _ B1 B2), holds_stop.
  rewrite holds_when_bool, (holds_when_bit _ _ N1), holds_padding.
  unfold assert_zero. rewrite holds_one.
  assert (E : ∀ x, 1 - x = 1 ↔ x = 0) by lia. rewrite !E.
  assert (EL : fzero (local !!! COL_IS_REAL_STEP * (1 - local !!! COL_IS_LAST_STEP)) = true ↔
    (local !!! COL_IS_REAL_STEP = 1 → local !!! COL_IS_LAST_STEP = 1)).
  { destruct B1 as [-> | ->], B2 as [-> | ->]; cbn; naive_solver lia. }
  rewrite EL. split.
  - intros (?&?&?&?&?&?&?&?&?&?&?&?&?&?&?&?). by constructor.
  - intros []. repeat (split; [assumption|]). assumption.
Qed.

End WindowIff.

(** The constraints vanish exactly when the window relation holds. *)
Lemma eval_membership_iff is_first is_last local next public :
  Forall canon local → Forall canon next → Forall canon public →
  holds (eval_membership is_first is_last local next public) ↔
  window is_first is_last local next public.
Proof.
  intros Hl Hn Hp. split.
  - intros H. pose proof H as H'. unfold eval_membership in H'. cbv zeta in H'.
    rewrite !holds_app, !assert_bool_cell in H' by done. destruct H' as (B1 & B2 & B3 & B4 & B5 & _).
    by apply eval_rest_iff.
  - intros H. by apply eval_rest_iff; try apply H.
Qed.
