(* ===== verification/AirLookups.v ===== *)
(** * Lookup tuples

    The tuple that a BLAKE3 row sends is the byte string of its compression,
    and a received leaf or node tuple that equals such a string pins the
    compression down: it is [leaf_compression] or [node_compressions] of the
    bytes in the membership row. *)

From S2P Require Import Prelude Hash Tree TreeSpec ClaimTx Prover Blake3 Blake3Spec Air AirFacts.
From Stdlib Require Import ZArith Lia List String.
From stdpp Require Import base decidable list.

Local Open Scope Z_scope.

(** ** Words stay in range *)

Lemma wrapping_add_u32 a b : is_u32 (wrapping_add a b).
Proof. apply Z.mod_pos_bound. lia. Qed.

Lemma lor_u32 a b : is_u32 a → is_u32 b → is_u32 (Z.lor a b).
Proof.
  unfold in_range. intros Ha Hb. assert (0 <= Z.lor a b) by (apply Z.lor_nonneg; lia).
  split; [done|].
  destruct (decide (Z.lor a b = 0)) as [->|Hne]; [lia|].
  apply Z.log2_lt_pow2; [lia|].
  rewrite Z.log2_lor by lia. apply Z.max_lub_lt.
  - destruct (decide (a = 0)) as [->|]; [done|]. apply Z.log2_lt_pow2; lia.
  - destruct (decide (b = 0)) as [->|]; [done|]. apply Z.log2_lt_pow2; lia.
Qed.

Lemma lxor_u32 a b : is_u32 a → is_u32 b → is_u32 (Z.lxor a b).
Proof.
  unfold in_range. intros Ha Hb. assert (0 <= Z.lxor a b) by (apply Z.lxor_nonneg; lia).
  split; [done|]. destruct (decide (Z.lxor a b = 0)) as [->|Hne]; [lia|].
  apply Z.log2_lt_pow2; [lia|].
  eapply Z.le_lt_trans; [apply Z.log2_lxor; lia|]. apply Z.max_lub_lt.
  - destruct (decide (a = 0)) as [->|]; [done|]. apply Z.log2_lt_pow2; lia.
  - destruct (decide (b = 0)) as [->|]; [done|]. apply Z.log2_lt_pow2; lia.
Qed.

Lemma rotate_right_u32 x n : is_u32 x → 0 <= n → is_u32 (rotate_right x n).
Proof.
  intros Hx Hn. apply lor_u32; [|apply Z.mod_pos_bound; lia].
  unfold in_range in *. rewrite Z.shiftr_div_pow2 by lia. split; [apply Z.div_pos; lia|].
  eapply Z.le_lt_trans; [apply Z.div_le_upper_bound; [lia|]|apply Hx]. nia.
Qed.

Lemma lookup_u32 l k : Forall is_u32 l → is_u32 (l !!! k).
Proof.
  intros H. destruct (l !! k) as [x|] eqn:E.
  - rewrite (list_lookup_total_correct _ _ _ E). by apply (list.Forall_lookup_1 _ _ _ _ H E).
  - rewrite list_lookup_total_alt, E. done.
Qed.

Lemma insert_u32 l k x : Forall is_u32 l → is_u32 x → Forall is_u32 (<[k := x]> l).
Proof. intros Hl Hx. by apply Forall_insert. Qed.

#[local] Hint Resolve wrapping_add_u32 lxor_u32 lookup_u32 insert_u32 : omega.

Lemma g_u32 state a b c d mx my : Forall is_u32 state → Forall is_u32 (g state a b c d mx my).
Proof.
  intros H. unfold g.
  repeat match goal with
  | |- Forall is_u32 (let _ := ?x in _) => cbv zeta
  | |- Forall is_u32 (<[_ := _]> _) => apply insert_u32
  | |- is_u32 (wrapping_add _ _) => apply wrapping_add_u32
  | |- is_u32 (rotate_right _ _) => apply rotate_right_u32; [apply lxor_u32; apply lookup_u32|lia]
  end; assumption.
Qed.

Lemma round_u32 state m : Forall is_u32 state → Forall is_u32 (round state m).
Proof. intros H. unfold round. cbv zeta. by repeat apply g_u32. Qed.

Lemma rounds_u32 n state m : Forall is_u32 state → Forall is_u32 (rounds n state m).
Proof. revert state m. induction n; intros state m H; [done|]. cbn. auto using round_u32. Qed.

Lemma IV_u32 : Forall is_u32 IV.
Proof. by_compute. Qed.

Lemma compress_u32 bw cv ctr len fl :
  Forall is_u32 cv → is_u32 len → is_u32 fl → Forall is_u32 (compress bw cv ctr len fl).
Proof.
  intros Hcv Hlen Hfl. unfold compress.
  assert (H : Forall is_u32 (rounds 7 (initial_state cv ctr len fl) bw)).
  { apply rounds_u32. unfold initial_state. apply Forall_app. split; [by apply Forall_take|].
    apply Forall_app. split; [apply Forall_take, IV_u32|].
    repeat constructor; try done; try apply Z.mod_pos_bound; lia || apply Hlen || apply Hfl. }
  revert H. generalize (rounds 7 (initial_state cv ctr len fl) bw) (seq 0 8). intros st l.
  revert st. induction l as [|i l IH]; intros st H; [done|]. cbn [foldl]. apply IH.
  unfold finalize_word. cbv zeta. auto 10 with omega.
Qed.

Lemma compression_wf bw cv ctr len fl :
  length bw = 16%nat → Forall is_u32 bw → length cv = 8%nat → Forall is_u32 cv →
  is_u64 ctr → is_u32 len → is_u32 fl → wf_compression (compression bw cv ctr len fl).
Proof. done. Qed.

Lemma output_words_wf c :
  wf_compression c → length (output_words c) = 8%nat ∧ Forall is_u32 (output_words c).
Proof.
  intros (_ & [Hl Hcv] & _ & Hlen & Hfl & ->). split.
  - rewrite length_take, length_compress by done. done.
  - by apply Forall_take, compress_u32.
Qed.

(** ** Bytes from bits *)

Lemma sum_testbits n z :
  sum_over n (λ b, Z.b2z (Z.testbit z (Z.of_nat b)) * 2 ^ Z.of_nat b) = z mod 2 ^ Z.of_nat n.
Proof.
  induction n as [|n IH]; [by rewrite Z.mod_1_r|]. rewrite sum_over_S, IH.
  rewrite Nat2Z.inj_succ, Z.pow_succ_r, (Z.mul_comm 2), Z.rem_mul_r by lia.
  rewrite Z.testbit_spec' by lia. lia.
Qed.

Lemma slice_total row off n l k :
  slice off n row = l → length l = n → (k < n)%nat → row !!! (off + k)%nat = l !!! k.
Proof.
  intros <- Hl Hk. rewrite !list_lookup_total_alt. by rewrite slice_lookup.
Qed.

Lemma bits_le_lookup v k : (k < 32)%nat → bits_le v !!! k = Z.b2z (Z.testbit v (Z.of_nat k)).
Proof.
  intros H. unfold bits_le. apply list_lookup_total_correct.
  by rewrite list_lookup_fmap, lookup_seq_lt.
Qed.

Lemma le_bytes4 v :
  b2z <$> le_bytes 4 v = (λ j, (v / 2 ^ Z.of_nat (8 * j)) mod 256) <$> seq 0 4.
Proof.
  rewrite !le_bytes_S. cbn [seq fmap list_fmap le_bytes be_bytes rev]. rewrite !b2z_z2b.
  rewrite !Z.div_div by lia. change (2 ^ Z.of_nat (8 * 0)) with 1. by rewrite Z.div_1_r.
Qed.

Lemma word_bytes_word row off v :
  slice off 32 row = bits_le v →
  (λ j, byte_from_bits row (off + j * 8)%nat) <$> seq 0 4 = b2z <$> le_bytes 4 v.
Proof.
  intros H. rewrite le_bytes4. apply list_fmap_ext. intros ? j [-> Hj]%lookup_seq. cbn [Nat.add].
  unfold byte_from_bits. change 256 with (2 ^ Z.of_nat 8). rewrite <- sum_testbits.
  apply sum_over_ext. intros b Hb. f_equal. rewrite <- Nat.add_assoc.
  rewrite (slice_total _ _ _ _ _ H) by (done || lia). rewrite bits_le_lookup by lia.
  f_equal. rewrite Z.div_pow2_bits by lia. f_equal. lia.
Qed.

Lemma word_bytes_words row off ws :
  slice off (length ws * 32) row = bits_of_words ws →
  word_bytes row off (length ws) = b2z <$> hash_from_words ws.
Proof.
  enough (∀ k, slice (off + k * 32) (length ws * 32) row = bits_of_words ws →
    concat ((λ word, (λ byte, byte_from_bits row (off + word * 32 + byte * 8)%nat) <$> seq 0 4)
            <$> seq k (length ws)) = b2z <$> hash_from_words ws) as E.
  { intros H. apply (E 0%nat). by rewrite Nat.add_0_r. }
  induction ws as [|w ws IH]; intros k H; [done|].
  cbn [length seq] in *. rewrite fmap_cons. cbn [concat].
  replace (S (length ws) * 32)%nat with (32 + length ws * 32)%nat in H by lia.
  rewrite slice_split in H. unfold bits_of_words in H. rewrite fmap_cons in H. cbn [concat] in H.
  apply app_inj_1 in H as [H1 H2].
  2: { rewrite length_bits_le. apply (f_equal length) in H. rewrite !length_app, length_bits_le in H.
       unfold slice in *. rewrite !length_take, !length_drop in *. lia. }
  change (hash_from_words (w :: ws)) with (le_bytes 4 w ++ hash_from_words ws).
  rewrite fmap_app. f_equal.
  - by apply word_bytes_word.
  - apply (IH (S k)). unfold bits_of_words. rewrite <- H2. f_equal. lia.
Qed.

(** The byte string of a compression, in the order of the lookup tuple. *)
Definition tuple_bytes (c : Compression) : bytes :=
  hash_from_words (block_words c) ++ hash_from_words (cv_words c) ++
  le_bytes 4 (counter c mod 2 ^ 32) ++ le_bytes 4 (Z.shiftr (counter c) 32 mod 2 ^ 32) ++
  le_bytes 4 (block_len c) ++ le_bytes 4 (flags c) ++ hash_from_words (output_words c).

Lemma hash_from_words_one w : hash_from_words [w] = le_bytes 4 w.
Proof. apply app_nil_r. Qed.

Lemma table_exprs_bytes row c :
  wf_compression c → io_cells row c → blake3_table_lookup_exprs row = b2z <$> tuple_bytes c.
Proof.
  intros Hwf (H1 & H2 & H3 & H4 & H5 & H6 & H7).
  pose proof (proj1 (output_words_wf c Hwf)) as Ho.
  destruct Hwf as ([Hb _] & [Hv _] & _). unfold blake3_table_lookup_exprs, tuple_bytes.
  rewrite !fmap_app.
  pose proof (word_bytes_words row B3_INPUTS_OFFSET (block_words c)) as W1. rewrite Hb in W1.
  pose proof (word_bytes_words row B3_CHAINING_VALUES_OFFSET (cv_words c)) as W2. rewrite Hv in W2.
  pose proof (word_bytes_words row B3_OUTPUTS_OFFSET (output_words c)) as W7. rewrite Ho in W7.
  rewrite W1, W2, W7 by done.
  rewrite <- !(hash_from_words_one (_ mod _)), <- !(hash_from_words_one (block_len c)),
    <- !(hash_from_words_one (flags c)).
  repeat f_equal; apply (word_bytes_words _ _ [_]); cbn [length Nat.mul Nat.add];
    unfold bits_of_words; cbn [fmap list_fmap concat]; by rewrite app_nil_r.
Qed.

Lemma field_tuple_bytes bs : field_tuple (b2z <$> bs) = b2z <$> bs.
Proof.
  unfold field_tuple. rewrite <- list_fmap_compose. apply list_fmap_ext. intros _ b _. cbn.
  pose proof (b2z_range b). apply Z.mod_small. unfold babybear. lia.
Qed.

Lemma field_tuple_canon l : Forall canon l → field_tuple l = l.
Proof.
  intros H. unfold field_tuple. rewrite <- (list_fmap_id l) at 2. apply list_fmap_ext.
  intros i x Hx. apply Z.mod_small. exact (list.Forall_lookup_1 _ _ _ _ H Hx).
Qed.

(** ** Reading a compression off its bytes *)

Lemma hash_from_words_inj ws1 ws2 :
  Forall is_u32 ws1 → Forall is_u32 ws2 → length ws1 = length ws2 →
  hash_from_words ws1 = hash_from_words ws2 → ws1 = ws2.
Proof.
  intros H1. revert ws2. induction H1 as [|w ws1 Hw H1 IH]; intros ws2 H2 Hl E;
    destruct H2 as [|v ws2 Hv H2]; try discriminate; [done|].
  unfold hash_from_words in E. rewrite !fmap_cons in E. cbn [concat] in E.
  apply app_eq_len in E as [E1 E2]; [|by rewrite !length_le_bytes].
  apply (f_equal le_val) in E1. rewrite !le_val_le_bytes in E1 by done.
  f_equal; [done|]. apply IH; [done|by injection Hl|done].
Qed.

Lemma le_bytes4_inj a b : is_u32 a → is_u32 b → le_bytes 4 a = le_bytes 4 b → a = b.
Proof.
  intros Ha Hb E. apply (f_equal le_val) in E. by rewrite !le_val_le_bytes in E.
Qed.

Lemma counter_zero ctr :
  is_u64 ctr → ctr mod 2 ^ 32 = 0 → Z.shiftr ctr 32 mod 2 ^ 32 = 0 → ctr = 0.
Proof.
  intros [H1 H2] Hl Hh. rewrite Z.shiftr_div_pow2 in Hh by lia.
  pose proof (Z.div_mod ctr (2 ^ 32)). rewrite Z.mod_small in Hh; [lia|].
  split; [by apply Z.div_pos|]. apply Z.div_lt_upper_bound; lia.
Qed.

Lemma compression_eta c :
  output_words c = take 8 (compress (block_words c) (cv_words c) (counter c) (block_len c) (flags c)) →
  c = compression (block_words c) (cv_words c) (counter c) (block_len c) (flags c).
Proof. intros E. unfold compression. rewrite <- E. by destruct c. Qed.

(** A compression is determined by its tuple of bytes, and the tuple's last
    32 bytes are its output. *)
Lemma tuple_bytes_inv c block cv len fl out :
  wf_compression c → length block = 64%nat →
  length cv = 8%nat → Forall is_u32 cv → is_u32 len → is_u32 fl →
  tuple_bytes c = block ++ hash_from_words cv ++ replicate 8 Byte.x00 ++ le_bytes 4 len ++
                  le_bytes 4 fl ++ out →
  c = compression (words_of_block block) cv 0 len fl ∧ out = hash_from_words (output_words c).
Proof.
  intros ([Wb Wb'] & [Wv Wv'] & Wc & Wl & Wf & Wo) Hb Hcv Hcv' Hlen Hfl E. unfold tuple_bytes in E.
  apply app_eq_len in E as [E1 E]; [|by rewrite length_hash_from_words, Wb, Hb].
  apply app_eq_len in E as [E2 E]; [|by rewrite !length_hash_from_words, Wv, Hcv].
  change (replicate 8 Byte.x00) with (le_bytes 4 0 ++ le_bytes 4 0) in E. rewrite <- app_assoc in E.
  apply app_eq_len in E as [E3 E]; [|by rewrite !length_le_bytes].
  apply app_eq_len in E as [E4 E]; [|by rewrite !length_le_bytes].
  apply app_eq_len in E as [E5 E]; [|by rewrite !length_le_bytes].
  apply app_eq_len in E as [E6 E]; [|by rewrite !length_le_bytes].
  rewrite <- (words_of_block_bytes block Hb) in E1.
  apply hash_from_words_inj in E1; [|done|apply words_of_block_u32|done].
  apply hash_from_words_inj in E2; [|done|done|congruence].
  apply le_bytes4_inj in E3; [|apply Z.mod_pos_bound; lia|done].
  apply le_bytes4_inj in E4; [|apply Z.mod_pos_bound; lia|done].
  apply le_bytes4_inj in E5; [|done|done]. apply le_bytes4_inj in E6; [|done|done].
  assert (counter c = 0) by (by apply counter_zero).
  split; [|done]. rewrite (compression_eta c Wo). congruence.
Qed.

(** ** Tuples of membership rows *)

Lemma cells_app row o n m : cells row o (n + m) = cells row o n ++ cells row (o + n) m.
Proof.
  unfold cells. rewrite seq_app, fmap_app. f_equal.
  replace (seq (0 + n) m) with (Nat.add n <$> seq 0 m) by (rewrite fmap_add_seq; f_equal; lia).
  rewrite <- list_fmap_compose. apply list_fmap_ext. intros ? i _. cbn. f_equal. lia.
Qed.

Lemma bytes_of_cells l : Forall is_u8 l → ∃ bs, l = b2z <$> bs.
Proof.
  intros H. exists (z2b <$> l). rewrite <- list_fmap_compose, <- (list_fmap_id l) at 1.
  apply list_fmap_ext. intros i x Hx. cbn. symmetry. apply b2z_z2b_u8.
  by apply (list.Forall_lookup_1 _ _ _ _ H Hx).
Qed.

Lemma bytes_u8 bs : Forall is_u8 (b2z <$> bs).
Proof. apply Forall_fmap, list.Forall_forall. intros b _. apply b2z_range. Qed.

Lemma canon_u8 l : Forall is_u8 l → Forall canon l.
Proof.
  intros H. eapply list.Forall_impl; [exact H|]. unfold in_range, canon, babybear. lia.
Qed.

Lemma iv_exprs_bytes : iv_exprs = b2z <$> hash_from_words IV.
Proof. reflexivity. Qed.

Lemma zeros_bytes n : replicate n 0 = b2z <$> replicate n Byte.x00.
Proof. by rewrite fmap_replicate. Qed.

Lemma le_bytes4_u8 z : is_u8 z → [z] ++ replicate 3 0 = b2z <$> le_bytes 4 z.
Proof.
  intros Hz. rewrite le_bytes_S, fmap_cons, b2z_z2b_u8 by done. unfold in_range in Hz.
  rewrite Z.div_small by lia. reflexivity.
Qed.

Lemma be_bytes8_u8 z : is_u8 z → replicate 7 0 ++ [z] = b2z <$> be_bytes 8 z.
Proof.
  intros Hz. pose proof Hz as Hz'. unfold in_range in Hz'. assert (E : ∀ n, (n < 7)%nat → z / 256 ^ Z.of_nat (S n) = 0).
  { intros n Hn. apply Z.div_small. rewrite Nat2Z.inj_succ, Z.pow_succ_r by lia.
    assert (0 < 256 ^ Z.of_nat n) by lia. nia. }
  unfold be_bytes. rewrite !E by lia. cbn [Z.of_nat Z.pow]. rewrite Z.div_1_r.
  rewrite !fmap_cons, (b2z_z2b_u8 z) by done. reflexivity.
Qed.

Section Exprs.
Variable row : list Z.

Lemma node_first_exprs l r m :
  is_hash l → is_hash r →
  cells row COL_LEFT_NODE 32 = b2z <$> l → cells row COL_RIGHT_NODE 32 = b2z <$> r →
  cells row COL_NODE_MID 32 = b2z <$> m →
  node_first_lookup_exprs row =
    b2z <$> (take 64 (DOMAIN_NODE ++ l ++ r) ++ hash_from_words IV ++ replicate 8 Byte.x00 ++
             le_bytes 4 64 ++ le_bytes 4 NODE_FIRST_FLAGS ++ m).
Proof.
  unfold is_hash. intros Hl Hr El Er Em. unfold node_first_lookup_exprs.
  change (64 - length DOMAIN_NODE - HASH_LEN)%nat with 19%nat. change HASH_LEN with 32%nat.
  change 32%nat with (19 + 13)%nat in Er. rewrite cells_app in Er.
  rewrite <- (take_drop 19 r), fmap_app in Er.
  apply app_eq_len in Er as [Er _]; [|by rewrite length_cells, length_fmap, length_take, Hr].
  rewrite El, Er, Em, iv_exprs_bytes. rewrite (app_assoc DOMAIN_NODE), take_app.
  rewrite (take_ge (DOMAIN_NODE ++ l)) by (rewrite length_app, Hl; cbn; lia). rewrite length_app, Hl.
  change (64 - (length DOMAIN_NODE + 32))%nat with 19%nat.
  rewrite !fmap_app. change COUNTER_BYTES with 8%nat. rewrite zeros_bytes. by rewrite <- !app_assoc.
Qed.

Lemma node_second_exprs l r m c :
  is_hash l → is_hash r →
  cells row COL_RIGHT_NODE 32 = b2z <$> r → cells row COL_NODE_MID 32 = b2z <$> m →
  cells row COL_CURRENT_NODE 32 = b2z <$> c →
  node_second_lookup_exprs row =
    b2z <$> (zero_padded (drop 64 (DOMAIN_NODE ++ l ++ r)) ++ m ++ replicate 8 Byte.x00 ++
             le_bytes 4 13 ++ le_bytes 4 NODE_SECOND_FLAGS ++ c).
Proof.
  unfold is_hash. intros Hl Hr Er Em Ec. unfold node_second_lookup_exprs.
  change (64 - length DOMAIN_NODE - HASH_LEN)%nat with 19%nat. change HASH_LEN with 32%nat.
  change (32 - 19)%nat with 13%nat. change 32%nat with (19 + 13)%nat in Er. rewrite cells_app in Er.
  rewrite <- (take_drop 19 r), fmap_app in Er.
  apply app_eq_len in Er as [_ Er]; [|by rewrite length_cells, length_fmap, length_take, Hr].
  rewrite Er, Em, Ec. rewrite (app_assoc DOMAIN_NODE), drop_app.
  rewrite (drop_ge (DOMAIN_NODE ++ l)) by (rewrite length_app, Hl; cbn; lia). rewrite length_app, Hl.
  change (64 - (length DOMAIN_NODE + 32))%nat with 19%nat. rewrite app_nil_l.
  unfold zero_padded, BLOCK_BYTES. rewrite length_drop, Hr. change (64 - (32 - 19))%nat with 51%nat.
  change (64 - (length DOMAIN_NODE + 32 * 2 - 64))%nat with 51%nat.
  rewrite !fmap_app. change COUNTER_BYTES with 8%nat. rewrite !zeros_bytes. by rewrite <- !app_assoc.
Qed.

Lemma leaf_exprs id idx payload h :
  is_u8 id → (length payload <= 34)%nat → row !!! COL_SUB_TREE_ID = id →
  cells row COL_LEAF_INDEX_BE 8 = b2z <$> be_bytes 8 idx →
  row !!! COL_PAYLOAD_LEN = Z.of_nat (length payload) →
  cells row COL_PAYLOAD 34 = b2z <$> (payload ++ replicate (34 - length payload) Byte.x00) →
  cells row COL_PREV_NODE 32 = b2z <$> h →
  leaf_lookup_exprs row =
    b2z <$> (zero_padded (leaf_preimage id idx payload) ++ hash_from_words IV ++
             replicate 8 Byte.x00 ++ le_bytes 4 (Z.of_nat (30 + length payload)) ++
             le_bytes 4 LEAF_FLAGS ++ h).
Proof.
  intros Hid Hlen Eid Eidx Elen Ep Eh. unfold leaf_lookup_exprs.
  change MAX_V01_LEAF_PAYLOAD_LEN with 34%nat. change HASH_LEN with 32%nat.
  change LEAF_INDEX_LEN with 8%nat. rewrite Eid, Eidx, Elen, Ep, Eh, iv_exprs_bytes.
  unfold zero_padded, BLOCK_BYTES. rewrite length_leaf_preimage. unfold leaf_preimage.
  rewrite <- (b2z_z2b_u8 id Hid) at 1. change [b2z (z2b id)] with (b2z <$> [z2b id]).
  rewrite (app_assoc (replicate 7 0)), be_bytes8_u8 by (unfold in_range; lia).
  change (64 - length DOMAIN_LEAF - 1 - 8 - 8 - 34)%nat with 0%nat.
  change (Z.of_nat (length DOMAIN_LEAF + 1 + 8 + 8)) with 30. change (U32_BYTES - 1)%nat with 3%nat.
  replace (Z.of_nat (30 + length payload)) with (30 + Z.of_nat (length payload)) by lia.
  replace (64 - (30 + length payload))%nat with (34 - length payload)%nat by lia.
  rewrite (app_assoc [_] (replicate 3 0)), le_bytes4_u8 by (unfold in_range; lia).
  change COUNTER_BYTES with 8%nat. rewrite zeros_bytes, !fmap_app.
  change (const_u32_bytes LEAF_FLAGS) with (b2z <$> le_bytes 4 LEAF_FLAGS).
  cbn [replicate]. by rewrite app_nil_l, <- !app_assoc.
Qed.

End Exprs.

(** ** Reading a row off its tuples *)

Lemma canon_cells row o n : Forall canon row → Forall canon (cells row o n).
Proof. intros H. apply Forall_fmap, list.Forall_forall. intros i _. by apply canon_lookup. Qed.

Lemma tuple_u8 l bs : l = b2z <$> bs → Forall is_u8 l.
Proof. intros ->. apply bytes_u8. Qed.

Lemma bytes_canon bs : Forall canon (b2z <$> bs).
Proof. apply canon_u8, bytes_u8. Qed.

Lemma zeros_canon n : Forall canon (replicate n 0).
Proof. rewrite zeros_bytes. apply bytes_canon. Qed.

Lemma cells_hash row o bs : cells row o 32 = b2z <$> bs → is_hash bs.
Proof. intros E. apply (f_equal length) in E. by rewrite length_cells, length_fmap in E. Qed.

#[local] Hint Resolve canon_cells bytes_canon zeros_canon : omega.

Lemma node_first_canon row : Forall canon row → Forall canon (node_first_lookup_exprs row).
Proof.
  intros H. unfold node_first_lookup_exprs. rewrite !Forall_app, iv_exprs_bytes.
  unfold const_u32_bytes. repeat (split; [auto with omega|]). auto with omega.
Qed.

Lemma node_second_canon row : Forall canon row → Forall canon (node_second_lookup_exprs row).
Proof.
  intros H. unfold node_second_lookup_exprs. rewrite !Forall_app.
  unfold const_u32_bytes. repeat (split; [auto with omega|]). auto with omega.
Qed.

Lemma leaf_canon row len :
  Forall canon row → (len <= 34)%nat → row !!! COL_PAYLOAD_LEN = Z.of_nat len →
  Forall canon (leaf_lookup_exprs row).
Proof.
  intros H Hl E. unfold leaf_lookup_exprs. rewrite E, iv_exprs_bytes.
  repeat (apply Forall_app; split); unfold const_u32_bytes; rewrite ?Forall_singleton;
    first [ by auto with omega | by apply canon_lookup
          | change (Z.of_nat (length DOMAIN_LEAF + 1 + LEAF_INDEX_LEN + 8)) with 30;
            unfold canon, babybear; lia
          | unfold canon, babybear; lia ].
Qed.

(** Two node tuples that are tuples of compressions belong to the two blocks
    of one node hash. *)
Lemma node_tuples_inv row c1 c2 :
  Forall canon row → wf_compression c1 → wf_compression c2 →
  field_tuple (node_first_lookup_exprs row) = b2z <$> tuple_bytes c1 →
  field_tuple (node_second_lookup_exprs row) = b2z <$> tuple_bytes c2 →
  ∃ l r, is_hash l ∧ is_hash r ∧ (c1, c2) = node_compressions l r ∧
    cells row COL_LEFT_NODE 32 = b2z <$> l ∧ cells row COL_RIGHT_NODE 32 = b2z <$> r ∧
    cells row COL_CURRENT_NODE 32 = b2z <$> hash_from_words (output_words c2).
Proof.
  intros Hrow W1 W2 E1 E2.
  rewrite field_tuple_canon in E1 by (by apply node_first_canon).
  rewrite field_tuple_canon in E2 by (by apply node_second_canon).
  pose proof (tuple_u8 _ _ E1) as U1. pose proof (tuple_u8 _ _ E2) as U2.
  unfold node_first_lookup_exprs in U1. unfold node_second_lookup_exprs in U2.
  rewrite !Forall_app in U1. rewrite !Forall_app in U2. destruct U1 as (_ & UL & UR1 & _ & _ & _ & _ & UM).
  destruct U2 as (UR2 & _ & _ & _ & _ & _ & UC).
  change (64 - length DOMAIN_NODE - HASH_LEN)%nat with 19%nat in *. change HASH_LEN with 32%nat in *.
  change (32 - 19)%nat with 13%nat in *.
  assert (UR : Forall is_u8 (cells row COL_RIGHT_NODE 32)).
  { change 32%nat with (19 + 13)%nat. rewrite cells_app. by apply Forall_app. }
  apply bytes_of_cells in UL as [l El], UR as [r Er], UM as [m Em], UC as [c Ec].
  pose proof (cells_hash _ _ _ El) as Hl. pose proof (cells_hash _ _ _ Er) as Hr.
  pose proof (cells_hash _ _ _ Em) as Hm. pose proof (cells_hash _ _ _ Ec) as Hc.
  rewrite (node_first_exprs row l r m) in E1 by done. apply (inj (fmap b2z)) in E1.
  rewrite (node_second_exprs row l r m c) in E2 by done. apply (inj (fmap b2z)) in E2.
  assert (Hpre : length (DOMAIN_NODE ++ l ++ r) = 77%nat).
  { unfold is_hash in *. rewrite !length_app, Hl, Hr. done. }
  symmetry in E1, E2.
  apply tuple_bytes_inv in E1 as [Ec1 Em1];
    [|done|rewrite length_take, Hpre; done|done|apply IV_u32|done|done].
  destruct (output_words_wf c1 W1) as [Ho Hou]. subst m.
  apply tuple_bytes_inv in E2 as [Ec2 ->];
    [|done|apply length_zero_padded; rewrite length_drop, Hpre; lia|done|done|done|done].
  exists l, r. repeat (split; [done|]). split; [|done].
  unfold node_compressions. rewrite Hpre. cbv zeta. rewrite Ec2, Ec1 at 1. f_equal.
  rewrite Ec1. done.
Qed.

(** A leaf tuple that is the tuple of a compression belongs to the leaf hash
    of a payload of at most 34 bytes. *)
Lemma leaf_tuple_inv row c id idx :
  Forall canon row → wf_compression c → payload_shape row → is_u8 id →
  row !!! COL_SUB_TREE_ID = id → cells row COL_LEAF_INDEX_BE 8 = b2z <$> be_bytes 8 idx →
  field_tuple (leaf_lookup_exprs row) = b2z <$> tuple_bytes c →
  ∃ payload, (length payload <= 34)%nat ∧ c = leaf_compression id idx payload ∧
    cells row COL_PREV_NODE 32 = b2z <$> hash_from_words (output_words c).
Proof.
  intros Hrow W (len & Hlen & Elen & _ & Hz) Hid Eid Eidx E.
  rewrite field_tuple_canon in E.
  2: { eapply leaf_canon; [done| |exact Elen]. lia. }
  pose proof (tuple_u8 _ _ E) as U. unfold leaf_lookup_exprs in U. rewrite !Forall_app in U.
  destruct U as (_ & _ & _ & _ & _ & UP & _ & _ & _ & _ & _ & _ & UH).
  change MAX_V01_LEAF_PAYLOAD_LEN with 34%nat in UP. change HASH_LEN with 32%nat in UH.
  apply bytes_of_cells in UP as [P EP], UH as [h Eh].
  assert (HP : length P = 34%nat) by (apply (f_equal length) in EP; by rewrite length_cells, length_fmap in EP).
  assert (EP' : P = take len P ++ replicate (34 - length (take len P)) Byte.x00).
  { rewrite length_take, HP, Nat.min_l by lia. rewrite <- (take_drop len P) at 1. f_equal.
    apply list_eq_same_length with (34 - len)%nat;
      [by rewrite length_replicate|by rewrite length_drop, HP|].
    intros k x y Hk Hx Hy. rewrite lookup_drop in Hx. apply lookup_replicate in Hy as [-> _].
    specialize (Hz (len + k)%nat ltac:(lia)).
    apply (f_equal (λ l, l !! (len + k)%nat)) in EP. unfold cells in EP.
    rewrite !list_lookup_fmap, lookup_seq_lt, Hx in EP by lia. cbn in EP. injection EP as EP.
    apply b2z_inj. rewrite <- EP. exact Hz. }
  assert (Hl : length (take len P) = len) by (rewrite length_take, HP; lia).
  rewrite (leaf_exprs row id idx (take len P) h) in E; try done; cycle 1.
  { by rewrite Hl. }
  { by rewrite Elen, Hl. }
  { by rewrite <- EP'. }
  apply (inj (fmap b2z)) in E. symmetry in E.
  apply tuple_bytes_inv in E as [Ec ->]; [|done|apply length_zero_padded; rewrite length_leaf_preimage; lia|
    done|apply IV_u32|unfold in_range; lia|done].
  exists (take len P). split; [lia|]. split; [|done]. rewrite Ec at 1. done.
Qed.
