(* ===== verification/AirSound.v ===== *)
(** * Soundness of the batch of AIRs

    Traces that satisfy the membership constraints, share a balanced bus with
    a BLAKE3 trace and have the verifier's public values exhibit, for every
    claim, a payload and a Merkle path that replay to the committed root.
    The laws of [Blake3Air] are those of a row constraint system for the
    BLAKE3 compression. *)

From S2P Require Import Prelude Hash Tree TreeSpec ClaimTx ClaimTxSpec Prover Verifier VerifierSpec.
From S2P Require Import Blake3 Blake3Spec Air AirFacts AirLookups.
From Stdlib Require Import ZArith Lia List String.
From stdpp Require Import base decidable list.

Local Open Scope Z_scope.

(** A row that satisfies the constraints of [p3_blake3_air] has boolean input
    and output columns whose words are related by the compression function. *)
Class Blake3AirSound (BA : Blake3Air) : Prop := {
  blake3_row_sound : ∀ row, is_row NUM_BLAKE3_COLS row = true → blake3_row_ok row = true →
    ∃ c, wf_compression c ∧ io_cells row c
}.

(** ** The bus *)

Definition weight (l : list interaction) : Z := fold_right (λ p acc, p.2 + acc) 0 l.

Lemma weight_app l1 l2 : weight (l1 ++ l2) = weight l1 + weight l2.
Proof. induction l1; cbn; [done|]. unfold weight in *. lia. Qed.

Lemma bus_total_cons v p l : bus_total v (p :: l) = (if decide (p.1 = v) then p.2 else 0) + bus_total v l.
Proof. cbn. unfold bus_total. case_decide; lia. Qed.

Lemma bus_total_app v l1 l2 : bus_total v (l1 ++ l2) = bus_total v l1 + bus_total v l2.
Proof. induction l1 as [|p l1 IH]; [done|]. rewrite <- app_comm_cons, !bus_total_cons, IH. lia. Qed.

Lemma bus_total_bounds v l :
  Forall (λ p, bit p.2) l → 0 <= bus_total v l <= weight l.
Proof.
  induction 1 as [|[w m] l Hm Hl IH]; [done|]. rewrite bus_total_cons. cbn in *.
  unfold weight in *. destruct Hm; case_decide; lia.
Qed.

Lemma bus_total_elem v l : Forall (λ p, bit p.2) l → (v, 1) ∈ l → 1 <= bus_total v l.
Proof.
  intros Hl. induction Hl as [|[w m] l Hm Hl IH]; intros Hin; [by apply elem_of_nil in Hin|].
  rewrite bus_total_cons. pose proof (bus_total_bounds v l Hl). cbn in *.
  apply elem_of_cons in Hin as [[= <- <-]|Hin].
  - rewrite decide_True by done. lia.
  - specialize (IH Hin). destruct Hm; case_decide; lia.
Qed.

Lemma bus_total_nonzero v l : bus_total v l ≠ 0 → ∃ m, (v, m) ∈ l.
Proof.
  induction l as [|[w m] l IH]; intros H; [done|]. rewrite bus_total_cons in H. cbn in H.
  case_decide as E; [subst; exists m; left|]. destruct IH as [m' Hm]; [lia|]. exists m'. by right.
Qed.

(** On a balanced bus a tuple that is received is also sent. *)
Lemma bus_lookup receives sends v :
  Forall (λ p, bit p.2) receives → weight receives < babybear →
  bus_balanced receives sends = true → (v, 1) ∈ receives → ∃ m, (v, m) ∈ sends.
Proof.
  intros Hb Hw Hbal Hin. apply bus_total_nonzero. intros E.
  unfold bus_balanced in Hbal. rewrite forallb_forall in Hbal.
  specialize (Hbal (v, 1) ltac:(apply list_elem_of_In, elem_of_app; by left)). cbn [fst] in Hbal.
  rewrite E, Z.sub_0_r, fzero_true in Hbal.
  pose proof (bus_total_bounds v _ Hb). pose proof (bus_total_elem v _ Hb Hin).
  rewrite Z.mod_small in Hbal; lia.
Qed.

(** ** Bits of an index *)

Lemma bits_sum_bound n f :
  (∀ b, (b < n)%nat → bit (f b)) →
  0 <= sum_over n (λ b, f b * 2 ^ Z.of_nat b) < 2 ^ Z.of_nat n.
Proof.
  intros Hf. induction n as [|n IH]; [done|]. rewrite sum_over_S.
  specialize (IH ltac:(intros; apply Hf; lia)). rewrite Nat2Z.inj_succ, Z.pow_succ_r by lia.
  destruct (Hf n ltac:(lia)) as [-> | ->]; lia.
Qed.

Lemma bits_unique n f z :
  (∀ b, (b < n)%nat → bit (f b)) →
  sum_over n (λ b, f b * 2 ^ Z.of_nat b) = z mod 2 ^ Z.of_nat n →
  ∀ b, (b < n)%nat → f b = Z.b2z (Z.testbit z (Z.of_nat b)).
Proof.
  induction n as [|n IH]; intros Hf Hs b Hb; [lia|].
  assert (Hf' : ∀ b, (b < n)%nat → bit (f b)) by (intros; apply Hf; lia).
  rewrite <- sum_testbits, !sum_over_S, sum_testbits in Hs.
  pose proof (bits_sum_bound n f Hf') as Hn. pose proof (Z.mod_pos_bound z (2 ^ Z.of_nat n) ltac:(lia)) as Hz.
  assert (Hfn : f n = Z.b2z (Z.testbit z (Z.of_nat n))).
  { destruct (Hf n ltac:(lia)) as [E|E]; rewrite E in *;
      destruct (Z.testbit z (Z.of_nat n)); cbn [Z.b2z] in *; lia. }
  destruct (decide (b = n)) as [->|]; [done|]. apply IH; [done| |lia]. rewrite Hfn in Hs. lia.
Qed.

(** The index columns of a row hold the 64 bits of [z]. *)
Definition index_bits (row : list Z) (z : Z) : Prop :=
  ∀ b, (b < 64)%nat → row !!! (COL_REMAINING_INDEX_BITS + b)%nat = Z.b2z (Z.testbit z (Z.of_nat b)).

Lemma be_bytes8_lookup z k :
  (k < 8)%nat →
  (b2z <$> be_bytes 8 z) !! (7 - k)%nat = Some ((z / 2 ^ Z.of_nat (8 * k)) mod 256).
Proof.
  intros H. destruct k as [|[|[|[|[|[|[|[|k]]]]]]]]; [..|lia]; unfold be_bytes;
    cbn [Nat.sub fmap list_fmap lookup list_lookup]; by rewrite b2z_z2b.
Qed.

(** A byte of the public leaf index. *)
Lemma public_index_byte public z k :
  (k < 8)%nat → cells public PUBLIC_LEAF_INDEX_OFFSET 8 = b2z <$> be_bytes 8 z →
  public !!! (PUBLIC_LEAF_INDEX_OFFSET + LEAF_INDEX_LEN - 1 - k)%nat = (z / 2 ^ Z.of_nat (8 * k)) mod 256.
Proof.
  intros Hk Hpub. apply (f_equal (λ l, l !! (7 - k)%nat)) in Hpub. rewrite be_bytes8_lookup in Hpub by done.
  unfold cells in Hpub. rewrite list_lookup_fmap, lookup_seq_lt in Hpub by lia.
  apply (inj Some) in Hpub. rewrite <- Hpub. f_equal. unfold LEAF_INDEX_LEN. lia.
Qed.

Lemma index_bits_first row public z :
  (∀ b, (b < 64)%nat → bit (row !!! (COL_REMAINING_INDEX_BITS + b)%nat)) →
  cells public PUBLIC_LEAF_INDEX_OFFSET 8 = b2z <$> be_bytes 8 z →
  index_bits_match row public → index_bits row z.
Proof.
  intros Hbit Hpub Hm b Hb.
  assert (Hk : (b / 8 < 8)%nat) by (apply Nat.Div0.div_lt_upper_bound; lia).
  assert (Hr : (b mod 8 < 8)%nat) by (apply Nat.mod_upper_bound; lia).
  assert (Eb : b = (b / 8 * 8 + b mod 8)%nat) by (pose proof (Nat.div_mod_eq b 8); lia).
  remember (b / 8)%nat as k. remember (b mod 8)%nat as r. clear Heqk Heqr. subst b.
  specialize (Hm k Hk). rewrite (public_index_byte _ z) in Hm by done.
  set (f := λ r, row !!! (COL_REMAINING_INDEX_BITS + k * 8 + r)%nat).
  change (fzero (sum_over 8 (λ b, f b * 2 ^ Z.of_nat b) - (z / 2 ^ Z.of_nat (8 * k)) mod 256) = true) in Hm.
  assert (Hf : ∀ r, (r < 8)%nat → bit (f r)).
  { intros r' Hr'. unfold f. rewrite <- Nat.add_assoc. apply Hbit. lia. }
  pose proof (bits_sum_bound 8 f Hf) as Hs. change (2 ^ Z.of_nat 8) with 256 in Hs.
  apply canon_eq in Hm; [|unfold canon, babybear; lia|].
  2: { pose proof (Z.mod_pos_bound (z / 2 ^ Z.of_nat (8 * k)) 256). unfold canon, babybear. lia. }
  change 256 with (2 ^ Z.of_nat 8) in Hm.
  pose proof (bits_unique 8 f _ Hf Hm r Hr) as E. unfold f in E. rewrite <- Nat.add_assoc in E.
  rewrite E. f_equal. rewrite Z.div_pow2_bits by lia. f_equal. lia.
Qed.

Lemma index_bits_next row next z :
  0 <= z < 2 ^ 64 → index_bits row z →
  cells next COL_REMAINING_INDEX_BITS 63 = cells row (COL_REMAINING_INDEX_BITS + 1) 63 →
  next !!! (COL_REMAINING_INDEX_BITS + 63)%nat = 0 → index_bits next (z / 2).
Proof.
  intros Hz Hb Hs Ht b Hlt. 
  change (z / 2) with (z / 2 ^ 1). rewrite Z.div_pow2_bits by lia.
  destruct (decide (b = 63)%nat) as [->|Hne].
  - rewrite Ht. change (Z.of_nat 63 + 1) with 64.
    rewrite Z.bits_above_log2; [done|lia|]. destruct (decide (z = 0)) as [->|]; [done|].
    apply Z.log2_lt_pow2; lia.
  - rewrite cells_eq in Hs. rewrite (Hs b) by lia.
    rewrite <- (Nat.add_assoc _ 1), (Hb (1 + b)%nat) by lia. do 2 f_equal. lia.
Qed.

(** ** Real rows of a trace *)

Lemma is_row_spec w row : is_row w row = true ↔ length row = w ∧ Forall canon row.
Proof.
  unfold is_row. rewrite andb_true_iff, Nat.eqb_eq, forallb_forall, List.Forall_forall.
  apply and_iff_compat_l. split; intros H x Hx; specialize (H x Hx); unfold canon in *;
    rewrite ?andb_true_iff, ?Z.leb_le, ?Z.ltb_lt in *; done.
Qed.

Section Trace.
Variables (trace : list (list Z)) (public : list Z).
Hypothesis Hpub : Forall canon public.
Hypothesis Hok : membership_ok trace public = true.

Notation R i := (trace !!! i%nat).
Notation real i := (R i !!! COL_IS_REAL_STEP).
Notation last_step i := (R i !!! COL_IS_LAST_STEP).
Notation first_step i := (R i !!! COL_IS_FIRST_STEP).
Notation has_node i := (R i !!! COL_HAS_NODE_HASH).
Notation step i := (R i !!! COL_PATH_STEP_INDEX).

Lemma trace_height : (1 <= length trace)%nat ∧ Z.of_nat (length trace) <= 2 ^ 27.
Proof.
  pose proof Hok as H. unfold membership_ok in H. rewrite !andb_true_iff, Nat.leb_le, Z.leb_le in H. tauto.
Qed.

Lemma trace_row i : (i < length trace)%nat → length (R i) = NUM_MEMBERSHIP_COLS ∧ Forall canon (R i).
Proof.
  intros Hi. pose proof Hok as H. unfold membership_ok in H.
  rewrite !andb_true_iff in H. destruct H as [[_ Hr] _]. rewrite forallb_forall in Hr. apply is_row_spec, Hr.
  apply list_elem_of_In, list_elem_of_lookup_total_2. done.
Qed.

Lemma trace_window i :
  (i < length trace)%nat →
  window (Nat.eqb i 0) (Nat.eqb (S i) (length trace)) (R i) (R (S i mod length trace)%nat) public.
Proof.
  intros Hi. destruct trace_height as [Hh _]. pose proof Hok as H. unfold membership_ok in H.
  rewrite !andb_true_iff in H. destruct H as [_ Hw]. rewrite forallb_forall in Hw.
  specialize (Hw i ltac:(apply in_seq; lia)). unfold window_ok in Hw. rewrite holds_forallb in Hw.
  apply eval_membership_iff in Hw; [done| | |done]; apply trace_row; [done|].
  apply Nat.mod_upper_bound. lia.
Qed.

(** The window of a row that is not the last. *)
Lemma trace_window_inner i :
  (S i < length trace)%nat → window (Nat.eqb i 0) false (R i) (R (S i)) public.
Proof.
  intros Hi. pose proof (trace_window i ltac:(lia)) as W.
  rewrite Nat.mod_small in W by done.
  replace (Nat.eqb (S i) (length trace)) with false in W; [done|]. symmetry. apply Nat.eqb_neq. lia.
Qed.

Lemma trace_first : real 0 = 1 ∧ first_step 0 = 1 ∧ step 0 = 0.
Proof. destruct trace_height. by apply (w_first_row _ _ _ _ _ (trace_window 0 ltac:(lia))). Qed.

Lemma trace_step_next i :
  (S i < length trace)%nat → real i = 1 → last_step i = 0 → step i = Z.of_nat i →
  step (S i) = Z.of_nat (S i).
Proof.
  intros Hi Hr Hl Hs. pose proof (trace_window_inner i Hi) as W.
  destruct (w_transition _ _ _ _ _ W eq_refl) as (_ & _ & _ & _ & H).
  destruct (H Hr Hl) as [E _]. rewrite Hs in E. destruct trace_height as [_ Hh].
  replace (Z.of_nat (S i)) with (Z.of_nat i + 1) by lia.
  apply canon_eq; [apply canon_lookup, trace_row; lia| |done]. unfold canon, babybear. lia.
Qed.

(** From a real row the real rows run up to a last step. *)
Lemma trace_run n i :
  (length trace - i = n)%nat → (i < length trace)%nat → real i = 1 → step i = Z.of_nat i →
  ∃ k, (i <= k < length trace)%nat ∧ last_step k = 1 ∧
    (∀ j, (i <= j <= k)%nat → real j = 1 ∧ step j = Z.of_nat j) ∧
    (∀ j, (i <= j < k)%nat → last_step j = 0).
Proof.
  revert i. induction n as [|n IH]; intros i Hn Hi Hr Hs; [lia|].
  pose proof (trace_window i Hi) as W. destruct (w_last_bit _ _ _ _ _ W) as [Hl|Hl].
  - assert (Hi' : (S i < length trace)%nat).
    { destruct (decide (S i = length trace)) as [E|]; [|lia]. rewrite E, Nat.eqb_refl in W.
      pose proof (w_last_row _ _ _ _ _ W eq_refl Hr). congruence. }
    pose proof (w_transition _ _ _ _ _ (trace_window_inner i Hi') eq_refl) as (_ & Hr' & _).
    destruct (IH (S i)) as (k & Hk & Hlk & Hreal & Hlast);
      [lia|done|by apply Hr'|by apply trace_step_next|].
    exists k. split; [lia|]. split; [done|]. split; intros j Hj.
    + destruct (decide (j = i)) as [->|]; [done|]. apply Hreal. lia.
    + destruct (decide (j = i)) as [->|]; [done|]. apply Hlast. lia.
  - exists i. split; [lia|]. split; [done|]. split; intros j Hj; [|lia].
    by replace j with i by lia.
Qed.

Lemma trace_padding k j :
  (k < j < length trace)%nat → real k = 1 → last_step k = 1 → real j = 0.
Proof.
  intros Hj Hr Hl. induction j as [|j IH]; [lia|].
  pose proof (w_transition _ _ _ _ _ (trace_window_inner j ltac:(lia)) eq_refl) as (_ & _ & H1 & H2 & _).
  destruct (decide (j = k)) as [->|]; [by apply H1|]. apply H2, IH. lia.
Qed.

(** The depth that the public values claim. *)
Definition claimed_depth : Z := public !!! PUBLIC_TREE_DEPTH_OFFSET.

(** The real rows are exactly the first rows; there are as many as the depth,
    or one if the depth is zero. *)
Lemma trace_shape :
  is_u8 claimed_depth →
  ∃ k, (k < length trace)%nat ∧ last_step k = 1 ∧
    Z.of_nat k + has_node k = claimed_depth ∧
    (∀ j, (j <= k)%nat → real j = 1 ∧ step j = Z.of_nat j) ∧
    (∀ j, (j < k)%nat → last_step j = 0) ∧
    (∀ j, (k < j < length trace)%nat → Forall (λ x, x = 0) (R j)).
Proof.
  intros Hd. destruct trace_height as [Hh Hh']. destruct trace_first as (Hr & _ & Hs).
  destruct (trace_run (length trace) 0) as (k & Hk & Hl & Hreal & Hlast); [lia|lia|done|done|].
  destruct (Hreal k ltac:(lia)) as [Hrk Hsk]. pose proof (trace_window k ltac:(lia)) as W.
  exists k. split; [lia|]. split; [done|]. split.
  - destruct (w_stop _ _ _ _ _ W Hrk Hl) as [E _].
    destruct (w_public _ _ _ _ _ W Hrk) as (_ & Ed & _). rewrite Hsk, Ed in E.
    apply canon_eq; [| |exact E].
    + destruct (w_node_bit _ _ _ _ _ W) as [-> | ->]; unfold canon, babybear; lia.
    + unfold in_range, canon, babybear, claimed_depth in *. lia.
  - split; [intros j Hj; apply Hreal; lia|]. split; [intros j Hj; apply Hlast; lia|].
    intros j Hj. apply (w_padding _ _ _ _ _ (trace_window j ltac:(lia))).
    by apply (trace_padding k).
Qed.

(** *** Multiplicities *)

Lemma row_interactions i :
  (i < length trace)%nat → Forall (λ p, bit p.2) (membership_lookups (R i)) ∧
  0 <= weight (membership_lookups (R i)) <= 3.
Proof.
  intros Hi. pose proof (trace_window i Hi) as W. unfold membership_lookups, weight. cbn [fold_right snd].
  destruct (w_real _ _ _ _ _ W) as [-> | ->], (w_first_bit _ _ _ _ _ W) as [-> | ->],
    (w_node_bit _ _ _ _ _ W) as [-> | ->]; unfold bit;
    (split; [repeat constructor; cbn; lia|lia]).
Qed.

Lemma zero_row_cell row k :
  length row = NUM_MEMBERSHIP_COLS → Forall (λ x, x = 0) row → (k < NUM_MEMBERSHIP_COLS)%nat →
  row !!! k = 0.
Proof.
  intros Hl H Hk. destruct (lookup_lt_is_Some_2 row k) as [x Hx]; [by rewrite Hl|].
  rewrite (list_lookup_total_correct _ _ _ Hx). exact (list.Forall_lookup_1 _ _ _ _ H Hx).
Qed.

Lemma zero_row_weight row :
  length row = NUM_MEMBERSHIP_COLS → Forall (λ x, x = 0) row → weight (membership_lookups row) = 0.
Proof.
  intros Hl H. unfold weight, membership_lookups. cbn [fold_right snd].
  rewrite !(zero_row_cell row) by (done || by_compute). lia.
Qed.

Lemma rows_weight rows bound :
  Forall (λ row, 0 <= weight (membership_lookups row) <= bound) rows →
  0 <= weight (concat (membership_lookups <$> rows)) <= bound * Z.of_nat (length rows).
Proof.
  induction 1 as [|row rows Hr H IH]; [cbn; lia|]. rewrite fmap_cons. cbn [concat length].
  rewrite weight_app. lia.
Qed.

Lemma trace_interactions :
  is_u8 claimed_depth →
  Forall (λ p, bit p.2) (concat (membership_lookups <$> trace)) ∧
  0 <= weight (concat (membership_lookups <$> trace)) <= 768.
Proof.
  intros Hd. destruct (trace_shape Hd) as (k & Hk & _ & Ek & _ & _ & Hpad). split.
  { apply Forall_concat, Forall_fmap, list.Forall_lookup_2. intros i row Hi.
    pose proof (lookup_lt_Some _ _ _ Hi). rewrite <- (list_lookup_total_correct _ _ _ Hi).
    by apply row_interactions. }
  rewrite <- (take_drop (S k) trace), fmap_app, concat_app, weight_app.
  assert (H1 : 0 <= weight (concat (membership_lookups <$> take (S k) trace))
                 <= 3 * Z.of_nat (length (take (S k) trace))).
  { apply rows_weight, list.Forall_lookup_2. intros i row Hi.
    apply lookup_take_Some in Hi as [Hi _]. pose proof (lookup_lt_Some _ _ _ Hi).
    rewrite <- (list_lookup_total_correct _ _ _ Hi). by apply row_interactions. }
  assert (H2 : 0 <= weight (concat (membership_lookups <$> drop (S k) trace))
                 <= 0 * Z.of_nat (length (drop (S k) trace))).
  { apply rows_weight, list.Forall_lookup_2. intros i row Hi. rewrite lookup_drop in Hi.
    pose proof (lookup_lt_Some _ _ _ Hi). rewrite <- (list_lookup_total_correct _ _ _ Hi).
    rewrite zero_row_weight; [lia|apply trace_row; lia|]. apply Hpad. lia. }
  rewrite length_take in H1. unfold in_range in Hd.
  destruct (w_node_bit _ _ _ _ _ (trace_window k Hk)) as [E|E]; rewrite E in Ek; lia.
Qed.

(** *** The Merkle path in the rows *)

Section Claim.
Context {HF : HashFns} {BL : Blake3Laws HF}.
Variables (p : ClaimPublicInputs) (binding : list Z).
Hypothesis Hp : wf_public p.
Hypothesis Hpublic : public = public_layout binding p.
Hypothesis Htuples : ∀ i v, (i < length trace)%nat → (v, 1) ∈ membership_lookups (R i) →
  ∃ c, wf_compression c ∧ v = b2z <$> tuple_bytes c.

Lemma public_id : public !!! PUBLIC_SUB_TREE_ID_OFFSET = sub_tree_id p.
Proof. by rewrite Hpublic. Qed.

Lemma public_index : cells public PUBLIC_LEAF_INDEX_OFFSET 8 = b2z <$> be_bytes 8 (leaf_index p).
Proof. by rewrite Hpublic. Qed.

Lemma public_depth : public !!! PUBLIC_TREE_DEPTH_OFFSET = tree_depth p.
Proof. by rewrite Hpublic. Qed.

Lemma public_root : cells public PUBLIC_ROOT_OFFSET 32 = b2z <$> per_sub_tree_root p.
Proof.
  destruct Hp as (_ & _ & _ & Hr & _). rewrite Hpublic. rewrite cells_slice.
  2: { rewrite length_public_layout by done. change PUBLIC_ROOT_OFFSET with 10%nat. lia. }
  unfold slice, public_layout. rewrite !app_assoc.
  rewrite <- (app_assoc _ (b2z <$> per_sub_tree_root p)).
  rewrite drop_app_length' by (by rewrite !length_app, length_fmap, length_be_bytes).
  apply take_app_length'. by rewrite length_fmap.
Qed.

(** A row with a node hash computes it. *)
Lemma row_node i :
  (i < length trace)%nat → real i = 1 → has_node i = 1 →
  ∃ l r, is_hash l ∧ is_hash r ∧ cells (R i) COL_LEFT_NODE 32 = b2z <$> l ∧
    cells (R i) COL_RIGHT_NODE 32 = b2z <$> r ∧
    cells (R i) COL_CURRENT_NODE 32 = b2z <$> node_hash_v2 l r.
Proof.
  intros Hi Hr Hh. destruct (Htuples i (field_tuple (node_first_lookup_exprs (R i))) Hi) as (c1 & W1 & E1).
  { unfold membership_lookups. rewrite Hr, Hh. right. left. }
  destruct (Htuples i (field_tuple (node_second_lookup_exprs (R i))) Hi) as (c2 & W2 & E2).
  { unfold membership_lookups. rewrite Hr, Hh. right. right. left. }
  destruct (node_tuples_inv (R i) c1 c2) as (l & r & Hl & Hr' & Ec & El & Er & Ecur);
    [by apply trace_row|done..|].
  exists l, r. repeat (split; [done|]). rewrite Ecur.
  change c2 with (snd (c1, c2)). rewrite Ec. by rewrite node_compressions_node_hash.
Qed.

(** One row steps up the path, with its sibling. *)
Lemma row_step i z x :
  (i < length trace)%nat → real i = 1 → has_node i = 1 → index_bits (R i) z → 0 <= z →
  is_hash x → cells (R i) COL_PREV_NODE 32 = b2z <$> x →
  ∃ s, is_hash s ∧ is_hash (step_up node_hash_v2 z x s) ∧
    cells (R i) COL_CURRENT_NODE 32 = b2z <$> step_up node_hash_v2 z x s.
Proof.
  intros Hi Hr Hh Hb Hz Hx Ex. destruct (row_node i Hi Hr Hh) as (l & r & Hl & Hrr & El & Er & Ec).
  pose proof (cells_hash _ _ _ Ec) as Hc. pose proof (trace_window i Hi) as W.
  pose proof (w_direction _ _ _ _ _ W Hh) as Hd.
  rewrite <- (Nat.add_0_r COL_REMAINING_INDEX_BITS), (Hb 0%nat) in Hd by lia.
  cbn [Z.of_nat] in Hd. rewrite Z.bit0_odd in Hd.
  unfold step_up. rewrite land_1_mod, Zmod_odd.
  destruct (Z.odd z) eqn:Eo; cbn [Z.b2z Z.eqb] in *.
  - destruct (w_right _ _ _ _ _ W Hh Hd) as [E1 E2].
    rewrite Ex in E2. rewrite Er in E2. apply (inj (fmap b2z)) in E2 as ->. by exists l.
  - destruct (w_left _ _ _ _ _ W Hh Hd) as [E1 E2].
    rewrite Ex, El in E1. apply (inj (fmap b2z)) in E1 as ->. by exists r.
Qed.

Lemma rows_path k n i z x :
  (k < length trace)%nat → last_step k = 1 → (∀ j, (j <= k)%nat → real j = 1 ∧ has_node j = 1) →
  (∀ j, (j < k)%nat → last_step j = 0) →
  (k - i = n)%nat → (i <= k)%nat → index_bits (R i) z → 0 <= z < 2 ^ 64 →
  is_hash x → cells (R i) COL_PREV_NODE 32 = b2z <$> x →
  ∃ path, length path = S n ∧ Forall is_hash path ∧
    walk node_hash_v2 z x path = per_sub_tree_root p.
Proof.
  intros Hk Hlk Hreal Hlast. revert i z x. induction n as [|n IH]; intros i z x Hn Hi Hb Hz Hx Ex;
    destruct (Hreal i Hi) as [Hr Hh];
    destruct (row_step i z x ltac:(lia) Hr Hh Hb ltac:(lia) Hx Ex) as (s & Hs & Hu & Ec).
  - assert (i = k) as -> by lia. exists [s]. split; [done|]. split; [by constructor|]. cbn [walk].
    destruct (w_stop _ _ _ _ _ (trace_window k Hk) Hr Hlk) as [_ E].
    rewrite Ec, public_root in E. by apply (inj (fmap b2z)) in E.
  - pose proof (w_transition _ _ _ _ _ (trace_window_inner i ltac:(lia)) eq_refl) as (_ & _ & _ & _ & H).
    destruct (H Hr (Hlast i ltac:(lia))) as (_ & Ep & Es & Et).
    destruct (IH (S i) (z / 2) (step_up node_hash_v2 z x s)) as (path & Hl & Hf & Hw).
    + lia.
    + lia.
    + by apply (index_bits_next (R i)).
    + split; [apply Z.div_pos; lia|]. apply Z.div_lt_upper_bound; lia.
    + done.
    + by rewrite Ep.
    + exists (s :: path). cbn [length walk]. split; [by rewrite Hl|]. split; [by constructor|done].
Qed.

(** A satisfying trace exhibits an opening of the committed root. *)
Lemma trace_opening :
  ∃ payload path, (length payload <= 34)%nat ∧ length path = Z.to_nat (tree_depth p) ∧
    Forall is_hash path ∧
    walk node_hash_v2 (leaf_index p) (leaf_hash_v2 (sub_tree_id p) (leaf_index p) payload) path =
      per_sub_tree_root p.
Proof.
  destruct Hp as (Hid & Hidx & Hdep & _). destruct trace_height as [Hh _].
  assert (Hd : is_u8 claimed_depth) by (unfold claimed_depth; by rewrite public_depth).
  destruct (trace_shape Hd) as (k & Hk & Hlk & Ek & Hreal & Hlast & _).
  unfold claimed_depth in Ek. rewrite public_depth in Ek.
  destruct trace_first as (Hr0 & Hf0 & _). pose proof (trace_window 0 ltac:(lia)) as W0.
  destruct (w_public _ _ _ _ _ W0 Hr0) as (E1 & E2 & E3 & E4 & E5).
  destruct (w_first_bits _ _ _ _ _ W0 Hf0) as [_ Hbits].
  rewrite public_id in E1. rewrite public_index in E3.
  destruct (Htuples 0 (field_tuple (leaf_lookup_exprs (R 0)))) as (c & Wc & Ec); [lia| |].
  { unfold membership_lookups. rewrite Hf0. left. }
  destruct (leaf_tuple_inv (R 0) c (sub_tree_id p) (leaf_index p)) as (payload & Hlen & -> & Eprev);
    [apply trace_row; lia|done..|].
  rewrite leaf_compression_leaf_hash in Eprev by done. pose proof (cells_hash _ _ _ Eprev) as Hleaf.
  destruct (decide (tree_depth p = 0)) as [Hz|Hz].
  - assert (k = 0%nat ∧ has_node k = 0) as [-> Hn].
    { destruct (w_node_bit _ _ _ _ _ (trace_window k Hk)) as [E|E]; rewrite E in *; lia. }
    exists payload, []. rewrite Hz. repeat (split; [done|]). cbn [walk].
    destruct (w_no_node _ _ _ _ _ W0) as (_ & Ecur & _); [rewrite Hr0, Hn; done|].
    destruct (w_stop _ _ _ _ _ W0 Hr0 Hlk) as [_ Eroot].
    rewrite Ecur, Eprev, public_root in Eroot. by apply (inj (fmap b2z)) in Eroot.
  - assert (Hnode : ∀ j, (j <= k)%nat → real j = 1 ∧ has_node j = 1).
    { intros j Hj. destruct (Hreal j Hj) as [Hrj _]. split; [done|].
      pose proof (trace_window j ltac:(lia)) as Wj.
      destruct (w_node_bit _ _ _ _ _ Wj) as [E|E]; [|done]. destruct Hz.
      destruct (w_no_node _ _ _ _ _ Wj) as [Ed _]; [rewrite Hrj, E; done|].
      destruct (w_public _ _ _ _ _ Wj Hrj) as (_ & Ed' & _). rewrite public_depth in Ed'. congruence. }
    assert (Hb : index_bits (R 0) (leaf_index p)).
    { apply (index_bits_first _ public); [exact E5|apply public_index|exact Hbits]. }
    destruct (rows_path k k 0 (leaf_index p) _ Hk Hlk Hnode Hlast (Nat.sub_0_r k) (Nat.le_0_l k)
      Hb Hidx Hleaf Eprev) as (path & Hl & Hf & Hw).
    exists payload, path. rewrite (proj2 (Hnode k ltac:(lia))) in Ek. rewrite Hl.
    split; [exact Hlen|]. split; [lia|]. split; [exact Hf|exact Hw].
Qed.

End Claim.

End Trace.

(** ** The batch *)

(** A claim opens its root: a payload of a leaf and a Merkle path replay to
    the committed sub-tree root at the claimed index and depth. *)
Definition opens `{HashFns} (p : ClaimPublicInputs) : Prop :=
  ∃ payload path, (length payload <= 34)%nat ∧ length path = Z.to_nat (tree_depth p) ∧
    Forall is_hash path ∧
    walk node_hash_v2 (leaf_index p) (leaf_hash_v2 (sub_tree_id p) (leaf_index p) payload) path =
      per_sub_tree_root p.

Section Batch.
Context {HF : HashFns} {BL : Blake3Laws HF} {BA : Blake3Air} {BS : Blake3AirSound BA}.

Lemma public_layout_canon binding p :
  wf_public p → Forall canon binding → Forall canon (public_layout binding p).
Proof.
  intros (Hid & _ & Hd & _) Hb. unfold public_layout. rewrite !Forall_app.
  repeat split; try apply bytes_canon; try done; apply canon_u8; by constructor.
Qed.

Lemma sent_tuple rows v m :
  forallb (λ row, is_row NUM_BLAKE3_COLS row && blake3_row_ok row) rows = true →
  (v, m) ∈ concat (blake3_lookups <$> rows) →
  ∃ c, wf_compression c ∧ v = b2z <$> tuple_bytes c.
Proof.
  rewrite forallb_forall. intros H Hin.
  apply elem_of_concat in Hin as (l & Hv & Hl). apply list_elem_of_fmap in Hl as (row & -> & Hrow).
  apply list_elem_of_In in Hrow. specialize (H _ Hrow). apply andb_true_iff in H as [H1 H2].
  destruct (blake3_row_sound row H1 H2) as (c & Wc & Hio). exists c. split; [done|].
  unfold blake3_lookups in Hv. apply list_elem_of_singleton in Hv. apply (f_equal fst) in Hv. cbn [fst] in Hv.
  rewrite Hv.
  by rewrite (table_exprs_bytes row c), field_tuple_bytes by done.
Qed.

Lemma batch_weights binding pis membership :
  Forall wf_public pis → Forall canon binding →
  Forall2 (λ trace p, membership_ok trace (public_layout binding p) = true) membership pis →
  Forall (λ p, bit p.2) (concat (membership_lookups <$> concat membership)) ∧
  0 <= weight (concat (membership_lookups <$> concat membership)) <= 768 * Z.of_nat (length pis).
Proof.
  intros Hw Hb H. induction H as [|trace p traces pis Ht _ IH]; [split; [constructor|cbn; lia]|].
  apply Forall_cons in Hw as [Hp Hps]. specialize (IH Hps). cbn [concat].
  rewrite fmap_app, concat_app, weight_app, Forall_app.
  destruct (trace_interactions trace (public_layout binding p)) as [H1 H2];
    [by apply public_layout_canon|done| |].
  { unfold claimed_depth. rewrite (public_depth _ p binding) by done. apply Hp. }
  destruct IH as [H3 H4]. split; [done|]. cbn [length]. lia.
Qed.

Lemma batch_layouts binding pis membership :
  Forall wf_public pis → length membership = length (public_values_of binding <$> pis) →
  forallb (λ p, membership_ok p.1 p.2) (zip membership (public_values_of binding <$> pis)) = true →
  Forall2 (λ trace p, membership_ok trace (public_layout binding p) = true) membership pis.
Proof.
  intros Hw. revert membership. induction Hw as [|p pis Hp _ IH]; intros [|t ts] Hl H; try done.
  cbn [fmap list_fmap zip zip_with forallb fst snd length] in *.
  apply andb_true_iff in H as [H1 H2]. constructor; [|apply IH; [lia|done]].
  rewrite <- public_values_layout; [done|apply Hp].
Qed.

Lemma batch_opening binding pis membership blake3 :
  Forall wf_public pis → Forall canon binding → Z.of_nat (length pis) <= 2 ^ 21 →
  batch_ok membership blake3 (public_values_of binding <$> pis) = true →
  Forall opens pis.
Proof.
  intros Hw Hb Hn H. unfold batch_ok in H. rewrite !andb_true_iff in H.
  destruct H as [[[Hl Hm] Hr] Hbus]. apply Nat.eqb_eq in Hl.
  pose proof (batch_layouts binding pis membership Hw Hl Hm) as H2.
  destruct (batch_weights binding pis membership Hw Hb H2) as [Hbits Hweight].
  apply list.Forall_lookup_2. intros i p Hp.
  destruct (Forall2_lookup_r _ _ _ _ _ H2 Hp) as (trace & Ht & Hok).
  pose proof (list.Forall_lookup_1 _ _ _ _ Hw Hp) as Wp.
  apply (trace_opening trace (public_layout binding p)) with (binding := binding); try done.
  { by apply public_layout_canon. }
  intros j v Hj Hv.
  assert (Hin : (v, 1) ∈ concat (membership_lookups <$> concat membership)).
  { apply elem_of_concat. exists (membership_lookups (trace !!! j)). split; [done|].
    apply list_elem_of_fmap_2, elem_of_concat. exists trace.
    split; [by apply list_elem_of_lookup_total_2|by apply list_elem_of_lookup_2 with i]. }
  destruct (bus_lookup _ _ v Hbits ltac:(unfold babybear; lia) Hbus Hin) as (m & Hsent).
  by apply (sent_tuple blake3 v m).
Qed.

End Batch.

(** C1: The AIRs are sound.  Traces that satisfy the membership constraints
    for the public values of a list of claims, together with a BLAKE3 trace
    that balances their lookups, exhibit for every claim a leaf payload of at
    most 34 bytes and a Merkle path of the claimed depth that replay, with
    the sub-tree's leaf and node hashes, to the claimed root at the claimed
    64-bit index. *)
Theorem batch_sound {HF : HashFns} (BL : Blake3Laws HF) {BA : Blake3Air} (BS : Blake3AirSound BA)
    c pis membership blake3 (Hp : Forall wf_public pis) (Hn : Z.of_nat (length pis) <= 2 ^ 21)
    (Hok : batch_ok membership blake3 (proof_public_values c pis) = true) :
  Forall opens pis.
Proof.
  apply (batch_opening (proof_binding_words c pis) pis membership blake3); try done. apply bytes_canon.
Qed.
