(* ===== verification/AirRows.v ===== *)
(** * The rows of an honest membership trace

    [fill_real_row] writes single columns into a zeroed row; the row it
    produces is the concatenation of the column groups
    ([real_row_columns]), from which every column is read back.  The rows of
    [real_rows_from] are then described in closed form: row [j] holds the
    node at level [j] of the path, its sibling, and the index shifted by [j]. *)

From S2P Require Import Prelude Hash Tree TreeSpec ClaimTx ClaimTxSpec Prover Verifier VerifierSpec.
From S2P Require Import Blake3 Blake3Spec Blake3Rows Air AirFacts AirLookups AirSound.
From Stdlib Require Import ZArith Lia List String.
From stdpp Require Import base decidable list.

Local Open Scope Z_scope.

(** ** Column groups *)

Definition index_columns (z : Z) : list Z := (λ b, Z.b2z (Z.testbit z (Z.of_nat b))) <$> seq 0 64.

Definition selector_columns (len : nat) : list Z := replicate len 0 ++ [1] ++ replicate (34 - len) 0.

Definition payload_columns (payload : bytes) : list Z :=
  b2z <$> (payload ++ replicate (34 - length payload) Byte.x00).

Definition real_row_columns (w : CheckedWitness) (r : RealRowValues) : list Z :=
  let p := cw_public w in
  let payload := cw_leaf_payload w in
  [sub_tree_id p] ++ (b2z <$> be_bytes 8 (leaf_index p)) ++ index_columns (rr_remaining_index r) ++
  [Z.of_nat (rr_step r) mod 2 ^ 32] ++ [tree_depth p] ++ [Z.of_nat (length payload) mod 256] ++
  selector_columns (length payload) ++ payload_columns payload ++
  (b2z <$> rr_prev r) ++ (b2z <$> rr_sibling r) ++ (b2z <$> rr_left r) ++ (b2z <$> rr_right r) ++
  (b2z <$> rr_mid r) ++ (b2z <$> rr_current r) ++ [rr_direction r] ++ [Z.b2z (rr_has_node r)] ++
  [Z.b2z (Nat.eqb (rr_step r) 0)] ++ [1] ++
  [Z.b2z (Nat.eqb (rr_step r + 1) (Nat.max (length (cw_merkle_path w)) 1))].

(** The six nodes of a row are hashes. *)
Definition row_hashes (r : RealRowValues) : Prop :=
  is_hash (rr_prev r) ∧ is_hash (rr_sibling r) ∧ is_hash (rr_left r) ∧ is_hash (rr_right r) ∧
  is_hash (rr_mid r) ∧ is_hash (rr_current r).

Lemma index_columns_bits z :
  (λ bit, Z.b2z (Z.land (Z.shiftr z (Z.of_nat bit)) 1 =? 1)) <$> seq 0 REMAINING_INDEX_BITS =
  index_columns z.
Proof.
  apply list_fmap_ext. intros _ b _. rewrite land_1_mod, Zmod_odd, <- Z.bit0_odd, Z.shiftr_spec by lia.
  rewrite Z.add_0_l. by destruct (Z.testbit z (Z.of_nat b)).
Qed.

Lemma write_next' off pre v n m :
  off = length pre → length v = n → write_at (pre ++ replicate (n + m) 0) off v = pre ++ v ++ replicate m 0.
Proof. intros -> <-. apply write_next. Qed.

Lemma write_selector off pre len m :
  off = length pre → (len <= 34)%nat →
  set_cell (pre ++ replicate (35 + m) 0) (off + len) 1 = pre ++ selector_columns len ++ replicate m 0.
Proof.
  intros -> H. unfold set_cell. replace (35 + m)%nat with (len + (1 + (34 - len + m)))%nat by lia.
  rewrite replicate_add, app_assoc, (write_next' _ (pre ++ replicate len 0) [1] 1); [| |done].
  - unfold selector_columns. by rewrite replicate_add, <- !app_assoc.
  - by rewrite length_app, length_replicate.
Qed.

Lemma write_payload off pre payload m :
  off = length pre → (length payload <= 34)%nat →
  write_at (pre ++ replicate (34 + m) 0) off (b2z <$> payload) =
    pre ++ payload_columns payload ++ replicate m 0.
Proof.
  intros -> H. replace (34 + m)%nat with (length (b2z <$> payload) + (34 - length payload + m))%nat
    by (rewrite length_fmap; lia).
  rewrite write_next. unfold payload_columns.
  by rewrite replicate_add, fmap_app, <- zeros_bytes, <- !app_assoc.
Qed.

Lemma write_hash off pre h m :
  off = length pre → is_hash h →
  copy_hash (pre ++ replicate (32 + m) 0) off h = pre ++ (b2z <$> h) ++ replicate m 0.
Proof.
  intros -> H. unfold copy_hash. rewrite <- (write_next pre (b2z <$> h)). by rewrite length_fmap, H.
Qed.

Lemma write_cell off pre v m :
  off = length pre → set_cell (pre ++ replicate (1 + m) 0) off v = pre ++ [v] ++ replicate m 0.
Proof. intros ->. apply (write_next pre [v]). Qed.

Lemma length_index_columns z : length (index_columns z) = 64%nat.
Proof. done. Qed.

Lemma length_selector_columns len : (len <= 34)%nat → length (selector_columns len) = 35%nat.
Proof. intros H. unfold selector_columns. rewrite !length_app, !length_replicate. cbn [length]. lia. Qed.

Lemma length_payload_columns payload :
  (length payload <= 34)%nat → length (payload_columns payload) = 34%nat.
Proof. intros H. unfold payload_columns. rewrite length_fmap, length_app, length_replicate. lia. Qed.

Lemma length_hash_columns h : is_hash h → length (b2z <$> h) = 32%nat.
Proof. intros H. by rewrite length_fmap. Qed.

Lemma length_index_bytes z : length (b2z <$> be_bytes 8 z) = 8%nat.
Proof. done. Qed.

Ltac col_offsets :=
  unfold NUM_MEMBERSHIP_COLS, COL_IS_LAST_STEP, COL_IS_REAL_STEP, COL_IS_FIRST_STEP, COL_HAS_NODE_HASH,
    COL_DIRECTION_BIT, COL_CURRENT_NODE, COL_NODE_MID, COL_RIGHT_NODE, COL_LEFT_NODE, COL_SIBLING,
    COL_PREV_NODE, COL_PAYLOAD, COL_PAYLOAD_LEN_SELECTOR, COL_PAYLOAD_LEN, COL_TREE_DEPTH,
    COL_PATH_STEP_INDEX, COL_REMAINING_INDEX_BITS, COL_LEAF_INDEX_BE, COL_SUB_TREE_ID,
    LEAF_PAYLOAD_LEN_CHOICES, REMAINING_INDEX_BITS, LEAF_INDEX_LEN, HASH_LEN;
  change MAX_V01_LEAF_PAYLOAD_LEN with 34%nat.

(** *** Reading column groups back *)

Lemma slice_skip s rest off n k :
  length s = k → (k <= off)%nat → slice off n (s ++ rest) = slice (off - k) n rest.
Proof. intros <- H. unfold slice. by rewrite drop_app, drop_ge, app_nil_l by done. Qed.

Lemma slice_take v rest n : length v = n → slice 0 n (v ++ rest) = v.
Proof. intros <-. apply take_app_length. Qed.

Lemma slice_all v n : length v = n → slice 0 n v = v.
Proof. intros <-. apply take_ge. lia. Qed.

Lemma slice_cell row off x : slice off 1 row = [x] → row !!! off = x.
Proof.
  intros H. apply list_lookup_total_correct. rewrite <- (Nat.add_0_r off), <- (slice_lookup off 1) by lia.
  by rewrite H.
Qed.

Lemma cells_lookup row o n l i : cells row o n = l → (i < n)%nat → row !!! (o + i)%nat = l !!! i.
Proof.
  intros <- Hi. symmetry. apply list_lookup_total_correct. unfold cells.
  by rewrite list_lookup_fmap, lookup_seq_lt.
Qed.

(** The columns of a real row. *)
Record row_reads (row : list Z) (w : CheckedWitness) (r : RealRowValues) : Prop := {
  rd_id : row !!! COL_SUB_TREE_ID = sub_tree_id (cw_public w);
  rd_index : cells row COL_LEAF_INDEX_BE 8 = b2z <$> be_bytes 8 (leaf_index (cw_public w));
  rd_bits : cells row COL_REMAINING_INDEX_BITS 64 = index_columns (rr_remaining_index r);
  rd_step : row !!! COL_PATH_STEP_INDEX = Z.of_nat (rr_step r) mod 2 ^ 32;
  rd_depth : row !!! COL_TREE_DEPTH = tree_depth (cw_public w);
  rd_len : row !!! COL_PAYLOAD_LEN = Z.of_nat (length (cw_leaf_payload w)) mod 256;
  rd_selector : cells row COL_PAYLOAD_LEN_SELECTOR 35 = selector_columns (length (cw_leaf_payload w));
  rd_payload : cells row COL_PAYLOAD 34 = payload_columns (cw_leaf_payload w);
  rd_prev : cells row COL_PREV_NODE 32 = b2z <$> rr_prev r;
  rd_sibling : cells row COL_SIBLING 32 = b2z <$> rr_sibling r;
  rd_left : cells row COL_LEFT_NODE 32 = b2z <$> rr_left r;
  rd_right : cells row COL_RIGHT_NODE 32 = b2z <$> rr_right r;
  rd_mid : cells row COL_NODE_MID 32 = b2z <$> rr_mid r;
  rd_current : cells row COL_CURRENT_NODE 32 = b2z <$> rr_current r;
  rd_direction : row !!! COL_DIRECTION_BIT = rr_direction r;
  rd_has_node : row !!! COL_HAS_NODE_HASH = Z.b2z (rr_has_node r);
  rd_first : row !!! COL_IS_FIRST_STEP = Z.b2z (Nat.eqb (rr_step r) 0);
  rd_real : row !!! COL_IS_REAL_STEP = 1;
  rd_last : row !!! COL_IS_LAST_STEP =
    Z.b2z (Nat.eqb (rr_step r + 1) (Nat.max (length (cw_merkle_path w)) 1))
}.

Section Row.
Variables (w : CheckedWitness) (r : RealRowValues).
Hypothesis Hlen : (length (cw_leaf_payload w) <= 34)%nat.
Hypothesis Hhash : row_hashes r.

Ltac seg_lengths :=
  destruct Hhash as (Hh1 & Hh2 & Hh3 & Hh4 & Hh5 & Hh6);
  pose proof (length_hash_columns _ Hh1); pose proof (length_hash_columns _ Hh2);
  pose proof (length_hash_columns _ Hh3); pose proof (length_hash_columns _ Hh4);
  pose proof (length_hash_columns _ Hh5); pose proof (length_hash_columns _ Hh6);
  pose proof (length_index_bytes (leaf_index (cw_public w)));
  pose proof (length_index_columns (rr_remaining_index r));
  pose proof (length_selector_columns _ Hlen); pose proof (length_payload_columns _ Hlen).

Lemma fill_real_row_columns :
  fill_real_row (zero_row NUM_MEMBERSHIP_COLS) w r = real_row_columns w r.
Proof.
  seg_lengths. unfold fill_real_row, zero_row. rewrite index_columns_bits.
  replace NUM_MEMBERSHIP_COLS with (1 + (8 + (64 + (1 + (1 + (1 + (35 + (34 + (32 + (32 + (32 + (32 +
    (32 + (32 + (1 + (1 + (1 + (1 + (1 + 0)))))))))))))))))))%nat by (col_offsets; lia).
  rewrite <- (app_nil_l (replicate _ 0)).
  rewrite write_cell by done. rewrite app_nil_l.
  rewrite (write_next' _ _ (b2z <$> be_bytes 8 (leaf_index (cw_public w)))) by done. rewrite app_assoc.
  rewrite (write_next' _ _ (index_columns (rr_remaining_index r))) by
    (done || rewrite !length_app; cbn [length]; col_offsets; lia). rewrite !app_assoc.
  do 3 (rewrite write_cell by (rewrite !length_app; cbn [length]; col_offsets; lia); rewrite !app_assoc).
  rewrite write_selector by (done || rewrite !length_app; cbn [length]; col_offsets; lia). rewrite !app_assoc.
  rewrite write_payload by (done || rewrite !length_app; cbn [length]; col_offsets; lia). rewrite !app_assoc.
  do 6 (rewrite write_hash by (done || rewrite !length_app; cbn [length]; col_offsets; lia); rewrite !app_assoc).
  do 5 (rewrite write_cell by (rewrite !length_app; cbn [length]; col_offsets; lia); rewrite !app_assoc).
  rewrite app_nil_r. unfold real_row_columns. cbv zeta. by rewrite !app_assoc.
Qed.

Lemma length_real_row : length (real_row_columns w r) = NUM_MEMBERSHIP_COLS.
Proof.
  seg_lengths. unfold real_row_columns. cbv zeta. rewrite !length_app. cbn [length]. col_offsets. lia.
Qed.

Ltac read_slice :=
  unfold real_row_columns; cbv zeta; col_offsets;
  repeat (erewrite slice_skip; [|first [eassumption|cbn [length]; reflexivity]|lia]; cbn [Nat.sub Nat.add]);
  first [apply slice_take; eassumption || reflexivity | apply slice_all; eassumption || reflexivity].

(** Every column of a filled row. *)
Lemma real_row_reads : row_reads (real_row_columns w r) w r.
Proof.
  pose proof length_real_row as L. seg_lengths.
  split; try (apply slice_cell; read_slice);
    (rewrite cells_slice; [read_slice|rewrite L; col_offsets; lia]).
Qed.

End Row.

(** ** Rows in closed form *)

(** The node of the path at level [j]. *)
Definition level `{HashFns} (w : CheckedWitness) (j : nat) : bytes :=
  walk node_hash_v2 (leaf_index (cw_public w)) (cw_leaf_hash w) (take j (cw_merkle_path w)).

Definition row_index (w : CheckedWitness) (j : nat) : Z := Z.shiftr (leaf_index (cw_public w)) (Z.of_nat j).

Definition row_value `{HashFns} (w : CheckedWitness) (j : nat) : RealRowValues :=
  (real_row_step w j (level w j) (row_index w j)).1.

Definition row_compressions `{HashFns} (w : CheckedWitness) (j : nat) : list Compression :=
  (real_row_step w j (level w j) (row_index w j)).2.

(** A witness with a typed path whose leaf hash is that of its payload. *)
Record wf_checked `{HashFns} (w : CheckedWitness) : Prop := {
  wc_public : wf_public (cw_public w);
  wc_payload : (length (cw_leaf_payload w) <= 34)%nat;
  wc_path : Forall is_hash (cw_merkle_path w);
  wc_leaf : cw_leaf_hash w = leaf_hash_v2 (sub_tree_id (cw_public w)) (leaf_index (cw_public w))
                               (cw_leaf_payload w);
  wc_depth : length (cw_merkle_path w) = Z.to_nat (tree_depth (cw_public w))
}.

Section Honest.
Context {HF : HashFns} {HL : HashLaws HF} {BL : Blake3Laws HF}.
Variable w : CheckedWitness.
Hypothesis Hw : wf_checked w.

Notation path := (cw_merkle_path w).

Lemma level_hash j : is_hash (level w j).
Proof.
  apply walk_is_hash; [intros; apply blake3_hash_len|]. rewrite (wc_leaf _ Hw). apply blake3_hash_len.
Qed.

Lemma level_S j s :
  path !! j = Some s → level w (S j) = step_up node_hash_v2 (row_index w j) (level w j) s.
Proof.
  intros H. unfold level, row_index. rewrite (take_S_r _ _ s) by done. rewrite walk_snoc.
  rewrite length_take_le by (apply lookup_lt_Some in H; lia). by rewrite Z.shiftr_div_pow2 by lia.
Qed.

Lemma row_value_spec j s :
  path !! j = Some s →
  let r := row_value w j in
  let d := Z.land (row_index w j) 1 in
  rr_step r = j ∧ rr_remaining_index r = row_index w j ∧ rr_direction r = d ∧ rr_has_node r = true ∧
  rr_prev r = level w j ∧ rr_sibling r = s ∧
  rr_left r = (if d =? 0 then level w j else s) ∧ rr_right r = (if d =? 0 then s else level w j) ∧
  rr_current r = level w (S j) ∧
  let '(first, second) := node_compressions (rr_left r) (rr_right r) in
  row_compressions w j = [first; second] ∧ rr_mid r = hash_from_words (output_words first) ∧
  rr_current r = hash_from_words (output_words second).
Proof.
  intros H. unfold row_value, row_compressions, real_row_step.
  assert ((0 <? length path)%nat = true) as ->
    by (apply Nat.ltb_lt; apply lookup_lt_Some in H; lia).
  rewrite H. change (default ZERO_HASH (Some s)) with s. pose proof (level_hash j) as Hl.
  assert (Hs : is_hash s) by (apply (list.Forall_lookup_1 _ _ _ _ (wc_path _ Hw) H)).
  rewrite (level_S _ _ H). unfold step_up. destruct (Z.land (row_index w j) 1 =? 0).
  - rewrite <- (node_compressions_node_hash (level w j) s) by done.
    destruct (node_compressions (level w j) s) as [f g] eqn:En. cbn [fst snd rr_left rr_right]. rewrite En. by repeat split.
  - rewrite <- (node_compressions_node_hash s (level w j)) by done.
    destruct (node_compressions s (level w j)) as [f g] eqn:En. cbn [fst snd rr_left rr_right]. rewrite En. by repeat split.
Qed.

Lemma real_rows_spec n j :
  (j + n = length path)%nat →
  real_rows_from w n j (level w j) (row_index w j) =
    (row_value w <$> seq j n, concat (row_compressions w <$> seq j n)).
Proof.
  revert j. induction n as [|n IH]; intros j H; [done|].
  destruct (lookup_lt_is_Some_2 path j) as [s Hs]; [lia|].
  destruct (row_value_spec j s Hs) as (_ & _ & _ & _ & _ & _ & _ & _ & Ec & _).
  cbn [real_rows_from seq]. rewrite !fmap_cons. cbn [concat].
  unfold row_value at 1, row_compressions at 1. unfold row_value in Ec.
  destruct (real_row_step w j (level w j) (row_index w j)) as [r cs]. cbn [fst snd] in *. rewrite Ec.
  replace (Z.shiftr (row_index w j) 1) with (row_index w (S j)).
  - by rewrite IH by lia.
  - unfold row_index. rewrite Z.shiftr_shiftr by lia. f_equal. lia.
Qed.

(** The columns of row [j]. *)
Definition honest_row (j : nat) : list Z := real_row_columns w (row_value w j).

Definition honest_height : nat := Nat.max (next_power_of_two (length path)) 8.

Lemma row_value_hashes j : (j < length path)%nat → row_hashes (row_value w j).
Proof.
  intros H. destruct (lookup_lt_is_Some_2 path j H) as [s Hs].
  assert (Hh : is_hash s) by (apply (list.Forall_lookup_1 _ _ _ _ (wc_path _ Hw) Hs)).
  unfold row_hashes.
  destruct (row_value_spec j s Hs) as (_ & _ & _ & _ & -> & -> & -> & -> & -> & Hc).
  pose proof (level_hash j). pose proof (level_hash (S j)).
  destruct (node_compressions _ _) as [f g] eqn:E. destruct Hc as (_ & -> & _).
  repeat split; try done; try (by destruct (_ =? _)).
  unfold is_hash. rewrite length_hash_from_words.
  apply (f_equal fst) in E. cbn [fst] in E. rewrite <- E. unfold node_compressions. cbn [fst output_words compression].
  rewrite length_take, length_compress; done.
Qed.

Lemma honest_reads j : (j < length path)%nat → row_reads (honest_row j) w (row_value w j).
Proof. intros H. apply real_row_reads; [apply (wc_payload _ Hw)|by apply row_value_hashes]. Qed.

Lemma honest_trace :
  (0 < length path)%nat →
  build_membership_trace w None =
    ((honest_row <$> seq 0 (length path)) ++
       replicate (honest_height - length path) (zero_row NUM_MEMBERSHIP_COLS),
     leaf_compression (sub_tree_id (cw_public w)) (leaf_index (cw_public w)) (cw_leaf_payload w) ::
       concat (row_compressions w <$> seq 0 (length path))).
Proof.
  intros H. unfold build_membership_trace. rewrite Nat.max_l by lia.
  pose proof (real_rows_spec (length path) 0 eq_refl) as E. change (level w 0) with (cw_leaf_hash w) in E.
  unfold row_index at 1 in E. rewrite Z.shiftr_0_r in E. rewrite E. f_equal. f_equal.
  rewrite <- list_fmap_compose. apply list_fmap_ext. intros ? j [-> Hj]%lookup_seq. cbn [compose Nat.add].
  apply fill_real_row_columns; [apply (wc_payload _ Hw)|by apply row_value_hashes].
Qed.

End Honest.
