(* ===== verification/AirComplete.v ===== *)
(** * Completeness of the AIRs for honest traces

    The traces that the prover builds from validated witnesses satisfy every
    constraint of the membership AIR, its lookups and the BLAKE3 table
    balance, and the batch is accepted.  The one exception is proved too: the
    trace of a tree with a single leaf (depth 0) violates the constraints. *)

From S2P Require Import Prelude Hash Tree TreeSpec ClaimTx ClaimTxSpec Prover Verifier VerifierSpec.
From S2P Require Import Blake3 Blake3Spec Blake3Rows Air AirFacts AirLookups AirSound AirRows.
From Stdlib Require Import ZArith Lia List String.
From stdpp Require Import base decidable list.

Local Open Scope Z_scope.

(** [p3_blake3_air] accepts a row laid out as [Blake3Cols] with the states of
    the BLAKE3 specification. *)
Class Blake3AirComplete (BA : Blake3Air) : Prop := {
  blake3_columns_ok : ∀ c, wf_compression c → blake3_row_ok (blake3_columns c) = true
}.

(** ** Column groups *)

Lemma selector_lookup len k :
  (len <= 34)%nat → (k < 35)%nat → selector_columns len !!! k = Z.b2z (Nat.eqb k len).
Proof.
  intros Hl Hk. apply list_lookup_total_correct. unfold selector_columns.
  destruct (Nat.eqb_spec k len) as [->|Hne].
  - rewrite lookup_app_r by (rewrite length_replicate; lia). by rewrite length_replicate, Nat.sub_diag.
  - destruct (decide (k < len)%nat).
    + rewrite lookup_app_l by (by rewrite length_replicate). by rewrite lookup_replicate_2.
    + rewrite lookup_app_r by (rewrite length_replicate; lia). rewrite length_replicate.
      rewrite lookup_app_r by (cbn [length]; lia). rewrite lookup_replicate_2; [done|cbn [length]; lia].
Qed.

Lemma payload_lookup payload k :
  (length payload <= k < 34)%nat → payload_columns payload !!! k = 0.
Proof.
  intros Hk. apply list_lookup_total_correct. unfold payload_columns.
  rewrite fmap_app, <- zeros_bytes, lookup_app_r by (rewrite length_fmap; lia).
  rewrite length_fmap, lookup_replicate_2 by lia. done.
Qed.

Lemma reads_payload row w r :
  (length (cw_leaf_payload w) <= 34)%nat → row_reads row w r → payload_shape row.
Proof.
  intros Hl R. exists (length (cw_leaf_payload w)). split; [done|]. split; [|split].
  - rewrite (rd_len _ _ _ R). apply Z.mod_small. lia.
  - intros k Hk. rewrite (cells_lookup _ _ _ _ k (rd_selector _ _ _ R) Hk). by apply selector_lookup.
  - intros k Hk. rewrite (cells_lookup _ _ _ _ k (rd_payload _ _ _ R)) by lia. by apply payload_lookup.
Qed.

Lemma reads_bits row w r : row_reads row w r → index_bits row (rr_remaining_index r).
Proof.
  intros R b Hb. rewrite (cells_lookup _ _ _ _ b (rd_bits _ _ _ R) Hb).
  apply list_lookup_total_correct. unfold index_columns. by rewrite list_lookup_fmap, lookup_seq_lt.
Qed.

Lemma b2z_bit b : bit (Z.b2z b).
Proof. destruct b; [by right|by left]. Qed.

(** The bits of an index repack to its bytes. *)
Lemma index_bits_repack row public z :
  index_bits row z → cells public PUBLIC_LEAF_INDEX_OFFSET 8 = b2z <$> be_bytes 8 z →
  index_bits_match row public.
Proof.
  intros Hb Hp k Hk. rewrite (public_index_byte _ z) by done.
  rewrite (sum_over_ext 8 _ (λ b, Z.b2z (Z.testbit (z / 2 ^ Z.of_nat (8 * k)) (Z.of_nat b)) * 2 ^ Z.of_nat b)).
  - rewrite sum_testbits. apply fzero_sub.
  - intros b Hlt. rewrite <- Nat.add_assoc, Hb by lia. rewrite Z.div_pow2_bits by lia.
    do 3 f_equal. lia.
Qed.

(** Shifting the index right by one shifts its bit columns. *)
Lemma index_bits_shift row next z :
  0 <= z < 2 ^ 64 → index_bits row z → index_bits next (Z.shiftr z 1) →
  cells next COL_REMAINING_INDEX_BITS 63 = cells row (COL_REMAINING_INDEX_BITS + 1) 63 ∧
  next !!! (COL_REMAINING_INDEX_BITS + 63)%nat = 0.
Proof.
  intros Hz H1 H2. split.
  - apply cells_eq. intros i Hi. rewrite H2, <- (Nat.add_assoc _ 1), H1 by lia.
    rewrite Z.shiftr_spec by lia. do 2 f_equal. lia.
  - rewrite H2, Z.shiftr_spec by lia. change (Z.of_nat 63 + 1) with 64.
    rewrite Z.bits_above_log2; [done|lia|]. destruct (decide (z = 0)) as [->|]; [done|].
    apply Z.log2_lt_pow2; lia.
Qed.

(** ** Constraints of an honest trace *)

Section Windows.
Context {HF : HashFns} {HL : HashLaws HF} {BL : Blake3Laws HF}.
Variables (w : CheckedWitness) (binding : list Z).
Hypothesis Hw : wf_checked w.
Hypothesis Hbinding : Forall canon binding.
Hypothesis Hpos : (0 < length (cw_merkle_path w))%nat.
Hypothesis Hroot : level w (length (cw_merkle_path w)) = per_sub_tree_root (cw_public w).

Notation path := (cw_merkle_path w).
Notation public := (public_layout binding (cw_public w)).
Notation zeros := (zero_row NUM_MEMBERSHIP_COLS).

Lemma path_bound : (length path <= 255)%nat.
Proof.
  rewrite (wc_depth _ Hw). destruct (wc_public _ Hw) as (_ & _ & Hd & _). unfold in_range in Hd. lia.
Qed.

Lemma row_index_range j : 0 <= row_index w j < 2 ^ 64.
Proof.
  destruct (wc_public _ Hw) as (_ & Hi & _). unfold in_range in Hi. unfold row_index.
  rewrite Z.shiftr_div_pow2 by lia. split; [apply Z.div_pos; lia|].
  apply Z.div_lt_upper_bound; [lia|]. nia.
Qed.

Lemma row_index_S j : row_index w (S j) = Z.shiftr (row_index w j) 1.
Proof. unfold row_index. rewrite Z.shiftr_shiftr by lia. f_equal. lia. Qed.

Lemma zeros_cell k : (k < NUM_MEMBERSHIP_COLS)%nat → zeros !!! k = 0.
Proof.
  intros H. apply zero_row_cell; [apply length_replicate| |done].
  apply Forall_replicate. done.
Qed.

(** The values of a row, for case analysis. *)
Lemma honest_facts j :
  (j < length path)%nat →
  row_reads (honest_row w j) w (row_value w j) ∧
  rr_step (row_value w j) = j ∧ rr_remaining_index (row_value w j) = row_index w j ∧
  rr_direction (row_value w j) = Z.b2z (Z.odd (row_index w j)) ∧ rr_has_node (row_value w j) = true ∧
  rr_prev (row_value w j) = level w j ∧
  rr_left (row_value w j) =
    (if Z.odd (row_index w j) then rr_sibling (row_value w j) else level w j) ∧
  rr_right (row_value w j) =
    (if Z.odd (row_index w j) then level w j else rr_sibling (row_value w j)) ∧
  rr_current (row_value w j) = level w (S j).
Proof.
  intros Hj. destruct (lookup_lt_is_Some_2 path j Hj) as [s Hs]. split; [by apply honest_reads|].
  destruct (row_value_spec w Hw j s Hs) as (-> & -> & -> & -> & -> & -> & -> & -> & -> & _).
  rewrite land_1_mod, Zmod_odd. by destruct (Z.odd (row_index w j)).
Qed.

Lemma honest_transition j next :
  (j < length path)%nat →
  ((S j < length path)%nat → next = honest_row w (S j)) → (S j = length path → next = zeros) →
  let last := Z.b2z (Nat.eqb (j + 1) (length path)) in
  next !!! COL_IS_FIRST_STEP = 0 ∧
  (1 = 1 → last = 0 → next !!! COL_IS_REAL_STEP = 1) ∧
  (1 = 1 → last = 1 → next !!! COL_IS_REAL_STEP = 0) ∧
  (1 = 0 → next !!! COL_IS_REAL_STEP = 0) ∧
  (1 = 1 → last = 0 →
     fzero (next !!! COL_PATH_STEP_INDEX - (Z.of_nat j + 1)) = true ∧
     cells next COL_PREV_NODE 32 = cells (honest_row w j) COL_CURRENT_NODE 32 ∧
     cells next COL_REMAINING_INDEX_BITS 63 = cells (honest_row w j) (COL_REMAINING_INDEX_BITS + 1) 63 ∧
     next !!! (COL_REMAINING_INDEX_BITS + 63)%nat = 0).
Proof.
  intros Hj Hnext Hpad. cbv zeta. pose proof path_bound as Hb.
  destruct (honest_facts j Hj) as (R & _ & Erem & _ & _ & _ & _ & _ & Ec).
  destruct (Nat.eqb_spec (j + 1) (length path)) as [E|E].
  - rewrite Hpad by lia. rewrite !zeros_cell by by_compute. by repeat split.
  - assert (Hj' : (S j < length path)%nat) by lia. rewrite (Hnext Hj').
    destruct (honest_facts (S j) Hj') as (R' & Est' & Erem' & _ & _ & Eprev' & _).
    rewrite (rd_first _ _ _ R'), (rd_real _ _ _ R'), (rd_step _ _ _ R'), Est', Z.mod_small by lia.
    split; [done|]. split; [done|]. split; [done|]. split; [done|]. intros _ _.
    split; [replace (Z.of_nat (S j)) with (Z.of_nat j + 1) by lia; apply fzero_sub|].
    rewrite (rd_prev _ _ _ R'), (rd_current _ _ _ R), Ec, Eprev'. split; [done|].
    apply (index_bits_shift _ _ (row_index w j)); [apply row_index_range| |].
    + rewrite <- Erem. by apply (reads_bits _ w).
    + rewrite <- row_index_S, <- Erem'. by apply (reads_bits _ w).
Qed.

Lemma honest_window j is_last next :
  (j < length path)%nat →
  (is_last = false → (S j < length path)%nat → next = honest_row w (S j)) →
  (is_last = false → S j = length path → next = zeros) →
  (is_last = true → S j = length path) →
  window (Nat.eqb j 0) is_last (honest_row w j) next public.
Proof.
  intros Hj Hnext Hpad Hend. pose proof path_bound as Hb.
  destruct (honest_facts j Hj) as (R & Est & Erem & Edir & Ehas & Eprev & El & Er & Ec).
  pose proof (reads_bits _ _ _ R) as Hbits. rewrite Erem in Hbits.
  pose proof (rd_first _ _ _ R) as Ef. pose proof (rd_last _ _ _ R) as Ela.
  pose proof (rd_has_node _ _ _ R) as Eh. pose proof (rd_direction _ _ _ R) as Ed.
  pose proof (rd_step _ _ _ R) as Es. pose proof (rd_real _ _ _ R) as Ereal.
  rewrite Est in Ef, Ela, Es. rewrite Ehas in Eh. rewrite Edir in Ed. rewrite Nat.max_l in Ela by lia.
  rewrite Z.mod_small in Es by lia.
  split; rewrite ?Ereal, ?Ef, ?Ela, ?Eh, ?Ed; try apply b2z_bit; try done; try (by right).
  - intros ->%Nat.eqb_eq. rewrite Es. done.
  - intros _. destruct (wc_public _ Hw) as (Hid & _ & Hd & _).
    split; [by rewrite (rd_id _ _ _ R)|]. split; [by rewrite (rd_depth _ _ _ R)|].
    split; [by rewrite (rd_index _ _ _ R)|]. split; [by apply (reads_payload _ w (row_value w j)), R; apply Hw|].
    intros b Hb'. rewrite Hbits by done. apply b2z_bit.
  - destruct (Nat.eqb_spec j 0) as [->|]; [|done]. intros _. split; [done|].
    apply (index_bits_repack _ _ (leaf_index (cw_public w))); [|done].
    unfold row_index in Hbits. by rewrite Z.shiftr_0_r in Hbits.
  - intros _. rewrite <- (Nat.add_0_r COL_REMAINING_INDEX_BITS), Hbits by lia. by rewrite Z.bit0_odd.
  - rewrite (rd_left _ _ _ R), (rd_right _ _ _ R), (rd_prev _ _ _ R), (rd_sibling _ _ _ R),
      El, Er, Eprev. by destruct (Z.odd _).
  - rewrite (rd_left _ _ _ R), (rd_right _ _ _ R), (rd_prev _ _ _ R), (rd_sibling _ _ _ R),
      El, Er, Eprev. by destruct (Z.odd _).
  - intros _. destruct (Nat.eqb_spec (j + 1) (length path)) as [E|]; [|done]. intros _.
    rewrite Es, (rd_depth _ _ _ R), (rd_current _ _ _ R), Ec.
    replace (S j) with (length path) by lia. rewrite Hroot. split.
    + pose proof (wc_depth _ Hw). destruct (wc_public _ Hw) as (_ & _ & Hd & _). unfold in_range in Hd.
      replace (tree_depth (cw_public w)) with (Z.of_nat j + 1) by lia. apply fzero_sub.
    + symmetry. apply (public_root _ (cw_public w) binding); [apply Hw|done].
  - intros ->. rewrite Es. apply honest_transition; auto.
  - intros Hl%Hend _. by replace (j + 1 =? length path)%nat with true by (symmetry; apply Nat.eqb_eq; lia).
Qed.

Lemma padding_window is_last next :
  (is_last = false → next = zeros) → window false is_last zeros next public.
Proof.
  intros Hn. split; rewrite ?zeros_cell by by_compute; try (by left); try done.
  - intros ->%Hn. rewrite !zeros_cell by by_compute. by repeat split.
  - intros _. by apply Forall_replicate.
Qed.

Lemma honest_canon j : (j < length path)%nat → Forall canon (honest_row w j).
Proof.
  intros Hj. destruct (honest_facts j Hj) as (_ & Est & _ & Edir & Ehas & _).
  destruct (wc_public _ Hw) as (Hid & _ & Hd & _). pose proof (wc_payload _ Hw). pose proof path_bound.
  unfold honest_row, real_row_columns. cbv zeta. rewrite Est, Edir, Ehas.
  rewrite !Forall_app, !Forall_singleton.
  assert (Hbit : ∀ b, canon (Z.b2z b)) by (intros []; done).
  repeat match goal with |- _ ∧ _ => split end; try apply bytes_canon; try apply Hbit.
  - unfold canon, babybear, in_range in *. lia.
  - apply Forall_fmap, list.Forall_forall. intros b _. apply Hbit.
  - rewrite Z.mod_small by lia. unfold canon, babybear. lia.
  - unfold canon, babybear, in_range in *. lia.
  - rewrite Z.mod_small by lia. unfold canon, babybear. lia.
  - unfold selector_columns. rewrite !Forall_app, Forall_singleton.
    split; [apply zeros_canon|]. split; [done|apply zeros_canon].
  - done.
Qed.

Lemma height_bounds : (length path <= honest_height w)%nat ∧ (8 <= honest_height w <= 256)%nat.
Proof.
  pose proof path_bound as Hb. unfold honest_height. pose proof (next_power_of_two_ge (length path)) as Hge.
  assert (next_power_of_two (length path) <= 256)%nat.
  { unfold next_power_of_two. change 256%nat with (2 ^ 8)%nat. apply Nat.pow_le_mono_r; [lia|].
    change 8%nat with (Nat.log2_up 256). apply Nat.log2_up_le_mono. lia. }
  lia.
Qed.

Definition honest_rows : list (list Z) :=
  (honest_row w <$> seq 0 (length path)) ++ replicate (honest_height w - length path) zeros.

Lemma length_honest_rows : length honest_rows = honest_height w.
Proof.
  destruct height_bounds as [H _]. unfold honest_rows.
  rewrite length_app, length_fmap, length_seq, length_replicate. lia.
Qed.

Lemma honest_rows_real j : (j < length path)%nat → honest_rows !!! j = honest_row w j.
Proof.
  intros Hj. apply list_lookup_total_correct. unfold honest_rows.
  rewrite lookup_app_l by (by rewrite length_fmap, length_seq). by rewrite list_lookup_fmap, lookup_seq_lt.
Qed.

Lemma honest_rows_padding j : (length path <= j < honest_height w)%nat → honest_rows !!! j = zeros.
Proof.
  intros Hj. apply list_lookup_total_correct. unfold honest_rows.
  rewrite lookup_app_r; rewrite length_fmap, length_seq; [|lia]. apply lookup_replicate_2. lia.
Qed.

Lemma honest_rows_canon j : (j < honest_height w)%nat →
  length (honest_rows !!! j) = NUM_MEMBERSHIP_COLS ∧ Forall canon (honest_rows !!! j).
Proof.
  intros Hj. destruct (decide (j < length path)%nat).
  - rewrite honest_rows_real by done. split; [|by apply honest_canon].
    apply length_real_row; [apply (wc_payload _ Hw)|by apply row_value_hashes].
  - rewrite honest_rows_padding by lia. split; [apply length_replicate|apply zeros_canon].
Qed.

Lemma honest_membership_ok : membership_ok honest_rows public = true.
Proof.
  destruct height_bounds as [Hd Hh]. unfold membership_ok. rewrite length_honest_rows.
  rewrite !andb_true_iff, !forallb_forall, Nat.leb_le, Z.leb_le. split_and!; [lia|lia| |].
  - intros row Hrow%list_elem_of_In. apply list_elem_of_lookup_1 in Hrow as [j Hj].
    pose proof (lookup_lt_Some _ _ _ Hj) as Hl. rewrite length_honest_rows in Hl.
    apply list_lookup_total_correct in Hj as <-. by apply is_row_spec, honest_rows_canon.
  - intros j [_ Hj]%in_seq. cbn [Nat.add] in Hj. unfold window_ok. rewrite length_honest_rows.
    assert (Hj' : (S j mod honest_height w < honest_height w)%nat) by (apply Nat.mod_upper_bound; lia).
    rewrite holds_forallb. apply eval_membership_iff; [by apply honest_rows_canon..| |].
    { apply public_layout_canon; [apply Hw|done]. }
    assert (Hn : Nat.eqb (S j) (honest_height w) = false → (S j mod honest_height w = S j)%nat).
    { intros E%Nat.eqb_neq. apply Nat.mod_small. lia. }
    destruct (decide (j < length path)%nat) as [Hlt|Hlt].
    + rewrite (honest_rows_real j) by done. apply honest_window; [done| | |].
      * intros E Hs. rewrite Hn by done. by apply honest_rows_real.
      * intros E Hs. rewrite Hn by done. apply honest_rows_padding. apply Nat.eqb_neq in E. lia.
      * intros E%Nat.eqb_eq. lia.
    + rewrite (honest_rows_padding j) by lia. replace (Nat.eqb j 0) with false by (symmetry; apply Nat.eqb_neq; lia).
      apply padding_window. intros E. rewrite Hn by done. apply honest_rows_padding. apply Nat.eqb_neq in E. lia.
Qed.

(** ** Lookups of an honest trace *)

Definition sent (c : Compression) : interaction := (b2z <$> tuple_bytes c, 1).

Lemma tuple_compression block cv len fl :
  length block = 64%nat →
  tuple_bytes (compression (words_of_block block) cv 0 len fl) =
    block ++ hash_from_words cv ++ replicate 8 Byte.x00 ++ le_bytes 4 len ++ le_bytes 4 fl ++
    hash_from_words (output_words (compression (words_of_block block) cv 0 len fl)).
Proof.
  intros H. unfold tuple_bytes. set (out := output_words _).
  cbn [block_words cv_words counter block_len flags compression]. rewrite words_of_block_bytes by done.
  change (le_bytes 4 (0 mod 2 ^ 32)) with (replicate 4 Byte.x00).
  change (le_bytes 4 (Z.shiftr 0 32 mod 2 ^ 32)) with (replicate 4 Byte.x00).
  by rewrite (app_assoc (replicate 4 _)), <- replicate_add.
Qed.

Lemma honest_leaf_tuple row r :
  Forall canon row → row_reads row w r → rr_prev r = cw_leaf_hash w →
  field_tuple (leaf_lookup_exprs row) =
    b2z <$> tuple_bytes (leaf_compression (sub_tree_id (cw_public w)) (leaf_index (cw_public w))
                           (cw_leaf_payload w)).
Proof.
  intros Hc R Hprev. pose proof (wc_payload _ Hw) as Hp. destruct (wc_public _ Hw) as (Hid & _).
  assert (Elen : row !!! COL_PAYLOAD_LEN = Z.of_nat (length (cw_leaf_payload w))).
  { rewrite (rd_len _ _ _ R). apply Z.mod_small. lia. }
  rewrite field_tuple_canon by (by apply (leaf_canon row (length (cw_leaf_payload w)))).
  rewrite (leaf_exprs row (sub_tree_id (cw_public w)) (leaf_index (cw_public w)) (cw_leaf_payload w)
    (cw_leaf_hash w)); [|done|done|apply R|apply R|done|apply R|by rewrite (rd_prev _ _ _ R), Hprev].
  f_equal. rewrite (wc_leaf _ Hw), <- leaf_compression_leaf_hash by done.
  unfold leaf_compression. rewrite tuple_compression; [|by apply length_zero_padded;
    rewrite !length_app, !length_be_bytes, length_DOMAIN_LEAF; cbn [length]; lia].
  unfold leaf_preimage. rewrite length_DOMAIN_LEAF. reflexivity.
Qed.

Lemma node_compressions_tuples l r first second :
  is_hash l → is_hash r → node_compressions l r = (first, second) →
  wf_compression first ∧ wf_compression second ∧
  tuple_bytes first =
    take 64 (DOMAIN_NODE ++ l ++ r) ++ hash_from_words IV ++ replicate 8 Byte.x00 ++
    le_bytes 4 64 ++ le_bytes 4 NODE_FIRST_FLAGS ++ hash_from_words (output_words first) ∧
  tuple_bytes second =
    zero_padded (drop 64 (DOMAIN_NODE ++ l ++ r)) ++ hash_from_words (output_words first) ++
    replicate 8 Byte.x00 ++ le_bytes 4 13 ++ le_bytes 4 NODE_SECOND_FLAGS ++
    hash_from_words (output_words second).
Proof.
  unfold is_hash. intros Hl Hr E.
  assert (Hpre : length (DOMAIN_NODE ++ l ++ r) = 77%nat) by (rewrite !length_app, Hl, Hr; done).
  unfold node_compressions in E. rewrite Hpre in E. change (Z.of_nat (77 - BLOCK_BYTES)) with 13 in E.
  apply pair_equal_spec in E as [<- <-].
  assert (W1 : wf_compression (compression (words_of_block (take BLOCK_BYTES (DOMAIN_NODE ++ l ++ r))) IV 0
    (Z.of_nat BLOCK_BYTES) NODE_FIRST_FLAGS)).
  { apply compression_wf; try done; [apply words_of_block_u32|apply IV_u32]. }
  split; [exact W1|]. split.
  { apply compression_wf; try done; [apply words_of_block_u32|by apply output_words_wf..]. }
  split; apply tuple_compression.
  - rewrite length_take, Hpre. done.
  - apply length_zero_padded. rewrite length_drop, Hpre. unfold BLOCK_BYTES. lia.
Qed.

Notation leaf := (leaf_compression (sub_tree_id (cw_public w)) (leaf_index (cw_public w)) (cw_leaf_payload w)).

Lemma honest_node_tuples j :
  (j < length path)%nat →
  ∃ first second, row_compressions w j = [first; second] ∧ wf_compression first ∧ wf_compression second ∧
    field_tuple (node_first_lookup_exprs (honest_row w j)) = b2z <$> tuple_bytes first ∧
    field_tuple (node_second_lookup_exprs (honest_row w j)) = b2z <$> tuple_bytes second.
Proof.
  intros Hj. destruct (lookup_lt_is_Some_2 path j Hj) as [s Hs].
  pose proof (honest_reads w Hw j Hj) as R. pose proof (honest_canon j Hj) as Hc.
  destruct (row_value_hashes w Hw j Hj) as (_ & _ & Hl & Hr & _).
  destruct (row_value_spec w Hw j s Hs) as (_ & _ & _ & _ & _ & _ & _ & _ & _ & Hn).
  destruct (node_compressions (rr_left (row_value w j)) (rr_right (row_value w j))) as [first second] eqn:E.
  destruct Hn as (Ecs & Emid & Ecur). exists first, second. split; [done|].
  destruct (node_compressions_tuples _ _ _ _ Hl Hr E) as (W1 & W2 & T1 & T2).
  split; [done|]. split; [done|].
  rewrite !field_tuple_canon by (by apply node_first_canon || by apply node_second_canon).
  rewrite (node_first_exprs _ _ _ _ Hl Hr (rd_left _ _ _ R) (rd_right _ _ _ R) (rd_mid _ _ _ R)).
  rewrite (node_second_exprs _ _ _ _ _ Hl Hr (rd_right _ _ _ R) (rd_mid _ _ _ R) (rd_current _ _ _ R)).
  by rewrite T1, T2, Emid, Ecur.
Qed.

Lemma honest_row_bus v j :
  (j < length path)%nat →
  bus_total v (membership_lookups (honest_row w j)) =
    (if Nat.eqb j 0 then bus_total v [sent leaf] else 0) + bus_total v (sent <$> row_compressions w j).
Proof.
  intros Hj. destruct (honest_node_tuples j Hj) as (first & second & -> & _ & _ & T1 & T2).
  destruct (honest_facts j Hj) as (R & Est & _ & _ & Ehas & Eprev & _).
  unfold membership_lookups. rewrite (rd_real _ _ _ R), (rd_has_node _ _ _ R), (rd_first _ _ _ R), Est, Ehas.
  rewrite T1, T2. cbn [fmap list_fmap Z.b2z]. rewrite !bus_total_cons. cbn [fst snd sent bus_total fold_right]. change (1 * 1) with 1.
  destruct (Nat.eqb_spec j 0) as [->|Hne]; cbn [Z.b2z].
  - rewrite (honest_leaf_tuple _ (row_value w 0)); [lia|by apply honest_canon|done|done].
  - destruct (decide (_ = v)); lia.
Qed.

Lemma zeros_bus v : bus_total v (membership_lookups zeros) = 0.
Proof.
  unfold membership_lookups. rewrite !zeros_cell by by_compute. rewrite !bus_total_cons. cbn [fst snd].
  repeat case_decide; done.
Qed.

Lemma honest_rows_bus v k n :
  (1 <= k)%nat → (k + n <= length path)%nat →
  bus_total v (concat (membership_lookups <$> (honest_row w <$> seq k n))) =
    bus_total v (sent <$> concat (row_compressions w <$> seq k n)).
Proof.
  revert k. induction n as [|n IH]; intros k Hk Hn; [done|]. cbn [seq]. rewrite !fmap_cons. cbn [concat].
  rewrite fmap_app, !bus_total_app, honest_row_bus by lia. rewrite (IH (S k)) by lia.
  destruct k; [lia|]. done.
Qed.

Definition honest_compressions : list Compression :=
  leaf :: concat (row_compressions w <$> seq 0 (length path)).

Lemma honest_bus v :
  bus_total v (concat (membership_lookups <$> honest_rows)) = bus_total v (sent <$> honest_compressions).
Proof.
  unfold honest_rows, honest_compressions. rewrite fmap_app, concat_app, bus_total_app.
  replace (length path) with (S (length path - 1)) by lia. cbn [seq]. rewrite !fmap_cons. cbn [concat].
  rewrite bus_total_app, honest_row_bus, honest_rows_bus by lia. rewrite !bus_total_cons, fmap_app, bus_total_app.
  assert (E : ∀ n, bus_total v (concat (membership_lookups <$> replicate n zeros)) = 0).
  { intros n. induction n as [|n IH]; [done|]. cbn [replicate]. rewrite fmap_cons. cbn [concat].
    by rewrite bus_total_app, zeros_bus, IH. }
  rewrite E. cbn [Nat.eqb bus_total fold_right]. lia.
Qed.

Lemma leaf_compression_wf : wf_compression leaf.
Proof.
  apply compression_wf; try done; [apply words_of_block_u32|apply IV_u32|].
  pose proof (wc_payload _ Hw). rewrite length_DOMAIN_LEAF. unfold in_range. lia.
Qed.

(** A compression with [CHUNK_START] or [CHUNK_END] set. *)
Definition active (c : Compression) : Prop :=
  Z.testbit (flags c) 0 = true ∨ Z.testbit (flags c) 1 = true.

Lemma honest_compressions_wf : Forall (λ c, wf_compression c ∧ active c) honest_compressions.
Proof.
  constructor; [split; [apply leaf_compression_wf|by left]|].
  apply Forall_concat, Forall_fmap, list.Forall_forall. intros j [_ Hj]%elem_of_seq. cbn [Nat.add] in Hj.
  destruct (lookup_lt_is_Some_2 path j Hj) as [s Hs].
  destruct (row_value_hashes w Hw j Hj) as (_ & _ & Hl & Hr & _).
  destruct (row_value_spec w Hw j s Hs) as (_ & _ & _ & _ & _ & _ & _ & _ & _ & Hn).
  destruct (node_compressions (rr_left (row_value w j)) (rr_right (row_value w j))) as [first second] eqn:E.
  destruct Hn as (Ecs & _). cbn [compose]. rewrite Ecs.
  destruct (node_compressions_tuples _ _ _ _ Hl Hr E) as (W1 & W2 & _).
  unfold node_compressions in E. apply pair_equal_spec in E as [E1 E2].
  constructor; [split; [done|left; by rewrite <- E1]|].
  constructor; [split; [done|right; by rewrite <- E2]|constructor].
Qed.

End Windows.

(** ** The BLAKE3 table *)

Lemma io_flags row c k :
  (k < 32)%nat → io_cells row c →
  row !!! (B3_FLAGS_OFFSET + k)%nat = Z.b2z (Z.testbit (flags c) (Z.of_nat k)).
Proof.
  intros Hk (_ & _ & _ & _ & _ & H & _). rewrite (slice_total row _ 32 _ k H) by done. by apply bits_le_lookup.
Qed.

Lemma table_row_lookups row c :
  wf_compression c → io_cells row c →
  blake3_lookups row =
    [(b2z <$> tuple_bytes c, Z.b2z (Z.testbit (flags c) 0 || Z.testbit (flags c) 1))].
Proof.
  intros Hc Hio. unfold blake3_lookups.
  pose proof (io_flags row c 0 ltac:(lia) Hio) as E0. rewrite Nat.add_0_r in E0.
  rewrite E0, (io_flags row c 1) by (done || lia). rewrite (table_exprs_bytes row c), field_tuple_bytes by done.
  change (Z.of_nat 0) with 0. change (Z.of_nat 1) with 1.
  by destruct (Z.testbit (flags c) 0), (Z.testbit (flags c) 1).
Qed.

Lemma filled_row c :
  wf_compression c →
  length (fill_trace_row (zero_row NUM_BLAKE3_COLS) c) = NUM_BLAKE3_COLS ∧
  io_cells (fill_trace_row (zero_row NUM_BLAKE3_COLS) c) c.
Proof. apply fill_trace_row_spec, length_replicate. Qed.

Definition dummy_compression : Compression := compression (replicate 16 0) IV 0 0 DUMMY_FLAGS.

Lemma dummy_wf : wf_compression dummy_compression.
Proof.
  apply compression_wf; try done; [by apply Forall_replicate|apply IV_u32].
Qed.

Lemma blake3_trace_bus v cs :
  cs ≠ [] → Forall (λ c, wf_compression c ∧ active c) cs →
  bus_total v (concat (blake3_lookups <$> build_blake3_trace cs)) = bus_total v (sent <$> cs).
Proof.
  intros Hne Hcs. unfold build_blake3_trace. fold dummy_compression.
  replace (Nat.max (length cs) 1 - length cs)%nat with 0%nat by (destruct cs; [done|cbn [length]; lia]).
  cbn [replicate]. rewrite app_nil_l, fmap_app, concat_app, bus_total_app.
  assert (E : ∀ n, bus_total v (concat (blake3_lookups <$>
    replicate n (fill_trace_row (zero_row NUM_BLAKE3_COLS) dummy_compression))) = 0).
  { intros n. induction n as [|n IH]; [done|]. cbn [replicate]. rewrite fmap_cons. cbn [concat].
    rewrite bus_total_app, IH.
    rewrite (table_row_lookups _ dummy_compression dummy_wf (proj2 (filled_row _ dummy_wf))).
    rewrite bus_total_cons. change (Z.testbit _ 0 || Z.testbit _ 1) with false. cbn [fst snd Z.b2z].
    by case_decide. }
  rewrite E, Z.add_0_r. clear Hne E. induction Hcs as [|c cs [Hc Ha] _ IH]; [done|].
  rewrite !fmap_cons. cbn [concat]. rewrite bus_total_app, IH.
  rewrite (table_row_lookups _ c Hc (proj2 (filled_row c Hc))). rewrite !bus_total_cons. cbn [fst snd sent].
  replace (Z.testbit (flags c) 0 || Z.testbit (flags c) 1) with true; [cbn; lia|].
  by destruct Ha as [-> | ->]; rewrite ?orb_true_r.
Qed.

Lemma bits_canon ws : Forall canon (bits_of_words ws).
Proof.
  apply Forall_concat, Forall_fmap, list.Forall_forall. intros v _. cbn [compose].
  apply Forall_fmap, list.Forall_forall. intros i _. cbn [compose]. by destruct (Z.testbit _ _).
Qed.

Lemma limbs_canon ws : Forall canon (limbs_of_words ws).
Proof.
  apply Forall_concat, Forall_fmap, list.Forall_forall. intros v _. cbn [compose].
  pose proof (Z.mod_pos_bound v (2 ^ 16) ltac:(lia)). pose proof (Z.mod_pos_bound (Z.shiftr v 16) (2 ^ 16) ltac:(lia)).
  repeat constructor; unfold canon, babybear; lia.
Qed.

Lemma columns_canon c : Forall canon (blake3_columns c).
Proof.
  assert (Hs : ∀ s, Forall canon (state_columns s)).
  { intros s. unfold state_columns. rewrite !Forall_app.
    repeat split; first [apply bits_canon|apply limbs_canon]. }
  assert (Hr : ∀ n s m, Forall canon (rounds_columns n s m)).
  { intros n. induction n as [|n IH]; intros s m; cbn [rounds_columns]; [constructor|].
    apply Forall_app. split; [|apply IH]. apply Forall_concat, Forall_fmap, list.Forall_forall.
    intros x _. apply Hs. }
  unfold blake3_columns. cbv zeta. rewrite !Forall_app.
  split_and!; first [apply bits_canon|apply limbs_canon|apply Hr].
Qed.

(** ** The batch *)

(** A validated witness for a tree of more than one leaf. *)
Definition provable `{HashFns} (w : CheckedWitness) : Prop :=
  wf_checked w ∧ (0 < length (cw_merkle_path w))%nat ∧
  level w (length (cw_merkle_path w)) = per_sub_tree_root (cw_public w).

Section Batch.
Context {HF : HashFns} {HL : HashLaws HF} {BL : Blake3Laws HF} {BA : Blake3Air} {BC : Blake3AirComplete BA}.

Lemma filled_row_ok c :
  wf_compression c →
  is_row NUM_BLAKE3_COLS (fill_trace_row (zero_row NUM_BLAKE3_COLS) c) = true ∧
  blake3_row_ok (fill_trace_row (zero_row NUM_BLAKE3_COLS) c) = true.
Proof.
  intros H. rewrite is_row_spec. split; [split; [by apply filled_row|]|].
  - rewrite fill_trace_row_columns by done. apply columns_canon.
  - rewrite fill_trace_row_columns by done. by apply blake3_columns_ok.
Qed.

Lemma blake3_trace_ok cs :
  cs ≠ [] → Forall (λ c, wf_compression c ∧ active c) cs →
  forallb (λ row, is_row NUM_BLAKE3_COLS row && blake3_row_ok row) (build_blake3_trace cs) = true.
Proof.
  intros Hne Hcs. unfold build_blake3_trace. fold dummy_compression.
  replace (Nat.max (length cs) 1 - length cs)%nat with 0%nat by (destruct cs; [done|cbn [length]; lia]).
  cbn [replicate]. rewrite app_nil_l. apply forallb_forall. intros row Hrow. apply andb_true_iff.
  apply in_app_or in Hrow as [Hrow|Hrow]; apply list_elem_of_In in Hrow.
  - apply list_elem_of_fmap in Hrow as (c & -> & Hc). apply filled_row_ok.
    rewrite list.Forall_forall in Hcs. by apply Hcs.
  - apply elem_of_replicate in Hrow as [-> _]. apply filled_row_ok, dummy_wf.
Qed.

Lemma honest_traces binding ws ts cs :
  Forall provable ws → Forall canon binding → build_membership_traces ws None = (ts, cs) →
  Forall2 (λ t w, membership_ok t (public_layout binding (cw_public w)) = true) ts ws ∧
  (∀ v, bus_total v (concat (membership_lookups <$> concat ts)) = bus_total v (sent <$> cs)) ∧
  Forall (λ c, wf_compression c ∧ active c) cs ∧ (ws ≠ [] → cs ≠ []).
Proof.
  intros Hws Hb. revert ts cs. induction Hws as [|w ws (Hw & Hpos & Hroot) _ IH]; intros ts cs E.
  { cbn in E. apply pair_equal_spec in E as [<- <-]. split_and!; [constructor|done|constructor|done]. }
  cbn [build_membership_traces] in E. rewrite honest_trace in E by done.
  fold (honest_rows w) (honest_compressions w) in E.
  destruct (build_membership_traces ws None) as [ts' cs']. apply pair_equal_spec in E as [<- <-].
  destruct (IH ts' cs' eq_refl) as (I1 & I2 & I3 & _). split_and!.
  - constructor; [by apply honest_membership_ok|done].
  - intros v. cbn [concat]. rewrite !fmap_app, concat_app, !bus_total_app, I2. f_equal. by apply honest_bus.
  - apply Forall_app. split; [by apply honest_compressions_wf|done].
  - by intros _ [? _]%app_eq_nil.
Qed.

Lemma bus_balanced_totals receives sends :
  (∀ v, bus_total v receives = bus_total v sends) → bus_balanced receives sends = true.
Proof.
  intros H. apply forallb_forall. intros p _. rewrite H. apply fzero_sub.
Qed.

(** The traces of validated witnesses satisfy the batch. *)
Lemma honest_batch binding ws :
  ws ≠ [] → Forall provable ws → Forall canon binding →
  batch_ok (build_traces ws None).1 (build_traces ws None).2
    (public_values_of binding <$> (cw_public <$> ws)) = true.
Proof.
  intros Hne Hws Hb. unfold build_traces. destruct (build_membership_traces ws None) as [ts cs] eqn:E.
  destruct (honest_traces binding ws ts cs Hws Hb E) as (H1 & H2 & H3 & H4). cbn [fst snd].
  unfold batch_ok. rewrite !andb_true_iff, Nat.eqb_eq. split_and!.
  - rewrite !length_fmap. by apply Forall2_length in H1.
  - clear E H2 H3 H4 Hne. induction H1 as [|t w ts ws Ht _ IH]; [done|].
    apply Forall_cons in Hws as [(Hw & _) Hws].
    cbn [fmap list_fmap zip zip_with forallb fst snd]. apply andb_true_iff. split; [|by apply IH].
    rewrite public_values_layout; [done|apply (wc_public _ Hw)].
  - by apply blake3_trace_ok; [apply H4|].
  - apply bus_balanced_totals. intros v. by rewrite H2, blake3_trace_bus by auto.
Qed.

End Batch.

(** ** A tree with a single leaf *)

(** The row of a witness without a path. *)
Definition single_row (w : CheckedWitness) : RealRowValues :=
  {| rr_step := 0; rr_remaining_index := leaf_index (cw_public w); rr_direction := 0;
     rr_has_node := false; rr_prev := cw_leaf_hash w; rr_sibling := ZERO_HASH;
     rr_left := cw_leaf_hash w; rr_right := ZERO_HASH; rr_mid := ZERO_HASH;
     rr_current := cw_leaf_hash w |}.

(** The prover's trace for a tree with one leaf violates the constraints.
    A row without a node hash must have a zero left node, but the trace
    generator stores the leaf hash there: for an empty Merkle path the built
    trace satisfies the AIR for no public values at all, unless the leaf hash
    is zero. *)
Theorem single_leaf_trace_rejected w public
    (Hpath : cw_merkle_path w = []) (Hlen : (length (cw_leaf_payload w) <= 34)%nat)
    (Hleaf : is_hash (cw_leaf_hash w)) (Hnz : cw_leaf_hash w ≠ ZERO_HASH)
    (Hpub : Forall canon public) :
  membership_ok (build_membership_trace w None).1 public = false.
Proof.
  apply not_true_iff_false. intros Hok.
  assert (Hrow : (build_membership_trace w None).1 !!! 0%nat = real_row_columns w (single_row w)).
  { unfold build_membership_trace. rewrite Hpath. cbn [length Nat.max real_rows_from].
    unfold real_row_step. rewrite Hpath.
    rewrite <- fill_real_row_columns by done. reflexivity. }
  assert (R : row_reads (real_row_columns w (single_row w)) w (single_row w)) by (by apply real_row_reads).
  destruct (trace_height _ _ Hok) as [Hh _].
  pose proof (trace_window _ _ Hpub Hok 0 ltac:(lia)) as W. rewrite Hrow in W.
  destruct (w_no_node _ _ _ _ _ W) as (_ & _ & _ & El & _).
  - rewrite (rd_real _ _ _ R), (rd_has_node _ _ _ R). done.
  - rewrite (rd_left _ _ _ R), zeros_bytes in El. by apply (inj (fmap b2z)) in El.
Qed.
