(* ===== verification/ProofSystem.v ===== *)
(** * Proving and verifying claims end to end

    [prove_collection] of [omega-claim-prover/src/lib.rs] and its composition
    with [verify].  [p3_batch_stark::prove_batch], [verify_batch] and the
    [postcard] codec are third-party code: the operations of [StarkVerifier]
    and [StarkProver], with the laws that a STARK and a codec document.

    Soundness is stated without an error probability: an accepted batch proof
    means that satisfying traces exist. *)

From S2P Require Import Prelude Hash Tree TreeSpec ClaimTx ClaimTxSpec Prover Verifier VerifierSpec.
From S2P Require Import Blake3 Blake3Spec Blake3Rows Air AirFacts AirLookups AirSound AirRows.
From S2P Require Import AirComplete.
From Stdlib Require Import ZArith Lia List String.
From stdpp Require Import base decidable list.

Local Open Scope Z_scope.

(** ** The entry point *)

Class StarkProver (SV : StarkVerifier) := {
  (** Seed, AIRs, traces, public values and the logarithms of the heights. *)
  prove_batch : Z → list OmegaProofAir → list (list (list Z)) → list (list Z) → list nat → BatchProof;
  encode_batch_proof : BatchProof → option bytes;
  encode_envelope : ProofEnvelope → option bytes
}.

(** [value.trailing_zeros()], which is the logarithm of a power of two. *)
Fixpoint trailing_zeros (fuel : nat) (value : nat) : nat :=
  match fuel with
  | O => 0
  | S fuel' => if Nat.odd value then 0 else S (trailing_zeros fuel' (Nat.div2 value))
  end.

Definition log2_power_of_two (value : nat) : nat := trailing_zeros value value.

Section Prove.
Context {HF : HashFns} {SV : StarkVerifier} {SP : StarkProver SV}.

Definition prove_collection_inner (c : OmegaCommitment) (witnesses : list MembershipWitness) (seed : Z)
    (tamper : option TraceTamper) : result bytes ProverError :=
  let? _ := validate_bundle_root c in
  let? checked := validate_witnesses c witnesses in
  let public_inputs := mw_public <$> witnesses in
  let '(membership_traces, blake3_trace) := build_traces checked tamper in
  let public_values := proof_public_values c public_inputs in
  let public_values_fields := public_values ++ [[]] in
  let airs := proof_airs (length membership_traces) in
  let traces := membership_traces ++ [blake3_trace] in
  let degree_bits := (λ trace, log2_power_of_two (length trace)) <$> traces in
  let proof := prove_batch seed airs traces public_values_fields degree_bits in
  let? stark_proof := ok_or (encode_batch_proof proof) Serialize in
  let envelope := {| pe_version := PROOF_ENVELOPE_VERSION; pe_rng_seed := seed; pe_commitment := c;
                     pe_public_inputs := public_inputs; pe_public_values := public_values;
                     pe_stark_proof := stark_proof |} in
  ok_or (encode_envelope envelope) Serialize.

Definition prove_collection (c : OmegaCommitment) (witnesses : list MembershipWitness) (seed : Z) :
    result bytes ProverError := prove_collection_inner c witnesses seed None.

Definition prove_collection_with_trace_tamper (c : OmegaCommitment) (witnesses : list MembershipWitness)
    (seed : Z) (tamper : TraceTamper) : result bytes ProverError :=
  prove_collection_inner c witnesses seed (Some tamper).

End Prove.

(** ** What the libraries promise *)

(** A batch instance of [p3_batch_stark]: heights are powers of two, given by
    their logarithms. *)
Definition batch_heights (traces : list (list (list Z))) (degrees : list nat) : Prop :=
  Forall2 (λ t d, length t = (2 ^ d)%nat) traces degrees.

Class StarkLaws (BA : Blake3Air) (SV : StarkVerifier) (SP : StarkProver SV) : Prop := {
  (** Decoding inverts encoding, and encoding to a vector does not fail. *)
  batch_proof_roundtrip : ∀ p, ∃ b, encode_batch_proof p = Some b ∧ decode_batch_proof b = Some p;
  envelope_roundtrip : ∀ e, ∃ b, encode_envelope e = Some b ∧ decode_envelope b = Some e;
  (** Completeness: a proof of satisfying traces is accepted. *)
  stark_complete : ∀ seed ms b3 pvs degrees, batch_ok ms b3 pvs = true →
    batch_heights (ms ++ [b3]) degrees →
    let airs := proof_airs (length ms) in
    let proof := prove_batch seed airs (ms ++ [b3]) (pvs ++ [[]]) degrees in
    length (degree_bits proof) = length airs ∧ verify_batch seed airs proof (pvs ++ [[]]) = true;
  (** Soundness: an accepted proof has satisfying traces. *)
  stark_sound : ∀ seed proof pvs,
    verify_batch seed (proof_airs (length pvs)) proof (pvs ++ [[]]) = true →
    ∃ ms b3, batch_ok ms b3 pvs = true
}.

(** ** Heights *)

Lemma trailing_zeros_pow2 fuel d : (2 ^ d <= fuel)%nat → trailing_zeros fuel (2 ^ d) = d.
Proof.
  revert fuel. induction d as [|d IH]; intros fuel H.
  { by destruct fuel as [|fuel]; [cbn in H; lia|]. }
  assert (2 ^ d <> 0)%nat by (apply Nat.pow_nonzero; lia).
  assert (E : (2 ^ S d = 2 * 2 ^ d)%nat) by (cbn; lia). rewrite E in *.
  destruct fuel as [|fuel]; [lia|]. cbn [trailing_zeros]. rewrite Nat.odd_mul.
  change (Nat.odd 2 && _) with false. cbv iota. rewrite Nat.div2_double. f_equal. apply IH. lia.
Qed.

Lemma log2_power_of_two_pow d : log2_power_of_two (2 ^ d) = d.
Proof. by apply trailing_zeros_pow2. Qed.

Lemma power_height (t : list (list Z)) d : length t = (2 ^ d)%nat → length t = (2 ^ log2_power_of_two (length t))%nat.
Proof. intros E. by rewrite E, log2_power_of_two_pow. Qed.

Section Heights.
Context {HF : HashFns} {HL : HashLaws HF} {BL : Blake3Laws HF}.

Lemma honest_height_pow2 (w : CheckedWitness) : ∃ d, honest_height w = (2 ^ d)%nat.
Proof.
  unfold honest_height, next_power_of_two.
  exists (Nat.max (Nat.log2_up (length (cw_merkle_path w))) 3).
  destruct (Nat.le_ge_cases 3 (Nat.log2_up (length (cw_merkle_path w)))) as [H|H].
  - rewrite (Nat.max_l _ 3) by done. apply Nat.max_l. change 8%nat with (2 ^ 3)%nat.
    apply Nat.pow_le_mono_r; lia.
  - rewrite (Nat.max_r _ 3) by done. apply Nat.max_r. change 8%nat with (2 ^ 3)%nat.
    apply Nat.pow_le_mono_r; lia.
Qed.

Lemma blake3_trace_height cs : length (build_blake3_trace cs) = next_power_of_two (Nat.max (length cs) 1).
Proof.
  unfold build_blake3_trace. rewrite !length_app, length_fmap, !length_replicate.
  pose proof (next_power_of_two_ge (Nat.max (length cs) 1)). lia.
Qed.

Lemma membership_heights ws ts cs :
  Forall provable ws → build_membership_traces ws None = (ts, cs) →
  Forall (λ t, length t = (2 ^ log2_power_of_two (length t))%nat) ts ∧ length ts = length ws.
Proof.
  intros Hws. revert ts cs. induction Hws as [|w ws (Hw & Hpos & _) _ IH]; intros ts cs E.
  { cbn in E. by apply pair_equal_spec in E as [<- <-]. }
  cbn [build_membership_traces] in E. rewrite honest_trace in E by done. fold (honest_rows w) in E.
  destruct (build_membership_traces ws None) as [ts' cs']. apply pair_equal_spec in E as [<- <-].
  destruct (IH ts' cs' eq_refl) as [I1 I2]. split; [|cbn [length]; by rewrite I2].
  constructor; [|done]. destruct (honest_height_pow2 w) as [d Hd]. apply (power_height _ d).
  by rewrite length_honest_rows.
Qed.

Lemma honest_heights ws :
  Forall provable ws →
  batch_heights ((build_traces ws None).1 ++ [(build_traces ws None).2])
    ((λ trace, log2_power_of_two (length trace)) <$> ((build_traces ws None).1 ++ [(build_traces ws None).2])) ∧
  length (build_traces ws None).1 = length ws.
Proof.
  intros Hws. unfold build_traces. destruct (build_membership_traces ws None) as [ts cs] eqn:E.
  destruct (membership_heights ws ts cs Hws E) as [H1 H2]. cbn [fst snd]. split; [|done].
  unfold batch_heights. rewrite Forall2_fmap_r. apply Forall_Forall2_diag. apply Forall_app. split; [done|].
  constructor; [|constructor]. eapply power_height, blake3_trace_height.
Qed.

End Heights.

(** ** Paths of padding leaves *)

(** Only the low bits of an index matter for a path. *)
Lemma walk_mod node i j x ss :
  i mod 2 ^ Z.of_nat (length ss) = j mod 2 ^ Z.of_nat (length ss) → walk node i x ss = walk node j x ss.
Proof.
  revert i j x. induction ss as [|s ss IH]; intros i j x H; [done|]. cbn [walk length] in *.
  rewrite Nat2Z.inj_succ, Z.pow_succ_r, !Z.rem_mul_r in H by lia.
  assert (Hb : i mod 2 = j mod 2).
  { apply (f_equal (λ z, z mod 2)) in H. by rewrite !(Z.mul_comm 2), !Z.mod_add, !Z.mod_mod in H by lia. }
  unfold step_up. rewrite !land_1_mod, Hb. apply IH. lia.
Qed.

Lemma sentinel_mod d : 0 <= d <= 64 → EMPTY_INDEX_SENTINEL mod 2 ^ d = (2 ^ d - 1) mod 2 ^ d.
Proof.
  intros H. change EMPTY_INDEX_SENTINEL with (2 ^ 64 - 1).
  replace (2 ^ 64 - 1) with ((2 ^ d - 1) + (2 ^ (64 - d) - 1) * 2 ^ d).
  - apply Z.mod_add. lia.
  - assert (2 ^ 64 = 2 ^ d * 2 ^ (64 - d)) as -> by (rewrite <- Z.pow_add_r by lia; f_equal; lia). lia.
Qed.

Lemma padded_preimages_padding `{HashFns} id ps j :
  (length ps <= j < 2 ^ log_depth (length ps))%nat →
  padded_preimages id ps !! j = Some (leaf_preimage id EMPTY_INDEX_SENTINEL []).
Proof.
  intros Hj. destruct (lookup_lt_is_Some_2 (padded_preimages id ps) j) as [q Hq].
  { rewrite length_padded_preimages. lia. }
  rewrite Hq. apply padded_preimages_lookup in Hq as [(p & Hp & _)|[_ ->]]; [|done].
  apply lookup_lt_Some in Hp. lia.
Qed.

Lemma padding_witness `{HL : HashLaws} c id ps t null recip :
  wf_commitment c → wf_payloads ps → commits c id ps t → ps ≠ [] → (length ps < 2 ^ depth t)%nat →
  is_hash null → is_hash recip →
  ∃ w, sub_tree_id (cw_public w) = id ∧ leaf_index (cw_public w) = EMPTY_INDEX_SENTINEL ∧
    nullifier (cw_public w) = null ∧ recipient_starstream_addr (cw_public w) = recip ∧
    provable w ∧ input_consistent c (cw_public w).
Proof.
  intros Hc Hps (Hid & Ht & Hr & Hic & Hd) Hne Hpad Hnull Hrecip.
  pose proof (log_depth_bound _ (proj1 Hps)) as Hb.
  pose proof (build_v1_ok_grown _ _ _ Ht) as Hg. pose proof (grown_depth _ _ _ _ Hg) as Eg.
  assert (Hdt : (1 <= depth t <= 63)%nat).
  { rewrite Eg in *. split; [|done]. destruct ps as [|x ps]; [done|].
    destruct (log_depth (length (x :: ps))); [cbn in Hpad; lia|lia]. }
  destruct (v1_path HL id ps t (2 ^ depth t - 1) (leaf_preimage id EMPTY_INDEX_SENTINEL []) Ht)
    as (sibs & _ & Hl & Hf & Hroot).
  { apply padded_preimages_padding; rewrite stable_sort_length, <- ?Eg; lia. }
  set (r := walk _ _ _ _) in Hroot.
  exists {| cw_public := {| sub_tree_id := id; leaf_index := EMPTY_INDEX_SENTINEL;
       tree_depth := Z.of_nat (depth t); per_sub_tree_root := r;
       bundle_root_blake3 := oc_bundle_root_blake3 c; nullifier := null;
       recipient_starstream_addr := recip |};
     cw_leaf_payload := []; cw_merkle_path := sibs;
     cw_leaf_hash := leaf_hash_v2 id EMPTY_INDEX_SENTINEL [] |}.
  assert (Hr32 : is_hash r) by (apply walk_is_hash; [intros|]; apply length_blake3_256).
  assert (Hin : input_consistent c {| sub_tree_id := id; leaf_index := EMPTY_INDEX_SENTINEL;
       tree_depth := Z.of_nat (depth t); per_sub_tree_root := r;
       bundle_root_blake3 := oc_bundle_root_blake3 c; nullifier := null;
       recipient_starstream_addr := recip |}).
  { unfold input_consistent. cbn [sub_tree_id tree_depth per_sub_tree_root bundle_root_blake3].
    rewrite Hr, Hroot. repeat (split; [done|]). lia. }
  repeat (split; [done|]). split; [split|exact Hin].
  - constructor; cbn [cw_public cw_leaf_payload cw_merkle_path cw_leaf_hash sub_tree_id leaf_index tree_depth].
    + split_and!; cbn [sub_tree_id leaf_index tree_depth per_sub_tree_root bundle_root_blake3 nullifier
        recipient_starstream_addr]; try done; try (unfold in_range; lia). apply Hc.
    + cbn [length]. lia.
    + done.
    + done.
    + lia.
  - split; [cbn [cw_merkle_path]; lia|]. unfold level.
    cbn [cw_public leaf_index cw_leaf_hash cw_merkle_path per_sub_tree_root].
    rewrite take_ge by done. unfold r. apply walk_mod. rewrite Hl, sentinel_mod by lia.
    f_equal. pose proof (of_nat_pow2 (depth t)). lia.
Qed.

(** ** End to end *)

Section EndToEnd.
Context {HF : HashFns} {HL : HashLaws HF} {BL : Blake3Laws HF} {BA : Blake3Air}
  {BC : Blake3AirComplete BA} {BS : Blake3AirSound BA}
  {SV : StarkVerifier} {SP : StarkProver SV} {SL : StarkLaws BA SV SP}.

(** The envelope that the prover makes of checked witnesses, whichever
    checks came before. *)
Definition built_envelope (c : OmegaCommitment) (ws : list CheckedWitness) (seed : Z) :
    option bytes :=
  let '(ms, b3) := build_traces ws None in
  let pis := cw_public <$> ws in
  let traces := ms ++ [b3] in
  let proof := prove_batch seed (proof_airs (length ms)) traces (proof_public_values c pis ++ [[]])
                 ((λ trace, log2_power_of_two (length trace)) <$> traces) in
  match encode_batch_proof proof with
  | None => None
  | Some sp => encode_envelope
      {| pe_version := PROOF_ENVELOPE_VERSION; pe_rng_seed := seed; pe_commitment := c;
         pe_public_inputs := pis; pe_public_values := proof_public_values c pis; pe_stark_proof := sp |}
  end.

Lemma binding_canon c pis : Forall canon (proof_binding_words c pis).
Proof. apply bytes_canon. Qed.

Lemma built_envelope_accepted c ws seed :
  wf_commitment c → ws ≠ [] → Forall provable ws → Forall (input_consistent c) (cw_public <$> ws) →
  ∃ b, built_envelope c ws seed = Some b ∧ verify_claim c (cw_public <$> ws) b = Ok ().
Proof.
  intros Hc Hne Hws Hin.
  pose proof (honest_batch (proof_binding_words c (cw_public <$> ws)) ws Hne Hws (binding_canon _ _)) as Hok.
  destruct (honest_heights ws Hws) as [Hh Hl]. unfold built_envelope.
  destruct (build_traces ws None) as [ms b3]. cbn [fst snd] in *.
  destruct (stark_complete seed ms b3 _ _ Hok Hh) as [Hd Hv].
  destruct (batch_proof_roundtrip (prove_batch seed (proof_airs (length ms)) (ms ++ [b3])
    (proof_public_values c (cw_public <$> ws) ++ [[]])
    ((λ trace, log2_power_of_two (length trace)) <$> (ms ++ [b3])))) as (sp & Esp & Dsp).
  rewrite Esp. match goal with |- ∃ b, encode_envelope ?e = _ ∧ _ =>
    destruct (envelope_roundtrip e) as (b & Eb & Db) end.
  exists b. split; [done|].
  assert (Hp : Forall wf_public (cw_public <$> ws)).
  { apply Forall_fmap. eapply list.Forall_impl; [exact Hws|]. intros w (Hw & _). apply (wc_public _ Hw). }
  apply (verify_claim_accepts HL c _ b Hc Hp). eexists _, _. split; [exact Db|].
  repeat (split; [done|]). rewrite length_fmap, <- Hl. split; [|exact Hv].
  etransitivity; [exact Hd|]. unfold proof_airs. rewrite length_app, length_replicate. cbn [length]. lia.
Qed.

Lemma valid_provable c w :
  witness_valid c w → wf_public (mw_public w) → Forall is_hash (mw_merkle_path w) →
  0 < tree_depth (mw_public w) → provable (checked w).
Proof.
  intros (Hlen & _ & _ & Hd & Hwalk) Hp Hpath Hpos. split; [|split].
  - by constructor.
  - cbn [checked cw_merkle_path]. lia.
  - unfold level. by rewrite take_ge by done.
Qed.

Lemma prove_collection_built c ws seed :
  wf_commitment c → validate_bundle_root c = Ok () → Forall (witness_valid c) ws →
  prove_collection c ws seed = ok_or (built_envelope c (checked <$> ws) seed) Serialize.
Proof.
  intros Hc Hb Hws. unfold prove_collection, prove_collection_inner, built_envelope. rewrite Hb.
  rewrite (proj2 (validate_witnesses_ok c ws (checked <$> ws) Hc)) by done. cbn [res_bind].
  replace (cw_public <$> (checked <$> ws)) with (mw_public <$> ws).
  - destruct (build_traces (checked <$> ws) None) as [ms b3]. by destruct (encode_batch_proof _).
  - rewrite <- list_fmap_compose. by apply list_fmap_ext.
Qed.

(** C3: Proving is complete.  For a commitment whose bundle root is
    consistent and a non-empty list of witnesses that are valid for it, in
    trees of more than one leaf, [prove_collection] returns a proof, and
    [verify] accepts that proof for the same commitment and public inputs. *)
Theorem prove_then_verify c ws seed
    (Hc : wf_commitment c) (Hb : validate_bundle_root c = Ok ()) (Hne : ws ≠ [])
    (Hws : Forall (witness_valid c) ws) (Hp : Forall (λ w, wf_public (mw_public w)) ws)
    (Hpath : Forall (λ w, Forall is_hash (mw_merkle_path w)) ws)
    (Hdepth : Forall (λ w, 0 < tree_depth (mw_public w)) ws) :
  ∃ proof, prove_collection c ws seed = Ok proof ∧ verify_claim c (mw_public <$> ws) proof = Ok ().
Proof.
  rewrite (prove_collection_built c ws seed Hc Hb Hws).
  assert (Ep : cw_public <$> (checked <$> ws) = mw_public <$> ws)
    by (rewrite <- list_fmap_compose; by apply list_fmap_ext).
  destruct (built_envelope_accepted c (checked <$> ws) seed Hc) as (b & Eb & Hv).
  - by destruct ws.
  - rewrite list.Forall_forall in Hws, Hp, Hpath, Hdepth. apply Forall_fmap, list.Forall_forall.
    intros w Hw. apply (valid_provable c); [by apply Hws|by apply Hp|by apply Hpath|by apply Hdepth].
  - rewrite Ep. apply Forall_fmap. eapply list.Forall_impl; [exact Hws|]. intros w Hw. apply Hw.
  - rewrite Ep in Hv. exists b. by rewrite Eb.
Qed.

(** An accepted proof opens the sub-tree root of every claim. *)
Lemma verify_opened c pis proof
    (Hc : wf_commitment c) (Hp : Forall wf_public pis) (Hn : Z.of_nat (length pis) <= 2 ^ 21)
    (Hok : verify_claim c pis proof = Ok ()) :
  Forall (λ p, input_consistent c p ∧ opens p) pis.
Proof.
  apply Forall_and. apply (verify_claim_accepts HL c pis proof Hc Hp) in Hok as
    (e & bp & _ & _ & _ & _ & Hin & _ & _ & _ & Hv). split; [done|].
  assert (El : length pis = length (proof_public_values c pis)) by (symmetry; apply length_fmap).
  rewrite El in Hv. apply stark_sound in Hv as (ms & b3 & Hbatch).
  by apply (batch_opening (proof_binding_words c pis) pis ms b3 Hp (binding_canon _ _) Hn).
Qed.

(** The index of an accepted claim in a committed tree. *)
Lemma accepted_leaf c pis proof p ps t
    (Hc : wf_commitment c) (Hp : Forall wf_public pis) (Hn : Z.of_nat (length pis) <= 2 ^ 21)
    (Hok : verify_claim c pis proof = Ok ()) (Hin : p ∈ pis)
    (Hps : wf_payloads ps) (Ht : commits c (sub_tree_id p) ps t) :
  let id := sub_tree_id p in
  let idx := leaf_index p in
  ∃ payload path,
    match open_collision (depth t) (padded_preimages id (stable_sort bytes_le ps)) idx
            (leaf_preimage id idx payload) (rev path) with
    | Some x => Collision blake3_256 x
    | None => (0 <= idx < Z.of_nat (length ps) ∧
               stable_sort bytes_le ps !! Z.to_nat idx = Some payload) ∨
              (idx = EMPTY_INDEX_SENTINEL ∧ payload = [] ∧ (length ps < 2 ^ depth t)%nat)
    end.
Proof.
  cbv zeta. pose proof (verify_opened c pis proof Hc Hp Hn Hok) as H.
  rewrite list.Forall_forall in H, Hp. destruct (H p Hin) as [(_ & _ & Hroot & _) Hop].
  destruct Hop as (payload & path & Hlen & Hd & Hpath & Hwalk). destruct (Hp p Hin) as (Hu8 & Hidx & _).
  destruct Ht as (_ & Ht & Hr & _ & _).
  pose proof (v1_opening HL _ _ _ (sub_tree_id p) (leaf_index p) payload path Hu8 Hu8 Hidx Hps ltac:(lia)
    Hpath Ht) as Ho.
  rewrite <- Hr, Hroot in Ho. specialize (Ho ltac:(by rewrite <- Hwalk)).
  exists payload, path. destruct (open_collision _ _ _ _ _); [done|].
  destruct Ho as (_ & _ & [[E Hs]|(E1 & E2 & E3)]).
  - left. pose proof (lookup_lt_Some _ _ _ Hs) as Hlt. rewrite stable_sort_length in Hlt.
    rewrite E, Nat2Z.id. split; [lia|done].
  - right. split; [done|]. split; [done|].
    assert (Z.to_nat (leaf_index p mod 2 ^ Z.of_nat (depth t)) < 2 ^ depth t)%nat; [|lia].
    pose proof (Z.mod_pos_bound (leaf_index p) (2 ^ Z.of_nat (depth t)) ltac:(lia)).
    pose proof (of_nat_pow2 (depth t)). lia.
Qed.

(** What an accepted claim says about a committed tree.  If the sub-tree
    of the claim was built from the payloads [ps], then the claim's index is
    that of a stored payload, or it is the sentinel index of the padding
    leaves with the empty payload, or two explicit preimages collide. *)
Theorem verify_committed_leaf c pis proof p ps t
    (Hc : wf_commitment c) (Hp : Forall wf_public pis) (Hn : Z.of_nat (length pis) <= 2 ^ 21)
    (Hok : verify_claim c pis proof = Ok ()) (Hin : p ∈ pis)
    (Hps : wf_payloads ps) (Ht : commits c (sub_tree_id p) ps t) :
  let id := sub_tree_id p in
  let idx := leaf_index p in
  ∃ payload path,
    match open_collision (depth t) (padded_preimages id (stable_sort bytes_le ps)) idx
            (leaf_preimage id idx payload) (rev path) with
    | Some x => Collision blake3_256 x
    | None => (0 <= idx < Z.of_nat (length ps) ∧
               stable_sort bytes_le ps !! Z.to_nat idx = Some payload) ∨
              (idx = EMPTY_INDEX_SENTINEL ∧ payload = [] ∧ (length ps < 2 ^ depth t)%nat)
    end.
Proof. by apply (accepted_leaf c pis proof p ps t). Qed.

(** ** Padding leaves *)

(** C39: The verifier accepts a claim for a padding leaf.  In a tree whose item
    count is not a power of two, there is a proof that [verify] accepts for
    the leaf index [u64::MAX], which is beyond the item count, with any
    nullifier and recipient. *)
Theorem padding_claim_accepted c id ps t null recip
    (Hc : wf_commitment c) (Hps : wf_payloads ps) (Ht : commits c id ps t) (Hne : ps ≠ [])
    (Hpad : (length ps < 2 ^ depth t)%nat) (Hnull : is_hash null) (Hrecip : is_hash recip) :
  ∃ p proof, sub_tree_id p = id ∧ leaf_index p = EMPTY_INDEX_SENTINEL ∧ nullifier p = null ∧
    recipient_starstream_addr p = recip ∧ Z.of_nat (length ps) <= leaf_index p ∧
    verify_claim c [p] proof = Ok ().
Proof.
  destruct (padding_witness c id ps t null recip Hc Hps Ht Hne Hpad Hnull Hrecip)
    as (w & E1 & E2 & E3 & E4 & Hw & Hin).
  destruct (built_envelope_accepted c [w] 0 Hc) as (b & _ & Hv); [done|by constructor|by constructor|].
  exists (cw_public w), b. repeat (split; [done|]). split; [|done].
  destruct Hps as [Hps _]. rewrite E2. unfold EMPTY_INDEX_SENTINEL. lia.
Qed.

End EndToEnd.
