(* ===== verification/ProofExamples.v ===== *)
(** * Concrete instances of the proof-system interfaces

    A checker for BLAKE3 rows, a transparent batch proof (the traces
    themselves) and codecs built from [Countable]: they show that the laws of
    [Blake3Air], [StarkVerifier] and [StarkProver] can hold, and they are the
    inputs at which the end-to-end theorems are applied. *)

From S2P Require Import Prelude Hash Tree TreeSpec ClaimTx ClaimTxSpec Prover Verifier VerifierSpec.
From S2P Require Import Blake3 Blake3Spec Blake3Rows Air AirFacts AirLookups AirSound AirRows.
From S2P Require Import AirComplete ProofSystem.
From Stdlib Require Import ZArith Lia List String.
From stdpp Require Import base decidable countable list.

Local Open Scope Z_scope.

(** ** A row checker *)

(** The word whose bits start at a column. *)
Definition word_at (row : list Z) (off : nat) : Z :=
  sum_over 32 (λ b, row !!! (off + b)%nat * 2 ^ Z.of_nat b) mod 2 ^ 32.

Definition words_at (row : list Z) (off n : nat) : list Z :=
  (λ i, word_at row (off + i * 32)%nat) <$> seq 0 n.

(** The compression whose inputs a row holds. *)
Definition row_compression (row : list Z) : Compression :=
  compression (words_at row B3_INPUTS_OFFSET 16) (words_at row B3_CHAINING_VALUES_OFFSET 8)
    (word_at row B3_COUNTER_LOW_OFFSET + 2 ^ 32 * word_at row B3_COUNTER_HI_OFFSET)
    (word_at row B3_BLOCK_LEN_OFFSET) (word_at row B3_FLAGS_OFFSET).

#[local] Instance io_cells_dec row c : Decision (io_cells row c).
Proof. unfold io_cells. apply _. Defined.

#[local] Instance checked_rows : Blake3Air :=
  {| blake3_row_ok row := bool_decide (io_cells row (row_compression row)) |}.

Lemma word_at_u32 row off : is_u32 (word_at row off).
Proof. unfold word_at, in_range. pose proof (Z.mod_pos_bound (sum_over 32 (λ b, row !!! (off + b)%nat * 2 ^ Z.of_nat b)) (2 ^ 32)). lia. Qed.

Lemma words_at_u32 row off n : Forall is_u32 (words_at row off n).
Proof. apply Forall_fmap, list.Forall_forall. intros i _. apply word_at_u32. Qed.

Lemma row_compression_wf row : wf_compression (row_compression row).
Proof.
  apply compression_wf; try done; try apply words_at_u32; try apply word_at_u32.
  pose proof (word_at_u32 row B3_COUNTER_LOW_OFFSET) as H1. pose proof (word_at_u32 row B3_COUNTER_HI_OFFSET) as H2.
  unfold in_range in *. lia.
Qed.

#[local] Instance checked_rows_sound : Blake3AirSound checked_rows.
Proof.
  constructor. intros row _ H. exists (row_compression row). split; [apply row_compression_wf|].
  by apply bool_decide_eq_true in H.
Qed.

Lemma word_at_bits row off v : is_u32 v → slice off 32 row = bits_le v → word_at row off = v.
Proof.
  intros Hv H. unfold word_at.
  rewrite (sum_over_ext 32 _ (λ b, Z.b2z (Z.testbit v (Z.of_nat b)) * 2 ^ Z.of_nat b)).
  - rewrite sum_testbits. unfold in_range in Hv. rewrite Z.mod_mod by lia. by apply Z.mod_small.
  - intros b Hb. by rewrite (slice_total row off 32 _ b H), bits_le_lookup by done.
Qed.

Lemma words_at_bits row off ws :
  Forall is_u32 ws → slice off (length ws * 32) row = bits_of_words ws → words_at row off (length ws) = ws.
Proof.
  revert off. induction ws as [|w ws IH]; intros off Hu H; [done|]. apply Forall_cons in Hu as [Hw Hu].
  cbn [length] in *. replace (S (length ws) * 32)%nat with (32 + length ws * 32)%nat in H by lia.
  rewrite slice_split in H. unfold bits_of_words in H. rewrite fmap_cons in H. cbn [concat] in H.
  assert (Hs : slice off 32 row = bits_le w ∧ slice (off + 32) (length ws * 32) row = bits_of_words ws).
  { apply app_eq_len; [|done]. apply (f_equal length) in H. rewrite !length_app in H.
    unfold slice in *. rewrite !length_take, !length_drop in *. rewrite length_bits_le in *.
    fold (bits_of_words ws) in H. rewrite length_bits_of_words in H. lia. }
  unfold words_at. cbn [seq]. rewrite fmap_cons. f_equal.
  - apply word_at_bits; [done|]. replace (off + 0 * 32)%nat with off by lia. apply Hs.
  - rewrite <- (IH (off + 32)%nat Hu (proj2 Hs)) at 2. unfold words_at. rewrite <- fmap_S_seq, <- list_fmap_compose.
    apply list_fmap_ext. intros _ i _. cbn [compose]. f_equal. lia.
Qed.

#[local] Instance checked_rows_complete : Blake3AirComplete checked_rows.
Proof.
  constructor. intros c Hc. pose proof (fill_trace_row_columns c Hc) as E.
  destruct (filled_row c Hc) as [_ Hio]. rewrite E in Hio. apply bool_decide_eq_true.
  enough (row_compression (blake3_columns c) = c) as -> by done.
  destruct Hio as (H1 & H2 & H3 & H4 & H5 & H6 & _).
  destruct Hc as ([L1 U1] & [L2 U2] & Hctr & Hlen & Hfl & Hout). unfold in_range in Hctr.
  unfold row_compression.
  pose proof (words_at_bits (blake3_columns c) B3_INPUTS_OFFSET (block_words c) U1) as W1. rewrite L1 in W1.
  pose proof (words_at_bits (blake3_columns c) B3_CHAINING_VALUES_OFFSET (cv_words c) U2) as W2. rewrite L2 in W2.
  rewrite W1, W2 by done.
  rewrite (word_at_bits _ _ _ ltac:(unfold in_range; apply Z.mod_pos_bound; lia) H3).
  rewrite (word_at_bits _ _ _ ltac:(unfold in_range; apply Z.mod_pos_bound; lia) H4).
  rewrite (word_at_bits _ _ _ Hlen H5), (word_at_bits _ _ _ Hfl H6).
  replace (counter c mod 2 ^ 32 + 2 ^ 32 * (Z.shiftr (counter c) 32 mod 2 ^ 32)) with (counter c).
  - symmetry. by apply compression_eta.
  - rewrite Z.shiftr_div_pow2 by lia. rewrite (Z.mod_small (counter c / 2 ^ 32)).
    + pose proof (Z.div_mod (counter c) (2 ^ 32)). lia.
    + split; [apply Z.div_pos; lia|apply Z.div_lt_upper_bound; lia].
Qed.

(** ** A codec *)

#[export] Instance commitment_countable : Countable OmegaCommitment.
Proof.
  apply (inj_countable'
    (λ c, (oc_bundle_root_blake3 c, sub_tree_roots_blake3 c, item_counts c, leaf_counts c, tree_depths c))
    (λ x, match x with (a, b, c, d, e) => Build_OmegaCommitment a b c d e end)). by intros [].
Qed.

#[export] Instance public_countable : Countable ClaimPublicInputs.
Proof.
  apply (inj_countable'
    (λ p, (sub_tree_id p, leaf_index p, tree_depth p, per_sub_tree_root p, bundle_root_blake3 p,
           nullifier p, recipient_starstream_addr p))
    (λ x, match x with (a, b, c, d, e, f, g) => Build_ClaimPublicInputs a b c d e f g end)). by intros [].
Qed.

#[export] Instance ProofEnvelope_eq_dec : EqDecision ProofEnvelope.
Proof. solve_decision. Defined.

#[export] Instance envelope_countable : Countable ProofEnvelope.
Proof.
  apply (inj_countable'
    (λ e, (pe_version e, pe_rng_seed e, pe_commitment e, pe_public_inputs e, pe_public_values e, pe_stark_proof e))
    (λ x, match x with (a, b, c, d, e, f) => Build_ProofEnvelope a b c d e f end)). by intros [].
Qed.

(** A number as the bytes of its binary expansion. *)
Definition positive_bytes (p : positive) : bytes := be_bytes (Pos.size_nat p) (Z.pos p).

Definition bytes_positive (b : bytes) : positive := Z.to_pos (be_val b).

Lemma bytes_positive_bytes p : bytes_positive (positive_bytes p) = p.
Proof.
  unfold bytes_positive, positive_bytes. rewrite be_val_be_bytes_small; [done|]. split; [done|].
  assert (H : ∀ p, Z.pos p < 256 ^ Z.of_nat (Pos.size_nat p)).
  { clear p. induction p as [p IH|p IH|]; cbn [Pos.size_nat]; [..|done];
      rewrite Nat2Z.inj_succ, Z.pow_succ_r by lia; lia. }
  apply H.
Qed.

Definition codec_encode `{Countable A} (x : A) : option bytes := Some (positive_bytes (encode x)).

Definition codec_decode `{Countable A} (b : bytes) : option A := decode (bytes_positive b).

Lemma codec_roundtrip `{Countable A} (x : A) : ∃ b, codec_encode x = Some b ∧ codec_decode b = Some x.
Proof. eexists. split; [done|]. unfold codec_decode. by rewrite bytes_positive_bytes, decode_encode. Qed.

(** ** A transparent batch proof *)

Definition Traces : Type := list (list (list Z)) * list (list Z).

#[local] Instance transparent : StarkVerifier :=
  {| BatchProof := Traces; decode_envelope := codec_decode; decode_batch_proof := codec_decode;
     degree_bits proof := (λ t, Z.of_nat (log2_power_of_two (length t))) <$> (proof.1 ++ [proof.2]);
     verify_batch _ airs proof pvs :=
       Nat.eqb (length airs) (S (length proof.1)) &&
       batch_ok proof.1 proof.2 (take (length pvs - 1) pvs) |}.

(** [prove_batch] splits the traces into the membership traces and the last. *)
#[local] Instance transparent_prover : StarkProver transparent :=
  {| prove_batch _ _ traces _ _ := (take (length traces - 1) traces, default [] (last traces));
     encode_batch_proof := codec_encode; encode_envelope := codec_encode |}.

#[local] Instance transparent_laws : StarkLaws checked_rows transparent transparent_prover.
Proof.
  assert (Hinit : ∀ A (l : list A) x, take (length (l ++ [x]) - 1) (l ++ [x]) = l).
  { intros A l x. rewrite length_app. cbn [length]. replace (length l + 1 - 1)%nat with (length l) by lia.
    apply take_app_length. }
  constructor.
  - intros p. apply codec_roundtrip.
  - intros e. apply codec_roundtrip.
  - intros seed ms b3 pvs degrees Hok _. cbv zeta.
    cbn [prove_batch verify_batch degree_bits transparent transparent_prover].
    rewrite !Hinit, last_snoc. cbn [default fst snd]. unfold proof_airs.
    rewrite length_fmap, !length_app, !length_replicate. cbn [length]. split; [done|].
    change (id b3) with b3. by rewrite Hok, Nat.add_comm, Nat.eqb_refl.
  - intros seed [ms b3] pvs H. cbn [verify_batch transparent fst snd] in H. rewrite Hinit in H.
    apply andb_true_iff in H as [_ H]. by exists ms, b3.
Qed.

(** ** A committed tree of three leaves *)

Module ExampleProof.
Import ExampleBlake3.
#[local] Existing Instance chunk_hashes.

Definition payloads : list bytes := [ascii_bytes "beta"; ascii_bytes "alpha"; ascii_bytes "gamma"].

Definition tree : MerkleTree :=
  match build_v1 1 payloads with Ok t => t | _ => {| mt_leaves := []; mt_layers := [] |} end.

Definition tree_root : bytes := default [] (root tree).

Definition header : OmegaCommitment :=
  {| oc_bundle_root_blake3 := bundle_root (replicate 7 tree_root);
     sub_tree_roots_blake3 := replicate 7 tree_root; item_counts := replicate 7 3;
     leaf_counts := replicate 7 4; tree_depths := replicate 7 2 |}.

Definition public : ClaimPublicInputs :=
  {| sub_tree_id := 1; leaf_index := 2; tree_depth := 2; per_sub_tree_root := tree_root;
     bundle_root_blake3 := oc_bundle_root_blake3 header; nullifier := replicate 32 Byte.x01;
     recipient_starstream_addr := replicate 32 Byte.x02 |}.

Definition witness : MembershipWitness :=
  {| mw_public := public; mw_leaf_payload := ascii_bytes "gamma";
     mw_merkle_path := default [] (sibling_path (take 2 (mt_layers tree)) 2) |}.

#[local] Instance chunk_hash_lengths : HashLaws chunk_hashes.
Proof.
  split; intros x; [|apply (@sha3_digest_len toy_hashes _)]. change (blake3_hash x) with (chunk_hash x).
  unfold chunk_hash. rewrite length_hash_from_words.
  assert (H : ∀ fuel cv start y, length cv = 8%nat → length (chunk_blocks fuel cv start y) = 8%nat).
  { induction fuel as [|fuel IH]; intros cv start y Hcv; cbn [chunk_blocks]; [done|].
    destruct (_ <=? _)%nat; [|apply IH]; by rewrite length_take, length_compress. }
  by rewrite H.
Qed.

Lemma committed_wf : wf_commitment header.
Proof. by_compute. Qed.

Lemma claim_wf : wf_public public.
Proof. repeat split; by_compute. Qed.

Lemma committed_tree : commits header 1 payloads tree.
Proof. split; [lia|]. repeat split; vm_compute; reflexivity. Qed.

Lemma witness_checks : witness_valid header witness.
Proof.
  apply (validate_witness_ok header 0 witness (checked witness) committed_wf). vm_compute. reflexivity.
Qed.

Lemma witness_path : Forall is_hash (mw_merkle_path witness).
Proof. by_compute. Qed.

Lemma witness_provable : provable (checked witness).
Proof. apply (valid_provable header); [apply witness_checks|apply claim_wf|apply witness_path|done]. Qed.

Lemma batch_sound_witness : Forall opens [public].
Proof.
  apply (batch_sound chunk_hash_laws checked_rows_sound header [public]
    (build_traces [checked witness] None).1 (build_traces [checked witness] None).2).
  - by constructor; [apply claim_wf|].
  - done.
  - apply (honest_batch (proof_binding_words header [public]) [checked witness]);
      [done|by constructor; [apply witness_provable|]|apply bytes_canon].
Defined.

(** A witness for a tree with one leaf. *)
Definition single_witness : CheckedWitness :=
  {| cw_public := public; cw_leaf_payload := ascii_bytes "gamma"; cw_merkle_path := [];
     cw_leaf_hash := leaf_hash_v2 1 0 (ascii_bytes "gamma") |}.

Lemma single_leaf_trace_rejected_witness :
  membership_ok (build_membership_trace single_witness None).1
    (public_values_of (replicate 32 0) public) = false.
Proof.
  apply (single_leaf_trace_rejected single_witness (public_values_of (replicate 32 0) public)).
  - done.
  - by_compute.
  - by_compute.
  - by_compute.
  - unfold canon. by_compute.
Defined.

Lemma prove_then_verify_witness :
  ∃ proof, prove_collection header [witness] 1 = Ok proof ∧ verify_claim header [public] proof = Ok ().
Proof.
  apply (prove_then_verify header [witness] 1 committed_wf).
  - vm_compute. reflexivity.
  - done.
  - constructor; [apply witness_checks|done].
  - constructor; [apply claim_wf|done].
  - constructor; [apply witness_path|done].
  - constructor; [done|done].
Defined.

(** A proof that the verifier accepts. *)
Lemma accepted_proof : ∃ proof, verify_claim header [public] proof = Ok ().
Proof.
  destruct (built_envelope_accepted header [checked witness] 1 committed_wf) as (b & _ & Hb);
    [done|by constructor; [apply witness_provable|]|constructor; [apply witness_checks|done]|by exists b].
Qed.

Lemma verify_committed_leaf_witness :
  ∃ payload path,
    match open_collision (depth tree) (padded_preimages 1 (stable_sort bytes_le payloads)) 2
            (leaf_preimage 1 2 payload) (rev path) with
    | Some x => Collision blake3_256 x
    | None => (0 <= 2 < Z.of_nat (length payloads) ∧
               stable_sort bytes_le payloads !! Z.to_nat 2 = Some payload) ∨
              (2 = EMPTY_INDEX_SENTINEL ∧ payload = [] ∧ (length payloads < 2 ^ depth tree)%nat)
    end.
Proof.
  destruct accepted_proof as [proof Hok].
  apply (verify_committed_leaf header [public] proof public payloads tree committed_wf).
  - by constructor; [apply claim_wf|].
  - done.
  - exact Hok.
  - left.
  - by_compute.
  - exact committed_tree.
Defined.

Lemma padding_claim_accepted_witness :
  ∃ p proof, sub_tree_id p = 1 ∧ leaf_index p = EMPTY_INDEX_SENTINEL ∧
    nullifier p = replicate 32 Byte.x03 ∧ recipient_starstream_addr p = replicate 32 Byte.x04 ∧
    Z.of_nat (length payloads) <= leaf_index p ∧ verify_claim header [p] proof = Ok ().
Proof.
  apply (padding_claim_accepted header 1 payloads tree (replicate 32 Byte.x03) (replicate 32 Byte.x04)
    committed_wf); [by_compute|exact committed_tree|done|by_compute|by_compute|by_compute].
Defined.

End ExampleProof.
