(* ===== verification/Ledger.v ===== *)
(** * The mock ledger: database and writer actor

    [omega-mock-ledger/src/{lib,schema,writer}.rs].  The SQLite database is a
    record of tables, each a finite map from its primary key; a transaction
    works on a copy that replaces the database on commit, so an error leaves
    the database as it was.  The writer actor owns the database and handles
    one command at a time, in the order of its channel; its state also holds
    the files next to the database and whether [snapshot_db] is attached.

    SQLite errors other than constraint violations and unreadable snapshot
    files and I/O faults are not modelled; the channel is in [Actor]. *)

From S2P Require Import Prelude Hash Tree ClaimTx Prover Verifier.
From Stdlib Require Import ZArith Lia List String.
From stdpp Require Import base decidable strings gmap list.

Local Open Scope Z_scope.

(** ** Tables *)

(** A row of [starstream_utxos] under its key [utxo_id]. *)
Record UtxoRow := {
  ur_recipient : bytes;
  ur_value : Z;
  ur_asset_blob : bytes;
  ur_datum : option bytes;
  ur_script_ref : option bytes;
  ur_block_idx : Z;
  ur_spent_in : option Z
}.

(** [create_tables]: the key of [nullifiers] is [(sub_tree_id, leaf_index)]. *)
Record Db := {
  raft_log : gmap Z (Z * bytes);
  raft_meta : gmap string bytes;
  nullifiers : gmap (Z * Z) Z;
  starstream_utxos : gmap bytes UtxoRow;
  genesis : gmap string bytes
}.

(** [open_initialized] on a new file. *)
Definition empty_db : Db :=
  {| raft_log := ∅; raft_meta := ∅; nullifiers := ∅; starstream_utxos := ∅; genesis := ∅ |}.

Definition with_raft_log (db : Db) (t : gmap Z (Z * bytes)) : Db :=
  {| raft_log := t; raft_meta := raft_meta db; nullifiers := nullifiers db;
     starstream_utxos := starstream_utxos db; genesis := genesis db |}.

Definition with_raft_meta (db : Db) (t : gmap string bytes) : Db :=
  {| raft_log := raft_log db; raft_meta := t; nullifiers := nullifiers db;
     starstream_utxos := starstream_utxos db; genesis := genesis db |}.

Definition with_nullifiers (db : Db) (t : gmap (Z * Z) Z) : Db :=
  {| raft_log := raft_log db; raft_meta := raft_meta db; nullifiers := t;
     starstream_utxos := starstream_utxos db; genesis := genesis db |}.

Definition with_utxos (db : Db) (t : gmap bytes UtxoRow) : Db :=
  {| raft_log := raft_log db; raft_meta := raft_meta db; nullifiers := nullifiers db;
     starstream_utxos := t; genesis := genesis db |}.

Inductive LedgerError : Type :=
| LeIo
| LeSqlite
| LePool
| LeWriterClosed
| LeWriterReplyCanceled
| LeReaderJoin
| LeVerify (e : VerifyError)
| LeInvalidClaim (reason : string)
| LeCodec
| LeIntegerOutOfRange (field : string) (value : Z)
| LeReplay (sub_tree_id leaf_index : Z).

(** [i64::try_from] of a [u64]. *)
Definition sqlite_i64 (field : string) (value : Z) : result Z LedgerError :=
  guard! (value <? 2 ^ 63) else LeIntegerOutOfRange field value;
  Ok value.

(** [INSERT INTO nullifiers], which fails on an existing key. *)
Definition sql_insert_nullifier (db : Db) (key : Z * Z) (block_idx : Z) : result Db LedgerError :=
  match nullifiers db !! key with
  | Some _ => Err LeSqlite
  | None => Ok (with_nullifiers db (<[key := block_idx]> (nullifiers db)))
  end.

(** [INSERT INTO starstream_utxos]. *)
Definition sql_insert_utxo (db : Db) (utxo_id : bytes) (row : UtxoRow) : result Db LedgerError :=
  match starstream_utxos db !! utxo_id with
  | Some _ => Err LeSqlite
  | None => Ok (with_utxos db (<[utxo_id := row]> (starstream_utxos db)))
  end.

Section Ledger.
Context {HF : HashFns} {SV : StarkVerifier}.

Definition starstream_utxo_id (recipient leaf_payload : bytes) (block_idx ordinal : Z) : bytes :=
  blake3_256 (ascii_bytes "omega:mock-ledger:v1:utxo" ++ recipient ++ be_bytes 8 block_idx ++
    be_bytes 8 ordinal ++ be_bytes 8 (Z.of_nat (length leaf_payload)) ++ leaf_payload).

(** ** Applying a claim *)

Record ParsedClaim := {
  pc_public_inputs : list ClaimPublicInputs;
  pc_witnesses : list ClaimWitness;
  pc_proof : bytes
}.

Definition parse_claim (claim : ClaimTx) : result ParsedClaim LedgerError :=
  match claim with
  | TxUtxo c => Ok {| pc_public_inputs := [cu_public c]; pc_witnesses := [cu_witness c];
                      pc_proof := cu_proof c |}
  | TxCollection c =>
      guard! Nat.eqb (length (cc_public c)) (length (cc_witness c))
        else LeInvalidClaim "collection arity mismatch";
      Ok {| pc_public_inputs := cc_public c; pc_witnesses := cc_witness c; pc_proof := cc_proof c |}
  end.

Definition reject_replay (db : Db) (p : ClaimPublicInputs) : result unit LedgerError :=
  let? leaf := sqlite_i64 "leaf_index" (leaf_index p) in
  match nullifiers db !! (sub_tree_id p, leaf) with
  | Some _ => Err (LeReplay (sub_tree_id p) (leaf_index p))
  | None => Ok ()
  end.

Fixpoint reject_replays (db : Db) (pis : list ClaimPublicInputs) : result unit LedgerError :=
  match pis with
  | [] => Ok ()
  | p :: pis' => let? _ := reject_replay db p in reject_replays db pis'
  end.

Definition insert_nullifier (db : Db) (p : ClaimPublicInputs) (block_idx : Z) : result Db LedgerError :=
  let? leaf := sqlite_i64 "leaf_index" (leaf_index p) in
  sql_insert_nullifier db (sub_tree_id p, leaf) block_idx.

Definition payload_value (payload : bytes) : Z :=
  if (length payload <? 16)%nat then 0 else be_val (take 8 (drop 8 payload)).

Definition insert_starstream_utxo (db : Db) (p : ClaimPublicInputs) (w : ClaimWitness)
    (block_idx ordinal block_idx_i64 : Z) : result Db LedgerError :=
  let utxo_id := starstream_utxo_id (recipient_starstream_addr p) (leaf_payload w) block_idx ordinal in
  let? value := sqlite_i64 "value" (payload_value (leaf_payload w)) in
  sql_insert_utxo db utxo_id
    {| ur_recipient := recipient_starstream_addr p; ur_value := value; ur_asset_blob := [];
       ur_datum := None; ur_script_ref := None; ur_block_idx := block_idx_i64; ur_spent_in := None |}.

(** The insert loop over [public_inputs.iter().zip(witnesses).enumerate()]. *)
Fixpoint insert_claims (db : Db) (pis : list ClaimPublicInputs) (ws : list ClaimWitness)
    (block_idx ordinal block_idx_i64 : Z) : result Db LedgerError :=
  match pis, ws with
  | p :: pis', w :: ws' =>
      let? db := insert_nullifier db p block_idx_i64 in
      let? db := insert_starstream_utxo db p w block_idx ordinal block_idx_i64 in
      insert_claims db pis' ws' block_idx (ordinal + 1) block_idx_i64
  | _, _ => Ok db
  end.

(** The body of a transaction: on an error the database stays as it was. *)
Definition transact (db : Db) (body : result Db LedgerError) : Db * result unit LedgerError :=
  match body with
  | Ok db' => (db', Ok ())
  | Err e => (db, Err e)
  | Panic => (db, Panic)
  end.

Definition apply_claim_body (db : Db) (block_idx : Z) (c : OmegaCommitment) (claim : ClaimTx) :
    result Db LedgerError :=
  let? block_idx_i64 := sqlite_i64 "block_idx" block_idx in
  let? parsed := parse_claim claim in
  let? _ := res_map_err LeVerify (verify_claim c (pc_public_inputs parsed) (pc_proof parsed)) in
  let? _ := reject_replays db (pc_public_inputs parsed) in
  insert_claims db (pc_public_inputs parsed) (pc_witnesses parsed) block_idx 0 block_idx_i64.

Definition apply_claim_tx (db : Db) (block_idx : Z) (c : OmegaCommitment) (claim : ClaimTx) :
    Db * result unit LedgerError :=
  transact db (apply_claim_body db block_idx c claim).

Definition insert_synthetic_claim (db : Db) (id leaf_index block_idx : Z) :
    Db * result unit LedgerError :=
  transact db (
    let? leaf_index_i64 := sqlite_i64 "leaf_index" leaf_index in
    let? block_idx_i64 := sqlite_i64 "block_idx" block_idx in
    let recipient := replicate 32 (z2b 0xC7) in
    let payload := be_bytes 8 leaf_index ++ be_bytes 8 block_idx in
    let utxo_id := starstream_utxo_id recipient payload block_idx leaf_index in
    let? db := sql_insert_nullifier db (id, leaf_index_i64) block_idx_i64 in
    let? value := sqlite_i64 "value" (Z.min (leaf_index + 1) (2 ^ 64 - 1)) in
    sql_insert_utxo db utxo_id
      {| ur_recipient := recipient; ur_value := value; ur_asset_blob := []; ur_datum := None;
         ur_script_ref := None; ur_block_idx := block_idx_i64; ur_spent_in := None |}).

(** ** Raft log and metadata *)

Record RaftLogRow := {
  rl_log_idx : Z;
  rl_term : Z;
  rl_payload : bytes
}.

(** An upsert, or a delete for [None]. *)
Definition save_raft_meta (db : Db) (key : string) (value : option bytes) : Db :=
  match value with
  | Some v => with_raft_meta db (<[key := v]> (raft_meta db))
  | None => with_raft_meta db (delete key (raft_meta db))
  end.

Fixpoint upsert_raft_logs (db : Db) (rows : list RaftLogRow) : result Db LedgerError :=
  match rows with
  | [] => Ok db
  | row :: rows' =>
      let? idx := sqlite_i64 "log_idx" (rl_log_idx row) in
      let? term := sqlite_i64 "term" (rl_term row) in
      upsert_raft_logs (with_raft_log db (<[idx := (term, rl_payload row)]> (raft_log db))) rows'
  end.

Definition append_raft_logs (db : Db) (rows : list RaftLogRow) : Db * result unit LedgerError :=
  transact db (upsert_raft_logs db rows).

Definition delete_raft_logs_since (db : Db) (log_idx : Z) : Db * result unit LedgerError :=
  transact db (
    let? idx := sqlite_i64 "log_idx" log_idx in
    Ok (with_raft_log db (filter (λ kv, kv.1 < idx) (raft_log db)))).

Definition purge_raft_logs_upto (db : Db) (log_idx : Z) (last_purged : bytes) :
    Db * result unit LedgerError :=
  transact db (
    let? idx := sqlite_i64 "log_idx" log_idx in
    let db := with_raft_log db (filter (λ kv, idx < kv.1) (raft_log db)) in
    Ok (save_raft_meta db "last_purged_log_id" (Some last_purged))).

End Ledger.

(** ** Readers *)

(** The readers see the last committed database. *)
Definition nullifier_exists (db : Db) (id leaf_index : Z) : result bool LedgerError :=
  let? leaf := sqlite_i64 "leaf_index" leaf_index in
  Ok (bool_decide (is_Some (nullifiers db !! (id, leaf)))).

Definition starstream_utxo_count (db : Db) : nat := size (starstream_utxos db).

Definition nullifier_count (db : Db) : nat := size (nullifiers db).
