(* ===== verification/Storage.v ===== *)
(** * The mock ledger: raft entries, snapshots and the openraft storage

    [omega-mock-ledger/src/storage.rs] and the commands of [writer.rs] that
    apply raft entries and take or restore snapshots.  openraft's log ids,
    entries and memberships are data; [ciborium] and the SQLite file format
    are third-party code, the classes [Ciborium] and [SqliteFiles].

    A file next to the database is named by its file name.  An error message
    that the code renders to text is kept as the error value. *)

From S2P Require Import Prelude Hash Tree ClaimTx Prover Verifier Ledger.
From Stdlib Require Import ZArith Lia List String.
From stdpp Require Import base decidable strings pretty gmap list.

Local Open Scope Z_scope.

(** ** Third-party codecs *)

Class Ciborium (A : Type) := {
  into_writer : A → option bytes;
  from_reader : bytes → option A
}.

(** Reading back what was written returns the value. *)
Class CiboriumLaws (A : Type) `{Ciborium A} : Prop := {
  ciborium_roundtrip : ∀ x b, into_writer x = Some b → from_reader b = Some x
}.

(** What attaching a file as a database finds. *)
Inductive OpenImage : Type :=
| NotADatabase
| MissingTables
| Opened (db : Db).

Class SqliteFiles := {
  (** [VACUUM INTO]. *)
  db_image : Db → bytes;
  open_image : bytes → OpenImage
}.

Class SqliteFilesLaws (SF : SqliteFiles) : Prop := {
  (** [VACUUM INTO] copies the database. *)
  open_db_image : ∀ db, open_image (db_image db) = Opened db;
  (** An empty file is a database without tables. *)
  open_empty_file : open_image [] = MissingTables
}.

(** ** openraft data *)

Record LogId := {
  li_term : Z;
  li_node : Z;
  li_index : Z
}.

Record LedgerCommand := {
  lc_block_idx : Z;
  lc_commitment : OmegaCommitment;
  lc_claim : ClaimTx
}.

Inductive LedgerReject : Type :=
| RejVerify | RejInvalidClaim | RejReplay | RejWriterClosed | RejInternal.

Record LedgerResponse := {
  lr_accepted : bool;
  lr_reject : option LedgerReject;
  lr_error : option LedgerError
}.

Definition accepted : LedgerResponse :=
  {| lr_accepted := true; lr_reject := None; lr_error := None |}.

Definition rejected (error : LedgerError) : LedgerResponse :=
  let reject := match error with
    | LeVerify _ => RejVerify
    | LeInvalidClaim _ => RejInvalidClaim
    | LeReplay _ _ => RejReplay
    | LeWriterClosed | LeWriterReplyCanceled => RejWriterClosed
    | _ => RejInternal
    end in
  {| lr_accepted := false; lr_reject := Some reject; lr_error := Some error |}.

Definition claim_proof (claim : ClaimTx) : bytes :=
  match claim with TxUtxo c => cu_proof c | TxCollection c => cc_proof c end.

(** [LedgerCommand::apply_claim]. *)
Definition command_of_claim `{StarkVerifier} (claim : ClaimTx) : result LedgerCommand LedgerError :=
  let? envelope := ok_or (decode_envelope (claim_proof claim)) (LeVerify InvalidProof) in
  Ok {| lc_block_idx := 0; lc_commitment := pe_commitment envelope; lc_claim := claim |}.

Section Storage.
Context {HF : HashFns} {SV : StarkVerifier} {SF : SqliteFiles}.
(** openraft's [Membership] and [Vote]. *)
Context {Membership Vote : Type}.

Inductive EntryPayload : Type :=
| Blank
| Normal (command : LedgerCommand)
| MembershipChange (membership : Membership).

Record RaftEntry := {
  re_log_id : LogId;
  re_payload : EntryPayload
}.

(** [StoredMembership::new(log_id, membership)]; [None] is its default. *)
Definition StoredMembership : Type := option (LogId * Membership).

Record SnapshotMeta := {
  sm_last_log_id : option LogId;
  sm_last_membership : StoredMembership;
  sm_snapshot_id : string
}.

Context `{Ciborium LogId, Ciborium RaftEntry, Ciborium StoredMembership, Ciborium SnapshotMeta,
  Ciborium Vote}.

(** ** The writer actor *)

Record Writer := {
  wr_db : Db;
  wr_files : gmap string bytes;
  wr_attached : bool
}.

Definition set_db (w : Writer) (db : Db) : Writer :=
  {| wr_db := db; wr_files := wr_files w; wr_attached := wr_attached w |}.

(** The response to one entry, with the database after it. *)
Definition apply_entry (db : Db) (payload : EntryPayload) : Db * result LedgerResponse LedgerError :=
  match payload with
  | Blank | MembershipChange _ => (db, Ok accepted)
  | Normal command =>
      match apply_claim_tx db (lc_block_idx command) (lc_commitment command) (lc_claim command) with
      | (db', Ok _) => (db', Ok accepted)
      | (db', Err e) => (db', Ok (rejected e))
      | (db', Panic) => (db', Panic)
      end
  end.

(** The loop over the entries. *)
Fixpoint apply_entries (db : Db) (entries : list RaftEntry) :
    Db * result (list LedgerResponse) LedgerError :=
  match entries with
  | [] => (db, Ok [])
  | entry :: entries' =>
      match apply_entry db (re_payload entry) with
      | (db, Ok response) =>
          match into_writer (re_log_id entry) with
          | None => (db, Err LeCodec)
          | Some last_applied =>
              let db := save_raft_meta db "last_applied_log_id" (Some last_applied) in
              let '(db, rest) := apply_entries db entries' in
              (db, let? responses := rest in Ok (response :: responses))
          end
      | (db, Err e) => (db, Err e)
      | (db, Panic) => (db, Panic)
      end
  end.

Definition apply_raft_entries (db : Db) (entries : list RaftEntry) (last_membership : option bytes) :
    Db * result (list LedgerResponse) LedgerError :=
  match apply_entries db entries with
  | (db, Ok responses) =>
      (match last_membership with
       | Some m => save_raft_meta db "last_membership" (Some m)
       | None => db
       end, Ok responses)
  | other => other
  end.

(** [db_path.with_file_name(format!("snapshot-{snapshot_id}.sqlite"))]. *)
Definition installed_snapshot_path (snapshot_id : string) : string :=
  ("snapshot-" +:+ snapshot_id +:+ ".sqlite")%string.

(** An existing file is removed before [VACUUM INTO]. *)
Definition snapshot (w : Writer) (snapshot_id : string) : Writer * result string LedgerError :=
  let path := installed_snapshot_path snapshot_id in
  let files := delete path (wr_files w) in
  ({| wr_db := wr_db w; wr_files := <[path := db_image (wr_db w)]> files;
      wr_attached := wr_attached w |}, Ok path).

(** [ATTACH] fails for a name in use and for a file that is no database; a
    missing file is created as an empty database, whose tables the copy then
    does not find.  After the copy [snapshot_db] is detached and the file
    removed. *)
Definition restore_snapshot (w : Writer) (path : string) : Writer * result unit LedgerError :=
  if wr_attached w then (w, Err LeSqlite)
  else
    match wr_files w !! path with
    | None =>
        ({| wr_db := wr_db w; wr_files := <[path := []]> (wr_files w); wr_attached := true |},
         Err LeSqlite)
    | Some image =>
        match open_image image with
        | NotADatabase => (w, Err LeSqlite)
        | MissingTables =>
            ({| wr_db := wr_db w; wr_files := wr_files w; wr_attached := true |}, Err LeSqlite)
        | Opened db =>
            ({| wr_db := db; wr_files := delete path (wr_files w); wr_attached := false |}, Ok ())
        end
    end.

Inductive WriteCmd : Type :=
| ApplyClaim (block_idx : Z) (commitment : OmegaCommitment) (claim : ClaimTx)
| CheckpointWalTruncate
| TakeSnapshot (snapshot_id : string)
| RestoreSnapshot (snapshot_path : string)
| InsertSyntheticClaim (sub_tree_id leaf_index block_idx : Z)
| SaveRaftMeta (key : string) (value : option bytes)
| AppendRaftLogs (rows : list RaftLogRow)
| DeleteRaftLogsSince (log_idx : Z)
| PurgeRaftLogsUpto (log_idx : Z) (last_purged : bytes)
| ApplyRaftEntries (entries : list RaftEntry) (last_membership : option bytes).

Inductive WriteReply : Type :=
| ReplyUnit (r : result unit LedgerError)
| ReplyPath (r : result string LedgerError)
| ReplyResponses (r : result (list LedgerResponse) LedgerError).

(** One round of the loop of [run_writer]. *)
Definition run_command (w : Writer) (cmd : WriteCmd) : Writer * WriteReply :=
  let on_db (x : Db * result unit LedgerError) := (set_db w x.1, ReplyUnit x.2) in
  match cmd with
  | ApplyClaim block_idx c claim => on_db (apply_claim_tx (wr_db w) block_idx c claim)
  | CheckpointWalTruncate => (w, ReplyUnit (Ok ()))
  | TakeSnapshot id => let '(w, r) := snapshot w id in (w, ReplyPath r)
  | RestoreSnapshot path => let '(w, r) := restore_snapshot w path in (w, ReplyUnit r)
  | InsertSyntheticClaim id leaf block => on_db (insert_synthetic_claim (wr_db w) id leaf block)
  | SaveRaftMeta key value => on_db (save_raft_meta (wr_db w) key value, Ok ())
  | AppendRaftLogs rows => on_db (append_raft_logs (wr_db w) rows)
  | DeleteRaftLogsSince idx => on_db (delete_raft_logs_since (wr_db w) idx)
  | PurgeRaftLogsUpto idx last => on_db (purge_raft_logs_upto (wr_db w) idx last)
  | ApplyRaftEntries entries m =>
      let '(db, r) := apply_raft_entries (wr_db w) entries m in
      (set_db w db, ReplyResponses r)
  end.

(** [run_writer] on the commands of its channel, in order. *)
Fixpoint run_writer (w : Writer) (cmds : list WriteCmd) : Writer * list WriteReply :=
  match cmds with
  | [] => (w, [])
  | cmd :: cmds' =>
      let '(w, reply) := run_command w cmd in
      let '(w, replies) := run_writer w cmds' in
      (w, reply :: replies)
  end.

(** ** The openraft storage *)

Inductive StorageError : Type := StoRead | StoWrite.

Definition MAX_STORAGE_PAYLOAD_BYTES : Z := 64 * 1024 * 1024.

Definition sto_encode {A} `{Ciborium A} (value : A) : result bytes StorageError :=
  let? b := ok_or (into_writer value) StoWrite in
  guard! (Z.of_nat (length b) <=? MAX_STORAGE_PAYLOAD_BYTES) else StoWrite;
  Ok b.

Definition sto_decode {A} `{Ciborium A} (b : bytes) : result A StorageError :=
  guard! (Z.of_nat (length b) <=? MAX_STORAGE_PAYLOAD_BYTES) else StoRead;
  ok_or (from_reader b) StoRead.

(** [option.map(decode).transpose()]. *)
Definition decode_opt {A} `{Ciborium A} (o : option bytes) : result (option A) StorageError :=
  match o with
  | None => Ok None
  | Some b => let? x := sto_decode b in Ok (Some x)
  end.

Definition read_meta {A} `{Ciborium A} (w : Writer) (key : string) : result (option A) StorageError :=
  decode_opt (raft_meta (wr_db w) !! key).

Definition sto_write {A} (r : result A LedgerError) : result A StorageError :=
  res_map_err (λ _, StoWrite) r.

(** A write command of the storage: the value is encoded first. *)
Definition save_meta (w : Writer) (key : string) (value : result (option bytes) StorageError) :
    Writer * result unit StorageError :=
  match value with
  | Ok v => (set_db w (save_raft_meta (wr_db w) key v), Ok ())
  | Err e => (w, Err e)
  | Panic => (w, Panic)
  end.

Definition save_vote (w : Writer) (vote : Vote) : Writer * result unit StorageError :=
  save_meta w "vote" (let? v := sto_encode vote in Ok (Some v)).

Definition read_vote (w : Writer) : result (option Vote) StorageError := read_meta w "vote".

Definition save_committed (w : Writer) (committed : option LogId) : Writer * result unit StorageError :=
  save_meta w "committed"
    (match committed with
     | None => Ok None
     | Some id => let? v := sto_encode id in Ok (Some v)
     end).

Definition read_committed (w : Writer) : result (option LogId) StorageError := read_meta w "committed".

(** The rows of [raft_log] in the order of their keys. *)
Definition sorted_log (db : Db) : list (Z * (Z * bytes)) :=
  omap (λ k, pair k <$> raft_log db !! k) (stable_sort Z.leb (elements (dom (raft_log db)))).

Record LogState := {
  ls_last_purged_log_id : option LogId;
  ls_last_log_id : option LogId
}.

Definition get_log_state (w : Writer) : result LogState StorageError :=
  let? last_purged := read_meta w "last_purged_log_id" in
  let? last_entry := @decode_opt RaftEntry _ ((λ row, row.2.2) <$> last (sorted_log (wr_db w))) in
  let last_log_id := re_log_id <$> last_entry in
  Ok {| ls_last_purged_log_id := last_purged;
        ls_last_log_id := match last_log_id with Some id => Some id | None => last_purged end |}.

(** [entries.map(..).collect::<Result<Vec<_>, _>>()]. *)
Definition log_row (entry : RaftEntry) : result RaftLogRow StorageError :=
  let? payload := sto_encode entry in
  Ok {| rl_log_idx := li_index (re_log_id entry); rl_term := li_term (re_log_id entry);
        rl_payload := payload |}.

Definition on_writer (w : Writer) (x : Db * result unit LedgerError) : Writer * result unit StorageError :=
  (set_db w x.1, sto_write x.2).

Definition append_to_log (w : Writer) (entries : list RaftEntry) : Writer * result unit StorageError :=
  match res_mapM log_row entries with
  | Ok rows => on_writer w (append_raft_logs (wr_db w) rows)
  | Err e => (w, Err e)
  | Panic => (w, Panic)
  end.

Definition delete_conflict_logs_since (w : Writer) (log_id : LogId) : Writer * result unit StorageError :=
  on_writer w (delete_raft_logs_since (wr_db w) (li_index log_id)).

Definition purge_logs_upto (w : Writer) (log_id : LogId) : Writer * result unit StorageError :=
  match sto_encode log_id with
  | Ok b => on_writer w (purge_raft_logs_upto (wr_db w) (li_index log_id) b)
  | Err e => (w, Err e)
  | Panic => (w, Panic)
  end.

Definition last_applied_state (w : Writer) :
    result (option LogId * StoredMembership) StorageError :=
  let? last_applied := read_meta w "last_applied_log_id" in
  let? membership := read_meta w "last_membership" in
  Ok (last_applied, default None membership).

(** The latest membership of a batch, encoded. *)
Fixpoint batch_membership (entries : list RaftEntry) (found : option bytes) :
    result (option bytes) StorageError :=
  match entries with
  | [] => Ok found
  | entry :: entries' =>
      match re_payload entry with
      | MembershipChange m =>
          let? b := sto_encode (Some (re_log_id entry, m) : StoredMembership) in
          batch_membership entries' (Some b)
      | _ => batch_membership entries' found
      end
  end.

Definition apply_to_state_machine (w : Writer) (entries : list RaftEntry) :
    Writer * result (list LedgerResponse) StorageError :=
  match batch_membership entries None with
  | Ok last_membership =>
      let '(db, r) := apply_raft_entries (wr_db w) entries last_membership in
      (set_db w db, sto_write r)
  | Err e => (w, Err e)
  | Panic => (w, Panic)
  end.

(** The bounds of a range as a start and an exclusive end. *)
Inductive Bound : Type := Included (v : Z) | Excluded (v : Z) | Unbounded.

Definition checked_succ (v : Z) : result Z StorageError :=
  guard! (v <? 2 ^ 64 - 1) else StoRead;
  Ok (v + 1).

Definition range_bounds (lower upper : Bound) : result (Z * option Z) StorageError :=
  let? start := match lower with
    | Included v => Ok v
    | Excluded v => checked_succ v
    | Unbounded => Ok 0
    end in
  let? stop := match upper with
    | Included v => let? e := checked_succ v in Ok (Some e)
    | Excluded v => Ok (Some v)
    | Unbounded => Ok None
    end in
  Ok (start, stop).

Definition sto_i64 (v : Z) : result Z StorageError :=
  res_map_err (λ _, StoRead) (sqlite_i64 "log_idx" v).

(** [SELECT payload .. WHERE log_idx >= ?1 [AND log_idx < ?2] ORDER BY log_idx]. *)
Definition select_log (db : Db) (start : Z) (stop : option Z) : list bytes :=
  (λ row, row.2.2) <$>
  filter (λ row, Is_true ((start <=? row.1) &&
                          match stop with Some e => row.1 <? e | None => true end))
    (sorted_log db).

Definition try_get_log_entries (w : Writer) (lower upper : Bound) :
    result (list RaftEntry) StorageError :=
  let? bounds := range_bounds lower upper in
  let '(start, stop) := bounds in
  match stop with
  | Some e =>
      if e <=? start then Ok []
      else
        let? s := sto_i64 start in
        let? e := sto_i64 e in
        res_mapM sto_decode (select_log (wr_db w) s (Some e))
  | None =>
      let? s := sto_i64 start in
      res_mapM sto_decode (select_log (wr_db w) s None)
  end.

Definition install_snapshot (w : Writer) (meta : SnapshotMeta) (image : bytes) :
    Writer * result unit StorageError :=
  let path := installed_snapshot_path (sm_snapshot_id meta) in
  let w := {| wr_db := wr_db w; wr_files := <[path := image]> (wr_files w);
              wr_attached := wr_attached w |} in
  match restore_snapshot w path with
  | (w, Ok _) => save_meta w "snapshot_meta" (let? m := sto_encode meta in Ok (Some m))
  | (w, r) => (w, sto_write r)
  end.

Definition get_current_snapshot (w : Writer) :
    result (option (SnapshotMeta * bytes)) StorageError :=
  let? meta := read_meta w "snapshot_meta" in
  match meta with
  | None => Ok None
  | Some meta =>
      let? image := ok_or (wr_files w !! installed_snapshot_path (sm_snapshot_id meta)) StoRead in
      Ok (Some (meta, image))
  end.

(** [format!("{}-{}", term, index)] of the last applied entry. *)
Definition snapshot_id_of (last_log_id : option LogId) : string :=
  match last_log_id with
  | Some id => (pretty (li_term id) +:+ "-" +:+ pretty (li_index id))%string
  | None => "empty"
  end.

Definition build_snapshot (w : Writer) : Writer * result (SnapshotMeta * bytes) StorageError :=
  match last_applied_state w with
  | Ok (last_log_id, last_membership) =>
      let meta := {| sm_last_log_id := last_log_id; sm_last_membership := last_membership;
                     sm_snapshot_id := snapshot_id_of last_log_id |} in
      let '(w, r) := snapshot w (sm_snapshot_id meta) in
      match (let? path := sto_write r in ok_or (wr_files w !! path) StoRead) with
      | Ok image =>
          let '(w, r) := save_meta w "snapshot_meta" (let? m := sto_encode meta in Ok (Some m)) in
          (w, let? _ := r in Ok (meta, image))
      | Err e => (w, Err e)
      | Panic => (w, Panic)
      end
  | Err e => (w, Err e)
  | Panic => (w, Panic)
  end.

End Storage.
