(* ===== verification/LedgerSpec.v ===== *)
(** * Specification of the mock ledger's claim pipeline

    A claim is applied exactly when its proof verifies, its leaves are
    unclaimed and its rows fit the tables; otherwise the database is left as
    it was.  Over every sequence of writer commands a leaf is claimed at most
    once, every claim adds one nullifier and one UTxO, and the tables stay
    well formed.  A claim that is applied against a committed tree names a
    leaf of that tree. *)

From S2P Require Import Prelude Hash Tree TreeSpec ClaimTx ClaimTxSpec Prover Verifier VerifierSpec.
From S2P Require Import Ledger Storage.
From Stdlib Require Import ZArith Lia List String.
From stdpp Require Import base decidable strings gmap list.

Local Open Scope Z_scope.

Definition claim_publics (claim : ClaimTx) : list ClaimPublicInputs :=
  match claim with TxUtxo c => [cu_public c] | TxCollection c => cc_public c end.

Definition claim_witnesses (claim : ClaimTx) : list ClaimWitness :=
  match claim with TxUtxo c => [cu_witness c] | TxCollection c => cc_witness c end.

(** The leaves a claim names. *)
Definition claim_key (p : ClaimPublicInputs) : Z * Z := (sub_tree_id p, leaf_index p).
Definition claim_keys (claim : ClaimTx) : list (Z * Z) := claim_key <$> claim_publics claim.

(** The public inputs of a claim as their Rust type holds them. *)
Definition wf_claim (claim : ClaimTx) : Prop := Forall wf_public (claim_publics claim).

Lemma sqlite_i64_ok field v r : sqlite_i64 field v = Ok r ↔ v < 2 ^ 63 ∧ r = v.
Proof. unfold sqlite_i64. destruct (Z.ltb_spec v (2 ^ 63)); naive_solver lia. Qed.

Lemma sqlite_i64_fits field v : v < 2 ^ 63 → sqlite_i64 field v = Ok v.
Proof. intros. by apply sqlite_i64_ok. Qed.

Lemma list_to_map_fresh `{Countable K} {A} (l : list (K * A)) k :
  k ∉ l.*1 → (list_to_map l : gmap K A) !! k = None.
Proof. apply not_elem_of_list_to_map_1. Qed.

(** ** What a claim writes *)

Section Rows.
Context {HF : HashFns} {SV : StarkVerifier}.

(** The UTxO rows of a claim, the first one with the given ordinal. *)
Fixpoint claim_rows (pis : list ClaimPublicInputs) (ws : list ClaimWitness) (block_idx ordinal : Z) :
    list (bytes * UtxoRow) :=
  match pis, ws with
  | p :: pis', w :: ws' =>
      (starstream_utxo_id (recipient_starstream_addr p) (leaf_payload w) block_idx ordinal,
       {| ur_recipient := recipient_starstream_addr p; ur_value := payload_value (leaf_payload w);
          ur_asset_blob := []; ur_datum := None; ur_script_ref := None; ur_block_idx := block_idx;
          ur_spent_in := None |}) :: claim_rows pis' ws' block_idx (ordinal + 1)
  | _, _ => []
  end.

(** The keys and rows are new, and the integers fit SQLite's. *)
Definition insertable (db : Db) (pis : list ClaimPublicInputs) (ws : list ClaimWitness)
    (block_idx ordinal : Z) : Prop :=
  Forall (λ p, leaf_index p < 2 ^ 63) pis ∧
  Forall (λ w, payload_value (leaf_payload w) < 2 ^ 63) ws ∧
  NoDup (claim_key <$> pis) ∧ Forall (λ k, nullifiers db !! k = None) (claim_key <$> pis) ∧
  NoDup (claim_rows pis ws block_idx ordinal).*1 ∧
  Forall (λ id, starstream_utxos db !! id = None) (claim_rows pis ws block_idx ordinal).*1.

Definition inserted (db : Db) (pis : list ClaimPublicInputs) (ws : list ClaimWitness)
    (block_idx ordinal : Z) : Db :=
  with_utxos
    (with_nullifiers db (list_to_map ((λ k, (k, block_idx)) <$> (claim_key <$> pis)) ∪ nullifiers db))
    (list_to_map (claim_rows pis ws block_idx ordinal) ∪ starstream_utxos db).

Lemma fresh_insert_forall `{Countable K} {A} (m : gmap K A) k v (l : list K) :
  k ∉ l → (Forall (λ x, (<[k:=v]> m) !! x = None) l ↔ Forall (λ x, m !! x = None) l).
Proof.
  intros Hk. rewrite !list.Forall_forall.
  split; intros Hl x Hx; specialize (Hl x Hx); by rewrite lookup_insert_ne in * by (intros ->; done).
Qed.

Lemma fresh_insert_cons `{Countable K} {A} (m : gmap K A) k v (l : list K) :
  Forall (λ x, (<[k:=v]> m) !! x = None) l → (k ∉ l) ∧ Forall (λ x, m !! x = None) l.
Proof.
  intros Hl. assert (Hk : k ∉ l).
  { intros Hk. rewrite list.Forall_forall in Hl. specialize (Hl k Hk). by rewrite lookup_insert_eq in Hl. }
  by rewrite fresh_insert_forall in Hl.
Qed.

Lemma list_to_map_insert_union `{Countable K} {A} (m : gmap K A) k v (l : list (K * A)) :
  k ∉ l.*1 → list_to_map l ∪ <[k:=v]> m = <[k:=v]> (list_to_map l) ∪ m.
Proof.
  intros Hk. rewrite <- insert_union_l. symmetry. rewrite insert_union_r; [done|]. by apply list_to_map_fresh.
Qed.

Lemma insert_nullifier_ok db p block_idx db' :
  insert_nullifier db p block_idx = Ok db' ↔
  leaf_index p < 2 ^ 63 ∧ nullifiers db !! claim_key p = None ∧
  db' = with_nullifiers db (<[claim_key p := block_idx]> (nullifiers db)).
Proof.
  unfold insert_nullifier, sql_insert_nullifier. rewrite res_bind_ok. setoid_rewrite sqlite_i64_ok.
  split.
  - intros (i & [Hi ->] & H). fold (claim_key p) in H. by destruct (nullifiers db !! _); simplify_eq.
  - intros (Hi & Hk & ->). exists (leaf_index p). split; [done|]. fold (claim_key p). by rewrite Hk.
Qed.

Lemma insert_starstream_utxo_ok db p w block_idx ordinal db' :
  insert_starstream_utxo db p w block_idx ordinal block_idx = Ok db' ↔
  payload_value (leaf_payload w) < 2 ^ 63 ∧
  ∃ id row, claim_rows [p] [w] block_idx ordinal = [(id, row)] ∧ starstream_utxos db !! id = None ∧
    db' = with_utxos db (<[id := row]> (starstream_utxos db)).
Proof.
  unfold insert_starstream_utxo, sql_insert_utxo. rewrite res_bind_ok. setoid_rewrite sqlite_i64_ok.
  cbn [claim_rows]. split.
  - intros (v & [Hv ->] & H). split; [done|]. eexists _, _. split; [done|].
    by destruct (starstream_utxos db !! _); simplify_eq.
  - intros (Hv & id & row & E & Hk & ->). exists (payload_value (leaf_payload w)). split; [done|].
    injection E as <- <-. by rewrite Hk.
Qed.

Lemma insertable_cons db p pis w ws block_idx ordinal id row :
  claim_rows [p] [w] block_idx ordinal = [(id, row)] →
  insertable db (p :: pis) (w :: ws) block_idx ordinal ↔
  leaf_index p < 2 ^ 63 ∧ nullifiers db !! claim_key p = None ∧
  payload_value (leaf_payload w) < 2 ^ 63 ∧ starstream_utxos db !! id = None ∧
  insertable (with_utxos (with_nullifiers db (<[claim_key p := block_idx]> (nullifiers db)))
                (<[id := row]> (starstream_utxos db))) pis ws block_idx (ordinal + 1).
Proof.
  cbn [claim_rows]. intros [= <- <-]. unfold insertable. cbn [claim_rows nullifiers starstream_utxos with_utxos with_nullifiers].
  rewrite !fmap_cons, !NoDup_cons, !Forall_cons. cbn [fst]. split.
  - intros ([H1 H2] & [H3 H4] & [H5 H6] & [H7 H8] & [H9 H10] & [H11 H12]).
    by rewrite !fresh_insert_forall.
  - intros (H1 & H2 & H3 & H4 & H5 & H6 & H7 & H8 & H9 & H10).
    apply fresh_insert_cons in H8 as [? ?], H10 as [? ?]. auto 20.
Qed.

Lemma inserted_cons db p pis w ws block_idx ordinal id row :
  claim_rows [p] [w] block_idx ordinal = [(id, row)] →
  insertable db (p :: pis) (w :: ws) block_idx ordinal →
  inserted (with_utxos (with_nullifiers db (<[claim_key p := block_idx]> (nullifiers db)))
                (<[id := row]> (starstream_utxos db))) pis ws block_idx (ordinal + 1) =
  inserted db (p :: pis) (w :: ws) block_idx ordinal.
Proof.
  cbn [claim_rows]. intros [= <- <-] (_ & _ & Hk & _ & Hr & _). cbn [claim_rows] in Hr.
  rewrite fmap_cons, NoDup_cons in Hk. rewrite fmap_cons, NoDup_cons in Hr. destruct Hk as [Hk _], Hr as [Hr _].
  unfold inserted, with_utxos, with_nullifiers. cbn [claim_rows nullifiers starstream_utxos raft_log raft_meta genesis].
  rewrite !fmap_cons, !list_to_map_cons. cbn [fst snd].
  by rewrite !list_to_map_insert_union by (done || by rewrite <- list_fmap_compose, list_fmap_id).
Qed.

Lemma insert_claims_ok db pis ws block_idx ordinal db' :
  length pis = length ws →
  insert_claims db pis ws block_idx ordinal block_idx = Ok db' ↔
  insertable db pis ws block_idx ordinal ∧ db' = inserted db pis ws block_idx ordinal.
Proof.
  revert ws ordinal db db'. induction pis as [|p pis IH]; intros [|w ws] ordinal db db' Hl; try done.
  { assert (E : inserted db [] [] block_idx ordinal = db).
    { destruct db. unfold inserted, with_utxos, with_nullifiers. cbn.
      f_equal; apply (left_id_L ∅ (∪)). }
    rewrite E. cbn. split; [intros [= <-]|intros [_ ->]; done]. by split; [repeat constructor|]. }
  injection Hl as Hl. cbn [insert_claims]. rewrite res_bind_ok.
  set (r := claim_rows [p] [w] block_idx ordinal).
  assert (exists id row, r = [(id, row)]) as (id & row & Er) by (by eexists _, _). split.
  - intros (db1 & H1 & H2). apply insert_nullifier_ok in H1 as (H1 & Hk & ->).
    apply res_bind_ok in H2 as (db2 & H2 & H3).
    apply insert_starstream_utxo_ok in H2 as (H2 & id' & row' & E & Hu & ->).
    apply (IH ws (ordinal + 1)) in H3 as [H3 ->]; [|done].
    unfold r in Er. rewrite Er in E. injection E as <- <-. cbn [starstream_utxos with_nullifiers] in *.
    assert (Hi : insertable db (p :: pis) (w :: ws) block_idx ordinal)
      by (by apply (insertable_cons db p pis w ws block_idx ordinal id row Er)).
    split; [done|]. by rewrite <- (inserted_cons _ _ _ _ _ _ _ _ _ Er Hi).
  - intros [Hi ->]. rewrite <- (inserted_cons _ _ _ _ _ _ _ _ _ Er Hi).
    apply (insertable_cons _ _ _ _ _ _ _ _ _ Er) in Hi as (H1 & H2 & H3 & H4 & H5).
    eexists. split; [by apply insert_nullifier_ok|]. apply res_bind_ok. eexists. split.
    + apply insert_starstream_utxo_ok. split; [done|]. by exists id, row.
    + by apply IH.
Qed.

End Rows.

(** ** Applying a claim *)

Section Apply.
Context {HF : HashFns} {SV : StarkVerifier}.

Lemma reject_replays_ok db pis :
  reject_replays db pis = Ok () ↔
  Forall (λ p, leaf_index p < 2 ^ 63 ∧ nullifiers db !! claim_key p = None) pis.
Proof.
  induction pis as [|p pis IH]; [by split; [constructor|]|]. cbn [reject_replays].
  rewrite Forall_cons, <- IH, res_bind_ok. unfold reject_replay. split.
  - intros ([] & H & ->). split; [|done]. apply res_bind_ok in H as (i & Hi & H).
    apply sqlite_i64_ok in Hi as [Hi ->]. fold (claim_key p) in H. by destruct (nullifiers db !! _).
  - intros [[Hi Hk] ->]. exists (). split; [|done]. rewrite (sqlite_i64_fits _ _ Hi). cbn [res_bind].
    fold (claim_key p). by rewrite Hk.
Qed.

Lemma reject_replays_returns db pis : reject_replays db pis ≠ Panic.
Proof.
  induction pis as [|p pis IH]; [done|]. cbn [reject_replays]. unfold reject_replay, sqlite_i64.
  destruct (_ <? _); [cbn [res_bind]|done]. by destruct (nullifiers db !! _).
Qed.

Lemma insert_claims_returns db pis ws b o b' : insert_claims db pis ws b o b' ≠ Panic.
Proof.
  revert db ws o. induction pis as [|p pis IH]; intros db [|w ws] o; try done.
  cbn [insert_claims]. unfold insert_nullifier, insert_starstream_utxo, sql_insert_nullifier, sql_insert_utxo, sqlite_i64.
  repeat (case_match; cbn [res_bind]; try done); simplify_eq.
  all: match goal with H : _ = Panic |- _ => revert H end; repeat case_match; done || apply IH.
Qed.

Lemma parse_claim_ok claim pc :
  parse_claim claim = Ok pc ↔
  length (claim_publics claim) = length (claim_witnesses claim) ∧
  pc = {| pc_public_inputs := claim_publics claim; pc_witnesses := claim_witnesses claim;
          pc_proof := claim_proof claim |}.
Proof.
  destruct claim as [c|c]; cbn; [naive_solver|].
  destruct (Nat.eqb_spec (length (cc_public c)) (length (cc_witness c))); naive_solver.
Qed.

(** When a claim can be applied. *)
Definition applicable (db : Db) (block_idx : Z) (c : OmegaCommitment) (claim : ClaimTx) : Prop :=
  block_idx < 2 ^ 63 ∧ length (claim_publics claim) = length (claim_witnesses claim) ∧
  verify_claim c (claim_publics claim) (claim_proof claim) = Ok () ∧
  insertable db (claim_publics claim) (claim_witnesses claim) block_idx 0.

Definition applied (db : Db) (block_idx : Z) (claim : ClaimTx) : Db :=
  inserted db (claim_publics claim) (claim_witnesses claim) block_idx 0.

Lemma apply_claim_body_ok db block_idx c claim db' :
  apply_claim_body db block_idx c claim = Ok db' ↔
  applicable db block_idx c claim ∧ db' = applied db block_idx claim.
Proof.
  unfold apply_claim_body, applicable. rewrite res_bind_ok. split.
  - intros (b & Hb & H). apply sqlite_i64_ok in Hb as [Hb ->]. apply res_bind_ok in H as (pc & Hp & H).
    apply parse_claim_ok in Hp as [Hl ->]. apply res_bind_ok in H as ([] & Hv & H).
    apply res_bind_ok in H as (_ & _ & H). apply insert_claims_ok in H as [Hi ->]; [|done].
    cbn in Hv. by destruct (verify_claim c _ _) as [[]| |].
  - intros [(Hb & Hl & Hv & Hi) ->]. exists block_idx. split; [by apply sqlite_i64_fits|].
    rewrite (proj2 (parse_claim_ok claim _) (conj Hl eq_refl)).
    cbn [res_bind pc_public_inputs pc_witnesses pc_proof]. rewrite Hv. cbn [res_map_err res_bind].
    assert (Hr : reject_replays db (claim_publics claim) = Ok ()).
    { apply reject_replays_ok. destruct Hi as (H1 & _ & _ & H2 & _). apply Forall_fmap in H2.
      by apply Forall_and. }
    rewrite Hr. cbn [res_bind]. by apply insert_claims_ok.
Qed.

Lemma apply_claim_body_returns (HL : HashLaws HF) db block_idx c claim :
  wf_commitment c → wf_claim claim → apply_claim_body db block_idx c claim ≠ Panic.
Proof.
  intros Hc Ht. unfold apply_claim_body, sqlite_i64.
  destruct (block_idx <? 2 ^ 63); cbn [res_bind]; [|done].
  destruct (parse_claim claim) as [pc| |] eqn:Hp; cbn [res_bind]; [|done|].
  2: { revert Hp. destruct claim as [|cc]; cbn; [done|]. by destruct (Nat.eqb _ _). }
  apply parse_claim_ok in Hp as [_ ->]. cbn [pc_public_inputs pc_witnesses pc_proof].
  destruct (verify_claim_accepts HL c (claim_publics claim) (claim_proof claim) Hc Ht) as [Hv _].
  destruct (verify_claim c _ _); cbn [res_map_err res_bind]; [|done|done].
  pose proof (reject_replays_returns db (claim_publics claim)).
  destruct (reject_replays _ _); cbn [res_bind]; [|done|done]. apply insert_claims_returns.
Qed.

Lemma apply_claim_tx_ok db block_idx c claim :
  applicable db block_idx c claim → apply_claim_tx db block_idx c claim = (applied db block_idx claim, Ok ()).
Proof.
  intros H. unfold apply_claim_tx.
  by rewrite (proj2 (apply_claim_body_ok db block_idx c claim _) (conj H eq_refl)).
Qed.

Lemma apply_claim_tx_cases db block_idx c claim db' r :
  apply_claim_tx db block_idx c claim = (db', r) →
  (r = Ok () ∧ applicable db block_idx c claim ∧ db' = applied db block_idx claim) ∨
  (r ≠ Ok () ∧ ¬ applicable db block_idx c claim ∧ db' = db).
Proof.
  unfold apply_claim_tx, transact. pose proof (apply_claim_body_ok db block_idx c claim) as H.
  destruct (apply_claim_body _ _ _ _) as [db1|e|]; intros [= <- <-].
  - left. split; [done|]. by apply H.
  - right. split; [done|]. split; [|done]. intros Ha. by specialize (proj2 (H _) (conj Ha eq_refl)).
  - right. split; [done|]. split; [|done]. intros Ha. by specialize (proj2 (H _) (conj Ha eq_refl)).
Qed.

(** C6: Applying a claim is all or nothing.  [apply_claim_tx] accepts a claim
    exactly when the block index and the integers of the claim fit SQLite's,
    the arities agree, the proof verifies against the commitment, and the
    leaves and UTxO ids are new and pairwise distinct; the database then gains
    exactly one nullifier and one UTxO row per leaf.  Otherwise it returns an
    error, without panicking, and the database is unchanged. *)
Theorem apply_claim_tx_spec (HL : HashLaws HF) db block_idx c claim
    (Hc : wf_commitment c) (Ht : wf_claim claim) :
  (applicable db block_idx c claim ∧
   apply_claim_tx db block_idx c claim = (applied db block_idx claim, Ok ())) ∨
  (¬ applicable db block_idx c claim ∧ ∃ e, apply_claim_tx db block_idx c claim = (db, Err e)).
Proof.
  destruct (apply_claim_tx db block_idx c claim) as [db' r] eqn:E.
  destruct (apply_claim_tx_cases _ _ _ _ _ _ E) as [(-> & Ha & ->)|(Hr & Ha & ->)]; [by left|right].
  split; [done|]. revert E Hr. unfold apply_claim_tx, transact.
  pose proof (apply_claim_body_returns HL db block_idx c claim Hc Ht).
  destruct (apply_claim_body _ _ _ _) as [db1|e|]; intros E Hr; simplify_eq; [by exists e].
Qed.

End Apply.

(** ** Runs of the writer *)

(** [db'] is [db] with the leaves [ks] claimed, each for the first time. *)
Record claims (db : Db) (ks : list (Z * Z)) (db' : Db) : Prop := {
  claims_nodup : NoDup ks;
  claims_fresh : Forall (λ k, k ∉ dom (nullifiers db)) ks;
  claims_dom : dom (nullifiers db') = dom (nullifiers db) ∪ list_to_set ks;
  claims_utxos : starstream_utxo_count db' = (starstream_utxo_count db + length ks)%nat
}.

Lemma claims_same db db' :
  nullifiers db' = nullifiers db → starstream_utxos db' = starstream_utxos db → claims db [] db'.
Proof.
  intros E1 E2. split; [constructor|constructor|rewrite E1; set_solver|].
  unfold starstream_utxo_count. rewrite E2. cbn. lia.
Qed.

Lemma claims_app db ks1 db1 ks2 db2 : claims db ks1 db1 → claims db1 ks2 db2 → claims db (ks1 ++ ks2) db2.
Proof.
  intros [N1 F1 D1 U1] [N2 F2 D2 U2]. rewrite list.Forall_forall in F1, F2. split.
  - apply NoDup_app. split; [done|]. split; [|done]. intros k Hk Hk2. apply (F2 k Hk2). set_solver.
  - apply Forall_app. split; apply list.Forall_forall; [done|]. intros k Hk Hd. apply (F2 k Hk). set_solver.
  - rewrite D2, D1, list_to_set_app_L. set_solver.
  - rewrite U2, U1, length_app. lia.
Qed.

Lemma claims_count db ks db' : claims db ks db' → nullifier_count db' = (nullifier_count db + length ks)%nat.
Proof.
  intros [N F D _]. unfold nullifier_count. rewrite <- !(size_dom (D:=gset (Z * Z))), D.
  rewrite size_union; [by rewrite size_list_to_set|]. rewrite list.Forall_forall in F. set_solver.
Qed.

Section Runs.
Context {HF : HashFns} {SV : StarkVerifier} {SF : SqliteFiles} {Membership : Type} `{CL : Ciborium LogId}.
Notation WriteCmd := (@WriteCmd Membership).
Notation RaftEntry := (@RaftEntry Membership).

Lemma length_claim_rows pis ws b o : length pis = length ws → length (claim_rows pis ws b o) = length pis.
Proof. revert ws o. induction pis; intros [|w ws] o; cbn; auto. Qed.

Lemma applied_claims db block_idx c claim :
  applicable db block_idx c claim → claims db (claim_keys claim) (applied db block_idx claim).
Proof.
  intros (_ & Hl & _ & (_ & _ & Hnd & Hf & Hnd' & Hf')). unfold applied, inserted. split.
  - done.
  - eapply list.Forall_impl; [exact Hf|]. intros k. apply not_elem_of_dom_2.
  - cbn [nullifiers with_utxos with_nullifiers]. rewrite dom_union_L, dom_list_to_map_L.
    rewrite <- list_fmap_compose, (list_fmap_id (claim_key <$> claim_publics claim)). apply (comm_L _).
  - unfold starstream_utxo_count. cbn [starstream_utxos with_utxos].
    rewrite map_size_disj_union; [rewrite map_size_list_to_map by done|].
    + rewrite length_claim_rows by done. unfold claim_keys. rewrite length_fmap. lia.
    + apply map_disjoint_list_to_map_l. by apply Forall_fmap in Hf'.
Qed.

(** The leaves an entry or a command claimed, by the reply to it. *)
Definition payload_keys (payload : @EntryPayload Membership) : list (Z * Z) :=
  match payload with Normal command => claim_keys (lc_claim command) | _ => [] end.

Definition entry_keys (e : RaftEntry) (r : LedgerResponse) : list (Z * Z) :=
  if lr_accepted r then payload_keys (re_payload e) else [].

Definition cmd_keys (cmd : WriteCmd) (reply : WriteReply) : list (Z * Z) :=
  match cmd, reply with
  | ApplyClaim _ _ claim, ReplyUnit (Ok _) => claim_keys claim
  | InsertSyntheticClaim id leaf _, ReplyUnit (Ok _) => [(id, leaf)]
  | ApplyRaftEntries es _, ReplyResponses (Ok rs) => concat (zip_with entry_keys es rs)
  | _, _ => []
  end.

Definition run_keys (cmds : list WriteCmd) (replies : list WriteReply) : list (Z * Z) :=
  concat (zip_with cmd_keys cmds replies).

(** Commands as their Rust types hold them. *)
Definition wf_entry (e : RaftEntry) : Prop :=
  match re_payload e with
  | Normal command => wf_commitment (lc_commitment command) ∧ wf_claim (lc_claim command) ∧
                      is_u64 (lc_block_idx command)
  | _ => True
  end.

Definition wf_cmd (cmd : WriteCmd) : Prop :=
  match cmd with
  | ApplyClaim b c claim => wf_commitment c ∧ wf_claim claim ∧ is_u64 b
  | InsertSyntheticClaim id leaf b => is_u8 id ∧ is_u64 leaf ∧ is_u64 b
  | AppendRaftLogs rows => Forall (λ r, is_u64 (rl_log_idx r) ∧ is_u64 (rl_term r)) rows
  | DeleteRaftLogsSince i | PurgeRaftLogsUpto i _ => is_u64 i
  | ApplyRaftEntries es _ => Forall wf_entry es
  | _ => True
  end.

Definition is_restore (cmd : WriteCmd) : bool :=
  match cmd with RestoreSnapshot _ => true | _ => false end.

Lemma save_raft_meta_claims db key v : claims db [] (save_raft_meta db key v).
Proof. apply claims_same; by destruct v. Qed.

Lemma insert_synthetic_claim_cases db id leaf b db' r :
  insert_synthetic_claim db id leaf b = (db', r) →
  (r ≠ Ok () ∧ db' = db) ∨
  (r = Ok () ∧ leaf < 2 ^ 63 ∧ b < 2 ^ 63 ∧ nullifiers db !! (id, leaf) = None ∧ ∃ recipient payload v uid,
    let row := {| ur_recipient := recipient; ur_value := v; ur_asset_blob := []; ur_datum := None;
      ur_script_ref := None; ur_block_idx := b; ur_spent_in := None |} in
    uid = starstream_utxo_id recipient payload b leaf ∧ length recipient = 32%nat ∧
    v = Z.min (leaf + 1) (2 ^ 64 - 1) ∧ v < 2 ^ 63 ∧ starstream_utxos db !! uid = None ∧
    db' = with_utxos (with_nullifiers db (<[(id, leaf) := b]> (nullifiers db)))
            (<[uid := row]> (starstream_utxos db))).
Proof.
  unfold insert_synthetic_claim, transact.
  match goal with |- context [match ?body with Ok _ => _ | _ => _ end] => destruct body as [db1| |] eqn:E end;
    intros [= <- <-]; [right|by left..].
  apply res_bind_ok in E as (i & [Hi ->]%sqlite_i64_ok & E).
  apply res_bind_ok in E as (j & [Hj ->]%sqlite_i64_ok & E).
  apply res_bind_ok in E as (db2 & E2 & E). unfold sql_insert_nullifier in E2.
  destruct (nullifiers db !! (id, leaf)) eqn:Ek; [done|]. injection E2 as <-.
  apply res_bind_ok in E as (v & [Hv ->]%sqlite_i64_ok & E). unfold sql_insert_utxo in E.
  cbn [starstream_utxos with_nullifiers] in E.
  match type of E with context [starstream_utxos db !! ?u] => destruct (starstream_utxos db !! u) eqn:Eu end; [done|].
  injection E as <-. repeat (split; [done|]). 
  exists (replicate 32 (z2b 0xC7)), (be_bytes 8 leaf ++ be_bytes 8 b). eexists _, _. by repeat (split; [done|]).
Qed.

Lemma synthetic_claims db id leaf b db' r :
  insert_synthetic_claim db id leaf b = (db', r) →
  claims db (cmd_keys (InsertSyntheticClaim id leaf b) (ReplyUnit r)) db'.
Proof.
  intros [[Hr ->]|(-> & _ & _ & Hk & rc & p & v & uid & _ & _ & _ & _ & Hu & ->)]%insert_synthetic_claim_cases.
  { destruct r as [[]| |]; [done|by apply claims_same..]. }
  split; cbn [cmd_keys nullifiers starstream_utxos with_utxos with_nullifiers].
  - apply NoDup_singleton.
  - constructor; [by apply not_elem_of_dom_2|done].
  - rewrite dom_insert_L. set_solver.
  - unfold starstream_utxo_count. cbn [starstream_utxos with_utxos]. rewrite map_size_insert_None by done. cbn. lia.
Qed.

Lemma transact_same (db : Db) (body : result Db LedgerError) db' r :
  (∀ db1, body = Ok db1 → nullifiers db1 = nullifiers db ∧ starstream_utxos db1 = starstream_utxos db) →
  transact db body = (db', r) → claims db [] db'.
Proof.
  intros H. unfold transact. destruct body as [db1| |]; intros [= <- <-]; [|by apply claims_same..].
  destruct (H db1 eq_refl). by apply claims_same.
Qed.

Lemma upsert_raft_logs_same db rows db' :
  upsert_raft_logs db rows = Ok db' →
  nullifiers db' = nullifiers db ∧ starstream_utxos db' = starstream_utxos db.
Proof.
  revert db. induction rows as [|row rows IH]; intros db; cbn [upsert_raft_logs]; [by intros [= <-]|].
  intros (i & _ & H)%res_bind_ok. apply res_bind_ok in H as (t & _ & H). by apply IH in H.
Qed.

Context {HL : HashLaws HF}.
(** Writing a log id to a vector does not fail. *)
Context (log_id_encodes : ∀ id : LogId, is_Some (into_writer id)).

Lemma apply_claim_tx_claims db b c claim db' r :
  apply_claim_tx db b c claim = (db', r) →
  claims db (cmd_keys (ApplyClaim b c claim) (ReplyUnit r)) db'.
Proof.
  intros E. destruct (apply_claim_tx_cases _ _ _ _ _ _ E) as [(-> & Ha & ->)|(Hr & _ & ->)].
  - by apply applied_claims in Ha.
  - destruct r as [[]| |]; [done|by apply claims_same..].
Qed.

Lemma apply_entry_claims db e :
  wf_entry e → ∃ db' r, apply_entry db (re_payload e) = (db', Ok r) ∧ claims db (entry_keys e r) db'.
Proof.
  unfold wf_entry, apply_entry, entry_keys. destruct (re_payload e) as [|command|m]; cbn [payload_keys].
  1,3: intros _; exists db, accepted; split; [done|by apply claims_same].
  intros (Hc & Ht & _).
  destruct (apply_claim_tx db _ _ _) as [db' r] eqn:E. pose proof (apply_claim_tx_claims _ _ _ _ _ _ E) as H.
  pose proof (apply_claim_body_returns HL db (lc_block_idx command) _ _ Hc Ht) as Hp.
  destruct r as [[]|er|].
  - by exists db', accepted.
  - by exists db', (rejected er).
  - revert E Hp. unfold apply_claim_tx, transact. by destruct (apply_claim_body _ _ _ _).
Qed.

Lemma apply_entries_claims db es :
  Forall wf_entry es →
  ∃ db' rs, apply_entries db es = (db', Ok rs) ∧ length rs = length es ∧
    claims db (concat (zip_with entry_keys es rs)) db'.
Proof.
  intros H. revert db. induction H as [|e es He _ IH]; intros db; cbn [apply_entries].
  { exists db, []. split; [done|]. split; [done|]. by apply claims_same. }
  destruct (apply_entry_claims db e He) as (db1 & r & -> & H1).
  destruct (log_id_encodes (re_log_id e)) as [b ->].
  destruct (IH (save_raft_meta db1 "last_applied_log_id" (Some b))) as (db2 & rs & -> & Hl & H2).
  exists db2, (r :: rs). split; [done|]. split; [by cbn; rewrite Hl|]. cbn.
  eapply claims_app; [exact H1|]. apply (claims_app _ [] _ _ _ (save_raft_meta_claims _ _ _) H2).
Qed.

Lemma run_command_claims w cmd w' reply :
  wf_cmd cmd → is_restore cmd = false → run_command w cmd = (w', reply) →
  claims (wr_db w) (cmd_keys cmd reply) (wr_db w').
Proof.
  intros Hwf Hr. destruct cmd as [b c t| |id|path|id leaf b|key v|rows|i|i l|es m]; cbn [run_command]; try done.
  - destruct (apply_claim_tx _ _ _ _) as [db r] eqn:E. intros [= <- <-]. by apply apply_claim_tx_claims in E.
  - intros [= <- <-]. by apply claims_same.
  - intros [= <- <-]. by apply claims_same.
  - destruct (insert_synthetic_claim _ _ _ _) as [db r] eqn:E. intros [= <- <-]. by apply synthetic_claims in E.
  - intros [= <- <-]. apply save_raft_meta_claims.
  - destruct (append_raft_logs _ _) as [db r] eqn:E. intros [= <- <-].
    eapply transact_same; [|exact E]. apply upsert_raft_logs_same.
  - destruct (delete_raft_logs_since _ _) as [db r] eqn:E. intros [= <- <-].
    eapply transact_same; [|exact E]. by intros db1 (? & _ & [= <-])%res_bind_ok.
  - destruct (purge_raft_logs_upto _ _ _) as [db r] eqn:E. intros [= <- <-].
    eapply transact_same; [|exact E]. by intros db1 (? & _ & [= <-])%res_bind_ok.
  - unfold apply_raft_entries. destruct (apply_entries_claims (wr_db w) es Hwf) as (db & rs & -> & _ & H).
    intros [= <- <-]. cbn [cmd_keys wr_db set_db]. rewrite <- (app_nil_r (concat _)).
    eapply claims_app; [exact H|]. destruct m; by apply claims_same.
Qed.

Lemma run_writer_claims w cmds w' replies :
  Forall wf_cmd cmds → Forall (λ cmd, is_restore cmd = false) cmds → run_writer w cmds = (w', replies) →
  claims (wr_db w) (run_keys cmds replies) (wr_db w').
Proof.
  revert w replies. induction cmds as [|cmd cmds IH]; intros w replies Hwf Hr; cbn [run_writer].
  { intros [= <- <-]. by apply claims_same. }
  apply Forall_cons in Hwf as [Hwf Hwf'], Hr as [Hr Hr'].
  destruct (run_command w cmd) as [w1 reply] eqn:E1, (run_writer w1 cmds) as [w2 replies'] eqn:E2.
  intros [= <- <-]. apply (claims_app _ _ (wr_db w1)); [by apply run_command_claims in E1|by apply IH in E2].
Qed.

(** C2: A leaf is claimed at most once.  Over every sequence of writer
    commands that restores no snapshot, direct, synthetic and replicated
    claims interleaved in any way, the leaves of the accepted claims are
    pairwise distinct and were unclaimed at the start, the nullifier table
    afterwards holds exactly the leaves it held and the claimed ones, and each
    accepted leaf added exactly one nullifier and one UTxO. *)
Theorem each_leaf_claimed_once w cmds w' replies
    (Hwf : Forall wf_cmd cmds) (Hr : Forall (λ cmd, is_restore cmd = false) cmds)
    (Hrun : run_writer w cmds = (w', replies)) :
  let ks := run_keys cmds replies in
  NoDup ks ∧ Forall (λ k, k ∉ dom (nullifiers (wr_db w))) ks ∧
  dom (nullifiers (wr_db w')) = dom (nullifiers (wr_db w)) ∪ list_to_set ks ∧
  nullifier_count (wr_db w') = (nullifier_count (wr_db w) + length ks)%nat ∧
  starstream_utxo_count (wr_db w') = (starstream_utxo_count (wr_db w) + length ks)%nat.
Proof.
  pose proof (run_writer_claims w cmds w' replies Hwf Hr Hrun) as H.
  pose proof (claims_count _ _ _ H). by destruct H.
Qed.

End Runs.

(** ** The tables stay well formed *)

(** A non-negative value of an [i64] column. *)
Abbreviation is_i64 := (in_range 63).

Definition wf_row (row : UtxoRow) : Prop :=
  is_hash (ur_recipient row) ∧ is_i64 (ur_value row) ∧ is_i64 (ur_block_idx row) ∧ ur_spent_in row = None.

(** Keys and columns in range, and one UTxO per nullifier. *)
Record wf_db (db : Db) : Prop := {
  wf_nullifiers : map_Forall (λ k b, is_u8 k.1 ∧ is_i64 k.2 ∧ is_i64 b) (nullifiers db);
  wf_utxos : map_Forall (λ id row, is_hash id ∧ wf_row row) (starstream_utxos db);
  wf_log : map_Forall (λ i row, is_i64 i ∧ is_i64 row.1) (raft_log db);
  wf_counts : nullifier_count db = starstream_utxo_count db
}.

(** The database is well formed, and so is every database in a file next to it. *)
Definition wf_writer `{SqliteFiles} (w : Writer) : Prop :=
  wf_db (wr_db w) ∧
  map_Forall (λ _ image, ∀ db, open_image image = Opened db → wf_db db) (wr_files w).

Lemma list_to_map_forall `{Countable K} {A} (P : K → A → Prop) (l : list (K * A)) :
  Forall (λ kv, P kv.1 kv.2) l → map_Forall P (list_to_map l : gmap K A).
Proof. intros Hl k x Hk%elem_of_list_to_map_2. rewrite list.Forall_forall in Hl. by apply (Hl (k, x)). Qed.

Lemma filter_forall `{Countable K} {A} (P : K → A → Prop) (Q : K * A → Prop) `{!∀ x, Decision (Q x)} (m : gmap K A) :
  map_Forall P m → map_Forall P (filter Q m).
Proof. intros Hm k x [Hk _]%map_lookup_filter_Some. by apply Hm. Qed.

Section Invariant.
Context {HF : HashFns} {SV : StarkVerifier} {SF : SqliteFiles} {Membership : Type} `{CL : Ciborium LogId}.
Context {HL : HashLaws HF}.
Notation WriteCmd := (@WriteCmd Membership).
Notation RaftEntry := (@RaftEntry Membership).

Lemma is_i64_fits v : is_u64 v → v < 2 ^ 63 → is_i64 v.
Proof. unfold in_range. lia. Qed.

Lemma payload_value_nonneg p : 0 <= payload_value p.
Proof. unfold payload_value. destruct (_ <? _)%nat; [lia|]. apply be_val_range. Qed.

Lemma starstream_utxo_id_hash r p b o : is_hash (starstream_utxo_id r p b o).
Proof. apply blake3_hash_len. Qed.

Lemma claim_rows_wf pis ws b o :
  Forall wf_public pis → Forall (λ w, payload_value (leaf_payload w) < 2 ^ 63) ws → is_i64 b →
  Forall (λ r, is_hash r.1 ∧ wf_row r.2) (claim_rows pis ws b o).
Proof.
  intros Hp. revert ws o. induction Hp as [|p pis (_ & _ & _ & _ & _ & _ & Hp) _ IH]; intros [|w ws] o Hv Hb; cbn; try constructor.
  - split; [apply starstream_utxo_id_hash|]. apply Forall_cons in Hv as [Hv _].
    pose proof (payload_value_nonneg (leaf_payload w)). split; [done|]. split; [split; cbn; lia|done].
  - apply Forall_cons in Hv as [_ Hv]. by apply IH.
Qed.

Lemma applied_wf db b c claim :
  wf_claim claim → is_u64 b → wf_db db → applicable db b c claim → wf_db (applied db b claim).
Proof.
  intros Ht Hb [WN WU WL WC] Ha. pose proof (applied_claims _ _ _ _ Ha) as Hc.
  pose proof (claims_count _ _ _ Hc) as Hn. destruct Hc as [_ _ _ Hu].
  destruct Ha as (Hb' & Hl & _ & (H1 & H2 & Hnd & _ & Hnd' & _)).
  apply is_i64_fits in Hb; [|done]. split; [| |done|lia].
  - cbn. apply map_Forall_union_2; [|done]. apply list_to_map_forall.
    apply Forall_fmap, Forall_fmap. apply list.Forall_forall. intros p Hp. cbn.
    unfold wf_claim in Ht. rewrite list.Forall_forall in Ht, H1. destruct (Ht p Hp) as (Hs & Hi & _).
    split; [done|]. split; [by apply is_i64_fits; [|apply H1]|done].
  - cbn. apply map_Forall_union_2; [|done]. apply list_to_map_forall. by apply claim_rows_wf.
Qed.

Lemma apply_claim_tx_wf db b c claim db' r :
  wf_claim claim → is_u64 b → wf_db db → apply_claim_tx db b c claim = (db', r) → wf_db db'.
Proof.
  intros Ht Hb Hw E. destruct (apply_claim_tx_cases _ _ _ _ _ _ E) as [(_ & Ha & ->)|(_ & _ & ->)]; [|done].
  by eapply applied_wf.
Qed.

Lemma save_raft_meta_wf db key v : wf_db db → wf_db (save_raft_meta db key v).
Proof. intros []. by destruct v. Qed.

Lemma apply_entries_wf db (es : list RaftEntry) db' r :
  Forall wf_entry es → wf_db db → apply_entries db es = (db', r) → wf_db db'.
Proof.
  intros H. revert db db' r. induction H as [|e es He _ IH]; intros db db' r Hw; cbn [apply_entries].
  { by intros [= <- <-]. }
  assert (H1 : wf_db (apply_entry db (re_payload e)).1).
  { unfold wf_entry, apply_entry in *. destruct (re_payload e) as [|command|]; try done.
    destruct (apply_claim_tx db _ _ _) as [db1 r1] eqn:E. destruct He as (_ & ? & ?).
    apply apply_claim_tx_wf in E; [|done..]. by destruct r1. }
  destruct (apply_entry db (re_payload e)) as [db1 [r1| |]]; cbn in H1; try (by intros [= <- <-]).
  destruct (into_writer _); [|by intros [= <- <-]].
  destruct (apply_entries _ es) as [db2 r2] eqn:E. intros [= <- <-].
  eapply IH; [|exact E]. by apply save_raft_meta_wf.
Qed.

Lemma transact_wf (db : Db) (body : result Db LedgerError) :
  wf_db db → (∀ db1, body = Ok db1 → wf_db db1) → wf_db (transact db body).1.
Proof. intros Hw H. unfold transact. destruct body; cbn; auto. Qed.

Lemma upsert_raft_logs_wf db rows db' :
  Forall (λ r, is_u64 (rl_log_idx r) ∧ is_u64 (rl_term r)) rows → wf_db db →
  upsert_raft_logs db rows = Ok db' → wf_db db'.
Proof.
  intros H. revert db. induction H as [|row rows [Hi Ht] _ IH]; intros db Hw; cbn [upsert_raft_logs].
  { by intros [= <-]. }
  intros (i & Ei & H)%res_bind_ok. apply res_bind_ok in H as (t & Et & H).
  apply sqlite_i64_ok in Ei as [Ei ->], Et as [Et ->]. apply IH in H; [done|]. destruct Hw. split; [done..| |done].
  cbn. apply map_Forall_insert_2; [|done]. split; by apply is_i64_fits.
Qed.

Lemma filter_log_wf db (P : Z * (Z * bytes) → Prop) `{!∀ x, Decision (P x)} :
  wf_db db → wf_db (with_raft_log db (filter P (raft_log db))).
Proof. intros []. split; [done..| |done]. by apply filter_forall. Qed.

Lemma insert_synthetic_claim_wf db id leaf b db' r :
  is_u8 id → is_u64 leaf → is_u64 b → wf_db db → insert_synthetic_claim db id leaf b = (db', r) → wf_db db'.
Proof.
  intros Hid Hleaf Hb [WN WU WL WC] E. pose proof (synthetic_claims (Membership:=Empty_set) _ _ _ _ _ _ E) as Hc.
  pose proof (claims_count _ _ _ Hc) as Hn. destruct Hc as [_ _ _ Hu].
  apply insert_synthetic_claim_cases in E as
    [[_ ->]|(_ & Hl' & Hb' & _ & rc & p & v & uid & -> & Hrc & Hv & Hv' & _ & ->)]; [done|].
  split; [| |done|lia]; cbn; apply map_Forall_insert_2; try done.
  - split; [done|]. split; by apply is_i64_fits.
  - split; [apply starstream_utxo_id_hash|]. split; [done|]. split; [|split; [by apply is_i64_fits|done]].
    cbn. unfold in_range in *. lia.
Qed.

Lemma run_command_wf (Hlaw : SqliteFilesLaws SF) w (cmd : WriteCmd) w' reply :
  wf_cmd cmd → wf_writer w → run_command w cmd = (w', reply) → wf_writer w'.
Proof.
  intros Hcmd [Hdb Hf]. destruct cmd as [b c t| |id|path|id leaf b|key v|rows|i|i l|es m]; cbn [run_command].
  - destruct (apply_claim_tx _ _ _ _) as [db r] eqn:E. intros [= <- <-]. destruct Hcmd as (_ & ? & ?).
    split; [by apply apply_claim_tx_wf in E|done].
  - by intros [= <- <-].
  - intros [= <- <-]. split; [done|]. cbn. apply map_Forall_insert_2; [|by apply map_Forall_delete].
    intros db. rewrite open_db_image. by intros [= <-].
  - unfold restore_snapshot. destruct (wr_attached w); [by intros [= <- <-]|].
    destruct (wr_files w !! path) as [image|] eqn:Ep.
    2: { intros [= <- <-]. split; [done|]. apply map_Forall_insert_2; [|done].
         intros db. by rewrite open_empty_file. }
    destruct (open_image image) as [| |db] eqn:Eo; intros [= <- <-]; [done|done|].
    split; [by apply (Hf path image Ep)|by apply map_Forall_delete].
  - destruct (insert_synthetic_claim _ _ _ _) as [db r] eqn:E. intros [= <- <-]. destruct Hcmd as (? & ? & ?).
    split; [by apply insert_synthetic_claim_wf in E|done].
  - intros [= <- <-]. split; [by apply save_raft_meta_wf|done].
  - intros [= <- <-]. split; [|done]. apply transact_wf; [done|]. intros db1. by apply upsert_raft_logs_wf.
  - intros [= <- <-]. split; [|done]. apply transact_wf; [done|]. intros db1 (? & _ & [= <-])%res_bind_ok.
    by apply filter_log_wf.
  - intros [= <- <-]. split; [|done]. apply transact_wf; [done|]. intros db1 (? & _ & [= <-])%res_bind_ok.
    refine (save_raft_meta_wf (with_raft_log _ _) "last_purged_log_id" (Some l) _). by apply filter_log_wf.
  - unfold apply_raft_entries. destruct (apply_entries _ es) as [db r] eqn:E. apply apply_entries_wf in E; [|done..].
    destruct r; intros [= <- <-]; (split; [cbn|done]); try done. destruct m; [|done]. by apply (save_raft_meta_wf _ "last_membership" (Some _)).
Qed.

Lemma empty_writer_wf attached : wf_writer {| wr_db := empty_db; wr_files := ∅; wr_attached := attached |}.
Proof. by split; [split; [apply map_Forall_empty..|]|apply map_Forall_empty]. Qed.

(** C19: The tables stay well formed.  Every sequence of writer commands,
    snapshots and restores included, started on a new database without
    snapshot files, keeps all keys and columns in the range of their types,
    all ids and recipients 32 bytes long, and as many UTxOs as nullifiers. *)
Theorem writer_invariant (Hlaw : SqliteFilesLaws SF) (cmds : list WriteCmd) w' replies
    (Hcmds : Forall wf_cmd cmds)
    (Hrun : run_writer {| wr_db := empty_db; wr_files := ∅; wr_attached := false |} cmds = (w', replies)) :
  wf_writer w'.
Proof.
  revert Hrun. generalize (empty_writer_wf false). generalize {| wr_db := empty_db; wr_files := ∅; wr_attached := false |}.
  revert replies. induction Hcmds as [|cmd cmds Hcmd _ IH]; intros replies w Hw; cbn [run_writer].
  { by intros [= <- <-]. }
  destruct (run_command w cmd) as [w1 reply] eqn:E1, (run_writer w1 cmds) as [w2 replies'] eqn:E2.
  intros [= <- <-]. eapply IH; [|exact E2]. by apply run_command_wf in E1.
Qed.

End Invariant.
