(* ===== verification/StorageSpec.v ===== *)
(** * Specification of the openraft storage

    Applying committed entries gives the same state and responses however
    they are split into batches; the log table implements a map from indexes
    to entries; a snapshot built on one node and installed on another carries
    the state over, and what the code gets wrong around it: the installed
    snapshot cannot be read back, the vote of the node is replaced, and a
    failed restore blocks all later ones. *)

From S2P Require Import Prelude Hash Tree ClaimTx ClaimTxSpec Prover Verifier VerifierSpec.
From S2P Require Import Ledger Storage LedgerSpec.
From Stdlib Require Import ZArith Lia List String Sorted.
From stdpp Require Import base decidable strings gmap list.

Local Open Scope Z_scope.

(** ** Batches *)

Section Meta.
Context {HF : HashFns} {SV : StarkVerifier}.

(** Claims neither read nor write [raft_meta]. *)
Lemma reject_replays_meta db t pis : reject_replays (with_raft_meta db t) pis = reject_replays db pis.
Proof. induction pis as [|p pis IH]; [done|]. cbn [reject_replays]. by rewrite IH. Qed.

Lemma insert_claims_meta db t pis ws b o b' :
  insert_claims (with_raft_meta db t) pis ws b o b' =
  res_map (λ d, with_raft_meta d t) (insert_claims db pis ws b o b').
Proof.
  revert db ws o. induction pis as [|p pis IH]; intros db [|w ws] o; try done. cbn [insert_claims].
  unfold insert_nullifier, sql_insert_nullifier. cbn [nullifiers with_raft_meta].
  destruct (sqlite_i64 _ _); cbn [res_bind]; [|done..]. destruct (nullifiers db !! _); cbn [res_bind]; [done|].
  unfold insert_starstream_utxo, sql_insert_utxo. cbn [starstream_utxos with_raft_meta with_nullifiers].
  destruct (sqlite_i64 _ _); cbn [res_bind]; [|done..].
  destruct (starstream_utxos db !! _); cbn [res_bind]; [done|]. apply (IH (with_utxos (with_nullifiers db _) _)).
Qed.

Lemma apply_claim_tx_meta db t b c claim :
  apply_claim_tx (with_raft_meta db t) b c claim =
  (with_raft_meta (apply_claim_tx db b c claim).1 t, (apply_claim_tx db b c claim).2).
Proof.
  unfold apply_claim_tx, apply_claim_body.
  destruct (sqlite_i64 _ b); cbn [res_bind]; [|done..]. destruct (parse_claim claim); cbn [res_bind]; [|done..].
  destruct (res_map_err _ _); cbn [res_bind]; [|done..]. rewrite reject_replays_meta.
  destruct (reject_replays db _); cbn [res_bind]; [|done..]. rewrite insert_claims_meta.
  by destruct (insert_claims db _ _ _ _ _).
Qed.

Lemma apply_claim_tx_keeps_meta db b c claim : raft_meta (apply_claim_tx db b c claim).1 = raft_meta db.
Proof.
  destruct (apply_claim_tx db b c claim) as [db' r] eqn:E.
  by destruct (apply_claim_tx_cases _ _ _ _ _ _ E) as [(_ & _ & ->)|(_ & _ & ->)].
Qed.

End Meta.

Lemma with_meta_meta db t u : with_raft_meta (with_raft_meta db t) u = with_raft_meta db u.
Proof. done. Qed.

Lemma save_meta_same db key v u :
  save_raft_meta (save_raft_meta db key (Some v)) key (Some u) = save_raft_meta db key (Some u).
Proof. cbn. by rewrite insert_insert_eq. Qed.

Lemma save_meta_comm db k1 v1 k2 v2 : k1 ≠ k2 →
  save_raft_meta (save_raft_meta db k1 (Some v1)) k2 (Some v2) =
  save_raft_meta (save_raft_meta db k2 (Some v2)) k1 (Some v1).
Proof. intros Hne. cbn. by rewrite insert_insert_ne. Qed.

Section Batches.
Context {HF : HashFns} {SV : StarkVerifier} {Membership : Type}.
Notation RaftEntry := (@RaftEntry Membership).
Context `{CL : Ciborium LogId} `{CM : Ciborium (@StoredMembership Membership)}.

Lemma apply_entry_membership db (p : @EntryPayload Membership) v :
  apply_entry (save_raft_meta db "last_membership" (Some v)) p =
  (save_raft_meta (apply_entry db p).1 "last_membership" (Some v), (apply_entry db p).2).
Proof.
  destruct p as [|command|m]; cbn [apply_entry]; try done.
  cbn [save_raft_meta]. rewrite apply_claim_tx_meta.
  pose proof (apply_claim_tx_keeps_meta db (lc_block_idx command) (lc_commitment command) (lc_claim command)) as Hm.
  destruct (apply_claim_tx db _ _ _) as [db' [[]| |]]; cbn [fst snd] in *; by rewrite Hm.
Qed.

Lemma apply_entries_membership db (es : list RaftEntry) v :
  apply_entries (save_raft_meta db "last_membership" (Some v)) es =
  (save_raft_meta (apply_entries db es).1 "last_membership" (Some v), (apply_entries db es).2).
Proof.
  revert db. induction es as [|e es IH]; intros db; cbn [apply_entries]; [done|].
  rewrite apply_entry_membership. destruct (apply_entry db (re_payload e)) as [db1 [r| |]]; cbn [fst snd]; try done.
  destruct (into_writer _); [|done]. rewrite save_meta_comm by done. rewrite IH.
  by destruct (apply_entries _ es).
Qed.

Lemma apply_entries_app db (es1 es2 : list RaftEntry) db1 rs1 :
  apply_entries db es1 = (db1, Ok rs1) →
  apply_entries db (es1 ++ es2) =
  ((apply_entries db1 es2).1, let? rs2 := (apply_entries db1 es2).2 in Ok (rs1 ++ rs2)).
Proof.
  revert db rs1. induction es1 as [|e es1 IH]; intros db rs1; cbn [apply_entries app].
  { intros [= <- <-]. destruct (apply_entries db es2) as [? [| |]]; done. }
  destruct (apply_entry db (re_payload e)) as [db2 [r| |]]; try done. destruct (into_writer _); [|done].
  destruct (apply_entries _ es1) as [db3 [rs3| |]] eqn:E; cbn [res_bind]; [|done..]. intros [= <- <-].
  rewrite (IH _ _ E). by destruct (apply_entries db3 es2) as [? [| |]].
Qed.

Lemma batch_membership_found (es : list RaftEntry) found :
  batch_membership es found =
  let? m := batch_membership es None in Ok (match m with Some _ => m | None => found end).
Proof.
  assert (H : ∀ f g, match batch_membership es f, batch_membership es g with
    | Ok mf, Ok mg => (mf = f ∧ mg = g) ∨ (mf = mg ∧ is_Some mf) | Err a, Err b => a = b | Panic, Panic => True | _, _ => False end).
  { induction es as [|e es IH]; intros f g; cbn [batch_membership]; [by left|].
    destruct (re_payload e); [apply IH..|]. destruct (sto_encode _) as [b| |]; cbn [res_bind]; [|done..].
    specialize (IH (Some b) (Some b)). destruct (batch_membership es _); try done.
    right. destruct IH as [[-> _]|[_ ?]]; by eauto. }
  specialize (H None found). destruct (batch_membership es None) as [m| |], (batch_membership es found) as [n| |]; cbn; try done.
  - destruct H as [[-> ->]|[-> [? ->]]]; done.
  - by f_equal.
Qed.

Lemma batch_membership_app (es1 es2 : list RaftEntry) found :
  batch_membership (es1 ++ es2) found = let? m := batch_membership es1 found in batch_membership es2 m.
Proof.
  revert found. induction es1 as [|e es1 IH]; intros found; cbn [batch_membership app]; [done|].
  destruct (re_payload e); [apply IH..|]. by destruct (sto_encode _); cbn [res_bind].
Qed.

Definition save_membership (db : Db) (m : option bytes) : Db :=
  match m with Some b => save_raft_meta db "last_membership" (Some b) | None => db end.

Lemma apply_raft_entries_eq db (es : list RaftEntry) m :
  (apply_raft_entries db es m).2 = (apply_entries db es).2 ∧
  (is_ok (apply_entries db es).2 = true →
   (apply_raft_entries db es m).1 = save_membership (apply_entries db es).1 m).
Proof. unfold apply_raft_entries. by destruct (apply_entries db es) as [? [| |]], m. Qed.

Lemma apply_raft_entries_app db (es1 es2 : list RaftEntry) m1 m2 db1 rs1 :
  apply_raft_entries db es1 m1 = (db1, Ok rs1) →
  is_ok (apply_raft_entries db1 es2 m2).2 = true →
  apply_raft_entries db (es1 ++ es2) (match m2 with Some _ => m2 | None => m1 end) =
  ((apply_raft_entries db1 es2 m2).1,
   let? rs2 := (apply_raft_entries db1 es2 m2).2 in Ok (rs1 ++ rs2)).
Proof.
  unfold apply_raft_entries. destruct (apply_entries db es1) as [db' [rs| |]] eqn:E1; [|done..].
  intros [= E <-]. rewrite (apply_entries_app _ _ _ _ _ E1). subst db1.
  destruct m1 as [m1|].
  - change (with_raft_meta db' (<["last_membership":=m1]> (raft_meta db')))
      with (save_raft_meta db' "last_membership" (Some m1)).
    rewrite apply_entries_membership. destruct (apply_entries db' es2) as [db2 [rs2| |]]; cbn [fst snd is_ok res_bind]; [|done..].
    intros _. destruct m2; [by rewrite save_meta_same|done].
  - destruct (apply_entries db' es2) as [db2 [rs2| |]]; cbn [fst snd is_ok res_bind]; [|done..]. by destruct m2.
Qed.

Lemma apply_to_state_machine_app w (es1 es2 : list RaftEntry) w1 rs1 w2 rs2 :
  apply_to_state_machine w es1 = (w1, Ok rs1) → apply_to_state_machine w1 es2 = (w2, Ok rs2) →
  apply_to_state_machine w (es1 ++ es2) = (w2, Ok (rs1 ++ rs2)).
Proof.
  unfold apply_to_state_machine. rewrite batch_membership_app.
  destruct (batch_membership es1 None) as [m1| |]; cbn [res_bind]; [|done..].
  rewrite (batch_membership_found es2 m1). destruct (batch_membership es2 None) as [m2| |]; cbn [res_bind]; [|done..].
  destruct (apply_raft_entries (wr_db w) es1 m1) as [db1 [r1| |]] eqn:E1; cbn; [|done..]. intros [= <- <-].
  cbn [wr_db set_db]. pose proof (apply_raft_entries_app _ _ es2 _ m2 _ _ E1) as H.
  destruct (apply_raft_entries db1 es2 m2) as [db2 [r2| |]]; cbn; [|done..]. intros [= <- <-].
  by rewrite H.
Qed.

(** Applying one batch after the other. *)
Fixpoint apply_batches (w : Writer) (batches : list (list RaftEntry)) :
    Writer * result (list LedgerResponse) StorageError :=
  match batches with
  | [] => (w, Ok [])
  | batch :: batches' =>
      match apply_to_state_machine w batch with
      | (w, Ok rs) =>
          let '(w, rest) := apply_batches w batches' in (w, let? rs' := rest in Ok (rs ++ rs'))
      | other => other
      end
  end.

(** Entries as their types hold them, the memberships small enough to store. *)
Definition storable_entry (e : RaftEntry) : Prop :=
  wf_entry e ∧
  match re_payload e with
  | MembershipChange m => ∃ b, sto_encode (Some (re_log_id e, m) : StoredMembership) = Ok b
  | _ => True
  end.

Context {HL : HashLaws HF} (log_id_encodes : ∀ id : LogId, is_Some (into_writer id)).

Lemma batch_membership_ok (es : list RaftEntry) found :
  Forall storable_entry es → ∃ m, batch_membership es found = Ok m.
Proof.
  intros H. revert found. induction H as [|e es [_ He] _ IH]; intros found; cbn [batch_membership]; [by eexists|].
  destruct (re_payload e); [apply IH..|]. destruct He as [b ->]. cbn [res_bind]. apply IH.
Qed.

Lemma apply_to_state_machine_ok w (es : list RaftEntry) :
  Forall storable_entry es →
  ∃ w' rs, apply_to_state_machine w es = (w', Ok rs) ∧ length rs = length es.
Proof.
  intros H. unfold apply_to_state_machine. destruct (batch_membership_ok es None H) as [m ->].
  assert (Hwf : Forall wf_entry es) by (eapply list.Forall_impl; [exact H|]; by intros ? [? _]).
  unfold apply_raft_entries. destruct (apply_entries_claims log_id_encodes (wr_db w) es Hwf) as (db & rs & -> & Hl & _).
  by eexists _, rs.
Qed.

(** Batching does not matter.  However the committed entries are split
    into batches, [apply_to_state_machine] on the batches in turn does not
    fail, gives one response per entry, and ends with the same responses, the
    same tables and the same raft metadata as on all entries at once: replicas
    that receive the same log in different batches agree. *)
Theorem apply_batches_concat w (batches : list (list RaftEntry))
    (Hwf : Forall (Forall storable_entry) batches) :
  apply_batches w batches = apply_to_state_machine w (concat batches) ∧
  ∃ w' rs, apply_batches w batches = (w', Ok rs) ∧ length rs = length (concat batches).
Proof.
  assert (H : ∃ w' rs, apply_batches w batches = (w', Ok rs) ∧ apply_to_state_machine w (concat batches) = (w', Ok rs) ∧ length rs = length (concat batches)).
  { revert w. induction Hwf as [|es batches Hes _ IH]; intros w; cbn [apply_batches concat].
    { exists w, []. by destruct w. }
    destruct (apply_to_state_machine_ok w es Hes) as (w1 & rs1 & E1 & L1). rewrite E1.
    destruct (IH w1) as (w2 & rs2 & -> & E2 & L2). exists w2, (rs1 ++ rs2). split; [done|].
    split; [by eapply apply_to_state_machine_app|]. by rewrite !length_app, L1, L2. }
  destruct H as (w' & rs & -> & -> & Hl). split; [done|]. by exists w', rs.
Qed.

End Batches.

(** ** The log *)

Lemma sto_encode_ok {A} `{Ciborium A} (x : A) b :
  sto_encode x = Ok b ↔ into_writer x = Some b ∧ Z.of_nat (length b) <= MAX_STORAGE_PAYLOAD_BYTES.
Proof.
  unfold sto_encode. destruct (into_writer x) as [b'|]; cbn [ok_or res_bind]; [|naive_solver].
  destruct (Z.leb_spec (Z.of_nat (length b')) MAX_STORAGE_PAYLOAD_BYTES) as [Hl|Hl]; split.
  - by intros [= <-].
  - by intros [[= <-] _].
  - done.
  - intros [[= <-] Hb]. lia.
Qed.

(** Storage payloads are read back. *)
Lemma sto_decode_encode `{CiboriumLaws A} (x : A) b : sto_encode x = Ok b → sto_decode b = Ok x.
Proof.
  intros [Hb Hl]%sto_encode_ok. unfold sto_decode. apply Z.leb_le in Hl. rewrite Hl.
  by rewrite (ciborium_roundtrip _ _ Hb).
Qed.

Section Log.
Context {Membership : Type}.
Notation RaftEntry := (@RaftEntry Membership).
Context `{CE : CiboriumLaws RaftEntry} `{CI : CiboriumLaws LogId}.

(** The log as openraft sees it: the entries by index and the last purged id. *)
Record AbsLog := { al_entries : gmap Z RaftEntry; al_purged : option LogId }.

Inductive LogOp : Type :=
| OpAppend (entries : list RaftEntry)
| OpDeleteSince (log_id : LogId)
| OpPurge (log_id : LogId).

Definition entry_index (e : RaftEntry) : Z := li_index (re_log_id e).

Definition abs_op (l : AbsLog) (op : LogOp) : AbsLog :=
  match op with
  | OpAppend es => {| al_entries := foldl (λ m e, <[entry_index e := e]> m) (al_entries l) es; al_purged := al_purged l |}
  | OpDeleteSince id => {| al_entries := filter (λ ie, ie.1 < li_index id) (al_entries l); al_purged := al_purged l |}
  | OpPurge id => {| al_entries := filter (λ ie, li_index id < ie.1) (al_entries l); al_purged := Some id |}
  end.

Definition run_op (w : Writer) (op : LogOp) : Writer * result unit StorageError :=
  match op with
  | OpAppend es => append_to_log w es
  | OpDeleteSince id => delete_conflict_logs_since w id
  | OpPurge id => purge_logs_upto w id
  end.

Fixpoint run_ops (w : Writer) (ops : list LogOp) : Writer * result unit StorageError :=
  match ops with
  | [] => (w, Ok ())
  | op :: ops' => match run_op w op with (w, Ok _) => run_ops w ops' | other => other end
  end.

(** Indexes and terms fit SQLite's integers, and the payloads can be stored. *)
Definition fits_entry (e : RaftEntry) : Prop :=
  entry_index e < 2 ^ 63 ∧ li_term (re_log_id e) < 2 ^ 63 ∧ ∃ b, sto_encode e = Ok b.

Definition fits_op (op : LogOp) : Prop :=
  match op with
  | OpAppend es => Forall fits_entry es
  | OpDeleteSince id => li_index id < 2 ^ 63
  | OpPurge id => li_index id < 2 ^ 63 ∧ ∃ b, sto_encode id = Ok b
  end.

Definition row_of (e : RaftEntry) : Z * bytes :=
  (li_term (re_log_id e), match sto_encode e with Ok b => b | _ => [] end).

(** The tables hold the abstract log. *)
Record refines (w : Writer) (l : AbsLog) : Prop := {
  refines_rows : raft_log (wr_db w) = row_of <$> al_entries l;
  refines_entries : map_Forall (λ i e, entry_index e = i ∧ ∃ b, sto_encode e = Ok b) (al_entries l);
  refines_purged : read_meta w "last_purged_log_id" = Ok (al_purged l)
}.

Lemma append_rows_ok es :
  Forall fits_entry es →
  res_mapM log_row es = Ok ((λ e, {| rl_log_idx := entry_index e; rl_term := (row_of e).1; rl_payload := (row_of e).2 |}) <$> es).
Proof.
  induction 1 as [|e es (_ & _ & b & Eb) _ IH]; [done|]. cbn [res_mapM fmap list_fmap]. unfold log_row at 1, row_of at 1 2.
  rewrite Eb. cbn [res_bind]. rewrite IH. done.
Qed.

Lemma upsert_rows_ok db (m : gmap Z RaftEntry) es :
  Forall fits_entry es → raft_log db = row_of <$> m →
  upsert_raft_logs db ((λ e, {| rl_log_idx := entry_index e; rl_term := (row_of e).1; rl_payload := (row_of e).2 |}) <$> es)
  = Ok (with_raft_log db (row_of <$> foldl (λ m e, <[entry_index e := e]> m) m es)).
Proof.
  intros Hes. revert db m. induction Hes as [|e es (Hi & Ht & _) _ IH]; intros db m Hm; cbn [fmap list_fmap upsert_raft_logs foldl].
  { rewrite <- Hm. by destruct db. }
  cbn [rl_log_idx rl_term rl_payload]. rewrite (sqlite_i64_fits _ _ Hi). cbn [res_bind].
  unfold row_of at 1. cbn [fst]. rewrite (sqlite_i64_fits _ _ Ht). cbn [res_bind].
  rewrite (IH _ (<[entry_index e := e]> m)); [done|]. cbn. rewrite fmap_insert, <- Hm. by destruct (row_of e) eqn:E; unfold row_of in *; simplify_eq.
Qed.

Lemma appended_entries (m : gmap Z RaftEntry) es :
  Forall fits_entry es → map_Forall (λ i e, entry_index e = i ∧ ∃ b, sto_encode e = Ok b) m →
  map_Forall (λ i e, entry_index e = i ∧ ∃ b, sto_encode e = Ok b) (foldl (λ m e, <[entry_index e := e]> m) m es).
Proof.
  intros Hes. revert m. induction Hes as [|e es (_ & _ & He) _ IH]; intros m Hm; cbn [foldl]; [done|].
  apply IH. by apply map_Forall_insert_2.
Qed.

Lemma run_op_refines w l op :
  fits_op op → refines w l → ∃ w', run_op w op = (w', Ok ()) ∧ refines w' (abs_op l op).
Proof.
  intros Hop [Hr He Hp]. destruct op as [es|id|id]; cbn [run_op fits_op abs_op] in *.
  - unfold append_to_log. rewrite append_rows_ok by done. unfold append_raft_logs, on_writer, transact.
    rewrite (upsert_rows_ok _ _ _ Hop Hr). eexists. split; [done|]. split; [done|by apply appended_entries|done].
  - unfold delete_conflict_logs_since, delete_raft_logs_since, on_writer, transact.
    rewrite sqlite_i64_fits by done. eexists. split; [done|]. split; [|by apply filter_forall|done].
    cbn. by rewrite Hr, map_filter_fmap.
  - destruct Hop as [Hi [b Hb]]. unfold purge_logs_upto. rewrite Hb.
    unfold purge_raft_logs_upto, on_writer, transact. rewrite sqlite_i64_fits by done.
    eexists. split; [done|]. split; [|by apply filter_forall|].
    + cbn. by rewrite Hr, map_filter_fmap.
    + unfold read_meta. cbn. rewrite lookup_insert_eq. cbn [decode_opt]. by rewrite (sto_decode_encode _ _ Hb).
Qed.

(** The indexes of the log in order, and the entries at them. *)
Definition log_keys (m : gmap Z RaftEntry) : list Z := stable_sort Z.leb (elements (dom m)).

Definition in_bounds (start : Z) (stop : option Z) (i : Z) : bool :=
  (start <=? i) && match stop with Some e => i <? e | None => true end.

Definition entries_in (m : gmap Z RaftEntry) (start : Z) (stop : option Z) : list RaftEntry :=
  omap (λ i, if in_bounds start stop i then m !! i else None) (log_keys m).

Lemma select_log_refines w l start stop :
  refines w l →
  select_log (wr_db w) start stop = (λ e, (row_of e).2) <$> entries_in (al_entries l) start stop.
Proof.
  intros [Hr _ _]. unfold select_log, sorted_log, entries_in, log_keys. rewrite Hr, dom_fmap_L.
  induction (stable_sort Z.leb _) as [|k ks IH]; [done|]. cbn [omap list_omap].
  rewrite lookup_fmap. destruct (al_entries l !! k) as [e|]; cbn [fmap option_fmap option_map].
  - rewrite filter_cons. cbn [fst]. fold (in_bounds start stop k).
    destruct (in_bounds start stop k); case_decide as Hd; [|by destruct Hd|done|exact IH].
    cbn [fmap list_fmap]. f_equal. exact IH.
  - by destruct (in_bounds start stop k).
Qed.

Lemma entries_in_elem l w start stop e :
  refines w l →
  e ∈ entries_in (al_entries l) start stop ↔
  al_entries l !! entry_index e = Some e ∧ in_bounds start stop (entry_index e) = true.
Proof.
  intros [_ He _]. unfold entries_in. rewrite list_elem_of_omap. split.
  - intros (i & _ & Hi). destruct (in_bounds start stop i) eqn:Eb; [|done].
    destruct (He i e Hi) as [-> _]. done.
  - intros [Hm Hb]. exists (entry_index e). rewrite Hb. split; [|done].
    apply stable_sort_elem, elem_of_elements, elem_of_dom. by exists e.
Qed.

Lemma log_keys_sorted m : StronglySorted Z.lt (log_keys m).
Proof.
  assert (Hle : StronglySorted (LeRel Z.leb) (log_keys m)).
  { apply stable_sort_sorted; intros *; rewrite !Z.leb_le; lia. }
  assert (Hnd : NoDup (log_keys m)).
  { unfold log_keys. rewrite <- stable_sort_perm. apply NoDup_elements. }
  induction Hle as [|k ks _ IH Hk]; [constructor|]. apply NoDup_cons in Hnd as [Hn Hnd].
  constructor; [by apply IH|]. rewrite list.Forall_forall in Hk |- *. intros j Hj.
  specialize (Hk j Hj). apply Z.leb_le in Hk. assert (j ≠ k) by (by intros ->). lia.
Qed.

Lemma omap_sorted (f : Z → option RaftEntry) ks :
  (∀ i e, f i = Some e → entry_index e = i) → StronglySorted Z.lt ks →
  StronglySorted Z.lt (entry_index <$> omap f ks).
Proof.
  intros Hf. induction 1 as [|k ks _ IH Hk]; cbn [omap list_omap]; [constructor|].
  destruct (f k) as [e|] eqn:E; [|done]. cbn. constructor; [done|]. rewrite (Hf k e E).
  apply list.Forall_forall. intros i (e' & -> & (j & Hj & Ej)%list_elem_of_omap)%list_elem_of_fmap.
  rewrite (Hf _ _ Ej). rewrite list.Forall_forall in Hk. by apply Hk.
Qed.

Lemma entries_in_sorted w l start stop :
  refines w l → StronglySorted Z.lt (entry_index <$> entries_in (al_entries l) start stop).
Proof.
  intros [_ He _]. apply omap_sorted; [|apply log_keys_sorted].
  intros i e Hi. destruct (in_bounds start stop i); [|done]. by destruct (He i e Hi).
Qed.

Lemma decode_entries_in w l start stop :
  refines w l →
  res_mapM sto_decode (select_log (wr_db w) start stop) = Ok (entries_in (al_entries l) start stop).
Proof.
  intros Hr. rewrite (select_log_refines w l) by done.
  assert (Hes : Forall (λ e, ∃ b, sto_encode e = Ok b) (entries_in (al_entries l) start stop)).
  { apply list.Forall_forall. intros e [Hm _]%(entries_in_elem l w); [|done]. by destruct Hr as [_ He _], (He _ _ Hm). }
  induction Hes as [|e es [b Hb] _ IH]; [done|]. cbn [fmap list_fmap res_mapM]. unfold row_of at 1. cbn [snd]. rewrite Hb.
  rewrite (sto_decode_encode _ _ Hb). cbn [res_bind]. by rewrite IH.
Qed.

Lemma entries_in_empty w l start stop : refines w l → stop <= start → entries_in (al_entries l) start (Some stop) = [].
Proof.
  intros Hr Hs. destruct (entries_in _ _ _) as [|e es] eqn:E; [done|].
  assert (Hin : e ∈ entries_in (al_entries l) start (Some stop)) by (rewrite E; left).
  apply (entries_in_elem l w) in Hin as [_ Hin]; [|done]. unfold in_bounds in Hin.
  apply andb_true_iff in Hin as [H1%Z.leb_le H2%Z.ltb_lt]. lia.
Qed.

Lemma try_get_refines w l lower upper start stop :
  refines w l → range_bounds lower upper = Ok (start, stop) →
  start < 2 ^ 63 → (∀ e, stop = Some e → e < 2 ^ 63) →
  try_get_log_entries w lower upper = Ok (entries_in (al_entries l) start stop).
Proof.
  intros Hr Hb Hs He. unfold try_get_log_entries. rewrite Hb. cbn [res_bind].
  assert (E : ∀ v, v < 2 ^ 63 → sto_i64 v = Ok v).
  { intros v Hv. unfold sto_i64. by rewrite sqlite_i64_fits. }
  destruct stop as [e|].
  - destruct (Z.leb_spec e start) as [Hle|Hlt]; [by rewrite (entries_in_empty w)|].
    rewrite !E by auto. cbn [res_bind]. by apply decode_entries_in.
  - rewrite E by done. cbn [res_bind]. by apply decode_entries_in.
Qed.

Lemma run_ops_refines w l ops :
  Forall fits_op ops → refines w l →
  ∃ w', run_ops w ops = (w', Ok ()) ∧ refines w' (foldl abs_op l ops).
Proof.
  intros Hops. revert w l. induction Hops as [|op ops Hop _ IH]; intros w l Hr; cbn [run_ops foldl]; [by exists w|].
  destruct (run_op_refines w l op Hop Hr) as (w1 & -> & H1). by apply IH.
Qed.

Lemma sorted_last ks k : StronglySorted Z.lt (ks ++ [k]) → Forall (λ i, i < k) ks.
Proof.
  induction ks as [|j ks IH]; cbn; [constructor|]. intros [Hs Hj]%StronglySorted_inv.
  constructor; [|by apply IH]. by apply Forall_app in Hj as [_ [Hj _]%Forall_cons].
Qed.

Lemma log_keys_elem m i : i ∈ log_keys m ↔ i ∈ dom m.
Proof. unfold log_keys. by rewrite stable_sort_elem, elem_of_elements. Qed.

Lemma get_log_state_refines w l :
  refines w l →
  ∃ last, get_log_state (Membership:=Membership) w =
      Ok {| ls_last_purged_log_id := al_purged l; ls_last_log_id := last |} ∧
    ((al_entries l = ∅ ∧ last = al_purged l) ∨
     ∃ e, last = Some (re_log_id e) ∧ al_entries l !! entry_index e = Some e ∧
       ∀ i, i ∈ dom (al_entries l) → i <= entry_index e).
Proof.
  intros [Hr He Hp]. unfold get_log_state. rewrite Hp. cbn [res_bind]. unfold sorted_log. rewrite Hr, dom_fmap_L.
  fold (log_keys (al_entries l)). pose proof (log_keys_sorted (al_entries l)) as Hs.
  pose proof (log_keys_elem (al_entries l)) as Hk.
  destruct (log_keys (al_entries l)) as [|k ks _] using rev_ind.
  { exists (al_purged l). split; [done|]. left. split; [|done]. apply dom_empty_iff_L. set_solver. }
  assert (is_Some (al_entries l !! k)) as [e Ee] by (apply elem_of_dom, Hk; set_solver).
  destruct (He k e Ee) as [Ek [b Hb]]. exists (Some (re_log_id e)). split.
  - rewrite omap_app. cbn [omap list_omap]. rewrite lookup_fmap, Ee. cbn [fmap option_fmap option_map].
    rewrite last_snoc.
    change (decode_opt _) with (res_bind (sto_decode (A:=RaftEntry) (row_of e).2) (λ x, Ok (Some x))).
    unfold row_of. cbn [snd]. by rewrite Hb, (sto_decode_encode _ _ Hb).
  - right. exists e. rewrite Ek. split; [done|]. split; [done|]. intros i Hi%Hk.
    apply sorted_last in Hs. rewrite list.Forall_forall in Hs.
    apply elem_of_app in Hi as [Hi| ->%list_elem_of_singleton]; [|lia]. specialize (Hs i Hi). cbn in Hs. lia.
Qed.

(** C4: The log table implements the abstract log.  From any state that holds
    an abstract log, every sequence of appends, conflict deletions and purges
    succeeds and leaves the log that the same operations give on the map of
    entries; in the state reached, every range read returns exactly the
    entries of the range in increasing order of index, decoded, and
    [get_log_state] returns the last purged id and the id of the entry with
    the largest index, or the last purged id when the log is empty. *)
Theorem raft_log_refinement w l ops (Hops : Forall fits_op ops) (Hw : refines w l) :
  let l' := foldl abs_op l ops in
  ∃ w', run_ops w ops = (w', Ok ()) ∧ refines w' l' ∧
    (∀ lower upper start stop, range_bounds lower upper = Ok (start, stop) → start < 2 ^ 63 →
       (∀ e, stop = Some e → e < 2 ^ 63) →
       ∃ es, try_get_log_entries w' lower upper = Ok es ∧ StronglySorted Z.lt (entry_index <$> es) ∧
         ∀ e, e ∈ es ↔ al_entries l' !! entry_index e = Some e ∧ in_bounds start stop (entry_index e) = true) ∧
    ∃ last, get_log_state (Membership:=Membership) w' =
        Ok {| ls_last_purged_log_id := al_purged l'; ls_last_log_id := last |} ∧
      ((al_entries l' = ∅ ∧ last = al_purged l') ∨
       ∃ e, last = Some (re_log_id e) ∧ al_entries l' !! entry_index e = Some e ∧
         ∀ i, i ∈ dom (al_entries l') → i <= entry_index e).
Proof.
  cbv zeta. destruct (run_ops_refines w l ops Hops Hw) as (w' & E & Hr). exists w'. split; [done|]. split; [done|].
  split; [|by apply get_log_state_refines]. intros lower upper start stop Hb Hs He. eexists. split; [by apply try_get_refines|].
  split; [by apply (entries_in_sorted w')|]. intros e. by apply (entries_in_elem _ w').
Qed.

End Log.

(** ** Snapshots *)

Section Snapshots.
Context {HF : HashFns} {SV : StarkVerifier} {SF : SqliteFiles} {FL : SqliteFilesLaws SF}.
Context {Membership Vote : Type}.
Notation SnapshotMeta := (@SnapshotMeta Membership).
Notation WriteCmd := (@WriteCmd Membership).
Notation StoredMembership := (@StoredMembership Membership).
Context `{CI : CiboriumLaws LogId} `{CM : CiboriumLaws StoredMembership} `{CS : CiboriumLaws SnapshotMeta}
  `{CV : Ciborium Vote}.

Lemma install_snapshot_ok w (meta : SnapshotMeta) image db b :
  wr_attached w = false → open_image image = Opened db → sto_encode meta = Ok b →
  install_snapshot w meta image =
  ({| wr_db := save_raft_meta db "snapshot_meta" (Some b);
      wr_files := delete (installed_snapshot_path (sm_snapshot_id meta)) (wr_files w);
      wr_attached := false |}, Ok ()).
Proof.
  intros Ha Ho Hb. unfold install_snapshot, restore_snapshot. cbn [wr_attached wr_files]. rewrite Ha, lookup_insert_eq, Ho.
  cbn [wr_files]. rewrite delete_insert_eq, Hb. done.
Qed.

Lemma read_snapshot_meta db files attached (meta : SnapshotMeta) b :
  sto_encode meta = Ok b →
  read_meta {| wr_db := save_raft_meta db "snapshot_meta" (Some b); wr_files := files; wr_attached := attached |}
    "snapshot_meta" = Ok (Some meta).
Proof.
  intros Hb. unfold read_meta. cbn [wr_db save_raft_meta raft_meta with_raft_meta]. rewrite lookup_insert_eq.
  cbn [decode_opt]. by rewrite (sto_decode_encode _ _ Hb).
Qed.

(** The metadata of the snapshot that [build_snapshot] takes. *)
Definition built_meta (last : option LogId) (m : StoredMembership) : SnapshotMeta :=
  {| sm_last_log_id := last; sm_last_membership := m; sm_snapshot_id := snapshot_id_of last |}.

(** C20: Snapshot transfer.  When the applied state of a node can be read and
    its metadata stored, [build_snapshot] succeeds and its snapshot can be
    read back on that node; installed on any other node whose writer has no
    snapshot attached, whatever that node held, it gives exactly the tables of
    the first node with the snapshot metadata added, hence the same claims,
    the same UTxOs and the same applied state. *)
Theorem snapshot_transfer w1 w2 last m b
    (Hlast : last_applied_state w1 = Ok (last, m)) (Hb : sto_encode (built_meta last m) = Ok b)
    (Ha : wr_attached w2 = false) :
  let meta := built_meta last m in
  ∃ w1' image w2', build_snapshot w1 = (w1', Ok (meta, image)) ∧
    get_current_snapshot w1' = Ok (Some (meta, image)) ∧
    install_snapshot w2 meta image = (w2', Ok ()) ∧
    wr_db w2' = save_raft_meta (wr_db w1) "snapshot_meta" (Some b) ∧
    wr_db w2' = wr_db w1' ∧ last_applied_state w2' = Ok (last, m).
Proof.
  cbv zeta. unfold build_snapshot. rewrite Hlast. cbn [snapshot sto_write res_map_err res_bind wr_files].
  rewrite lookup_insert_eq. cbn [ok_or]. fold (built_meta last m). rewrite Hb. cbn [res_bind save_meta].
  do 3 eexists. split; [done|]. split.
  { unfold get_current_snapshot. unfold set_db. cbn [wr_db wr_files]. rewrite (read_snapshot_meta _ _ _ _ _ Hb). cbn [res_bind].
    change (sm_snapshot_id (built_meta last m)) with (snapshot_id_of last). by rewrite lookup_insert_eq. }
  split; [apply (install_snapshot_ok _ _ _ _ _ Ha (open_db_image _) Hb)|]. split; [done|]. split; [done|].
  revert Hlast. unfold last_applied_state, read_meta. cbn [wr_db save_raft_meta raft_meta with_raft_meta].
  by rewrite !lookup_insert_ne by done.
Qed.

(** C37: An installed snapshot is lost, and the vote with it.  After every
    successful [install_snapshot] the snapshot metadata names a file that the
    restore has removed, so [get_current_snapshot] fails; and the node's own
    vote is replaced by the one in the image, or by none. *)
Theorem installed_snapshot_lost w (meta : SnapshotMeta) image db b
    (Ha : wr_attached w = false) (Ho : open_image image = Opened db) (Hb : sto_encode meta = Ok b) :
  ∃ w', install_snapshot w meta image = (w', Ok ()) ∧ get_current_snapshot (Membership:=Membership) w' = Err StoRead ∧
    read_vote (Vote:=Vote) w' = decode_opt (raft_meta db !! "vote").
Proof.
  eexists. split; [by apply install_snapshot_ok|]. split.
  - unfold get_current_snapshot. rewrite (read_snapshot_meta _ _ _ _ _ Hb). cbn [res_bind wr_files].
    by rewrite lookup_delete_eq.
  - unfold read_vote, read_meta. cbn [wr_db save_raft_meta raft_meta with_raft_meta]. by rewrite lookup_insert_ne by done.
Qed.

Lemma attached_stays w (cmds : list WriteCmd) :
  wr_attached w = true → wr_attached (run_writer w cmds).1 = true.
Proof.
  revert w. induction cmds as [|cmd cmds IH]; intros w Ha; [done|]. cbn [run_writer].
  destruct (run_command w cmd) as [w1 reply] eqn:E. specialize (IH w1).
  destruct (run_writer w1 cmds) as [w2 rs]. apply IH. clear IH.
  destruct cmd; cbn [run_command] in E; try (by injection E as <- _).
  - unfold restore_snapshot in E. rewrite Ha in E. by injection E as <- _.
  - destruct (apply_raft_entries _ _ _). by injection E as <- _.
Qed.

(** A failed restore blocks all later ones.  After [restore_snapshot] of a
    file that does not exist, [snapshot_db] stays attached: whatever commands
    follow, every later restore and every later snapshot installation fails,
    even of a valid image. *)
Theorem failed_restore_blocks w path (Hp : wr_files w !! path = None) :
  let w1 := (restore_snapshot w path).1 in
  ∀ cmds : list WriteCmd, let w' := (run_writer w1 cmds).1 in
  (∀ path', restore_snapshot w' path' = (w', Err LeSqlite)) ∧
  (∀ (meta : SnapshotMeta) image, (install_snapshot w' meta image).2 = Err StoWrite).
Proof.
  cbv zeta. intros cmds.
  assert (Hr : wr_attached (restore_snapshot w path).1 = true).
  { unfold restore_snapshot. destruct (wr_attached w) eqn:Ha; [done|]. by rewrite Hp. }
  pose proof (attached_stays _ cmds Hr) as Hs. revert Hs. generalize (run_writer (restore_snapshot w path).1 cmds).1.
  intros w' Ha. split.
  - intros path'. unfold restore_snapshot. by rewrite Ha.
  - intros meta image. unfold install_snapshot, restore_snapshot. cbn [wr_attached]. by rewrite Ha.
Qed.

End Snapshots.
