(* ===== verification/Recovery.v ===== *)
(** * Crashes and recovery

    What a node finds after a crash while it applies raft entries.
    [apply_raft_entries] in [omega-mock-ledger/src/writer.rs] commits each
    claim in a transaction of its own, the index of the entry after it, and
    the membership of the batch at the end, each by itself; SQLite keeps a
    prefix of these commits.  openraft then applies the entries after the last
    applied one again.  The claims survive this, the membership does not. *)

From S2P Require Import Prelude Hash Tree ClaimTx ClaimTxSpec Prover Verifier VerifierSpec.
From S2P Require Import Ledger Storage LedgerSpec StorageSpec.
From Stdlib Require Import ZArith Lia List String Sorted.
From stdpp Require Import base decidable strings gmap list.

Local Open Scope Z_scope.

Section Recovery.
Context {HF : HashFns} {SV : StarkVerifier} {Membership : Type}.
Notation RaftEntry := (@RaftEntry Membership).
Context `{CL : Ciborium LogId} `{CM : Ciborium (@StoredMembership Membership)}.

(** The databases that the loop over the entries commits, in order: after
    the claim of an entry, and after its index. *)
Fixpoint entry_commits (db : Db) (entries : list RaftEntry) : list Db :=
  match entries with
  | [] => []
  | entry :: entries' =>
      match apply_entry db (re_payload entry) with
      | (db, Ok _) =>
          db ::
          match into_writer (re_log_id entry) with
          | None => []
          | Some last_applied =>
              let db := save_raft_meta db "last_applied_log_id" (Some last_applied) in
              db :: entry_commits db entries'
          end
      | (db, _) => [db]
      end
  end.

(** The databases that [apply_raft_entries] commits, the first one included. *)
Definition batch_commits (db : Db) (entries : list RaftEntry) (last_membership : option bytes) : list Db :=
  db :: entry_commits db entries ++
  match apply_entries db entries, last_membership with
  | (db, Ok _), Some m => [save_raft_meta db "last_membership" (Some m)]
  | _, _ => []
  end.

(** A new process on the database that a crash left. *)
Definition restart (w : Writer) (db : Db) : Writer :=
  {| wr_db := db; wr_files := wr_files w; wr_attached := false |}.

(** What openraft applies again: the entries of the log after the last
    applied one. *)
Definition unapplied (last : option LogId) (log : list RaftEntry) : list RaftEntry :=
  match last with
  | None => log
  | Some id => filter (λ e, li_index id < entry_index e) log
  end.

Definition recover (w : Writer) (log : list RaftEntry) : Writer * result (list LedgerResponse) StorageError :=
  match read_meta w "last_applied_log_id" with
  | Ok last => apply_to_state_machine w (unapplied last log)
  | Err e => (w, Err e)
  | Panic => (w, Panic)
  end.

(** ** The commits are those of the code *)

Lemma entry_commits_last db es : last (db :: entry_commits db es) = Some (apply_entries db es).1.
Proof.
  revert db. induction es as [|e es IH]; intros db; cbn [entry_commits apply_entries]; [done|].
  destruct (apply_entry db (re_payload e)) as [db1 [r| |]]; [|done..]. destruct (into_writer _) as [b|]; [|done].
  specialize (IH (save_raft_meta db1 "last_applied_log_id" (Some b))).
  destruct (apply_entries _ es) as [db2 rest]. exact IH.
Qed.

Lemma batch_commits_last db es m : last (batch_commits db es m) = Some (apply_raft_entries db es m).1.
Proof.
  unfold batch_commits, apply_raft_entries. rewrite app_comm_cons. pose proof (entry_commits_last db es) as H.
  destruct (apply_entries db es) as [db' [rs| |]], m as [m|]; try (rewrite app_nil_r; exact H). apply last_snoc.
Qed.

(** A crash comes between two entries, or between the claim of an entry and
    its index, or after the batch. *)
Lemma entry_commits_split db es d :
  d ∈ db :: entry_commits db es →
  (∃ p q, es = p ++ q ∧ is_ok (apply_entries db p).2 = true ∧ d = (apply_entries db p).1) ∨
  (∃ p e q, es = p ++ e :: q ∧ is_ok (apply_entries db p).2 = true ∧
     d = (apply_entry (apply_entries db p).1 (re_payload e)).1).
Proof.
  revert db. induction es as [|e es IH]; intros db; cbn [entry_commits].
  { intros ->%list_elem_of_singleton. left. by exists [], []. }
  intros [->|Hd]%elem_of_cons; [left; by exists [], (e :: es)|].
  destruct (apply_entry db (re_payload e)) as [db1 [r| |]] eqn:E.
  2,3: apply list_elem_of_singleton in Hd as ->; right; exists [], e, es; cbn; by rewrite E.
  apply elem_of_cons in Hd as [->|Hd]; [right; exists [], e, es; cbn; by rewrite E|].
  destruct (into_writer (re_log_id e)) as [b|] eqn:Eb; [|by apply elem_of_nil in Hd].
  assert (Hp : ∀ p, let db2 := save_raft_meta db1 "last_applied_log_id" (Some b) in
    (apply_entries db (e :: p)).1 = (apply_entries db2 p).1 ∧ is_ok (apply_entries db (e :: p)).2 = is_ok (apply_entries db2 p).2).
  { intros p. cbv zeta. cbn [apply_entries]. rewrite E, Eb. by destruct (apply_entries _ p) as [? [| |]]. }
  destruct (IH _ Hd) as [(p & q & -> & Ho & ->)|(p & e' & q & -> & Ho & ->)].
  - left. exists (e :: p), q. destruct (Hp p) as [-> ->]. done.
  - right. exists (e :: p), e', q. destruct (Hp p) as [-> ->]. done.
Qed.

(** ** Applying an entry again *)

Lemma applied_keys db block_idx claim k :
  k ∈ claim_keys claim → is_Some (nullifiers (applied db block_idx claim) !! k).
Proof.
  intros Hk. cbn. rewrite lookup_union_is_Some. left.
  destruct (list_to_map _ !! k) eqn:E; [by eexists|]. apply not_elem_of_list_to_map in E.
  destruct E. rewrite <- list_fmap_compose. by apply list_elem_of_fmap; exists k.
Qed.

Lemma applied_nothing db block_idx claim : claim_keys claim = [] → applied db block_idx claim = db.
Proof.
  unfold claim_keys, applied, inserted. destruct (claim_publics claim); [|done]. intros _. cbn.
  rewrite !(left_id_L ∅ (∪)). by destruct db.
Qed.

(** A claim that has been applied is rejected, and nothing changes. *)
Lemma apply_claim_again db b c claim db' r : apply_claim_tx db b c claim = (db', r) → (apply_claim_tx db' b c claim).1 = db'.
Proof.
  intros E. destruct (apply_claim_tx db' b c claim) as [db2 r2] eqn:E2.
  destruct (apply_claim_tx_cases _ _ _ _ _ _ E2) as [(_ & (_ & _ & _ & (_ & _ & _ & Hf & _)) & ->)|(_ & _ & ->)]; [|done].
  destruct (apply_claim_tx_cases _ _ _ _ _ _ E) as [(_ & _ & ->)|(Hr & Hn & ->)]; cbn [fst].
  - apply applied_nothing. destruct (claim_keys claim) as [|k ks] eqn:Ek; [done|].
    destruct (applied_keys db b claim k) as [x Hx]; [rewrite Ek; left|]. rewrite list.Forall_forall in Hf.
    rewrite (Hf k) in Hx; [done|]. fold (claim_keys claim). rewrite Ek. left.
  - rewrite E in E2. by injection E2.
Qed.

Context {HL : HashLaws HF} (log_id_encodes : ∀ id : LogId, is_Some (into_writer id)).

Lemma apply_entry_again db (e : RaftEntry) db' r :
  wf_entry e → apply_entry db (re_payload e) = (db', r) → (apply_entry db' (re_payload e)).1 = db'.
Proof.
  intros He E. unfold apply_entry in *. destruct (re_payload e) as [|command|m]; [done| |done].
  destruct (apply_claim_tx db _ _ _) as [db1 r1] eqn:E1. apply apply_claim_again in E1 as H.
  assert (db1 = db') as -> by (destruct r1 as [[]| |]; by injection E).
  by destruct (apply_claim_tx db' _ _ _) as [db2 [[]| |]].
Qed.

Lemma apply_entries_again db (e : RaftEntry) q d r :
  wf_entry e → apply_entry db (re_payload e) = (d, r) → (apply_entries d (e :: q)).1 = (apply_entries db (e :: q)).1.
Proof.
  intros He E. pose proof (apply_entry_again _ _ _ _ He E) as Ha. cbn [apply_entries].
  destruct (apply_entry_claims (Membership:=Membership) db e He) as (d1 & r1 & E1 & _). rewrite E in E1. injection E1 as -> ->.
  destruct (apply_entry_claims (Membership:=Membership) d1 e He) as (d2 & r2 & E2 & _).
  rewrite E2 in Ha |- *. cbn in Ha. subst d2. rewrite E. destruct (into_writer _); [|done].
  by destruct (apply_entries _ q).
Qed.

(** ** What the next process reads *)

Lemma apply_entry_raft_meta db (p : @EntryPayload Membership) : raft_meta (apply_entry db p).1 = raft_meta db.
Proof.
  unfold apply_entry. destruct p as [|command|m]; [done| |done].
  pose proof (apply_claim_tx_keeps_meta db (lc_block_idx command) (lc_commitment command) (lc_claim command)) as H.
  by destruct (apply_claim_tx db _ _ _) as [db2 [[]| |]].
Qed.

Lemma apply_entries_raft_meta db (p : list RaftEntry) d rs :
  apply_entries db p = (d, Ok rs) →
  match last p with
  | None => raft_meta d = raft_meta db
  | Some e => ∃ b, into_writer (re_log_id e) = Some b ∧ raft_meta d = <["last_applied_log_id" := b]> (raft_meta db)
  end.
Proof.
  revert db rs. induction p as [|e p IH]; intros db rs; cbn [apply_entries]; [by intros [= <- _]|].
  destruct (apply_entry db (re_payload e)) as [db1 [r| |]] eqn:E1; [|done..].
  pose proof (apply_entry_raft_meta db (re_payload e)) as Hm. rewrite E1 in Hm. cbn [fst] in Hm.
  destruct (into_writer (re_log_id e)) as [b|] eqn:Eb; [|done].
  destruct (apply_entries _ p) as [db2 [rs2| |]] eqn:E2; cbn [res_bind]; [|done..]. intros [= <- _].
  apply IH in E2. cbn [save_raft_meta raft_meta with_raft_meta] in E2. rewrite Hm in E2.
  rewrite last_cons. destruct (last p) as [e'|].
  - destruct E2 as (b' & Eb' & ->). exists b'. split; [done|]. by rewrite insert_insert_eq.
  - by exists b.
Qed.

(** The database without the stored membership. *)
Definition forget (db : Db) : Db := save_raft_meta db "last_membership" None.

Lemma forget_save db m : forget (save_membership db m) = forget db.
Proof. destruct m as [b|]; [|done]. unfold forget. cbn. by rewrite delete_insert_eq. Qed.

Definition is_after (last : option LogId) (e : RaftEntry) : Prop :=
  match last with Some id => li_index id < entry_index e | None => True end.

Lemma filter_all {A} (P : A → Prop) `{∀ x, Decision (P x)} l : Forall P l → filter P l = l.
Proof. induction 1 as [|x l Hx _ IH]; [done|]. rewrite filter_cons_True by done. by rewrite IH. Qed.

Lemma filter_none {A} (P : A → Prop) `{∀ x, Decision (P x)} l : Forall (λ x, ¬ P x) l → filter P l = [].
Proof. induction 1 as [|x l Hx _ IH]; [done|]. by rewrite filter_cons_False. Qed.

Lemma unapplied_all last es : Forall (is_after last) es → unapplied last es = es.
Proof. intros H. destruct last as [id|]; [|done]. by apply filter_all. Qed.

(** The entries after the last one of a prefix. *)
Lemma unapplied_prefix p e q :
  StronglySorted Z.lt (entry_index <$> (p ++ [e]) ++ q) → unapplied (Some (re_log_id e)) ((p ++ [e]) ++ q) = q.
Proof.
  intros Hs. unfold unapplied. rewrite filter_app.
  assert (Hp : ∀ p', StronglySorted Z.lt (entry_index <$> (p' ++ [e]) ++ q) →
    Forall (λ x, ¬ li_index (re_log_id e) < entry_index x) (p' ++ [e]) ∧ Forall (λ x, li_index (re_log_id e) < entry_index x) q).
  { induction p' as [|x p' IH]; cbn; intros H; apply StronglySorted_inv in H as [H Hx].
    - split; [constructor; [unfold entry_index; lia|constructor]|]. exact (proj1 (Forall_fmap _ _ _) Hx).
    - destruct (IH H) as [H1 H2]. split; [|done]. constructor; [|done].
      rewrite list.Forall_forall in Hx. specialize (Hx (entry_index e)). unfold entry_index in *.
      enough (li_index (re_log_id x) < li_index (re_log_id e)) by lia. apply Hx.
      apply list_elem_of_fmap. exists e. split; [done|]. rewrite !elem_of_app. left. right. left. }
  destruct (Hp p Hs) as [H1 H2]. by rewrite filter_none, filter_all by done.
Qed.

(** Committed entries that follow the last applied one. *)
Definition next_entries (w : Writer) (es : list RaftEntry) : Prop :=
  Forall storable_entry es ∧ Forall (λ e, ∃ b, sto_encode (re_log_id e) = Ok b) es ∧
  StronglySorted Z.lt (entry_index <$> es) ∧
  ∃ last, read_meta w "last_applied_log_id" = Ok last ∧ Forall (is_after last) es.

Context {CLL : CiboriumLaws LogId}.

(** The next process finds the prefix that was applied. *)
Lemma read_last w p q D rs d :
  next_entries w (p ++ q) → apply_entries (wr_db w) p = (D, Ok rs) →
  raft_meta d !! "last_applied_log_id" = raft_meta D !! "last_applied_log_id" →
  ∃ last, read_meta (restart w d) "last_applied_log_id" = Ok last ∧ unapplied last (p ++ q) = q.
Proof.
  intros (_ & Hids & Hs & last0 & Hl & Haf) E Em. apply apply_entries_raft_meta in E. unfold read_meta in *.
  cbn [wr_db restart]. rewrite Em. destruct p as [|e p _] using rev_ind.
  { cbn [last] in E. rewrite E. exists last0. split; [done|]. by apply unapplied_all. }
  rewrite last_snoc in E. destruct E as (b & Eb & ->). rewrite lookup_insert_eq. cbn [decode_opt].
  rewrite !Forall_app, Forall_singleton in Hids. destruct Hids as [[_ [b' Eb']] _].
  assert (b' = b) as -> by (unfold sto_encode in Eb'; rewrite Eb in Eb'; cbn in Eb'; destruct (_ <=? _); naive_solver).
  rewrite (sto_decode_encode _ _ Eb'). eexists. split; [done|]. by apply unapplied_prefix.
Qed.

Lemma apply_to_state_machine_eq w es :
  Forall storable_entry es →
  ∃ m rs, batch_membership es None = Ok m ∧ apply_entries (wr_db w) es = ((apply_entries (wr_db w) es).1, Ok rs) ∧
    apply_to_state_machine w es = (set_db w (save_membership (apply_entries (wr_db w) es).1 m), Ok rs).
Proof.
  intros H. destruct (batch_membership_ok es None H) as [m Em].
  assert (Hwf : Forall wf_entry es) by (eapply list.Forall_impl; [exact H|]; by intros ? [? _]).
  destruct (apply_entries_claims log_id_encodes (wr_db w) es Hwf) as (db & rs & E & _).
  exists m, rs. split; [done|]. rewrite E. split; [done|]. unfold apply_to_state_machine, apply_raft_entries.
  rewrite Em, E. by destruct m.
Qed.

Lemma recover_from w p q D rs d :
  next_entries w (p ++ q) → apply_entries (wr_db w) p = (D, Ok rs) →
  raft_meta d !! "last_applied_log_id" = raft_meta D !! "last_applied_log_id" →
  forget (apply_entries d q).1 = forget (apply_entries (wr_db w) (p ++ q)).1 →
  ∃ w1 rs1 w2 rs2, apply_to_state_machine w (p ++ q) = (w1, Ok rs1) ∧ recover (restart w d) (p ++ q) = (w2, Ok rs2) ∧
    forget (wr_db w1) = forget (wr_db w2).
Proof.
  intros Hn E Em Hf. destruct (read_last w p q D rs d Hn E Em) as (last & Hr & Hu). destruct Hn as (Hs & _).
  destruct (apply_to_state_machine_eq w (p ++ q) Hs) as (m1 & rs1 & _ & _ & E1).
  apply Forall_app in Hs as [_ Hs]. destruct (apply_to_state_machine_eq (restart w d) q Hs) as (m2 & rs2 & _ & _ & E2).
  eexists _, rs1, _, rs2. split; [exact E1|]. unfold recover. rewrite Hr, Hu. split; [exact E2|].
  cbn [wr_db set_db restart]. by rewrite !forget_save.
Qed.

(** C7: The claims survive a crash.  Whenever the node crashes while it applies
    a batch of entries, and openraft then applies the entries after the last
    applied one again, the recovery succeeds and ends with the tables, the
    last applied entry and all other raft metadata of a run without a crash,
    the stored membership apart: an entry that is applied a second time is
    rejected as a replay. *)
Theorem crash_recovery w (es : list RaftEntry) m d
    (Hn : next_entries w es) (Hm : batch_membership es None = Ok m) (Hd : d ∈ batch_commits (wr_db w) es m) :
  ∃ w1 rs1 w2 rs2, apply_to_state_machine w es = (w1, Ok rs1) ∧ recover (restart w d) es = (w2, Ok rs2) ∧
    forget (wr_db w1) = forget (wr_db w2).
Proof.
  unfold batch_commits in Hd. rewrite app_comm_cons in Hd. apply elem_of_app in Hd as [Hd|Hd].
  - apply entry_commits_split in Hd as [(p & q & -> & Ho & ->)|(p & e & q & -> & Ho & ->)];
      destruct (apply_entries (wr_db w) p) as [D [rs| |]] eqn:E; try done; cbn [fst];
      apply (recover_from w p _ D rs _ Hn E); rewrite ?(apply_entries_app _ _ _ _ _ E); try done.
    + by rewrite apply_entry_raft_meta.
    + destruct Hn as (Hs & _). apply Forall_app in Hs as [_ [[He _] _]%Forall_cons].
      destruct (apply_entry D (re_payload e)) as [d r] eqn:Ee. cbn [fst]. by rewrite (apply_entries_again D e q d r).
  - destruct (apply_to_state_machine_eq w es (proj1 Hn)) as (m' & rs & _ & E & _). rewrite E in Hd.
    destruct m as [b|]; [|by apply elem_of_nil in Hd]. apply list_elem_of_singleton in Hd as ->.
    pose proof (recover_from w es [] (apply_entries (wr_db w) es).1 rs (save_membership (apply_entries (wr_db w) es).1 (Some b))) as H.
    rewrite !app_nil_r in H. apply (H Hn E); [cbn; by rewrite lookup_insert_ne|apply forget_save].
Qed.

Context {CML : CiboriumLaws (@StoredMembership Membership)}.

Lemma batch_membership_last (p : list RaftEntry) e m q b :
  re_payload e = MembershipChange m → Forall (λ x, ∀ m', re_payload x ≠ MembershipChange m') q → Forall storable_entry p →
  sto_encode (Some (re_log_id e, m) : StoredMembership) = Ok b → batch_membership (p ++ e :: q) None = Ok (Some b).
Proof.
  intros He Hq Hp Hb. rewrite batch_membership_app. destruct (batch_membership_ok p None Hp) as [m1 ->].
  cbn [res_bind batch_membership]. rewrite He, Hb. cbn [res_bind].
  induction Hq as [|x q Hx _ IH]; [done|]. cbn [batch_membership]. destruct (re_payload x) as [| |m']; [done..|]. by destruct (Hx m').
Qed.

(** After a batch the last entry is the last applied one. *)
Lemma batch_last w es D rs :
  next_entries w es → es ≠ [] → apply_entries (wr_db w) es = (D, Ok rs) →
  ∃ id b, decode_opt (Some b) = Ok (Some id : option LogId) ∧ raft_meta D = <["last_applied_log_id" := b]> (raft_meta (wr_db w)).
Proof.
  intros (_ & Hids & _) Hne E. apply apply_entries_raft_meta in E. destruct (last es) as [x|] eqn:El;
    [|by apply last_None in El]. destruct E as (b & Eb & HD). exists (re_log_id x), b. split; [|done].
  rewrite list.Forall_forall in Hids. destruct (Hids x) as [b' Eb']; [by apply last_Some_elem_of|].
  apply sto_encode_ok in Eb' as Hok. destruct Hok as [Hw _]. rewrite Eb in Hw. injection Hw as <-.
  cbn [decode_opt]. by rewrite (sto_decode_encode _ _ Eb').
Qed.

(** C36: A crash can lose a membership change.  When the last membership change
    of a batch is committed, a run without a crash stores it.  After a crash
    between the last index and the membership, the entries count as applied
    and openraft applies none of them again: the recovered node reports the
    same last applied entry with the membership from before the batch. *)
Theorem membership_lost w (p q : list RaftEntry) e m b last old
    (He : re_payload e = MembershipChange m) (Hq : Forall (λ x, ∀ m', re_payload x ≠ MembershipChange m') q)
    (Hb : sto_encode (Some (re_log_id e, m) : StoredMembership) = Ok b)
    (Hn : next_entries w (p ++ e :: q)) (Hold : last_applied_state w = Ok (last, old)) :
  let es := p ++ e :: q in
  let d := (apply_entries (wr_db w) es).1 in
  ∃ id w1 rs1 w2, d ∈ batch_commits (wr_db w) es (Some b) ∧
    apply_to_state_machine w es = (w1, Ok rs1) ∧ last_applied_state w1 = Ok (Some id, Some (re_log_id e, m)) ∧
    recover (restart w d) es = (w2, Ok []) ∧ last_applied_state w2 = Ok (Some id, old).
Proof.
  cbv zeta. set (es := p ++ e :: q) in *. assert (Hne : es ≠ []) by (unfold es; by destruct p).
  destruct (apply_to_state_machine_eq w es (proj1 Hn)) as (m' & rs & Em & E & E1).
  set (D := (apply_entries (wr_db w) es).1) in *. destruct (batch_last w es D rs Hn Hne E) as (id & bl & Hid & HD).
  unfold es in Em. rewrite (batch_membership_last p e m q b He Hq) in Em; [|exact (proj1 (proj1 (Forall_app _ _ _) (proj1 Hn)))|done].
  injection Em as <-. eexists id, _, rs, _. split.
  { unfold batch_commits. rewrite app_comm_cons. apply elem_of_app. left. apply last_Some_elem_of, entry_commits_last. }
  split; [exact E1|]. pose proof (read_last w es [] D rs D) as Hr. rewrite app_nil_r in Hr.
  destruct (Hr Hn E eq_refl) as (last' & Hl & Hu).
  unfold last_applied_state, read_meta in *. cbn [wr_db set_db save_membership save_raft_meta raft_meta with_raft_meta].
  pose proof (sto_decode_encode (A:=@StoredMembership Membership) _ _ Hb) as Hdec. unfold StoredMembership in Hdec. split.
  { rewrite lookup_insert_ne, HD, !lookup_insert_eq by done. rewrite Hid. cbn [res_bind decode_opt]. by rewrite Hdec. }
  split; [unfold recover, read_meta; rewrite Hl, Hu; reflexivity|].
  cbn [wr_db set_db restart]. rewrite HD, lookup_insert_eq, lookup_insert_ne, Hid by done. cbn [res_bind].
  apply res_bind_ok in Hold as (? & _ & Hold). apply res_bind_ok in Hold as (om & Hom & Hold). rewrite Hom. cbn [res_bind].
  by injection Hold as _ <-.
Qed.

End Recovery.
