(* ===== verification/Actor.v ===== *)
(** * The writer's channel

    [WriterHandle] and the loop of [run_writer] in
    [omega-mock-ledger/src/writer.rs], with callers that run concurrently.  A
    call sends its command over a bounded channel, waiting for room, and then
    waits for its reply; a caller may be dropped at any point.  The writer's
    thread serves the queue in order; it ends when a command panics, or when
    every handle is gone and the queue is empty.  Steps of callers and writer
    interleave freely: a run is a list of [Event]s.

    The channel does not depend on what the commands do, so the state and the
    execution of a command are parameters here; [ActorSpec.v] takes the ledger. *)

From S2P Require Import Prelude Hash Tree ClaimTx Prover Verifier Ledger.
From Stdlib Require Import ZArith Lia List.
From stdpp Require Import base decidable gmap list.

Local Open Scope Z_scope.

Definition WRITER_CHANNEL_CAPACITY : nat := 256.

Section Actor.
Context {St Cmd Rep : Type}.
Context (exec : St → Cmd → St * Rep) (panics : Rep → bool).

(** A call of a method of [WriterHandle]: waiting to send, waiting for the
    reply, returned, or dropped by its caller. *)
Inductive CallState : Type :=
| Sending (cmd : Cmd)
| Waiting
| Returned (r : result Rep LedgerError)
| Dropped.

Record Actor := {
  ac_state : St;
  ac_alive : bool;
  ac_handles : bool;
  ac_queue : list (nat * Cmd);
  ac_calls : gmap nat CallState
}.

Inductive Event : Type :=
| Call (i : nat) (cmd : Cmd)
| Send (i : nat)
| Serve
| Drop (i : nat)
| DropHandles
| Finish.

(** [WriterHandle::start]. *)
Definition new_actor (s : St) : Actor :=
  {| ac_state := s; ac_alive := true; ac_handles := true; ac_queue := []; ac_calls := ∅ |}.

Definition set_calls (a : Actor) (calls : gmap nat CallState) : Actor :=
  {| ac_state := ac_state a; ac_alive := ac_alive a; ac_handles := ac_handles a;
     ac_queue := ac_queue a; ac_calls := calls |}.

Definition pending (c : CallState) : bool :=
  match c with Sending _ | Waiting => true | Returned _ | Dropped => false end.

(** [let _ = reply.send(r)], or the drop of the reply channel: a caller that
    is gone is not told. *)
Definition answer (r : result Rep LedgerError) (calls : gmap nat CallState) (i : nat) : gmap nat CallState :=
  match calls !! i with
  | Some Waiting => <[i := Returned r]> calls
  | _ => calls
  end.

Definition start_call (a : Actor) (i : nat) (cmd : Cmd) : option Actor :=
  if ac_handles a then
    match ac_calls a !! i with
    | None => Some (set_calls a (<[i := Sending cmd]> (ac_calls a)))
    | Some _ => None
    end
  else None.

(** [self.tx.send(cmd).await]. *)
Definition send_cmd (a : Actor) (i : nat) : option Actor :=
  match ac_calls a !! i with
  | Some (Sending cmd) =>
      if ac_alive a then
        if (length (ac_queue a) <? WRITER_CHANNEL_CAPACITY)%nat then
          Some {| ac_state := ac_state a; ac_alive := true; ac_handles := ac_handles a;
                  ac_queue := ac_queue a ++ [(i, cmd)]; ac_calls := <[i := Waiting]> (ac_calls a) |}
        else None
      else Some (set_calls a (<[i := Returned (Err LeWriterClosed)]> (ac_calls a)))
  | _ => None
  end.

(** One round of the loop of [run_writer].  A panic ends the thread and drops
    the receiver, with the reply channels of everything in the queue. *)
Definition serve (a : Actor) : option Actor :=
  match ac_alive a, ac_queue a with
  | true, (i, cmd) :: queue =>
      let '(s, r) := exec (ac_state a) cmd in
      Some (if panics r then
        {| ac_state := s; ac_alive := false; ac_handles := ac_handles a; ac_queue := [];
           ac_calls := foldl (answer (Err LeWriterReplyCanceled)) (ac_calls a) (ac_queue a).*1 |}
      else
        {| ac_state := s; ac_alive := true; ac_handles := ac_handles a; ac_queue := queue;
           ac_calls := answer (Ok r) (ac_calls a) i |})
  | _, _ => None
  end.

Definition drop_call (a : Actor) (i : nat) : option Actor :=
  match ac_calls a !! i with
  | Some c => if pending c then Some (set_calls a (<[i := Dropped]> (ac_calls a))) else None
  | None => None
  end.

(** The last handle goes; a pending call borrows one. *)
Definition drop_handles (a : Actor) : option Actor :=
  if ac_handles a && bool_decide (map_Forall (λ _ c, pending c = false) (ac_calls a)) then
    Some {| ac_state := ac_state a; ac_alive := ac_alive a; ac_handles := false;
            ac_queue := ac_queue a; ac_calls := ac_calls a |}
  else None.

(** [blocking_recv] returns [None]. *)
Definition finish (a : Actor) : option Actor :=
  match ac_alive a, ac_handles a, ac_queue a with
  | true, false, [] =>
      Some {| ac_state := ac_state a; ac_alive := false; ac_handles := false; ac_queue := [];
              ac_calls := ac_calls a |}
  | _, _, _ => None
  end.

Definition actor_step (a : Actor) (e : Event) : option Actor :=
  match e with
  | Call i cmd => start_call a i cmd
  | Send i => send_cmd a i
  | Serve => serve a
  | Drop i => drop_call a i
  | DropHandles => drop_handles a
  | Finish => finish a
  end.

Fixpoint actor_run (a : Actor) (es : list Event) : option Actor :=
  match es with
  | [] => Some a
  | e :: es' => a' ← actor_step a e; actor_run a' es'
  end.

(** ** What a run did *)

(** The command a step puts into the channel. *)
Definition sent_by (a : Actor) (e : Event) : list (nat * Cmd) :=
  match e with
  | Send i => match ac_calls a !! i with
              | Some (Sending cmd) => if ac_alive a then [(i, cmd)] else []
              | _ => []
              end
  | _ => []
  end.

(** The command a step executes, with its reply. *)
Definition served_by (a : Actor) (e : Event) : list (nat * Cmd * Rep) :=
  match e, ac_queue a with
  | Serve, (i, cmd) :: _ => [(i, cmd, (exec (ac_state a) cmd).2)]
  | _, _ => []
  end.

Fixpoint sent (a : Actor) (es : list Event) : list (nat * Cmd) :=
  match es with
  | [] => []
  | e :: es' => sent_by a e ++ match actor_step a e with Some a' => sent a' es' | None => [] end
  end.

Fixpoint served (a : Actor) (es : list Event) : list (nat * Cmd * Rep) :=
  match es with
  | [] => []
  | e :: es' => served_by a e ++ match actor_step a e with Some a' => served a' es' | None => [] end
  end.

(** The commands one after the other. *)
Fixpoint serial (s : St) (cmds : list Cmd) : St * list Rep :=
  match cmds with
  | [] => (s, [])
  | cmd :: cmds' =>
      let '(s, r) := exec s cmd in
      let '(s, rs) := serial s cmds' in
      (s, r :: rs)
  end.

End Actor.

Arguments Sending {_ _} _.
Arguments Waiting {_ _}.
Arguments Returned {_ _} _.
Arguments Dropped {_ _}.
Arguments Call {_} _ _.
Arguments Send {_} _.
Arguments Serve {_}.
Arguments Drop {_} _.
Arguments DropHandles {_}.
Arguments Finish {_}.
