(* ===== verification/ActorSpec.v ===== *)
(** * Specification of the writer's channel

    Whatever the interleaving of callers and writer, the commands are executed
    one after the other in the order they entered the channel, a caller gets
    the reply to its own command, and without new calls every schedule ends
    with every call answered.  With the ledger behind the channel: the writer
    does not stop by itself, and concurrent claims take each leaf once. *)

From S2P Require Import Prelude Hash Tree ClaimTx Prover Verifier VerifierSpec Ledger Storage LedgerSpec Actor.
From Stdlib Require Import ZArith Lia List String.
From stdpp Require Import base decidable strings gmap list.

Local Open Scope Z_scope.

Section Channel.
Context {St Cmd Rep : Type}.
Context (exec : St → Cmd → St * Rep) (panics : Rep → bool).

Abbreviation Actor := (@Actor St Cmd Rep).
Abbreviation Event := (@Event Cmd).
Abbreviation step := (actor_step exec panics).
Abbreviation run := (actor_run exec panics).

(** ** Well-formed channels *)

(** Whether a call may be in the queue. *)
Definition queued (c : option (@CallState Cmd Rep)) : Prop :=
  match c with Some Waiting | Some Dropped => True | _ => False end.

Record wf_actor (a : Actor) : Prop := {
  wa_bound : (length (ac_queue a) <= WRITER_CHANNEL_CAPACITY)%nat;
  wa_nodup : NoDup (ac_queue a).*1;
  wa_queued i : i ∈ (ac_queue a).*1 → queued (ac_calls a !! i);
  wa_waiting i : ac_calls a !! i = Some Waiting → i ∈ (ac_queue a).*1;
  wa_closed : ac_alive a = false → ac_queue a = []
}.

Lemma new_actor_wf s : wf_actor (new_actor s).
Proof. split; cbn; [lia|constructor|set_solver|done|done]. Qed.

Lemma answer_lookup (r : result Rep LedgerError) calls i j :
  answer (Cmd:=Cmd) r calls i !! j =
  if decide (i = j) then match calls !! j with Some Waiting => Some (Returned r) | c => c end else calls !! j.
Proof.
  unfold answer. case_decide as Hij; [subst j|].
  - destruct (calls !! i) as [[| | |]|] eqn:E; by rewrite ?lookup_insert_eq, ?E.
  - destruct (calls !! i) as [[| | |]|]; try done. by rewrite lookup_insert_ne.
Qed.

Lemma answers_lookup (r : result Rep LedgerError) calls l j :
  foldl (answer (Cmd:=Cmd) r) calls l !! j =
  if decide (j ∈ l) then match calls !! j with Some Waiting => Some (Returned r) | c => c end else calls !! j.
Proof.
  revert calls. induction l as [|i l IH]; intros calls; cbn [foldl]; [done|].
  rewrite IH, answer_lookup. destruct (decide (i = j)) as [->|].
  - rewrite (decide_True (P := j ∈ j :: l)) by set_solver.
    destruct (calls !! j) as [[]|]; by case_decide.
  - destruct (decide (j ∈ l)), (decide (j ∈ i :: l)); set_solver.
Qed.

(** The steps as rules, one for each outcome. *)
Inductive steps (a : Actor) : Event → Actor → Prop :=
| st_call i cmd : ac_calls a !! i = None → ac_handles a = true →
    steps a (Call i cmd) (set_calls a (<[i := Sending cmd]> (ac_calls a)))
| st_send i cmd : ac_calls a !! i = Some (Sending cmd) → ac_alive a = true →
    (length (ac_queue a) < WRITER_CHANNEL_CAPACITY)%nat →
    steps a (Send i) {| ac_state := ac_state a; ac_alive := true; ac_handles := ac_handles a;
                        ac_queue := ac_queue a ++ [(i, cmd)]; ac_calls := <[i := Waiting]> (ac_calls a) |}
| st_closed i cmd : ac_calls a !! i = Some (Sending cmd) → ac_alive a = false →
    steps a (Send i) (set_calls a (<[i := Returned (Err LeWriterClosed)]> (ac_calls a)))
| st_serve i cmd q s r : ac_alive a = true → ac_queue a = (i, cmd) :: q → exec (ac_state a) cmd = (s, r) → panics r = false →
    steps a Serve {| ac_state := s; ac_alive := true; ac_handles := ac_handles a; ac_queue := q;
                     ac_calls := answer (Ok r) (ac_calls a) i |}
| st_panic i cmd q s r : ac_alive a = true → ac_queue a = (i, cmd) :: q → exec (ac_state a) cmd = (s, r) → panics r = true →
    steps a Serve {| ac_state := s; ac_alive := false; ac_handles := ac_handles a; ac_queue := [];
                     ac_calls := foldl (answer (Err LeWriterReplyCanceled)) (ac_calls a) (ac_queue a).*1 |}
| st_drop i c : ac_calls a !! i = Some c → pending c = true →
    steps a (Drop i) (set_calls a (<[i := Dropped]> (ac_calls a)))
| st_handles : ac_handles a = true → map_Forall (λ _ c, pending c = false) (ac_calls a) →
    steps a DropHandles {| ac_state := ac_state a; ac_alive := ac_alive a; ac_handles := false;
                           ac_queue := ac_queue a; ac_calls := ac_calls a |}
| st_finish : ac_alive a = true → ac_queue a = [] → ac_handles a = false →
    steps a Finish {| ac_state := ac_state a; ac_alive := false; ac_handles := false; ac_queue := [];
                      ac_calls := ac_calls a |}.

Lemma step_steps a e a' : step a e = Some a' → steps a e a'.
Proof.
  destruct e as [i cmd|i| |i| |]; cbn [actor_step]; intros E.
  - unfold start_call in E. destruct (ac_handles a) eqn:Eh, (ac_calls a !! i) eqn:Ei; try done.
    apply (inj Some) in E as <-. by constructor.
  - unfold send_cmd in E. destruct (ac_calls a !! i) as [[]|] eqn:Ei; try done. destruct (ac_alive a) eqn:Ea.
    + destruct (Nat.ltb_spec (length (ac_queue a)) WRITER_CHANNEL_CAPACITY); [|done]. apply (inj Some) in E as <-. by constructor.
    + apply (inj Some) in E as <-. by econstructor.
  - unfold serve in E. destruct (ac_alive a) eqn:Ea; [|done]. destruct (ac_queue a) as [|[i cmd] q] eqn:Eq; [done|].
    destruct (exec (ac_state a) cmd) as [s r] eqn:Ex. apply (inj Some) in E as <-. rewrite <- Eq.
    destruct (panics r) eqn:Ep; by econstructor.
  - unfold drop_call in E. destruct (ac_calls a !! i) as [c|] eqn:Ei; [|done]. destruct (pending c) eqn:Ec; [|done].
    apply (inj Some) in E as <-. by econstructor.
  - unfold drop_handles in E. destruct (ac_handles a) eqn:Eh; [|done]. cbn in E. case_bool_decide; [|done].
    apply (inj Some) in E as <-. by constructor.
  - unfold finish in E. destruct (ac_alive a) eqn:Ea, (ac_handles a) eqn:Eh, (ac_queue a) eqn:Eq; try done.
    apply (inj Some) in E as <-. by constructor.
Qed.

(** A change of a call that is not in the queue, to a state that does not
    wait, or a drop. *)
Lemma set_call_wf a i (c : CallState) :
  wf_actor a → ((i ∉ (ac_queue a).*1) ∧ c ≠ Waiting) ∨ c = Dropped →
  wf_actor (set_calls a (<[i := c]> (ac_calls a))).
Proof.
  intros [Hb Hn Hq Hw Hc] Hi. split; cbn; try done.
  - intros j Hj. destruct (decide (i = j)) as [->|]; [|rewrite lookup_insert_ne by done; by apply Hq].
    rewrite lookup_insert_eq. destruct Hi as [[? _]| ->]; done.
  - intros j. destruct (decide (i = j)) as [->|]; [|rewrite lookup_insert_ne by done; apply Hw].
    rewrite lookup_insert_eq. destruct Hi as [[_ ?]| ->]; intros [=]; done.
Qed.

Lemma not_queued a i c :
  wf_actor a → ac_calls a !! i = c → ¬ queued c → i ∉ (ac_queue a).*1.
Proof. intros Hw <- Hc Hi. by apply Hc, Hw. Qed.

Lemma send_wf a i cmd :
  wf_actor a → ac_calls a !! i = Some (Sending cmd) → (length (ac_queue a) < WRITER_CHANNEL_CAPACITY)%nat →
  wf_actor {| ac_state := ac_state a; ac_alive := true; ac_handles := ac_handles a;
              ac_queue := ac_queue a ++ [(i, cmd)]; ac_calls := <[i := Waiting]> (ac_calls a) |}.
Proof.
  intros Hw Ei Hl. pose proof (not_queued a i _ Hw Ei id) as Hi.
  destruct Hw as [Hb Hn Hq Hw Hc]. split; cbn [ac_queue ac_calls ac_alive]; [| | | |done].
  - rewrite length_app. cbn. lia.
  - rewrite fmap_app. apply NoDup_app. split; [done|]. split; [|apply NoDup_singleton]. cbn. set_solver.
  - intros j. rewrite fmap_app, elem_of_app. destruct (decide (i = j)) as [->|]; [by rewrite lookup_insert_eq|].
    rewrite lookup_insert_ne by done. intros [Hj|Hj]; [by apply Hq|]. cbn in Hj. set_solver.
  - intros j. rewrite fmap_app, elem_of_app. destruct (decide (i = j)) as [->|]; [intros _; right; cbn; set_solver|].
    rewrite lookup_insert_ne by done. intros Hj. left. by apply Hw.
Qed.

Lemma step_wf a e a' : wf_actor a → step a e = Some a' → wf_actor a'.
Proof.
  intros Hw E%step_steps. destruct E as [i cmd Ei|i cmd Ei Ea Hl|i cmd Ei Ea|i cmd q s r Ea Eq|i cmd q s r Ea Eq|i c Ei Ec| |Ea Eq].
  - apply set_call_wf; [done|]. left. split; [|done]. exact (not_queued a i _ Hw Ei id).
  - by apply send_wf.
  - apply set_call_wf; [done|]. left. split; [|done]. exact (not_queued a i _ Hw Ei id).
  - destruct Hw as [Hb Hn Hq Hw Hc]. rewrite Eq in *. cbn in Hb, Hn. apply NoDup_cons in Hn as [Hi Hn].
    split; cbn [ac_queue ac_calls ac_alive]; [lia|done| | |done].
    + intros j Hj. rewrite answer_lookup, decide_False by (by intros ->). apply Hq. cbn. set_solver.
    + intros j. rewrite answer_lookup. case_decide as Hij; [by destruct (ac_calls a !! j) as [[]|]|].
      intros Ej%Hw. cbn in Ej. set_solver.
  - split; cbn [ac_queue ac_calls ac_alive]; [cbn; lia|constructor|cbn; set_solver| |done].
    intros j. rewrite answers_lookup. case_decide as Hj; [by destruct (ac_calls a !! j) as [[]|]|].
    intros Ej. by apply (wa_waiting a Hw) in Ej.
  - apply set_call_wf; [done|by right].
  - by destruct Hw.
  - destruct Hw as [Hb Hn Hq Hw Hc]. rewrite Eq in *. by split.
Qed.

Lemma run_wf a es a' : wf_actor a → run a es = Some a' → wf_actor a'.
Proof.
  revert a. induction es as [|e es IH]; intros a Hw; cbn [actor_run]; [by intros [= <-]|].
  destruct (step a e) as [a1|] eqn:E; [|done]. cbn. apply IH. by eapply step_wf.
Qed.

(** ** Serialisation *)

(** What a step does to the channel: it stays as it is but for what is sent
    and served, unless the writer goes. *)
Lemma step_queue a e a' : wf_actor a → step a e = Some a' →
  ∃ lost, ac_queue a ++ sent_by a e = (served_by exec a e).*1 ++ ac_queue a' ++ lost ∧
    (ac_alive a' = true → lost = []) ∧ (ac_alive a = false → sent_by a e = [] ∧ served_by exec a e = [] ∧ ac_alive a' = false).
Proof.
  intros _ E%step_steps. destruct E as [i cmd Ei|i cmd Ei Ea Hl|i cmd Ei Ea|i cmd q s r Ea Eq|i cmd q s r Ea Eq|i c Ei Ec| |Ea Eq];
    cbn [sent_by served_by ac_queue ac_alive set_calls fmap list_fmap];
    rewrite ?Ei, ?Ea, ?Eq; first [exists []; by rewrite ?app_nil_r | exists q; by rewrite ?app_nil_r].
Qed.

Lemma step_state a e a' : step a e = Some a' →
  serial exec (ac_state a) (served_by exec a e).*1.*2 = (ac_state a', (served_by exec a e).*2).
Proof.
  intros E%step_steps. destruct E as [| | |i cmd q s r Ea Eq Ex|i cmd q s r Ea Eq Ex| | |]; try done;
    cbn [served_by]; rewrite Eq; cbn; by rewrite Ex.
Qed.

Lemma serial_app s l1 l2 s1 r1 s2 r2 :
  serial exec s l1 = (s1, r1) → serial exec s1 l2 = (s2, r2) → serial exec s (l1 ++ l2) = (s2, r1 ++ r2).
Proof.
  revert s r1. induction l1 as [|c l1 IH]; intros s r1; cbn; [by intros [= -> <-]|].
  destruct (exec s c) as [s' r]. destruct (serial exec s' l1) as [s'' rs] eqn:E. intros [= -> <-] H2.
  by rewrite (IH s' rs E H2).
Qed.

Lemma run_serial a es a' : run a es = Some a' →
  serial exec (ac_state a) (served exec panics a es).*1.*2 = (ac_state a', (served exec panics a es).*2).
Proof.
  revert a. induction es as [|e es IH]; intros a; cbn [actor_run served]; [by intros [= <-]|].
  destruct (step a e) as [a1|] eqn:E; [|done]. cbn. intros H. rewrite !fmap_app.
  eapply serial_app; [by apply step_state|by apply IH].
Qed.

(** Once the writer is gone nothing is sent or served. *)
Lemma closed_run a es a' : wf_actor a → ac_alive a = false → run a es = Some a' →
  sent exec panics a es = [] ∧ served exec panics a es = [] ∧ ac_queue a' = [] ∧ ac_alive a' = false.
Proof.
  revert a. induction es as [|e es IH]; intros a Hw Ha; cbn [actor_run sent served].
  { intros [= <-]. by rewrite (wa_closed a Hw Ha). }
  destruct (step a e) as [a1|] eqn:E; [|done]. cbn. destruct (step_queue a e a1 Hw E) as (_ & _ & _ & Hc).
  destruct (Hc Ha) as (-> & -> & Ha1). apply IH; [by eapply step_wf|done].
Qed.

Lemma run_queue a es a' : wf_actor a → run a es = Some a' →
  ∃ lost, ac_queue a ++ sent exec panics a es = (served exec panics a es).*1 ++ ac_queue a' ++ lost ∧
    (ac_alive a' = true → lost = []).
Proof.
  revert a. induction es as [|e es IH]; intros a Hw; cbn [actor_run sent served].
  { intros [= <-]. exists []. by rewrite !app_nil_r. }
  destruct (step a e) as [a1|] eqn:E; [|done]. cbn. intros H. pose proof (step_wf _ _ _ Hw E) as Hw1.
  destruct (step_queue a e a1 Hw E) as (lost & Hq & Hl & _). rewrite app_assoc, Hq, fmap_app, <- !app_assoc.
  destruct (ac_alive a1) eqn:Ea.
  - rewrite Hl by done. destruct (IH a1 Hw1 H) as (lost' & Hq' & Hl'). exists lost'. split; [|done]. rewrite app_nil_l. by rewrite Hq', <- app_assoc.
  - destruct (closed_run a1 es a' Hw1 Ea H) as (-> & -> & -> & Ha'). exists (ac_queue a1 ++ lost). split; [|congruence].
    by rewrite fmap_nil, !app_nil_r.
Qed.

(** ** Calls *)

(** How a step changes a call. *)
Inductive moves : option (@CallState Cmd Rep) → option (@CallState Cmd Rep) → Prop :=
| moves_refl c : moves c c
| moves_call cmd : moves None (Some (Sending cmd))
| moves_send cmd : moves (Some (Sending cmd)) (Some Waiting)
| moves_closed cmd : moves (Some (Sending cmd)) (Some (Returned (Err LeWriterClosed)))
| moves_drop c : pending c = true → moves (Some c) (Some Dropped)
| moves_reply r : moves (Some Waiting) (Some (Returned (Ok r)))
| moves_cancel : moves (Some Waiting) (Some (Returned (Err LeWriterReplyCanceled))).

#[local] Hint Constructors moves : core.

Lemma insert_moves (calls : gmap nat (@CallState Cmd Rep)) i c j :
  moves (calls !! i) (Some c) → moves (calls !! j) (<[i := c]> calls !! j).
Proof.
  intros H. destruct (decide (i = j)) as [->|]; [by rewrite lookup_insert_eq|by rewrite lookup_insert_ne].
Qed.

Lemma step_moves a e a' j : step a e = Some a' → moves (ac_calls a !! j) (ac_calls a' !! j).
Proof.
  intros E%step_steps. destruct E as [i cmd Ei|i cmd Ei|i cmd Ei|i cmd q s r|i cmd q s r|i c Ei| |]; cbn [ac_calls set_calls];
    try (apply insert_moves; rewrite Ei); auto.
  - rewrite answer_lookup. case_decide; [|done]. destruct (ac_calls a !! j) as [[]|]; auto.
  - rewrite answers_lookup. case_decide; [|done]. destruct (ac_calls a !! j) as [[]|]; auto.
Qed.

(** A property of a call that no step takes away holds to the end. *)
Lemma run_stable (P : option (@CallState Cmd Rep) → Prop) a es a' j :
  (∀ c c', moves c c' → P c → P c') → run a es = Some a' → P (ac_calls a !! j) → P (ac_calls a' !! j).
Proof.
  intros HP. revert a. induction es as [|e es IH]; intros a; cbn [actor_run]; [by intros [= <-]|].
  destruct (step a e) as [a1|] eqn:E; [|done]. cbn. intros H Hj. apply (IH a1 H), (HP _ _ (step_moves _ _ _ j E) Hj).
Qed.

(** A call whose command has entered the channel. *)
Definition entered (c : option (@CallState Cmd Rep)) : Prop :=
  match c with
  | Some Waiting | Some Dropped | Some (Returned (Ok _)) | Some (Returned (Err LeWriterReplyCanceled)) => True
  | _ => False
  end.

Lemma entered_stable c c' : moves c c' → entered c → entered c'.
Proof. by destruct 1. Qed.

Lemma sent_by_inv a e i cmd a' : (i, cmd) ∈ sent_by a e → step a e = Some a' →
  e = Send i ∧ ac_calls a !! i = Some (Sending cmd) ∧ ac_calls a' !! i = Some Waiting.
Proof.
  destruct e as [?|j| | | |]; cbn [sent_by actor_step]; try set_solver.
  destruct (ac_calls a !! j) as [[cmd'| | |]|] eqn:Ej; try set_solver. destruct (ac_alive a) eqn:Ea; [|set_solver].
  intros [= -> ->]%list_elem_of_singleton. unfold send_cmd. rewrite Ej, Ea. destruct (_ <? _)%nat; [|done].
  intros [= <-]. cbn. by rewrite lookup_insert_eq.
Qed.

Lemma sent_entered a es a' i cmd : run a es = Some a' → (i, cmd) ∈ sent exec panics a es → entered (ac_calls a' !! i).
Proof.
  revert a. induction es as [|e es IH]; intros a; cbn [actor_run sent]; [set_solver|].
  destruct (step a e) as [a1|] eqn:E; [|done]. cbn. intros H. rewrite elem_of_app. intros [Hs|Hs]; [|by apply (IH a1)].
  destruct (sent_by_inv _ _ _ _ _ Hs E) as (_ & _ & Ew). apply (run_stable entered a1 es a' i entered_stable H). by rewrite Ew.
Qed.

Lemma step_new a e a' i : step a e = Some a' → ac_calls a !! i = None →
  ac_calls a' !! i = None ∨ ∃ cmd, e = Call i cmd ∧ ac_calls a' !! i = Some (Sending cmd).
Proof.
  intros E%step_steps Hi. destruct E as [j cmd Ej|j cmd Ej|j cmd Ej|j cmd q s r|j cmd q s r|j c Ej| |]; cbn [ac_calls set_calls];
    try (left; rewrite lookup_insert_ne; [done|congruence]); try by left.
  - destruct (decide (j = i)) as [->|]; [right; exists cmd; by rewrite lookup_insert_eq|left; by rewrite lookup_insert_ne].
  - left. rewrite answer_lookup, Hi. by case_decide.
  - left. rewrite answers_lookup, Hi. by case_decide.
Qed.

(** A command is sent by a call that was made with it, before or in the run. *)
Lemma sent_called a es a' i cmd : run a es = Some a' → (i, cmd) ∈ sent exec panics a es →
  ac_calls a !! i = Some (Sending cmd) ∨ (ac_calls a !! i = None ∧ Call i cmd ∈ es).
Proof.
  revert a. induction es as [|e es IH]; intros a; cbn [actor_run sent]; [set_solver|].
  destruct (step a e) as [a1|] eqn:E; [|done]. cbn. intros H. rewrite elem_of_app. intros [Hs|Hs].
  { left. by apply (sent_by_inv _ _ _ _ _ Hs E). }
  pose proof (step_moves _ _ _ i E) as Hm. destruct (ac_calls a !! i) as [c|] eqn:Ei.
  - left. destruct (IH a1 H Hs) as [Hi|[Hi _]]; rewrite Hi in Hm; by inversion Hm.
  - right. split; [done|]. destruct (step_new _ _ _ _ E Ei) as [Hn|(cmd' & -> & Hn)];
      destruct (IH a1 H Hs) as [Hi|[Hi Hc]]; try congruence; [by right|].
    assert (cmd' = cmd) as -> by congruence. by left.
Qed.

(** A call sends at most once. *)
Lemma sent_nodup a es a' : run a es = Some a' → NoDup (sent exec panics a es).*1.
Proof.
  revert a. induction es as [|e es IH]; intros a; cbn [actor_run sent]; [constructor|].
  destruct (step a e) as [a1|] eqn:E; [|done]. cbn. intros H. rewrite fmap_app. apply NoDup_app. split; [|split; [|by apply IH]].
  - destruct e as [?|j| | | |]; cbn [sent_by]; try constructor. destruct (ac_calls a !! j) as [[]|]; try constructor.
    destruct (ac_alive a); [apply NoDup_singleton|constructor].
  - intros i ([i' cmd] & -> & Hi)%list_elem_of_fmap ([i'' cmd'] & Heq & Hi')%list_elem_of_fmap. cbn in Heq. subst i''.
    destruct (sent_by_inv _ _ _ _ _ Hi E) as (_ & _ & Ew). by destruct (sent_called _ _ _ _ _ H Hi') as [|[? _]]; congruence.
Qed.

(** ** Replies *)

(** The reply of a served command reaches its call, if it is still there. *)
Definition replied (r : Rep) (c : option (@CallState Cmd Rep)) : Prop :=
  c = Some Dropped ∨ c = Some (Returned (if panics r then Err LeWriterReplyCanceled else Ok r)).

Lemma replied_stable r c c' : moves c c' → replied r c → replied r c'.
Proof. intros H [-> | ->]; inversion H; subst; by (left; done) || (right; done). Qed.

Lemma serve_replies a a' i cmd r : wf_actor a → step a Serve = Some a' → (i, cmd, r) ∈ served_by exec a Serve →
  replied r (ac_calls a' !! i).
Proof.
  intros Hw E%step_steps. cbn [served_by]. assert (Hq : ∀ j c q, ac_queue a = (j, c) :: q → queued (ac_calls a !! j)).
  { intros j c q Eq. apply (wa_queued a Hw). rewrite Eq. cbn. set_solver. }
  inversion E as [| | |j c q s r' _ Eq Ex Ep|j c q s r' _ Eq Ex Ep| | |]; subst; specialize (Hq _ _ _ Eq); rewrite Eq;
    intros [= -> -> ->]%list_elem_of_singleton; rewrite Ex in *; cbn [snd ac_calls] in *; unfold replied; rewrite Ep.
  - rewrite answer_lookup, decide_True by done. destruct (ac_calls a !! j) as [[]|]; naive_solver.
  - rewrite answers_lookup, decide_True by (cbn; set_solver). destruct (ac_calls a !! j) as [[]|]; naive_solver.
Qed.

Lemma served_replied a es a' i cmd r : wf_actor a → run a es = Some a' → (i, cmd, r) ∈ served exec panics a es →
  replied r (ac_calls a' !! i).
Proof.
  revert a. induction es as [|e es IH]; intros a Hw; cbn [actor_run served]; [set_solver|].
  destruct (step a e) as [a1|] eqn:E; [|done]. cbn. intros H. rewrite elem_of_app.
  intros [Hs|Hs]; [|by apply (IH a1); [eapply step_wf|..]].
  assert (e = Serve) as -> by (destruct e; cbn [served_by] in Hs; try done; destruct (ac_queue a); set_solver).
  apply (run_stable _ a1 es a' i (replied_stable r) H). by apply (serve_replies a a1 i cmd).
Qed.

Lemma serve_gives a e a' i r : step a e = Some a' → ac_calls a' !! i = Some (Returned (Ok r)) →
  ac_calls a !! i = Some (Returned (Ok r)) ∨ ∃ cmd, (i, cmd, r) ∈ served_by exec a e.
Proof.
  assert (Hins : ∀ j c, c ≠ Returned (Ok r) → <[j := c]> (ac_calls a) !! i = Some (Returned (Ok r)) →
    ac_calls a !! i = Some (Returned (Ok r))).
  { intros j c Hc. destruct (decide (j = i)) as [->|]; [rewrite lookup_insert_eq; congruence|by rewrite lookup_insert_ne]. }
  intros E%step_steps. destruct E as [j cmd|j cmd|j cmd|j cmd q s r' _ Eq Ex|j cmd q s r'|j c| |]; cbn [ac_calls set_calls served_by];
    try (intros Hi; left; by eapply Hins, Hi); try by left.
  - rewrite answer_lookup. case_decide as Hji; [|by left]. destruct (ac_calls a !! i) as [[]|]; try done; [|by left].
    intros [= ->]. right. exists cmd. rewrite Eq, Ex. subst j. set_solver.
  - rewrite answers_lookup. case_decide; [|by left]. destruct (ac_calls a !! i) as [[]|]; try done. by left.
Qed.

(** A call that returned a reply was served it. *)
Lemma returned_served a es a' i r : run a es = Some a' → ac_calls a' !! i = Some (Returned (Ok r)) →
  ac_calls a !! i = Some (Returned (Ok r)) ∨ ∃ cmd, (i, cmd, r) ∈ served exec panics a es.
Proof.
  revert a. induction es as [|e es IH]; intros a; cbn [actor_run served]; [by intros [= <-]; left|].
  destruct (step a e) as [a1|] eqn:E; [|done]. cbn. intros H Hi.
  destruct (IH a1 H Hi) as [Hi1|(cmd & Hs)]; [|right; exists cmd; set_solver].
  destruct (serve_gives a e a1 i r E Hi1) as [|(cmd & Hs)]; [by left|]. right. exists cmd. set_solver.
Qed.

(** The errors a call can return. *)
Definition channel_outcome (c : option (@CallState Cmd Rep)) : Prop :=
  match c with
  | Some (Returned (Err LeWriterClosed)) | Some (Returned (Err LeWriterReplyCanceled)) | Some (Returned (Ok _)) => True
  | Some (Returned _) => False
  | _ => True
  end.

Lemma channel_outcome_stable c c' : moves c c' → channel_outcome c → channel_outcome c'.
Proof. by destruct 1. Qed.

(** C12: The channel serialises its callers.  Whatever the interleaving of
    calls, sends, drops and the writer, the commands are executed one after
    the other in the order in which they entered the channel, every one at
    most once, as the command of a call that was made; a call returns the
    reply to its own command.  A call that is told that the writer is closed
    has not had its command executed; one that is told that the reply was
    dropped has not had it executed without a panic. *)
Theorem actor_serializes s es a (Hr : run (new_actor s) es = Some a) :
  let sv := served exec panics (new_actor s) es in
  let st := sent exec panics (new_actor s) es in
  serial exec s sv.*1.*2 = (ac_state a, sv.*2) ∧
  sv.*1 `prefix_of` st ∧ (ac_alive a = true → st = sv.*1 ++ ac_queue a) ∧
  NoDup st.*1 ∧ (∀ i cmd, (i, cmd) ∈ st → Call i cmd ∈ es) ∧
  ∀ i, match ac_calls a !! i with
       | Some (Returned (Ok r)) => ∃ cmd, (i, cmd, r) ∈ sv
       | Some (Returned (Err LeWriterClosed)) => i ∉ st.*1
       | Some (Returned (Err LeWriterReplyCanceled)) => ∀ cmd r, (i, cmd, r) ∈ sv → panics r = true
       | Some (Returned _) => False
       | _ => True
       end.
Proof.
  cbv zeta. pose proof (new_actor_wf s) as Hw. destruct (run_queue _ _ _ Hw Hr) as (lost & Hq & Hl). cbn [new_actor ac_queue app] in Hq.
  split; [exact (run_serial _ _ _ Hr)|]. split; [rewrite Hq; by eexists|].
  split; [intros Ha; rewrite Hq, Hl, app_nil_r by done; done|]. split; [by eapply sent_nodup|].
  split; [intros i cmd Hi; by destruct (sent_called _ _ _ _ _ Hr Hi) as [|[_ ?]]|].
  intros i. pose proof (run_stable channel_outcome _ _ _ i channel_outcome_stable Hr I) as Ho.
  destruct (ac_calls a !! i) as [[| |[r|[]|]|]|] eqn:Ei; try done.
  - by destruct (returned_served _ _ _ _ _ Hr Ei).
  - intros ([i' cmd] & -> & Hi)%list_elem_of_fmap. apply (sent_entered _ _ _ _ _ Hr) in Hi. cbn [fst] in Ei. by rewrite Ei in Hi.
  - intros cmd r Hi. destruct (served_replied _ _ _ _ _ _ Hw Hr Hi) as [E|E]; rewrite Ei in E; [done|].
    by destruct (panics r).
Qed.

Lemma run_app a es1 es2 a1 a2 : run a es1 = Some a1 → run a1 es2 = Some a2 → run a (es1 ++ es2) = Some a2.
Proof.
  revert a. induction es1 as [|e es1 IH]; intros a; cbn [actor_run app]; [by intros [= ->]|].
  destruct (step a e) as [a'|]; [|done]. cbn. apply IH.
Qed.

(** What a new actor executes was called. *)
Lemma served_called s es a i cmd r :
  run (new_actor s) es = Some a → (i, cmd, r) ∈ served exec panics (new_actor s) es → Call i cmd ∈ es.
Proof.
  intros Hr Hi. destruct (run_queue _ _ _ (new_actor_wf s) Hr) as (lost & Hq & _). cbn [new_actor ac_queue app] in Hq.
  assert (Hst : (i, cmd) ∈ sent exec panics (new_actor s) es).
  { rewrite Hq. apply elem_of_app. left. apply list_elem_of_fmap. by exists (i, cmd, r). }
  by destruct (sent_called _ _ _ _ _ Hr Hst) as [|[_ ?]].
Qed.

Lemma served_app a es1 es2 a1 : run a es1 = Some a1 →
  served exec panics a (es1 ++ es2) = served exec panics a es1 ++ served exec panics a1 es2.
Proof.
  revert a. induction es1 as [|e es1 IH]; intros a; cbn [actor_run served app]; [by intros [= ->]|].
  destruct (step a e) as [a'|]; [|done]. cbn. intros H. by rewrite (IH a' H), app_assoc.
Qed.

(** Real-time order: a call that returned before another one was made was
    executed before it. *)
Theorem actor_real_time s es1 es2 a1 a2 i j r
    (H1 : run (new_actor s) es1 = Some a1) (H2 : run a1 es2 = Some a2)
    (Hi : ac_calls a1 !! i = Some (Returned (Ok r))) (Hj : ac_calls a1 !! j = None) :
  ∃ l1 l2, served exec panics (new_actor s) (es1 ++ es2) = l1 ++ l2 ∧ (i ∈ l1.*1.*1) ∧ (j ∉ l1.*1.*1).
Proof.
  eexists _, _. split; [by apply served_app|]. split.
  - destruct (returned_served _ _ _ _ _ H1 Hi) as [|[cmd Hc]]; [done|].
    apply list_elem_of_fmap. exists (i, cmd). split; [done|]. apply list_elem_of_fmap. by exists (i, cmd, r).
  - intros (p & -> & Hp)%list_elem_of_fmap. apply list_elem_of_fmap in Hp as ([[j' cmd] r'] & -> & Hc).
    destruct (served_replied _ _ _ _ _ _ (new_actor_wf s) H1 Hc) as [E|E]; cbn in Hj; congruence.
Qed.

(** A call is made once. *)
Lemma call_known a es a' i cmd : run a es = Some a' → Call i cmd ∈ es → ac_calls a !! i = None.
Proof.
  revert a. induction es as [|e es IH]; intros a; cbn [actor_run]; [set_solver|].
  destruct (step a e) as [a1|] eqn:E; [|done]. cbn. intros H [<-|Hi]%elem_of_cons.
  - apply step_steps in E. by inversion E.
  - specialize (IH a1 H Hi). pose proof (step_moves _ _ _ i E) as Hm. rewrite IH in Hm. by inversion Hm.
Qed.

Lemma call_unique a es a' i c1 c2 : run a es = Some a' → Call i c1 ∈ es → Call i c2 ∈ es → c1 = c2.
Proof.
  revert a. induction es as [|e es IH]; intros a; cbn [actor_run]; [set_solver|].
  destruct (step a e) as [a1|] eqn:E; [|done]. cbn. intros H.
  assert (Hk : ∀ c c', e = Call i c → Call i c' ∈ es → False).
  { intros c c' -> Hc'. apply (call_known _ _ _ _ _ H) in Hc'. apply step_steps in E. inversion E; subst. cbn in Hc'.
    by rewrite lookup_insert_eq in Hc'. }
  intros [H1|H1]%elem_of_cons [H2|H2]%elem_of_cons; [congruence|by destruct (Hk c1 c2)|by destruct (Hk c2 c1)|by apply (IH a1)].
Qed.

(** Executing one after the other, a reply is that of its command in the
    state the commands before it leave. *)
Lemma serial_split s l1 c l2 s' rs :
  serial exec s (l1 ++ c :: l2) = (s', rs) →
  rs !! length l1 = Some (exec (serial exec s l1).1 c).2.
Proof.
  revert s rs. induction l1 as [|c1 l1 IH]; intros s rs; cbn [app serial length fst].
  - destruct (exec s c) as [s1 r], (serial exec s1 l2) as [s2 rs']. by intros [= <- <-].
  - destruct (exec s c1) as [s1 r], (serial exec s1 (l1 ++ c :: l2)) as [s2 rs'] eqn:E. intros [= <- <-].
    specialize (IH s1 rs' E). destruct (serial exec s1 l1). exact IH.
Qed.

Lemma served_reply a es a' i cmd r : run a es = Some a' → (i, cmd, r) ∈ served exec panics a es →
  ∃ l1 l2, served exec panics a es = l1 ++ (i, cmd, r) :: l2 ∧ r = (exec (serial exec (ac_state a) l1.*1.*2).1 cmd).2.
Proof.
  intros H (l1 & l2 & E)%list_elem_of_split. exists l1, l2. split; [done|].
  pose proof (run_serial _ _ _ H) as Hs. rewrite E, !fmap_app, !fmap_cons in Hs. cbn [fst snd] in Hs.
  apply serial_split in Hs. rewrite lookup_app_r, !length_fmap, Nat.sub_diag in Hs by (rewrite !length_fmap; lia). by injection Hs.
Qed.

(** ** Liveness *)

Definition call_weight (c : @CallState Cmd Rep) : nat :=
  match c with Sending _ => 3 | Waiting => 1 | _ => 0 end.

Definition calls_weight (calls : gmap nat (@CallState Cmd Rep)) : nat :=
  map_fold (λ _ c n, (call_weight c + n)%nat) 0%nat calls.

(** What is left to do without new calls. *)
Definition work (a : Actor) : nat :=
  (calls_weight (ac_calls a) + length (ac_queue a) + (if ac_alive a then 1 else 0) + (if ac_handles a then 1 else 0))%nat.

Lemma calls_weight_delete calls i c : calls !! i = Some c →
  calls_weight calls = (call_weight c + calls_weight (delete i calls))%nat.
Proof. intros Hi. unfold calls_weight. apply (map_fold_delete_L (λ _ c n, (call_weight c + n)%nat)); [intros; lia|done]. Qed.

Lemma calls_weight_insert calls i c c' : calls !! i = Some c →
  (calls_weight (<[i := c']> calls) + call_weight c = calls_weight calls + call_weight c')%nat.
Proof.
  intros Hi. rewrite (calls_weight_delete _ _ _ Hi), (calls_weight_delete (<[i := c']> calls) i c') by by rewrite lookup_insert_eq.
  rewrite delete_insert_eq. lia.
Qed.

Lemma answer_weight r calls i : (calls_weight (answer r calls i) <= calls_weight calls)%nat.
Proof.
  unfold answer. destruct (calls !! i) as [[]|] eqn:E; try done.
  pose proof (calls_weight_insert calls i _ (Returned r) E). cbn in *. lia.
Qed.

Lemma answers_weight r calls l : (calls_weight (foldl (answer r) calls l) <= calls_weight calls)%nat.
Proof.
  revert calls. induction l as [|i l IH]; intros calls; cbn; [done|]. etrans; [apply IH|apply answer_weight].
Qed.

Definition is_call (e : Event) : bool := match e with Call _ _ => true | _ => false end.

Lemma step_work a e a' : step a e = Some a' → is_call e = false → (work a' < work a)%nat.
Proof.
  intros E%step_steps. destruct E as [i cmd Ei|i cmd Ei Ea Hl|i cmd Ei Ea|i cmd q s r Ea Eq|i cmd q s r Ea Eq|i c Ei Ec|Eh|Ea Eq];
    intros Hc; try done; unfold work; cbn [ac_calls ac_queue ac_alive ac_handles set_calls].
  - pose proof (calls_weight_insert _ i _ Waiting Ei). rewrite length_app, Ea. cbn in *. lia.
  - pose proof (calls_weight_insert _ i _ (Returned (Err LeWriterClosed)) Ei). cbn in *. lia.
  - pose proof (answer_weight (Ok r) (ac_calls a) i). rewrite Eq, Ea. cbn. lia.
  - pose proof (answers_weight (Err LeWriterReplyCanceled) (ac_calls a) (ac_queue a).*1). rewrite Ea. cbn [length]. lia.
  - pose proof (calls_weight_insert _ i _ Dropped Ei). destruct c; cbn in *; try done; lia.
  - rewrite Eh. lia.
  - rewrite Ea, Eq. cbn. destruct (ac_handles a); lia.
Qed.


End Channel.

(** ** The ledger behind the channel *)

(** Whether executing a command panicked. *)
Definition reply_panics (r : WriteReply) : bool :=
  match r with ReplyUnit Panic | ReplyPath Panic | ReplyResponses Panic => true | _ => false end.

Section Ledger.
Context {HF : HashFns} {SV : StarkVerifier} {SF : SqliteFiles} {Membership : Type} `{CL : Ciborium LogId}.
Context {HL : HashLaws HF}.
Notation WriteCmd := (@WriteCmd Membership).

Lemma run_writer_serial w (cmds : list WriteCmd) : serial run_command w cmds = run_writer w cmds.
Proof. revert w. induction cmds as [|c cmds IH]; intros w; cbn; [done|]. destruct (run_command w c). by rewrite IH. Qed.

Lemma transact_returns db body : body ≠ Panic → (transact db body).2 ≠ Panic.
Proof. by destruct body. Qed.

Lemma apply_entries_returns db es : Forall wf_entry es → (apply_entries (Membership:=Membership) db es).2 ≠ Panic.
Proof.
  intros Hes. revert db. induction Hes as [|e es He _ IH]; intros db; cbn [apply_entries]; [done|].
  destruct (apply_entry db (re_payload e)) as [db1 r] eqn:E.
  assert (Hr : ∃ x, r = Ok x).
  { unfold apply_entry in E. unfold wf_entry in He. destruct (re_payload e) as [|cmd|]; try (injection E as <- <-; eauto).
    destruct He as (Hc & Ht & _). pose proof (apply_claim_body_returns HL db (lc_block_idx cmd) _ _ Hc Ht) as Hp.
    unfold apply_claim_tx, transact in E. destruct (apply_claim_body _ _ _ _); injection E as <- <-; eauto. done. }
  destruct Hr as [x ->]. destruct (into_writer (re_log_id e)) as [b|]; [|done].
  specialize (IH (save_raft_meta db1 "last_applied_log_id" (Some b))). destruct (apply_entries _ es) as [db2 [rs| |]]; cbn in *; done.
Qed.

(** The commands of the Rust types do not panic. *)
Lemma run_command_returns w (cmd : WriteCmd) : wf_cmd cmd → reply_panics (run_command w cmd).2 = false.
Proof.
  assert (Hu : ∀ x : Db * result unit LedgerError, x.2 ≠ Panic → reply_panics (ReplyUnit x.2) = false) by by intros [? []].
  destruct cmd as [b c claim| |id|path|id leaf b|k v|rows|i|i l|es m]; intros Hc; cbn [run_command].
  - destruct Hc as (Hc & Ht & _). apply Hu, transact_returns. by apply (apply_claim_body_returns HL).
  - done.
  - done.
  - unfold restore_snapshot. by repeat case_match; simplify_eq/=.
  - apply Hu, transact_returns. unfold sqlite_i64, sql_insert_nullifier, sql_insert_utxo. by repeat (case_match; cbn [res_bind]; try done).
  - done.
  - apply Hu, transact_returns. generalize (wr_db w). clear. induction rows as [|r rows IH]; intros db; cbn [upsert_raft_logs]; [done|].
    unfold sqlite_i64. do 2 (destruct (_ <? _); cbn [res_bind]; [|done]). apply IH.
  - apply Hu, transact_returns. unfold sqlite_i64. by destruct (_ <? _).
  - apply Hu, transact_returns. unfold sqlite_i64. by destruct (_ <? _).
  - unfold apply_raft_entries. pose proof (apply_entries_returns (wr_db w) es Hc) as Hp.
    destruct (apply_entries _ es) as [db [rs| |]]; cbn in *; done.
Qed.

(** While no command panics, the writer ends only after the last handle is
    gone, when no call is left. *)
Record open_actor (a : @Actor Writer WriteCmd WriteReply) : Prop := {
  oa_alive : ac_handles a = true → ac_alive a = true;
  oa_handles : ac_handles a = false → map_Forall (λ _ c, pending c = false) (ac_calls a);
  oa_calls : map_Forall (λ _ c, match c with Sending cmd => wf_cmd cmd | Returned (Err _) => False | _ => True end) (ac_calls a);
  oa_queue : Forall (λ p, wf_cmd p.2) (ac_queue a)
}.

Lemma answer_forall (P : nat → @CallState WriteCmd WriteReply → Prop) r calls i :
  map_Forall P calls → P i (Returned r) → map_Forall P (answer r calls i).
Proof.
  intros H Hr. unfold answer. destruct (calls !! i) as [[]|]; try done. by apply map_Forall_insert_2.
Qed.

Lemma step_open a e a' :
  (∀ i cmd, e = Call i cmd → wf_cmd cmd) → open_actor a → actor_step run_command reply_panics a e = Some a' → open_actor a'.
Proof.
  intros He Ho E%step_steps. pose proof Ho as [Ha Hh Hc Hq].
  assert (Hnot : ∀ i c, ac_calls a !! i = Some c → pending c = true → ac_handles a = true).
  { intros i c Hi Hp. destruct (ac_handles a); [done|]. specialize (Hh eq_refl i c Hi). cbn in Hh. congruence. }
  destruct E as [i cmd Ei Eh|i cmd Ei Ea Hl|i cmd Ei Ea|i cmd q s r Ea Eq Ex Ep|i cmd q s r Ea Eq Ex Ep|i c Ei Ec|Eh Hp|Ea Eq Eh].
  - split; cbn; [done|congruence| |done]. apply map_Forall_insert_2; [by eapply He|done].
  - pose proof (Hnot _ _ Ei eq_refl) as Hi. split; cbn; [done|congruence|by apply map_Forall_insert_2|].
    apply Forall_app. split; [done|]. apply Forall_singleton. exact (Hc _ _ Ei).
  - pose proof (Hnot _ _ Ei eq_refl) as Hi. rewrite (Ha Hi) in Ea. done.
  - rewrite Eq in Hq. apply Forall_cons in Hq as [_ Hq]. split; cbn; [done| |by apply answer_forall|done].
    intros Hn. apply answer_forall; [by apply Hh|done].
  - rewrite Eq in Hq. apply Forall_cons in Hq as [Hcmd _]. pose proof (run_command_returns (ac_state a) cmd Hcmd) as Hp.
    rewrite Ex in Hp. cbn in Hp. congruence.
  - pose proof (Hnot _ _ Ei Ec) as Hi. split; cbn; [done|congruence|by apply map_Forall_insert_2|done].
  - by split.
  - rewrite Eq in Hq. split; cbn; [done|intros _; by apply Hh|done|done].
Qed.

Lemma run_open a es a' :
  (∀ i cmd, Call i cmd ∈ es → wf_cmd cmd) → open_actor a → actor_run run_command reply_panics a es = Some a' → open_actor a'.
Proof.
  revert a. induction es as [|e es IH]; intros a Hes Ho; cbn [actor_run]; [by intros [= <-]|].
  destruct (actor_step _ _ a e) as [a1|] eqn:E; [|done]. cbn. apply IH; [intros i cmd Hi; apply (Hes i); by right|].
  apply (step_open a e a1); [|done|done]. intros i cmd ->. apply (Hes i). by left.
Qed.

Lemma new_actor_open w : open_actor (new_actor w).
Proof. split; cbn; [done|done|apply map_Forall_empty|constructor]. Qed.

Context (log_id_encodes : ∀ id : LogId, is_Some (into_writer id)).

(** C21: Concurrent claims.  However callers that make claims, take snapshots
    and write the raft log interleave with each other, with dropped calls and
    with the writer, no call fails because of the writer: it is there as long
    as a handle is.  Two different calls never both claim a leaf, the leaves
    claimed were unclaimed, each is in the nullifier table afterwards and
    added one UTxO. *)
Theorem concurrent_claims w (es : list (@Event WriteCmd)) a
    (Hes : ∀ i (cmd : WriteCmd), Call i cmd ∈ es → wf_cmd cmd ∧ is_restore cmd = false)
    (Hr : actor_run run_command reply_panics (new_actor w) es = Some a) :
  let sv := served run_command reply_panics (new_actor w) es in
  let keys := concat ((λ x, cmd_keys x.1.2 x.2) <$> sv) in
  let db := wr_db (ac_state a) in
  (ac_handles a = true → ac_alive a = true) ∧
  (∀ i r, ac_calls a !! i = Some (Returned r) → ∃ cmd x, r = Ok x ∧ (i, cmd, x) ∈ sv) ∧
  (∀ x y k, x ∈ sv → y ∈ sv → x ≠ y → k ∈ cmd_keys x.1.2 x.2 → k ∉ cmd_keys y.1.2 y.2) ∧
  Forall (λ k, k ∉ dom (nullifiers (wr_db w))) keys ∧
  dom (nullifiers db) = dom (nullifiers (wr_db w)) ∪ list_to_set keys ∧
  starstream_utxo_count db = (starstream_utxo_count (wr_db w) + length keys)%nat.
Proof.
  cbv zeta. pose proof (run_open _ es a (λ i cmd Hi, proj1 (Hes i cmd Hi)) (new_actor_open w) Hr) as Ho.
  pose proof (run_serial _ _ _ _ _ Hr) as Hs. rewrite run_writer_serial in Hs.
  set (sv := served _ _ _ es) in *.
  assert (Hcmds : Forall (λ cmd, wf_cmd cmd ∧ is_restore cmd = false) sv.*1.*2).
  { apply Forall_fmap, Forall_fmap, list.Forall_forall. intros [[i cmd] r] Hi. apply (Hes i).
    exact (served_called _ _ _ _ _ _ _ _ Hr Hi). }
  apply Forall_and in Hcmds as [Hwf Hre]. pose proof (run_writer_claims log_id_encodes _ _ _ _ Hwf Hre Hs) as [N F D U].
  assert (Ek : run_keys sv.*1.*2 sv.*2 = concat ((λ x, cmd_keys x.1.2 x.2) <$> sv)).
  { unfold run_keys. f_equal. clear. induction sv as [|[[i c] r] sv IH]; [done|]. cbn. by rewrite IH. }
  rewrite Ek in *. split; [apply (oa_alive a Ho)|]. split; [|split; [|done]].
  - intros i r Hi. pose proof (oa_calls a Ho i _ Hi) as Hc. cbn in Hc.
    pose proof (run_stable _ _ channel_outcome _ _ _ i channel_outcome_stable Hr I) as Hout. rewrite Hi in Hout.
    destruct r as [x|e|]; [|done|done]. destruct (returned_served _ _ _ _ _ _ _ Hr Hi) as [|[cmd Hx]]; [done|]. by exists cmd, x.
  - intros x y k Hx Hy Hne Hk. by apply (concat_nodup_disjoint (λ x, cmd_keys x.1.2 x.2) sv x y k).
Qed.

End Ledger.
