(* ===== verification/Handle.v ===== *)
(** * The ledger's handle

    The methods of [WriterHandle] in [omega-mock-ledger/src/writer.rs] and of
    [MockLedger] in [lib.rs] that go through the writer: each makes a call
    with its command and returns what the reply holds.  Reading a nullifier
    sees a state of the writer; the periodic checkpoint is a task that makes
    calls of its own. *)

From S2P Require Import Prelude Hash Tree ClaimTx Prover Verifier Ledger Storage LedgerSpec Actor ActorSpec.
From Stdlib Require Import ZArith Lia List String.
From stdpp Require Import base decidable strings gmap list.

Local Open Scope Z_scope.

(** [rx.await.map_err(..)?] of a method with the given type of result; a
    reply of another type does not occur ([replies_typed]). *)
Definition unit_reply (r : result WriteReply LedgerError) : result unit LedgerError :=
  let? reply := r in match reply with ReplyUnit x => x | _ => Panic end.

Definition path_reply (r : result WriteReply LedgerError) : result string LedgerError :=
  let? reply := r in match reply with ReplyPath x => x | _ => Panic end.

Definition responses_reply (r : result WriteReply LedgerError) : result (list LedgerResponse) LedgerError :=
  let? reply := r in match reply with ReplyResponses x => x | _ => Panic end.

Section Handle.
Context {HF : HashFns} {SV : StarkVerifier} {SF : SqliteFiles} {Membership : Type} `{CL : Ciborium LogId}.
Notation WriteCmd := (@WriteCmd Membership).

(** A method: the command it sends and the way it reads the reply. *)
Record Method (A : Type) := { m_cmd : WriteCmd; m_reply : result WriteReply LedgerError → result A LedgerError }.
Arguments m_cmd {_} _.
Arguments m_reply {_} _ _.

Definition apply_claim (block_idx : Z) (commitment : OmegaCommitment) (claim : ClaimTx) : Method unit :=
  {| m_cmd := ApplyClaim block_idx commitment claim; m_reply := unit_reply |}.
Definition checkpoint_wal_truncate : Method unit := {| m_cmd := CheckpointWalTruncate; m_reply := unit_reply |}.
Definition handle_snapshot (snapshot_id : string) : Method string :=
  {| m_cmd := TakeSnapshot snapshot_id; m_reply := path_reply |}.
Definition handle_restore_snapshot (snapshot_path : string) : Method unit :=
  {| m_cmd := RestoreSnapshot snapshot_path; m_reply := unit_reply |}.
Definition insert_synthetic_claim_for_test (sub_tree_id leaf_index block_idx : Z) : Method unit :=
  {| m_cmd := InsertSyntheticClaim sub_tree_id leaf_index block_idx; m_reply := unit_reply |}.
Definition handle_save_raft_meta (key : string) (value : option bytes) : Method unit :=
  {| m_cmd := SaveRaftMeta key value; m_reply := unit_reply |}.
Definition handle_append_raft_logs (rows : list RaftLogRow) : Method unit :=
  {| m_cmd := AppendRaftLogs rows; m_reply := unit_reply |}.
Definition handle_delete_raft_logs_since (log_idx : Z) : Method unit :=
  {| m_cmd := DeleteRaftLogsSince log_idx; m_reply := unit_reply |}.
Definition handle_purge_raft_logs_upto (log_idx : Z) (last_purged : bytes) : Method unit :=
  {| m_cmd := PurgeRaftLogsUpto log_idx last_purged; m_reply := unit_reply |}.
Definition handle_apply_raft_entries (entries : list RaftEntry) (last_membership : option bytes) :
    Method (list LedgerResponse) :=
  {| m_cmd := ApplyRaftEntries entries last_membership; m_reply := responses_reply |}.

Abbreviation LedgerActor := (@Actor Writer WriteCmd WriteReply).
Abbreviation run := (actor_run run_command reply_panics).

(** The outcome of call [i] of a method, once there is one. *)
Definition outcome {A} (m : Method A) (a : LedgerActor) (i : nat) : option (result A LedgerError) :=
  match ac_calls a !! i with Some (Returned r) => Some (m_reply m r) | _ => None end.

(** [spawn_wal_truncate_task_with_interval]: at every tick a call, whose
    result is ignored. *)
Definition tick (i : nat) : list (@Event WriteCmd) := [Call i (m_cmd checkpoint_wal_truncate); Send i].

(** ** Specification *)

(** Every method reads the reply of its own command at its type. *)
Inductive is_method : ∀ {A}, Method A → Prop :=
| im_apply b c t : is_method (apply_claim b c t)
| im_checkpoint : is_method checkpoint_wal_truncate
| im_snapshot id : is_method (handle_snapshot id)
| im_restore p : is_method (handle_restore_snapshot p)
| im_synthetic s l b : is_method (insert_synthetic_claim_for_test s l b)
| im_meta k v : is_method (handle_save_raft_meta k v)
| im_append rows : is_method (handle_append_raft_logs rows)
| im_delete i : is_method (handle_delete_raft_logs_since i)
| im_purge i l : is_method (handle_purge_raft_logs_upto i l)
| im_entries es m : is_method (handle_apply_raft_entries es m).

Lemma replies_typed {A} (m : Method A) w : is_method m → wf_cmd (m_cmd m) → HashLaws HF →
  m_reply m (Ok (run_command w (m_cmd m)).2) ≠ Panic.
Proof.
  intros Hm Hc HL. pose proof (run_command_returns w (m_cmd m) Hc) as Hp.
  assert (Hu : ∀ r, reply_panics (ReplyUnit r) = false → r ≠ Panic) by by intros [].
  destruct Hm; cbn [m_cmd m_reply run_command] in *; try (apply (Hu _ Hp)).
  - done.
  - unfold handle_restore_snapshot, unit_reply in *. cbn in *. destruct (restore_snapshot w p) as [w' r]. by apply Hu.
  - cbn in *. destruct (apply_raft_entries _ _ _) as [db [r| |]]; done.
Qed.

(** What the writer executed, in order. *)
Definition executed (w : Writer) (es : list (@Event WriteCmd)) : list WriteCmd :=
  (served run_command reply_panics (new_actor w) es).*1.*2.

Context {HL : HashLaws HF}.

(** What a method returns.  In any interleaving of calls that hold values
    of their Rust types, a method that has returned gives the result of its
    own command in the state that the commands executed before it leave;
    never an error of the channel, never a reply of another type. *)
Theorem method_outcome {A} (m : Method A) w es a i r
    (Hm : is_method m) (Hes : ∀ j cmd, Call j cmd ∈ es → wf_cmd cmd)
    (Hr : run (new_actor w) es = Some a) (Hi : Call i (m_cmd m) ∈ es) (Ho : outcome m a i = Some r) :
  ∃ before after, executed w es = before ++ m_cmd m :: after ∧
    r = m_reply m (Ok (run_command (run_writer w before).1 (m_cmd m)).2) ∧ r ≠ Panic.
Proof.
  unfold outcome in Ho. destruct (ac_calls a !! i) as [[| |x|]|] eqn:Ei; try done. injection Ho as <-.
  pose proof (run_open _ es a Hes (new_actor_open w) Hr) as Hopen. pose proof (oa_calls a Hopen i _ Ei) as Hx. cbn in Hx.
  pose proof (run_stable _ _ channel_outcome _ _ _ i channel_outcome_stable Hr I) as Hout. rewrite Ei in Hout.
  destruct x as [x|e|]; [|done|done]. destruct (returned_served _ _ _ _ _ _ _ Hr Ei) as [|[cmd Hs]]; [done|].
  destruct (served_reply _ _ _ _ _ _ _ _ Hr Hs) as (l1 & l2 & El & ->).
  assert (cmd = m_cmd m) as ->.
  { apply (call_unique _ _ _ _ _ i cmd (m_cmd m) Hr); [|done]. by apply (served_called _ _ _ _ _ _ _ _ Hr Hs). }
  exists l1.*1.*2, l2.*1.*2. split; [unfold executed; by rewrite El, !fmap_app|]. rewrite run_writer_serial. split; [done|].
  by apply replies_typed; [|apply (Hes i)|].
Qed.

Context (log_id_encodes : ∀ id : LogId, is_Some (into_writer id)).

(** A nullifier that a reader has seen stays.  Whatever is called or
    executed later, restores aside, a reader that found a leaf claimed finds
    it claimed ever after. *)
Theorem claimed_stays_claimed w es1 es2 a1 a2 id leaf
    (Hes : ∀ j (cmd : WriteCmd), Call j cmd ∈ es1 ++ es2 → wf_cmd cmd ∧ is_restore cmd = false)
    (H1 : run (new_actor w) es1 = Some a1) (H2 : run a1 es2 = Some a2)
    (Hseen : nullifier_exists (wr_db (ac_state a1)) id leaf = Ok true) :
  nullifier_exists (wr_db (ac_state a2)) id leaf = Ok true.
Proof.
  assert (H : run (new_actor w) (es1 ++ es2) = Some a2) by by apply (run_app _ _ _ es1 es2 a1).
  pose proof (run_serial _ _ _ _ _ H2) as Hs. rewrite run_writer_serial in Hs.
  set (sv := served _ _ a1 es2) in *.
  assert (Hcmds : Forall (λ cmd, wf_cmd cmd ∧ is_restore cmd = false) sv.*1.*2).
  { apply Forall_fmap, Forall_fmap, list.Forall_forall. intros [[i cmd] r] Hi. apply (Hes i).
    apply (served_called _ _ _ _ _ _ _ r H). rewrite (served_app _ _ _ _ _ _ H1). set_solver. }
  apply Forall_and in Hcmds as [Hwf Hre]. pose proof (claims_dom _ _ _ (run_writer_claims log_id_encodes _ _ _ _ Hwf Hre Hs)) as D.
  unfold nullifier_exists in *. destruct (sqlite_i64 "leaf_index" leaf) as [l| |]; [|done|done]. cbn in *.
  injection Hseen as Hseen%bool_decide_eq_true. f_equal. apply bool_decide_eq_true. apply elem_of_dom. rewrite D.
  apply elem_of_union_l. by apply elem_of_dom.
Qed.

Definition is_checkpoint (cmd : WriteCmd) : bool := match cmd with CheckpointWalTruncate => true | _ => false end.

(** The checkpoint task does not touch the ledger. *)
Lemma checkpoints_transparent w (cmds : list WriteCmd) :
  (run_writer w cmds).1 = (run_writer w (List.filter (λ c, negb (is_checkpoint c)) cmds)).1.
Proof.
  revert w. induction cmds as [|c cmds IH]; intros w; [done|]. cbn [List.filter]. destruct (is_checkpoint c) eqn:E; cbn [negb].
  - destruct c; try done. cbn. specialize (IH w). by destruct (run_writer w cmds).
  - cbn [run_writer]. destruct (run_command w c) as [w1 r]. specialize (IH w1).
    by destruct (run_writer w1 cmds), (run_writer w1 (List.filter _ cmds)).
Qed.

End Handle.
