(* ===== verification/LedgerProof.v ===== *)
(** * The ledger with the proof system

    What an applied claim says about the committed trees, and whose
    commitment it is checked against. *)

From S2P Require Import Prelude Hash Tree TreeSpec ClaimTx ClaimTxSpec Prover Verifier VerifierSpec.
From S2P Require Import Blake3 Blake3Spec Air AirSound AirComplete ProofSystem.
From S2P Require Import Ledger Storage LedgerSpec.
From Stdlib Require Import ZArith Lia List String.
From stdpp Require Import base decidable strings gmap list.

Local Open Scope Z_scope.

Section LedgerProof.
Context {HF : HashFns} {HL : HashLaws HF} {BL : Blake3Laws HF} {BA : Blake3Air}
  {BC : Blake3AirComplete BA} {BS : Blake3AirSound BA}
  {SV : StarkVerifier} {SP : StarkProver SV} {SL : StarkLaws BA SV SP}.

(** C5: An applied claim names a committed leaf.  If [apply_claim_tx] accepts a
    claim against a commitment whose sub-tree was built from the payloads
    [ps], then each leaf index of the claim is the position of a payload in
    the sorted list, or two explicit preimages collide.  The padding leaves,
    which the verifier accepts, do not pass: their index does not fit the
    nullifier table. *)
Theorem applied_leaf_committed db block_idx c claim p ps t
    (Hc : wf_commitment c) (Htx : wf_claim claim)
    (Hn : Z.of_nat (length (claim_publics claim)) <= 2 ^ 21)
    (Hok : (apply_claim_tx db block_idx c claim).2 = Ok ()) (Hin : p ∈ claim_publics claim)
    (Hps : wf_payloads ps) (Ht : commits c (sub_tree_id p) ps t) :
  let id := sub_tree_id p in
  let idx := leaf_index p in
  ∃ payload path,
    match open_collision (depth t) (padded_preimages id (stable_sort bytes_le ps)) idx
            (leaf_preimage id idx payload) (rev path) with
    | Some x => Collision blake3_256 x
    | None => 0 <= idx < Z.of_nat (length ps) ∧ stable_sort bytes_le ps !! Z.to_nat idx = Some payload
    end.
Proof.
  destruct (apply_claim_tx db block_idx c claim) as [db' r] eqn:E. cbn [snd] in Hok. subst r.
  destruct (apply_claim_tx_cases _ _ _ _ _ _ E) as [(_ & (_ & _ & Hv & (Hi & _)) & _)|[H _]]; [|done].
  destruct (accepted_leaf c _ _ p ps t Hc Htx Hn Hv Hin Hps Ht) as (payload & path & H).
  exists payload, path. destruct (open_collision _ _ _ _ _); [done|].
  destruct H as [H|(H & _)]; [done|]. rewrite list.Forall_forall in Hi. specialize (Hi p Hin).
  cbn beta in Hi. rewrite H in Hi. unfold EMPTY_INDEX_SENTINEL in Hi. lia.
Qed.

(** C38: A submitter chooses the commitment and the value.  For any commitment
    and any witness that is valid for it, there is a proof such that the claim
    with that proof and any leaf payload in its clear-text witness becomes a
    command for the submitter's own commitment, is applied by the ledger,
    whatever commitment was published, and creates a UTxO with the value that
    the clear-text payload states. *)
Theorem own_commitment_any_value db c w
    (Hc : wf_commitment c) (Hw : witness_valid c w) (Hp : wf_public (mw_public w))
    (Hpath : Forall is_hash (mw_merkle_path w)) (Hd : 0 < tree_depth (mw_public w))
    (Hi : leaf_index (mw_public w) < 2 ^ 63) (Hk : nullifiers db !! claim_key (mw_public w) = None) :
  ∃ proof, ∀ cw, let v := payload_value (leaf_payload cw) in
    let uid := starstream_utxo_id (recipient_starstream_addr (mw_public w)) (leaf_payload cw) 0 0 in
    v < 2 ^ 63 → starstream_utxos db !! uid = None →
    let claim := TxUtxo {| cu_public := mw_public w; cu_witness := cw; cu_proof := proof |} in
    command_of_claim claim = Ok {| lc_block_idx := 0; lc_commitment := c; lc_claim := claim |} ∧
    ∃ db', apply_claim_tx db 0 c claim = (db', Ok ()) ∧ ur_value <$> (starstream_utxos db' !! uid) = Some v.
Proof.
  destruct (built_envelope_accepted c [checked w] 0 Hc) as (b & _ & Hv);
    [done|constructor; [by apply (valid_provable c)|done]|constructor; [apply Hw|done]|].
  exists b. intros cw v uid Hval Hu claim. split.
  - apply (verify_claim_accepts HL c _ b Hc) in Hv as (e & bp & He & _ & Hce & _); [|by constructor].
    unfold command_of_claim. cbn [claim_proof claim cu_proof]. rewrite He. cbn [ok_or res_bind]. by rewrite Hce.
  - eexists. split.
    + apply apply_claim_tx_ok. split; [lia|]. split; [done|]. split; [done|].
      split; [by constructor|]. split; [by constructor|]. split; [apply NoDup_singleton|].
      split; [by constructor|]. split; [apply NoDup_singleton|by constructor].
    + cbn. rewrite lookup_union_l by done. cbn. fold uid. by rewrite lookup_insert_eq.
Qed.

End LedgerProof.
