(* ===== verification/Fixtures.v ===== *)
(** * The synthetic claims

    [omega-claim-prover/src/test_fixtures.rs]: a tree of 256 sixteen-byte
    leaves, the commitment whose other sub-trees are empty, the witness of a
    leaf and the claim proved from it.  The definitions compose the tree, the
    witness and the prover as the function does; the theorems follow a claim
    from the tree to the ledger. *)

From S2P Require Import Prelude Hash Tree TreeSpec Witness Bundle ClaimTx ClaimTxSpec Prover Verifier VerifierSpec.
From S2P Require Import Blake3 Blake3Spec Air AirSound AirComplete ProofSystem Ledger Storage LedgerSpec.
From Stdlib Require Import ZArith Lia List String Sorted.
From stdpp Require Import base decidable strings gmap list.

Local Open Scope Z_scope.

(** [.unwrap()] and [.expect(..)] of a [Result]; [None] is a panic. *)
Definition unwrap {A E} (r : result A E) : option A := match r with Ok x => Some x | _ => None end.

(** [hash]. *)
Definition fixture_hash (byte : Z) : bytes := replicate 32 (z2b byte).

Definition fixture_payload (i : Z) : bytes := be_bytes 8 i ++ be_bytes 8 (i + 10000).

(** [payloads]. *)
Definition fixture_payloads (count : nat) : list bytes := (λ i, fixture_payload (Z.of_nat i)) <$> seq 0 count.

(** [ProverConfig::default]. *)
Definition default_rng_seed : Z := 1.

Section Fixtures.
Context {HF : HashFns}.

Definition commitment_for (root : bytes) (item_count leaf_count tree_depth : nat) : OmegaCommitment :=
  let sub_tree_roots := <[Z.to_nat (SUB_TREE_ID_UTXO - 1) := root]> (replicate 7 (replicate 32 (z2b 0))) in
  let bundle_preimage := concat sub_tree_roots in
  {| oc_bundle_root_blake3 := blake3_256 bundle_preimage;
     sub_tree_roots_blake3 := sub_tree_roots;
     item_counts := [Z.of_nat item_count mod 2 ^ 64; 0; 0; 0; 0; 0; 0];
     leaf_counts := [Z.of_nat leaf_count mod 2 ^ 64; 0; 0; 0; 0; 0; 0];
     tree_depths := [Z.of_nat tree_depth mod 2 ^ 32; 0; 0; 0; 0; 0; 0] |}.

(** [witness_at]: the index is a [u64], which fits [usize]. *)
Definition witness_at (index : Z) : option (OmegaCommitment * MembershipWitness) :=
  if 256 <=? index then None
  else
    let payloads := fixture_payloads 256 in
    tree ← unwrap (build_v1 SUB_TREE_ID_UTXO payloads);
    payload ← payloads !! Z.to_nat index;
    let leaf := leaf_hash_v2 SUB_TREE_ID_UTXO index payload in
    found ← build_at_index tree (index mod 2 ^ 32);
    inclusion ← found;
    if negb (bool_decide (iw_leaf inclusion = leaf)) then None
    else
      root ← root tree;
      let commitment := commitment_for root (length payloads) (leaf_count tree) (depth tree) in
      let public := {| sub_tree_id := SUB_TREE_ID_UTXO; leaf_index := index;
                       tree_depth := Z.of_nat (depth tree) mod 256; per_sub_tree_root := root;
                       bundle_root_blake3 := oc_bundle_root_blake3 commitment;
                       nullifier := blake3_256 payload;
                       recipient_starstream_addr := fixture_hash 178 |} in
      Some (commitment, from_inclusion public payload inclusion).

Definition build_synthetic_accepted_claim {SV : StarkVerifier} {SP : StarkProver SV} (leaf_index : Z) :
    option ClaimTx :=
  '(commitment, witness) ← witness_at leaf_index;
  proof ← unwrap (prove_collection commitment [witness] default_rng_seed);
  Some (TxUtxo {| cu_public := mw_public witness;
                  cu_witness := {| leaf_payload := mw_leaf_payload witness;
                                   merkle_path := mw_merkle_path witness;
                                   signing_key_proof := [z2b 237] |};
                  cu_proof := proof |}).

End Fixtures.

(** ** The leaves are sorted and distinct *)

Lemma fixture_payload_le i j : 0 <= i <= j → j < 2 ^ 64 - 10000 → bytes_le (fixture_payload i) (fixture_payload j) = true.
Proof.
  intros Hij Hj. unfold fixture_payload.
  destruct (decide (i = j)) as [->|]; [apply bytes_le_refl|].
  apply bytes_le_app_lt; [by rewrite !length_be_bytes|]. rewrite !be_val_be_bytes_small; lia.
Qed.

Lemma fixture_payload_inj i j : is_u64 i → is_u64 j → fixture_payload i = fixture_payload j → i = j.
Proof. intros Hi Hj E. apply app_inj_1 in E as [E _]; [by apply be_bytes8_inj|by rewrite !length_be_bytes]. Qed.

Lemma fixture_payloads_sorted n :
  Z.of_nat n < 2 ^ 64 - 10000 → stable_sort bytes_le (fixture_payloads n) = fixture_payloads n.
Proof.
  intros Hn. apply stable_sort_id. unfold fixture_payloads.
  enough (∀ k, Z.of_nat (k + n) < 2 ^ 64 - 10000 →
    StronglySorted (LeRel bytes_le) ((λ i, fixture_payload (Z.of_nat i)) <$> seq k n)) as H by (apply H; lia).
  clear Hn. induction n as [|n IH]; intros k Hk; cbn [seq]; [constructor|]. rewrite fmap_cons. constructor; [apply IH; lia|].
  apply Forall_fmap, list.Forall_forall. intros i [Hi1 Hi2]%elem_of_seq. apply fixture_payload_le; lia.
Qed.

Lemma fixture_payloads_lookup n i :
  0 <= i < Z.of_nat n → fixture_payloads n !! Z.to_nat i = Some (fixture_payload i).
Proof.
  intros Hi. unfold fixture_payloads. rewrite list_lookup_fmap, lookup_seq_lt by lia. cbn. by rewrite Z2Nat.id by lia.
Qed.

Lemma fixture_payloads_nodup n : Z.of_nat n < 2 ^ 64 → NoDup (fixture_payloads n).
Proof.
  intros Hn. apply NoDup_fmap_2_strong; [|apply NoDup_seq].
  intros i j [_ Hi]%elem_of_seq [_ Hj]%elem_of_seq E. apply Nat2Z.inj, fixture_payload_inj; [..|done]; split; lia.
Qed.

Lemma fixture_payload_length i : length (fixture_payload i) = 16%nat.
Proof. unfold fixture_payload. by rewrite length_app, !length_be_bytes. Qed.

Lemma fixture_payload_value i : 0 <= i < 256 → payload_value (fixture_payload i) = i + 10000.
Proof.
  intros Hi. unfold payload_value. rewrite fixture_payload_length. cbn [Nat.ltb Nat.leb].
  unfold fixture_payload. rewrite drop_app_length' by (by rewrite length_be_bytes).
  rewrite take_ge by (by rewrite length_be_bytes). apply be_val_be_bytes_small. lia.
Qed.

(** ** The tree, the commitment and the witness *)

Section Witness.
Context {HF : HashFns} {HL : HashLaws HF}.

(** The inclusion witness of a leaf whose payloads are already sorted. *)
Lemma sorted_opening id ps t i p :
  build_v1 id ps = Ok t → stable_sort bytes_le ps = ps → 0 <= i → ps !! Z.to_nat i = Some p →
  let leaf := leaf_hash_v2 id i p in
  ∃ sibs, build_at_index t i = Some (Some {| iw_leaf := leaf; iw_leaf_index := i; iw_siblings := sibs |}) ∧
    length sibs = depth t ∧ Forall is_hash sibs ∧ root t = Some (walk node_hash_v2 i leaf sibs).
Proof.
  intros Ht Hs Hi Hp. pose proof (proj1 (build_v1_ok_grown _ _ _ Ht)) as Hlv.
  apply (padded_preimages_real id) in Hp. rewrite <- Hs in Hp.
  destruct (v1_path HL id ps t _ _ Ht Hp) as (sibs & Hsib & Hl & HF' & Hw).
  rewrite Z2Nat.id in Hp, Hsib, Hw by done. exists sibs.
  unfold build_at_index. rewrite Hlv, padded_leaves_preimages, list_lookup_fmap, Hp.
  cbn [fmap option_fmap option_map]. by rewrite Hsib.
Qed.

Lemma fixture_tree :
  ∃ t r, build_v1 SUB_TREE_ID_UTXO (fixture_payloads 256) = Ok t ∧ depth t = 8%nat ∧ root t = Some r.
Proof.
  destruct (build_v1_grown SUB_TREE_ID_UTXO (fixture_payloads 256)) as (t & Ht & Hg);
    [by apply fixture_payloads_nodup|].
  exists t. eexists. split; [exact Ht|]. split; [exact (grown_depth _ _ _ _ Hg)|exact (grown_root _ _ _ _ Hg)].
Qed.

(** What the prover, the verifier and the ledger use of a fixture. *)
Record fixture (c : OmegaCommitment) (i : Z) (w : MembershipWitness) : Prop := {
  fx_built : witness_at i = Some (c, w);
  fx_valid : witness_valid c w;
  fx_public : wf_public (mw_public w);
  fx_path : Forall is_hash (mw_merkle_path w);
  fx_depth : tree_depth (mw_public w) = 8;
  fx_key : claim_key (mw_public w) = (SUB_TREE_ID_UTXO, i);
  fx_payload : mw_leaf_payload w = fixture_payload i;
  fx_nullifier : nullifier (mw_public w) = blake3_256 (fixture_payload i);
  fx_recipient : recipient_starstream_addr (mw_public w) = fixture_hash 178
}.

Lemma commitment_for_wf r n m d : is_hash r → wf_commitment (commitment_for r n m d).
Proof.
  intros Hr. assert (Hz : ∀ b, 0 < b → Forall (in_range b) [0; 0; 0; 0; 0; 0])
    by (intros b Hb; repeat (constructor; [unfold in_range; lia|]); done).
  split; [apply length_blake3_256|]. split.
  { split; [done|]. repeat (constructor; [done|]). done. }
  repeat split; (constructor; [|by apply Hz]); apply Z.mod_pos_bound; lia.
Qed.

Lemma commitment_for_root r n m d : validate_bundle_root (commitment_for r n m d) = Ok ().
Proof. unfold validate_bundle_root, bundle_root, commitment_for. cbn. by rewrite bool_decide_true. Qed.

(** All 256 fixtures are made for one commitment. *)
Lemma fixtures : ∃ c, wf_commitment c ∧ validate_bundle_root c = Ok () ∧ ∀ i, 0 <= i < 256 → ∃ w, fixture c i w.
Proof.
  destruct fixture_tree as (t & r & Ht & Hd & Hr). pose proof (v1_root_is_hash HL _ _ _ _ Ht Hr) as Hh.
  exists (commitment_for r 256 (leaf_count t) 8). split; [by apply commitment_for_wf|].
  split; [apply commitment_for_root|]. intros i Hi.
  destruct (sorted_opening _ _ _ i _ Ht (fixture_payloads_sorted 256 eq_refl) (proj1 Hi)
    (fixture_payloads_lookup 256 i Hi)) as (sibs & Hb & Hl & HF' & Hw).
  rewrite Hr in Hw. apply (inj Some) in Hw.
  eexists. split.
  { unfold witness_at. destruct (Z.leb_spec 256 i); [lia|]. rewrite Ht. cbn [unwrap mbind option_bind].
    rewrite (fixture_payloads_lookup 256 i Hi), (Z.mod_small i) by lia. cbn [mbind option_bind]. rewrite Hb.
    cbn [mbind option_bind iw_leaf]. rewrite bool_decide_true by done. cbn [negb].
    rewrite Hr, Hd. unfold fixture_payloads. rewrite length_fmap, length_seq. reflexivity. }
  all: unfold from_inclusion; cbn [mw_public mw_leaf_payload mw_merkle_path iw_siblings tree_depth nullifier
    recipient_starstream_addr]; try reflexivity.
  - unfold witness_valid, input_consistent, checked. cbn [mw_public mw_leaf_payload mw_merkle_path leaf_index
      sub_tree_id tree_depth per_sub_tree_root bundle_root_blake3 cw_leaf_hash].
    rewrite fixture_payload_length, Hl, Hd, <- Hw. split; [lia|]. split; [by repeat split|].
    split; [exists 256; by split; [|lia]|by split].
  - repeat split; cbn [sub_tree_id leaf_index tree_depth per_sub_tree_root bundle_root_blake3 nullifier]; try lia;
      [done..|exact Hh|apply is_hash_blake3|apply is_hash_blake3].
  - exact HF'.
Qed.

End Witness.

(** ** The claims in the ledger *)

Section Claims.
Context {HF : HashFns} {HL : HashLaws HF} {BL : Blake3Laws HF} {BA : Blake3Air}
  {BC : Blake3AirComplete BA} {SV : StarkVerifier} {SP : StarkProver SV} {SL : StarkLaws BA SV SP}.

(** The bytes hashed for the id of the UTxO that claim [i] creates. *)
Definition fixture_utxo_preimage (block_idx i : Z) : bytes :=
  ascii_bytes "omega:mock-ledger:v1:utxo" ++ fixture_hash 178 ++ be_bytes 8 block_idx ++ be_bytes 8 0 ++
  be_bytes 8 16 ++ fixture_payload i.

Definition fixture_utxo_id (block_idx i : Z) : bytes := blake3_256 (fixture_utxo_preimage block_idx i).

Lemma fixture_utxo_id_eq block_idx i :
  starstream_utxo_id (fixture_hash 178) (fixture_payload i) block_idx 0 = fixture_utxo_id block_idx i.
Proof. unfold starstream_utxo_id. by rewrite fixture_payload_length. Qed.

Lemma fixture_utxo_collision block_idx i j :
  is_u64 i → is_u64 j → i ≠ j → fixture_utxo_id block_idx i = fixture_utxo_id block_idx j →
  Collision blake3_256 (fixture_utxo_preimage block_idx i, fixture_utxo_preimage block_idx j).
Proof.
  intros Hi Hj Hne E. split; [|exact E]. cbn [fst snd]. unfold fixture_utxo_preimage. intros H.
  do 5 apply app_inv_head in H. by apply fixture_payload_inj in H.
Qed.

Definition fixture_row (block_idx i : Z) : UtxoRow :=
  {| ur_recipient := fixture_hash 178; ur_value := i + 10000; ur_asset_blob := []; ur_datum := None;
     ur_script_ref := None; ur_block_idx := block_idx; ur_spent_in := None |}.

(** The database once the claims for [js] have been applied to it. *)
Definition with_fixtures (db : Db) (block_idx : Z) (js : list Z) : Db :=
  with_utxos
    (with_nullifiers db (list_to_map ((λ j, ((SUB_TREE_ID_UTXO, j), block_idx)) <$> js) ∪ nullifiers db))
    (list_to_map ((λ j, (fixture_utxo_id block_idx j, fixture_row block_idx j)) <$> js) ∪ starstream_utxos db).

(** A fresh pair may be added before or after the others. *)
Lemma union_cons_fresh `{Countable K} {A B} (f : B → K * A) (x : B) (l : list B) (m : gmap K A) :
  (f x).1 ∉ (f <$> l).*1 →
  list_to_map (f <$> l) ∪ (list_to_map (f <$> [x]) ∪ m) = (list_to_map (f <$> x :: l) ∪ m : gmap K A).
Proof.
  intros Hx. cbn. destruct (f x) as [k a]. cbn in *. rewrite <- (insert_union_l ∅ m k a), (left_id ∅ (∪) m).
  rewrite <- insert_union_r by (by apply not_elem_of_list_to_map_1). by rewrite insert_union_l.
Qed.

Lemma with_fixtures_nil db block_idx : with_fixtures db block_idx [] = db.
Proof. unfold with_fixtures. cbn. rewrite !(left_id ∅ (∪)). by destruct db. Qed.

Lemma with_fixtures_fresh db block_idx j js :
  j ∉ js → fixture_utxo_id block_idx j ∉ fixture_utxo_id block_idx <$> js →
  Forall (λ j, nullifiers db !! (SUB_TREE_ID_UTXO, j) = None) js →
  Forall (λ j, starstream_utxos db !! fixture_utxo_id block_idx j = None) js →
  let db' := with_fixtures db block_idx [j] in
  Forall (λ j, nullifiers db' !! (SUB_TREE_ID_UTXO, j) = None) js ∧
  Forall (λ j, starstream_utxos db' !! fixture_utxo_id block_idx j = None) js.
Proof.
  intros Hj Hu Hk Hi. cbv zeta. rewrite !list.Forall_forall in *. cbn.
  split; intros k Hin; rewrite <- insert_union_l, (left_id ∅ (∪)), lookup_insert_ne.
  - by apply Hk.
  - by intros [= ->].
  - by apply Hi.
  - intros E. apply Hu. rewrite E. by apply list_elem_of_fmap_2.
Qed.

Lemma with_fixtures_cons db block_idx j js :
  j ∉ js → fixture_utxo_id block_idx j ∉ fixture_utxo_id block_idx <$> js →
  with_fixtures (with_fixtures db block_idx [j]) block_idx js = with_fixtures db block_idx (j :: js).
Proof.
  intros Hj Hu. unfold with_fixtures, with_utxos, with_nullifiers.
  cbn [raft_log raft_meta nullifiers starstream_utxos genesis]. f_equal.
  - apply (union_cons_fresh (λ j : Z, ((SUB_TREE_ID_UTXO, j), block_idx))). rewrite <- list_fmap_compose. cbn.
    by intros (k & [= <-] & Hk)%list_elem_of_fmap.
  - apply (union_cons_fresh (λ j, (fixture_utxo_id block_idx j, fixture_row block_idx j))).
    by rewrite <- list_fmap_compose.
Qed.

(** The claim of a fixture, and what applying it does. *)
Lemma fixture_claim c i w :
  wf_commitment c → validate_bundle_root c = Ok () → 0 <= i < 256 → fixture c i w →
  ∃ claim, build_synthetic_accepted_claim i = Some claim ∧ verify_claim c (claim_publics claim) (claim_proof claim) = Ok () ∧
    claim_keys claim = [(SUB_TREE_ID_UTXO, i)] ∧
    ∀ db block_idx, block_idx < 2 ^ 63 → nullifiers db !! (SUB_TREE_ID_UTXO, i) = None →
      starstream_utxos db !! fixture_utxo_id block_idx i = None →
      apply_claim_tx db block_idx c claim = (with_fixtures db block_idx [i], Ok ()).
Proof.
  intros Hc Hb Hi Hf. pose proof (fx_valid _ _ _ Hf) as Hw.
  destruct (built_envelope_accepted c [checked w] default_rng_seed Hc) as (b & Eb & Hv).
  { done. }
  { constructor; [|done].
    apply (valid_provable c); [done|apply Hf|apply Hf|by rewrite (fx_depth _ _ _ Hf)]. }
  { constructor; [apply Hw|done]. }
  eexists. split.
  { unfold build_synthetic_accepted_claim. rewrite (fx_built _ _ _ Hf). cbn [mbind option_bind].
    rewrite (prove_collection_built c [w] default_rng_seed Hc Hb) by by constructor.
    cbn [fmap list_fmap]. rewrite Eb. reflexivity. }
  split; [exact Hv|]. split; [cbn; by rewrite (fx_key _ _ _ Hf)|].
  intros db block_idx Hbl Hk Hu. pose proof (fx_key _ _ _ Hf) as Ek. pose proof (fixture_payload_value i Hi) as Ev.
  match goal with |- apply_claim_tx _ _ _ ?x = _ => set (claim := x) in * end.
  assert (Er : claim_rows (claim_publics claim) (claim_witnesses claim) block_idx 0 =
    [(fixture_utxo_id block_idx i, fixture_row block_idx i)]).
  { cbn. by rewrite (fx_payload _ _ _ Hf), (fx_recipient _ _ _ Hf), fixture_utxo_id_eq, Ev. }
  rewrite apply_claim_tx_ok; [|split; [done|]; split; [done|]; split; [exact Hv|]; unfold insertable; rewrite Er].
  - unfold applied, inserted, with_fixtures. rewrite Er. cbn. by rewrite Ek.
  - subst claim. cbn [claim_publics claim_witnesses cu_public cu_witness fmap list_fmap fst]. rewrite Ek.
    repeat apply conj; [constructor; [|done]..|apply NoDup_singleton|by constructor|apply NoDup_singleton|by constructor].
    + injection Ek as _ ->. lia.
    + cbn [leaf_payload]. rewrite (fx_payload _ _ _ Hf), Ev. lia.
Qed.

Lemma fixtures_run {SF : SqliteFiles} {Membership : Type} `{CL : Ciborium LogId} c block_idx js (w : Writer) :
  wf_commitment c → validate_bundle_root c = Ok () → (∀ i, 0 <= i < 256 → ∃ x, fixture c i x) → block_idx < 2 ^ 63 →
  Forall (λ j, 0 <= j < 256) js → NoDup js → NoDup (fixture_utxo_id block_idx <$> js) →
  Forall (λ j, nullifiers (wr_db w) !! (SUB_TREE_ID_UTXO, j) = None) js →
  Forall (λ j, starstream_utxos (wr_db w) !! fixture_utxo_id block_idx j = None) js →
  ∃ claims, mapM build_synthetic_accepted_claim js = Some claims ∧
    run_writer (Membership:=Membership) w (ApplyClaim block_idx c <$> claims) =
      (set_db w (with_fixtures (wr_db w) block_idx js), replicate (length js) (ReplyUnit (Ok ()))).
Proof.
  intros Hc Hb Hfx Hbl. revert w. induction js as [|j js IH]; intros w Hr Hn Hu Hk Hi.
  { exists []. split; [done|]. rewrite with_fixtures_nil. by destruct w. }
  rewrite fmap_cons, !NoDup_cons, !Forall_cons in *. destruct Hr as [Hj Hr], Hn as [Hjn Hn], Hu as [Hun Hu].
  destruct (Hfx j Hj) as [x Hx]. destruct (fixture_claim c j x Hc Hb Hj Hx) as (claim & E & _ & _ & Ha).
  specialize (Ha (wr_db w) block_idx Hbl (proj1 Hk) (proj1 Hi)).
  destruct (with_fixtures_fresh _ _ _ _ Hjn Hun (proj2 Hk) (proj2 Hi)) as [Hk' Hi'].
  destruct (IH (set_db w (with_fixtures (wr_db w) block_idx [j])) Hr Hn Hu Hk' Hi') as (claims & Em & Er).
  exists (claim :: claims). split; [cbn; by rewrite E, Em|].
  cbn [run_writer run_command fmap list_fmap]. rewrite Ha. cbn [fst snd]. rewrite Er.
  by rewrite <- (with_fixtures_cons _ _ _ _ Hjn Hun).
Qed.

Lemma with_fixtures_dom block_idx js :
  dom (nullifiers (with_fixtures empty_db block_idx js)) = list_to_set ((λ j, (SUB_TREE_ID_UTXO, j)) <$> js).
Proof.
  cbn. rewrite (right_id_L ∅ (∪)), dom_list_to_map_L, <- list_fmap_compose. done.
Qed.

Lemma with_fixtures_row block_idx js j :
  NoDup (fixture_utxo_id block_idx <$> js) → j ∈ js →
  starstream_utxos (with_fixtures empty_db block_idx js) !! fixture_utxo_id block_idx j = Some (fixture_row block_idx j).
Proof.
  intros Hn Hj. cbn. rewrite (right_id_L ∅ (∪)). apply elem_of_list_to_map_1.
  - by rewrite <- list_fmap_compose.
  - apply list_elem_of_fmap. by exists j.
Qed.

(** The fixture panics exactly outside the tree. *)
Lemma synthetic_claim_total i : is_u64 i → is_Some (build_synthetic_accepted_claim i) ↔ i < 256.
Proof.
  intros Hi. destruct (Z.ltb_spec i 256) as [H|H].
  - split; [done|intros _]. destruct fixtures as (c & Hc & Hb & Hfx). destruct (Hfx i) as [w Hw]; [unfold in_range in *; lia|].
    destruct (fixture_claim c i w Hc Hb) as (claim & E & _); [unfold in_range in *; lia|done|]. by exists claim.
  - split; [|lia]. unfold build_synthetic_accepted_claim, witness_at.
    destruct (Z.leb_spec 256 i); [|lia]. by intros [x ?].
Qed.

(** C22: The synthetic claims are accepted, all of them.  For pairwise distinct
    leaves of the 256-leaf tree, in any order, building the claims does not
    panic, they are all made for one commitment, and the writer of an empty
    ledger answers every one of them with success: exactly the named leaves
    are then claimed, and each claim has created the UTxO with the value that
    its leaf states, unless the ids of two of these UTxOs are an explicit
    BLAKE3 collision. *)
Theorem synthetic_claims_applied {SF : SqliteFiles} {Membership : Type} `{CL : Ciborium LogId}
    (w : Writer) block_idx js (Hw : wr_db w = empty_db) (Hb : block_idx < 2 ^ 63)
    (Hjs : Forall (λ j, 0 <= j < 256) js) (Hn : NoDup js) :
  ∃ c claims, mapM build_synthetic_accepted_claim js = Some claims ∧
    Forall (λ j, fst <$> witness_at j = Some c) js ∧
    ((∃ j k, j ∈ js ∧ k ∈ js ∧
        Collision blake3_256 (fixture_utxo_preimage block_idx j, fixture_utxo_preimage block_idx k)) ∨
     ∃ w', run_writer (Membership:=Membership) w (ApplyClaim block_idx c <$> claims) =
         (w', replicate (length js) (ReplyUnit (Ok ()))) ∧
       dom (nullifiers (wr_db w')) = list_to_set ((λ j, (SUB_TREE_ID_UTXO, j)) <$> js) ∧
       ∀ j, j ∈ js → ur_value <$> (starstream_utxos (wr_db w') !! fixture_utxo_id block_idx j) = Some (j + 10000)).
Proof.
  destruct fixtures as (c & Hc & Hbr & Hfx). exists c.
  assert (Hcs : Forall (λ j, fst <$> witness_at j = Some c) js).
  { eapply list.Forall_impl; [exact Hjs|]. intros j Hj. destruct (Hfx j Hj) as [x Hx]. by rewrite (fx_built _ _ _ Hx). }
  destruct (fmap_nodup_or (fixture_utxo_id block_idx) js Hn) as [Hu|(j & k & Hj & Hk & Hne & E)].
  - destruct (fixtures_run (Membership:=Membership) c block_idx js w Hc Hbr Hfx Hb Hjs Hn Hu) as (claims & Em & Er);
      [rewrite Hw; by apply list.Forall_true..|].
    exists claims. split; [done|]. split; [done|]. right. eexists. split; [exact Er|]. rewrite Hw. cbn [wr_db set_db].
    split; [apply with_fixtures_dom|]. intros j Hj. by rewrite with_fixtures_row.
  - rewrite list.Forall_forall in Hjs. destruct (mapM_is_Some_2 build_synthetic_accepted_claim js) as [claims Em].
    { apply list.Forall_forall. intros i Hi%Hjs. apply synthetic_claim_total; [split; lia|lia]. }
    exists claims. split; [done|]. split; [done|]. left. exists j, k. split; [done|]. split; [done|].
    apply Hjs in Hj, Hk. apply fixture_utxo_collision; [split; lia..|done|done].
Qed.

End Claims.
