(* ===== verification/LedgerExamples.v ===== *)
(** * Instances and examples for the ledger

    Codecs and database images built from [Countable] satisfy the laws of the
    third-party code; every theorem about the ledger is applied to a concrete
    claim, log or snapshot. *)

From S2P Require Import Prelude Hash Tree TreeSpec ClaimTx ClaimTxSpec Prover Verifier VerifierSpec.
From S2P Require Import Blake3 Blake3Spec Blake3Rows Air AirSound AirComplete ProofSystem ProofExamples.
From S2P Require Import Ledger Storage LedgerSpec StorageSpec Recovery LedgerProof Bundle Fixtures.
From Stdlib Require Import ZArith Lia List String Sorted.
From stdpp Require Import base decidable strings gmap list.

Local Open Scope Z_scope.

(** ** Codecs *)

#[export] Instance LogId_eq_dec : EqDecision LogId.
Proof. solve_decision. Defined.

#[export] Instance LogId_countable : Countable LogId.
Proof.
  apply (inj_countable' (λ l, (li_term l, li_node l, li_index l)) (λ x, match x with (a, b, c) => Build_LogId a b c end)).
  by intros [].
Defined.

#[export] Instance ClaimWitness_eq_dec : EqDecision ClaimWitness.
Proof. solve_decision. Defined.

#[export] Instance ClaimWitness_countable : Countable ClaimWitness.
Proof.
  apply (inj_countable' (λ w, (leaf_payload w, merkle_path w, signing_key_proof w))
    (λ x, match x with (a, b, c) => Build_ClaimWitness a b c end)). by intros [].
Defined.

#[export] Instance ClaimUtxo_eq_dec : EqDecision ClaimUtxo.
Proof. solve_decision. Defined.

#[export] Instance ClaimCollection_eq_dec : EqDecision ClaimCollection.
Proof. solve_decision. Defined.

#[export] Instance ClaimTx_eq_dec : EqDecision ClaimTx.
Proof. solve_decision. Defined.

#[export] Instance ClaimTx_countable : Countable ClaimTx.
Proof.
  apply (inj_countable'
    (λ t, match t with
          | TxUtxo c => inl (cu_public c, cu_witness c, cu_proof c)
          | TxCollection c => inr (cc_public c, cc_witness c, cc_proof c)
          end)
    (λ x, match x with
          | inl (a, b, c) => TxUtxo (Build_ClaimUtxo a b c)
          | inr (a, b, c) => TxCollection (Build_ClaimCollection a b c)
          end)). by intros [[]|[]].
Defined.

#[export] Instance LedgerCommand_eq_dec : EqDecision LedgerCommand.
Proof. solve_decision. Defined.

#[export] Instance LedgerCommand_countable : Countable LedgerCommand.
Proof.
  apply (inj_countable' (λ l, (lc_block_idx l, lc_commitment l, lc_claim l))
    (λ x, match x with (a, b, c) => Build_LedgerCommand a b c end)). by intros [].
Defined.

#[export] Instance EntryPayload_eq_dec : EqDecision (@EntryPayload Z).
Proof. solve_decision. Defined.

#[export] Instance EntryPayload_countable : Countable (@EntryPayload Z).
Proof.
  apply (inj_countable'
    (λ p, match p with Blank => None | Normal c => Some (inl c) | MembershipChange m => Some (inr m) end)
    (λ x, match x with None => Blank | Some (inl c) => Normal c | Some (inr m) => MembershipChange m end)).
  by intros [].
Defined.

#[export] Instance RaftEntry_eq_dec : EqDecision (@RaftEntry Z).
Proof. solve_decision. Defined.

#[export] Instance RaftEntry_countable : Countable (@RaftEntry Z).
Proof.
  apply (inj_countable' (λ e, (re_log_id e, re_payload e)) (λ x, match x with (a, b) => Build_RaftEntry a b end)).
  by intros [].
Defined.

#[export] Instance SnapshotMeta_eq_dec : EqDecision (@SnapshotMeta Z).
Proof. solve_decision. Defined.

#[export] Instance SnapshotMeta_countable : Countable (@SnapshotMeta Z).
Proof.
  apply (inj_countable' (λ m, (sm_last_log_id m, sm_last_membership m, sm_snapshot_id m))
    (λ x, match x with (a, b, c) => Build_SnapshotMeta a b c end)). by intros [].
Defined.

#[export] Instance StoredMembership_countable : Countable (@StoredMembership Z).
Proof. unfold StoredMembership. apply _. Defined.

#[export] Instance UtxoRow_eq_dec : EqDecision UtxoRow.
Proof. solve_decision. Defined.

#[export] Instance UtxoRow_countable : Countable UtxoRow.
Proof.
  apply (inj_countable'
    (λ r, (ur_recipient r, ur_value r, ur_asset_blob r, ur_datum r, ur_script_ref r, ur_block_idx r, ur_spent_in r))
    (λ x, match x with (a, b, c, d, e, f, g) => Build_UtxoRow a b c d e f g end)). by intros [].
Defined.

#[export] Instance Db_eq_dec : EqDecision Db.
Proof. solve_decision. Defined.

#[export] Instance Db_countable : Countable Db.
Proof.
  apply (inj_countable' (λ d, (raft_log d, raft_meta d, nullifiers d, starstream_utxos d, genesis d))
    (λ x, match x with (a, b, c, d, e) => Build_Db a b c d e end)). by intros [].
Defined.

#[local] Instance countable_ciborium `{Countable A} : Ciborium A :=
  {| into_writer := codec_encode; from_reader := codec_decode |}.

#[local] Instance countable_ciborium_laws `{Countable A} : CiboriumLaws A.
Proof. split. intros x b Hb. destruct (codec_roundtrip x) as (b' & E & D). cbn in *. by simplify_eq. Qed.

(** Images of databases; the empty file has no tables. *)
#[local] Instance image_files : SqliteFiles :=
  {| db_image db := positive_bytes (encode db);
     open_image b := match b with
       | [] => MissingTables
       | _ => match decode (bytes_positive b) with Some db => Opened db | None => NotADatabase end
       end |}.

#[local] Instance image_files_laws : SqliteFilesLaws image_files.
Proof.
  split; [|done]. intros db. cbn. assert (H : positive_bytes (encode db) ≠ []).
  { intros E%(f_equal length). unfold positive_bytes in E. rewrite length_be_bytes in E. by destruct (encode db). }
  destruct (positive_bytes (encode db)) as [|b bs] eqn:E; [done|]. by rewrite <- E, bytes_positive_bytes, decode_encode.
Qed.

(** ** Examples *)

Module ExampleLedger.
Import ExampleBlake3 ExampleProof.
#[local] Existing Instances chunk_hashes chunk_hash_lengths chunk_hash_laws checked_rows checked_rows_complete
  checked_rows_sound transparent transparent_prover transparent_laws.

Definition tx (proof : bytes) : ClaimTx :=
  TxUtxo {| cu_public := public;
            cu_witness := {| leaf_payload := ascii_bytes "gamma"; merkle_path := []; signing_key_proof := [] |};
            cu_proof := proof |}.

Definition node : Writer := {| wr_db := empty_db; wr_files := ∅; wr_attached := false |}.

Lemma tx_wf proof : wf_claim (tx proof).
Proof. constructor; [apply claim_wf|done]. Qed.

Lemma tx_applicable proof : verify_claim header [public] proof = Ok () → applicable empty_db 7 header (tx proof).
Proof.
  intros Hv. split; [done|]. split; [done|]. split; [done|].
  split; [by constructor|]. split; [by constructor|]. split; [apply NoDup_singleton|].
  split; [by constructor|]. split; [apply NoDup_singleton|by constructor].
Qed.

Lemma apply_claim_tx_spec_witness :
  ∃ proof, apply_claim_tx empty_db 7 header (tx proof) = (applied empty_db 7 (tx proof), Ok ()).
Proof.
  destruct accepted_proof as [proof Hv]. exists proof.
  destruct (apply_claim_tx_spec chunk_hash_lengths empty_db 7 header (tx proof) committed_wf (tx_wf proof))
    as [[_ H]|[H _]]; [done|]. destruct H. by apply tx_applicable.
Defined.

Lemma log_ids_encode (id : LogId) : is_Some (into_writer id).
Proof. by eexists. Qed.

(** One claim twice, and a synthetic one. *)
Definition claim_cmds (proof : bytes) : list (@WriteCmd Z) :=
  [ApplyClaim 7 header (tx proof); ApplyClaim 8 header (tx proof); InsertSyntheticClaim 1 5 9].

Lemma claim_cmds_wf proof : Forall wf_cmd (claim_cmds proof).
Proof.
  constructor; [|constructor; [|constructor; [|done]]]; [..|by repeat split];
    (split; [apply committed_wf|]; split; [apply tx_wf|by split]).
Qed.

Lemma each_leaf_claimed_once_witness :
  let cmds := claim_cmds [] in
  let ks := run_keys cmds (run_writer node cmds).2 in
  NoDup ks ∧ Forall (λ k, k ∉ dom (nullifiers (wr_db node))) ks ∧
  dom (nullifiers (wr_db (run_writer node cmds).1)) = dom (nullifiers (wr_db node)) ∪ list_to_set ks ∧
  nullifier_count (wr_db (run_writer node cmds).1) = (nullifier_count (wr_db node) + length ks)%nat ∧
  starstream_utxo_count (wr_db (run_writer node cmds).1) = (starstream_utxo_count (wr_db node) + length ks)%nat.
Proof.
  cbv zeta. apply (each_leaf_claimed_once log_ids_encode).
  - apply claim_cmds_wf.
  - by repeat constructor.
  - apply surjective_pairing.
Defined.

Lemma writer_invariant_witness :
  let cmds : list (@WriteCmd Z) :=
    [InsertSyntheticClaim 1 5 9; TakeSnapshot "a"; RestoreSnapshot "snapshot-a.sqlite"] in
  wf_writer (run_writer node cmds).1.
Proof.
  cbv zeta. eapply (writer_invariant image_files_laws); [|apply surjective_pairing].
  by repeat constructor.
Defined.

Lemma applied_leaf_committed_witness :
  ∃ payload path,
    match open_collision (depth tree) (padded_preimages 1 (stable_sort bytes_le payloads)) 2
            (leaf_preimage 1 2 payload) (rev path) with
    | Some x => Collision blake3_256 x
    | None => 0 <= 2 < Z.of_nat (length payloads) ∧ stable_sort bytes_le payloads !! Z.to_nat 2 = Some payload
    end.
Proof.
  destruct accepted_proof as [proof Hv].
  apply (applied_leaf_committed empty_db 7 header (tx proof) public payloads tree committed_wf (tx_wf proof)).
  - done.
  - by rewrite (apply_claim_tx_ok _ _ _ _ (tx_applicable proof Hv)).
  - left.
  - by_compute.
  - exact committed_tree.
Defined.

(** A claim whose clear-text witness asks for 1000 000 coins. *)
Lemma own_commitment_any_value_witness :
  ∃ proof, let cw := {| leaf_payload := be_bytes 8 0 ++ be_bytes 8 1000000; merkle_path := []; signing_key_proof := [] |} in
    let claim := TxUtxo {| cu_public := public; cu_witness := cw; cu_proof := proof |} in
    let uid := starstream_utxo_id (recipient_starstream_addr public) (leaf_payload cw) 0 0 in
    ∃ db', apply_claim_tx empty_db 0 header claim = (db', Ok ()) ∧
      ur_value <$> (starstream_utxos db' !! uid) = Some 1000000.
Proof.
  destruct (own_commitment_any_value empty_db header witness committed_wf witness_checks claim_wf witness_path)
    as [proof H]; [done..|]. exists proof. cbv zeta. apply H; done.
Defined.

Lemma synthetic_claims_applied_witness :
  let js := [42; 255; 0] in
  ∃ c claims, mapM build_synthetic_accepted_claim js = Some claims ∧
    ((∃ j k, j ∈ js ∧ k ∈ js ∧ Collision blake3_256 (fixture_utxo_preimage 7 j, fixture_utxo_preimage 7 k)) ∨
     ∃ w', run_writer (Membership:=Z) node (ApplyClaim 7 c <$> claims) = (w', replicate 3 (ReplyUnit (Ok ()))) ∧
       ur_value <$> (starstream_utxos (wr_db w') !! fixture_utxo_id 7 42) = Some 10042).
Proof.
  cbv zeta. destruct (synthetic_claims_applied (Membership:=Z) node 7 [42; 255; 0])
    as (c & claims & Hm & _ & H).
  - reflexivity.
  - done.
  - repeat (constructor; [lia|]). constructor.
  - apply (bool_decide_unpack _). reflexivity.
  - exists c, claims. split; [exact Hm|]. destruct H as [H|(w' & Hr & _ & Hv)]; [by left|right].
    exists w'. split; [exact Hr|]. apply (Hv 42). left.
Defined.

Definition log_id (i : Z) : LogId := {| li_term := 1; li_node := 2; li_index := i |}.
Definition blank (i : Z) : @RaftEntry Z := {| re_log_id := log_id i; re_payload := Blank |}.
Definition change (i : Z) : @RaftEntry Z := {| re_log_id := log_id i; re_payload := MembershipChange 3 |}.

Lemma apply_batches_concat_witness :
  apply_batches node [[blank 1; change 2]; [blank 3]] = apply_to_state_machine node [blank 1; change 2; blank 3].
Proof.
  apply (apply_batches_concat (HL:=chunk_hash_lengths) log_ids_encode node [[blank 1; change 2]; [blank 3]]).
  repeat constructor. eexists. apply sto_encode_ok. split; [done|]. vm_compute. discriminate.
Defined.

Lemma log_id_stored (i : Z) b : codec_encode (log_id i) = Some b → Z.of_nat (length b) <= MAX_STORAGE_PAYLOAD_BYTES →
  ∃ b, sto_encode (log_id i) = Ok b.
Proof. intros E Hl. exists b. by apply sto_encode_ok. Qed.

(** A claim and a membership change; the node crashes after the claim. *)
Definition claim_entry (proof : bytes) : @RaftEntry Z :=
  {| re_log_id := log_id 1; re_payload := Normal {| lc_block_idx := 7; lc_commitment := header; lc_claim := tx proof |} |}.

Lemma claim_entries_next proof : next_entries node [claim_entry proof; change 2].
Proof.
  split; [|split; [|split]].
  - constructor; [|constructor; [|done]]; (split; [|]); [|done..|].
    + split; [apply committed_wf|]. split; [apply tx_wf|by split].
    + eexists. apply sto_encode_ok. split; [done|]. vm_compute. discriminate.
  - repeat constructor; (eapply log_id_stored; [reflexivity|]); vm_compute; discriminate.
  - repeat constructor.
  - exists None. split; [done|]. by repeat constructor.
Qed.

Lemma crash_recovery_witness :
  ∃ proof, let es := [claim_entry proof; change 2] in
  let d := applied empty_db 7 (tx proof) in
  ∃ w1 rs1 w2 rs2, apply_to_state_machine node es = (w1, Ok rs1) ∧ recover (restart node d) es = (w2, Ok rs2) ∧
    forget (wr_db w1) = forget (wr_db w2).
Proof.
  destruct accepted_proof as [proof Hv]. exists proof. cbv zeta.
  destruct (batch_membership_ok [claim_entry proof; change 2] None) as [m Hm]; [apply claim_entries_next|].
  apply (crash_recovery (HL:=chunk_hash_lengths) log_ids_encode node _ m _ (claim_entries_next proof) Hm).
  unfold batch_commits. right. change (wr_db node) with empty_db. cbn [entry_commits claim_entry re_payload apply_entry lc_block_idx lc_commitment lc_claim].
  rewrite (apply_claim_tx_ok empty_db 7 header (tx proof) (tx_applicable proof Hv)). left.
Defined.

Lemma membership_lost_witness :
  let es := [blank 1; change 2; blank 3] in
  let d := (apply_entries empty_db es).1 in
  ∃ id w1 rs1 w2, apply_to_state_machine node es = (w1, Ok rs1) ∧ last_applied_state w1 = Ok (Some id, Some (log_id 2, 3)) ∧
    recover (restart node d) es = (w2, Ok []) ∧ last_applied_state w2 = Ok (Some id, None).
Proof.
  cbv zeta. assert (Hn : next_entries node ([blank 1] ++ change 2 :: [blank 3])).
  { split; [|split; [|split]].
    - repeat constructor; eexists; apply sto_encode_ok; (split; [done|]); vm_compute; discriminate.
    - repeat constructor; (eapply log_id_stored; [reflexivity|]); vm_compute; discriminate.
    - repeat constructor.
    - exists None. split; [done|]. by repeat constructor. }
  pose proof (proj1 (Forall_cons _ _ _) (proj2 (proj1 (Forall_cons _ _ _) (proj1 Hn)))) as [[_ [b Hb]] _].
  destruct (membership_lost (HL:=chunk_hash_lengths) log_ids_encode node [blank 1] [blank 3] (change 2) 3 b None None)
    as (id & w1 & rs1 & w2 & _ & H); [done|by repeat constructor|exact Hb|exact Hn|done|by exists id, w1, rs1, w2].
Defined.

Lemma raft_log_refinement_witness :
  let l := {| al_entries := ∅; al_purged := None |} in
  let ops := [OpAppend [blank 1; change 2; blank 3]; OpDeleteSince (log_id 3); OpPurge (log_id 1)] in
  ∃ w', run_ops node ops = (w', Ok ()) ∧ refines w' (foldl abs_op l ops) ∧
    ∃ es, try_get_log_entries w' (Included 0) Unbounded = Ok es ∧
      ∀ e, e ∈ es ↔ al_entries (foldl abs_op l ops) !! entry_index e = Some e ∧ in_bounds 0 None (entry_index e) = true.
Proof.
  cbv zeta. destruct (raft_log_refinement node {| al_entries := ∅; al_purged := None |}
    [OpAppend [blank 1; change 2; blank 3]; OpDeleteSince (log_id 3); OpPurge (log_id 1)]) as (w' & H1 & H2 & H3 & _).
  - repeat constructor; eexists; apply sto_encode_ok; (split; [done|]); vm_compute; discriminate.
  - split; [|apply map_Forall_empty|done]. cbn. by rewrite fmap_empty.
  - exists w'. split; [done|]. split; [done|].
    destruct (H3 (Included 0) Unbounded 0 None) as (es & He & _ & Hin); [done..|]. by exists es.
Defined.

Lemma meta_encodes : ∃ b, sto_encode (built_meta (Membership:=Z) None None) = Ok b.
Proof. eexists. apply sto_encode_ok. split; [done|]. vm_compute. discriminate. Qed.

Lemma snapshot_transfer_witness :
  let meta := built_meta (Membership:=Z) None None in
  ∃ w1 image w2, build_snapshot node = (w1, Ok (meta, image)) ∧
    install_snapshot node meta image = (w2, Ok ()) ∧ wr_db w2 = wr_db w1.
Proof.
  cbv zeta. destruct meta_encodes as [b Hb].
  destruct (snapshot_transfer node node None None b) as (w1 & image & w2 & H1 & _ & H3 & _ & H5 & _); [done..|].
  by exists w1, image, w2.
Defined.

Lemma installed_snapshot_lost_witness :
  let meta := built_meta (Membership:=Z) None None in
  ∃ w', install_snapshot node meta (db_image empty_db) = (w', Ok ()) ∧
    get_current_snapshot (Membership:=Z) w' = Err StoRead ∧ read_vote (Vote:=Z) w' = Ok None.
Proof.
  cbv zeta. destruct meta_encodes as [b Hb].
  apply (installed_snapshot_lost (Vote:=Z) node _ (db_image empty_db) empty_db b); [done|apply open_db_image|done].
Defined.

Lemma failed_restore_blocks_witness :
  let w1 := (restore_snapshot node "missing.sqlite").1 in
  let cmds : list (@WriteCmd Z) := [TakeSnapshot "a"] in
  restore_snapshot (run_writer w1 cmds).1 "snapshot-a.sqlite" = ((run_writer w1 cmds).1, Err LeSqlite).
Proof. cbv zeta. by apply (failed_restore_blocks node "missing.sqlite"). Defined.

End ExampleLedger.
