(* ===== verification/Network.v ===== *)
(** * The network crate: frames, snapshot transfer and the raft swarm

    [omega-network/src/{protocol,rpc,snapshot,network,inbound,discovery}.rs].
    Frames and the CBOR envelope work on byte strings; the snapshot receiver
    is a state machine over the files of its directory; the swarm is a state
    machine over libp2p's events, with libp2p's own work (sockets, request
    ids) as inputs and the messages it sends as outputs.

    openraft's request and response types are parameters; I/O faults of the
    disk are not modelled.  The outbound queue is in [Outbound]. *)

From S2P Require Import Prelude Text Hash Storage.
From Stdlib Require Import ZArith Lia List String.
From stdpp Require Import base decidable strings pretty gmap list.

Local Open Scope Z_scope.

(** ** Frames *)

Definition MAX_RAFT_RPC_BYTES : Z := 16 * 1024 * 1024.
Definition MAX_FRAME_BYTES : Z := MAX_RAFT_RPC_BYTES.

Inductive OmegaNetworkError : Type :=
| NeCodec
| NeOversize (actual max : Z)
| NeOutboundClosed
| NeOutboundFull
| NeReplyDropped
| NeTimeout
| NeWrongResponse (expected actual : string).

(** [io::ErrorKind]. *)
Inductive IoError : Type := IoInvalidData | IoUnexpectedEof.

(** [read_exact]: the next [n] bytes of the stream and the rest of it. *)
Definition read_exact (n : nat) (io : bytes) : result (bytes * bytes) IoError :=
  guard! (n <=? length io)%nat else IoUnexpectedEof;
  Ok (take n io, drop n io).

Definition read_frame (io : bytes) : result (bytes * bytes) IoError :=
  let? r := read_exact 4 io in
  let len := be_val r.1 in
  guard! (len <=? MAX_FRAME_BYTES) else IoInvalidData;
  read_exact (Z.to_nat len) r.2.

(** The bytes that [write_frame] writes. *)
Definition write_frame (b : bytes) : result bytes IoError :=
  guard! (Z.of_nat (length b) <=? MAX_FRAME_BYTES) else IoInvalidData;
  guard! (Z.of_nat (length b) <? 2 ^ 32) else IoInvalidData;
  Ok (be_bytes 4 (Z.of_nat (length b)) ++ b).

Section Codec.
Context `{Ciborium A}.

Definition encode_cbor (value : A) : result bytes OmegaNetworkError :=
  ok_or (into_writer value) NeCodec.

Definition decode_cbor (b : bytes) : result A OmegaNetworkError :=
  guard! (Z.of_nat (length b) <=? MAX_RAFT_RPC_BYTES)
    else NeOversize (Z.of_nat (length b)) MAX_RAFT_RPC_BYTES;
  ok_or (from_reader b) NeCodec.

(** [RaftCodec::read_request] and [read_response]. *)
Definition read_message (io : bytes) : result (A * bytes) IoError :=
  let? r := read_frame io in
  let? value := res_map_err (λ _, IoInvalidData) (decode_cbor r.1) in
  Ok (value, r.2).

(** [RaftCodec::write_request] and [write_response]. *)
Definition write_message (value : A) : result bytes IoError :=
  let? b := res_map_err (λ _, IoInvalidData) (encode_cbor value) in
  write_frame b.

End Codec.

(** ** Snapshot transfer *)

Definition MAX_SNAPSHOT_CHUNK_BYTES : Z := 1024 * 1024.

Record SnapshotInit := {
  si_snapshot_id : string;
  si_total_chunks : Z;
  si_total_bytes : Z;
  si_sha3_of_full : bytes
}.

Record SnapshotChunk := {
  sc_snapshot_id : string;
  sc_chunk_idx : Z;
  sc_payload : bytes
}.

Record SnapshotFinalize := {
  sf_snapshot_id : string;
  sf_sha3_of_full : bytes
}.

Inductive SnapshotFrame : Type :=
| FrameInit (init : SnapshotInit)
| FrameChunk (chunk : SnapshotChunk)
| FrameFinalize (finalize : SnapshotFinalize).

Inductive SnapshotAck : Type :=
| AckAccepted (snapshot_id : string) (next_chunk_idx : Z)
| AckComplete (snapshot_id : string) (installed_path : string).

Inductive SnapshotProtocolError : Type :=
| ActiveSnapshotError
| NoActiveSnapshot
| SnapshotIdMismatch (expected actual : string)
| OutOfOrderChunk (expected actual : Z)
| UnexpectedChunk (total_chunks actual : Z)
| ChunkTooLarge (actual max : Z)
| BytesExceedTotal (actual expected : Z)
| FinalizeBeforeAllChunks (expected actual : Z)
| ByteCountMismatch (expected actual : Z)
| HashMismatch.

Section Snapshot.
Context {HF : HashFns}.

(** [usize::div_ceil]. *)
Definition div_ceil (a b : Z) : Z := (a + b - 1) / b.

(** [bytes.chunks(n)]; every round takes at least one byte for [n > 0], so
    the length of the input is enough fuel. *)
Fixpoint chunks_fuel (fuel : nat) (n : nat) (b : bytes) : list bytes :=
  match fuel, b with
  | S fuel', _ :: _ => take n b :: chunks_fuel fuel' n (drop n b)
  | _, _ => []
  end.

Definition chunks (n : nat) (b : bytes) : list bytes := chunks_fuel (length b) n b.

(** The chunk frames of the payloads, numbered from [chunk_idx]. *)
Fixpoint chunk_frames (snapshot_id : string) (chunk_idx : Z) (payloads : list bytes) :
    list SnapshotFrame :=
  match payloads with
  | [] => []
  | payload :: payloads' =>
      FrameChunk {| sc_snapshot_id := snapshot_id; sc_chunk_idx := chunk_idx; sc_payload := payload |}
        :: chunk_frames snapshot_id (chunk_idx + 1) payloads'
  end.

Definition chunk_snapshot_bytes (snapshot_id : string) (b : bytes) : list SnapshotFrame :=
  let digest := sha3_256 b in
  let total_chunks := match b with
    | [] => 0
    | _ => div_ceil (Z.of_nat (length b)) MAX_SNAPSHOT_CHUNK_BYTES
    end in
  FrameInit {| si_snapshot_id := snapshot_id; si_total_chunks := total_chunks;
               si_total_bytes := Z.of_nat (length b); si_sha3_of_full := digest |}
  :: chunk_frames snapshot_id 0 (chunks (Z.to_nat MAX_SNAPSHOT_CHUNK_BYTES) b)
  ++ [FrameFinalize {| sf_snapshot_id := snapshot_id; sf_sha3_of_full := digest |}].

(** The file is the one at [as_staged_path]. *)
Record ActiveSnapshot := {
  as_init : SnapshotInit;
  as_next_chunk_idx : Z;
  as_bytes_received : Z;
  as_staged_path : string
}.

(** The receiver with the files it sees. *)
Record Receiver := {
  rc_staging_dir : string;
  rc_installed_path : string;
  rc_active : option ActiveSnapshot;
  rc_files : gmap string bytes
}.

Definition set_active (r : Receiver) (a : option ActiveSnapshot) : Receiver :=
  {| rc_staging_dir := rc_staging_dir r; rc_installed_path := rc_installed_path r;
     rc_active := a; rc_files := rc_files r |}.

Definition set_files (r : Receiver) (files : gmap string bytes) : Receiver :=
  {| rc_staging_dir := rc_staging_dir r; rc_installed_path := rc_installed_path r;
     rc_active := rc_active r; rc_files := files |}.

(** [hex::encode]. *)
Definition hex_digit (n : Z) : string :=
  match String.get (Z.to_nat n) "0123456789abcdef" with
  | Some a => String a EmptyString
  | None => EmptyString
  end.

Fixpoint hex_encode (b : bytes) : string :=
  match b with
  | [] => EmptyString
  | x :: b' => (hex_digit (b2z x / 16) +:+ hex_digit (b2z x mod 16) +:+ hex_encode b')%string
  end.

Definition staged_path (r : Receiver) (snapshot_id : string) : string :=
  let digest := sha3_256 (ascii_bytes snapshot_id) in
  (rc_staging_dir r +:+ "/snapshot-" +:+ hex_encode (take 8 digest) +:+ ".part")%string.

Definition receive_init (r : Receiver) (init : SnapshotInit) :
    Receiver * result SnapshotAck SnapshotProtocolError :=
  match rc_active r with
  | Some _ => (r, Err ActiveSnapshotError)
  | None =>
      let path := staged_path r (si_snapshot_id init) in
      let active := {| as_init := init; as_next_chunk_idx := 0; as_bytes_received := 0;
                       as_staged_path := path |} in
      (set_active (set_files r (<[path := []]> (delete path (rc_files r)))) (Some active),
       Ok (AckAccepted (si_snapshot_id init) 0))
  end.

(** A [u64] addition that overflows panics. *)
Definition receive_chunk (r : Receiver) (chunk : SnapshotChunk) :
    Receiver * result SnapshotAck SnapshotProtocolError :=
  match rc_active r with
  | None => (r, Err NoActiveSnapshot)
  | Some active =>
      let init := as_init active in
      let len := Z.of_nat (length (sc_payload chunk)) in
      if negb (String.eqb (sc_snapshot_id chunk) (si_snapshot_id init)) then
        (r, Err (SnapshotIdMismatch (si_snapshot_id init) (sc_snapshot_id chunk)))
      else if negb (sc_chunk_idx chunk =? as_next_chunk_idx active) then
        (r, Err (OutOfOrderChunk (as_next_chunk_idx active) (sc_chunk_idx chunk)))
      else if si_total_chunks init <=? as_next_chunk_idx active then
        (r, Err (UnexpectedChunk (si_total_chunks init) (sc_chunk_idx chunk)))
      else if MAX_SNAPSHOT_CHUNK_BYTES <? len then
        (r, Err (ChunkTooLarge len MAX_SNAPSHOT_CHUNK_BYTES))
      else
        let new_total := as_bytes_received active + len in
        if 2 ^ 64 <=? new_total then (r, Panic)
        else if si_total_bytes init <? new_total then
          (r, Err (BytesExceedTotal new_total (si_total_bytes init)))
        else
          let path := as_staged_path active in
          let content := default [] (rc_files r !! path) ++ sc_payload chunk in
          let active' := {| as_init := init; as_next_chunk_idx := as_next_chunk_idx active + 1;
                            as_bytes_received := new_total; as_staged_path := path |} in
          (set_active (set_files r (<[path := content]> (rc_files r))) (Some active'),
           Ok (AckAccepted (si_snapshot_id init) (as_next_chunk_idx active + 1)))
  end.

Definition remove_staged (r : Receiver) (path : string) : Receiver := set_files r (delete path (rc_files r)).

Definition receive_finalize (r : Receiver) (finalize : SnapshotFinalize) :
    Receiver * result SnapshotAck SnapshotProtocolError :=
  match rc_active r with
  | None => (r, Err NoActiveSnapshot)
  | Some active =>
      let r := set_active r None in
      let init := as_init active in
      let path := as_staged_path active in
      if negb (String.eqb (sf_snapshot_id finalize) (si_snapshot_id init)) then
        (remove_staged r path, Err (SnapshotIdMismatch (si_snapshot_id init) (sf_snapshot_id finalize)))
      else if negb (as_next_chunk_idx active =? si_total_chunks init) then
        (remove_staged r path, Err (FinalizeBeforeAllChunks (si_total_chunks init) (as_next_chunk_idx active)))
      else if negb (as_bytes_received active =? si_total_bytes init) then
        (remove_staged r path, Err (ByteCountMismatch (si_total_bytes init) (as_bytes_received active)))
      else if negb (bool_decide (sf_sha3_of_full finalize = si_sha3_of_full init)) then
        (remove_staged r path, Err HashMismatch)
      else
        let staged := default [] (rc_files r !! path) in
        if negb (bool_decide (sha3_256 staged = sf_sha3_of_full finalize)) then
          (remove_staged r path, Err HashMismatch)
        else
          let files := <[rc_installed_path r := staged]> (delete path (delete (rc_installed_path r) (rc_files r))) in
          (set_files r files, Ok (AckComplete (si_snapshot_id init) (rc_installed_path r)))
  end.

Definition receive (r : Receiver) (frame : SnapshotFrame) :
    Receiver * result SnapshotAck SnapshotProtocolError :=
  match frame with
  | FrameInit init => receive_init r init
  | FrameChunk chunk => receive_chunk r chunk
  | FrameFinalize finalize => receive_finalize r finalize
  end.

Definition abort_on_leader_change (r : Receiver) : Receiver * bool :=
  match rc_active r with
  | None => (r, false)
  | Some active => (remove_staged (set_active r None) (as_staged_path active), true)
  end.

(** [SnapshotFileReceiver::new] in a directory with the given files. *)
Definition new_receiver (staging_dir installed_path : string) (files : gmap string bytes) : Receiver :=
  {| rc_staging_dir := staging_dir; rc_installed_path := installed_path; rc_active := None;
     rc_files := files |}.

End Snapshot.

(** ** Raft RPCs *)

Section Rpc.
Context {AppendReq VoteReq SnapshotReq AppendRes VoteRes SnapshotRes : Type}.

Inductive RaftRpcRequest : Type :=
| ReqAppendEntries (r : AppendReq)
| ReqVote (r : VoteReq)
| ReqInstallSnapshot (r : SnapshotReq).

Inductive RaftRpcResponse : Type :=
| ResAppendEntries (r : AppendRes)
| ResVote (r : VoteRes)
| ResInstallSnapshot (r : SnapshotRes).

Definition request_variant_name (r : RaftRpcRequest) : string :=
  match r with
  | ReqAppendEntries _ => "append_entries"
  | ReqVote _ => "vote"
  | ReqInstallSnapshot _ => "install_snapshot"
  end.

Definition response_variant_name (r : RaftRpcResponse) : string :=
  match r with
  | ResAppendEntries _ => "append_entries"
  | ResVote _ => "vote"
  | ResInstallSnapshot _ => "install_snapshot"
  end.

Context `{Ciborium RaftRpcRequest, Ciborium RaftRpcResponse}.

(** What the outbound queue and the reply channel answer. *)
Inductive ReplyOutcome : Type :=
| Replied (payload : result bytes OmegaNetworkError)
| ReplyLost
| Elapsed.

Inductive SendOutcome : Type :=
| Sent (reply : bytes → ReplyOutcome)
| QueueClosed
| QueueFull.

(** [LibP2pNetwork::round_trip]. *)
Definition round_trip (request : RaftRpcRequest) (outcome : SendOutcome) :
    result RaftRpcResponse OmegaNetworkError :=
  let? payload := encode_cbor request in
  guard! (Z.of_nat (length payload) <=? MAX_RAFT_RPC_BYTES)
    else NeOversize (Z.of_nat (length payload)) MAX_RAFT_RPC_BYTES;
  match outcome with
  | QueueClosed => Err NeOutboundClosed
  | QueueFull => Err NeOutboundFull
  | Sent reply =>
      match reply payload with
      | Replied payload => let? response := payload in decode_cbor response
      | ReplyLost => Err NeReplyDropped
      | Elapsed => Err NeTimeout
      end
  end.

(** [round_trip_deadline], in milliseconds. *)
Definition round_trip_deadline (hard : Z) : Z := if hard <? 50 then 5000 else hard.

Definition append_entries (rpc : AppendReq) (outcome : SendOutcome) : result AppendRes OmegaNetworkError :=
  let? response := round_trip (ReqAppendEntries rpc) outcome in
  match response with
  | ResAppendEntries r => Ok r
  | response => Err (NeWrongResponse "append_entries" (response_variant_name response))
  end.

Definition net_install_snapshot (rpc : SnapshotReq) (outcome : SendOutcome) :
    result SnapshotRes OmegaNetworkError :=
  let? response := round_trip (ReqInstallSnapshot rpc) outcome in
  match response with
  | ResInstallSnapshot r => Ok r
  | response => Err (NeWrongResponse "install_snapshot" (response_variant_name response))
  end.

Definition vote (rpc : VoteReq) (outcome : SendOutcome) : result VoteRes OmegaNetworkError :=
  let? response := round_trip (ReqVote rpc) outcome in
  match response with
  | ResVote r => Ok r
  | response => Err (NeWrongResponse "vote" (response_variant_name response))
  end.

(** ** The swarm *)

Record PeerEntry := {
  pe_node_id : Z;
  pe_peer_id : string;
  pe_address : string
}.

(** Channels and request ids are numbers. *)
Record RaftSwarm := {
  sw_peers : gmap Z PeerEntry;
  sw_peer_id_to_node : gmap string Z;
  sw_pending : gmap Z nat
}.

(** Insertion in order: a later entry for the same key wins. *)
Definition new_swarm (peers : list PeerEntry) : RaftSwarm :=
  {| sw_peers := foldl (λ m p, <[pe_node_id p := p]> m) ∅ peers;
     sw_peer_id_to_node := foldl (λ m p, <[pe_peer_id p := pe_node_id p]> m) ∅ peers;
     sw_pending := ∅ |}.

Definition set_pending (s : RaftSwarm) (pending : gmap Z nat) : RaftSwarm :=
  {| sw_peers := sw_peers s; sw_peer_id_to_node := sw_peer_id_to_node s; sw_pending := pending |}.

(** What the swarm hands to libp2p and to the reply channels. *)
Inductive Effect : Type :=
| SendRequest (peer_id : string) (request : RaftRpcRequest) (id : Z)
| SendReply (channel : nat) (payload : result bytes OmegaNetworkError)
| SendResponse (channel : nat) (response : RaftRpcResponse)
| DropChannel (channel : nat).

Record OutboundRaftRequest := {
  or_target : Z;
  or_payload : bytes;
  or_reply : nat
}.

Inductive OutboundFailure : Type :=
| FailTimeout | FailConnectionClosed | FailDialFailure | FailUnsupportedProtocols | FailIo.

Definition map_outbound_failure (e : OutboundFailure) : OmegaNetworkError :=
  match e with
  | FailTimeout => NeTimeout
  | FailConnectionClosed | FailDialFailure => NeOutboundClosed
  | FailUnsupportedProtocols | FailIo => NeCodec
  end.

(** [on_outbound]; [id] is the request id that libp2p returns. *)
Definition on_outbound (s : RaftSwarm) (out : OutboundRaftRequest) (id : Z) :
    result (RaftSwarm * list Effect) OmegaNetworkError :=
  match sw_peers s !! or_target out with
  | None => Ok (s, [SendReply (or_reply out) (Err NeOutboundClosed)])
  | Some peer =>
      let? request := decode_cbor (or_payload out) in
      Ok (set_pending s (<[id := or_reply out]> (sw_pending s)), [SendRequest (pe_peer_id peer) request id])
  end.

Inductive SwarmEvent : Type :=
| EvRequest (peer : string) (request : RaftRpcRequest) (channel : nat)
| EvResponse (request_id : Z) (response : RaftRpcResponse)
| EvOutboundFailure (request_id : Z) (error : OutboundFailure)
| EvOther.

(** [on_inbound_request]; the peer is not compared with the request. *)
Definition on_inbound_request (handle : RaftRpcRequest → result RaftRpcResponse OmegaNetworkError)
    (request : RaftRpcRequest) (channel : nat) : list Effect :=
  match handle request with
  | Ok response => [SendResponse channel response]
  | _ => [DropChannel channel]
  end.

Definition on_swarm_event (handle : RaftRpcRequest → result RaftRpcResponse OmegaNetworkError)
    (s : RaftSwarm) (event : SwarmEvent) : result (RaftSwarm * list Effect) OmegaNetworkError :=
  match event with
  | EvRequest _ request channel => Ok (s, on_inbound_request handle request channel)
  | EvResponse id response =>
      match sw_pending s !! id with
      | None => Ok (s, [])
      | Some channel =>
          let? b := encode_cbor response in
          Ok (set_pending s (delete id (sw_pending s)), [SendReply channel (Ok b)])
      end
  | EvOutboundFailure id error =>
      match sw_pending s !! id with
      | None => Ok (s, [])
      | Some channel =>
          Ok (set_pending s (delete id (sw_pending s)), [SendReply channel (Err (map_outbound_failure error))])
      end
  | EvOther => Ok (s, [])
  end.

(** What [tokio::select!] receives. *)
Inductive SwarmInput : Type :=
| InEvent (event : SwarmEvent)
| InOutbound (out : OutboundRaftRequest) (id : Z).

Definition swarm_step (handle : RaftRpcRequest → result RaftRpcResponse OmegaNetworkError)
    (s : RaftSwarm) (input : SwarmInput) : result (RaftSwarm * list Effect) OmegaNetworkError :=
  match input with
  | InEvent event => on_swarm_event handle s event
  | InOutbound out id => on_outbound s out id
  end.

(** [RaftSwarm::run] on a sequence of inputs: an error ends the loop. *)
Fixpoint run_swarm (handle : RaftRpcRequest → result RaftRpcResponse OmegaNetworkError)
    (s : RaftSwarm) (inputs : list SwarmInput) : list Effect * result RaftSwarm OmegaNetworkError :=
  match inputs with
  | [] => ([], Ok s)
  | input :: inputs' =>
      match swarm_step handle s input with
      | Ok (s', effects) =>
          let '(rest, r) := run_swarm handle s' inputs' in (effects ++ rest, r)
      | Err e => ([], Err e)
      | Panic => ([], Panic)
      end
  end.

End Rpc.

(** ** Discovery *)

Section Discovery.
Context {HF : HashFns}.
(** libp2p's [Multiaddr]. *)
Context {Multiaddr : Type} (parse_multiaddr : string → option Multiaddr).

Inductive DiscoveryError : Type :=
| MissingSeparator
| InvalidNodeId (value : string)
| EmptyMultiaddr
| InvalidMultiaddr (value : string).

Record PeerAddress := {
  pa_node_id : Z;
  pa_multiaddr : Multiaddr
}.

(** [str::split_once]. *)
Fixpoint split_once (c : Ascii.ascii) (s : string) : option (string * string) :=
  match s with
  | EmptyString => None
  | String a s' =>
      if Ascii.eqb a c then Some (EmptyString, s')
      else match split_once c s' with Some (l, r) => Some (String a l, r) | None => None end
  end.

(** [PeerAddress::from_str]. *)
Definition parse_peer_address (value : string) : result PeerAddress DiscoveryError :=
  let? parts := ok_or (split_once (Ascii.ascii_of_nat 61) value) MissingSeparator in
  let? node_id := ok_or (parse_u64 parts.1) (InvalidNodeId parts.1) in
  guard! negb (String.eqb parts.2 EmptyString) else EmptyMultiaddr;
  let? multiaddr := ok_or (parse_multiaddr parts.2) (InvalidMultiaddr parts.2) in
  Ok {| pa_node_id := node_id; pa_multiaddr := multiaddr |}.

Inductive MdnsMode : Type := MdnsDisabled | MdnsEnabled (service_name : string).

Record DiscoveryConfig := {
  dc_mdns : MdnsMode;
  dc_static_peers : list PeerAddress
}.

Definition mdns_service_name (genesis installation_salt : bytes) : string :=
  let digest := sha3_256 (ascii_bytes "omega-network:mdns-service:v1" ++
    be_bytes 8 (Z.of_nat (length genesis)) ++ genesis ++
    be_bytes 8 (Z.of_nat (length installation_salt)) ++ installation_salt) in
  ("_omega-experiment-" +:+ hex_encode (take 8 digest) +:+ "._udp.local")%string.

(** [DiscoveryConfig::new]. *)
Definition discovery_config (genesis installation_salt : bytes) (mdns_disabled : bool)
    (static_peers : list PeerAddress) : DiscoveryConfig :=
  {| dc_mdns := if mdns_disabled then MdnsDisabled else MdnsEnabled (mdns_service_name genesis installation_salt);
     dc_static_peers := static_peers |}.

End Discovery.
