(* ===== verification/NetworkSpec.v ===== *)
(** * Specification of the network crate

    Messages survive framing; a remote procedure call through two swarms
    returns what the remote handler returns; every outbound request is
    answered at most once; a snapshot sent in chunks arrives unchanged, and
    whatever frames arrive, the installed file has the digest and length that
    some init frame declared. *)

From S2P Require Import Prelude Hash Storage Network.
From Stdlib Require Import ZArith Lia List String.
From stdpp Require Import base decidable strings pretty gmap list.

Local Open Scope Z_scope.

(** ** Frames *)

Lemma read_exact_app b rest : read_exact (length b) (b ++ rest) = Ok (b, rest).
Proof.
  unfold read_exact. rewrite length_app. destruct (Nat.leb_spec (length b) (length b + length rest)); [|lia].
  by rewrite take_app_length, drop_app_length.
Qed.

Lemma read_write_frame b f rest : write_frame b = Ok f → read_frame (f ++ rest) = Ok (b, rest).
Proof.
  unfold write_frame. destruct (Z.leb_spec (Z.of_nat (length b)) MAX_FRAME_BYTES); [|done].
  destruct (Z.ltb_spec (Z.of_nat (length b)) (2 ^ 32)); [|done]. intros Hf.
  assert (f = be_bytes 4 (Z.of_nat (length b)) ++ b) as -> by congruence. unfold read_frame.
  pose proof (read_exact_app (be_bytes 4 (Z.of_nat (length b))) (b ++ rest)) as E. rewrite length_be_bytes in E.
  rewrite <- app_assoc, E. cbn [res_bind fst snd].
  rewrite be_val_be_bytes_small by (change (256 ^ Z.of_nat 4) with (2 ^ 32); lia).
  destruct (Z.leb_spec (Z.of_nat (length b)) MAX_FRAME_BYTES); [|lia]. rewrite Nat2Z.id. apply read_exact_app.
Qed.

Lemma write_frame_ok b : Z.of_nat (length b) <= MAX_RAFT_RPC_BYTES →
  write_frame b = Ok (be_bytes 4 (Z.of_nat (length b)) ++ b).
Proof.
  intros Hl. unfold write_frame, MAX_FRAME_BYTES. apply Z.leb_le in Hl as E. rewrite E.
  unfold MAX_RAFT_RPC_BYTES in Hl. destruct (Z.ltb_spec (Z.of_nat (length b)) (2 ^ 32)); [done|lia].
Qed.

Lemma decode_encode_cbor `{CiboriumLaws A} (x : A) b :
  encode_cbor x = Ok b → Z.of_nat (length b) <= MAX_RAFT_RPC_BYTES → decode_cbor b = Ok x.
Proof.
  unfold encode_cbor, decode_cbor. destruct (into_writer x) as [b'|] eqn:E; [|done]. intros [= <-] Hl.
  apply Z.leb_le in Hl. rewrite Hl. by rewrite (ciborium_roundtrip _ _ E).
Qed.

(** A message is written exactly when its encoding fits a frame, and is read
    back with the rest of the stream untouched. *)
Lemma message_roundtrip `{CiboriumLaws A} (x : A) b rest :
  encode_cbor x = Ok b → Z.of_nat (length b) <= MAX_RAFT_RPC_BYTES →
  ∃ f, write_message x = Ok f ∧ read_message (f ++ rest) = Ok (x, rest).
Proof.
  intros Eb Hl. unfold write_message, read_message. rewrite Eb. cbn [res_map_err res_bind].
  eexists. split; [by apply write_frame_ok|]. rewrite (read_write_frame b) by (by apply write_frame_ok).
  cbn [res_bind fst snd]. by rewrite (decode_encode_cbor x).
Qed.

(** ** Chunks *)

Lemma chunks_fuel_concat fuel n b : (0 < n)%nat → (length b <= fuel)%nat → concat (chunks_fuel fuel n b) = b.
Proof.
  intros Hn. revert b. induction fuel as [|fuel IH]; intros [|x b] Hl; try done; [cbn in Hl; lia|].
  cbn [chunks_fuel concat]. rewrite IH; [apply take_drop|]. rewrite length_drop. cbn [length] in *. lia.
Qed.

Lemma chunks_concat n b : (0 < n)%nat → concat (chunks n b) = b.
Proof. intros. by apply chunks_fuel_concat. Qed.

Lemma chunks_sizes n b : Forall (λ c, (length c <= n)%nat) (chunks n b).
Proof.
  unfold chunks. generalize (length b). intros fuel. revert b.
  induction fuel as [|fuel IH]; intros [|x b]; try constructor; [|apply IH]. rewrite length_take. lia.
Qed.

Lemma div_ceil_step a n : 0 < n → n <= a → div_ceil a n = 1 + div_ceil (a - n) n.
Proof. intros. unfold div_ceil. replace (a + n - 1) with (1 * n + (a - n + n - 1)) by lia. rewrite Z.div_add_l; lia. Qed.

Lemma chunks_fuel_length fuel n b :
  (0 < n)%nat → (length b <= fuel)%nat →
  Z.of_nat (length (chunks_fuel fuel n b)) = match b with [] => 0 | _ => div_ceil (Z.of_nat (length b)) (Z.of_nat n) end.
Proof.
  intros Hn. revert b. induction fuel as [|fuel IH]; intros [|x b] Hl; try done; [cbn in Hl; lia|].
  cbn [chunks_fuel]. cbn [length] in Hl. change (length (take n (x :: b) :: ?l)) with (S (length l)).
  rewrite Nat2Z.inj_succ, IH by (rewrite length_drop; cbn [length]; lia).
  destruct (drop n (x :: b)) as [|y d] eqn:E; pose proof (f_equal length E) as El; rewrite length_drop in El; cbn [length] in El.
  - unfold div_ceil. cbn [length]. change (Z.succ 0) with 1.
    apply (Z.div_unique _ _ _ (Z.of_nat (S (length b)) - 1)); lia.
  - rewrite (div_ceil_step (Z.of_nat (length (x :: b)))) by (cbn [length]; lia).
    cbn [length]. rewrite <- El. rewrite <- Z.add_1_l. f_equal. f_equal. lia.
Qed.

(** ** Snapshot transfer *)

Section Transfer.
Context {HF : HashFns}.

Fixpoint run_receiver (r : Receiver) (frames : list SnapshotFrame) :
    Receiver * list (result SnapshotAck SnapshotProtocolError) :=
  match frames with
  | [] => (r, [])
  | f :: frames' =>
      let '(r, ack) := receive r f in
      let '(r, acks) := run_receiver r frames' in
      (r, ack :: acks)
  end.

Lemma run_receiver_app r fs1 fs2 r1 acks1 :
  run_receiver r fs1 = (r1, acks1) →
  run_receiver r (fs1 ++ fs2) = ((run_receiver r1 fs2).1, acks1 ++ (run_receiver r1 fs2).2).
Proof.
  revert r acks1. induction fs1 as [|f fs1 IH]; intros r acks1; cbn [run_receiver app].
  { intros [= <- <-]. by destruct (run_receiver r fs2). }
  destruct (receive r f) as [r' ack]. destruct (run_receiver r' fs1) as [r2 acks2] eqn:E. intros [= <- <-].
  by rewrite (IH _ _ E).
Qed.

(** The receiver in the middle of a transfer. *)
Definition receiving (r : Receiver) (init : SnapshotInit) (i : Z) (content : bytes) : Receiver :=
  let path := staged_path r (si_snapshot_id init) in
  set_active (set_files r (<[path := content]> (rc_files r)))
    (Some {| as_init := init; as_next_chunk_idx := i; as_bytes_received := Z.of_nat (length content);
             as_staged_path := path |}).

Definition accepted_acks (id : string) (i : Z) (n : nat) : list (result SnapshotAck SnapshotProtocolError) :=
  (λ k, Ok (AckAccepted id (i + Z.of_nat k))) <$> seq 0 n.

Lemma accepted_acks_S id i n : accepted_acks id i (S n) = Ok (AckAccepted id i) :: accepted_acks id (i + 1) n.
Proof.
  unfold accepted_acks. cbn [seq fmap list_fmap]. rewrite Z.add_0_r. f_equal.
  rewrite <- seq_shift. rewrite <- list_fmap_compose. apply list_fmap_ext. intros k x _. cbn. do 2 f_equal. lia.
Qed.

Lemma receive_chunk_ok r init i content payload :
  i < si_total_chunks init → Z.of_nat (length payload) <= MAX_SNAPSHOT_CHUNK_BYTES →
  Z.of_nat (length content) + Z.of_nat (length payload) <= si_total_bytes init → si_total_bytes init < 2 ^ 64 →
  receive_chunk (receiving r init i content)
    {| sc_snapshot_id := si_snapshot_id init; sc_chunk_idx := i; sc_payload := payload |} =
  (receiving r init (i + 1) (content ++ payload), Ok (AckAccepted (si_snapshot_id init) (i + 1))).
Proof.
  intros Hi Hl Ht Hb. unfold receive_chunk, receiving, set_active, set_files.
  cbn [rc_active rc_files as_init as_next_chunk_idx as_bytes_received as_staged_path sc_snapshot_id sc_chunk_idx sc_payload
    rc_staging_dir rc_installed_path].
  rewrite String.eqb_refl, Z.eqb_refl. cbn [negb].
  destruct (Z.leb_spec (si_total_chunks init) i); [lia|].
  destruct (Z.ltb_spec MAX_SNAPSHOT_CHUNK_BYTES (Z.of_nat (length payload))); [lia|].
  destruct (Z.leb_spec (2 ^ 64) (Z.of_nat (length content) + Z.of_nat (length payload))); [lia|].
  destruct (Z.ltb_spec (si_total_bytes init) (Z.of_nat (length content) + Z.of_nat (length payload))); [lia|].
  rewrite lookup_insert_eq, insert_insert_eq, length_app, Nat2Z.inj_add. done.
Qed.

Lemma run_chunks_ok r init payloads i content :
  Forall (λ p, Z.of_nat (length p) <= MAX_SNAPSHOT_CHUNK_BYTES) payloads →
  i + Z.of_nat (length payloads) <= si_total_chunks init →
  Z.of_nat (length (content ++ concat payloads)) <= si_total_bytes init → si_total_bytes init < 2 ^ 64 →
  run_receiver (receiving r init i content) (chunk_frames (si_snapshot_id init) i payloads) =
  (receiving r init (i + Z.of_nat (length payloads)) (content ++ concat payloads),
   accepted_acks (si_snapshot_id init) (i + 1) (length payloads)).
Proof.
  intros Hp. revert i content. induction Hp as [|p ps Hp _ IH]; intros i content Hi Ht Hb; cbn [chunk_frames run_receiver concat].
  { rewrite app_nil_r, Z.add_0_r. done. }
  cbn [concat] in Ht. rewrite app_assoc in Ht. rewrite app_assoc. cbn [length] in *.
  pose proof (length_app (content ++ p) (concat ps)). pose proof (length_app content p).
  cbn [receive]. rewrite receive_chunk_ok by lia. rewrite IH by lia. rewrite accepted_acks_S.
  by replace (i + 1 + Z.of_nat (length ps)) with (i + Z.of_nat (S (length ps))) by lia.
Qed.

Lemma receive_init_ok r init :
  rc_active r = None →
  receive_init r init = (receiving r init 0 [], Ok (AckAccepted (si_snapshot_id init) 0)).
Proof. intros Ha. unfold receive_init, receiving. rewrite Ha. by rewrite insert_delete_eq. Qed.

Lemma receive_finalize_ok r init content :
  staged_path r (si_snapshot_id init) ≠ rc_installed_path r →
  Z.of_nat (length content) = si_total_bytes init → sha3_256 content = si_sha3_of_full init →
  receive_finalize (receiving r init (si_total_chunks init) content)
    {| sf_snapshot_id := si_snapshot_id init; sf_sha3_of_full := si_sha3_of_full init |} =
  (set_active (set_files r (<[rc_installed_path r := content]> (delete (staged_path r (si_snapshot_id init)) (rc_files r)))) None,
   Ok (AckComplete (si_snapshot_id init) (rc_installed_path r))).
Proof.
  intros Hne Hl Hd. unfold receive_finalize, receiving, set_active, set_files.
  cbn [rc_active rc_files as_init as_next_chunk_idx as_bytes_received as_staged_path sf_snapshot_id sf_sha3_of_full
    rc_staging_dir rc_installed_path].
  rewrite String.eqb_refl, Z.eqb_refl, Hl, Z.eqb_refl, lookup_insert_eq. cbn [negb].
  rewrite bool_decide_eq_true_2 by done. cbn [negb]. change (default [] (Some content)) with content.
  rewrite bool_decide_eq_true_2 by done. cbn [negb].
  rewrite delete_insert_ne, delete_insert_eq by done. rewrite (delete_delete (rc_files r)), insert_delete_eq. done.
Qed.

(** C15: Snapshot round trip.  For every snapshot of less than 2^64 bytes, a
    receiver without an active transfer answers the frames of
    [chunk_snapshot_bytes] with one acknowledgement per frame, in order, and
    completes; the installed file is the snapshot, the staged file is gone and
    no other file has changed. *)
Theorem snapshot_frames_roundtrip r id b
    (Ha : rc_active r = None) (Hp : staged_path r id ≠ rc_installed_path r)
    (Hb : Z.of_nat (length b) < 2 ^ 64) :
  let n := length (chunks (Z.to_nat MAX_SNAPSHOT_CHUNK_BYTES) b) in
  run_receiver r (chunk_snapshot_bytes id b) =
  (set_active (set_files r (<[rc_installed_path r := b]> (delete (staged_path r id) (rc_files r)))) None,
   accepted_acks id 0 (S n) ++ [Ok (AckComplete id (rc_installed_path r))]).
Proof.
  cbv zeta. unfold chunk_snapshot_bytes.
  set (tc := match b with [] => 0 | _ => _ end).
  set (init := {| si_snapshot_id := id; si_total_chunks := tc; si_total_bytes := Z.of_nat (length b); si_sha3_of_full := sha3_256 b |}).
  set (ps := chunks _ b). assert (Hn : (0 < Z.to_nat MAX_SNAPSHOT_CHUNK_BYTES)%nat) by (unfold MAX_SNAPSHOT_CHUNK_BYTES; lia).
  assert (Hc : concat ps = b) by (by apply chunks_concat).
  assert (Htc : tc = Z.of_nat (length ps)).
  { unfold ps, chunks, tc. rewrite chunks_fuel_length by done. by rewrite Z2Nat.id. }
  cbn [run_receiver receive]. rewrite (receive_init_ok r init Ha).
  assert (Hrun : run_receiver (receiving r init 0 []) (chunk_frames id 0 ps) =
    (receiving r init tc b, accepted_acks id 1 (length ps))).
  { replace (receiving r init tc b) with (receiving r init (0 + Z.of_nat (length ps)) ([] ++ concat ps))
      by (by rewrite Hc, Htc).
    apply (run_chunks_ok r init ps 0 []); cbn [app si_total_bytes si_total_chunks init].
    - eapply list.Forall_impl; [apply chunks_sizes|]. intros c Hl. cbn beta in Hl. lia.
    - lia.
    - by rewrite Hc.
    - done. }
  rewrite (run_receiver_app _ _ _ _ _ Hrun). cbn [run_receiver receive].
  rewrite (receive_finalize_ok r init b Hp eq_refl eq_refl : receive_finalize (receiving r init tc b)
    {| sf_snapshot_id := id; sf_sha3_of_full := sha3_256 b |} = _). by rewrite accepted_acks_S.
Qed.

(** Frames of any sender, and aborts. *)
Inductive ReceiverOp : Type := OpFrame (frame : SnapshotFrame) | OpAbort.

Definition receiver_op (r : Receiver) (op : ReceiverOp) : Receiver :=
  match op with OpFrame f => (receive r f).1 | OpAbort => (abort_on_leader_change r).1 end.

(** The declarations among the operations. *)
Definition op_inits (op : ReceiverOp) : list SnapshotInit :=
  match op with OpFrame (FrameInit init) => [init] | _ => [] end.

(** [c] is a snapshot that [init] declares. *)
Definition declares (init : SnapshotInit) (c : bytes) : Prop :=
  sha3_256 c = si_sha3_of_full init ∧ Z.of_nat (length c) = si_total_bytes init ∧
  Z.of_nat (length c) <= si_total_chunks init * MAX_SNAPSHOT_CHUNK_BYTES.

Definition active_ok (inits : list SnapshotInit) (r : Receiver) (a : ActiveSnapshot) : Prop :=
  as_init a ∈ inits ∧ as_staged_path a = staged_path r (si_snapshot_id (as_init a)) ∧
  ∃ c, rc_files r !! as_staged_path a = Some c ∧ Z.of_nat (length c) = as_bytes_received a ∧
    Z.of_nat (length c) <= as_next_chunk_idx a * MAX_SNAPSHOT_CHUNK_BYTES.

Record transfer_inv (dir installed : string) (old : option bytes) (inits : list SnapshotInit) (r : Receiver) : Prop := {
  ti_dir : rc_staging_dir r = dir;
  ti_path : rc_installed_path r = installed;
  ti_active : ∀ a, rc_active r = Some a → active_ok inits r a;
  ti_installed : rc_files r !! installed = old ∨
    ∃ init c, init ∈ inits ∧ rc_files r !! installed = Some c ∧ declares init c
}.

Context (dir installed : string) (old : option bytes).
Context (Hpath : ∀ r id, rc_staging_dir r = dir → staged_path r id ≠ installed).

Lemma transfer_inv_mono inits inits' r :
  inits ⊆ inits' → transfer_inv dir installed old inits r → transfer_inv dir installed old inits' r.
Proof.
  intros Hs [Hd Hp Ha Hi]. split; [done..| |].
  - intros a (H1 & H2 & H3)%Ha. split; [by apply Hs|done].
  - destruct Hi as [Hi|(init & c & Hin & Hc)]; [by left|right]. exists init, c. split; [by apply Hs|done].
Qed.

(** Dropping the active transfer and its staged file. *)
Lemma remove_staged_inv inits r a :
  transfer_inv dir installed old inits r → rc_active r = Some a →
  transfer_inv dir installed old inits (remove_staged (set_active r None) (as_staged_path a)).
Proof.
  intros [Hd Hp Ha Hi] E. destruct (Ha a E) as (_ & Es & _). split; [done..|].
  cbn. rewrite lookup_delete_ne; [done|]. rewrite Es. by apply Hpath.
Qed.

Lemma receive_init_inv inits r init :
  transfer_inv dir installed old inits r → transfer_inv dir installed old (inits ++ [init]) (receive_init r init).1.
Proof.
  intros Hr. apply (transfer_inv_mono _ (inits ++ [init])) in Hr; [|set_solver].
  unfold receive_init. destruct (rc_active r) eqn:E; [done|]. destruct Hr as [Hd Hp Ha Hi]. split; [done..| |].
  - cbn. intros a [= <-]. split; [set_solver|]. split; [done|]. exists []. cbn. rewrite lookup_insert_eq. done.
  - cbn. rewrite lookup_insert_ne, lookup_delete_ne by (by apply Hpath). done.
Qed.

Lemma receive_chunk_inv inits r chunk :
  transfer_inv dir installed old inits r → transfer_inv dir installed old inits (receive_chunk r chunk).1.
Proof.
  intros Hr. unfold receive_chunk. destruct (rc_active r) as [a|] eqn:E; [|done].
  repeat case_match; try done. cbn [fst]. destruct Hr as [Hd Hp Ha Hi].
  destruct (Ha a E) as (Hin & Es & c & Hc & Hl & Hb). split; [done..| |].
  - cbn. intros a' [= <-]. split; [done|]. split; [done|]. cbn. rewrite lookup_insert_eq, Hc. eexists. split; [done|].
    change (default [] (Some c)) with c. rewrite length_app, Nat2Z.inj_add. split; [lia|].
    match goal with H : (MAX_SNAPSHOT_CHUNK_BYTES <? _) = false |- _ => apply Z.ltb_ge in H end. lia.
  - cbn. rewrite lookup_insert_ne; [done|]. rewrite Es. by apply Hpath.
Qed.

Lemma receive_finalize_inv inits r finalize :
  transfer_inv dir installed old inits r → transfer_inv dir installed old inits (receive_finalize r finalize).1.
Proof.
  intros Hr. unfold receive_finalize. destruct (rc_active r) as [a|] eqn:E; [|done].
  pose proof (remove_staged_inv inits r a Hr E) as Hrem.
  destruct (negb (String.eqb _ _)); [done|].
  destruct (Z.eqb_spec (as_next_chunk_idx a) (si_total_chunks (as_init a))) as [En|]; [cbn [negb]|done].
  destruct (Z.eqb_spec (as_bytes_received a) (si_total_bytes (as_init a))) as [Eb|]; [cbn [negb]|done].
  case_bool_decide as Es; [cbn [negb]|done]. case_bool_decide as Ed; [cbn [negb fst]|done].
  destruct Hr as [Hd Hp Ha Hi]. destruct (Ha a E) as (Hin & _ & c & Hc & Hl & Hb). split; [done..|].
  cbn [rc_files set_files set_active rc_installed_path] in *. rewrite Hp, lookup_insert_eq, Hc in *. right.
  exists (as_init a), c. split; [done|]. split; [done|]. change (default [] (Some c)) with c in Ed. split; [congruence|].
  split; [lia|]. by rewrite <- En.
Qed.

Lemma receiver_op_inv inits r op :
  transfer_inv dir installed old inits r → transfer_inv dir installed old (inits ++ op_inits op) (receiver_op r op).
Proof.
  intros Hr. destruct op as [[init|chunk|finalize]|]; cbn [receiver_op op_inits receive]; rewrite ?app_nil_r.
  - by apply receive_init_inv.
  - by apply receive_chunk_inv.
  - by apply receive_finalize_inv.
  - unfold abort_on_leader_change. destruct (rc_active r) as [a|] eqn:E; [|done]. by apply remove_staged_inv.
Qed.

Lemma receiver_ops_inv inits r ops :
  transfer_inv dir installed old inits r →
  transfer_inv dir installed old (inits ++ concat (op_inits <$> ops)) (foldl receiver_op r ops).
Proof.
  revert inits r. induction ops as [|op ops IH]; intros inits r Hr; cbn [foldl fmap list_fmap concat].
  { by rewrite app_nil_r. }
  rewrite app_assoc. by apply IH, receiver_op_inv.
Qed.

End Transfer.

Section Installed.
Context {HF : HashFns}.

(** C28: Only declared snapshots are installed.  Whatever frames a sender
    delivers, in any order and with any contents, and whenever the transfer is
    aborted, the installed file afterwards is the one that was there before,
    or a file whose SHA3-256 digest and length are those that one of the init
    frames declared, of at most the declared number of full chunks. *)
Theorem installed_declared dir installed files ops
    (Hpath : ∀ r id, rc_staging_dir r = dir → staged_path r id ≠ installed) :
  let r := foldl receiver_op (new_receiver dir installed files) ops in
  rc_files r !! installed = files !! installed ∨
  ∃ init c, OpFrame (FrameInit init) ∈ ops ∧ rc_files r !! installed = Some c ∧ declares init c.
Proof.
  assert (Hnew : transfer_inv dir installed (files !! installed) [] (new_receiver dir installed files)).
  { split; [done..|by left]. }
  cbv zeta. apply (receiver_ops_inv dir installed _ Hpath [] _ ops) in Hnew as [_ _ _ [H|(init & c & Hin & Hc)]]; [by left|right].
  exists init, c. split; [|done]. rewrite app_nil_l in Hin.
  apply elem_of_concat in Hin as (l & Hi & (op & -> & Hop)%list_elem_of_fmap).
  destruct op as [[]|]; cbn in Hi; try (by inversion Hi). by apply list_elem_of_singleton in Hi as ->.
Qed.

End Installed.

(** ** Remote procedure calls *)

Section Rpc.
Context {AppendReq VoteReq SnapshotReq AppendRes VoteRes SnapshotRes : Type}.
Notation Request := (@RaftRpcRequest AppendReq VoteReq SnapshotReq).
Notation Response := (@RaftRpcResponse AppendRes VoteRes SnapshotRes).
Notation Event := (@SwarmEvent AppendReq VoteReq SnapshotReq AppendRes VoteRes SnapshotRes).
Notation Effect := (@Effect AppendReq VoteReq SnapshotReq AppendRes VoteRes SnapshotRes).
Notation Input := (@SwarmInput AppendReq VoteReq SnapshotReq AppendRes VoteRes SnapshotRes).
Notation Handler := (Request → result Response OmegaNetworkError).
Context `{CQ : CiboriumLaws Request} `{CR : CiboriumLaws Response}.

(** A request on its way: through the outbound queue of one swarm, over the
    wire to the other, through its handler and back.  A failure on the way is
    reported to the first swarm as a failed stream. *)
Definition wire {A} `{Ciborium A} (x : A) : option A :=
  match write_message x with
  | Ok b => match read_message b with Ok (y, _) => Some y | _ => None end
  | _ => None
  end.

Definition answer (local : RaftSwarm) (handle : Handler) (id : Z) (request : Request) : Event :=
  match wire request with
  | None => EvOutboundFailure id FailIo
  | Some request =>
      match on_swarm_event handle local (EvRequest EmptyString request 0) with
      | Ok (_, [SendResponse _ response]) =>
          match wire response with Some response => EvResponse id response | None => EvOutboundFailure id FailIo end
      | _ => EvOutboundFailure id FailConnectionClosed
      end
  end.

Definition deliver (s remote : RaftSwarm) (local_handle handle : Handler) (target id : Z) (payload : bytes) : ReplyOutcome :=
  match (on_outbound s {| or_target := target; or_payload := payload; or_reply := 0 |} id :
           result (RaftSwarm * list Effect) OmegaNetworkError) with
  | Ok (s, [SendRequest _ request _]) =>
      match on_swarm_event local_handle s (answer remote handle id request) with
      | Ok (_, [SendReply _ r]) => Replied r
      | _ => ReplyLost
      end
  | Ok (_, [SendReply _ r]) => Replied r
  | _ => ReplyLost
  end.

Lemma wire_ok {A} `{CiboriumLaws A} (x : A) b :
  encode_cbor x = Ok b → Z.of_nat (length b) <= MAX_RAFT_RPC_BYTES → wire x = Some x.
Proof.
  intros Eb Hl. destruct (message_roundtrip x b [] Eb Hl) as (f & Ew & Er). unfold wire.
  by rewrite Ew, app_nil_r in *; rewrite Er.
Qed.

(** C25: A remote procedure call returns what the remote handler returns.  For
    a target among the configured peers, a request and a response whose
    encodings fit the envelope, [round_trip] through the two swarms and the
    framing of both directions gives exactly the response of the handler. *)
Theorem rpc_end_to_end s remote (local_handle handle : Handler) target id (request : Request)
    (response : Response) b b' peer
    (Hpeer : sw_peers s !! target = Some peer)
    (Hb : encode_cbor request = Ok b) (Hl : Z.of_nat (length b) <= MAX_RAFT_RPC_BYTES)
    (Hh : handle request = Ok response)
    (Hb' : encode_cbor response = Ok b') (Hl' : Z.of_nat (length b') <= MAX_RAFT_RPC_BYTES) :
  round_trip request (Sent (deliver s remote local_handle handle target id)) = Ok response.
Proof.
  unfold round_trip. rewrite Hb. cbn [res_bind]. pose proof Hl as Hle. apply Z.leb_le in Hle. rewrite Hle.
  unfold deliver, on_outbound. cbn [or_target or_payload or_reply]. rewrite Hpeer, (decode_encode_cbor _ _ Hb Hl).
  cbn [res_bind]. unfold answer. rewrite (wire_ok request b Hb Hl). cbn [on_swarm_event]. unfold on_inbound_request.
  rewrite Hh, (wire_ok response b' Hb' Hl'). cbn [on_swarm_event set_pending sw_pending]. rewrite lookup_insert_eq, Hb'.
  cbn [res_bind]. by apply decode_encode_cbor.
Qed.

Definition reply_channel (e : Effect) : option nat :=
  match e with SendReply channel _ => Some channel | _ => None end.

Definition input_channel (i : Input) : option nat :=
  match i with InOutbound out _ => Some (or_reply out) | _ => None end.

(** The channels that wait for a reply, each under one id. *)
Definition waiting (s : RaftSwarm) (c : nat) : Prop := ∃ id, sw_pending s !! id = Some c.

Definition distinct_waiting (s : RaftSwarm) : Prop :=
  ∀ id id' c, sw_pending s !! id = Some c → sw_pending s !! id' = Some c → id = id'.

Lemma reply_delete s id c :
  distinct_waiting s → sw_pending s !! id = Some c →
  let s' := set_pending s (delete id (sw_pending s)) in
  distinct_waiting s' ∧ ¬ waiting s' c ∧ ∀ c', waiting s' c' → waiting s c'.
Proof.
  intros Hd Hc. cbv zeta. unfold waiting, distinct_waiting. cbn [sw_pending set_pending]. split; [|split].
  - intros i j c' [_ Hi]%lookup_delete_Some [_ Hj]%lookup_delete_Some. by apply (Hd i j c').
  - intros (i & [Hne Hi]%lookup_delete_Some). by destruct Hne, (Hd id i c).
  - intros c' (i & [_ Hi]%lookup_delete_Some). by exists i.
Qed.

Lemma reply_insert s id c :
  distinct_waiting s → ¬ waiting s c →
  let s' := set_pending s (<[id := c]> (sw_pending s)) in
  distinct_waiting s' ∧ ∀ c', waiting s' c' → waiting s c' ∨ c' = c.
Proof.
  intros Hd Hc. cbv zeta. unfold waiting, distinct_waiting in *. cbn [sw_pending set_pending]. split.
  - intros i j c'. rewrite !lookup_insert_Some. intros [[<- <-]|[Hi Ei]] [[<- Ej]|[Hj Ej]]; [done|..|by apply (Hd i j c')].
    + by destruct Hc; exists j.
    + destruct Hc. exists i. by rewrite Ej.
  - intros c' (i & [[_ <-]|[_ Hi]]%lookup_insert_Some); [by right|left; by exists i].
Qed.

Lemma swarm_step_replies (handle : Handler) s (input : Input) s' (effects : list Effect) (later : list nat) :
  swarm_step handle s input = Ok (s', effects) → distinct_waiting s →
  NoDup (omap input_channel [input] ++ later) → (∀ c, waiting s c → c ∉ omap input_channel [input] ++ later) →
  distinct_waiting s' ∧ NoDup (omap reply_channel effects) ∧
  (∀ c, c ∈ omap reply_channel effects → (waiting s c ∨ c ∈ omap input_channel [input]) ∧ ¬ waiting s' c ∧ c ∉ later) ∧
  (∀ c, waiting s' c → (waiting s c ∨ c ∈ omap input_channel [input]) ∧ c ∉ later).
Proof.
  intros E Hd Hn Hw. destruct input as [[peer request channel|id response|id error|]|out id]; cbn [swarm_step on_swarm_event] in E.
  - injection E as <- <-. assert (Hr : omap reply_channel (on_inbound_request handle request channel) = []).
    { unfold on_inbound_request. by destruct (handle request). }
    rewrite Hr. repeat split; [done|constructor|set_solver..].
  - destruct (sw_pending s !! id) as [c|] eqn:Ec.
    2: { injection E as <- <-. repeat split; [done|constructor|set_solver..]. }
    destruct (encode_cbor response); [|done..]. injection E as <- <-.
    destruct (reply_delete s id c Hd Ec) as (H1 & H2 & H3). assert (waiting s c) by (by exists id).
    split; [done|]. split; [apply NoDup_singleton|]. split; set_solver.
  - destruct (sw_pending s !! id) as [c|] eqn:Ec; injection E as <- <-.
    2: { repeat split; [done|constructor|set_solver..]. }
    destruct (reply_delete s id c Hd Ec) as (H1 & H2 & H3). assert (waiting s c) by (by exists id).
    split; [done|]. split; [apply NoDup_singleton|]. split; set_solver.
  - injection E as <- <-. repeat split; [done|constructor|set_solver..].
  - unfold on_outbound in E. cbn [omap list_omap input_channel app] in *. apply NoDup_cons in Hn as [Hn _].
    destruct (sw_peers s !! or_target out) as [peer|].
    2: { injection E as <- <-. split; [done|]. split; [apply NoDup_singleton|]. split; set_solver. }
    destruct (decode_cbor (or_payload out)); [|done..]. injection E as <- <-.
    destruct (reply_insert s id (or_reply out) Hd) as [H1 H2]; [intros Hc; by apply (Hw _ Hc); left|].
    split; [done|]. split; [constructor|]. split; set_solver.
Qed.

Lemma run_swarm_replies (handle : Handler) s (inputs : list Input) :
  distinct_waiting s → NoDup (omap input_channel inputs) →
  (∀ c, waiting s c → c ∉ omap input_channel inputs) →
  let replied := omap reply_channel (run_swarm handle s inputs).1 in
  NoDup replied ∧ ∀ c, c ∈ replied → waiting s c ∨ c ∈ omap input_channel inputs.
Proof.
  cbv zeta. revert s. induction inputs as [|input inputs IH]; intros s Hd Hn Hw.
  { cbn. split; [constructor|]. set_solver. }
  cbn [run_swarm]. destruct (swarm_step handle s input) as [[s' effects]| |] eqn:E; cbn [fst]; [|split; [constructor|set_solver]..].
  assert (Ei : omap input_channel (input :: inputs) = omap input_channel [input] ++ omap input_channel inputs).
  { change (input :: inputs) with ([input] ++ inputs). apply omap_app. }
  rewrite Ei in Hn, Hw |- *.
  destruct (swarm_step_replies _ _ _ _ _ _ E Hd Hn Hw) as (Hd' & Hn' & Hr & Hw').
  apply NoDup_app in Hn as (_ & _ & Hn). destruct (IH s' Hd' Hn) as [IH1 IH2]; [intros c Hc; by apply Hw'|].
  destruct (run_swarm handle s' inputs) as [rest r]. cbn [fst] in *. rewrite omap_app. split.
  - apply NoDup_app. split; [done|]. split; [|done]. intros c Hc Hc'. destruct (Hr c Hc) as (_ & Hnw & Hnl).
    by destruct (IH2 c Hc').
  - intros c [Hc|Hc]%elem_of_app; [destruct (Hr c Hc) as [[?|?] _]; set_solver|].
    destruct (IH2 c Hc) as [Hc'|Hc']; [|set_solver]. destruct (Hw' c Hc') as [[?|?] _]; set_solver.
Qed.

(** Every outbound request is answered at most once.  Over every sequence
    of libp2p events and outbound requests with distinct reply channels, the
    swarm writes to each reply channel at most once, and only to the channels
    of the requests it was given, whatever request ids libp2p reports. *)
Theorem replies_at_most_once (handle : Handler) peers (inputs : list Input)
    (Hn : NoDup (omap input_channel inputs)) :
  let replied := omap reply_channel (run_swarm handle (new_swarm peers) inputs).1 in
  NoDup replied ∧ replied ⊆ omap input_channel inputs.
Proof.
  cbv zeta. destruct (run_swarm_replies handle (new_swarm peers) inputs) as [H1 H2]; [done|done|by intros c [? ?]|].
  split; [done|]. intros c Hc. by destruct (H2 c Hc) as [[? ?]|?].
Qed.

End Rpc.
