(* ===== verification/Outbound.v ===== *)
(** * Outbound requests

    [LibP2pNetwork::round_trip] in [omega-network/src/network.rs] and the loop
    of [RaftSwarm::run] in [inbound.rs], with callers that run concurrently.
    A caller puts its request into the bounded queue without waiting, and then
    waits for the reply or its deadline; the loop takes requests from the
    queue and events from libp2p, in any order.  A run is a list of
    [NetEvent]s.  The theorems say which response a caller gets. *)

From S2P Require Import Prelude Hash Tree Witness ClaimTx Prover Verifier Ledger Storage Network NetworkSpec.
From Stdlib Require Import ZArith Lia List String.
From stdpp Require Import base decidable strings gmap list.

Local Open Scope Z_scope.

Definition DEFAULT_OUTBOUND_CAPACITY : nat := 256.

Section Outbound.
Context {AppendReq VoteReq SnapshotReq AppendRes VoteRes SnapshotRes : Type}.
Notation Request := (@RaftRpcRequest AppendReq VoteReq SnapshotReq).
Notation Response := (@RaftRpcResponse AppendRes VoteRes SnapshotRes).
Notation Event := (@SwarmEvent AppendReq VoteReq SnapshotReq AppendRes VoteRes SnapshotRes).
Notation Effect := (@Effect AppendReq VoteReq SnapshotReq AppendRes VoteRes SnapshotRes).
Notation Handler := (Request → result Response OmegaNetworkError).
Context `{CQ : Ciborium Request} `{CR : Ciborium Response}.
Context (handle : Handler).

(** A call of [round_trip]: waiting for the reply, returned, or dropped by
    its caller. *)
Inductive RpcState : Type :=
| RpcWaiting (request : Request)
| RpcDone (r : result Response OmegaNetworkError)
| RpcDropped.

Definition rpc_waiting (c : RpcState) : bool := match c with RpcWaiting _ => true | _ => false end.

(** The reply channel of a request is the number of its call. *)
Record Net := {
  nt_swarm : RaftSwarm;
  nt_running : bool;
  nt_senders : bool;
  nt_capacity : nat;
  nt_queue : list OutboundRaftRequest;
  nt_calls : gmap nat RpcState
}.

Inductive NetEvent : Type :=
| NvCall (i : nat) (target : Z) (request : Request)
| NvTake (id : Z)
| NvSwarm (event : Event)
| NvDeadline (i : nat)
| NvDrop (i : nat)
| NvDropSenders
| NvReturn.

(** [LibP2pNetworkFactory::with_capacity] and a new swarm on its receiver. *)
Definition new_net (capacity : nat) (peers : list PeerEntry) : Net :=
  {| nt_swarm := new_swarm peers; nt_running := true; nt_senders := true; nt_capacity := capacity;
     nt_queue := []; nt_calls := ∅ |}.

(** The network of [Node::start]. *)
Definition node_net (peers : list PeerEntry) : Net := new_net DEFAULT_OUTBOUND_CAPACITY peers.

Definition with_calls (n : Net) (calls : gmap nat RpcState) : Net :=
  {| nt_swarm := nt_swarm n; nt_running := nt_running n; nt_senders := nt_senders n;
     nt_capacity := nt_capacity n; nt_queue := nt_queue n; nt_calls := calls |}.

(** What a waiting caller makes of the end of its wait. *)
Definition resolve (outcome : ReplyOutcome) (calls : gmap nat RpcState) (i : nat) : gmap nat RpcState :=
  match calls !! i with
  | Some (RpcWaiting request) => <[i := RpcDone (round_trip request (Sent (λ _, outcome)))]> calls
  | _ => calls
  end.

(** [round_trip] up to the wait for the reply. *)
Definition call_rpc (n : Net) (i : nat) (target : Z) (request : Request) : option Net :=
  let done outcome := Some (with_calls n (<[i := RpcDone (round_trip request outcome)]> (nt_calls n))) in
  if nt_senders n then
    match nt_calls n !! i with
    | Some _ => None
    | None =>
        match encode_cbor request with
        | Ok payload =>
            if Z.of_nat (length payload) <=? MAX_RAFT_RPC_BYTES then
              if nt_running n then
                if (length (nt_queue n) <? nt_capacity n)%nat then
                  let out := {| or_target := target; or_payload := payload; or_reply := i |} in
                  Some {| nt_swarm := nt_swarm n; nt_running := true; nt_senders := true;
                          nt_capacity := nt_capacity n; nt_queue := nt_queue n ++ [out];
                          nt_calls := <[i := RpcWaiting request]> (nt_calls n) |}
                else done QueueFull
              else done QueueClosed
            else done QueueClosed
        | _ => done QueueClosed
        end
    end
  else None.

(** The replies among the effects of a step of the loop. *)
Definition deliver_effect (calls : gmap nat RpcState) (e : Effect) : gmap nat RpcState :=
  match e with
  | SendReply channel payload => resolve (Replied payload) calls channel
  | _ => calls
  end.

(** The end of the loop drops the queue and the pending reply channels. *)
Definition stop_net (n : Net) : Net :=
  {| nt_swarm := set_pending (nt_swarm n) ∅; nt_running := false; nt_senders := nt_senders n;
     nt_capacity := nt_capacity n; nt_queue := [];
     nt_calls := (λ c, match c with
                       | RpcWaiting request => RpcDone (round_trip request (Sent (λ _, ReplyLost)))
                       | c => c
                       end) <$> nt_calls n |}.

(** One round of the loop of [run] on an input, with the queue after it. *)
Definition loop_step (n : Net) (queue : list OutboundRaftRequest)
    (r : result (RaftSwarm * list Effect) OmegaNetworkError) : Net :=
  match r with
  | Ok (s, effects) =>
      {| nt_swarm := s; nt_running := true; nt_senders := nt_senders n; nt_capacity := nt_capacity n;
         nt_queue := queue; nt_calls := foldl deliver_effect (nt_calls n) effects |}
  | _ => stop_net n
  end.

(** A request takes the place of another one under the same id, whose reply
    channel is dropped. *)
Definition displace (n n' : Net) (id : Z) : Net :=
  match sw_pending (nt_swarm n) !! id with
  | Some c =>
      if decide (sw_pending (nt_swarm n') !! id = Some c) then n'
      else with_calls n' (resolve ReplyLost (nt_calls n') c)
  | None => n'
  end.

(** [outbound_rx.recv()] gives a request; [id] is the id that libp2p returns. *)
Definition take_request (n : Net) (id : Z) : option Net :=
  match nt_running n, nt_queue n with
  | true, out :: queue => Some (displace n (loop_step n queue (on_outbound (nt_swarm n) out id)) id)
  | _, _ => None
  end.

Definition swarm_event (n : Net) (event : Event) : option Net :=
  if nt_running n then Some (loop_step n (nt_queue n) (on_swarm_event handle (nt_swarm n) event)) else None.

(** [tokio::time::timeout] of a waiting call. *)
Definition deadline (n : Net) (i : nat) : option Net :=
  match nt_calls n !! i with
  | Some (RpcWaiting _) => Some (with_calls n (resolve Elapsed (nt_calls n) i))
  | _ => None
  end.

Definition drop_rpc (n : Net) (i : nat) : option Net :=
  match nt_calls n !! i with
  | Some (RpcWaiting _) => Some (with_calls n (<[i := RpcDropped]> (nt_calls n)))
  | _ => None
  end.

(** The last sender goes; a waiting call borrows one. *)
Definition drop_senders (n : Net) : option Net :=
  if nt_senders n && bool_decide (map_Forall (λ _ c, rpc_waiting c = false) (nt_calls n)) then
    Some {| nt_swarm := nt_swarm n; nt_running := nt_running n; nt_senders := false;
               nt_capacity := nt_capacity n; nt_queue := nt_queue n; nt_calls := nt_calls n |}
  else None.

(** [outbound_rx.recv()] gives [None]. *)
Definition return_net (n : Net) : option Net :=
  match nt_running n, nt_senders n, nt_queue n with
  | true, false, [] => Some (stop_net n)
  | _, _, _ => None
  end.

Definition net_step (n : Net) (e : NetEvent) : option Net :=
  match e with
  | NvCall i target request => call_rpc n i target request
  | NvTake id => take_request n id
  | NvSwarm event => swarm_event n event
  | NvDeadline i => deadline n i
  | NvDrop i => drop_rpc n i
  | NvDropSenders => drop_senders n
  | NvReturn => return_net n
  end.

Fixpoint net_run (n : Net) (es : list NetEvent) : option Net :=
  match es with
  | [] => Some n
  | e :: es' => n' ← net_step n e; net_run n' es'
  end.

(** ** The steps *)

(** What a step changes: the queue, the pending channels and the calls. *)
Record changes (n n' : Net) (queue : list OutboundRaftRequest) (pending : gmap Z nat)
    (calls : gmap nat RpcState) : Prop := {
  ch_running : nt_running n' = nt_running n;
  ch_peers : sw_peers (nt_swarm n') = sw_peers (nt_swarm n);
  ch_capacity : nt_capacity n' = nt_capacity n;
  ch_queue : nt_queue n' = queue;
  ch_pending : sw_pending (nt_swarm n') = pending;
  ch_calls : nt_calls n' = calls
}.

Inductive net_steps (n : Net) : NetEvent → Net → Prop :=
| ns_refused i target request o n' :
    nt_calls n !! i = None → (o = QueueClosed ∨ o = QueueFull) →
    changes n n' (nt_queue n) (sw_pending (nt_swarm n)) (<[i := RpcDone (round_trip request o)]> (nt_calls n)) →
    net_steps n (NvCall i target request) n'
| ns_queued i target (request : Request) payload n' :
    nt_calls n !! i = None → encode_cbor request = Ok payload →
    Z.of_nat (length payload) <= MAX_RAFT_RPC_BYTES → nt_running n = true →
    (length (nt_queue n) < nt_capacity n)%nat →
    changes n n' (nt_queue n ++ [{| or_target := target; or_payload := payload; or_reply := i |}])
      (sw_pending (nt_swarm n)) (<[i := RpcWaiting request]> (nt_calls n)) →
    net_steps n (NvCall i target request) n'
| ns_unknown id out queue n' :
    nt_running n = true → nt_queue n = out :: queue → sw_peers (nt_swarm n) !! or_target out = None →
    changes n n' queue (sw_pending (nt_swarm n))
      (resolve (Replied (Err NeOutboundClosed)) (nt_calls n) (or_reply out)) →
    net_steps n (NvTake id) n'
| ns_sent id out queue peer (request : Request) n' :
    nt_running n = true → nt_queue n = out :: queue → sw_peers (nt_swarm n) !! or_target out = Some peer →
    decode_cbor (or_payload out) = Ok request →
    changes n n' queue (<[id := or_reply out]> (sw_pending (nt_swarm n)))
      match sw_pending (nt_swarm n) !! id with
      | Some c => if decide (or_reply out = c) then nt_calls n else resolve ReplyLost (nt_calls n) c
      | None => nt_calls n
      end →
    net_steps n (NvTake id) n'
| ns_response id (response : Response) b c n' :
    nt_running n = true → sw_pending (nt_swarm n) !! id = Some c → encode_cbor response = Ok b →
    changes n n' (nt_queue n) (delete id (sw_pending (nt_swarm n))) (resolve (Replied (Ok b)) (nt_calls n) c) →
    net_steps n (NvSwarm (EvResponse id response)) n'
| ns_failure id error c n' :
    nt_running n = true → sw_pending (nt_swarm n) !! id = Some c →
    changes n n' (nt_queue n) (delete id (sw_pending (nt_swarm n)))
      (resolve (Replied (Err (map_outbound_failure error))) (nt_calls n) c) →
    net_steps n (NvSwarm (EvOutboundFailure id error)) n'
| ns_idle e n' :
    changes n n' (nt_queue n) (sw_pending (nt_swarm n)) (nt_calls n) → net_steps n e n'
| ns_deadline i request n' :
    nt_calls n !! i = Some (RpcWaiting request) →
    changes n n' (nt_queue n) (sw_pending (nt_swarm n)) (resolve Elapsed (nt_calls n) i) →
    net_steps n (NvDeadline i) n'
| ns_dropped i request n' :
    nt_calls n !! i = Some (RpcWaiting request) →
    changes n n' (nt_queue n) (sw_pending (nt_swarm n)) (<[i := RpcDropped]> (nt_calls n)) →
    net_steps n (NvDrop i) n'
| ns_stop e : nt_running n = true → net_steps n e (stop_net n).

Ltac step_cases :=
  destruct 1 as [j tgt req o n' Hj Ho Hch|j tgt req pl n' Hj He Hsz Hr Hb Hch|d og q n' Hr Eq Hp Hch|
    d og q pr req n' Hr Eq Hp Hd Hch|d rp b ch n' Hr Hc He Hch|d er ch n' Hr Hc Hch|ev n' Hch|
    j req n' Hj Hch|j req n' Hj Hch|ev Hr].

Lemma call_steps n i target request n' : call_rpc n i target request = Some n' → net_steps n (NvCall i target request) n'.
Proof.
  unfold call_rpc. destruct (nt_senders n); [|done]. destruct (nt_calls n !! i) eqn:Ei; [done|].
  assert (Href : ∀ o, o = QueueClosed ∨ o = QueueFull →
    Some (with_calls n (<[i:=RpcDone (round_trip request o)]> (nt_calls n))) = Some n' → net_steps n (NvCall i target request) n').
  { intros o Ho [= <-]. by eapply ns_refused; [done..|split]. }
  destruct (encode_cbor request) as [payload| |] eqn:Ep; [|apply Href; by left..].
  destruct (Z.leb_spec (Z.of_nat (length payload)) MAX_RAFT_RPC_BYTES); [|apply Href; by left].
  destruct (nt_running n) eqn:Er; [|apply Href; by left].
  destruct (Nat.ltb_spec (length (nt_queue n)) (nt_capacity n)); [|apply Href; by right].
  intros [= <-]. by eapply ns_queued; [done..|split].
Qed.

Lemma resolve_stopped o n c : resolve o (nt_calls (stop_net n)) c = nt_calls (stop_net n).
Proof.
  unfold resolve. cbn [nt_calls stop_net]. rewrite lookup_fmap. by destruct (nt_calls n !! c) as [[]|].
Qed.

Lemma displace_stopped n id : displace n (stop_net n) id = stop_net n.
Proof.
  unfold displace. destruct (_ !! id) as [c|]; [|done]. destruct (decide _); [done|]. by rewrite resolve_stopped.
Qed.

Lemma take_steps n id n' : take_request n id = Some n' → net_steps n (NvTake id) n'.
Proof.
  unfold take_request. destruct (nt_running n) eqn:Er; [|done]. destruct (nt_queue n) as [|out queue] eqn:Eq; [done|].
  intros [= <-]. unfold on_outbound. destruct (sw_peers (nt_swarm n) !! or_target out) as [peer|] eqn:Ep.
  - destruct (decode_cbor (or_payload out)) as [request| |] eqn:Ed; cbn [res_bind loop_step];
      [|rewrite displace_stopped; by apply ns_stop..].
    apply (ns_sent n id out queue peer request); [exact Er|exact Eq|exact Ep|exact Ed|]. unfold displace. cbn [nt_swarm sw_pending set_pending]. rewrite lookup_insert_eq.
    destruct (sw_pending (nt_swarm n) !! id) as [c|]; [|by split].
    destruct (decide (or_reply out = c)) as [->|Hc]; [rewrite decide_True by done; by split|].
    rewrite decide_False by congruence. by split.
  - cbn [loop_step]. apply (ns_unknown n id out queue); [exact Er|exact Eq|exact Ep|]. unfold displace. cbn [nt_swarm].
    destruct (sw_pending (nt_swarm n) !! id) as [c|]; [rewrite decide_True by done|]; by split.
Qed.

Lemma swarm_steps n event n' : swarm_event n event = Some n' → net_steps n (NvSwarm event) n'.
Proof.
  unfold swarm_event. destruct (nt_running n) eqn:Er; [|done]. intros [= <-].
  destruct event as [peer request channel|id response|id error|]; cbn [on_swarm_event].
  - apply ns_idle. unfold on_inbound_request. by destruct (handle request); split.
  - destruct (sw_pending (nt_swarm n) !! id) as [c|] eqn:Ec; [|by apply ns_idle; split].
    destruct (encode_cbor response) as [b| |] eqn:Eb; [|by apply ns_stop..]. by eapply ns_response; [done..|split].
  - destruct (sw_pending (nt_swarm n) !! id) as [c|] eqn:Ec; [|by apply ns_idle; split].
    by eapply ns_failure; [done..|split].
  - by apply ns_idle; split.
Qed.

Lemma net_step_steps n e n' : net_step n e = Some n' → net_steps n e n'.
Proof.
  destruct e as [i target request|id|event|i|i| |]; cbn [net_step];
    [apply call_steps|apply take_steps|apply swarm_steps|..].
  - unfold deadline. destruct (nt_calls n !! i) as [[request| |]|] eqn:Ei; [|done..]. intros [= <-].
    by eapply ns_deadline; [|split].
  - unfold drop_rpc. destruct (nt_calls n !! i) as [[request| |]|] eqn:Ei; [|done..]. intros [= <-].
    by eapply ns_dropped; [|split].
  - unfold drop_senders. destruct (_ && _); [|done]. intros [= <-]. by apply ns_idle; split.
  - unfold return_net. destruct (nt_running n) eqn:Er, (nt_senders n), (nt_queue n); try done. intros [= <-].
    by apply ns_stop.
Qed.

(** ** Invariants of a run *)

(** The reply channels that the loop holds. *)
Definition held (n : Net) : list nat := (or_reply <$> nt_queue n) ++ (map_to_list (sw_pending (nt_swarm n))).*2.

Definition is_waiting (calls : gmap nat RpcState) (i : nat) : Prop := ∃ request, calls !! i = Some (RpcWaiting request).

(** How a step moves the reply channels: a new one is held, a held one is
    used or dropped and its call resolved, none moves, or all are dropped. *)
Inductive moved (n n' : Net) : Prop :=
| mv_new i request :
    nt_calls n !! i = None → held n' ≡ₚ i :: held n → nt_calls n' = <[i := RpcWaiting request]> (nt_calls n) → moved n n'
| mv_used c o : held n ≡ₚ c :: held n' → nt_calls n' = resolve o (nt_calls n) c → moved n n'
| mv_none :
    held n' ≡ₚ held n → (∀ i, is_waiting (nt_calls n') i → is_waiting (nt_calls n) i) →
    (∀ i, is_Some (nt_calls n !! i) → is_Some (nt_calls n' !! i)) → moved n n'
| mv_stop : n' = stop_net n → moved n n'.

Lemma resolve_waiting o calls c i : is_waiting (resolve o calls c) i ↔ is_waiting calls i ∧ i ≠ c.
Proof.
  unfold is_waiting, resolve. destruct (calls !! c) as [[r| |]|] eqn:E.
  - destruct (decide (i = c)) as [->|]; [rewrite lookup_insert_eq|rewrite lookup_insert_ne by done]; naive_solver.
  - naive_solver.
  - naive_solver.
  - naive_solver.
Qed.

Lemma resolve_known o calls c i : is_Some (calls !! i) → is_Some (resolve o calls c !! i).
Proof.
  intros Hi. unfold resolve. destruct (calls !! c) as [[]|]; [|done..].
  destruct (decide (i = c)) as [->|]; [by rewrite lookup_insert_eq|by rewrite lookup_insert_ne].
Qed.

Lemma insert_done calls i x :
  (∀ request, x ≠ RpcWaiting request) →
  (∀ j, is_waiting (<[i := x]> calls) j → is_waiting calls j) ∧ (∀ j, is_Some (calls !! j) → is_Some (<[i := x]> calls !! j)).
Proof.
  intros Hx. split; intros j; unfold is_waiting; (destruct (decide (i = j)) as [->|];
    [rewrite lookup_insert_eq|by rewrite lookup_insert_ne by done]); [naive_solver|done].
Qed.

Lemma held_changes n n' queue pending calls :
  changes n n' queue pending calls → held n' = (or_reply <$> queue) ++ (map_to_list pending).*2.
Proof. intros [_ _ _ Eq Ep _]. unfold held. by rewrite Eq, Ep. Qed.

Lemma held_delete n id c :
  sw_pending (nt_swarm n) !! id = Some c →
  held n ≡ₚ c :: (or_reply <$> nt_queue n) ++ (map_to_list (delete id (sw_pending (nt_swarm n)))).*2.
Proof.
  intros Hc. unfold held. rewrite Permutation_middle. apply Permutation_app_head.
  change (c :: ?l.*2) with (((id, c) :: l).*2). by rewrite map_to_list_delete.
Qed.

(** A request that is sent takes the id of another one, or a new id. *)
Lemma held_insert n id out queue :
  nt_queue n = out :: queue →
  let held' := (or_reply <$> queue) ++ (map_to_list (<[id := or_reply out]> (sw_pending (nt_swarm n)))).*2 in
  match sw_pending (nt_swarm n) !! id with
  | Some c => held n ≡ₚ c :: held'
  | None => held' ≡ₚ held n
  end.
Proof.
  intros Eq. cbv zeta.
  assert (H : ∀ m : gmap Z nat, m !! id = None →
    (or_reply <$> queue) ++ (map_to_list (<[id:=or_reply out]> m)).*2 ≡ₚ (or_reply <$> nt_queue n) ++ (map_to_list m).*2).
  { intros m Hm. rewrite map_to_list_insert by done. rewrite Eq. cbn. symmetry. apply Permutation_middle. }
  destruct (sw_pending (nt_swarm n) !! id) as [c|] eqn:Ec; [|by apply H].
  rewrite (held_delete n id c Ec), <- (insert_delete_eq _ id (or_reply out)). by rewrite H by apply lookup_delete_eq.
Qed.

Lemma net_steps_moved n e n' : NoDup (held n) → net_steps n e n' → moved n n'.
Proof.
  intros Hn. step_cases; try pose proof (held_changes _ _ _ _ _ Hch) as Hh; try apply ch_calls in Hch as Ea.
  - destruct (insert_done (nt_calls n) j (RpcDone (round_trip req o))) as [H1 H2]; [done|].
    apply mv_none; [by rewrite Hh|by rewrite Ea..].
  - apply (mv_new _ _ j req); [done| |done]. rewrite Hh, fmap_app. cbn. unfold held.
    rewrite <- app_assoc. symmetry. apply Permutation_middle.
  - eapply (mv_used _ _ (or_reply og)); [|done]. unfold held at 1. by rewrite Eq, Hh.
  - pose proof (held_insert n d og q Eq) as Hi. cbv zeta in Hi. rewrite <- Hh in Hi.
    destruct (sw_pending (nt_swarm n) !! d) as [c|] eqn:Ec; [|apply mv_none; [done|by rewrite Ea..]].
    destruct (decide (or_reply og = c)) as [E|]; [exfalso|by apply (mv_used _ _ c ReplyLost)].
    rewrite Hi in Hn. apply NoDup_cons in Hn as [Hn _]. apply Hn. rewrite Hh. apply elem_of_app. right.
    apply list_elem_of_fmap. exists (d, c). split; [done|]. apply elem_of_map_to_list. by rewrite E, lookup_insert_eq.
  - eapply (mv_used _ _ ch); [|done]. rewrite Hh. by apply held_delete.
  - eapply (mv_used _ _ ch); [|done]. rewrite Hh. by apply held_delete.
  - apply mv_none; [by rewrite Hh|by rewrite Ea..].
  - apply mv_none; rewrite ?Hh, ?Ea; [done|by intros i [? _]%resolve_waiting|intros i; apply resolve_known].
  - destruct (insert_done (nt_calls n) j RpcDropped) as [H1 H2]; [done|]. apply mv_none; [by rewrite Hh|by rewrite Ea..].
  - by apply mv_stop.
Qed.

(** Every waiting caller's reply channel is held by the loop, once. *)
Record net_inv (n : Net) : Prop := {
  iv_held : NoDup (held n);
  iv_known : ∀ c, c ∈ held n → is_Some (nt_calls n !! c);
  iv_waiting : ∀ i, is_waiting (nt_calls n) i → i ∈ held n
}.

Lemma moved_inv n n' : moved n n' → net_inv n → net_inv n'.
Proof.
  intros Hm [Hn Hk Hw]. destruct Hm as [i request Hi Hh Ea|c o Hh Ea|Hh H1 H2| ->].
  - split.
    + rewrite Hh. apply NoDup_cons. split; [|done]. intros Hin%Hk. rewrite Hi in Hin. by destruct Hin.
    + intros c. rewrite Hh, Ea. intros [->|Hc]%elem_of_cons; [by rewrite lookup_insert_eq|].
      destruct (decide (i = c)) as [->|]; [by rewrite lookup_insert_eq|]. rewrite lookup_insert_ne by done. by apply Hk.
    + intros j [r Hr]. rewrite Hh. rewrite Ea in Hr. apply elem_of_cons. destruct (decide (i = j)) as [->|]; [by left|right].
      rewrite lookup_insert_ne in Hr by done. apply Hw. by exists r.
  - rewrite Hh in Hn. apply NoDup_cons in Hn as [Hc Hn]. split; [done| |].
    + intros d Hd. rewrite Ea. apply resolve_known, Hk. rewrite Hh. by right.
    + intros j Hj. rewrite Ea in Hj. apply resolve_waiting in Hj as [Hj Hne]. apply Hw in Hj. rewrite Hh in Hj.
      by apply elem_of_cons in Hj as [?|?].
  - split; [by rewrite Hh|intros c; rewrite Hh; auto|intros i Hi; rewrite Hh; auto].
  - split.
    + unfold held. cbn. rewrite map_to_list_empty. constructor.
    + intros c. unfold held. cbn. rewrite map_to_list_empty. by intros ?%elem_of_nil.
    + intros i [r Hr]. cbn in Hr. rewrite lookup_fmap in Hr. by destruct (nt_calls n !! i) as [[]|].
Qed.

Lemma net_run_app n es es' : net_run n (es ++ es') = net_run n es ≫= λ n1, net_run n1 es'.
Proof. revert n. induction es as [|e es IH]; intros n; cbn; [done|]. destruct (net_step n e); cbn; [apply IH|done]. Qed.

Lemma net_run_snoc n es e n' :
  net_run n (es ++ [e]) = Some n' ↔ ∃ n1, net_run n es = Some n1 ∧ net_step n1 e = Some n'.
Proof.
  rewrite net_run_app. destruct (net_run n es) as [n1|]; cbn; [|split; [done|by intros (? & ? & ?)]].
  split; [|by intros (? & [= <-] & ->)]. intros H. exists n1. split; [done|]. by destruct (net_step n1 e).
Qed.

Lemma net_run_inv capacity peers es n : net_run (new_net capacity peers) es = Some n → net_inv n.
Proof.
  revert n. induction es as [|e es IH] using rev_ind; intros n.
  - intros [= <-]. split; [unfold held; cbn; rewrite map_to_list_empty; constructor|..].
    + intros c. unfold held. cbn. rewrite map_to_list_empty. by intros ?%elem_of_nil.
    + by intros i [r Hr].
  - intros (n1 & H1 & H2)%net_run_snoc. apply IH in H1. apply (moved_inv n1); [|done].
    apply (net_steps_moved n1 e); [apply H1|by apply net_step_steps].
Qed.

(** The bound of the queue, and the end of the loop. *)
Lemma net_run_bound capacity peers es n :
  net_run (new_net capacity peers) es = Some n →
  sw_peers (nt_swarm n) = sw_peers (new_swarm peers) ∧ (length (nt_queue n) <= nt_capacity n)%nat ∧
  nt_capacity n = capacity ∧ (nt_running n = false → held n = []).
Proof.
  revert n. induction es as [|e es IH] using rev_ind; intros n.
  { intros [= <-]. cbn. by split_and!; [|lia| |]. }
  intros (n1 & H1 & H2)%net_run_snoc. apply IH in H1 as (Hpe & Hl & <- & Hs). apply net_step_steps in H2. revert H2.
  step_cases; try (pose proof (held_changes _ _ _ _ _ Hch) as Hh; destruct Hch as [Er Ep Ec Eq' Ew _];
    rewrite Er, Ep, Ec, Eq'; split_and!; try done; try congruence).
  - by rewrite Hh.
  - rewrite length_app. cbn. lia.
  - rewrite Eq in Hl. cbn in Hl. lia.
  - rewrite Eq in Hl. cbn in Hl. lia.
  - by rewrite Hh.
  - by rewrite Hh.
  - by rewrite Hh.
  - cbn. split_and!; [done|lia|done|]. intros _. unfold held. cbn. by rewrite map_to_list_empty.
Qed.

(** ** Which response a caller gets *)

Lemma round_trip_ok (request : Request) (o : SendOutcome) (response : Response) :
  round_trip request o = Ok response →
  ∃ reply payload b, o = Sent reply ∧ reply payload = Replied (Ok b) ∧ decode_cbor b = Ok response.
Proof.
  unfold round_trip. destruct (encode_cbor request) as [payload| |]; [|done..]. cbn [res_bind].
  destruct (_ <=? _); [|done]. destruct o as [reply| |]; [|done..].
  destruct (reply payload) as [[b| |]| |] eqn:E; try done. intros H. by exists reply, payload, b.
Qed.

Lemma resolve_done o calls c i (response : Response) :
  resolve o calls c !! i = Some (RpcDone (Ok response)) →
  calls !! i = Some (RpcDone (Ok response)) ∨ i = c ∧ ∃ b, o = Replied (Ok b) ∧ decode_cbor b = Ok response.
Proof.
  unfold resolve. destruct (calls !! c) as [[request| |]|] eqn:Ec; [|by left..].
  destruct (decide (i = c)) as [->|]; [|rewrite lookup_insert_ne by done; by left].
  rewrite lookup_insert_eq. intros H. apply (inj Some) in H. injection H as H.
  apply round_trip_ok in H as (reply & payload & b & E & Eb & Hd). injection E as <-. right. split; [done|]. by exists b.
Qed.

Lemma rpc_step_queue n e n' out :
  net_steps n e n' → out ∈ nt_queue n' →
  out ∈ nt_queue n ∨ ∃ request, e = NvCall (or_reply out) (or_target out) request ∧
    encode_cbor request = Ok (or_payload out) ∧ Z.of_nat (length (or_payload out)) <= MAX_RAFT_RPC_BYTES.
Proof.
  step_cases; try rewrite (ch_queue _ _ _ _ _ Hch); try by left.
  - intros [H| ->%list_elem_of_singleton]%elem_of_app; [by left|right]. by exists req.
  - rewrite Eq. left. by right.
  - rewrite Eq. left. by right.
  - by intros ?%elem_of_nil.
Qed.

Lemma rpc_step_pending n e n' id c :
  net_steps n e n' → sw_pending (nt_swarm n') !! id = Some c →
  sw_pending (nt_swarm n) !! id = Some c ∨
  e = NvTake id ∧ ∃ out queue peer (request : Request), nt_queue n = out :: queue ∧ or_reply out = c ∧
    sw_peers (nt_swarm n) !! or_target out = Some peer ∧ decode_cbor (or_payload out) = Ok request.
Proof.
  step_cases; try rewrite (ch_pending _ _ _ _ _ Hch); try by left.
  - intros [[-> E]|[_ H]]%lookup_insert_Some; [right|by left]. split; [done|]. by exists og, q, pr, req.
  - intros [_ H]%lookup_delete_Some. by left.
  - intros [_ H]%lookup_delete_Some. by left.
Qed.

Lemma rpc_step_done n e n' i (response : Response) :
  net_steps n e n' → nt_calls n' !! i = Some (RpcDone (Ok response)) →
  nt_calls n !! i = Some (RpcDone (Ok response)) ∨
  ∃ id response' b, e = NvSwarm (EvResponse id response') ∧ sw_pending (nt_swarm n) !! id = Some i ∧
    encode_cbor response' = Ok b ∧ decode_cbor b = Ok response.
Proof.
  step_cases; try rewrite (ch_calls _ _ _ _ _ Hch); try by left.
  - intros [[-> E]|[_ H]]%lookup_insert_Some; [|by left]. exfalso. injection E as E.
    apply round_trip_ok in E as (? & ? & ? & -> & _). by destruct Ho.
  - intros [[-> E]|[_ H]]%lookup_insert_Some; [done|by left].
  - intros [H|[_ (x & [=] & _)]]%resolve_done. by left.
  - destruct (_ !! d) as [c|]; [|by left]. destruct (decide _); [by left|].
    intros [H|[_ (x & [=] & _)]]%resolve_done. by left.
  - intros [H|[-> (x & [= <-] & Hx)]]%resolve_done; [by left|right]. by exists d, rp, b.
  - intros [H|[_ (x & [=] & _)]]%resolve_done. by left.
  - intros [H|[_ (x & [=] & _)]]%resolve_done. by left.
  - intros [[-> E]|[_ H]]%lookup_insert_Some; [done|by left].
  - cbn. rewrite lookup_fmap. destruct (nt_calls n !! i) as [[request| |]|]; cbn; [|by left|done..].
    intros H. apply (inj Some) in H. injection H as H. by apply round_trip_ok in H as (? & ? & ? & [= <-] & [=] & _).
Qed.

(** The loop sends the request of call [i] to [peer] under the id [id]. *)
Definition sends (n : Net) (id : Z) (i : nat) (peer : PeerEntry) (request : Request) : Prop :=
  ∃ out queue s, nt_queue n = out :: queue ∧ or_reply out = i ∧
    on_outbound (nt_swarm n) out id = Ok (s, [SendRequest (pe_peer_id peer) request id] : list Effect).

Section History.
Context {CQL : CiboriumLaws Request} {CRL : CiboriumLaws Response} (capacity : nat) (peers : list PeerEntry).

(** Call [i] was made, and its request sent under [id] after that. *)
Definition issued (es : list NetEvent) (i : nat) (id : Z) : Prop :=
  ∃ target request peer l1 l2 l3 n1,
    es = l1 ++ NvCall i target request :: l2 ++ NvTake id :: l3 ∧
    net_run (new_net capacity peers) (l1 ++ NvCall i target request :: l2) = Some n1 ∧
    sw_peers (new_swarm peers) !! target = Some peer ∧ sends n1 id i peer request.

Record history (es : list NetEvent) (n : Net) : Prop := {
  hi_queue : ∀ out, out ∈ nt_queue n → ∃ request l1 l2, es = l1 ++ NvCall (or_reply out) (or_target out) request :: l2 ∧
    decode_cbor (or_payload out) = Ok request;
  hi_pending : ∀ id c, sw_pending (nt_swarm n) !! id = Some c → issued es c id;
  hi_done : ∀ i response, nt_calls n !! i = Some (RpcDone (Ok response)) →
    ∃ id l1 l2, es = l1 ++ NvSwarm (EvResponse id response) :: l2 ∧ issued l1 i id
}.

Lemma issued_snoc es e i id : issued es i id → issued (es ++ [e]) i id.
Proof.
  intros (target & request & peer & l1 & l2 & l3 & n1 & -> & H).
  exists target, request, peer, l1, l2, (l3 ++ [e]), n1. split; [|done]. by rewrite <- !app_assoc; cbn; rewrite <- app_assoc.
Qed.

Lemma history_step es e n n' :
  net_run (new_net capacity peers) es = Some n → history es n → net_step n e = Some n' → history (es ++ [e]) n'.
Proof.
  intros Hrun [Hq Hp Hd] Hs%net_step_steps. split.
  - intros out Hout. destruct (rpc_step_queue _ _ _ _ Hs Hout) as [H|(request & -> & He & Hl)].
    + destruct (Hq out H) as (request & l1 & l2 & -> & Hr). exists request, l1, (l2 ++ [e]). by rewrite <- app_assoc.
    + exists request, es, []. split; [done|]. by apply decode_encode_cbor.
  - intros id c Hc. destruct (rpc_step_pending _ _ _ _ _ Hs Hc) as [H|(-> & out & queue & peer & request & Eq & <- & Epr & Hdec)];
      [by apply issued_snoc, Hp|].
    destruct (Hq out) as (request' & l1 & l2 & -> & Hr); [rewrite Eq; left|].
    exists (or_target out), request', peer, l1, l2, [], n. split; [by rewrite <- app_assoc|]. split; [done|].
    destruct (net_run_bound _ _ _ _ Hrun) as [Hpe _]. rewrite Hpe in Epr. split; [done|].
    eexists out, queue, _. split; [done|]. split; [done|]. unfold on_outbound. rewrite Hpe, Epr, Hr. done.
  - intros i response Hi. destruct (rpc_step_done _ _ _ _ _ Hs Hi) as [H|(id & response' & b & -> & Hpe & He & Hdec)].
    + destruct (Hd i response H) as (id & l1 & l2 & -> & Hl). exists id, l1, (l2 ++ [e]). by rewrite <- app_assoc.
    + assert (response' = response) as ->.
      { assert (Hl : Z.of_nat (length b) <= MAX_RAFT_RPC_BYTES).
        { unfold decode_cbor in Hdec. destruct (Z.leb_spec (Z.of_nat (length b)) MAX_RAFT_RPC_BYTES); [done|discriminate Hdec]. }
        rewrite (decode_encode_cbor _ _ He Hl) in Hdec. by injection Hdec. }
      exists id, es, []. split; [done|]. by apply Hp.
Qed.

Lemma net_run_history es n : net_run (new_net capacity peers) es = Some n → history es n.
Proof.
  revert n. induction es as [|e es IH] using rev_ind; intros n.
  - intros [= <-]. split; [by intros out ?%elem_of_nil|done..].
  - intros (n1 & H1 & H2)%net_run_snoc. by eapply history_step; [|apply IH|].
Qed.

(** C13: A caller gets the response to its own request.  Whatever the
    interleaving of callers, loop, libp2p and deadlines, if a call of
    [round_trip] returns a response, then the call was made, later the loop
    took exactly its request from the queue and sent it, under an id, to the
    configured peer of its target, and later libp2p reported exactly this
    response for this id. *)
Theorem response_correlated es n i response
    (Hrun : net_run (new_net capacity peers) es = Some n)
    (Hdone : nt_calls n !! i = Some (RpcDone (Ok response))) :
  ∃ target request peer id l1 l2 l3 l4 n1,
    es = l1 ++ NvCall i target request :: l2 ++ NvTake id :: l3 ++ NvSwarm (EvResponse id response) :: l4 ∧
    net_run (new_net capacity peers) (l1 ++ NvCall i target request :: l2) = Some n1 ∧
    sw_peers (new_swarm peers) !! target = Some peer ∧ sends n1 id i peer request.
Proof.
  destruct (hi_done _ _ (net_run_history _ _ Hrun) _ _ Hdone) as (id & pre & l4 & -> & target & request & peer & l1 & l2 & l3 & n1 & -> & H).
  exists target, request, peer, id, l1, l2, l3, l4, n1. split; [|done]. by rewrite <- !app_assoc; cbn; rewrite <- app_assoc.
Qed.

End History.

(** C27: No caller is forgotten.  In every reachable state the queue is within
    its capacity, the reply channels in the queue and in the map of pending
    requests are pairwise distinct, every caller that still waits has its
    reply channel among them, and once the loop has ended nobody waits. *)
Theorem callers_held capacity peers es n (Hrun : net_run (new_net capacity peers) es = Some n) :
  (length (nt_queue n) <= capacity)%nat ∧ NoDup (held n) ∧
  (∀ i, is_waiting (nt_calls n) i → i ∈ held n) ∧
  (nt_running n = false → ∀ i, ¬ is_waiting (nt_calls n) i).
Proof.
  destruct (net_run_bound _ _ _ _ Hrun) as (_ & Hl & <- & Hs). destruct (net_run_inv _ _ _ _ Hrun) as [Hn _ Hw].
  split; [done|]. split; [done|]. split; [done|]. intros Hr i Hi%Hw. rewrite (Hs Hr) in Hi. by apply elem_of_nil in Hi.
Qed.

End Outbound.
