(* ===== verification/Consensus.v ===== *)
(** * The consensus node: configuration, start-up and the JSON-RPC surface

    [omega-toy-consensus/src/{config,error,node,routing}.rs] and
    [rpc/{error,server,types}.rs].  openraft's [client_write] is an input of
    [submit_claim]: the outcome it returns for a command.  Start-up works on
    the file system of [Files.v]; libp2p's key pairs are a class.

    Tasks and the shutdown order are in [Lifecycle.v].  Messages that the
    code renders to text are kept as the values they are made of. *)

From S2P Require Import Prelude Text Files Hash Tree ClaimTx Prover Verifier Ledger Storage Network.
From Stdlib Require Import ZArith Lia List String.
From stdpp Require Import base decidable strings pretty gmap list.

Local Open Scope Z_scope.

(** ** Configuration *)

Inductive ConsensusError : Type :=
| CeStorage (e : LedgerError)
| CeNetwork (e : OmegaNetworkError)
| CeRpcBind
| CeRaft
| CeConfig (what : string)
| CeIdentity
| CeShutdownJoin.

Inductive IpAddr : Type :=
| IpV4 (a b c d : Z)
| IpV6 (segments : list Z).

Definition is_loopback (ip : IpAddr) : bool :=
  match ip with
  | IpV4 a _ _ _ => a =? 127
  | IpV6 segments => bool_decide (segments = [0; 0; 0; 0; 0; 0; 0; 1])
  end.

Record PeerConfig := {
  pc_node_id : Z;
  pc_libp2p_peer_id : string;
  pc_libp2p_addr : string;
  pc_rpc_url : string
}.

Record RpcConfig := {
  rpc_ip : IpAddr;
  rpc_port : Z;
  rpc_max_batch : Z;
  rpc_max_request_bytes : Z
}.

(** Durations are in milliseconds. *)
Record NodeConfig := {
  nc_node_id : Z;
  nc_data_dir : Path;
  nc_identity_file : option Path;
  nc_libp2p_listen : string;
  nc_peers : list PeerConfig;
  nc_rpc : RpcConfig;
  nc_cluster_id : string;
  nc_apply_deadline : Z;
  nc_raft_rpc_timeout : option Z
}.

Definition effective_raft_rpc_timeout (c : NodeConfig) : Z := default (nc_apply_deadline c) (nc_raft_rpc_timeout c).

(** [str::splitn(n, c)]. *)
Fixpoint splitn (n : nat) (c : Ascii.ascii) (s : string) : list string :=
  match n with
  | O => []
  | S O => [s]
  | S n' => match split_once c s with
            | Some (l, r) => l :: splitn n' c r
            | None => [s]
            end
  end.

(** [PeerConfig::from_str]. *)
Definition parse_peer_config (s : string) : result PeerConfig ConsensusError :=
  match splitn 4 (Ascii.ascii_of_nat 44) s with
  | [id; peer_id; addr; url] =>
      let? node_id := ok_or (parse_u64 id) (CeConfig "peer node_id") in
      Ok {| pc_node_id := node_id; pc_libp2p_peer_id := peer_id; pc_libp2p_addr := addr; pc_rpc_url := url |}
  | _ => Err (CeConfig "peer")
  end.

(** [u32] and [u64] additions that overflow panic. *)
Definition single_node_localhost (temp_dir : Path) (node_id : Z) : result NodeConfig ConsensusError :=
  guard! negb (node_id =? 0) else CeConfig "node_id must be non-zero";
  guard! (node_id <? 2 ^ 32) else CeConfig "node_id exceeds u32";
  if 2 ^ 32 <=? 8000 + node_id then Panic
  else
    guard! (8000 + node_id <? 2 ^ 16) else CeConfig "rpc port exceeds u16";
    Ok {| nc_node_id := node_id; nc_data_dir := temp_dir ++ [("omega-toy-consensus-" +:+ pretty node_id)%string];
          nc_identity_file := None;
          nc_libp2p_listen := ("/ip4/127.0.0.1/tcp/" +:+ pretty (4000 + node_id))%string;
          nc_peers := [];
          nc_rpc := {| rpc_ip := IpV4 127 0 0 1; rpc_port := 8000 + node_id; rpc_max_batch := 25;
                       rpc_max_request_bytes := 1024 * 1024 |};
          nc_cluster_id := "loganet-dev"; nc_apply_deadline := 5000; nc_raft_rpc_timeout := None |}.

(** ** Start-up *)

Definition validate_config (c : NodeConfig) : result unit ConsensusError :=
  guard! is_loopback (rpc_ip (nc_rpc c)) else CeConfig "rpc.bind must be a loopback address in v0.1";
  Ok ().

(** [iter::once(node_id).chain(peers).min() == Some(node_id)]. *)
Definition is_initialiser (c : NodeConfig) : bool :=
  foldl Z.min (nc_node_id c) (pc_node_id <$> nc_peers c) =? nc_node_id c.

Definition should_initialize_cluster (c : NodeConfig) (last_log_index : option Z) : bool :=
  is_initialiser c && match last_log_index with None => true | Some _ => false end.

(** Node ids with their addresses; a later insert for the same id wins. *)
Definition initial_members (c : NodeConfig) : gmap Z string :=
  foldl (λ m p, <[pc_node_id p := pc_libp2p_addr p]> m) {[nc_node_id c := nc_libp2p_listen c]} (nc_peers c).

Definition identity_path (c : NodeConfig) : Path :=
  match nc_identity_file c with
  | Some p => p
  | None =>
      match extension (nc_data_dir c) with
      | Some _ => with_extension (nc_data_dir c) "identity.bin"
      | None => nc_data_dir c ++ ["identity.bin"%string]
      end
  end.

Class Keypairs := {
  Keypair : Type;
  to_protobuf_encoding : Keypair → option bytes;
  from_protobuf_encoding : bytes → option Keypair
}.

Section Start.
Context {KP : Keypairs} {SF : SqliteFiles}.

(** [fresh] is the key pair that [generate_ed25519] returns. *)
Definition load_or_create_identity (fs : Fs) (c : NodeConfig) (fresh : Keypair) :
    Fs * result Keypair ConsensusError :=
  let path := identity_path c in
  match fs_read fs path with
  | Ok b => (fs, ok_or (from_protobuf_encoding b) CeIdentity)
  | Err NotFound =>
      match to_protobuf_encoding fresh with
      | None => (fs, Err CeIdentity)
      | Some b =>
          match create_dir_all fs (removelast path) with
          | Ok fs =>
              match fs_write fs path b with
              | Ok fs => (fs, Ok fresh)
              | _ => (fs, Err CeIdentity)
              end
          | _ => (fs, Err CeIdentity)
          end
      end
  | _ => (fs, Err CeIdentity)
  end.

(** [MockLedger::open]: the parent is created, then SQLite opens the file,
    which it creates if absent; it does not open a directory. *)
Definition open_ledger (fs : Fs) (p : Path) : Fs * result Db LedgerError :=
  match create_dir_all fs (removelast p) with
  | Ok fs =>
      match fs !! p with
      | Some FsDir => (fs, Err LeSqlite)
      | None => (<[p := FsFile (db_image empty_db)]> fs, Ok empty_db)
      | Some (FsFile b) =>
          match open_image b with
          | NotADatabase => (fs, Err LeSqlite)
          | MissingTables => (<[p := FsFile (db_image empty_db)]> fs, Ok empty_db)
          | Opened db => (fs, Ok db)
          end
      end
  | _ => (fs, Err LeIo)
  end.

(** [Node::start] up to the opened ledger. *)
Definition start_storage (fs : Fs) (c : NodeConfig) (fresh : Keypair) :
    Fs * result (Keypair * Db) ConsensusError :=
  match validate_config c with
  | Ok _ =>
      match load_or_create_identity fs c fresh with
      | (fs, Ok keypair) =>
          let '(fs, r) := open_ledger fs (nc_data_dir c) in
          (fs, let? db := res_map_err CeStorage r in Ok (keypair, db))
      | (fs, Err e) => (fs, Err e)
      | (fs, Panic) => (fs, Panic)
      end
  | Err e => (fs, Err e)
  | Panic => (fs, Panic)
  end.

End Start.

(** ** JSON-RPC *)

Definition CODE_NOT_LEADER : Z := -32000.
Definition CODE_VERIFY : Z := -32001.
Definition CODE_INVALID_CLAIM : Z := -32002.
Definition CODE_REPLAY : Z := -32003.
Definition CODE_WRITER_CLOSED : Z := -32004.
Definition CODE_TIMEOUT : Z := -32005.
(** jsonrpsee's internal error. *)
Definition INTERNAL_ERROR_CODE : Z := -32603.

Inductive ErrorData : Type :=
| DataLeader (leader_id : option Z) (leader_rpc_url : option string)
| DataVerify (e : VerifyError)
| DataDetail (detail : string)
| DataReplay (sub_tree_id leaf_index : Z)
| DataRetryable
| DataDeadline (deadline_ms : Z)
| DataOpenraft
| DataLedger (e : LedgerError).

Record RpcError := {
  re_code : Z;
  re_data : ErrorData
}.

Definition not_leader (id : option Z) (url : option string) : RpcError :=
  {| re_code := CODE_NOT_LEADER; re_data := DataLeader id url |}.
Definition verify_error (e : VerifyError) : RpcError := {| re_code := CODE_VERIFY; re_data := DataVerify e |}.
Definition invalid_claim (detail : string) : RpcError :=
  {| re_code := CODE_INVALID_CLAIM; re_data := DataDetail detail |}.
Definition replay (id leaf_index : Z) : RpcError :=
  {| re_code := CODE_REPLAY; re_data := DataReplay id leaf_index |}.
Definition writer_closed : RpcError := {| re_code := CODE_WRITER_CLOSED; re_data := DataRetryable |}.
Definition timeout_error (deadline_ms : Z) : RpcError :=
  {| re_code := CODE_TIMEOUT; re_data := DataDeadline deadline_ms |}.

(** openraft's [ClientWriteError]. *)
Inductive ClientWriteError : Type :=
| ForwardToLeader (leader_id : option Z)
| ChangeMembershipError.

Definition translate_client_write_error (err : ClientWriteError) (resolve : Z → option string) : RpcError :=
  match err with
  | ForwardToLeader leader_id => not_leader leader_id (leader_id ≫= resolve)
  | ChangeMembershipError => {| re_code := INTERNAL_ERROR_CODE; re_data := DataOpenraft |}
  end.

Definition translate_ledger_error (err : LedgerError) : RpcError :=
  match err with
  | LeVerify e => verify_error e
  | LeInvalidClaim detail => invalid_claim detail
  | LeReplay id leaf => replay id leaf
  | LeWriterClosed | LeWriterReplyCanceled => writer_closed
  | other => {| re_code := INTERNAL_ERROR_CODE; re_data := DataLedger other |}
  end.

Record SubmitOutcome := {
  so_accepted : bool;
  so_applied_index : option Z;
  so_reject_reason : option string
}.

Definition reject_reason (r : LedgerReject) : string :=
  match r with
  | RejVerify => "verify"
  | RejInvalidClaim => "invalid"
  | RejReplay => "replay"
  | RejWriterClosed | RejInternal => "internal"
  end.

(** What [client_write] under the deadline gives. *)
Inductive WriteOutcome : Type :=
| WriteElapsed
| WriteApplied (log_id : LogId) (response : LedgerResponse)
| WriteApi (e : ClientWriteError)
| WriteFatal.

Record OmegaRpcShared := {
  sh_node_id : Z;
  sh_peers : list PeerConfig;
  sh_apply_deadline : Z
}.

Definition leader_url (sh : OmegaRpcShared) (id : Z) : option string :=
  pc_rpc_url <$> List.find (λ p, pc_node_id p =? id) (sh_peers sh).

Definition submit_claim `{StarkVerifier} (sh : OmegaRpcShared) (claim : ClaimTx)
    (client_write : LedgerCommand → WriteOutcome) : result SubmitOutcome RpcError :=
  let? cmd := res_map_err translate_ledger_error (command_of_claim claim) in
  match client_write cmd with
  | WriteElapsed => Err (timeout_error (Z.min (sh_apply_deadline sh) (2 ^ 32 - 1)))
  | WriteApi err => Err (translate_client_write_error err (leader_url sh))
  | WriteFatal => Err {| re_code := INTERNAL_ERROR_CODE; re_data := DataOpenraft |}
  | WriteApplied log_id response =>
      let applied_index := Some (li_index log_id) in
      if lr_accepted response then
        Ok {| so_accepted := true; so_applied_index := applied_index; so_reject_reason := None |}
      else
        match lr_reject response with
        | Some RejWriterClosed => Err writer_closed
        | Some reject => Ok {| so_accepted := false; so_applied_index := applied_index;
                               so_reject_reason := Some (reject_reason reject) |}
        | None => Ok {| so_accepted := false; so_applied_index := applied_index;
                        so_reject_reason := Some "internal"%string |}
        end
  end.

Inductive NodeRole : Type := RoleLeader | RoleFollower | RoleCandidate | RoleLearner.

(** openraft's [ServerState]. *)
Inductive ServerState : Type := StLearner | StFollower | StCandidate | StLeader | StShutdown.

Record NodeState := {
  ns_node_id : Z;
  ns_role : NodeRole;
  ns_leader_id : option Z;
  ns_last_log_id : option (Z * Z);
  ns_applied_index : Z;
  ns_nullifier_count : Z;
  ns_starstream_utxo_count : Z
}.

(** openraft's metrics, as far as they are read. *)
Record RaftMetrics := {
  rm_state : ServerState;
  rm_current_leader : option Z;
  rm_last_applied : option LogId
}.

Definition get_state (sh : OmegaRpcShared) (m : RaftMetrics) (db : Db) : NodeState :=
  {| ns_node_id := sh_node_id sh;
     ns_role := match rm_state m with
       | StLeader => RoleLeader
       | StFollower => RoleFollower
       | StCandidate => RoleCandidate
       | StLearner => RoleLearner
       | StShutdown => RoleFollower
       end;
     ns_leader_id := rm_current_leader m;
     ns_last_log_id := (λ id, (li_term id, li_index id)) <$> rm_last_applied m;
     ns_applied_index := default 0 (li_index <$> rm_last_applied m);
     ns_nullifier_count := Z.of_nat (nullifier_count db);
     ns_starstream_utxo_count := Z.of_nat (starstream_utxo_count db) |}.

(** [BatchLimit::batch]; [None] is the error for an invalid request. *)
Definition batch_limit {Req Res : Type} (max_batch : nat) (service : list Req → Res) (batch : list Req) : option Res :=
  if (max_batch <? length batch)%nat then None else Some (service batch).

Section Inbound.
Context {AppendReq VoteReq SnapshotReq AppendRes VoteRes SnapshotRes : Type}.

(** [OmegaInboundHandler::handle] with the three calls of openraft; [None] is
    their error. *)
Definition inbound_handle (append : AppendReq → option AppendRes) (voted : VoteReq → option VoteRes)
    (install : SnapshotReq → option SnapshotRes) (request : @RaftRpcRequest AppendReq VoteReq SnapshotReq) :
    result (@RaftRpcResponse AppendRes VoteRes SnapshotRes) OmegaNetworkError :=
  match request with
  | ReqAppendEntries r => let? response := ok_or (append r) NeCodec in Ok (ResAppendEntries response)
  | ReqInstallSnapshot r => let? response := ok_or (install r) NeCodec in Ok (ResInstallSnapshot response)
  | ReqVote r => let? response := ok_or (voted r) NeCodec in Ok (ResVote response)
  end.

End Inbound.
