(* ===== verification/ConsensusSpec.v ===== *)
(** * Specification of the consensus node

    What a client learns from [submit_claim], and when; which node of a
    cluster initialises it; and that a node with the default identity file
    and a data directory without an extension never starts. *)

From S2P Require Import Prelude Files Hash Tree ClaimTx ClaimTxSpec Prover Verifier VerifierSpec.
From S2P Require Import Ledger Storage LedgerSpec Network Consensus.
From Stdlib Require Import ZArith Lia List String.
From stdpp Require Import base decidable strings pretty gmap list.

Local Open Scope Z_scope.

(** ** Submitting a claim *)

Section Submit.
Context {HF : HashFns} {SV : StarkVerifier} {Membership : Type}.

(** The errors of the claim pipeline, which never names the writer's channel. *)
Definition pipeline_error (e : LedgerError) : Prop :=
  match e with
  | LeVerify _ | LeInvalidClaim _ | LeReplay _ _ | LeIntegerOutOfRange _ _ | LeSqlite => True
  | _ => False
  end.

Lemma sqlite_i64_error field v e : sqlite_i64 field v = Err e → pipeline_error e.
Proof. unfold sqlite_i64. destruct (v <? 2 ^ 63); [done|]. by intros [= <-]. Qed.

Lemma res_bind_err {A B E} (r : result A E) (f : A → result B E) e :
  res_bind r f = Err e → r = Err e ∨ ∃ a, r = Ok a ∧ f a = Err e.
Proof. destruct r; cbn; naive_solver. Qed.

Lemma reject_replays_error db pis e : reject_replays db pis = Err e → pipeline_error e.
Proof.
  induction pis as [|p pis IH]; cbn [reject_replays]; [done|].
  intros [H|(a & _ & H)]%res_bind_err; [|by apply IH]. apply res_bind_err in H as [H|(i & _ & H)]; [by apply sqlite_i64_error in H|].
  destruct (nullifiers db !! _); [by injection H as <-|done].
Qed.

Lemma insert_claims_error db pis ws b o b' e : insert_claims db pis ws b o b' = Err e → pipeline_error e.
Proof.
  revert db ws o. induction pis as [|p pis IH]; intros db [|w ws] o; cbn [insert_claims]; try done.
  intros [H|(db1 & _ & H)]%res_bind_err.
  { apply res_bind_err in H as [H|(i & _ & H)]; [by apply sqlite_i64_error in H|].
    unfold sql_insert_nullifier in H. destruct (nullifiers db !! _); [by injection H as <-|done]. }
  apply res_bind_err in H as [H|(db2 & _ & H)]; [|by apply IH in H].
  apply res_bind_err in H as [H|(v & _ & H)]; [by apply sqlite_i64_error in H|].
  unfold sql_insert_utxo in H. destruct (starstream_utxos db1 !! _); [by injection H as <-|done].
Qed.

Lemma apply_claim_body_error db b c claim e : apply_claim_body db b c claim = Err e → pipeline_error e.
Proof.
  intros [H|(b' & _ & H)]%res_bind_err; [by apply sqlite_i64_error in H|].
  apply res_bind_err in H as [H|(pc & _ & H)].
  { destruct claim as [|cc]; cbn in H; [done|]. destruct (Nat.eqb _ _); [done|]. by injection H as <-. }
  apply res_bind_err in H as [H|(_ & _ & H)].
  { destruct (verify_claim _ _ _); cbn in H; [done| |done]. by injection H as <-. }
  apply res_bind_err in H as [H|(_ & _ & H)]; [by apply reject_replays_error in H|by apply insert_claims_error in H].
Qed.

(** The reasons of a rejection that reaches the client. *)
Definition reasons : list string := ["verify"; "invalid"; "replay"; "internal"]%string.

(** The codes that [submit_claim] can answer with. *)
Definition submit_codes : list Z :=
  [CODE_NOT_LEADER; CODE_VERIFY; CODE_WRITER_CLOSED; CODE_TIMEOUT; INTERNAL_ERROR_CODE].

Lemma submit_claim_applied sh claim e log_id (w : LedgerCommand → LedgerResponse) :
  decode_envelope (claim_proof claim) = Some e →
  submit_claim sh claim (λ cmd, WriteApplied log_id (w cmd)) =
  let r := w {| lc_block_idx := 0; lc_commitment := pe_commitment e; lc_claim := claim |} in
  if lr_accepted r then Ok {| so_accepted := true; so_applied_index := Some (li_index log_id); so_reject_reason := None |}
  else match lr_reject r with
    | Some RejWriterClosed => Err writer_closed
    | Some reject => Ok {| so_accepted := false; so_applied_index := Some (li_index log_id); so_reject_reason := Some (reject_reason reject) |}
    | None => Ok {| so_accepted := false; so_applied_index := Some (li_index log_id); so_reject_reason := Some "internal"%string |}
    end.
Proof. intros He. unfold submit_claim, command_of_claim. by rewrite He. Qed.

Lemma apply_entry_normal (HL : HashLaws HF) db cmd :
  wf_commitment (lc_commitment cmd) → wf_claim (lc_claim cmd) →
  let a := applicable db (lc_block_idx cmd) (lc_commitment cmd) (lc_claim cmd) in
  (a ∧ apply_entry db (@Normal Membership cmd) = (applied db (lc_block_idx cmd) (lc_claim cmd), Ok accepted)) ∨
  (¬ a ∧ ∃ err, pipeline_error err ∧ apply_entry db (@Normal Membership cmd) = (db, Ok (rejected err))).
Proof.
  intros Hc Ht. cbv zeta. unfold apply_entry. destruct (apply_claim_tx db _ _ _) as [db' r] eqn:E.
  destruct (apply_claim_tx_cases _ _ _ _ _ _ E) as [(-> & Ha & ->)|(Hr & Ha & ->)]; [by left|right].
  split; [done|]. revert E. unfold apply_claim_tx, transact.
  pose proof (apply_claim_body_returns HL db (lc_block_idx cmd) _ _ Hc Ht) as Hp.
  destruct (apply_claim_body _ _ _ _) as [db1|err|] eqn:Eb; [congruence| |done].
  intros [= <-]. exists err. split; [by apply apply_claim_body_error in Eb|done].
Qed.

(** C29: What a client learns.  A claim whose proof envelope does not decode is
    answered with the code -32001 and never reaches raft.  Otherwise, when
    raft commits the command and the state machine applies it, the client is
    told that the claim was accepted exactly when it was applicable, with the
    index of its entry, and the tables are updated; or that it was rejected,
    with the index and a reason, and the tables are unchanged.  In every case
    the error codes are among -32000, -32001, -32004, -32005 and -32603: the
    codes -32002 and -32003 are never used. *)
Theorem submit_claim_spec (HL : HashLaws HF) sh claim (Ht : wf_claim claim)
    (Hc : ∀ e, decode_envelope (claim_proof claim) = Some e → wf_commitment (pe_commitment e)) :
  (∀ write err, submit_claim sh claim write = Err err → re_code err ∈ submit_codes) ∧
  match decode_envelope (claim_proof claim) with
  | None => ∀ write, submit_claim sh claim write = Err (verify_error InvalidProof)
  | Some e => ∀ db log_id db' r,
      let cmd := {| lc_block_idx := 0; lc_commitment := pe_commitment e; lc_claim := claim |} in
      apply_entry db (@Normal Membership cmd) = (db', Ok r) →
      let answer := submit_claim sh claim (λ _, WriteApplied log_id r) in
      (applicable db 0 (pe_commitment e) claim ∧ db' = applied db 0 claim ∧
       answer = Ok {| so_accepted := true; so_applied_index := Some (li_index log_id); so_reject_reason := None |}) ∨
      (¬ applicable db 0 (pe_commitment e) claim ∧ db' = db ∧ ∃ reason, reason ∈ reasons ∧
       answer = Ok {| so_accepted := false; so_applied_index := Some (li_index log_id); so_reject_reason := Some reason |})
  end.
Proof.
  split.
  - intros write err. unfold submit_claim, command_of_claim.
    destruct (decode_envelope _) as [e|]; cbn [ok_or res_map_err res_bind]; [|intros [= <-]; cbn; set_solver].
    destruct (write _) as [|id r|err'|]; [intros [= <-]; cbn; set_solver| |intros [= <-]; destruct err'; cbn; set_solver|intros [= <-]; cbn; set_solver].
    destruct (lr_accepted r); [done|]. destruct (lr_reject r) as [[]|]; try done. intros [= <-]. cbn. set_solver.
  - destruct (decode_envelope (claim_proof claim)) as [e|] eqn:He; cbv zeta.
    2: { intros write. unfold submit_claim, command_of_claim. by rewrite He. }
    intros db log_id db' r E.
    rewrite (submit_claim_applied sh claim e log_id (λ _, r) He). cbv zeta beta.
    destruct (apply_entry_normal HL db {| lc_block_idx := 0; lc_commitment := pe_commitment e; lc_claim := claim |}
      (Hc e eq_refl) Ht) as [[Ha E']|[Ha (err & Herr & E')]].
    + left. rewrite E in E'. injection E' as -> ->. done.
    + right. rewrite E in E'. injection E' as -> ->. split; [done|]. split; [done|].
      destruct err; try done; eexists; (split; [|done]); cbn; set_solver.
Qed.

End Submit.

(** ** Cluster initialisation *)

Lemma foldl_min_spec l a :
  (foldl Z.min a l ∈ a :: l) ∧ ∀ i, i ∈ a :: l → foldl Z.min a l <= i.
Proof.
  revert a. induction l as [|x l IH]; intros a; cbn [foldl]; [set_solver|].
  destruct (IH (Z.min a x)) as [H1 H2]. split.
  - apply elem_of_cons in H1 as [H1|H1]; [|set_solver]. rewrite H1. destruct (Z.min_spec a x) as [[_ ->]|[_ ->]]; set_solver.
  - intros i Hi. pose proof (H2 (Z.min a x) ltac:(left)).
    apply elem_of_cons in Hi as [->|[->|Hi]%elem_of_cons]; [lia|lia|]. apply H2. by right.
Qed.

Lemma is_initialiser_spec c :
  is_initialiser c = true ↔ ∀ i, i ∈ pc_node_id <$> nc_peers c → nc_node_id c <= i.
Proof.
  unfold is_initialiser. rewrite Z.eqb_eq.
  destruct (foldl_min_spec (pc_node_id <$> nc_peers c) (nc_node_id c)) as [H1 H2]. split.
  - intros E i Hi. rewrite <- E. apply H2. by right.
  - intros H. apply elem_of_cons in H1 as [H1|H1]; [done|]. specialize (H _ H1). specialize (H2 (nc_node_id c) ltac:(left)). lia.
Qed.

(** The nodes of a cluster, each of which lists all others as its peers. *)
Definition cluster (cs : list NodeConfig) : Prop :=
  NoDup (nc_node_id <$> cs) ∧
  Forall (λ c, nc_node_id c :: (pc_node_id <$> nc_peers c) ≡ₚ (nc_node_id <$> cs)) cs.

(** Exactly one node initialises a new cluster.  Among nodes with distinct
    ids that list each other as peers, there is one for which
    [should_initialize_cluster] holds on an empty log, and it is the only
    one; and no node with a log entry initialises. *)
Theorem one_initialiser cs (Hne : cs ≠ []) (Hcs : cluster cs) :
  (∃ c, c ∈ cs ∧ should_initialize_cluster c None = true ∧
     ∀ c', c' ∈ cs → should_initialize_cluster c' None = true → c' = c) ∧
  ∀ c i, should_initialize_cluster c (Some i) = false.
Proof.
  destruct Hcs as [Hnd Hcs]. rewrite list.Forall_forall in Hcs.
  assert (Hs : ∀ c, c ∈ cs → should_initialize_cluster c None = true ↔ ∀ c', c' ∈ cs → nc_node_id c <= nc_node_id c').
  { intros c Hc. unfold should_initialize_cluster. rewrite andb_true_r, is_initialiser_spec. specialize (Hcs c Hc). split.
    - intros H c' Hc'. assert (Hin : nc_node_id c' ∈ nc_node_id <$> cs) by (by apply list_elem_of_fmap_2).
      rewrite <- Hcs in Hin. apply elem_of_cons in Hin as [->|Hin]; [lia|by apply H].
    - intros H i Hi. assert (Hin : i ∈ nc_node_id <$> cs) by (rewrite <- Hcs; by right).
      apply list_elem_of_fmap in Hin as (c' & -> & Hc'). by apply H. }
  split; [|intros c i; unfold should_initialize_cluster; by rewrite andb_false_r].
  destruct cs as [|c0 cs']; [done|]. destruct (foldl_min_spec (nc_node_id <$> cs') (nc_node_id c0)) as [H1 H2].
  change (nc_node_id c0 :: (nc_node_id <$> cs')) with (nc_node_id <$> (c0 :: cs')) in H1, H2.
  apply list_elem_of_fmap in H1 as (c & Ec & Hc). exists c. split; [done|]. split.
  - apply (Hs c Hc). intros c' Hc'. rewrite <- Ec. apply H2. by apply list_elem_of_fmap_2.
  - intros c' Hc' Hi. pose proof (proj1 (Hs c' Hc') Hi c Hc). specialize (H2 (nc_node_id c') ltac:(by apply list_elem_of_fmap_2)).
    apply list_elem_of_lookup_1 in Hc as [i Ei], Hc' as [j Ej].
    assert (i = j) as ->; [|congruence]. apply (NoDup_lookup _ i j (nc_node_id c) Hnd); rewrite list_lookup_fmap.
    + by rewrite Ei.
    + rewrite Ej. cbn. f_equal. lia.
Qed.

(** ** Start-up *)

Section Startup.
Context {KP : Keypairs} {SF : SqliteFiles}.

Lemma open_ledger_dir fs p : fs !! p = Some FsDir → ∀ db, (open_ledger fs p).2 ≠ Ok db.
Proof.
  intros Hp db. unfold open_ledger. destruct (create_dir_all fs (removelast p)) as [fs'| |] eqn:E; [|done..].
  by rewrite (create_dirs_keeps _ _ _ _ _ E Hp).
Qed.

Lemma default_identity_dir fs c fresh fs' k :
  wf_fs fs → nc_identity_file c = None → extension (nc_data_dir c) = None → nc_data_dir c ≠ [] →
  load_or_create_identity fs c fresh = (fs', Ok k) → fs' !! nc_data_dir c = Some FsDir.
Proof.
  intros Hfs Hi He Hd. unfold load_or_create_identity, identity_path. rewrite Hi, He, removelast_last.
  unfold fs_read. destruct (below_file _ _ _); cbn [negb]; [done|].
  destruct (fs !! (nc_data_dir c ++ _)) as [[|b]|] eqn:Ef; [done| |].
  - intros [= <- _]. by destruct (Hfs _ _ _ Ef).
  - destruct (to_protobuf_encoding fresh) as [b|]; [|done].
    destruct (create_dir_all fs (nc_data_dir c)) as [fs1| |] eqn:E1; [|done..].
    pose proof (create_dirs_creates _ _ _ _ E1 Hd) as H1. cbn [app] in H1.
    unfold fs_write. destruct (parent_dir _ _); [cbn [res_bind]|done..].
    destruct (fs1 !! (nc_data_dir c ++ _)) as [[|]|]; [done|..]; intros [= <- _];
      rewrite lookup_insert_ne; try done; intros E%(f_equal length); rewrite length_app in E; cbn in E; lia.
Qed.

(** C40: A node with the default identity file and a data directory without an
    extension never starts.  Whatever the file system holds, [Node::start]
    either fails on the identity, or leaves the data directory a directory,
    which the ledger then fails to open as its database file. *)
Theorem extensionless_never_starts fs c fresh
    (Hfs : wf_fs fs) (Hi : nc_identity_file c = None) (He : extension (nc_data_dir c) = None)
    (Hd : nc_data_dir c ≠ []) :
  is_ok (start_storage fs c fresh).2 = false.
Proof.
  unfold start_storage. destruct (validate_config c); [|done..].
  destruct (load_or_create_identity fs c fresh) as [fs' [k'| |]] eqn:E; [|done..].
  apply default_identity_dir in E; [|done..]. pose proof (open_ledger_dir _ _ E) as Ho.
  destruct (open_ledger fs' (nc_data_dir c)) as [fs2 [db'| |]]; [|done..]. by destruct (Ho db').
Qed.

End Startup.
