(* ===== verification/Lifecycle.v ===== *)
(** * The life of a node

    [Node::start] and [NodeHandle::shutdown] of
    [omega-toy-consensus/src/node.rs], [RaftSwarm::with_keypair_and_request_timeout]
    of [omega-network/src/inbound.rs] and the [run] command of
    [omega-toy-consensus/src/bin/omega-toy-consensus.rs].

    What start and shutdown do to the tasks of the process is a trace of
    events; [live] is the set of tasks a trace leaves running.  The outcomes
    of openraft, libp2p, jsonrpsee and tokio are a parameter, [Runtime].
    The wait for the first listen address is taken to be answered. *)

From S2P Require Import Prelude Files Hash Tree ClaimTx Prover Verifier Ledger Storage Network Consensus.
From Stdlib Require Import ZArith Lia List String.
From stdpp Require Import base decidable strings gmap list.

Local Open Scope Z_scope.

Inductive Task : Type := RaftCore | SwarmTask | RpcServer | RuntimeTask.

#[export] Instance Task_eq_dec : EqDecision Task.
Proof. solve_decision. Defined.

Inductive LifeEvent : Type :=
| Spawn (t : Task)
| Initialize (members : gmap Z string)
| StopServer
| RaftShutdown
| SwarmDrained
| SwarmAborted
| SenderDropped
| RuntimeJoined.

Definition ends (e : LifeEvent) : option Task :=
  match e with
  | StopServer => Some RpcServer
  | RaftShutdown => Some RaftCore
  | SwarmDrained | SwarmAborted => Some SwarmTask
  | SenderDropped | RuntimeJoined => Some RuntimeTask
  | Spawn _ | Initialize _ => None
  end.

(** The tasks that run after a trace, in the order they were started. *)
Definition live_step (ts : list Task) (e : LifeEvent) : list Task :=
  match e with
  | Spawn t => ts ++ [t]
  | e => match ends e with Some t => filter (λ t', t' ≠ t) ts | None => ts end
  end.

Definition live (tr : list LifeEvent) : list Task := foldl live_step [] tr.

(** The fields of [openraft::Config] that are set; in milliseconds. *)
Record RaftConfig := {
  rf_cluster_name : string;
  rf_heartbeat_interval : Z;
  rf_election_timeout_min : Z;
  rf_election_timeout_max : Z
}.

Definition raft_config (config : NodeConfig) : RaftConfig :=
  {| rf_cluster_name := nc_cluster_id config; rf_heartbeat_interval := 250;
     rf_election_timeout_min := 1500; rf_election_timeout_max := 3000 |}.

(** The outcomes of the libraries.  [raft_last_log] is what the metrics of a
    fresh raft instance report for the opened database. *)
Class Runtime := {
  raft_new : Z → RaftConfig → Db → bool;
  raft_last_log : Db → option Z;
  parse_multiaddr : string → option string;
  parse_peer_id : string → option string;
  swarm_transport : bool;
  swarm_behaviour : Z → bool;
  swarm_listen : string → bool;
  raft_initialize : gmap Z string → bool;
  rpc_bind : RpcConfig → bool;
  raft_shutdown : bool;
  swarm_drains : bool;
  runtime_joins : bool
}.

(** A computation that keeps the file system and the trace when it fails. *)
Definition LifeM (A : Type) : Type := Fs * list LifeEvent → Fs * list LifeEvent * result A ConsensusError.

Definition life_bind {A B} (m : LifeM A) (k : A → LifeM B) : LifeM B :=
  λ s, match m s with
       | (s', Ok a) => k a s'
       | (s', Err e) => (s', Err e)
       | (s', Panic) => (s', Panic)
       end.

Notation "'life!' x ':=' m 'in' k" := (life_bind m (fun x => k))
  (at level 10, x pattern, m at level 100, k at level 200,
   format "'[v' 'life!'  x  ':='  m  'in' '/' k ']'") : omega_scope.

Definition lift {A} (r : result A ConsensusError) : LifeM A := λ s, (s, r).
Definition emit (e : LifeEvent) : LifeM unit := λ '(fs, tr), (fs, tr ++ [e], Ok ()).
Definition on_files {A} (op : Fs → Fs * result A ConsensusError) : LifeM A :=
  λ '(fs, tr), let '(fs', r) := op fs in (fs', tr, r).

Section Lifecycle.
Context {KP : Keypairs} {SF : SqliteFiles} {RT : Runtime}.

(** [RaftSwarm::with_keypair_and_request_timeout]. *)
Definition with_keypair_and_request_timeout (listen_addr : string) (peers : list PeerEntry) (request_timeout : Z) :
    result RaftSwarm OmegaNetworkError :=
  guard! swarm_transport else NeCodec;
  guard! swarm_behaviour request_timeout else NeCodec;
  guard! swarm_listen listen_addr else NeCodec;
  Ok (new_swarm peers).

(** The closure over [config.peers]. *)
Definition peer_entry (peer : PeerConfig) : result PeerEntry ConsensusError :=
  let? peer_id := ok_or (parse_peer_id (pc_libp2p_peer_id peer)) (CeConfig "peer_id") in
  let? address := ok_or (parse_multiaddr (pc_libp2p_addr peer)) (CeConfig "addr") in
  Ok {| pe_node_id := pc_node_id peer; pe_peer_id := peer_id; pe_address := address |}.

(** The swarm itself is owned by its task; the handle keeps what the server
    and [shutdown] use. *)
Record NodeHandle := { nh_config : NodeConfig; nh_ledger : Db; nh_swarm : RaftSwarm }.

Definition start (config : NodeConfig) (fresh : Keypair) : LifeM NodeHandle :=
  life! (_, db) := on_files (λ fs, start_storage fs config fresh) in
  life! _ := lift (guard! raft_new (nc_node_id config) (raft_config config) db else CeRaft; Ok ()) in
  life! _ := emit (Spawn RaftCore) in
  life! listen_addr := lift (ok_or (parse_multiaddr (nc_libp2p_listen config)) (CeConfig "libp2p_listen parse")) in
  life! peer_entries := lift (res_mapM peer_entry (nc_peers config)) in
  life! swarm := lift (res_map_err CeNetwork
    (with_keypair_and_request_timeout listen_addr peer_entries (effective_raft_rpc_timeout config))) in
  life! _ := emit (Spawn SwarmTask) in
  life! _ :=
    (if should_initialize_cluster config (raft_last_log db)
     then life! _ := lift (guard! raft_initialize (initial_members config) else CeRaft; Ok ()) in
          emit (Initialize (initial_members config))
     else lift (Ok ())) in
  life! _ := lift (guard! rpc_bind (nc_rpc config) else CeRpcBind; Ok ()) in
  life! _ := emit (Spawn RpcServer) in
  life! _ := emit (Spawn RuntimeTask) in
  lift (Ok {| nh_config := config; nh_ledger := db; nh_swarm := swarm |}).

(** [NodeHandle::shutdown] consumes the handle: on the early return its
    [shutdown_tx] is dropped, which also ends the runtime task, and its join
    handle of the swarm is detached. *)
Definition shutdown (_ : NodeHandle) : LifeM unit :=
  life! _ := emit StopServer in
  life! _ := emit RaftShutdown in
  if raft_shutdown then
    life! _ := (if swarm_drains then emit SwarmDrained else emit SwarmAborted) in
    life! _ := emit RuntimeJoined in
    lift (guard! runtime_joins else CeShutdownJoin; Ok ())
  else
    life! _ := emit SenderDropped in
    lift (Err CeRaft).

End Lifecycle.

(** ** The command line *)

Record RunArgs := {
  ra_node_id : Z;
  ra_data_dir : Path;
  ra_identity_file : option Path;
  ra_listen : string;
  ra_peers : list PeerConfig;
  ra_rpc_ip : IpAddr;
  ra_rpc_port : Z;
  ra_cluster_id : string;
  ra_apply_deadline_secs : Z;
  ra_raft_rpc_timeout_secs : option Z
}.

Inductive RunError : Type := NodeIdZero | RunConsensus (e : ConsensusError).

(** The configuration [run] builds; durations in milliseconds. *)
Definition run_config (args : RunArgs) : result NodeConfig RunError :=
  guard! negb (ra_node_id args =? 0) else NodeIdZero;
  Ok {| nc_node_id := ra_node_id args; nc_data_dir := ra_data_dir args; nc_identity_file := ra_identity_file args;
        nc_libp2p_listen := ra_listen args; nc_peers := ra_peers args;
        nc_rpc := {| rpc_ip := ra_rpc_ip args; rpc_port := ra_rpc_port args; rpc_max_batch := 25;
                     rpc_max_request_bytes := 1024 * 1024 |};
        nc_cluster_id := ra_cluster_id args; nc_apply_deadline := 1000 * ra_apply_deadline_secs args;
        nc_raft_rpc_timeout := (λ s, 1000 * s) <$> ra_raft_rpc_timeout_secs args |}.

(** [run], when the interrupt it waits for arrives. *)
Definition run {KP : Keypairs} {SF : SqliteFiles} {RT : Runtime} (args : RunArgs) (fresh : Keypair) (fs : Fs) :
    Fs * list LifeEvent * result unit RunError :=
  match run_config args with
  | Ok config =>
      let '(s, r) := (life! handle := start config fresh in shutdown handle) (fs, []) in
      (s, res_map_err RunConsensus r)
  | Err e => (fs, [], Err e)
  | Panic => (fs, [], Panic)
  end.

(** ** Specification *)

Section Spec.
Context {KP : Keypairs} {SF : SqliteFiles} {RT : Runtime}.

(** The events of a start that succeeds on the database [db]. *)
Definition start_trace (config : NodeConfig) (db : Db) : list LifeEvent :=
  [Spawn RaftCore; Spawn SwarmTask] ++
  (if should_initialize_cluster config (raft_last_log db) then [Initialize (initial_members config)] else []) ++
  [Spawn RpcServer; Spawn RuntimeTask].

Lemma start_storage_not_bind fs config fresh : (start_storage fs config fresh).2 ≠ Err CeRpcBind.
Proof.
  unfold start_storage, validate_config. destruct (is_loopback _); [|done].
  destruct (load_or_create_identity fs config fresh) as [fs1 r] eqn:E.
  destruct r as [k|e|]; [|intros [= ->]|done].
  - destruct (open_ledger fs1 _) as [fs2 [db|e|]]; done.
  - revert E. unfold load_or_create_identity. repeat case_match; intros [=]; try done.
    by destruct (from_protobuf_encoding _).
Qed.

Lemma peer_entries_error l e : res_mapM peer_entry l = Err e → ∃ w, e = CeConfig w.
Proof.
  induction l as [|p l IH]; [done|]. cbn [res_mapM]. unfold peer_entry at 1.
  destruct (parse_peer_id _); cbn; [|intros [= <-]; eauto]. destruct (parse_multiaddr _); cbn; [|intros [= <-]; eauto].
  destruct (res_mapM peer_entry l); cbn; [done| |done]. intros [= ->]. eauto.
Qed.

(** What a start leaves in the trace, by its outcome. *)
Definition start_outcome (config : NodeConfig) (opened : result (Keypair * Db) ConsensusError)
    (tr : list LifeEvent) (r : result NodeHandle ConsensusError) : Prop :=
  match r with
  | Ok h => nh_config h = config ∧ tr = start_trace config (nh_ledger h) ∧ (∃ k, opened = Ok (k, nh_ledger h)) ∧
      ∃ entries, res_mapM peer_entry (nc_peers config) = Ok entries ∧ nh_swarm h = new_swarm entries
  | Err CeRpcBind => ∃ k db, opened = Ok (k, db) ∧ tr = take (length (start_trace config db) - 2) (start_trace config db)
  | _ => tr = [] ∨ tr = [Spawn RaftCore] ∨ tr = [Spawn RaftCore; Spawn SwarmTask]
  end.

Lemma start_outcomes config fresh fs fs' tr r :
  start config fresh (fs, []) = (fs', tr, r) →
  start_outcome config (start_storage fs config fresh).2 tr r.
Proof.
  unfold start, life_bind at 1, on_files.
  pose proof (start_storage_not_bind fs config fresh) as Hb.
  destruct (start_storage fs config fresh) as [fs1 [[k db]|e|]]; cbn [snd] in *;
    [|intros [= <- <- <-]; destruct e; by first [left | destruct Hb]|intros [= <- <- <-]; by left].
  unfold life_bind at 1, lift at 1. destruct (raft_new _ _ db); [|intros [= <- <- <-]; by left].
  unfold life_bind at 1, emit at 1. cbn [app]. unfold life_bind at 1, lift at 1.
  destruct (parse_multiaddr _) as [addr|]; cbn [ok_or]; [|intros [= <- <- <-]; by right; left].
  unfold life_bind at 1, lift at 1. destruct (res_mapM peer_entry _) as [entries|e|] eqn:Ep;
    [|intros [= <- <- <-]|intros [= <- <- <-]; by right; left].
  2: { apply peer_entries_error in Ep as [w ->]. by right; left. }
  unfold life_bind at 1, lift at 1. unfold with_keypair_and_request_timeout.
  destruct swarm_transport; [|intros [= <- <- <-]; by right; left].
  destruct (swarm_behaviour _); [|intros [= <- <- <-]; by right; left].
  destruct (swarm_listen _); [|intros [= <- <- <-]; by right; left]. cbn [res_map_err].
  unfold life_bind at 1, emit at 1. cbn [app].
  unfold start_outcome, start_trace. unfold life_bind at 1.
  destruct (should_initialize_cluster config (raft_last_log db)) eqn:Ei.
  - unfold life_bind at 1, lift at 1. destruct (raft_initialize _); [|intros [= <- <- <-]; by right; right].
    unfold emit at 1. cbn [app]. unfold life_bind at 1, lift at 1.
    destruct (rpc_bind _); [|intros [= <- <- <-]; exists k, db; by rewrite Ei].
    unfold life_bind, emit, lift. intros [= <- <- <-]. cbn [nh_config nh_ledger nh_swarm]. rewrite Ei.
    split_and!; [done|done|by exists k|by exists entries].
  - unfold lift at 1. unfold life_bind at 1, lift at 1.
    destruct (rpc_bind _); [|intros [= <- <- <-]; exists k, db; by rewrite Ei].
    unfold life_bind, emit, lift. intros [= <- <- <-]. cbn [nh_config nh_ledger nh_swarm]. rewrite Ei.
    split_and!; [done|done|by exists k|by exists entries].
Qed.

Lemma peer_entries_ids l entries p :
  res_mapM peer_entry l = Ok entries → p ∈ l → pc_node_id p ∈ pe_node_id <$> entries.
Proof.
  intros H Hp. apply res_mapM_ok in H. apply list_elem_of_lookup_1 in Hp as [i Hp].
  destruct (Forall2_lookup_l _ _ _ _ _ H Hp) as (q & Hq & E). apply list_elem_of_fmap. exists q.
  split; [|by eapply list_elem_of_lookup_2]. unfold peer_entry in E.
  destruct (parse_peer_id _); [|done]. cbn in E. destruct (parse_multiaddr _); [|done]. by injection E as <-.
Qed.

Lemma new_swarm_knows entries i : i ∈ pe_node_id <$> entries → is_Some (sw_peers (new_swarm entries) !! i).
Proof.
  unfold new_swarm. cbn [sw_peers]. generalize (∅ : gmap Z PeerEntry) as m.
  assert (Hm : ∀ l (m : gmap Z PeerEntry), is_Some (m !! i) →
    is_Some (foldl (λ m p, <[pe_node_id p := p]> m) m l !! i)).
  { induction l as [|q l IH]; intros m Hi; [done|]. apply IH. apply lookup_insert_is_Some'. by right. }
  induction entries as [|q l IH]; intros m; cbn; [set_solver|]. intros [->|Hi]%elem_of_cons; [|by apply IH].
  apply Hm. by rewrite lookup_insert_eq.
Qed.

Lemma live_app tr1 tr2 : live (tr1 ++ tr2) = foldl live_step (live tr1) tr2.
Proof. apply foldl_app. Qed.

Lemma live_start config db : live (start_trace config db) = [RaftCore; SwarmTask; RpcServer; RuntimeTask].
Proof. unfold start_trace. by destruct (should_initialize_cluster _ _). Qed.

Lemma live_unbound config db :
  live (take (length (start_trace config db) - 2) (start_trace config db)) = [RaftCore; SwarmTask].
Proof. unfold start_trace. by destruct (should_initialize_cluster _ _). Qed.

(** A start that fails has started at most the raft core and the swarm. *)
Lemma failed_start config opened tr r :
  start_outcome config opened tr r → is_ok r = false →
  (live tr = [] ∨ live tr = [RaftCore] ∨ live tr = [RaftCore; SwarmTask]) ∧ Spawn RpcServer ∉ tr.
Proof.
  destruct r as [h|e|]; [done| |]; intros Hs _.
  - assert (He : e = CeRpcBind ∨ e ≠ CeRpcBind) by (destruct e; by (left; done) || (right; done)).
    destruct He as [->|He].
    + destruct Hs as (k & db & _ & ->). split; [right; right; apply live_unbound|].
      unfold start_trace. destruct (should_initialize_cluster _ _); cbn; set_solver.
    + assert (Ht : tr = [] ∨ tr = [Spawn RaftCore] ∨ tr = [Spawn RaftCore; Spawn SwarmTask]) by by destruct e.
      destruct Ht as [->|[->| ->]]; cbn; (split; [tauto|set_solver]).
  - destruct Hs as [->|[->| ->]]; cbn; (split; [tauto|set_solver]).
Qed.

Definition shutdown_events : list LifeEvent :=
  [StopServer; RaftShutdown] ++
  if raft_shutdown then [if swarm_drains then SwarmDrained else SwarmAborted; RuntimeJoined] else [SenderDropped].

Lemma shutdown_run h fs tr :
  shutdown h (fs, tr) =
  (fs, tr ++ shutdown_events,
   if raft_shutdown then if runtime_joins then Ok () else Err CeShutdownJoin else Err CeRaft).
Proof.
  unfold shutdown, shutdown_events, life_bind, emit, lift. rewrite <- !app_assoc. cbn [app].
  destruct raft_shutdown, swarm_drains, runtime_joins; by rewrite <- ?app_assoc.
Qed.

Lemma shutdown_live :
  foldl live_step [RaftCore; SwarmTask; RpcServer; RuntimeTask] shutdown_events =
  if raft_shutdown then [] else [SwarmTask].
Proof. unfold shutdown_events. by destruct raft_shutdown, swarm_drains. Qed.

(** The tasks a start leaves running.  A node that has started runs its
    raft core, its swarm, the JSON-RPC server and the runtime task, and its
    swarm knows every configured peer.  A start that fails never serves
    JSON-RPC, but it stops nothing either: when the server cannot bind its
    address, the raft core and the swarm are left running, and the cluster
    has been initialised if this node was to initialise it. *)
Theorem start_tasks config fresh fs fs' tr r
    (Hs : start config fresh (fs, []) = (fs', tr, r)) :
  match r with
  | Ok h => live tr = [RaftCore; SwarmTask; RpcServer; RuntimeTask] ∧
      ∀ p, p ∈ nc_peers config → is_Some (sw_peers (nh_swarm h) !! pc_node_id p)
  | _ => RpcServer ∉ live tr
  end ∧
  (r = Err CeRpcBind → live tr = [RaftCore; SwarmTask] ∧
     ∃ k db, (start_storage fs config fresh).2 = Ok (k, db) ∧
       (should_initialize_cluster config (raft_last_log db) = true → Initialize (initial_members config) ∈ tr)).
Proof.
  apply start_outcomes in Hs. split.
  - destruct r as [h|e|].
    + destruct Hs as (_ & -> & _ & entries & He & ->). split; [apply live_start|]. intros p Hp.
      by apply (new_swarm_knows entries), (peer_entries_ids _ _ _ He).
    + apply failed_start in Hs as [[->|[->| ->]] _]; [set_solver..|done].
    + apply failed_start in Hs as [[->|[->| ->]] _]; [set_solver..|done].
  - intros ->. destruct Hs as (k & db & E & ->). split; [apply live_unbound|]. exists k, db. split; [done|].
    unfold start_trace. intros ->. cbn. set_solver.
Qed.


End Spec.
