(* ===== verification/NodeExamples.v ===== *)
(** * Examples for the writer's callers, the network and the consensus node

    Every theorem about concurrent calls, frames, snapshot transfers, swarms
    and nodes at a concrete input. *)

From S2P Require Import Prelude Files Hash Tree ClaimTx ClaimTxSpec Prover Verifier VerifierSpec.
From S2P Require Import Blake3Rows ProofExamples Ledger Storage LedgerSpec LedgerExamples.
From S2P Require Import Actor ActorSpec Handle Network NetworkSpec Outbound Consensus.
From S2P Require Import ConsensusSpec Lifecycle.
From Stdlib Require Import ZArith Lia List String.
From stdpp Require Import base decidable strings pretty gmap list.

Local Open Scope Z_scope.

Notation Request := (@RaftRpcRequest Z Z Z).
Notation Response := (@RaftRpcResponse Z Z Z).

#[export] Instance Request_eq_dec : EqDecision Request.
Proof. solve_decision. Defined.

#[export] Instance Response_eq_dec : EqDecision Response.
Proof. solve_decision. Defined.

#[export] Instance Request_countable : Countable Request.
Proof.
  apply (inj_countable'
    (λ r, match r with ReqAppendEntries x => inl x | ReqVote x => inr (inl x) | ReqInstallSnapshot x => inr (inr x) end)
    (λ s, match s with inl x => ReqAppendEntries x | inr (inl x) => ReqVote x | inr (inr x) => ReqInstallSnapshot x end)).
  by intros [].
Defined.

#[export] Instance Response_countable : Countable Response.
Proof.
  apply (inj_countable'
    (λ r, match r with ResAppendEntries x => inl x | ResVote x => inr (inl x) | ResInstallSnapshot x => inr (inr x) end)
    (λ s, match s with inl x => ResAppendEntries x | inr (inl x) => ResVote x | inr (inr x) => ResInstallSnapshot x end)).
  by intros [].
Defined.

Module ExampleNode.
Import ExampleProof ExampleLedger.
#[local] Existing Instances toy_hashes toy_hash_laws countable_ciborium countable_ciborium_laws image_files.

(** ** Snapshots *)

Lemma staged_not_installed (r : Receiver) id : rc_staging_dir r = "staging"%string → staged_path r id ≠ "db"%string.
Proof. intros E. unfold staged_path. rewrite E. by cbn. Qed.

Lemma snapshot_frames_roundtrip_witness :
  let r := new_receiver "staging" "db" ∅ in
  rc_files (run_receiver r (chunk_snapshot_bytes "s-1" (ascii_bytes "state"))).1 !! "db"%string
  = Some (ascii_bytes "state").
Proof.
  cbv zeta.
  rewrite (snapshot_frames_roundtrip (new_receiver "staging" "db" ∅) "s-1" (ascii_bytes "state")); [|done|by apply staged_not_installed|done].
  cbn. by rewrite lookup_insert_eq.
Defined.

Lemma installed_declared_witness :
  let ops := [OpFrame (FrameInit {| si_snapshot_id := "a"; si_total_chunks := 1; si_total_bytes := 3; si_sha3_of_full := [] |});
              OpFrame (FrameFinalize {| sf_snapshot_id := "a"; sf_sha3_of_full := [] |}); OpAbort] in
  let files : gmap string bytes := {["db"%string := ascii_bytes "old"]} in
  let r := foldl receiver_op (new_receiver "staging" "db" files) ops in
  rc_files r !! "db"%string = files !! "db"%string ∨
  ∃ init c, OpFrame (FrameInit init) ∈ ops ∧ rc_files r !! "db"%string = Some c ∧ declares init c.
Proof.
  cbv zeta. apply (installed_declared "staging" "db"). intros r id. apply staged_not_installed.
Defined.

(** ** Remote procedure calls *)

Definition peer_b : PeerEntry := {| pe_node_id := 2; pe_peer_id := "B"; pe_address := "/ip4/127.0.0.1/tcp/4002" |}.

Definition handle (r : Request) : result Response OmegaNetworkError :=
  inbound_handle (λ x, Some (x + 1)) (λ x, Some (x + 2)) (λ _, None) r.

Lemma rpc_end_to_end_witness :
  round_trip (ReqVote 40 : Request) (Sent (deliver (new_swarm [peer_b]) (new_swarm []) handle handle 2 7)) = Ok (ResVote 42).
Proof.
  eapply (rpc_end_to_end (new_swarm [peer_b]) (new_swarm []) handle handle 2 7 (ReqVote 40) (ResVote 42)).
  - cbn. by rewrite lookup_insert_eq.
  - done.
  - vm_compute. discriminate.
  - done.
  - done.
  - vm_compute. discriminate.
Defined.

Lemma replies_at_most_once_witness :
  let out c := {| or_target := 9; or_payload := []; or_reply := c |} in
  let inputs := [InOutbound (out 1%nat) 5; InEvent (EvResponse 5 (ResVote 1)); InOutbound (out 2%nat) 5] in
  let replied := omap reply_channel (run_swarm handle (new_swarm [peer_b]) inputs).1 in
  NoDup replied ∧ replied ⊆ omap input_channel inputs.
Proof.
  cbv zeta. apply (replies_at_most_once handle). cbn. apply NoDup_cons. split; [|apply NoDup_singleton].
  by intros H%list_elem_of_singleton.
Defined.

(** Two callers whose requests are answered in the other order; the first
    answer comes after its caller's deadline. *)
Definition exchange : list (@NetEvent Z Z Z Z Z Z) :=
  [NvCall 0 2 (ReqVote 40); NvCall 1 2 (ReqVote 50); NvTake 7; NvTake 8; NvSwarm (EvResponse 8 (ResVote 52));
   NvDeadline 0; NvSwarm (EvResponse 7 (ResVote 42))].

Definition exchanged := default (new_net 2 [peer_b]) (net_run handle (new_net 2 [peer_b]) exchange).

Lemma exchange_runs : net_run handle (new_net 2 [peer_b]) exchange = Some exchanged.
Proof. unfold exchanged. by destruct (net_run _ _ _) eqn:E; [|vm_compute in E]. Qed.

Lemma response_correlated_witness :
  ∃ target request peer id l1 l2 l3 l4 n1,
    exchange = l1 ++ NvCall 1 target request :: l2 ++ NvTake id :: l3 ++ NvSwarm (EvResponse id (ResVote 52)) :: l4 ∧
    net_run handle (new_net 2 [peer_b]) (l1 ++ NvCall 1 target request :: l2) = Some n1 ∧
    sw_peers (new_swarm [peer_b]) !! target = Some peer ∧ sends n1 id 1 peer request.
Proof. apply (response_correlated handle 2 [peer_b] exchange exchanged 1 (ResVote 52) exchange_runs). vm_compute. reflexivity. Defined.

Lemma callers_held_witness :
  (length (nt_queue exchanged) <= 2)%nat ∧ NoDup (held exchanged) ∧
  (∀ i, is_waiting (nt_calls exchanged) i → i ∈ held exchanged) ∧
  (nt_running exchanged = false → ∀ i, ¬ is_waiting (nt_calls exchanged) i).
Proof. apply (callers_held handle 2 [peer_b] exchange exchanged exchange_runs). Defined.

(** ** Nodes *)

Definition shared : OmegaRpcShared := {| sh_node_id := 1; sh_peers := []; sh_apply_deadline := 5000 |}.

(** The claim of the example verifier. *)
Definition claim : ClaimTx :=
  TxUtxo {| cu_public := ExampleVerifier.public;
            cu_witness := {| leaf_payload := []; merkle_path := []; signing_key_proof := [] |};
            cu_proof := ascii_bytes "proof" |}.

Lemma claim_applicable :
  applicable (SV:=ExampleVerifier.toy_stark) empty_db 0 ExampleVerifier.header claim.
Proof.
  split; [done|]. split; [done|]. split; [vm_compute; reflexivity|].
  split; [by constructor|]. split; [by constructor|]. split; [apply NoDup_singleton|].
  split; [by constructor|]. split; [apply NoDup_singleton|by constructor].
Qed.

Lemma submit_claim_spec_witness :
  submit_claim (H:=ExampleVerifier.toy_stark) shared claim (λ _, WriteApplied (log_id 4) accepted) =
  Ok {| so_accepted := true; so_applied_index := Some 4; so_reject_reason := None |}.
Proof.
  destruct (submit_claim_spec (SV:=ExampleVerifier.toy_stark) (Membership:=Z) toy_hash_laws shared claim) as [_ H].
  - exact ExampleVerifier.public_wf.
  - intros e [= <-]. exact ExampleVerifier.header_wf.
  - destruct (H empty_db (log_id 4) (applied empty_db 0 claim) accepted) as [(_ & _ & E)|[Hn _]]; [|done|].
    + unfold apply_entry. cbn [lc_block_idx lc_commitment lc_claim]. 
      change (pe_commitment _) with ExampleVerifier.header. by rewrite (apply_claim_tx_ok _ _ _ _ claim_applicable).
    + by destruct Hn; apply claim_applicable.
Defined.

Definition node_config (id : Z) (peers : list Z) : NodeConfig :=
  {| nc_node_id := id; nc_data_dir := ["tmp"; "node"]%string; nc_identity_file := None; nc_libp2p_listen := "";
     nc_peers := (λ p, {| pc_node_id := p; pc_libp2p_peer_id := ""; pc_libp2p_addr := ""; pc_rpc_url := "" |}) <$> peers;
     nc_rpc := {| rpc_ip := IpV4 127 0 0 1; rpc_port := 8000; rpc_max_batch := 25; rpc_max_request_bytes := 1024 |};
     nc_cluster_id := "c"; nc_apply_deadline := 5000; nc_raft_rpc_timeout := None |}.

Lemma one_initialiser_witness :
  let cs := [node_config 3 [1; 2]; node_config 1 [2; 3]; node_config 2 [1; 3]] in
  ∃ c, c ∈ cs ∧ should_initialize_cluster c None = true ∧
    ∀ c', c' ∈ cs → should_initialize_cluster c' None = true → c' = c.
Proof.
  cbv zeta. apply (one_initialiser [node_config 3 [1; 2]; node_config 1 [2; 3]; node_config 2 [1; 3]]); [done|].
  split; [by_compute|]. repeat constructor; cbn; solve_Permutation.
Defined.

#[local] Instance byte_keys : Keypairs :=
  {| Keypair := bytes; to_protobuf_encoding k := Some k; from_protobuf_encoding b := Some b |}.

Lemma extensionless_never_starts_witness :
  is_ok (start_storage ∅ (node_config 1 []) (ascii_bytes "key")).2 = false.
Proof. apply (extensionless_never_starts ∅ (node_config 1 [])); done. Defined.

(** ** The life of a node *)

(** Everything works, but the JSON-RPC port 80 cannot be bound. *)
#[local] Instance runtime : Runtime := {|
  raft_new _ c _ := rf_heartbeat_interval c <? rf_election_timeout_min c; raft_last_log _ := None; parse_multiaddr s := Some s; parse_peer_id s := Some s;
  swarm_transport := true; swarm_behaviour _ := true; swarm_listen _ := true; raft_initialize _ := true;
  rpc_bind c := negb (rpc_port c =? 80); raft_shutdown := true; swarm_drains := false; runtime_joins := true
|}.

Definition run_args (port : Z) : RunArgs :=
  {| ra_node_id := 1; ra_data_dir := ["node.db"%string]; ra_identity_file := Some ["key"%string]; ra_listen := "";
     ra_peers := []; ra_rpc_ip := IpV4 127 0 0 1; ra_rpc_port := port; ra_cluster_id := "c";
     ra_apply_deadline_secs := 5; ra_raft_rpc_timeout_secs := None |}.

Definition fresh_key : Keypair := ascii_bytes "key".

Definition port_config : NodeConfig :=
  match run_config (run_args 80) with Ok c => c | _ => node_config 1 [] end.

Lemma start_tasks_witness :
  live (start port_config fresh_key (∅, [])).1.2 = [RaftCore; SwarmTask].
Proof.
  assert (E : (start port_config fresh_key (∅, [])).2 = Err CeRpcBind) by (vm_compute; reflexivity).
  destruct (start port_config fresh_key (∅, [])) as [[fs' tr] r] eqn:Es. cbn [fst snd] in *.
  by apply (start_tasks (KP:=byte_keys) port_config fresh_key ∅ fs' tr r Es).
Defined.


(** ** The writer's channel *)

#[local] Existing Instance ExampleVerifier.toy_stark.

(** Two callers race for a leaf and the first one gives up after sending. *)
Definition race : list (@Event (@WriteCmd Z)) :=
  [Call 0 (InsertSyntheticClaim 1 5 9); Call 1 (InsertSyntheticClaim 1 5 8); Send 1; Send 0; Drop 1; Serve; Serve].

Definition fresh_writer : Writer := {| wr_db := empty_db; wr_files := ∅; wr_attached := false |}.

Definition raced : option (@Actor Writer (@WriteCmd Z) WriteReply) :=
  actor_run run_command reply_panics (new_actor fresh_writer) race.

Lemma race_runs : is_Some raced.
Proof. by eexists. Qed.

Lemma actor_serializes_witness :
  match raced with
  | Some a => (serial run_command fresh_writer [InsertSyntheticClaim 1 5 8; InsertSyntheticClaim 1 5 9 : @WriteCmd Z]).1 = ac_state a
  | None => False
  end.
Proof.
  destruct raced as [a|] eqn:E; [|by destruct race_runs as [? ?]; congruence].
  destruct (actor_serializes run_command reply_panics fresh_writer race a E) as [H _]. exact (f_equal fst H).
Defined.

(** A counter behind the channel, with one command queued and one waiting. *)
Definition counter (s c : Z) : Z * Z := (s + c, s).

Definition counting : Actor := default (new_actor 0) (actor_run counter (λ _, false) (new_actor 0) [Call 0 5; Call 1 7; Send 1]).


Lemma race_wf i (cmd : @WriteCmd Z) : Call i cmd ∈ race → wf_cmd cmd ∧ is_restore cmd = false.
Proof.
  unfold race. intros Hi. do 2 (apply elem_of_cons in Hi as [[= -> ->]|Hi]; [by repeat split|]).
  by repeat (apply elem_of_cons in Hi as [?|Hi]; [done|]); apply elem_of_nil in Hi.
Qed.

Lemma concurrent_claims_witness :
  match raced with Some a => ac_alive a = true ∧ dom (nullifiers (wr_db (ac_state a))) = {[ (1, 5) ]} | None => False end.
Proof.
  destruct raced as [a|] eqn:E; [|by destruct race_runs as [? ?]; congruence].
  destruct (concurrent_claims log_ids_encode fresh_writer race a) as (H1 & _ & _ & _ & H2 & _); [|exact E|].
  - exact race_wf.
  - vm_compute in E. apply (inj Some) in E as <-. split; [by apply H1|]. rewrite H2. by vm_compute.
Defined.

(** The caller that lost the race is told so. *)
Lemma method_outcome_witness :
  match raced with
  | Some a => ∃ r, outcome (insert_synthetic_claim_for_test (Membership:=Z) 1 5 9) a 0 = Some r ∧ r ≠ Panic
  | None => False
  end.
Proof.
  destruct raced as [a|] eqn:E; [|by destruct race_runs as [? ?]; congruence].
  assert (Ho : outcome (insert_synthetic_claim_for_test (Membership:=Z) 1 5 9) a 0 = Some (Err LeSqlite)).
  { vm_compute in E. apply (inj Some) in E as <-. reflexivity. }
  exists (Err LeSqlite). split; [exact Ho|].
  destruct (method_outcome (insert_synthetic_claim_for_test (Membership:=Z) 1 5 9) fresh_writer race a 0 (Err LeSqlite))
    as (before & after & _ & _ & H); [apply im_synthetic|intros j cmd Hj; exact (proj1 (race_wf j cmd Hj))|exact E|left|exact Ho|exact H].
Defined.

Lemma claimed_stays_claimed_witness :
  match actor_run run_command reply_panics (new_actor fresh_writer) (take 6 race) with
  | Some a1 => match actor_run run_command reply_panics a1 [Serve] with
               | Some a2 => nullifier_exists (wr_db (ac_state a2)) 1 5 = Ok true
               | None => False
               end
  | None => False
  end.
Proof.
  destruct (actor_run run_command reply_panics (new_actor fresh_writer) (take 6 race)) as [a1|] eqn:E1; [|by vm_compute in E1].
  destruct (actor_run run_command reply_panics a1 [Serve]) as [a2|] eqn:E2.
  - apply (claimed_stays_claimed log_ids_encode fresh_writer (take 6 race) [Serve] a1 a2 1 5).
    + exact race_wf.
    + exact E1.
    + exact E2.
    + vm_compute in E1. apply (inj Some) in E1 as <-. reflexivity.
  - vm_compute in E1. apply (inj Some) in E1 as <-. by vm_compute in E2.
Defined.

End ExampleNode.
