(* ===== verification/Ingest.v ===== *)
(** * Ingestion of ledger snapshots

    [omega-commitment-ingest/src/{cbor,utxo,script,token_policy,stake,governance}.rs]:
    the readers of the simplified CBOR snapshots, on the remaining input of
    the decoder.  [minicbor]'s map and null items extend the operations of
    [Cbor.v].  A [BTreeMap] is a finite map, read out in the order of its
    keys.

    The helpers return [anyhow] errors, which all become
    [IngestError::Other]; error texts are not modelled. *)

From S2P Require Import Prelude Leaves Cbor.
From Stdlib Require Import ZArith Lia List String.
From stdpp Require Import base decidable strings gmap list.

Local Open Scope Z_scope.

(** ** Maps and null *)

Class CborMapOps := {
  enc_map : Z → bytes;
  enc_null : bytes;
  (** [Decoder::map]: [None] inside for an indefinite-length map. *)
  dec_map : bytes → option (option Z * bytes);
  (** [Decoder::datatype] compared with [Type::Null]. *)
  next_is_null : bytes → option bool;
  dec_null : bytes → option bytes
}.

Class CborMapLaws (CO : CborOps) (MO : CborMapOps) : Prop := {
  dec_enc_map z r : is_u64 z → dec_map (enc_map z ++ r) = Some (Some z, r);
  dec_enc_null r : dec_null (enc_null ++ r) = Some r;
  null_is_null r : next_is_null (enc_null ++ r) = Some true;
  array_not_null z r : is_u64 z → next_is_null (enc_array z ++ r) = Some false;
  dec_map_spec d o r : dec_map d = Some (o, r) → consumes d r;
  dec_null_spec d r : dec_null d = Some r → consumes d r
}.

(** The public variants; contexts are the source's strings, messages and
    wrapped errors are left out. *)
Inductive IngestError : Type :=
| InCbor | InJson | InSchema (context : string) | InTruncated | InTrailing | InNonCanonical | InOther.

Section Ingest.
Context {CO : CborOps} {MO : CborMapOps}.

(** ** Readers *)

Definition rd_other {A} (o : option A) : result A IngestError := ok_or o InOther.

Definition read_fixed (n : nat) (d : bytes) : result (bytes * bytes) IngestError :=
  let? (x, d) := rd_other (dec_bytes d) in
  guard! Nat.eqb (length x) n else InOther;
  Ok (x, d).

Definition read_32_bytes (d : bytes) : result (bytes * bytes) IngestError := read_fixed 32 d.
Definition read_28_bytes (d : bytes) : result (bytes * bytes) IngestError := read_fixed 28 d.

Definition read_u64 (d : bytes) : result (Z * bytes) IngestError := rd_other (dec_u64 d).

Definition read_u32 (d : bytes) : result (Z * bytes) IngestError :=
  let? (v, d) := read_u64 d in
  guard! (v <? 2 ^ 32) else InOther;
  Ok (v, d).

Definition read_u8 (d : bytes) : result (Z * bytes) IngestError := rd_other (dec_u8 d).

Definition in_expect_array (d : bytes) (expected : Z) : result bytes IngestError :=
  let? (o, d) := rd_other (dec_array d) in
  let? actual := rd_other o in
  guard! (actual =? expected) else InOther;
  Ok d.

Definition read_array_len (d : bytes) : result (Z * bytes) IngestError :=
  let? (o, d) := rd_other (dec_array d) in
  let? n := rd_other o in
  Ok (n, d).

Definition read_u128_bytes (d : bytes) : result (Z * bytes) IngestError :=
  let? (x, d) := read_fixed 16 d in
  Ok (be_val x, d).

Definition read_var_bytes (d : bytes) : result (bytes * bytes) IngestError := rd_other (dec_bytes d).

Definition read_map_len (d : bytes) : result (Z * bytes) IngestError :=
  let? (o, d) := rd_other (dec_map d) in
  let? n := rd_other o in
  Ok (n, d).

Definition read_null_marker (d : bytes) : result (bool * bytes) IngestError :=
  let? is_null := rd_other (next_is_null d) in
  if is_null then
    let? d := rd_other (dec_null d) in Ok (true, d)
  else Ok (false, d).

(** The position is the length of what has been read. *)
Definition in_expect_end (d : bytes) (total_len : nat) : result unit IngestError :=
  guard! Nat.eqb (total_len - length d) total_len else InOther;
  Ok ().

(** [for _ in 0..n] over a state.  Every round consumes input, so the length
    of the input bounds the number of rounds. *)
Fixpoint loop_n {S : Type} (step : S → bytes → result (S * bytes) IngestError) (fuel : nat) (n : Z)
    (s : S) (d : bytes) : result (S * bytes) IngestError :=
  if n <=? 0 then Ok (s, d)
  else match fuel with
  | O => Panic
  | Datatypes.S fuel' =>
      let? (s, d) := step s d in
      loop_n step fuel' (n - 1) s d
  end.

Definition loop {S : Type} (step : S → bytes → result (S * bytes) IngestError) (n : Z) (s : S)
    (d : bytes) : result (S * bytes) IngestError := loop_n step (Datatypes.S (length d)) n s d.

(** ** UTxOs *)

(** [name <= prev] for the previous key. *)
Definition ascending (prev : option bytes) (k : bytes) : bool :=
  match prev with Some p => negb (bytes_le k p) | None => true end.

Definition asset_step (policy : bytes) (s : list Asset * option bytes) (d : bytes) :
    result ((list Asset * option bytes) * bytes) IngestError :=
  let? (name, d) := read_var_bytes d in
  guard! ascending s.2 name else InOther;
  let? (qty, d) := read_u64 d in
  Ok ((s.1 ++ [{| asset_id := policy ++ name; quantity := qty |}], Some name), d).

Definition policy_step (s : list Asset * option bytes) (d : bytes) :
    result ((list Asset * option bytes) * bytes) IngestError :=
  let? (policy, d) := read_28_bytes d in
  guard! ascending s.2 policy else InOther;
  let? (n_assets, d) := read_map_len d in
  let? (inner, d) := loop (asset_step policy) n_assets (s.1, None) d in
  Ok ((inner.1, Some policy), d).

Definition parse_multi_assets (d : bytes) : result (list Asset * bytes) IngestError :=
  let? (n_policies, d) := read_map_len d in
  let? (s, d) := loop policy_step n_policies ([], None) d in
  Ok (s.1, d).

Definition skip_script_credential (d : bytes) : result (unit * bytes) IngestError :=
  let? (null, d) := read_null_marker d in
  if null : bool then Ok (tt, d)
  else
    let? (arity, d) := read_array_len d in
    guard! (arity =? 3) else InOther;
    let? (_, d) := read_28_bytes d in
    let? (_, d) := read_u8 d in
    let? (_, d) := read_u32 d in
    Ok (tt, d).

Definition utxo_step (utxos : list Utxo) (d : bytes) : result (list Utxo * bytes) IngestError :=
  let? (arity, d) := read_array_len d in
  guard! (arity =? 4) || (arity =? 6) else InSchema "utxo.entry";
  let? (tx_id, d) := read_32_bytes d in
  let? (index, d) := read_u64 d in
  guard! (index <? 2 ^ 32) else InSchema "utxo.output_index";
  let? (address, d) := read_var_bytes d in
  let? (value, d) := read_u64 d in
  let? (assets, d) :=
    (if arity =? 6 then
       let? (assets, d) := parse_multi_assets d in
       let? (_, d) := skip_script_credential d in
       Ok (assets, d)
     else Ok ([], d)) in
  Ok (utxos ++ [{| utxo_tx_id := tx_id; output_index := index; address := address; value_lovelace := value;
                   assets := assets; datum_option := DatumNone; script_ref := None |}], d).

(** [size_utxo] is [size_of::<Utxo>()]. *)
Definition ingest_utxos (size_utxo : Z) (cbor : bytes) : result (list Utxo) IngestError :=
  let? (n, d) := read_array_len cbor in
  let? _ := with_capacity size_utxo n in
  let? (utxos, d) := loop utxo_step n [] d in
  let? _ := in_expect_end d (length cbor) in
  Ok utxos.

(** ** Scripts and token policies *)

Definition skip_asset (s : unit) (d : bytes) : result (unit * bytes) IngestError :=
  let? (_, d) := read_var_bytes d in
  let? (_, d) := read_u64 d in
  Ok (tt, d).

Definition skip_policy (s : unit) (d : bytes) : result (unit * bytes) IngestError :=
  let? (_, d) := read_28_bytes d in
  let? (n_assets, d) := read_map_len d in
  loop skip_asset n_assets tt d.

(** The values of a [BTreeMap] in the order of its keys. *)
Definition sorted_values {A} (m : gmap bytes A) : list (bytes * A) :=
  omap (λ k, pair k <$> m !! k) (stable_sort bytes_le (elements (dom m))).

Definition script_step (seen : gmap bytes ScriptEntry) (d : bytes) :
    result (gmap bytes ScriptEntry * bytes) IngestError :=
  let? (arity, d) := read_array_len d in
  guard! (arity =? 4) || (arity =? 6) else InSchema "script.utxo_entry";
  let? (_, d) := read_32_bytes d in
  let? (_, d) := read_u64 d in
  let? (_, d) := read_32_bytes d in
  let? (_, d) := read_u64 d in
  if arity =? 4 then Ok (seen, d)
  else
    let? (n_policies, d) := read_map_len d in
    let? (_, d) := loop skip_policy n_policies tt d in
    let? (null, d) := read_null_marker d in
    if null : bool then Ok (seen, d)
    else
      let? (arity, d) := read_array_len d in
      guard! (arity =? 3) else InSchema "script.credential";
      let? (hash, d) := read_28_bytes d in
      let? (language, d) := read_u8 d in
      let? (size, d) := read_u32 d in
      let entry := {| script_hash := hash; deployment_slot := 0; script_size_bytes := size; se_language := language |} in
      Ok (match seen !! hash with Some _ => seen | None => <[hash := entry]> seen end, d).

Definition ingest_scripts (cbor : bytes) : result (list ScriptEntry) IngestError :=
  let? (n, d) := read_array_len cbor in
  let? (seen, d) := loop script_step n ∅ d in
  let? _ := in_expect_end d (length cbor) in
  Ok ((sorted_values seen).*2).

(** [u128::checked_add]. *)
Definition checked_add_u128 (a b : Z) : result Z IngestError :=
  guard! (a + b <? 2 ^ 128) else InOther;
  Ok (a + b).

Definition total_asset_step (total : Z) (d : bytes) : result (Z * bytes) IngestError :=
  let? (_, d) := read_var_bytes d in
  let? (qty, d) := read_u64 d in
  let? total := checked_add_u128 total qty in
  Ok (total, d).

Definition total_policy_step (totals : gmap bytes Z) (d : bytes) : result (gmap bytes Z * bytes) IngestError :=
  let? (policy, d) := read_28_bytes d in
  let? (n_assets, d) := read_map_len d in
  let? (policy_total, d) := loop total_asset_step n_assets 0 d in
  let? entry := checked_add_u128 (default 0 (totals !! policy)) policy_total in
  Ok (<[policy := entry]> totals, d).

Definition token_policy_step (totals : gmap bytes Z) (d : bytes) : result (gmap bytes Z * bytes) IngestError :=
  let? (arity, d) := read_array_len d in
  guard! (arity =? 4) || (arity =? 6) else InSchema "token_policy.utxo_entry";
  let? (_, d) := read_32_bytes d in
  let? (_, d) := read_u64 d in
  let? (_, d) := read_32_bytes d in
  let? (_, d) := read_u64 d in
  if arity =? 4 then Ok (totals, d)
  else
    let? (n_policies, d) := read_map_len d in
    let? (totals, d) := loop total_policy_step n_policies totals d in
    let? (null, d) := read_null_marker d in
    if null : bool then Ok (totals, d)
    else
      let? (arity, d) := read_array_len d in
      guard! (arity =? 3) else InSchema "token_policy.script_credential";
      let? (_, d) := read_28_bytes d in
      let? (_, d) := read_u8 d in
      let? (_, d) := read_u32 d in
      Ok (totals, d).

Definition ingest_token_policies (cbor : bytes) : result (list TokenPolicy) IngestError :=
  let? (n, d) := read_array_len cbor in
  let? (totals, d) := loop token_policy_step n ∅ d in
  let? _ := in_expect_end d (length cbor) in
  Ok ((λ kt, {| policy_id := kt.1; first_issuance_slot := 0; total_supply_at_h := kt.2 |}) <$> sorted_values totals).

(** ** Stake *)

Definition read_drep (d : bytes) : result (DrepDelegation * bytes) IngestError :=
  let? (arity, d) := read_array_len d in
  guard! negb ((arity =? 0) || (2 <? arity)) else InOther;
  let? (tag, d) := read_u8 d in
  if tag =? 0 then guard! (arity =? 1) else InOther; Ok (DrepNone, d)
  else if tag =? 1 then
    guard! (arity =? 2) else InOther;
    let? (hash, d) := read_28_bytes d in Ok (DrepKeyHash hash, d)
  else if tag =? 2 then
    guard! (arity =? 2) else InOther;
    let? (hash, d) := read_28_bytes d in Ok (DrepScriptHash hash, d)
  else if tag =? 3 then guard! (arity =? 1) else InOther; Ok (DrepAlwaysAbstain, d)
  else if tag =? 4 then guard! (arity =? 1) else InOther; Ok (DrepAlwaysNoConfidence, d)
  else Err InOther.

Definition stake_step (entries : list StakeEntry) (d : bytes) : result (list StakeEntry * bytes) IngestError :=
  let? (arity, d) := read_array_len d in
  guard! (arity =? 5) else InSchema "stake.entry";
  let? (credential, d) := read_28_bytes d in
  let? (pool, d) := read_28_bytes d in
  let? (drep, d) := read_drep d in
  let? (rewards, d) := read_u64 d in
  let? (operator, d) := read_u8 d in
  Ok (entries ++ [{| stake_credential_hash := credential; delegated_pool := pool; delegated_drep := drep;
                     rewards_lovelace := rewards; is_pool_operator := operator |}], d).

Definition ingest_stake (size_entry : Z) (cbor : bytes) : result (list StakeEntry) IngestError :=
  let? (n, d) := read_array_len cbor in
  let? _ := with_capacity size_entry n in
  let? (entries, d) := loop stake_step n [] d in
  let? _ := in_expect_end d (length cbor) in
  Ok entries.

(** ** Governance *)

(** The field name only enters the error text. *)
Definition read_account_pot (d : bytes) : result (Z * bytes) IngestError := read_u64 d.

Definition governance_step (s : list GovernanceFact * bool) (d : bytes) :
    result ((list GovernanceFact * bool) * bytes) IngestError :=
  let? (arity, d) := read_array_len d in
  let? (kind, d) := read_u8 d in
  if kind <=? 3 then
    guard! (arity =? 4) else InSchema "governance.fact";
    let? (key, d) := read_32_bytes d in
    let? (value, d) := read_u128_bytes d in
    let? (slot, d) := read_u64 d in
    let fact := if kind =? 0 then Treasury key value slot
                else if kind =? 1 then CcSeat key value slot
                else if kind =? 2 then RatifiedAction key value slot
                else InFlightAction key value slot in
    Ok ((s.1 ++ [fact], s.2), d)
  else if kind =? 4 then
    guard! (arity =? 5) else InSchema "governance.account_state";
    let? (reserves, d) := read_account_pot d in
    let? (treasury, d) := read_account_pot d in
    let? (deposits, d) := read_account_pot d in
    let? (fee_pot, d) := read_account_pot d in
    guard! negb s.2 else InSchema "governance.account_state";
    Ok ((s.1 ++ [AccountState reserves treasury deposits fee_pot], true), d)
  else Err (InSchema "governance.fact").

Definition ingest_governance (size_fact : Z) (cbor : bytes) : result (list GovernanceFact) IngestError :=
  let? (n, d) := read_array_len cbor in
  let? _ := with_capacity size_fact n in
  let? (s, d) := loop governance_step n ([], false) d in
  let? _ := in_expect_end d (length cbor) in
  Ok s.1.

End Ingest.

(** ** An instance *)

Module Rfc8949Map.

#[export] Instance map_ops : CborMapOps := {|
  enc_map z := Rfc8949.enc_head 5 z;
  enc_null := [Byte.xf6];
  dec_map d := match d with
    | Byte.xbf :: r => Some (None, r)
    | _ => '(z, r) ← Rfc8949.dec_head 5 d; Some (Some z, r)
    end;
  next_is_null d := match d with [] => None | b :: _ => Some (bool_decide (b = Byte.xf6)) end;
  dec_null d := match d with Byte.xf6 :: r => Some r | _ => None end
|}.

(** The first byte of the head of an item of major type [major]. *)
Lemma enc_head_first major z r :
  0 <= major <= 7 → 0 <= z → ∃ b d, Rfc8949.enc_head major z ++ r = b :: d ∧
  major * 32 <= b2z b <= major * 32 + 27.
Proof.
  intros Hm Hz. unfold Rfc8949.enc_head.
  repeat match goal with |- context [?a <? ?b] => destruct (Z.ltb_spec a b) end;
    cbn [app]; eexists _, _; (split; [reflexivity|]); rewrite b2z_z2b, Z.mod_small; lia.
Qed.

#[export] Instance map_laws : CborMapLaws Rfc8949.ops map_ops.
Proof.
  split; cbn.
  - intros z r Hz. destruct (enc_head_first 5 z r ltac:(lia) ltac:(unfold in_range in Hz; lia)) as (b & d & E & Hb).
    pose proof (Rfc8949.dec_enc_head 5 z r ltac:(lia) Hz) as H. rewrite E in *.
    destruct b; try (by rewrite H). cbn in Hb. lia.
  - done.
  - done.
  - intros z r Hz. destruct (enc_head_first 4 z r ltac:(lia) ltac:(unfold in_range in Hz; lia)) as (b & d & E & Hb).
    rewrite E. f_equal. apply bool_decide_eq_false. intros ->. cbn in Hb. lia.
  - intros d o r H.
    assert (Hd : d = Byte.xbf :: r ∧ o = None ∨ ∃ z, o = Some z ∧ Rfc8949.dec_head 5 d = Some (z, r)).
    { destruct d as [|b d]; [done|]. destruct b; try (by injection H as <- <-; left).
      all: right; destruct (Rfc8949.dec_head 5 _) as [[z' r']|]; [|done]; injection H as <- <-; eauto. }
    destruct Hd as [[-> ->]|(z & -> & E)]; [by exists [Byte.xbf]|].
    by apply Rfc8949.dec_head_spec in E as [_ ?].
  - intros d r H. destruct d as [|b d]; [done|]. destruct b; try done. injection H as <-. by exists [Byte.xf6].
Qed.

End Rfc8949Map.
