(* ===== verification/IngestSpec.v ===== *)
(** * Specification of snapshot ingestion

    The UTxO file is read by three independent readers.  [read_entry] is a
    reference parser of one entry of that file; a counted loop of a reader is
    shown to be a fold over the entries the reference parser returns, so the
    three readers can be compared with each other. *)

From S2P Require Import Prelude Leaves LeavesSpec Cbor Ingest.
From Stdlib Require Import ZArith Lia List String Sorted.
From stdpp Require Import base decidable strings gmap list.

Local Open Scope Z_scope.

(** Runs a chain of steps whose outcomes are known. *)
Ltac run_ok :=
  repeat match goal with
  | E : ?c = Ok _ |- context [res_bind ?c _] => rewrite E; cbn [res_bind]
  | E : ?b = true |- context [if ?b then _ else _] => rewrite E
  | E : ?b = false |- context [if ?b then _ else _] => rewrite E
  end.

(** The first step of a successful chain: its item, what remains, and its
    equation. *)
Tactic Notation "step_in" hyp(H) "as" simple_intropattern(x) ident(d) ident(E) :=
  let p := fresh in
  apply res_bind_ok in H as (p & E & H); destruct p as [x d]; cbn beta iota in H.

(** ** Counted loops as folds *)

Section Folds.
Context {St X : Type} (item : bytes → result (X * bytes) IngestError) (adm : St → X → Prop) (upd : St → X → St).

(** A round reads one item, which must be admissible in the state. *)
Definition Folds (step : St → bytes → result (St * bytes) IngestError) : Prop :=
  ∀ s d s' d', step s d = Ok (s', d') ↔ ∃ x, item d = Ok (x, d') ∧ adm s x ∧ s' = upd s x.

Fixpoint adm_all (s : St) (xs : list X) : Prop :=
  match xs with [] => True | x :: xs' => adm s x ∧ adm_all (upd s x) xs' end.

Lemma loop_n_folds step fuel n s d s' d' : Folds step →
  loop_n step fuel n s d = Ok (s', d') ↔
  ∃ xs, decode_n item fuel n d = Ok (xs, d') ∧ adm_all s xs ∧ s' = foldl upd s xs.
Proof.
  intros HF. revert n s d. induction fuel as [|fuel IH]; intros n s d; cbn [loop_n decode_n];
    destruct (n <=? 0).
  1, 3: split; [intros [= <- <-]; by exists []|intros (xs & [= <- <-] & _ & ->); done].
  { naive_solver. }
  split.
  - intros H. destruct_ok. apply HF in E as (x & Ex & Ha & ->). apply IH in H as (xs & Exs & Has & ->).
    exists (x :: xs). rewrite Ex. cbn [res_bind]. by rewrite Exs.
  - intros (xs & H & Has & ->). apply res_bind_ok in H as ([x d1] & Ex & H).
    apply res_bind_ok in H as ([xs' d2] & Exs & H). injection H as <- <-. destruct Has as [Ha Has].
    assert (Es : step s d = Ok (upd s x, d1)) by (apply HF; eauto). rewrite Es. cbn [res_bind].
    apply IH. eauto.
Qed.

End Folds.

Lemma Folds_ext {St X} (item : bytes → result (X * bytes) IngestError) adm adm' (upd upd' : St → X → St) step step' :
  (∀ s d, step' s d = step s d) → (∀ s x, adm' s x ↔ adm s x) → (∀ s x, upd' s x = upd s x) →
  Folds item adm upd step → Folds item adm' upd' step'.
Proof.
  intros Hs Ha Hu HF s d s' d'. rewrite Hs, (HF s d s' d').
  split; intros (x & Ex & Hx & ->); exists x; rewrite Ha, Hu in *; done.
Qed.

(** A loop that appends every item it reads. *)
Lemma foldl_append {X Y} (f : X → Y) (l : list Y) xs : foldl (λ l x, l ++ [f x]) l xs = l ++ (f <$> xs).
Proof.
  revert l. induction xs as [|x xs IH]; intros l; cbn; [by rewrite app_nil_r|]. by rewrite IH, <- app_assoc.
Qed.

Lemma adm_all_const {St X} (P : X → Prop) (upd : St → X → St) s xs :
  adm_all (λ _, P) upd s xs ↔ Forall P xs.
Proof. revert s. induction xs as [|x xs IH]; intros s; cbn; [by split|]. by rewrite IH, Forall_cons. Qed.

(** ** The reference parser *)

(** Script hash, language and size. *)
Record Credential := { cr_hash : bytes; cr_language : Z; cr_size : Z }.

(** The asset names and quantities under each policy. *)
Abbreviation AssetBundle := (list (bytes * list (bytes * Z))).

(** One entry of the file.  [ce_ext] holds the fields of the 6-element form:
    the native assets and the credential. *)
Record SnapshotEntry := {
  ce_tx_id : bytes;
  ce_index : Z;
  ce_address : bytes;
  ce_value : Z;
  ce_ext : option (AssetBundle * option Credential)
}.

Definition ce_assets (e : SnapshotEntry) : AssetBundle := from_option fst [] (ce_ext e).

Section Parser.
Context {CO : CborOps} {MO : CborMapOps}.

Definition read_asset (d : bytes) : result ((bytes * Z) * bytes) IngestError :=
  let? (name, d) := read_var_bytes d in
  let? (qty, d) := read_u64 d in
  Ok ((name, qty), d).

Definition read_policy (d : bytes) : result ((bytes * list (bytes * Z)) * bytes) IngestError :=
  let? (policy, d) := read_28_bytes d in
  let? (n, d) := read_map_len d in
  let? (names, d) := decode_n read_asset (S (length d)) n d in
  Ok ((policy, names), d).

Definition read_bundle (d : bytes) : result (AssetBundle * bytes) IngestError :=
  let? (n, d) := read_map_len d in
  decode_n read_policy (S (length d)) n d.

Definition read_credential (d : bytes) : result (option Credential * bytes) IngestError :=
  let? (null, d) := read_null_marker d in
  if null : bool then Ok (None, d)
  else
    let? (arity, d) := read_array_len d in
    guard! (arity =? 3) else InOther;
    let? (hash, d) := read_28_bytes d in
    let? (language, d) := read_u8 d in
    let? (size, d) := read_u32 d in
    Ok (Some {| cr_hash := hash; cr_language := language; cr_size := size |}, d).

Definition read_ext (arity : Z) (d : bytes) :
    result (option (AssetBundle * option Credential) * bytes) IngestError :=
  if arity =? 6 then
    let? (bundle, d) := read_bundle d in
    let? (credential, d) := read_credential d in
    Ok (Some (bundle, credential), d)
  else Ok (None, d).

Definition read_entry (d : bytes) : result (SnapshotEntry * bytes) IngestError :=
  let? (arity, d) := read_array_len d in
  guard! (arity =? 4) || (arity =? 6) else InOther;
  let? (tx_id, d) := read_32_bytes d in
  let? (index, d) := read_u64 d in
  let? (address, d) := read_var_bytes d in
  let? (value, d) := read_u64 d in
  let? (ext, d) := read_ext arity d in
  Ok ({| ce_tx_id := tx_id; ce_index := index; ce_address := address; ce_value := value; ce_ext := ext |}, d).

(** The whole file: an array of entries and nothing after it. *)
Definition read_snapshot (cbor : bytes) : result (list SnapshotEntry) IngestError :=
  let? (n, d) := read_array_len cbor in
  let? (es, d) := decode_n read_entry (S (length d)) n d in
  let? _ := in_expect_end d (length cbor) in
  Ok es.

(** The declared number of entries. *)
Definition declared (cbor : bytes) : Z :=
  match read_array_len cbor with Ok (n, _) => n | _ => 0 end.

(** ** The UTxO reader *)

Fixpoint ascending_from (prev : option bytes) (ks : list bytes) : bool :=
  match ks with [] => true | k :: ks' => ascending prev k && ascending_from (Some k) ks' end.

Definition canonical_bundle (b : AssetBundle) : Prop :=
  ascending_from None b.*1 = true ∧ Forall (λ pa, ascending_from None pa.2.*1 = true) b.

Definition asset_of (policy : bytes) (nq : bytes * Z) : Asset :=
  {| asset_id := policy ++ nq.1; quantity := nq.2 |}.

Definition policy_assets (pa : bytes * list (bytes * Z)) : list Asset := asset_of pa.1 <$> pa.2.

Definition bundle_assets (b : AssetBundle) : list Asset := concat (policy_assets <$> b).

Definition utxo_of (e : SnapshotEntry) : Utxo :=
  {| utxo_tx_id := ce_tx_id e; output_index := ce_index e; address := ce_address e; value_lovelace := ce_value e;
     assets := bundle_assets (ce_assets e); datum_option := DatumNone; script_ref := None |}.

Lemma asset_step_folds policy :
  Folds read_asset (λ s x, ascending s.2 x.1 = true ∧ True)
    (λ s x, (s.1 ++ [asset_of policy x], Some x.1)) (asset_step policy).
Proof.
  intros s d s' d'. unfold asset_step, read_asset. split.
  - intros H. step_in H as name d1 E1. destruct (ascending _ _) eqn:Ea; [|done].
    step_in H as qty d2 E2. injection H as <- <-. exists (name, qty). run_ok. done.
  - intros ([name qty] & H & [Ha _] & ->). step_in H as n d1 E1. step_in H as q d2 E2.
    injection H as <- <- <-. cbn [fst snd] in *. run_ok. done.
Qed.

Lemma adm_all_keys {X St} (key : X → bytes) (f : St → X → St) (st : St → option bytes) (P : X → Prop) s xs :
  (∀ s x, st (f s x) = Some (key x)) →
  adm_all (λ s x, ascending (st s) (key x) = true ∧ P x) f s xs ↔
  ascending_from (st s) (key <$> xs) = true ∧ Forall P xs.
Proof.
  intros Hf. revert s. induction xs as [|x xs IH]; intros s; cbn; [by split|].
  rewrite IH, Hf, Forall_cons, andb_true_iff. tauto.
Qed.

Lemma foldl_keyed {X Y} (f : X → list Y) (key : X → bytes) l o xs :
  (foldl (λ s x, (s.1 ++ f x, Some (key x))) (l, o) xs).1 = l ++ concat (f <$> xs).
Proof.
  revert l o. induction xs as [|x xs IH]; intros l o; cbn; [by rewrite app_nil_r|]. by rewrite IH, <- app_assoc.
Qed.

Lemma concat_singletons {X Y} (f : X → Y) xs : concat ((λ x, [f x]) <$> xs) = f <$> xs.
Proof. induction xs as [|x xs IH]; cbn; [done|]. by f_equal. Qed.

(** A loop over a map whose keys must ascend. *)
Lemma keyed_loop {X Y} item (key : X → bytes) (f : X → list Y) P step n l l' d d' :
  Folds item (λ s x, ascending s.2 (key x) = true ∧ P x) (λ s x, (s.1 ++ f x, Some (key x))) step →
  (∃ k, loop step n (l, None) d = Ok ((l', k), d')) ↔
  ∃ xs, decode_n item (S (length d)) n d = Ok (xs, d') ∧ ascending_from None (key <$> xs) = true ∧
    Forall P xs ∧ l' = l ++ concat (f <$> xs).
Proof.
  intros HF. unfold loop. setoid_rewrite (loop_n_folds _ _ _ _ _ _ _ _ _ _ HF).
  assert (Hk : ∀ xs, adm_all (λ s x, ascending s.2 (key x) = true ∧ P x)
    (λ s x, (s.1 ++ f x, Some (key x))) (l, None) xs ↔ _) by (intros xs; by apply (adm_all_keys key _ snd P)).
  setoid_rewrite Hk. cbn [snd]. split.
  - intros (k & xs & Exs & [Ha Hp] & Hl). exists xs. apply (f_equal fst) in Hl. rewrite foldl_keyed in Hl. done.
  - intros (xs & Exs & Ha & Hp & ->).
    exists (foldl (λ s x, (s.1 ++ f x, Some (key x))) (l, None) xs).2, xs. split_and!; [done..|].
    rewrite <- (foldl_keyed f key l None xs). by destruct (foldl _ _ xs).
Qed.

Lemma policy_step_folds :
  Folds read_policy (λ s pa, ascending s.2 pa.1 = true ∧ ascending_from None pa.2.*1 = true)
    (λ s pa, (s.1 ++ policy_assets pa, Some pa.1)) policy_step.
Proof.
  assert (Hl : ∀ p n l l' d d', _) by (intros p n l l' d d'; exact (keyed_loop _ _ _ _ _ n l l' d d' (asset_step_folds p))).
  intros s d s' d'. unfold policy_step, read_policy. split.
  - intros H. step_in H as p d1 E1. destruct (ascending _ _) eqn:Ea; [|done]. step_in H as n d2 E2.
    step_in H as [l k] d3 E3. injection H as <- <-.
    apply (ex_intro (λ k, _ = Ok ((l, k), _))), Hl in E3 as (xs & Exs & Ha & _ & ->).
    exists (p, xs). run_ok. cbn [fst snd]. by rewrite concat_singletons.
  - intros ([p xs] & H & [Hp Ha] & ->). step_in H as p' d1 E1. step_in H as n d2 E2. step_in H as xs' d3 E3.
    injection H as <- <- <-. cbn [fst snd] in *. run_ok.
    destruct (proj2 (Hl p' n s.1 (s.1 ++ concat ((λ x, [asset_of p' x]) <$> xs')) d2 d3)) as [k El].
    { exists xs'. split_and!; [done..| |done]. by apply Forall_true. }
    rewrite El. cbn [res_bind fst]. by rewrite concat_singletons.
Qed.

Lemma parse_multi_assets_ok d assets d' :
  parse_multi_assets d = Ok (assets, d') ↔
  ∃ b, read_bundle d = Ok (b, d') ∧ canonical_bundle b ∧ assets = bundle_assets b.
Proof.
  unfold parse_multi_assets, read_bundle. split.
  - intros H. step_in H as n d1 E1. step_in H as [l k] d2 E2. injection H as <- <-.
    apply (ex_intro (λ k, _ = Ok ((l, k), _))), (keyed_loop _ _ _ _ _ _ _ _ _ _ policy_step_folds) in E2
      as (b & Eb & Ha & Hb & ->).
    exists b. run_ok. done.
  - intros (b & H & [Ha Hb] & ->). step_in H as n d1 E1. run_ok.
    destruct (proj2 (keyed_loop _ _ _ _ _ n [] (bundle_assets b) d1 d' policy_step_folds)) as [k El]; [by exists b|].
    by rewrite El.
Qed.

Lemma skip_script_credential_ok d d' :
  skip_script_credential d = Ok (tt, d') ↔ ∃ c, read_credential d = Ok (c, d').
Proof.
  unfold skip_script_credential, read_credential. split.
  - intros H. step_in H as null d1 E1. rewrite E1. cbn [res_bind]. destruct null; [by injection H as <-; exists None|].
    step_in H as arity d2 E2. destruct (arity =? 3) eqn:Ea; [|done]. step_in H as h d3 E3. step_in H as l d4 E4.
    step_in H as z d5 E5. injection H as <-. eexists. run_ok. done.
  - intros [c H]. step_in H as null d1 E1. rewrite E1. cbn [res_bind]. destruct null; [by injection H as <- <-|].
    step_in H as arity d2 E2. destruct (arity =? 3) eqn:Ea; [|done]. step_in H as h d3 E3. step_in H as l d4 E4.
    step_in H as z d5 E5. injection H as <- <-. run_ok. done.
Qed.

(** The fields the UTxO reader and the reference parser read the same way. *)
Lemma utxo_step_folds :
  Folds read_entry (λ _ e, ce_index e < 2 ^ 32 ∧ canonical_bundle (ce_assets e))
    (λ utxos e, utxos ++ [utxo_of e]) utxo_step.
Proof.
  intros s d s' d'. unfold utxo_step, read_entry. split.
  - intros H. step_in H as arity d1 E1. destruct (_ || _) eqn:Ea; [|done].
    step_in H as tx d2 E2. step_in H as i d3 E3. destruct (Z.ltb_spec i (2 ^ 32)) as [Hi|]; [|done].
    step_in H as a d4 E4. step_in H as v d5 E5. step_in H as assets d6 E6. injection H as <- <-. run_ok.
    unfold read_ext. destruct (arity =? 6).
    + step_in E6 as l d7 E7. step_in E6 as u d8 E8. injection E6 as <- <-. destruct u.
      apply parse_multi_assets_ok in E7 as (b & Eb & Hb & ->). apply skip_script_credential_ok in E8 as [c Ec].
      rewrite Eb. cbn [res_bind]. rewrite Ec. cbn [res_bind]. eexists. split; [done|]. done.
    + injection E6 as <- <-. cbn [res_bind]. eexists. split; [done|]. split; [|done]. done.
  - intros (e & H & [Hi Hb] & ->). step_in H as arity d1 E1. destruct (_ || _) eqn:Ea; [|done].
    step_in H as tx d2 E2. step_in H as i d3 E3. step_in H as a d4 E4. step_in H as v d5 E5.
    step_in H as x d6 E6. injection H as <- <-. cbn [ce_index] in *. unfold ce_assets in *. cbn [ce_ext] in *.
    run_ok. rewrite (proj2 (Z.ltb_lt i _) Hi). run_ok.
    unfold read_ext in E6. destruct (arity =? 6); [|by injection E6 as <- <-].
    step_in E6 as b d7 E7. step_in E6 as c d8 E8. injection E6 as <- <-.
    rewrite (proj2 (parse_multi_assets_ok _ _ _) (ex_intro _ b (conj E7 (conj Hb eq_refl)))). cbn [res_bind].
    by rewrite (proj2 (skip_script_credential_ok _ _) (ex_intro _ c E8)).
Qed.

(** ** The script reader *)

Definition script_of (c : Credential) : ScriptEntry :=
  {| script_hash := cr_hash c; deployment_slot := 0; script_size_bytes := cr_size c; se_language := cr_language c |}.

Definition ce_credential (e : SnapshotEntry) : option Credential := ce_ext e ≫= snd.

(** The first script with a hash stays. *)
Definition add_script (seen : gmap bytes ScriptEntry) (c : Credential) : gmap bytes ScriptEntry :=
  match seen !! cr_hash c with Some _ => seen | None => <[cr_hash c := script_of c]> seen end.

Lemma read_fixed_var n d x d' :
  read_fixed n d = Ok (x, d') ↔ read_var_bytes d = Ok (x, d') ∧ length x = n.
Proof.
  unfold read_fixed, read_var_bytes. split.
  - intros H. step_in H as y d1 E1. destruct (Nat.eqb_spec (length y) n); [|done]. by injection H as <- <-.
  - intros [E Hn]. rewrite E. cbn [res_bind]. by rewrite Hn, Nat.eqb_refl.
Qed.

(** A loop whose state is not looked at. *)
Lemma skip_loop {X} (item : bytes → result (X * bytes) IngestError) step n d d' :
  Folds item (λ _ _, True) (λ _ _, tt) step →
  loop step n tt d = Ok (tt, d') ↔ ∃ xs, decode_n item (S (length d)) n d = Ok (xs, d').
Proof.
  intros HF. unfold loop. rewrite (loop_n_folds _ _ _ _ _ _ _ _ _ _ HF).
  split; intros (xs & H); exists xs; [by destruct H|].
  split_and!; [done| |by destruct (foldl _ _ _)]. rewrite adm_all_const. by apply Forall_true.
Qed.

Lemma skip_asset_folds : Folds read_asset (λ _ _, True) (λ _ _, tt) skip_asset.
Proof.
  intros s d s' d'. unfold skip_asset, read_asset. split.
  - intros H. step_in H as x d1 E1. step_in H as y d2 E2. injection H as <- <-. eexists. by run_ok.
  - intros (x & H & _ & ->). step_in H as x' d1 E1. step_in H as y d2 E2. injection H as <- <-. by run_ok.
Qed.

Lemma skip_policy_folds : Folds read_policy (λ _ _, True) (λ _ _, tt) skip_policy.
Proof.
  intros s d s' d'. unfold skip_policy, read_policy. split.
  - intros H. step_in H as x d1 E1. step_in H as n d2 E2. destruct s'.
    apply (skip_loop _ _ _ _ _ skip_asset_folds) in H as [xs Exs]. eexists. by run_ok.
  - intros (x & H & _ & ->). step_in H as x' d1 E1. step_in H as n d2 E2. step_in H as xs d3 E3.
    injection H as <- <-. run_ok. apply (skip_loop _ _ _ _ _ skip_asset_folds). eauto.
Qed.

(** What the script and the token policy reader have in common: a walk over
    an entry with a 32-byte address, with a loop over its policies and an
    action on its credential. *)
Definition walk_entry {St} (entry_ctx cred_ctx : string) (policies : Z → St → bytes → result (St * bytes) IngestError)
    (add : St → Credential → St) (s : St) (d : bytes) : result (St * bytes) IngestError :=
  let? (arity, d) := read_array_len d in
  guard! (arity =? 4) || (arity =? 6) else InSchema entry_ctx;
  let? (_, d) := read_32_bytes d in
  let? (_, d) := read_u64 d in
  let? (_, d) := read_32_bytes d in
  let? (_, d) := read_u64 d in
  if arity =? 4 then Ok (s, d)
  else
    let? (n, d) := read_map_len d in
    let? (s, d) := policies n s d in
    let? (null, d) := read_null_marker d in
    if null : bool then Ok (s, d)
    else
      let? (arity, d) := read_array_len d in
      guard! (arity =? 3) else InSchema cred_ctx;
      let? (hash, d) := read_28_bytes d in
      let? (language, d) := read_u8 d in
      let? (size, d) := read_u32 d in
      Ok (add s {| cr_hash := hash; cr_language := language; cr_size := size |}, d).

Lemma walk_folds {St} ec cc policies add (padm : St → AssetBundle → Prop) (pupd : St → AssetBundle → St) :
  (∀ s, padm s [] ∧ pupd s [] = s) →
  (∀ n s d s' d', policies n s d = Ok (s', d') ↔
    ∃ b, decode_n read_policy (S (length d)) n d = Ok (b, d') ∧ padm s b ∧ s' = pupd s b) →
  Folds read_entry (λ s e, length (ce_address e) = 32%nat ∧ padm s (ce_assets e))
    (λ s e, from_option (add (pupd s (ce_assets e))) (pupd s (ce_assets e)) (ce_credential e))
    (walk_entry ec cc policies add).
Proof.
  intros Hnil Hpol s d s' d'. unfold walk_entry, read_entry. split.
  - intros H. step_in H as arity d1 E1. destruct (_ || _) eqn:Ea; [|done].
    step_in H as tx d2 E2. step_in H as i d3 E3. step_in H as a d4 E4. apply read_fixed_var in E4 as [E4 Hl].
    step_in H as v d5 E5. run_ok. unfold read_ext. destruct (Hnil s) as [Ha Hu].
    destruct (Z.eqb_spec arity 4) as [->|H4]; [injection H as <- <-; by eexists|].
    destruct (Z.eqb_spec arity 6) as [_|]; [|done].
    step_in H as n d6 E6. step_in H as s1 d7 E7. apply Hpol in E7 as (b & Eb & Hb & ->).
    step_in H as null d8 E8. unfold read_bundle, read_credential. run_ok.
    destruct null; [injection H as <- <-; by eexists|].
    step_in H as k d9 E9. destruct (k =? 3) eqn:Ek; [|done]. step_in H as h d10 E10. step_in H as l d11 E11.
    step_in H as z d12 E12. injection H as <- <-. run_ok. by eexists.
  - intros (e & H & [Hl Ha] & ->). step_in H as arity d1 E1. destruct (_ || _) eqn:Ea; [|done].
    step_in H as tx d2 E2. step_in H as i d3 E3. step_in H as a d4 E4. step_in H as v d5 E5.
    step_in H as x d6 E6. injection H as <- <-. cbn [ce_address] in Hl. run_ok.
    assert (E4' : read_32_bytes d3 = Ok (a, d4)) by by apply read_fixed_var. run_ok. unfold read_ext in E6.
    destruct (Z.eqb_spec arity 4) as [->|H4]; [injection E6 as <- <-; cbn; by rewrite (proj2 (Hnil s))|].
    destruct (Z.eqb_spec arity 6) as [_|]; [|done].
    step_in E6 as b d7 E7. step_in E6 as c d8 E8. injection E6 as <- <-.
    unfold read_bundle in E7. step_in E7 as n d9 E9. run_ok.
    rewrite (proj2 (Hpol _ _ _ _ _) (ex_intro _ b (conj E7 (conj Ha eq_refl)))). cbn [res_bind].
    unfold read_credential in E8. step_in E8 as null d10 E10. rewrite E10. cbn [res_bind].
    destruct null; [by injection E8 as <- <-|].
    step_in E8 as k d11 E11. destruct (k =? 3) eqn:Ek; [|done]. step_in E8 as h d12 E12. step_in E8 as l d13 E13.
    step_in E8 as z d14 E14. injection E8 as <- <-. run_ok. done.
Qed.

Definition skip_policies {St} (n : Z) (s : St) (d : bytes) : result (St * bytes) IngestError :=
  let? (_, d) := loop skip_policy n tt d in Ok (s, d).

Lemma skip_policies_ok {St} n (s : St) d s' d' :
  skip_policies n s d = Ok (s', d') ↔
  ∃ b, decode_n read_policy (S (length d)) n d = Ok (b, d') ∧ True ∧ s' = s.
Proof.
  unfold skip_policies. split.
  - intros H. step_in H as u d1 E1. injection H as <- <-. destruct u.
    apply (skip_loop _ _ _ _ _ skip_policy_folds) in E1 as [b Eb]. eauto.
  - intros (b & Eb & _ & ->). by rewrite (proj2 (skip_loop _ _ _ _ _ skip_policy_folds) (ex_intro _ b Eb)).
Qed.

(** Compares two chains of steps that start alike. *)
Ltac same_steps :=
  repeat match goal with
  | |- res_bind ?c _ = res_bind ?c _ => destruct c as [[? ?]| |]; cbn [res_bind]
  | |- (if ?b then _ else _) = (if ?b then _ else _) => destruct b
  | |- Ok _ = Ok _ => reflexivity
  | |- ?x = ?x => reflexivity
  end.

Lemma script_step_folds :
  Folds read_entry (λ _ e, length (ce_address e) = 32%nat)
    (λ s e, from_option (add_script s) s (ce_credential e)) script_step.
Proof.
  eapply Folds_ext; [| | |apply (walk_folds "script.utxo_entry" "script.credential" skip_policies add_script
    (λ _ _, True) (λ s _, s)); [done|intros; apply skip_policies_ok]].
  - intros s d. unfold walk_entry, script_step, skip_policies. same_steps.
    destruct (loop skip_policy _ _ _) as [[? ?]| |]; cbn [res_bind]; same_steps.
  - intros s e. tauto.
  - done.
Qed.

(** ** The token policy reader *)

Definition names_total (xs : list (bytes * Z)) : Z := foldl (λ t x, t + x.2) 0 xs.

Definition add_policy (totals : gmap bytes Z) (pa : bytes * list (bytes * Z)) : gmap bytes Z :=
  <[pa.1 := default 0 (totals !! pa.1) + names_total pa.2]> totals.

(** The checked additions of one policy succeed. *)
Definition policy_fits (totals : gmap bytes Z) (pa : bytes * list (bytes * Z)) : Prop :=
  adm_all (λ t x, t + x.2 < 2 ^ 128) (λ t x, t + x.2) 0 pa.2 ∧
  default 0 (totals !! pa.1) + names_total pa.2 < 2 ^ 128.

Lemma checked_add_u128_ok a b c : checked_add_u128 a b = Ok c ↔ a + b < 2 ^ 128 ∧ c = a + b.
Proof. unfold checked_add_u128. destruct (Z.ltb_spec (a + b) (2 ^ 128)); naive_solver lia. Qed.

Lemma total_asset_step_folds :
  Folds read_asset (λ t x, t + x.2 < 2 ^ 128) (λ t x, t + x.2) total_asset_step.
Proof.
  intros s d s' d'. unfold total_asset_step, read_asset. split.
  - intros H. step_in H as name d1 E1. step_in H as qty d2 E2. apply res_bind_ok in H as (t & Et & H).
    injection H as <- <-. apply checked_add_u128_ok in Et as [Ht ->]. exists (name, qty). by run_ok.
  - intros ([name qty] & H & Ha & ->). step_in H as n d1 E1. step_in H as q d2 E2. injection H as <- <- <-.
    cbn [snd] in Ha. run_ok. by rewrite (proj2 (checked_add_u128_ok _ _ _) (conj Ha eq_refl)).
Qed.

Lemma total_policy_step_folds : Folds read_policy policy_fits add_policy total_policy_step.
Proof.
  intros s d s' d'. unfold total_policy_step, read_policy, loop. split.
  - intros H. step_in H as p d1 E1. step_in H as n d2 E2. step_in H as t d3 E3.
    apply (loop_n_folds _ _ _ _ _ _ _ _ _ _ total_asset_step_folds) in E3 as (xs & Exs & Ha & ->).
    apply res_bind_ok in H as (t & Et & H). injection H as <- <-. apply checked_add_u128_ok in Et as [Ht ->].
    exists (p, xs). by run_ok.
  - intros ([p xs] & H & [Ha Ht] & ->). step_in H as p' d1 E1. step_in H as n d2 E2. step_in H as xs' d3 E3.
    injection H as <- <- <-. cbn [fst snd] in *. run_ok.
    rewrite (proj2 (loop_n_folds _ _ _ _ _ _ _ _ _ _ total_asset_step_folds)
      (ex_intro _ _ (conj E3 (conj Ha eq_refl)))). cbn [res_bind].
    change (foldl _ 0 xs') with (names_total xs').
    by rewrite (proj2 (checked_add_u128_ok _ _ _) (conj Ht eq_refl)).
Qed.

Lemma token_policy_step_folds :
  Folds read_entry
    (λ s e, length (ce_address e) = 32%nat ∧ adm_all policy_fits add_policy s (ce_assets e))
    (λ s e, foldl add_policy s (ce_assets e)) token_policy_step.
Proof.
  eapply Folds_ext; [| | |apply (walk_folds "token_policy.utxo_entry" "token_policy.script_credential"
    (loop total_policy_step) (λ s _, s) (adm_all policy_fits add_policy) (foldl add_policy));
    [done|intros; apply (loop_n_folds _ _ _ _ _ _ _ _ _ _ total_policy_step_folds)]].
  - intros s d. unfold walk_entry, token_policy_step. same_steps.
  - done.
  - intros s e. cbn beta. by destruct (ce_credential e).
Qed.

(** ** The three readers of the file *)

Lemma whole_file {St} adm upd (step : St → bytes → result (St * bytes) IngestError) s0 cbor s :
  Folds read_entry adm upd step →
  (let? (n, d) := read_array_len cbor in
   let? (s, d) := loop step n s0 d in
   let? _ := in_expect_end d (length cbor) in
   Ok s) = Ok s ↔
  ∃ es, read_snapshot cbor = Ok es ∧ adm_all adm upd s0 es ∧ s = foldl upd s0 es.
Proof.
  intros HF. unfold read_snapshot, loop. split.
  - intros H. step_in H as n d1 E1. step_in H as s1 d2 E2. apply res_bind_ok in H as ([] & E3 & H).
    injection H as <-. apply (loop_n_folds _ _ _ _ _ _ _ _ _ _ HF) in E2 as (es & Ees & Ha & ->).
    exists es. by run_ok.
  - intros (es & H & Ha & ->). step_in H as n d1 E1. step_in H as es' d2 E2. apply res_bind_ok in H as ([] & E3 & H).
    injection H as <-. run_ok.
    rewrite (proj2 (loop_n_folds _ _ _ _ _ _ _ _ _ _ HF) (ex_intro _ _ (conj E2 (conj Ha eq_refl)))). cbn [res_bind].
    by rewrite E3.
Qed.

Definition scripts_of (es : list SnapshotEntry) : gmap bytes ScriptEntry :=
  foldl (λ s e, from_option (add_script s) s (ce_credential e)) ∅ es.

Definition totals_of (es : list SnapshotEntry) : gmap bytes Z :=
  foldl (λ s e, foldl add_policy s (ce_assets e)) ∅ es.

Definition totals_fit (es : list SnapshotEntry) : Prop :=
  adm_all (λ s e, adm_all policy_fits add_policy s (ce_assets e)) (λ s e, foldl add_policy s (ce_assets e)) ∅ es.

Definition policy_of (kt : bytes * Z) : TokenPolicy :=
  {| policy_id := kt.1; first_issuance_slot := 0; total_supply_at_h := kt.2 |}.

Lemma ingest_utxos_ok size cbor us :
  ingest_utxos size cbor = Ok us ↔
  declared cbor * size <= ISIZE_MAX ∧ ∃ es, read_snapshot cbor = Ok es ∧
    Forall (λ e, ce_index e < 2 ^ 32 ∧ canonical_bundle (ce_assets e)) es ∧ us = utxo_of <$> es.
Proof.
  assert (Hw := whole_file _ _ _ [] cbor us utxo_step_folds).
  setoid_rewrite adm_all_const in Hw. setoid_rewrite (foldl_append utxo_of) in Hw.
  rewrite <- Hw. clear Hw. unfold ingest_utxos, declared, with_capacity.
  destruct (read_array_len cbor) as [[n d]| |]; cbn [res_bind]; [|naive_solver..].
  destruct (Z.leb_spec (n * size) ISIZE_MAX); cbn [res_bind]; naive_solver lia.
Qed.

Lemma ingest_scripts_ok cbor ss :
  ingest_scripts cbor = Ok ss ↔
  ∃ es, read_snapshot cbor = Ok es ∧ Forall (λ e, length (ce_address e) = 32%nat) es ∧
    ss = (sorted_values (scripts_of es)).*2.
Proof.
  assert (Hw := λ s, whole_file _ _ _ ∅ cbor s script_step_folds). setoid_rewrite adm_all_const in Hw.
  unfold ingest_scripts. split.
  - intros H. step_in H as n d1 E1. step_in H as s d2 E2. apply res_bind_ok in H as ([] & E3 & H). injection H as <-.
    destruct (proj1 (Hw s)) as (es & Ees & Ha & ->); [by run_ok|]. by exists es.
  - intros (es & Ees & Ha & ->). assert (H := proj2 (Hw _) (ex_intro _ es (conj Ees (conj Ha eq_refl)))).
    step_in H as n d1 E1. step_in H as s d2 E2. apply res_bind_ok in H as ([] & E3 & H). injection H as ->.
    by run_ok.
Qed.

Lemma ingest_token_policies_ok cbor ps :
  ingest_token_policies cbor = Ok ps ↔
  ∃ es, read_snapshot cbor = Ok es ∧ Forall (λ e, length (ce_address e) = 32%nat) es ∧ totals_fit es ∧
    ps = policy_of <$> sorted_values (totals_of es).
Proof.
  assert (Hw := λ s, whole_file _ _ _ ∅ cbor s token_policy_step_folds).
  assert (Ha : ∀ s es, adm_all
     (λ s e, length (ce_address e) = 32%nat ∧ adm_all policy_fits add_policy s (ce_assets e))
     (λ s e, foldl add_policy s (ce_assets e)) s es ↔
    Forall (λ e, length (ce_address e) = 32%nat) es ∧
    adm_all (λ s e, adm_all policy_fits add_policy s (ce_assets e)) (λ s e, foldl add_policy s (ce_assets e)) s es).
  { intros s es. revert s. induction es as [|e es IH]; intros s; cbn; [by split|]. rewrite IH, Forall_cons. tauto. }
  unfold ingest_token_policies. split.
  - intros H. step_in H as n d1 E1. step_in H as s d2 E2. apply res_bind_ok in H as ([] & E3 & H). injection H as <-.
    destruct (proj1 (Hw s)) as (es & Ees & [H1 H2]%Ha & ->); [by run_ok|]. by exists es.
  - intros (es & Ees & H1 & H2 & ->).
    assert (H := proj2 (Hw _) (ex_intro _ es (conj Ees (conj (proj2 (Ha _ _) (conj H1 H2)) eq_refl)))).
    step_in H as n d1 E1. step_in H as s d2 E2. apply res_bind_ok in H as ([] & E3 & H). injection H as ->.
    by run_ok.
Qed.

End Parser.

(** ** Stake and governance entries *)

Section Entries.
Context {CO : CborOps} {MO : CborMapOps}.

Definition read_stake_entry (d : bytes) : result (StakeEntry * bytes) IngestError :=
  let? (l, d) := stake_step [] d in
  let? e := or_panic (head l) in
  Ok (e, d).

Lemma stake_step_folds : Folds read_stake_entry (λ _ _, True) (λ l e, l ++ [e]) stake_step.
Proof.
  intros s d s' d'. unfold read_stake_entry, stake_step. split.
  - intros H. step_in H as a d1 E1. destruct (a =? 5) eqn:Ea; [|done]. step_in H as c d2 E2. step_in H as p d3 E3.
    step_in H as dr d4 E4. step_in H as r d5 E5. step_in H as o d6 E6. injection H as <- <-. run_ok.
    cbn [app head or_panic res_bind]. by eexists.
  - intros (x & H & _ & ->). step_in H as l d0 E0. step_in E0 as a d1 E1. destruct (a =? 5) eqn:Ea; [|done].
    step_in E0 as c d2 E2. step_in E0 as p d3 E3. step_in E0 as dr d4 E4. step_in E0 as r d5 E5. step_in E0 as o d6 E6.
    injection E0 as <- <-. cbn in H. injection H as <- <-. by run_ok.
Qed.

Definition is_account_state (f : GovernanceFact) : bool :=
  match f with AccountState _ _ _ _ => true | _ => false end.

Definition read_fact (d : bytes) : result (GovernanceFact * bytes) IngestError :=
  let? (s, d) := governance_step ([], false) d in
  let? f := or_panic (head s.1) in
  Ok (f, d).

(** A second account state is the only inadmissible fact. *)
Lemma governance_step_folds :
  Folds read_fact (λ s f, s.2 && is_account_state f = false)
    (λ s f, (s.1 ++ [f], s.2 || is_account_state f)) governance_step.
Proof.
  intros [l seen] d s' d'. unfold read_fact, governance_step. cbn [fst snd]. split.
  - intros H. step_in H as a d1 E1. step_in H as k d2 E2. rewrite E1. cbn [res_bind]. rewrite E2. cbn [res_bind].
    destruct (k <=? 3) eqn:Ek.
    + destruct (a =? 4); [|done]. step_in H as key d3 E3. step_in H as v d4 E4. step_in H as sl d5 E5.
      injection H as <- <-. run_ok. cbn [app head or_panic res_bind fst]. eexists. split; [done|].
      repeat case_match; cbn; by rewrite andb_false_r, orb_false_r.
    + destruct (k =? 4); [|done]. destruct (a =? 5); [|done]. step_in H as r d3 E3. step_in H as t d4 E4.
      step_in H as dp d5 E5. step_in H as f d6 E6. destruct seen; [done|]. injection H as <- <-. run_ok.
      cbn [negb app head or_panic res_bind fst]. by eexists.
  - intros (x & H & Ha & ->). step_in H as s d0 E0. step_in E0 as a d1 E1. step_in E0 as k d2 E2. rewrite E1.
    cbn [res_bind]. rewrite E2. cbn [res_bind]. destruct (k <=? 3) eqn:Ek.
    + destruct (a =? 4); [|done]. step_in E0 as key d3 E3. step_in E0 as v d4 E4. step_in E0 as sl d5 E5.
      injection E0 as <- <-. cbn in H. injection H as <- <-. run_ok. repeat case_match; cbn; by rewrite orb_false_r.
    + destruct (k =? 4); [|done]. destruct (a =? 5); [|done]. step_in E0 as r d3 E3. step_in E0 as t d4 E4.
      step_in E0 as dp d5 E5. step_in E0 as f d6 E6. cbn in E0. injection E0 as <- <-. cbn in H. injection H as <- <-.
      rewrite andb_true_r in Ha. subst seen. by run_ok.
Qed.

End Entries.
