(* ===== verification/IngestCorrect.v ===== *)
(** * Correctness of snapshot ingestion

    Consequences of the reference parser: the readers always return, the
    supply of a policy is the sum over the UTxOs, its overflow check never
    fails, and encoded snapshots are read back. *)

From S2P Require Import Prelude Leaves Cbor Ingest IngestSpec.
From Stdlib Require Import ZArith Lia List String Sorted.
From stdpp Require Import base decidable strings gmap list.

Local Open Scope Z_scope.

(** ** Sums *)

Definition sumZ (l : list Z) : Z := foldr Z.add 0 l.

Lemma sumZ_app l k : sumZ (l ++ k) = sumZ l + sumZ k.
Proof. induction l as [|x l IH]; cbn; [done|]. unfold sumZ in *. lia. Qed.

Lemma foldl_add {X} (w : X → Z) t xs : foldl (λ t x, t + w x) t xs = t + sumZ (w <$> xs).
Proof. revert t. induction xs as [|x xs IH]; intros t; cbn; [lia|]. rewrite IH. unfold sumZ. cbn. lia. Qed.

Lemma sumZ_nonneg l : Forall (λ x, 0 <= x) l → 0 <= sumZ l.
Proof. induction 1; cbn; [done|]. unfold sumZ in *. lia. Qed.

Lemma names_total_sum xs : names_total xs = sumZ xs.*2.
Proof. unfold names_total. by rewrite (foldl_add snd). Qed.

(** ** What the readers return *)

Section Facts.
Context {CO : CborOps} {MO : CborMapOps} {CL : CborLaws CO} {ML : CborMapLaws CO MO}.

Lemma rd_other_ok {A} (o : option A) p : rd_other o = Ok p ↔ o = Some p.
Proof. destruct o; cbn; naive_solver. Qed.

Lemma read_u64_spec d z r : read_u64 d = Ok (z, r) → is_u64 z ∧ (length r < length d)%nat.
Proof. intros H%rd_other_ok. apply dec_u64_spec in H as [? ?%consumes_length]. done. Qed.

Lemma read_u8_spec d z r : read_u8 d = Ok (z, r) → is_u8 z ∧ (length r < length d)%nat.
Proof. intros H%rd_other_ok. apply dec_u8_spec in H as [? ?%consumes_length]. done. Qed.

Lemma read_u32_spec d z r : read_u32 d = Ok (z, r) → is_u32 z ∧ (length r < length d)%nat.
Proof.
  unfold read_u32. intros H. step_in H as v d1 E1. apply read_u64_spec in E1 as [Hv Hl].
  destruct (Z.ltb_spec v (2 ^ 32)); [|done]. injection H as <- <-. unfold in_range in *. lia.
Qed.

Lemma read_var_bytes_spec d x r : read_var_bytes d = Ok (x, r) → (length x + length r < length d)%nat.
Proof. intros H%rd_other_ok. apply dec_bytes_spec in H as [_ ?]. done. Qed.

Lemma read_fixed_spec n d x r : read_fixed n d = Ok (x, r) → length x = n ∧ (length r < length d)%nat.
Proof. intros [H Hn]%read_fixed_var. apply read_var_bytes_spec in H. split; [done|lia]. Qed.

Lemma read_array_len_spec d n r : read_array_len d = Ok (n, r) → is_u64 n ∧ (length r < length d)%nat.
Proof.
  unfold read_array_len. intros H. step_in H as o d1 E1. apply rd_other_ok in E1. apply res_bind_ok in H as (k & E2 & H).
  injection H as <- <-. apply rd_other_ok in E2 as ->. apply dec_array_spec in E1 as [? ?%consumes_length]. done.
Qed.

Lemma read_map_len_spec d n r : read_map_len d = Ok (n, r) → (length r < length d)%nat.
Proof.
  unfold read_map_len. intros H. step_in H as o d1 E1. apply rd_other_ok in E1. apply res_bind_ok in H as (k & E2 & H).
  injection H as <- <-. by apply dec_map_spec, consumes_length in E1.
Qed.

Lemma read_null_marker_spec d b r : read_null_marker d = Ok (b, r) → (length r <= length d)%nat.
Proof.
  unfold read_null_marker. intros H. apply res_bind_ok in H as (null & E1 & H). destruct null.
  - apply res_bind_ok in H as (d1 & E2 & H). injection H as <- <-.
    apply rd_other_ok, dec_null_spec, consumes_length in E2. lia.
  - by injection H as <- <-.
Qed.

(** Every item of a sequence has the property, and the weights of the items
    are bounded by the input consumed. *)
Lemma decode_n_measure {A Er} (dec : bytes → result (A * bytes) Er) (P : A → Prop) (w : A → Z) K fuel n d l r :
  (∀ d x r, dec d = Ok (x, r) →
    P x ∧ (length r < length d)%nat ∧ w x <= K * (Z.of_nat (length d) - Z.of_nat (length r))) →
  decode_n dec fuel n d = Ok (l, r) →
  Forall P l ∧ (length r <= length d)%nat ∧ sumZ (w <$> l) <= K * (Z.of_nat (length d) - Z.of_nat (length r)).
Proof.
  intros HD. revert n d l. induction fuel as [|fuel IH]; intros n d l H; cbn [decode_n] in H; destruct (n <=? 0); try done.
  1, 2: injection H as <- <-; cbn; split; [constructor|]; lia.
  step_in H as x d1 E1. step_in H as xs d2 E2. injection H as <- <-.
  apply HD in E1 as (Hx & Hl & Hw). apply IH in E2 as (Hxs & Hl' & Hw').
  split; [by constructor|]. cbn. unfold sumZ in *. split; lia.
Qed.

Lemma read_asset_spec d x r : read_asset d = Ok (x, r) → is_u64 x.2 ∧ (length r < length d)%nat.
Proof.
  unfold read_asset. intros H. step_in H as name d1 E1. step_in H as q d2 E2. injection H as <- <-.
  apply read_var_bytes_spec in E1. apply read_u64_spec in E2 as [? ?]. split; [done|lia].
Qed.

Definition wf_policy (pa : bytes * list (bytes * Z)) : Prop :=
  length pa.1 = 28%nat ∧ Forall (λ x, is_u64 x.2) pa.2.

Definition wf_entry (e : SnapshotEntry) : Prop :=
  length (ce_tx_id e) = 32%nat ∧ is_u64 (ce_index e) ∧ is_u64 (ce_value e) ∧ Forall wf_policy (ce_assets e).

(** The quantities of an entry, added up. *)
Definition bundle_total (b : AssetBundle) : Z := sumZ ((λ pa, names_total pa.2) <$> b).

Definition grand_total (es : list SnapshotEntry) : Z := sumZ ((λ e, bundle_total (ce_assets e)) <$> es).

Lemma read_policy_spec d pa r : read_policy d = Ok (pa, r) →
  wf_policy pa ∧ (length r < length d)%nat ∧
  names_total pa.2 <= 2 ^ 64 * (Z.of_nat (length d) - Z.of_nat (length r)).
Proof.
  unfold read_policy. intros H. step_in H as p d1 E1. step_in H as n d2 E2. step_in H as xs d3 E3. injection H as <- <-.
  apply read_fixed_spec in E1 as [Hp H1]. apply read_map_len_spec in E2.
  apply (decode_n_measure _ (λ x, is_u64 x.2) snd (2 ^ 64)) in E3 as (Hxs & H3 & Hw).
  - rewrite names_total_sum. cbn [snd]. split; [done|]. lia.
  - intros d' x r' [Hx Hl]%read_asset_spec. unfold in_range in *. split; [done|]. lia.
Qed.

Lemma read_ext_spec a d x r : read_ext a d = Ok (x, r) →
  Forall wf_policy (from_option fst [] x) ∧ (length r <= length d)%nat ∧
  bundle_total (from_option fst [] x) <= 2 ^ 64 * (Z.of_nat (length d) - Z.of_nat (length r)).
Proof.
  unfold read_ext. intros H. destruct (a =? 6); [|injection H as <- <-; unfold bundle_total; cbn; split; [constructor|lia]].
  step_in H as b d1 E1. step_in H as c d2 E2. injection H as <- <-. cbn [from_option fst].
  assert (Hc : (length d2 <= length d1)%nat).
  { unfold read_credential in E2. step_in E2 as null d3 E3. apply read_null_marker_spec in E3.
    destruct null; [injection E2 as _ <-; lia|]. step_in E2 as k d4 E4. destruct (k =? 3); [|done].
    step_in E2 as h d5 E5. step_in E2 as l d6 E6. step_in E2 as z d7 E7. injection E2 as _ <-.
    apply read_array_len_spec in E4. apply read_fixed_spec in E5. apply read_u8_spec in E6.
    apply read_u32_spec in E7. lia. }
  unfold read_bundle in E1. step_in E1 as n d3 E3. apply read_map_len_spec in E3.
  apply (decode_n_measure _ wf_policy (λ pa, names_total pa.2) (2 ^ 64)) in E1 as (Hb & H1 & Hw);
    [|apply read_policy_spec]. unfold bundle_total. split; [done|]. lia.
Qed.

Lemma read_entry_spec d e r : read_entry d = Ok (e, r) →
  wf_entry e ∧ (length r < length d)%nat ∧
  bundle_total (ce_assets e) <= 2 ^ 64 * (Z.of_nat (length d) - Z.of_nat (length r)).
Proof.
  unfold read_entry. intros H. step_in H as arity d1 E1. destruct (_ || _); [|done].
  step_in H as tx d2 E2. step_in H as i d3 E3. step_in H as a d4 E4. step_in H as v d5 E5. step_in H as x d6 E6.
  injection H as <- <-. apply read_array_len_spec in E1 as [_ ?]. apply read_fixed_spec in E2 as [? ?].
  apply read_u64_spec in E3 as [? ?]. apply read_var_bytes_spec in E4. apply read_u64_spec in E5 as [? ?].
  apply read_ext_spec in E6 as (? & ? & ?). unfold wf_entry, ce_assets. cbn [ce_tx_id ce_index ce_value ce_ext]. split; [done|]. lia.
Qed.

Lemma read_snapshot_spec cbor es : read_snapshot cbor = Ok es →
  Forall wf_entry es ∧ grand_total es <= 2 ^ 64 * Z.of_nat (length cbor).
Proof.
  unfold read_snapshot. intros H. step_in H as n d1 E1. step_in H as es' d2 E2. apply res_bind_ok in H as (u & _ & H).
  injection H as <-. apply read_array_len_spec in E1 as [_ ?].
  apply (decode_n_measure _ wf_entry (λ e, bundle_total (ce_assets e)) (2 ^ 64)) in E2 as (? & ? & ?);
    [|apply read_entry_spec]. unfold grand_total. split; [done|]. lia.
Qed.

End Facts.

(** ** Totals *)

Lemma foldl_foldl {A B C} (f : A → C → A) (g : B → list C) a bs :
  foldl (λ a b, foldl f a (g b)) a bs = foldl f a (concat (g <$> bs)).
Proof. revert a. induction bs as [|b bs IH]; intros a; cbn; [done|]. by rewrite IH, foldl_app. Qed.

Lemma adm_all_app {St X} (adm : St → X → Prop) upd s xs ys :
  adm_all adm upd s (xs ++ ys) ↔ adm_all adm upd s xs ∧ adm_all adm upd (foldl upd s xs) ys.
Proof. revert s. induction xs as [|x xs IH]; intros s; cbn; [tauto|]. rewrite IH. tauto. Qed.

Lemma adm_all_concat {St X Y} (adm : St → Y → Prop) upd (g : X → list Y) s xs :
  adm_all (λ s x, adm_all adm upd s (g x)) (λ s x, foldl upd s (g x)) s xs ↔
  adm_all adm upd s (concat (g <$> xs)).
Proof. revert s. induction xs as [|x xs IH]; intros s; cbn; [done|]. by rewrite IH, adm_all_app. Qed.

(** What the policy [p] has in a bundle. *)
Definition bundle_supply (p : bytes) (b : AssetBundle) : Z :=
  sumZ ((λ pa, if decide (pa.1 = p) then names_total pa.2 else 0) <$> b).

Lemma bundle_supply_cons p pa b :
  bundle_supply p (pa :: b) = (if decide (pa.1 = p) then names_total pa.2 else 0) + bundle_supply p b.
Proof. done. Qed.

Lemma bundle_supply_notin p b : p ∉ b.*1 → bundle_supply p b = 0.
Proof.
  induction b as [|[k xs] b IH]; [done|]. cbn [fmap list_fmap fst]. rewrite not_elem_of_cons. intros [Hk Hb].
  rewrite bundle_supply_cons, IH by done. cbn [fst]. by rewrite decide_False.
Qed.

Lemma foldl_add_policy m b p :
  foldl add_policy m b !! p =
  if decide (p ∈ b.*1) then Some (default 0 (m !! p) + bundle_supply p b) else m !! p.
Proof.
  revert m. induction b as [|[k xs] b IH]; intros m; cbn [foldl].
  { rewrite decide_False; [done|]. by intros ?%elem_of_nil. }
  rewrite IH, bundle_supply_cons. unfold add_policy. cbn [fmap list_fmap fst snd].
  destruct (decide (k = p)) as [->|Hk].
  - rewrite lookup_insert_eq, (decide_True (P := p ∈ p :: _)) by left. cbn [default from_option]. unfold id.
    case_decide as Hb; f_equal; [lia|]. rewrite bundle_supply_notin by done. lia.
  - rewrite lookup_insert_ne by done. destruct (decide (p ∈ b.*1)) as [Hb|Hb].
    + by rewrite decide_True by by right.
    + rewrite decide_False; [done|]. rewrite elem_of_cons. naive_solver.
Qed.

(** The quantities of the assets whose identifier starts with [p]. *)
Definition assets_supply (p : bytes) (l : list Asset) : Z :=
  sumZ (quantity <$> filter (λ a, take 28 (asset_id a) = p) l).

Lemma assets_supply_app p l k : assets_supply p (l ++ k) = assets_supply p l + assets_supply p k.
Proof. unfold assets_supply. by rewrite filter_app, fmap_app, sumZ_app. Qed.

Lemma take_policy (policy name : bytes) : length policy = 28%nat → take 28 (policy ++ name) = policy.
Proof. intros <-. by rewrite take_app_length. Qed.

Lemma policy_assets_supply p pa : length pa.1 = 28%nat →
  assets_supply p (policy_assets pa) = if decide (pa.1 = p) then names_total pa.2 else 0.
Proof.
  destruct pa as [k xs]. cbn [fst snd]. intros Hk. rewrite names_total_sum. unfold policy_assets, assets_supply.
  induction xs as [|[name q] xs IH]; [by case_decide|]. cbn [fst snd] in *.
  change (asset_of k <$> (name, q) :: xs) with (asset_of k (name, q) :: (asset_of k <$> xs)).
  rewrite filter_cons. change (asset_id (asset_of k (name, q))) with (k ++ name). rewrite take_policy by done.
  case_decide; [|done]. cbn [fmap list_fmap sumZ foldr quantity asset_of snd]. by f_equal.
Qed.

Lemma bundle_assets_supply p b : Forall wf_policy b → assets_supply p (bundle_assets b) = bundle_supply p b.
Proof.
  unfold bundle_assets, bundle_supply. induction 1 as [|pa b [Hp _] _ IH]; [done|].
  cbn [fmap list_fmap concat]. by rewrite assets_supply_app, IH, policy_assets_supply.
Qed.

Definition all_policies (es : list SnapshotEntry) : AssetBundle := concat (ce_assets <$> es).

Lemma all_policies_wf es : Forall wf_entry es → Forall wf_policy (all_policies es).
Proof. intros H. apply Forall_concat, Forall_fmap. eapply Forall_impl; [done|]. by intros e (_ & _ & _ & ?). Qed.

Lemma utxo_assets es : concat (assets <$> (utxo_of <$> es)) = bundle_assets (all_policies es).
Proof.
  unfold bundle_assets, all_policies. induction es as [|e es IH]; [done|]. cbn in *.
  by rewrite IH, fmap_app, concat_app.
Qed.

Lemma totals_of_lookup es p t :
  totals_of es !! p = Some t ↔ p ∈ (all_policies es).*1 ∧ t = bundle_supply p (all_policies es).
Proof.
  unfold totals_of. rewrite (foldl_foldl add_policy ce_assets), foldl_add_policy. fold (all_policies es).
  rewrite lookup_empty. cbn [default from_option]. case_decide; naive_solver lia.
Qed.

Lemma names_total_nonneg xs : Forall (λ x : bytes * Z, is_u64 x.2) xs → 0 <= names_total xs.
Proof.
  intros H. rewrite names_total_sum. apply sumZ_nonneg, Forall_fmap. eapply Forall_impl; [done|].
  intros x Hx. unfold in_range in Hx. cbn. lia.
Qed.

Lemma bundle_total_nonneg b : Forall wf_policy b → 0 <= bundle_total b.
Proof.
  intros H. apply sumZ_nonneg, Forall_fmap. eapply Forall_impl; [done|]. intros pa [_ Hx]. by apply names_total_nonneg.
Qed.

Lemma names_fit t xs : Forall (λ x : bytes * Z, is_u64 x.2) xs → t + sumZ xs.*2 < 2 ^ 128 →
  adm_all (λ t (x : bytes * Z), t + x.2 < 2 ^ 128) (λ t x, t + x.2) t xs.
Proof.
  intros H. revert t. induction H as [|[n q] xs Hq H IH]; intros t Ht; [done|]. cbn [fmap list_fmap sumZ foldr snd] in *.
  pose proof (names_total_nonneg _ H) as Hn. rewrite names_total_sum in Hn. unfold sumZ in *.
  split; [cbn [snd]; lia|]. apply IH. cbn [snd]. lia.
Qed.

Lemma policies_fit m b : Forall wf_policy b →
  (∀ p, default 0 (m !! p) + bundle_total b < 2 ^ 128) → (∀ p, 0 <= default 0 (m !! p)) →
  adm_all policy_fits add_policy m b.
Proof.
  intros H. revert m. induction H as [|[k xs] b [_ Hx] Hb IH]; intros m Ht Hm; [done|].
  pose proof (bundle_total_nonneg _ Hb) as Hn. pose proof (names_total_nonneg _ Hx) as Hq. cbn [snd] in Hq.
  assert (Hs : ∀ p, default 0 (m !! p) + names_total xs + bundle_total b < 2 ^ 128).
  { intros p. specialize (Ht p). change (bundle_total ((k, xs) :: b)) with (names_total xs + bundle_total b) in Ht. lia. }
  cbn [adm_all]. split.
  - split; cbn [fst snd]; [|specialize (Hs k); lia]. apply names_fit; [done|]. rewrite <- names_total_sum.
    specialize (Hs k). specialize (Hm k). lia.
  - apply IH; intros p; unfold add_policy; cbn [fst snd]; specialize (Hs p); specialize (Hm p).
    all: destruct (decide (k = p)) as [->|]; [rewrite lookup_insert_eq|rewrite lookup_insert_ne by done];
      cbn [default from_option] in *; unfold id in *; lia.
Qed.

Lemma grand_total_policies es : grand_total es = bundle_total (all_policies es).
Proof.
  unfold grand_total, bundle_total, all_policies. induction es as [|e es IH]; [done|].
  cbn [fmap list_fmap concat]. rewrite fmap_app, sumZ_app. cbn. by f_equal.
Qed.

Lemma bundle_supply_range p b : Forall wf_policy b → 0 <= bundle_supply p b <= bundle_total b.
Proof.
  induction 1 as [|pa b [_ Hx] _ IH]; [done|]. rewrite bundle_supply_cons.
  change (bundle_total (pa :: b)) with (names_total pa.2 + bundle_total b).
  pose proof (names_total_nonneg _ Hx). case_decide; lia.
Qed.

Lemma totals_fit_small es : Forall wf_entry es → grand_total es < 2 ^ 128 → totals_fit es.
Proof.
  intros H Ht. apply (adm_all_concat policy_fits add_policy ce_assets), policies_fit.
  - by apply all_policies_wf.
  - intros p. rewrite lookup_empty. cbn [default from_option]. fold (all_policies es).
    rewrite <- grand_total_policies. lia.
  - intros p. by rewrite lookup_empty.
Qed.

(** ** Values in key order *)

Lemma sorted_values_elem {A} (m : gmap bytes A) k v : (k, v) ∈ sorted_values m ↔ m !! k = Some v.
Proof.
  unfold sorted_values. rewrite list_elem_of_omap. split.
  - intros (k' & _ & H). destruct (m !! k') eqn:E; [|done]. by injection H as -> ->.
  - intros E. exists k. rewrite stable_sort_elem, elem_of_elements, elem_of_dom. rewrite E. by split.
Qed.

Lemma sorted_values_keys {A} (m : gmap bytes A) :
  (sorted_values m).*1 = stable_sort bytes_le (elements (dom m)).
Proof.
  unfold sorted_values. assert (H : ∀ k, k ∈ stable_sort bytes_le (elements (dom m)) → is_Some (m !! k)).
  { intros k. by rewrite stable_sort_elem, elem_of_elements, elem_of_dom. }
  induction (stable_sort bytes_le (elements (dom m))) as [|k l IH]; [done|]. cbn.
  destruct (H k) as [v E]; [left|]. rewrite E. cbn. f_equal. apply IH. intros k' Hk. apply H. by right.
Qed.

(** ** The readers return *)

Lemma bind_no_panic {A B Er} (c : result A Er) (f : A → result B Er) :
  c ≠ Panic → (∀ a, c = Ok a → f a ≠ Panic) → res_bind c f ≠ Panic.
Proof. destruct c; cbn; naive_solver. Qed.

Create HintDb no_panic.

(** Takes a chain of steps apart; the steps are in the hint database. *)
Ltac no_panic :=
  repeat match goal with
  | |- res_bind _ _ ≠ Panic =>
      apply bind_no_panic; [solve [auto with no_panic]|intros ? _]; cbn beta
  | |- (let '(_, _) := ?p in _) ≠ Panic => destruct p
  | |- (if ?b then _ else _) ≠ Panic => destruct b
  | |- match ?o with Some _ => _ | None => _ end ≠ Panic => destruct o
  end; try done; auto with no_panic.

Section Returns.
Context {CO : CborOps} {MO : CborMapOps} {CL : CborLaws CO} {ML : CborMapLaws CO MO}.

Lemma rd_other_np {A} (o : option A) : rd_other o ≠ Panic.
Proof. by destruct o. Qed.
#[local] Hint Resolve rd_other_np : no_panic.

Lemma read_fixed_np n d : read_fixed n d ≠ Panic.
Proof. unfold read_fixed. no_panic. Qed.
Lemma read_u64_np d : read_u64 d ≠ Panic.
Proof. apply rd_other_np. Qed.
Lemma read_u8_np d : read_u8 d ≠ Panic.
Proof. apply rd_other_np. Qed.
Lemma read_var_bytes_np d : read_var_bytes d ≠ Panic.
Proof. apply rd_other_np. Qed.
#[local] Hint Resolve read_fixed_np read_u64_np read_u8_np read_var_bytes_np : no_panic.

Lemma read_28_bytes_np d : read_28_bytes d ≠ Panic.
Proof. apply read_fixed_np. Qed.
Lemma read_32_bytes_np d : read_32_bytes d ≠ Panic.
Proof. apply read_fixed_np. Qed.
Lemma read_account_pot_np d : read_account_pot d ≠ Panic.
Proof. apply rd_other_np. Qed.
#[local] Hint Resolve read_28_bytes_np read_32_bytes_np read_account_pot_np : no_panic.

Lemma read_u32_np d : read_u32 d ≠ Panic.
Proof. unfold read_u32. no_panic. Qed.
Lemma read_u128_bytes_np d : read_u128_bytes d ≠ Panic.
Proof. unfold read_u128_bytes. no_panic. Qed.
Lemma read_array_len_np d : read_array_len d ≠ Panic.
Proof. unfold read_array_len. no_panic. Qed.
Lemma read_map_len_np d : read_map_len d ≠ Panic.
Proof. unfold read_map_len. no_panic. Qed.
Lemma read_null_marker_np d : read_null_marker d ≠ Panic.
Proof. unfold read_null_marker. no_panic. Qed.
Lemma in_expect_end_np d n : in_expect_end d n ≠ Panic.
Proof. unfold in_expect_end. no_panic. Qed.
Lemma checked_add_u128_np a b : checked_add_u128 a b ≠ Panic.
Proof. unfold checked_add_u128. no_panic. Qed.
#[local] Hint Resolve read_u32_np read_u128_bytes_np read_array_len_np read_map_len_np read_null_marker_np
  in_expect_end_np checked_add_u128_np : no_panic.

(** A counted loop whose rounds return and consume input returns, whatever
    the count: the fuel is never used up. *)
Lemma loop_np {St X} item adm upd (step : St → bytes → result (St * bytes) IngestError) n s d :
  Folds (X := X) item adm upd step → (∀ d x r, item d = Ok (x, r) → (length r < length d)%nat) →
  (∀ s d, step s d ≠ Panic) → loop step n s d ≠ Panic.
Proof.
  intros HF HC Hs. unfold loop. cut (∀ fuel n s d, (length d < fuel)%nat → loop_n step fuel n s d ≠ Panic).
  { intros H. apply H. lia. }
  clear n s d. intros fuel. induction fuel as [|fuel IH]; intros n s d Hf; [lia|].
  cbn [loop_n]. destruct (n <=? 0); [done|]. apply bind_no_panic; [apply Hs|]. intros [s1 d1] E.
  apply HF in E as (x & Ex & _). apply HC in Ex. apply IH. lia.
Qed.

Lemma asset_loop_np policy n s d : loop (asset_step policy) n s d ≠ Panic.
Proof.
  apply (loop_np _ _ _ _ _ _ _ (asset_step_folds policy)); [apply read_asset_spec|].
  intros ? ?. unfold asset_step. no_panic.
Qed.
Lemma skip_asset_loop_np n s d : loop skip_asset n s d ≠ Panic.
Proof.
  apply (loop_np _ _ _ _ _ _ _ skip_asset_folds); [apply read_asset_spec|]. intros ? ?. unfold skip_asset. no_panic.
Qed.
Lemma total_asset_loop_np n s d : loop total_asset_step n s d ≠ Panic.
Proof.
  apply (loop_np _ _ _ _ _ _ _ total_asset_step_folds); [apply read_asset_spec|].
  intros ? ?. unfold total_asset_step. no_panic.
Qed.
#[local] Hint Resolve asset_loop_np skip_asset_loop_np total_asset_loop_np : no_panic.

Lemma policy_loop_np n s d : loop policy_step n s d ≠ Panic.
Proof.
  apply (loop_np _ _ _ _ _ _ _ policy_step_folds); [apply read_policy_spec|]. intros ? ?. unfold policy_step. no_panic.
Qed.
Lemma skip_policy_loop_np n s d : loop skip_policy n s d ≠ Panic.
Proof.
  apply (loop_np _ _ _ _ _ _ _ skip_policy_folds); [apply read_policy_spec|]. intros ? ?. unfold skip_policy. no_panic.
Qed.
Lemma total_policy_loop_np n s d : loop total_policy_step n s d ≠ Panic.
Proof.
  apply (loop_np _ _ _ _ _ _ _ total_policy_step_folds); [apply read_policy_spec|].
  intros ? ?. unfold total_policy_step. no_panic.
Qed.
#[local] Hint Resolve policy_loop_np skip_policy_loop_np total_policy_loop_np : no_panic.

Lemma parse_multi_assets_np d : parse_multi_assets d ≠ Panic.
Proof. unfold parse_multi_assets. no_panic. Qed.
Lemma skip_script_credential_np d : skip_script_credential d ≠ Panic.
Proof. unfold skip_script_credential. no_panic. Qed.
Lemma read_drep_np d : read_drep d ≠ Panic.
Proof. unfold read_drep. no_panic. Qed.
#[local] Hint Resolve parse_multi_assets_np skip_script_credential_np read_drep_np : no_panic.

Lemma utxo_loop_np n s d : loop utxo_step n s d ≠ Panic.
Proof.
  apply (loop_np _ _ _ _ _ _ _ utxo_step_folds); [apply read_entry_spec|]. intros ? ?. unfold utxo_step.
  no_panic. apply bind_no_panic; [no_panic|intros ? _; no_panic].
Qed.
Lemma script_loop_np n s d : loop script_step n s d ≠ Panic.
Proof.
  apply (loop_np _ _ _ _ _ _ _ script_step_folds); [apply read_entry_spec|]. intros ? ?. unfold script_step. no_panic.
Qed.
Lemma token_policy_loop_np n s d : loop token_policy_step n s d ≠ Panic.
Proof.
  apply (loop_np _ _ _ _ _ _ _ token_policy_step_folds); [apply read_entry_spec|].
  intros ? ?. unfold token_policy_step. no_panic.
Qed.

(** The first read of a stake entry or a fact consumes input, later ones do
    not put any back. *)
Lemma read_drep_spec d x r : read_drep d = Ok (x, r) → (length r <= length d)%nat.
Proof.
  unfold read_drep. intros H. step_in H as a d1 E1. destruct (negb _); [|done]. step_in H as t d2 E2.
  apply read_array_len_spec in E1 as [_ ?]. apply read_u8_spec in E2 as [_ ?].
  repeat (case_match; try done); try (injection H as _ <-; lia).
  all: step_in H as h d3 E3; injection H as _ <-; apply read_fixed_spec in E3; lia.
Qed.

Lemma read_stake_entry_spec d x r : read_stake_entry d = Ok (x, r) → (length r < length d)%nat.
Proof.
  unfold read_stake_entry, stake_step. intros H. step_in H as l d0 E0. step_in E0 as a d1 E1.
  destruct (a =? 5); [|done]. step_in E0 as c d2 E2. step_in E0 as p d3 E3.
  step_in E0 as dr d4 E4. step_in E0 as rw d5 E5. step_in E0 as o d6 E6. injection E0 as <- <-. cbn in H. injection H as _ <-.
  apply read_array_len_spec in E1. apply read_fixed_spec in E2. apply read_fixed_spec in E3. apply read_drep_spec in E4.
  apply read_u64_spec in E5. apply read_u8_spec in E6. lia.
Qed.

Lemma read_fact_spec d x r : read_fact d = Ok (x, r) → (length r < length d)%nat.
Proof.
  unfold read_fact, governance_step. intros H. step_in H as s d0 E0. step_in E0 as a d1 E1. step_in E0 as k d2 E2.
  apply read_array_len_spec in E1. apply read_u8_spec in E2. destruct (k <=? 3).
  - destruct (a =? 4); [|done]. step_in E0 as key d3 E3. step_in E0 as v d4 E4. step_in E0 as sl d5 E5.
    injection E0 as <- <-. cbn in H. injection H as _ <-. apply read_fixed_spec in E3. apply read_u64_spec in E5.
    unfold read_u128_bytes in E4. step_in E4 as y d6 E6. injection E4 as _ <-. apply read_fixed_spec in E6. lia.
  - destruct (k =? 4); [|done]. destruct (a =? 5); [|done]. step_in E0 as w d3 E3. step_in E0 as t d4 E4.
    step_in E0 as dp d5 E5. step_in E0 as f d6 E6. injection E0 as <- <-. cbn in H. injection H as _ <-.
    apply read_u64_spec in E3, E4, E5, E6. lia.
Qed.

Lemma stake_loop_np n s d : loop stake_step n s d ≠ Panic.
Proof.
  apply (loop_np _ _ _ _ _ _ _ stake_step_folds); [apply read_stake_entry_spec|]. intros ? ?. unfold stake_step. no_panic.
Qed.
Lemma governance_loop_np n s d : loop governance_step n s d ≠ Panic.
Proof.
  apply (loop_np _ _ _ _ _ _ _ governance_step_folds); [apply read_fact_spec|]. intros ? ?. unfold governance_step. no_panic.
Qed.
#[local] Hint Resolve utxo_loop_np script_loop_np token_policy_loop_np stake_loop_np governance_loop_np : no_panic.

(** A reader that allocates its result in advance. *)
Lemma reserved_loop {St R} (step : St → bytes → result (St * bytes) IngestError) s0 (f : St → R) size cbor :
  (∀ n s d, loop step n s d ≠ Panic) →
  (let? (n, d) := read_array_len cbor in
   let? _ := with_capacity size n in
   let? (s, d) := loop step n s0 d in
   let? _ := in_expect_end d (length cbor) in
   Ok (f s)) = Panic ↔ ISIZE_MAX < declared cbor * size.
Proof.
  intros Hs. unfold declared, with_capacity. pose proof (read_array_len_np cbor).
  destruct (read_array_len cbor) as [[n d]| |]; cbn [res_bind]; [|split; [done|]; cbn; unfold ISIZE_MAX; lia|done].
  destruct (Z.leb_spec (n * size) ISIZE_MAX); cbn [res_bind]; [|by split].
  match goal with |- ?c = Panic ↔ _ => assert (Hn : c ≠ Panic) end; [|split; [done|lia]]. no_panic.
Qed.


End Returns.

(** ** Agreement of the readers *)

Section Agreement.
Context {CO : CborOps} {MO : CborMapOps} {CL : CborLaws CO} {ML : CborMapLaws CO MO}.

(** C11: The three readers of the UTxO file refine one parse of it.  Each
    succeeds exactly when the file parses, is read to its end and satisfies
    the reader's own conditions, and then returns what the entries determine:
    the UTxOs in file order with their assets flattened; the scripts, the
    first for each hash, in the order of the hashes; the supply of each policy
    in the order of the policies.  The asset maps must ascend only for the
    UTxO reader, and the address must have 32 bytes only for the other two. *)
Theorem ingest_refines_snapshot (size : Z) (cbor : bytes) :
  (∀ us, ingest_utxos size cbor = Ok us ↔
    declared cbor * size <= ISIZE_MAX ∧ ∃ es, read_snapshot cbor = Ok es ∧
      Forall (λ e, ce_index e < 2 ^ 32 ∧ canonical_bundle (ce_assets e)) es ∧ us = utxo_of <$> es) ∧
  (∀ ss, ingest_scripts cbor = Ok ss ↔
    ∃ es, read_snapshot cbor = Ok es ∧ Forall (λ e, length (ce_address e) = 32%nat) es ∧
      ss = (sorted_values (scripts_of es)).*2) ∧
  (∀ ps, ingest_token_policies cbor = Ok ps ↔
    ∃ es, read_snapshot cbor = Ok es ∧ Forall (λ e, length (ce_address e) = 32%nat) es ∧ totals_fit es ∧
      ps = policy_of <$> sorted_values (totals_of es)).
Proof.
  split_and!; intros; [apply ingest_utxos_ok|apply ingest_scripts_ok|apply ingest_token_policies_ok].
Qed.

(** C32: The supply computed from a file agrees with the UTxOs read from it.
    When both readers accept a file, the supply of every policy they report
    is the sum of the quantities, over all UTxOs, of the assets whose
    identifier starts with the policy; every asset's policy is reported; and
    the policies are reported once each, in ascending order. *)
Theorem supply_matches_utxos (size : Z) (cbor : bytes) us ps
    (Hu : ingest_utxos size cbor = Ok us) (Hp : ingest_token_policies cbor = Ok ps) :
  Forall (λ p, total_supply_at_h p = assets_supply (policy_id p) (concat (assets <$> us))) ps ∧
  Forall (λ a, take 28 (asset_id a) ∈ policy_id <$> ps) (concat (assets <$> us)) ∧
  StronglySorted (λ x y, bytes_le x y = true) (policy_id <$> ps) ∧ NoDup (policy_id <$> ps).
Proof.
  apply ingest_utxos_ok in Hu as (_ & es & Ees & _ & ->).
  apply ingest_token_policies_ok in Hp as (es' & Ees' & _ & _ & ->). rewrite Ees in Ees'. injection Ees' as <-.
  apply read_snapshot_spec in Ees as [Hwf _]. apply all_policies_wf in Hwf. rewrite utxo_assets.
  assert (Hids : policy_id <$> (policy_of <$> sorted_values (totals_of es)) =
    stable_sort bytes_le (elements (dom (totals_of es)))).
  { rewrite <- sorted_values_keys, <- list_fmap_compose. by apply list_fmap_ext. }
  rewrite Hids. split_and!.
  - apply Forall_fmap, list.Forall_forall. intros [p t] Ht%sorted_values_elem%totals_of_lookup. cbn.
    rewrite bundle_assets_supply by done. by destruct Ht.
  - apply list.Forall_forall. intros a Ha. rewrite stable_sort_elem, elem_of_elements, elem_of_dom.
    apply elem_of_concat in Ha as (l & Ha & (pa & -> & Hpa)%list_elem_of_fmap).
    apply list_elem_of_fmap in Ha as (x & -> & _). rewrite list.Forall_forall in Hwf. cbn [asset_id asset_of].
    rewrite take_policy by by apply Hwf. exists (bundle_supply pa.1 (all_policies es)).
    apply totals_of_lookup. split; [|done]. by apply list_elem_of_fmap_2.
  - apply stable_sort_sorted; eauto with omega.
  - rewrite <- stable_sort_perm. apply NoDup_elements.
Qed.

(** C34: The checked additions of the token policy reader cannot fail on an
    input of less than [2^64] bytes: every quantity takes at least one byte of
    input, so the supplies stay below [2^128].  The reader therefore accepts
    exactly the files the script reader accepts. *)
Theorem token_supply_bounded (cbor : bytes) (Hl : Z.of_nat (length cbor) < 2 ^ 64) :
  is_ok (ingest_token_policies cbor) = is_ok (ingest_scripts cbor) ∧
  ∀ ps, ingest_token_policies cbor = Ok ps → Forall (λ p, is_u128 (total_supply_at_h p)) ps.
Proof.
  assert (Hfit : ∀ es, read_snapshot cbor = Ok es → Forall wf_entry es ∧ grand_total es < 2 ^ 128).
  { intros es [H1 H2]%read_snapshot_spec. split; [done|]. nia. }
  split.
  - destruct (ingest_scripts cbor) as [ss| |] eqn:Es.
    2, 3: destruct (ingest_token_policies cbor) as [ps| |] eqn:Ep; [|done..];
      apply ingest_token_policies_ok in Ep as (es & Ees & Ha & _);
      by rewrite (proj2 (ingest_scripts_ok cbor _) (ex_intro _ es (conj Ees (conj Ha eq_refl)))) in Es.
    apply ingest_scripts_ok in Es as (es & Ees & Ha & _). destruct (Hfit _ Ees) as [H1 H2].
    by rewrite (proj2 (ingest_token_policies_ok cbor _)
      (ex_intro _ es (conj Ees (conj Ha (conj (totals_fit_small _ H1 H2) eq_refl))))).
  - intros ps (es & Ees & _ & _ & ->)%ingest_token_policies_ok. destruct (Hfit _ Ees) as [H1%all_policies_wf H2].
    apply Forall_fmap, list.Forall_forall. intros [p t] [_ ->]%sorted_values_elem%totals_of_lookup.
    change (is_u128 (bundle_supply p (all_policies es))). rewrite grand_total_policies in H2.
    pose proof (bundle_supply_range p _ H1). unfold in_range. lia.
Qed.

End Agreement.
