(* ===== verification/IngestCodec.v ===== *)
(** * Encoders of the snapshots and round trips

    The encoders write the format the fixtures document; the readers return
    what was written. *)

From S2P Require Import Prelude Leaves Cbor Ingest IngestSpec IngestCorrect.
From Stdlib Require Import ZArith Lia List String Sorted.
From stdpp Require Import base decidable strings gmap list.

Local Open Scope Z_scope.

Abbreviation short x := (is_u64 (Z.of_nat (length x))).

Definition wf_credential (c : Credential) : Prop :=
  length (cr_hash c) = 28%nat ∧ is_u8 (cr_language c) ∧ is_u32 (cr_size c).

Definition wf_name (x : bytes * Z) : Prop := short x.1 ∧ is_u64 x.2.

Definition wf_names (pa : bytes * list (bytes * Z)) : Prop :=
  length pa.1 = 28%nat ∧ short pa.2 ∧ Forall wf_name pa.2.

Definition wf_ext (x : AssetBundle * option Credential) : Prop :=
  short x.1 ∧ Forall wf_names x.1 ∧ from_option wf_credential True x.2.

Definition wf_snapshot_entry (e : SnapshotEntry) : Prop :=
  length (ce_tx_id e) = 32%nat ∧ is_u64 (ce_index e) ∧ short (ce_address e) ∧ is_u64 (ce_value e) ∧
  from_option wf_ext True (ce_ext e).

Definition wf_stake (s : StakeEntry) : Prop :=
  length (stake_credential_hash s) = 28%nat ∧ length (delegated_pool s) = 28%nat ∧
  match delegated_drep s with DrepKeyHash h | DrepScriptHash h => length h = 28%nat | _ => True end ∧
  is_u64 (rewards_lovelace s) ∧ is_u8 (is_pool_operator s).

Definition wf_fact (f : GovernanceFact) : Prop :=
  match f with
  | Treasury k v s | CcSeat k v s | RatifiedAction k v s | InFlightAction k v s =>
      length k = 32%nat ∧ is_u128 v ∧ is_u64 s
  | AccountState r t d p => is_u64 r ∧ is_u64 t ∧ is_u64 d ∧ is_u64 p
  end.

#[export] Instance wf_credential_dec c : Decision (wf_credential c).
Proof. unfold wf_credential. apply _. Defined.
#[export] Instance wf_name_dec x : Decision (wf_name x).
Proof. unfold wf_name. apply _. Defined.
#[export] Instance wf_names_dec x : Decision (wf_names x).
Proof. unfold wf_names. apply _. Defined.
#[export] Instance wf_ext_dec x : Decision (wf_ext x).
Proof. unfold wf_ext. destruct x as [? []]; apply _. Defined.
#[export] Instance wf_snapshot_entry_dec e : Decision (wf_snapshot_entry e).
Proof. unfold wf_snapshot_entry. destruct (ce_ext e); apply _. Defined.
#[export] Instance wf_stake_dec e : Decision (wf_stake e).
Proof. unfold wf_stake. destruct (delegated_drep e); apply _. Defined.
#[export] Instance wf_fact_dec e : Decision (wf_fact e).
Proof. unfold wf_fact. destruct e; apply _. Defined.

Section Codec.
Context {CO : CborOps} {MO : CborMapOps}.

Definition enc_seq {A} (enc : A → bytes) (l : list A) : bytes := concat (enc <$> l).

Definition enc_name (x : bytes * Z) : bytes := enc_bytes x.1 ++ enc_u64 x.2.

Definition enc_names (pa : bytes * list (bytes * Z)) : bytes :=
  enc_bytes pa.1 ++ enc_map (Z.of_nat (length pa.2)) ++ enc_seq enc_name pa.2.

Definition enc_credential (c : option Credential) : bytes :=
  match c with
  | None => enc_null
  | Some c => enc_array 3 ++ enc_bytes (cr_hash c) ++ enc_u8 (cr_language c) ++ enc_u64 (cr_size c)
  end.

Definition enc_ext (x : option (AssetBundle * option Credential)) : bytes :=
  match x with
  | None => []
  | Some (b, c) => enc_map (Z.of_nat (length b)) ++ enc_seq enc_names b ++ enc_credential c
  end.

Definition enc_entry (e : SnapshotEntry) : bytes :=
  enc_array (match ce_ext e with Some _ => 6 | None => 4 end) ++ enc_bytes (ce_tx_id e) ++ enc_u64 (ce_index e) ++
  enc_bytes (ce_address e) ++ enc_u64 (ce_value e) ++ enc_ext (ce_ext e).

Definition enc_drep (x : DrepDelegation) : bytes :=
  match x with
  | DrepKeyHash h | DrepScriptHash h => enc_array 2 ++ enc_u8 (drep_tag_byte x) ++ enc_bytes h
  | _ => enc_array 1 ++ enc_u8 (drep_tag_byte x)
  end.

Definition enc_stake (s : StakeEntry) : bytes :=
  enc_array 5 ++ enc_bytes (stake_credential_hash s) ++ enc_bytes (delegated_pool s) ++
  enc_drep (delegated_drep s) ++ enc_u64 (rewards_lovelace s) ++ enc_u8 (is_pool_operator s).

Definition enc_fact (f : GovernanceFact) : bytes :=
  match f with
  | Treasury k v s | CcSeat k v s | RatifiedAction k v s | InFlightAction k v s =>
      enc_array 4 ++ enc_u8 (gov_kind f) ++ enc_bytes k ++ enc_bytes (be_bytes 16 v) ++ enc_u64 s
  | AccountState r t d p => enc_array 5 ++ enc_u8 (gov_kind f) ++ enc_u64 r ++ enc_u64 t ++ enc_u64 d ++ enc_u64 p
  end.

(** An array of entries. *)
Definition enc_file {A} (enc : A → bytes) (l : list A) : bytes :=
  enc_array (Z.of_nat (length l)) ++ enc_seq enc l.

Context {CL : CborLaws CO} {ML : CborMapLaws CO MO}.

(** ** Items *)

Lemma read_u64_enc z r : is_u64 z → read_u64 (enc_u64 z ++ r) = Ok (z, r).
Proof. intros Hz. unfold read_u64. by rewrite dec_enc_u64. Qed.
Lemma read_u8_enc z r : is_u8 z → read_u8 (enc_u8 z ++ r) = Ok (z, r).
Proof. intros Hz. unfold read_u8. by rewrite dec_enc_u8. Qed.
Lemma read_u32_enc z r : is_u32 z → read_u32 (enc_u64 z ++ r) = Ok (z, r).
Proof.
  unfold in_range. intros Hz. unfold read_u32. rewrite read_u64_enc by (unfold in_range; lia). cbn [res_bind].
  by rewrite (proj2 (Z.ltb_lt z _)) by lia.
Qed.
Lemma read_var_bytes_enc x r : short x → read_var_bytes (enc_bytes x ++ r) = Ok (x, r).
Proof. intros Hx. unfold read_var_bytes. by rewrite dec_enc_bytes. Qed.
Lemma read_fixed_enc n x r : length x = n → is_u64 (Z.of_nat n) → read_fixed n (enc_bytes x ++ r) = Ok (x, r).
Proof. intros <- Hx. apply read_fixed_var. split; [by apply read_var_bytes_enc|done]. Qed.
Lemma read_28_bytes_enc x r : length x = 28%nat → read_28_bytes (enc_bytes x ++ r) = Ok (x, r).
Proof. intros Hx. by apply read_fixed_enc. Qed.
Lemma read_32_bytes_enc x r : length x = 32%nat → read_32_bytes (enc_bytes x ++ r) = Ok (x, r).
Proof. intros Hx. by apply read_fixed_enc. Qed.
Lemma read_array_len_enc n r : is_u64 n → read_array_len (enc_array n ++ r) = Ok (n, r).
Proof. intros Hn. unfold read_array_len. by rewrite dec_enc_array. Qed.
Lemma read_map_len_enc n r : is_u64 n → read_map_len (enc_map n ++ r) = Ok (n, r).
Proof. intros Hn. unfold read_map_len. by rewrite dec_enc_map. Qed.
Lemma read_u128_bytes_enc v r : is_u128 v → read_u128_bytes (enc_bytes (be_bytes 16 v) ++ r) = Ok (v, r).
Proof.
  intros Hv. unfold read_u128_bytes. rewrite read_fixed_enc by (rewrite ?length_be_bytes; done). cbn [res_bind].
  by rewrite be_val_be_bytes_small.
Qed.

(** Runs the readers over the items an encoder wrote. *)
Ltac read_back :=
  repeat (rewrite <- ?app_assoc;
    first [rewrite read_array_len_enc by done | rewrite read_map_len_enc by done | rewrite read_28_bytes_enc by done
          |rewrite read_32_bytes_enc by done | rewrite read_u64_enc by done | rewrite read_u8_enc by done
          |rewrite read_u32_enc by done | rewrite read_var_bytes_enc by done | rewrite read_u128_bytes_enc by done];
    cbn [res_bind Z.eqb Z.leb Z.ltb Z.compare Pos.eqb Pos.compare Pos.compare_cont orb negb]).

Lemma enc_seq_length {A} (wf : A → Prop) enc (dec : bytes → result (A * bytes) IngestError) (l : list A) :
  Reads wf enc dec → (∀ d x r, dec d = Ok (x, r) → (length r < length d)%nat) → Forall wf l →
  (length l <= length (enc_seq enc l))%nat.
Proof.
  intros HR HC Hl. unfold enc_seq. induction Hl as [|x l Hx Hl IH]; cbn; [lia|]. rewrite length_app.
  pose proof (HR x [] Hx) as Hd%HC. rewrite app_nil_r in Hd. cbn in Hd. lia.
Qed.

(** A counted sequence is read back: the fuel covers it because every item
    takes at least one byte. *)
Lemma decode_seq {A} (wf : A → Prop) enc (dec : bytes → result (A * bytes) IngestError) (l : list A) r :
  Reads wf enc dec → (∀ d x r, dec d = Ok (x, r) → (length r < length d)%nat) → Forall wf l →
  decode_n dec (S (length (enc_seq enc l ++ r))) (Z.of_nat (length l)) (enc_seq enc l ++ r) = Ok (l, r).
Proof.
  intros HR HC Hl. apply (decode_n_enc wf); [done|done|]. rewrite length_app.
  pose proof (enc_seq_length wf enc dec l HR HC Hl). lia.
Qed.

Lemma read_asset_enc : Reads wf_name enc_name read_asset.
Proof. intros [n q] r [Hn Hq]. cbn [fst snd] in *. unfold read_asset, enc_name. cbn [fst snd]. read_back. done. Qed.

Lemma read_policy_enc : Reads wf_names enc_names read_policy.
Proof.
  intros [p xs] r (Hp & Hs & Hx). cbn [fst snd] in *. unfold read_policy, enc_names. cbn [fst snd]. read_back.
  rewrite (decode_seq wf_name); [done|apply read_asset_enc|apply read_asset_spec|done].
Qed.

Lemma read_credential_enc c r : from_option wf_credential True c → read_credential (enc_credential c ++ r) = Ok (c, r).
Proof.
  destruct c as [[h l z]|]; cbn [from_option].
  - intros (Hh & Hl & Hz). cbn in Hh, Hl, Hz. unfold read_credential, enc_credential. cbn [cr_hash cr_language cr_size].
    rewrite <- !app_assoc. unfold read_null_marker at 1. rewrite array_not_null by done. cbn [rd_other ok_or res_bind].
    read_back. done.
  - intros _. unfold read_credential, read_null_marker. cbn [enc_credential]. by rewrite null_is_null, dec_enc_null.
Qed.

Lemma read_entry_enc : Reads wf_snapshot_entry enc_entry read_entry.
Proof.
  intros [tx i a v x] r (Htx & Hi & Ha & Hv & Hx). cbn in Htx, Hi, Ha, Hv. unfold read_entry, enc_entry.
  cbn [ce_tx_id ce_index ce_address ce_value ce_ext] in *.
  destruct x as [[b c]|]; cbn [from_option] in Hx; read_back; unfold read_ext; cbn [Z.eqb Pos.eqb enc_ext]; [|done].
  destruct Hx as (Hb & Hbs & Hc). cbn [fst snd] in *. unfold read_bundle. read_back.
  rewrite (decode_seq wf_names); [|apply read_policy_enc|intros; by eapply read_policy_spec|done]. cbn [res_bind].
  by rewrite read_credential_enc.
Qed.

Lemma in_expect_end_nil n : in_expect_end [] n = Ok ().
Proof. unfold in_expect_end. cbn. by rewrite Nat.sub_0_r, Nat.eqb_refl. Qed.

Lemma read_snapshot_enc es : short es → Forall wf_snapshot_entry es → read_snapshot (enc_file enc_entry es) = Ok es.
Proof.
  intros Hs He. unfold read_snapshot, enc_file. read_back. rewrite <- (app_nil_r (enc_seq enc_entry es)).
  rewrite (decode_seq wf_snapshot_entry); [|apply read_entry_enc|intros; by eapply read_entry_spec|done].
  cbn [res_bind]. by rewrite in_expect_end_nil.
Qed.

Lemma declared_enc {A} (enc : A → bytes) l : short l → declared (enc_file enc l) = Z.of_nat (length l).
Proof. intros Hl. unfold declared, enc_file. by rewrite read_array_len_enc. Qed.

Lemma read_drep_enc x r :
  match x with DrepKeyHash h | DrepScriptHash h => length h = 28%nat | _ => True end →
  read_drep (enc_drep x ++ r) = Ok (x, r).
Proof. intros Hx. unfold read_drep. destruct x; cbn [enc_drep drep_tag_byte]; read_back; done. Qed.

Lemma read_stake_entry_enc : Reads wf_stake enc_stake read_stake_entry.
Proof.
  intros [c p x w o] r (Hc & Hp & Hx & Hw & Ho). cbn in Hc, Hp, Hx, Hw, Ho.
  unfold read_stake_entry, stake_step, enc_stake.
  cbn [stake_credential_hash delegated_pool delegated_drep rewards_lovelace is_pool_operator].
  read_back. rewrite read_drep_enc by done. cbn [res_bind]. read_back. done.
Qed.

Lemma read_fact_enc : Reads wf_fact enc_fact read_fact.
Proof.
  intros f r Hf. unfold read_fact, governance_step.
  destruct f; cbn [wf_fact] in Hf; destruct_and?; cbn [enc_fact gov_kind]; unfold read_account_pot; read_back; done.
Qed.

(** A whole file of entries, as one fold. *)
Lemma loop_enc {A St} (wf : A → Prop) enc (dec : bytes → result (A * bytes) IngestError) adm upd
    (step : St → bytes → result (St * bytes) IngestError) s l r :
  Folds dec adm upd step → Reads wf enc dec → (∀ d x r, dec d = Ok (x, r) → (length r < length d)%nat) →
  Forall wf l → adm_all adm upd s l →
  loop step (Z.of_nat (length l)) s (enc_seq enc l ++ r) = Ok (foldl upd s l, r).
Proof.
  intros HF HR HC Hl Ha. unfold loop. apply (loop_n_folds _ _ _ _ _ _ _ _ _ _ HF).
  exists l. split; [|done]. by apply (decode_seq wf).
Qed.

Definition account_states (fs : list GovernanceFact) : nat := length (List.filter is_account_state fs).

(** The first inadmissible entry stops the loop; entries before it are read. *)
Lemma governance_loop_dup l0 (fs : list GovernanceFact) seen fuel r :
  Forall wf_fact fs → (length fs <= fuel)%nat →
  (1 < Nat.b2n seen + account_states fs)%nat →
  loop_n governance_step fuel (Z.of_nat (length fs)) (l0, seen) (enc_seq enc_fact fs ++ r) =
  Err (InSchema "governance.account_state").
Proof.
  intros Hf. revert l0 seen fuel. induction Hf as [|f fs Hwf Hf IH]; intros l0 seen fuel Hfuel Hc.
  { destruct seen; cbn in Hc; lia. }
  destruct fuel as [|fuel]; [cbn in Hfuel; lia|]. cbn [length loop_n].
  destruct (Z.leb_spec (Z.of_nat (S (length fs))) 0); [lia|]. unfold enc_seq. cbn [fmap list_fmap concat].
  rewrite <- app_assoc. fold (enc_seq enc_fact fs).
  destruct (seen && is_account_state f) eqn:E.
  - apply andb_true_iff in E as [-> E]. destruct f; try done. cbn [wf_fact] in Hwf. destruct_and?.
    unfold governance_step, read_account_pot. cbn [enc_fact gov_kind]. read_back. done.
  - assert (Es : governance_step (l0, seen) (enc_fact f ++ enc_seq enc_fact fs ++ r) =
      Ok ((l0 ++ [f], seen || is_account_state f), enc_seq enc_fact fs ++ r)).
    { apply governance_step_folds. exists f. split; [by apply read_fact_enc|done]. }
    rewrite Es. cbn [res_bind]. replace (Z.of_nat (S (length fs)) - 1) with (Z.of_nat (length fs)) by lia.
    apply IH; [cbn in Hfuel; lia|]. unfold account_states in *. cbn [List.filter] in Hc.
    destruct seen, (is_account_state f); cbn in *; try done; lia.
Qed.

Lemma governance_adm l0 seen (fs : list GovernanceFact) :
  (Nat.b2n seen + account_states fs <= 1)%nat →
  adm_all (λ s f, s.2 && is_account_state f = false) (λ s f, (s.1 ++ [f], s.2 || is_account_state f)) (l0, seen) fs ∧
  (foldl (λ s f, (s.1 ++ [f], s.2 || is_account_state f)) (l0, seen) fs).1 = l0 ++ fs.
Proof.
  revert l0 seen. induction fs as [|f fs IH]; intros l0 seen Hc; cbn [adm_all foldl fst snd]; [by rewrite app_nil_r|].
  unfold account_states in *. cbn [List.filter] in Hc.
  assert (Hc' : (Nat.b2n (seen || is_account_state f) + account_states fs <= 1)%nat ∧
    seen && is_account_state f = false).
  { destruct seen, (is_account_state f); cbn in *; split; try done; lia. }
  destruct Hc' as [Hc1 Hc2]. destruct (IH (l0 ++ [f]) _ Hc1) as [Ha Hl]. rewrite <- app_assoc in Hl. done.
Qed.

(** ** Round trips *)

(** C35: Encoded snapshots are read back.  The UTxOs of a file whose asset maps
    ascend; the scripts and the supplies of a file whose addresses have 32
    bytes; the stake entries; and the governance facts, where a second
    account state is a schema error and the absence of one is accepted. *)
Theorem ingest_roundtrip (size : Z) (es : list SnapshotEntry) (ss : list StakeEntry) (fs : list GovernanceFact)
    (Hsize : 1 <= size)
    (Hes : allocatable size (length es)) (Hss : allocatable size (length ss)) (Hfs : allocatable size (length fs))
    (He : Forall wf_snapshot_entry es) (Hs : Forall wf_stake ss) (Hf : Forall wf_fact fs) :
  (Forall (λ e, ce_index e < 2 ^ 32 ∧ canonical_bundle (ce_assets e)) es →
    ingest_utxos size (enc_file enc_entry es) = Ok (utxo_of <$> es)) ∧
  (Forall (λ e, length (ce_address e) = 32%nat) es →
    ingest_scripts (enc_file enc_entry es) = Ok ((sorted_values (scripts_of es)).*2) ∧
    (totals_fit es →
      ingest_token_policies (enc_file enc_entry es) = Ok (policy_of <$> sorted_values (totals_of es)))) ∧
  ingest_stake size (enc_file enc_stake ss) = Ok ss ∧
  ingest_governance size (enc_file enc_fact fs) =
    (if Nat.leb (account_states fs) 1 then Ok fs
     else Err (InSchema "governance.account_state")).
Proof.
  pose proof (allocatable_u64 _ _ Hsize Hes) as Hes'. pose proof (allocatable_u64 _ _ Hsize Hss) as Hss'.
  pose proof (allocatable_u64 _ _ Hsize Hfs) as Hfs'. pose proof (read_snapshot_enc es Hes' He) as Er.
  split_and!.
  - intros Hc. apply ingest_utxos_ok. rewrite declared_enc by done. split; [done|]. eauto.
  - intros Ha. split; [apply ingest_scripts_ok; eauto|]. intros Ht. apply ingest_token_policies_ok. eauto.
  - unfold ingest_stake, enc_file. read_back. unfold with_capacity, allocatable in *.
    rewrite (proj2 (Z.leb_le _ _) Hss). cbn [res_bind]. rewrite <- (app_nil_r (enc_seq enc_stake ss)).
    rewrite (loop_enc wf_stake _ _ _ _ _ _ _ _ stake_step_folds read_stake_entry_enc);
      [|apply read_stake_entry_spec|done|apply adm_all_const; by apply Forall_true].
    cbn [res_bind]. rewrite in_expect_end_nil. cbn [res_bind]. rewrite (foldl_append (λ e, e)). cbn [app]. by rewrite list_fmap_id.
  - unfold ingest_governance, enc_file. read_back. unfold with_capacity, allocatable in *.
    rewrite (proj2 (Z.leb_le _ _) Hfs). cbn [res_bind]. rewrite <- (app_nil_r (enc_seq enc_fact fs)).
    destruct (Nat.leb_spec (account_states fs) 1) as [Hc|Hc].
    + destruct (governance_adm [] false fs Hc) as [Ha Hl].
      rewrite (loop_enc wf_fact _ _ _ _ _ _ _ _ governance_step_folds read_fact_enc);
        [|apply read_fact_spec|done|done].
      cbn [res_bind]. rewrite in_expect_end_nil. cbn [res_bind]. by rewrite Hl.
    + unfold loop. rewrite governance_loop_dup; [done|done| |done]. rewrite length_app.
      pose proof (enc_seq_length wf_fact _ _ fs read_fact_enc read_fact_spec Hf). lia.
Qed.

End Codec.

(** ** Canonical asset lists *)

(** The strict order of byte strings. *)
Definition bytes_lt (x y : bytes) : Prop := bytes_le y x = false.

Lemma bytes_lt_le x y : bytes_lt x y → bytes_le x y = true.
Proof. unfold bytes_lt. destruct (bytes_le_total x y) as [|H]; [done|]. by rewrite H. Qed.

Lemma bytes_lt_trans x y z : bytes_lt x y → bytes_lt y z → bytes_lt x z.
Proof.
  unfold bytes_lt. intros H1 H2. destruct (bytes_le z x) eqn:E; [|done].
  rewrite (bytes_le_trans z x y) in H2; [done|done|by apply bytes_lt_le].
Qed.

Lemma bytes_lt_app_l p x y : bytes_lt x y → bytes_lt (p ++ x) (p ++ y).
Proof. unfold bytes_lt. intros H. induction p as [|b p IH]; [done|]. cbn. by rewrite Z.ltb_irrefl. Qed.

Lemma bytes_lt_app p q x y : length p = length q → bytes_lt p q → bytes_lt (p ++ x) (q ++ y).
Proof.
  unfold bytes_lt. revert q. induction p as [|a p IH]; intros [|b q] Hl H; try done. cbn in *.
  destruct (b2z b <? b2z a); [done|]. destruct (b2z a <? b2z b); [done|]. apply IH; [lia|done].
Qed.

Lemma ascending_from_sorted prev ks : ascending_from prev ks = true →
  StronglySorted bytes_lt ks ∧ Forall (λ k, from_option (λ p, bytes_lt p k) True prev) ks.
Proof.
  revert prev. induction ks as [|k ks IH]; intros prev H; [by split; constructor|]. cbn in H.
  apply andb_true_iff in H as [Hk H]. apply IH in H as [Hs Hf]. cbn in Hf.
  assert (Hp : from_option (λ p, bytes_lt p k) True prev).
  { destruct prev as [p|]; [|done]. cbn in *. unfold bytes_lt. by apply negb_true_iff in Hk. }
  split; [by constructor|]. constructor; [done|]. eapply Forall_impl; [done|]. intros k' Hk'.
  destruct prev; [|done]. cbn in *. by eapply bytes_lt_trans.
Qed.

Lemma sorted_app {A} (R : A → A → Prop) l k :
  StronglySorted R l → StronglySorted R k → (∀ x y, x ∈ l → y ∈ k → R x y) → StronglySorted R (l ++ k).
Proof.
  induction 1 as [|x l Hl IH Hx]; intros Hk HR; [done|]. cbn. constructor.
  - apply IH; [done|]. intros; apply HR; [by right|done].
  - apply Forall_app. split; [done|]. apply list.Forall_forall. intros y Hy. apply HR; [left|done].
Qed.

Lemma canonical_sorted b : Forall wf_policy b → canonical_bundle b →
  StronglySorted bytes_lt (asset_id <$> bundle_assets b).
Proof.
  intros Hwf [Ha Hn]. apply ascending_from_sorted in Ha as [Hs _]. unfold bundle_assets.
  induction Hwf as [|[p xs] b [Hp _] Hwf IH]; [constructor|]. cbn [fmap list_fmap concat fst] in *.
  apply Forall_cons in Hn as [Hx Hn]. inversion Hs as [|? ? Hs' Hlt]; subst. rewrite fmap_app. apply sorted_app.
  - cbn [snd] in Hx. apply ascending_from_sorted in Hx as [Hx _]. unfold policy_assets. cbn [fst snd] in *.
    clear -Hx. induction xs as [|[n q] xs IHx]; [constructor|]. cbn in *. inversion Hx as [|? ? H1 H2]; subst.
    constructor; [by apply IHx|]. rewrite <- list_fmap_compose. apply Forall_fmap, list.Forall_forall.
    intros [n' q'] Hin. cbn. apply bytes_lt_app_l. rewrite list.Forall_forall in H2. apply H2.
    by apply (list_elem_of_fmap_2 fst _ (n', q')).
  - by apply IH.
  - intros x y Hx' Hy. apply list_elem_of_fmap in Hx' as (a & -> & (? & -> & _)%list_elem_of_fmap).
    apply list_elem_of_fmap in Hy as (a & -> & Ha). apply elem_of_concat in Ha as (l & Ha & ([q ys] & -> & Hq)%list_elem_of_fmap).
    apply list_elem_of_fmap in Ha as (? & -> & _). cbn. rewrite list.Forall_forall in Hwf. rewrite list.Forall_forall in Hlt. apply bytes_lt_app.
    + destruct (Hwf _ Hq) as [Hq28 _]. cbn [fst] in *. congruence.
    + apply Hlt. by apply (list_elem_of_fmap_2 fst _ (q, ys)).
Qed.

Section Canonical.
Context {CO : CborOps} {MO : CborMapOps} {CL : CborLaws CO} {ML : CborMapLaws CO MO}.

(** The assets of every ingested UTxO have strictly ascending, hence
    distinct, identifiers.  The sort in the UTxO encoder therefore leaves them
    as they are, and no identifier is committed twice. *)
Theorem ingested_assets_canonical (size : Z) (cbor : bytes) us (Hu : ingest_utxos size cbor = Ok us) :
  Forall (λ u, StronglySorted bytes_lt (asset_id <$> assets u) ∧
               stable_sort asset_le (assets u) = assets u) us.
Proof.
  apply ingest_utxos_ok in Hu as (_ & es & Ees & Hc & ->). apply read_snapshot_spec in Ees as [Hwf _].
  apply Forall_fmap. rewrite list.Forall_forall in *. intros e He. cbn.
  assert (Hs : StronglySorted bytes_lt (asset_id <$> bundle_assets (ce_assets e))).
  { apply canonical_sorted; [|by apply Hc]. destruct (Hwf e He) as (_ & _ & _ & ?). done. }
  split; [done|]. apply stable_sort_id. clear -Hs. induction (bundle_assets (ce_assets e)) as [|a l IH]; [constructor|].
  cbn in Hs. inversion Hs as [|? ? H1 H2]; subst. constructor; [by apply IH|].
  rewrite Forall_fmap in H2. apply (list.Forall_impl _ _ _ H2). intros b Hb. by apply bytes_lt_le.
Qed.

(** The UTxOs of a file do not depend on the credentials, nor on whether an
    entry without assets has four or six elements. *)
Theorem same_utxos_different_files (size : Z) (es : list SnapshotEntry) (c : option Credential)
    (Hsize : 1 <= size) (Hes : allocatable size (length es)) (He : Forall wf_snapshot_entry es)
    (Hc : from_option wf_credential True c)
    (Hu : Forall (λ e, ce_index e < 2 ^ 32 ∧ ce_ext e = None) es) :
  let es' := (λ e, {| ce_tx_id := ce_tx_id e; ce_index := ce_index e; ce_address := ce_address e;
                      ce_value := ce_value e; ce_ext := Some ([], c) |}) <$> es in
  ingest_utxos size (enc_file enc_entry es) = Ok (utxo_of <$> es) ∧
  ingest_utxos size (enc_file enc_entry es') = Ok (utxo_of <$> es).
Proof.
  intros es'. pose proof (allocatable_u64 _ _ Hsize Hes) as Hs.
  assert (Hl : length es' = length es) by apply length_fmap.
  split; apply ingest_utxos_ok; rewrite declared_enc by (rewrite ?Hl; done).
  - split; [done|]. exists es. split; [by apply read_snapshot_enc|]. split; [|done].
    apply (list.Forall_impl _ _ _ Hu). intros e [Hi Hx]. split; [done|]. unfold ce_assets. rewrite Hx. by split.
  - rewrite Hl. split; [done|]. exists es'. split_and!.
    + apply read_snapshot_enc; [by rewrite Hl|]. apply Forall_fmap. apply (list.Forall_impl _ _ _ He).
      intros e (H1 & H2 & H3 & H4 & _). unfold wf_snapshot_entry, wf_ext. cbn. split_and!; try done.
    + apply Forall_fmap. apply (list.Forall_impl _ _ _ Hu). intros e [Hi _]. split; [done|]. by split.
    + unfold es'. rewrite <- list_fmap_compose. apply list_fmap_ext. intros i e Hi.
      rewrite list.Forall_forall in Hu. destruct (Hu e) as [_ Hx]; [by eapply list_elem_of_lookup_2|].
      unfold utxo_of, ce_assets. cbn. by rewrite Hx.
Qed.

End Canonical.
