(* ===== verification/IngestExamples.v ===== *)
(** * A snapshot file, evaluated

    The encoded file of two UTxOs that share a policy, read with the CBOR of
    RFC 8949. *)

From S2P Require Import Prelude Leaves Cbor Ingest IngestSpec IngestCorrect IngestCodec.
From Stdlib Require Import ZArith Lia List String Sorted.
From stdpp Require Import base decidable strings gmap list.

Local Open Scope Z_scope.

Module ExampleIngest.
Export Rfc8949 Rfc8949Map.

Definition fill (n : nat) (z : Z) : bytes := replicate n (z2b z).

Definition entry1 : SnapshotEntry :=
  {| ce_tx_id := fill 32 1; ce_index := 0; ce_address := fill 32 2; ce_value := 5;
     ce_ext := Some ([(fill 28 0xAA, [(ascii_bytes "COIN", 50); (ascii_bytes "NFT", 1)]);
                      (fill 28 0xBB, [(ascii_bytes "TOKEN", 999)])],
                     Some {| cr_hash := fill 28 0xCC; cr_language := 2; cr_size := 1024 |}) |}.

Definition entry2 : SnapshotEntry :=
  {| ce_tx_id := fill 32 3; ce_index := 1; ce_address := fill 32 4; ce_value := 7;
     ce_ext := Some ([(fill 28 0xAA, [(ascii_bytes "COIN", 100)])], None) |}.

Definition file : bytes := enc_file enc_entry [entry1; entry2].

Definition policies : list TokenPolicy := [policy_of (fill 28 0xAA, 151); policy_of (fill 28 0xBB, 999)].

Definition stake1 : StakeEntry :=
  {| stake_credential_hash := fill 28 5; delegated_pool := fill 28 6; delegated_drep := DrepKeyHash (fill 28 7);
     rewards_lovelace := 9; is_pool_operator := 1 |}.

(** Facts without an account state. *)
Definition facts : list GovernanceFact := [Treasury (fill 32 8) (2 ^ 100) 3; CcSeat (fill 32 9) 1 4].

Lemma file_utxos : ingest_utxos 152 file = Ok [utxo_of entry1; utxo_of entry2].
Proof. vm_compute. reflexivity. Qed.

Lemma file_policies : ingest_token_policies file = Ok policies.
Proof. vm_compute. reflexivity. Qed.


Lemma supply_matches_utxos_witness :
  Forall (λ p, total_supply_at_h p =
    assets_supply (policy_id p) (concat (assets <$> [utxo_of entry1; utxo_of entry2]))) policies.
Proof. apply (supply_matches_utxos 152 file _ _ file_utxos file_policies). Defined.

Lemma token_supply_bounded_witness : is_ok (ingest_token_policies file) = is_ok (ingest_scripts file).
Proof. apply (token_supply_bounded file). vm_compute. reflexivity. Defined.

Lemma ingested_assets_canonical_witness :
  Forall (λ u, StronglySorted bytes_lt (asset_id <$> assets u) ∧ stable_sort asset_le (assets u) = assets u)
    [utxo_of entry1; utxo_of entry2].
Proof. apply (ingested_assets_canonical 152 file _ file_utxos). Defined.

Lemma ingest_roundtrip_witness :
  ingest_stake 152 (enc_file enc_stake [stake1]) = Ok [stake1] ∧
  ingest_governance 152 (enc_file enc_fact facts) = Ok facts.
Proof.
  destruct (ingest_roundtrip 152 [entry1; entry2] [stake1] facts) as (_ & _ & H1 & H2); [by_compute..|].
  split; [exact H1|exact H2].
Defined.

End ExampleIngest.
