(* ===== verification/Cli.v ===== *)
(** * The command line tools

    [omega-commitment-cli/src/main.rs] ([commit]),
    [omega-commitment-bundle/src/main.rs] ([cmd_assemble], [cmd_verify]) and
    [omega-commitment-ingest/src/main.rs] ([run_utxo] and its siblings), on
    the file system of [Files.v].  A command is a function from the file
    system to the file system and an outcome, so that what a failed command
    has already written is kept.

    serde_json is a parameter: [JsonInputs] of [Bundle.v] for parsing, and
    [JsonOutputs] for printing.  So is the hex crate ([HexOps] of [Serde.v]).
    Argument parsing and the texts printed are not modelled. *)

From S2P Require Import Prelude Files Serde Hash Tree Leaves Witness Bundle Cbor Ingest.
From Stdlib Require Import ZArith Lia List String.
From stdpp Require Import base decidable strings gmap list.

Local Open Scope Z_scope.

(** ** Text files *)

Definition utf8_cont (b : byte) : bool := (0x80 <=? b2z b) && (b2z b <=? 0xBF).

(** [str::from_utf8]: well-formed UTF-8, without overlong forms, surrogates
    and code points above [0x10FFFF]. *)
Fixpoint utf8_valid (s : bytes) : bool :=
  match s with
  | [] => true
  | a :: s1 =>
      if b2z a <? 0x80 then utf8_valid s1
      else match s1 with
      | [] => false
      | b :: s2 =>
          if (0xC2 <=? b2z a) && (b2z a <=? 0xDF) then utf8_cont b && utf8_valid s2
          else match s2 with
          | [] => false
          | c :: s3 =>
              if (0xE0 <=? b2z a) && (b2z a <=? 0xEF) then
                utf8_cont b && utf8_cont c &&
                (if b2z a =? 0xE0 then 0xA0 <=? b2z b else if b2z a =? 0xED then b2z b <=? 0x9F else true) &&
                utf8_valid s3
              else match s3 with
              | [] => false
              | d :: s4 =>
                  if (0xF0 <=? b2z a) && (b2z a <=? 0xF4) then
                    utf8_cont b && utf8_cont c && utf8_cont d &&
                    (if b2z a =? 0xF0 then 0x90 <=? b2z b else if b2z a =? 0xF4 then b2z b <=? 0x8F else true) &&
                    utf8_valid s4
                  else false
              end
          end
      end
  end.

Inductive CliError : Type :=
| CannotRead | CannotStat | TooLarge (len max : Z) | CannotCreateOutput | CannotResolveOutput
| CannotResolveInput | InputIo | OutputIo | CliJson | CliLeaf (e : LeafError)
| LeafVanished | IndexOutOfRange | NoParent | CannotResolveParent | NoFileName | Escapes (p : Path)
| CliBundle (e : BundleError) | CliIngest (e : IngestError).

(** ** Commands *)

Definition FsM (A : Type) : Type := Fs → Fs * result A CliError.

Definition fs_bind {A B} (m : FsM A) (k : A → FsM B) : FsM B :=
  λ fs, match m fs with
        | (fs', Ok a) => k a fs'
        | (fs', Err e) => (fs', Err e)
        | (fs', Panic) => (fs', Panic)
        end.

Notation "'do!' x ':=' m 'in' k" := (fs_bind m (fun x => k))
  (at level 10, x pattern, m at level 100, k at level 200,
   format "'[v' 'do!'  x  ':='  m  'in' '/' k ']'") : omega_scope.

Definition pure_step {A} (r : result A CliError) : FsM A := λ fs, (fs, r).

(** An operation that only looks at the file system. *)
Definition look {A} (op : Fs → result A FsError) (err : CliError) : FsM A :=
  λ fs, (fs, res_map_err (λ _, err) (op fs)).

(** An operation that changes the file system when it succeeds. *)
Definition change {E} (op : Fs → result Fs E) (err : CliError) : FsM unit :=
  λ fs, match op fs with
        | Ok fs' => (fs', Ok ())
        | Err _ => (fs, Err err)
        | Panic => (fs, Panic)
        end.

(** [fs::read_to_string]. *)
Definition read_to_string (p : Path) (err : CliError) : FsM bytes :=
  do! raw := look (λ fs, fs_read fs p) err in
  pure_step (guard! utf8_valid raw else err; Ok raw).

(** ** [omega-commitment commit] *)

Inductive SubTree : Type := SUtxo | SHeader | STxIndex | STokenPolicy | SScript | SStake | SGovernance.

Record CommitmentRecord := {
  cm_sub_tree : SubTree;
  cm_input_digest : bytes;
  cm_root : bytes;
  cm_leaf_count : nat;
  cm_tree_depth : nat;
  cm_item_count : nat
}.

(** [serde_json::to_string_pretty] at the output types.  The two files that
    are read back by a tool have a parser. *)
Class JsonOutputs := {
  json_commitment : CommitmentRecord → bytes;
  json_witness : InclusionWitness → bytes;
  json_bundle : BundleRecord → bytes;
  parse_bundle : bytes → option BundleRecord;
  json_utxos : list Utxo → bytes;
  json_policies : list TokenPolicy → bytes;
  json_scripts : list ScriptEntry → bytes;
  json_stake_entries : list StakeEntry → bytes;
  json_facts : list GovernanceFact → bytes
}.

(** JSON text is UTF-8, and is parsed back. *)
Class JsonLaws (JI : JsonInputs) (JO : JsonOutputs) : Prop := {
  bundle_roundtrip b : parse_bundle (json_bundle b) = Some b;
  utxos_roundtrip l : parse_utxos (json_utxos l) = Some l;
  policies_roundtrip l : parse_policies (json_policies l) = Some l;
  scripts_roundtrip l : parse_scripts (json_scripts l) = Some l;
  stake_roundtrip l : parse_stake_entries (json_stake_entries l) = Some l;
  facts_roundtrip l : parse_facts (json_facts l) = Some l;
  bundle_utf8 b : utf8_valid (json_bundle b) = true;
  utxos_utf8 l : utf8_valid (json_utxos l) = true;
  policies_utf8 l : utf8_valid (json_policies l) = true;
  scripts_utf8 l : utf8_valid (json_scripts l) = true;
  stake_utf8 l : utf8_valid (json_stake_entries l) = true;
  facts_utf8 l : utf8_valid (json_facts l) = true
}.

Section Commit.
Context {HF : HashFns} {JI : JsonInputs} {JO : JsonOutputs} {HX : HexOps}.

(** [Path::starts_with], by components. *)
Definition starts_with (p base : Path) : bool := bool_decide (base `prefix_of` p).

Definition safe_child (base_dir child : Path) : FsM Path :=
  do! parent := pure_step (guard! bool_decide (child ≠ []) else NoParent; Ok (removelast child)) in
  do! parent := look (λ fs, canonicalize fs parent) CannotResolveParent in
  do! file_name := pure_step (ok_or (last child) NoFileName) in
  let resolved := parent ++ [file_name] in
  pure_step (guard! starts_with resolved base_dir else Escapes resolved; Ok resolved).

Definition build_utxo_leaves (raw : bytes) : result (list bytes * nat) CliError :=
  let? l := ok_or (parse_utxos raw) CliJson in
  let? leaves := res_map_err CliLeaf (res_mapM utxo_leaf_hash l) in
  Ok (leaves, length l).

Definition build_header_leaves (raw : bytes) : result (list bytes * nat) CliError :=
  let? l := ok_or (parse_headers raw) CliJson in Ok (header_leaf_hash <$> l, length l).

Definition build_tx_index_leaves (raw : bytes) : result (list bytes * nat) CliError :=
  let? l := ok_or (parse_entries raw) CliJson in Ok (tx_index_leaf_hash <$> l, length l).

Definition build_token_policy_leaves (raw : bytes) : result (list bytes * nat) CliError :=
  let? l := ok_or (parse_policies raw) CliJson in Ok (token_policy_leaf_hash <$> l, length l).

Definition build_script_leaves (raw : bytes) : result (list bytes * nat) CliError :=
  let? l := ok_or (parse_scripts raw) CliJson in Ok (script_leaf_hash <$> l, length l).

Definition build_stake_leaves (raw : bytes) : result (list bytes * nat) CliError :=
  let? l := ok_or (parse_stake_entries raw) CliJson in Ok (stake_leaf_hash <$> l, length l).

Definition build_governance_leaves (raw : bytes) : result (list bytes * nat) CliError :=
  let? l := ok_or (parse_facts raw) CliJson in Ok (governance_leaf_hash <$> l, length l).

Definition build_leaves (st : SubTree) (raw : bytes) : result (list bytes * nat) CliError :=
  match st with
  | SUtxo => build_utxo_leaves raw
  | SHeader => build_header_leaves raw
  | STxIndex => build_tx_index_leaves raw
  | STokenPolicy => build_token_policy_leaves raw
  | SScript => build_script_leaves raw
  | SStake => build_stake_leaves raw
  | SGovernance => build_governance_leaves raw
  end.

(** [leaf_idx.entry(h).or_insert(i as u32)] for the leaves from index [i]. *)
Fixpoint leaf_index_map (i : Z) (leaves : list bytes) (m : gmap bytes Z) : gmap bytes Z :=
  match leaves with
  | [] => m
  | h :: leaves' =>
      leaf_index_map (i + 1) leaves' (match m !! h with Some _ => m | None => <[h := i mod 2 ^ 32]> m end)
  end.

(** A temporary file in the directory, renamed over the target. *)
Definition persist (fs : Fs) (target : Path) (content : bytes) : result Fs FsError := fs_write fs target content.

Definition witness_name (leaf : bytes) : string := (hex_encode leaf +:+ ".json")%string.

(** The loop [for leaf in leaves]. *)
Fixpoint write_witnesses (output : Path) (tree : MerkleTree) (idx : gmap bytes Z) (leaves : list bytes) : FsM unit :=
  match leaves with
  | [] => pure_step (Ok ())
  | leaf :: leaves' =>
      do! i := pure_step (ok_or (idx !! leaf) LeafVanished) in
      do! w := pure_step (let? o := or_panic (build_at_index tree i) in ok_or o IndexOutOfRange) in
      do! target := safe_child output (output ++ ["witnesses"%string; witness_name leaf]) in
      do! _ := change (λ fs, fs_write fs target (json_witness w)) OutputIo in
      write_witnesses output tree idx leaves'
  end.

Definition commit (input output : Path) (st : SubTree) (max_input_bytes : Z) : FsM CommitmentRecord :=
  do! input := look (λ fs, canonicalize fs input) CannotRead in
  do! len := look (λ fs, metadata_len fs input) CannotStat in
  do! _ := pure_step (guard! (len <=? max_input_bytes) else TooLarge len max_input_bytes; Ok ()) in
  do! _ := change (λ fs, create_dir_all fs output) CannotCreateOutput in
  do! output := look (λ fs, canonicalize fs output) CannotResolveOutput in
  do! raw := read_to_string input InputIo in
  do! (leaves, item_count) := pure_step (build_leaves st raw) in
  do! tree := pure_step (or_panic (build leaves)) in
  do! _ := change (λ fs, create_dir_all fs (output ++ ["witnesses"%string])) OutputIo in
  do! root := pure_step (or_panic (root tree)) in
  let record := {| cm_sub_tree := st; cm_input_digest := blake3_256 raw; cm_root := root;
                   cm_leaf_count := leaf_count tree; cm_tree_depth := depth tree; cm_item_count := item_count |} in
  do! _ := change (λ fs, persist fs (output ++ ["commitment.json"%string]) (json_commitment record)) OutputIo in
  do! _ := write_witnesses output tree (leaf_index_map 0 (mt_leaves tree) ∅) leaves in
  pure_step (Ok record).

(** ** [omega-bundle] *)

(** The files [assemble] reads below a directory. *)
Definition input_files (fs : Fs) (dir : Path) (st : SubTreeId) : option bytes :=
  match fs_read fs (dir ++ [filename st]) with
  | Ok raw => if utf8_valid raw then Some raw else None
  | _ => None
  end.

Definition cmd_assemble (input_dir output : Path) : FsM BundleRecord :=
  do! input_dir := look (λ fs, canonicalize fs input_dir) CannotResolveInput in
  do! bundle := (λ fs, (fs, res_map_err CliBundle (assemble (input_files fs input_dir)))) in
  do! _ := change (λ fs, fs_write fs output (json_bundle bundle)) OutputIo in
  pure_step (Ok bundle).

Definition cmd_verify (bundle_path input_dir : Path) : FsM BundleRecord :=
  do! raw := read_to_string bundle_path CannotRead in
  do! bundle := pure_step (ok_or (parse_bundle raw) CliJson) in
  do! input_dir := look (λ fs, canonicalize fs input_dir) CannotResolveInput in
  do! _ := (λ fs, (fs, res_map_err CliBundle (bundle_verify bundle (input_files fs input_dir)))) in
  pure_step (Ok bundle).

(** ** [omega-ingest] *)

Context {CO : CborOps} {MO : CborMapOps}.

(** The common shape of the five commands. *)
Definition run_ingest {A} (ingest : bytes → result A IngestError) (json : A → bytes) (input output : Path) : FsM A :=
  do! cbor := look (λ fs, fs_read fs input) CannotRead in
  do! out := pure_step (res_map_err CliIngest (ingest cbor)) in
  do! _ := change (λ fs, fs_write fs output (json out)) OutputIo in
  pure_step (Ok out).

Definition run_utxo (size : Z) : Path → Path → FsM (list Utxo) := run_ingest (ingest_utxos size) json_utxos.
Definition run_token_policy : Path → Path → FsM (list TokenPolicy) := run_ingest ingest_token_policies json_policies.
Definition run_script : Path → Path → FsM (list ScriptEntry) := run_ingest ingest_scripts json_scripts.
Definition run_stake (size : Z) : Path → Path → FsM (list StakeEntry) := run_ingest (ingest_stake size) json_stake_entries.
Definition run_governance (size : Z) : Path → Path → FsM (list GovernanceFact) :=
  run_ingest (ingest_governance size) json_facts.

End Commit.
