(* ===== verification/CliSpec.v ===== *)
(** * Specification of the command line tools

    What a command leaves in the file system: the commitment and a verifying
    witness for every leaf, and nothing outside its output directory; a
    bundle that verifies; the chain from a CBOR snapshot to witness files. *)

From S2P Require Import Prelude Files Serde Hash Tree TreeSpec Leaves Witness Bundle BundleSpec Cbor Ingest IngestSpec Cli.
From Stdlib Require Import ZArith Lia List String.
From stdpp Require Import base decidable strings gmap list.

Local Open Scope Z_scope.

(** ** Files *)

Lemma create_dirs_lookup fs acc rest fs' q x :
  create_dirs fs acc rest = Ok fs' → fs' !! q = Some x → fs !! q = Some x ∨
  (fs !! q = None ∧ x = FsDir ∧ ∃ k, q = acc ++ take k rest).
Proof.
  revert fs acc. induction rest as [|c rest IH]; intros fs acc; cbn [create_dirs]; [by intros [= <-]; left|].
  assert (Hk : ∀ k, (acc ++ [c]) ++ take k rest = acc ++ take (S k) (c :: rest)) by (intros; by rewrite <- app_assoc).
  destruct (fs !! (acc ++ [c])) as [[|b]|] eqn:E; [|done|]; intros H Hq.
  - destruct (IH _ _ H Hq) as [|(? & ? & k & ->)]; [by left|]. right. split; [done|]. split; [done|]. by exists (S k).
  - destruct (IH _ _ H Hq) as [Hi|(Hn & -> & k & ->)].
    + destruct (decide (q = acc ++ [c])) as [->|Hne].
      * rewrite lookup_insert_eq in Hi. injection Hi as <-. right. split; [done|]. split; [done|]. by exists 1%nat.
      * rewrite lookup_insert_ne in Hi by done. by left.
    + right. split; [|split; [done|by exists (S k)]].
      destruct (decide (acc ++ [c] = (acc ++ [c]) ++ take k rest)) as [He|He].
      * rewrite <- He in Hn. by rewrite lookup_insert_eq in Hn.
      * by rewrite lookup_insert_ne in Hn.
Qed.

Lemma create_dirs_file fs p fs' q b :
  create_dir_all fs p = Ok fs' → fs' !! q = Some (FsFile b) ↔ fs !! q = Some (FsFile b).
Proof.
  intros H. split.
  - intros Hq. by destruct (create_dirs_lookup _ _ _ _ _ _ H Hq) as [|(_ & ? & _)].
  - revert H. unfold create_dir_all. generalize (@nil string) as acc. revert fs.
    induction p as [|c p IH]; intros fs acc; cbn [create_dirs]; [by intros [= <-]|].
    destruct (fs !! (acc ++ [c])) as [[|b']|] eqn:E; [|done|]; intros H Hq; [by apply (IH _ _ H)|].
    apply (IH _ _ H). rewrite lookup_insert_ne; [done|]. congruence.
Qed.

(** Directories are created only on the way to the target. *)
Lemma create_dirs_outside fs p fs' q :
  create_dir_all fs p = Ok fs' → ¬ q `prefix_of` p → fs' !! q = fs !! q.
Proof.
  intros H Hq. destruct (fs' !! q) as [x|] eqn:E.
  - destruct (create_dirs_lookup _ _ _ _ _ _ H E) as [|(_ & _ & k & ->)]; [done|].
    destruct Hq. exists (drop k p). cbn. by rewrite take_drop.
  - destruct (fs !! q) as [[|b]|] eqn:E'; [| |done].
    + by rewrite (create_dirs_keeps _ _ _ _ _ H E') in E.
    + by rewrite (proj2 (create_dirs_file _ _ _ _ _ H) E') in E.
Qed.

Lemma fs_read_lookup fs p b : fs_read fs p = Ok b → fs !! p = Some (FsFile b).
Proof. unfold fs_read. destruct (negb _); [|done]. destruct (fs !! p) as [[|]|]; [done| |done]. by intros [= ->]. Qed.

Lemma canonicalize_id fs p q : canonicalize fs p = Ok q → q = p.
Proof.
  unfold canonicalize. destruct (negb _); [|done]. destruct (fs !! p); [by intros [= ->]|].
  case_decide; [by intros [= ->]|done].
Qed.

Lemma fs_write_ok fs p b fs' : fs_write fs p b = Ok fs' → fs' = <[p := FsFile b]> fs ∧ fs !! p ≠ Some FsDir.
Proof.
  unfold fs_write. destruct (parent_dir fs p); cbn [res_bind]; [|done..].
  destruct (fs !! p) as [[|]|]; [done| |]; by intros [= <-].
Qed.

Lemma length_append a b : String.length (a +:+ b) = (String.length a + String.length b)%nat.
Proof. induction a as [|c a IH]; [done|]. change (S (String.length (a +:+ b)) = S (String.length a + String.length b)). by rewrite IH. Qed.

Lemma append_inj_r a b s : a +:+ s = b +:+ s → a = b.
Proof.
  intros H. assert (Hl : String.length a = String.length b).
  { apply (f_equal String.length) in H. rewrite !length_append in H. lia. }
  revert b H Hl. induction a as [|c a IH]; intros [|c' b] H Hl; try done. cbn in *. injection H as -> H.
  f_equal. apply IH; [done|lia].
Qed.

(** ** Commands *)

Lemma fs_bind_ok {A B} (m : FsM A) (k : A → FsM B) fs fs' b :
  fs_bind m k fs = (fs', Ok b) ↔ ∃ fs1 a, m fs = (fs1, Ok a) ∧ k a fs1 = (fs', Ok b).
Proof. unfold fs_bind. destruct (m fs) as [fs1 [a|e|]]; naive_solver. Qed.

Lemma pure_step_ok {A} (r : result A CliError) fs fs' a : pure_step r fs = (fs', Ok a) ↔ fs' = fs ∧ r = Ok a.
Proof. unfold pure_step. naive_solver. Qed.

Lemma look_ok {A} (op : Fs → result A FsError) err fs fs' a :
  look op err fs = (fs', Ok a) ↔ fs' = fs ∧ op fs = Ok a.
Proof. unfold look. destruct (op fs); cbn; naive_solver. Qed.

Lemma change_ok {E} (op : Fs → result Fs E) err fs fs' u : change op err fs = (fs', Ok u) ↔ op fs = Ok fs'.
Proof. unfold change. destruct u, (op fs); naive_solver. Qed.

Lemma read_to_string_ok p err fs fs' raw :
  read_to_string p err fs = (fs', Ok raw) ↔ fs' = fs ∧ fs_read fs p = Ok raw ∧ utf8_valid raw = true.
Proof.
  unfold read_to_string. rewrite fs_bind_ok. setoid_rewrite look_ok. setoid_rewrite pure_step_ok. split.
  - intros (fs1 & a & [-> Ea] & -> & H). destruct (utf8_valid a) eqn:E; [|done]. by injection H as <-.
  - intros (-> & Er & Hu). exists fs, raw. rewrite Hu. done.
Qed.

(** Takes the first step of a successful command apart. *)
Ltac cmd_in H x fs E :=
  apply fs_bind_ok in H as (fs & x & E & H); cbn beta in H;
  first [apply look_ok in E as [-> E] | apply pure_step_ok in E as [-> E] | apply read_to_string_ok in E as (-> & E & ?)
        |apply change_ok in E | idtac].

Section CommitSpec.
Context {HF : HashFns} {JI : JsonInputs} {JO : JsonOutputs} {HX : HexOps}.

Definition witness_path (output : Path) (leaf : bytes) : Path := output ++ ["witnesses"%string; witness_name leaf].

Lemma safe_child_ok output leaf fs fs' p :
  safe_child output (witness_path output leaf) fs = (fs', Ok p) → fs' = fs ∧ p = witness_path output leaf.
Proof.
  unfold safe_child. intros H. cmd_in H parent fs1 E1. cmd_in H parent' fs2 E2. cmd_in H name fs3 E3.
  apply pure_step_ok in H as [-> H].
  assert (Hw : witness_path output leaf = (output ++ ["witnesses"%string]) ++ [witness_name leaf])
    by (unfold witness_path; by rewrite <- app_assoc).
  destruct (bool_decide _); [|done]. rewrite Hw, removelast_last in E1. injection E1 as <-.
  apply canonicalize_id in E2 as ->. rewrite Hw, last_snoc in E3. injection E3 as <-.
  destruct (starts_with _ _); [|done]. injection H as <-. done.
Qed.

(** Each leaf's file holds the witness built at its index; the file of a leaf
    is only written for that leaf. *)
Lemma write_witnesses_ok (HXL : HexLaws HX) output tree idx leaves fs fs' u :
  write_witnesses output tree idx leaves fs = (fs', Ok u) →
  (∀ leaf, leaf ∈ leaves → ∃ i w, idx !! leaf = Some i ∧ build_at_index tree i = Some (Some w) ∧
    fs' !! witness_path output leaf = Some (FsFile (json_witness w))) ∧
  (∀ q, (∀ leaf, leaf ∈ leaves → q ≠ witness_path output leaf) → fs' !! q = fs !! q).
Proof.
  assert (Hinj : ∀ x y, witness_path output x = witness_path output y → x = y).
  { intros x y E. apply app_inv_head in E. injection E as E. unfold witness_name in E.
    apply append_inj_r in E. apply (f_equal hex_decode) in E. rewrite !hex_roundtrip in E. by injection E. }
  revert fs. induction leaves as [|leaf leaves IH]; intros fs H; cbn [write_witnesses] in H.
  { apply pure_step_ok in H as [-> _]. split; [by intros ? ?%elem_of_nil|done]. }
  cmd_in H i fs1 E1. cmd_in H w fs2 E2. cmd_in H target fs3 E3. apply safe_child_ok in E3 as [-> ->].
  cmd_in H u' fs4 E4. apply fs_write_ok in E4 as [-> _]. apply IH in H as [Hw Hf].
  destruct (idx !! leaf) as [i'|] eqn:Ei; [|done]. injection E1 as <-.
  destruct (build_at_index tree i') as [[w'|]|] eqn:Ew; [|done..]. cbn in E2. injection E2 as <-. split.
  - intros l [->|Hl]%elem_of_cons; [|by apply Hw].
    destruct (decide (leaf ∈ leaves)) as [Hin|Hnin]; [by apply Hw|].
    exists i', w'. split; [done|]. split; [done|]. rewrite Hf; [by rewrite lookup_insert_eq|].
    intros l Hl He%Hinj. by subst.
  - intros q Hq. rewrite Hf; [|intros; apply Hq; by right].
    rewrite lookup_insert_ne; [done|]. intros He. by apply (Hq leaf); [left|].
Qed.

Lemma leaf_index_map_lookup i leaves m h :
  leaf_index_map i leaves m !! h =
  match m !! h with
  | Some x => Some x
  | None => (λ p, (i + Z.of_nat p) mod 2 ^ 32) <$> position h leaves
  end.
Proof.
  revert i m. induction leaves as [|y leaves IH]; intros i m; cbn [leaf_index_map position]; [by destruct (m !! h)|].
  rewrite IH. destruct (decide (y = h)) as [->|Hne].
  - destruct (m !! h) as [x|] eqn:E; [by rewrite E|]. rewrite lookup_insert_eq. cbn. by rewrite Z.add_0_r.
  - assert (Hm : (match m !! y with Some _ => m | None => <[y := i mod 2 ^ 32]> m end) !! h = m !! h).
    { destruct (m !! y); [done|]. by rewrite lookup_insert_ne. }
    rewrite Hm. destruct (m !! h); [done|]. destruct (position h leaves); cbn [fmap option_fmap option_map]; [|done].
    do 2 f_equal. lia.
Qed.

(** The index map finds every input leaf, and its witness verifies. *)
Lemma indexed_witness leaves t r leaf :
  build leaves = Some t → root t = Some r → (log_depth (length leaves) < 32)%nat → leaf ∈ leaves →
  ∃ i w, leaf_index_map 0 (mt_leaves t) ∅ !! leaf = Some i ∧ build_at_index t i = Some (Some w) ∧
    iw_leaf w = leaf ∧ verify w r = true.
Proof.
  intros Hb Hr Hd Hl. destruct (build_grown leaves) as (t' & E & Hg). rewrite Hb in E. injection E as <-.
  rewrite leaf_index_map_lookup, lookup_empty. pose proof (position_spec leaf (mt_leaves t)) as Hp.
  destruct (position leaf (mt_leaves t)) as [p|].
  - destruct Hp as [Hp _]. assert (Hp' := Hp). rewrite <- (Nat2Z.id p), (proj1 Hg) in Hp'.
    pose proof (grown_index_bound _ _ _ _ _ _ Hg (Nat2Z.is_nonneg p) Hp') as Hlt.
    assert (Z.of_nat p < 2 ^ 32) by (eapply Z.lt_le_trans; [exact Hlt|]; apply Z.pow_le_mono_r; lia).
    cbn [fmap option_fmap option_map]. rewrite Z.add_0_l, Z.mod_small by lia.
    pose proof (build_at_index_cases _ _ _ (Z.of_nat p) _ Hg Hd Hr (Nat2Z.is_nonneg p)) as Hc.
    destruct (build_at_index t (Z.of_nat p)) as [[w|]|] eqn:Ew.
    + destruct Hc as (Hw & _ & Hv). rewrite Nat2Z.id, Hp in Hw. injection Hw as Hw. exists (Z.of_nat p), w. rewrite <- Hw. split_and!; try done.
    + apply lookup_lt_Some in Hp. unfold leaf_count in Hc. lia.
    + done.
  - destruct Hp. rewrite (proj1 Hg). unfold pad_to. apply elem_of_app. left. by apply stable_sort_elem.
Qed.

(** What a successful run of [commit] did. *)
Lemma commit_ok (HXL : HexLaws HX) input output st max fs fs' rec :
  commit input output st max fs = (fs', Ok rec) →
  ∃ raw leaves n t r,
    fs !! input = Some (FsFile raw) ∧ Z.of_nat (length raw) <= max ∧ build_leaves st raw = Ok (leaves, n) ∧
    build leaves = Some t ∧ root t = Some r ∧
    rec = {| cm_sub_tree := st; cm_input_digest := blake3_256 raw; cm_root := r; cm_leaf_count := leaf_count t;
             cm_tree_depth := depth t; cm_item_count := n |} ∧
    fs' !! (output ++ ["commitment.json"%string]) = Some (FsFile (json_commitment rec)) ∧
    (∀ leaf, leaf ∈ leaves → (log_depth (length leaves) < 32)%nat →
      ∃ w, fs' !! witness_path output leaf = Some (FsFile (json_witness w)) ∧ iw_leaf w = leaf ∧ verify w r = true) ∧
    (∀ q, ¬ output `prefix_of` q → ¬ q `prefix_of` output → fs' !! q = fs !! q).
Proof.
  unfold commit. intros H. cmd_in H inp fs0 E1. apply canonicalize_id in E1 as ->. cmd_in H len fs0 E2. cmd_in H u0 fs0 E3.
  cmd_in H u1 fs1 E4. cmd_in H out fs0 E5. apply canonicalize_id in E5 as ->. cmd_in H raw fs0 E6. cmd_in H ln fs0 E7.
  destruct ln as [leaves n]. cmd_in H t fs0 E8. cmd_in H u2 fs2 E9. cmd_in H r fs0 E10. cmd_in H u3 fs3 E11.
  apply fs_bind_ok in H as (fs4 & u4 & E12 & H). apply pure_step_ok in H as [-> H]. injection H as <-.
  apply fs_read_lookup, (create_dirs_file _ _ _ _ _ E4) in E6. unfold metadata_len in E2. rewrite E6 in E2. injection E2 as <-.
  destruct (Z.leb_spec (Z.of_nat (length raw)) max); [|done].
  destruct (build leaves) as [t'|] eqn:Eb; [|done]. cbn in E8. injection E8 as ->.
  destruct (root t) as [r'|] eqn:Er; [|done]. cbn in E10. injection E10 as ->.
  apply fs_write_ok in E11 as [-> _]. apply (write_witnesses_ok HXL) in E12 as [Hw Hf].
  exists raw, leaves, n, t, r. split_and!; try done.
  - rewrite Hf; [by rewrite lookup_insert_eq|]. intros leaf _ He. by apply app_inv_head in He.
  - intros leaf Hl Hd. destruct (indexed_witness leaves t r leaf) as (i & w & Hi & Hbi & Hwl & Hv); [done..|].
    destruct (Hw leaf Hl) as (i' & w' & Hi' & Hbi' & Hfile). rewrite Hi in Hi'. injection Hi' as <-.
    rewrite Hbi in Hbi'. injection Hbi' as <-. by exists w.
  - intros q Hq1 Hq2. assert (Hne : ∀ x, q ≠ output ++ x) by (intros x ->; apply Hq1; by exists x).
    rewrite Hf by (intros; apply Hne). rewrite lookup_insert_ne by (intros He; by apply (Hne ["commitment.json"%string])).
    rewrite (create_dirs_outside _ _ _ _ E9); [by apply (create_dirs_outside _ _ _ _ E4)|].
    intros Hk. by destruct (prefix_weak_total q output _ Hk (prefix_app_r _ _ _ (reflexivity _))).
Qed.

(** What [omega-commitment commit] leaves behind when it succeeds: the
    record of the input it read, at most [max_input_bytes] long, with the root
    of the tree over its leaf hashes; that record in [commitment.json]; for
    every leaf of a tree of depth below 32 a file with a witness for that leaf
    that verifies against the recorded root; and no change outside the
    directories on the way to the output directory and below it. *)
Theorem commit_spec (HXL : HexLaws HX) input output st max fs fs' rec
    (Hc : commit input output st max fs = (fs', Ok rec)) :
  ∃ raw leaves, fs !! input = Some (FsFile raw) ∧ Z.of_nat (length raw) <= max ∧
    build_leaves st raw = Ok (leaves, cm_item_count rec) ∧ cm_input_digest rec = blake3_256 raw ∧
    (build leaves ≫= root) = Some (cm_root rec) ∧
    fs' !! (output ++ ["commitment.json"%string]) = Some (FsFile (json_commitment rec)) ∧
    (∀ leaf, leaf ∈ leaves → (log_depth (length leaves) < 32)%nat →
      ∃ w, fs' !! witness_path output leaf = Some (FsFile (json_witness w)) ∧ iw_leaf w = leaf ∧
        verify w (cm_root rec) = true) ∧
    (∀ q, ¬ output `prefix_of` q → ¬ q `prefix_of` output → fs' !! q = fs !! q).
Proof.
  apply (commit_ok HXL) in Hc as (raw & leaves & n & t & r & H1 & H2 & H3 & H4 & H5 & -> & H6 & H7 & H8).
  exists raw, leaves. split_and!; try done. by rewrite H4.
Qed.

(** ** Success *)

Lemma look_run {A B : Type} (op : Fs → result A FsError) err (k : A → FsM B) fs a :
  op fs = Ok a → fs_bind (look op err) k fs = k a fs.
Proof. intros E. unfold fs_bind, look. by rewrite E. Qed.

Lemma pure_run {A B : Type} (r : result A CliError) (k : A → FsM B) fs a :
  r = Ok a → fs_bind (pure_step r) k fs = k a fs.
Proof. by intros ->. Qed.

Lemma change_run {E B : Type} (op : Fs → result Fs E) err (k : unit → FsM B) fs fs' :
  op fs = Ok fs' → fs_bind (change op err) k fs = k tt fs'.
Proof. intros H. unfold fs_bind, change. by rewrite H. Qed.

Lemma cmd_run {A B : Type} (m : FsM A) (k : A → FsM B) fs fs' a :
  m fs = (fs', Ok a) → fs_bind m k fs = k a fs'.
Proof. intros H. unfold fs_bind. by rewrite H. Qed.

(** A path that exists has only directories above it. *)
Lemma wf_fs_above fs p q x : wf_fs fs → q ≠ [] → p ≠ [] → fs !! (p ++ q) = Some x → fs !! p = Some FsDir.
Proof.
  intros Hfs Hq Hp. revert x. induction q as [|c q IH] using rev_ind; intros x Hx; [done|].
  rewrite app_assoc in Hx. destruct (Hfs _ _ _ Hx) as [He|He].
  - by destruct p.
  - destruct (decide (q = [])) as [->|]; [by rewrite app_nil_r in He|]. by apply (IH n FsDir).
Qed.

Lemma below_file_exists fs acc rest x : wf_fs fs → fs !! (acc ++ rest) = Some x → below_file fs acc rest = false.
Proof.
  intros Hfs. revert acc. induction rest as [|c rest IH]; intros acc Hx; [done|].
  destruct rest as [|c' rest]; [done|]. cbn [below_file]. rewrite cons_middle, app_assoc in Hx.
  rewrite (wf_fs_above fs (acc ++ [c]) (c' :: rest) x Hfs); [by apply IH|done|by destruct acc|done].
Qed.

Lemma create_dirs_wf fs acc rest fs' :
  wf_fs fs → acc = [] ∨ fs !! acc = Some FsDir → create_dirs fs acc rest = Ok fs' → wf_fs fs'.
Proof.
  revert fs acc. induction rest as [|c rest IH]; intros fs acc Hfs Ha; cbn [create_dirs]; [by intros [= <-]|].
  destruct (fs !! (acc ++ [c])) as [[|b]|] eqn:E; [|done|]; intros H.
  - apply (IH _ _ Hfs (or_intror E) H).
  - eapply (IH _ (acc ++ [c])); [|right; by rewrite lookup_insert_eq|exact H].
    intros p k x Hx. destruct (decide (acc ++ [c] = p ++ [k])) as [He|Hne].
    + apply app_inj_tail in He as [-> ->]. destruct Ha as [|Ha]; [by left|]. right.
      rewrite lookup_insert_ne; [done|]. intros Hl%(f_equal length). rewrite length_app in Hl. cbn in Hl. lia.
    + rewrite lookup_insert_ne in Hx by done. destruct (Hfs _ _ _ Hx) as [|Hd]; [by left|]. right.
      rewrite lookup_insert_ne; [done|]. congruence.
Qed.

Lemma fs_write_wf fs p b fs' : wf_fs fs → fs_write fs p b = Ok fs' → wf_fs fs'.
Proof.
  intros Hfs H. assert (Hp : removelast p = [] ∨ fs !! removelast p = Some FsDir).
  { unfold fs_write, parent_dir in H. case_decide; [by left|]. destruct (fs !! removelast p) as [[|]|]; [by right|done|].
    by destruct (below_file _ _ _). }
  apply fs_write_ok in H as [-> Hd]. intros q c x Hx. destruct (decide (p = q ++ [c])) as [->|Hne].
  - rewrite removelast_last in Hp. destruct Hp as [|Hp]; [by left|]. right.
    rewrite lookup_insert_ne; [done|]. intros Hl%(f_equal length). rewrite length_app in Hl. cbn in Hl. lia.
  - rewrite lookup_insert_ne in Hx by done. destruct (Hfs _ _ _ Hx) as [|Hq]; [by left|]. right.
    rewrite lookup_insert_ne; [done|]. congruence.
Qed.

Lemma canonicalize_exists fs p x : wf_fs fs → fs !! p = Some x → canonicalize fs p = Ok p.
Proof. intros Hfs Hx. unfold canonicalize. by rewrite (below_file_exists fs [] p x), Hx. Qed.

Lemma fs_read_exists fs p b : wf_fs fs → fs !! p = Some (FsFile b) → fs_read fs p = Ok b.
Proof. intros Hfs Hx. unfold fs_read. by rewrite (below_file_exists fs [] p (FsFile b)), Hx. Qed.

Lemma fs_write_child fs p c b :
  fs !! p = Some FsDir → fs !! (p ++ [c]) ≠ Some FsDir → fs_write fs (p ++ [c]) b = Ok (<[p ++ [c] := FsFile b]> fs).
Proof.
  intros Hp Hc. unfold fs_write, parent_dir. rewrite removelast_last, Hp.
  replace (if decide (p = []) then Ok () else Ok ()) with (@Ok unit FsError ()) by by case_decide.
  cbn [res_bind]. by destruct (fs !! (p ++ [c])) as [[|]|].
Qed.

(** A new directory in an existing one. *)
Lemma create_dir_child fs p c : wf_fs fs → fs !! p = Some FsDir → fs !! (p ++ [c]) = None →
  create_dir_all fs (p ++ [c]) = Ok (<[p ++ [c] := FsDir]> fs).
Proof.
  intros Hfs Hp Hc. unfold create_dir_all. cut (∀ acc rest, acc ++ rest = p → create_dirs fs acc (rest ++ [c]) =
    Ok (<[p ++ [c] := FsDir]> fs)); [intros H; by apply (H [] p)|].
  intros acc rest. revert acc. induction rest as [|k rest IH]; intros acc E; cbn [app create_dirs].
  - rewrite app_nil_r in E. subst acc. by rewrite Hc.
  - rewrite cons_middle, app_assoc in E. rewrite <- E in Hp. destruct (decide (rest = [])) as [->|Hr].
    + rewrite app_nil_r in Hp. rewrite Hp. by apply IH.
    + rewrite (wf_fs_above fs (acc ++ [k]) rest FsDir Hfs Hr); [by apply IH|by destruct acc|done].
Qed.

Lemma safe_child_run output leaf fs :
  wf_fs fs → fs !! (output ++ ["witnesses"%string]) = Some FsDir →
  safe_child output (witness_path output leaf) fs = (fs, Ok (witness_path output leaf)).
Proof.
  intros Hfs Hd. unfold safe_child, witness_path, starts_with.
  replace (output ++ ["witnesses"%string; witness_name leaf])
    with ((output ++ ["witnesses"%string]) ++ [witness_name leaf]) by by rewrite <- app_assoc.
  rewrite (pure_run _ _ _ (output ++ ["witnesses"%string])).
  2: { rewrite bool_decide_eq_true_2 by (by intros [_ ?]%app_eq_nil). by rewrite removelast_last. }
  rewrite (look_run _ _ _ _ _ (canonicalize_exists _ _ _ Hfs Hd)), (pure_run _ _ _ (witness_name leaf)) by by rewrite last_snoc.
  unfold pure_step. by rewrite bool_decide_eq_true_2 by (rewrite <- app_assoc; by eexists).
Qed.

Lemma write_witnesses_total output tree idx leaves fs :
  wf_fs fs → fs !! (output ++ ["witnesses"%string]) = Some FsDir →
  (∀ leaf, fs !! witness_path output leaf ≠ Some FsDir) →
  (∀ leaf, leaf ∈ leaves → ∃ i w, idx !! leaf = Some i ∧ build_at_index tree i = Some (Some w)) →
  ∃ fs', write_witnesses output tree idx leaves fs = (fs', Ok ()).
Proof.
  assert (Hw : ∀ leaf, witness_path output leaf = (output ++ ["witnesses"%string]) ++ [witness_name leaf])
    by (intros; unfold witness_path; by rewrite <- app_assoc).
  revert fs. induction leaves as [|leaf leaves IH]; intros fs Hfs Hd Hn Hi; cbn [write_witnesses]; [by eexists|].
  destruct (Hi leaf) as (i & w & Ei & Ew); [left|]. assert (Hnew := Hn leaf). rewrite Hw in Hnew.
  rewrite (pure_run _ _ _ i) by by rewrite Ei. rewrite (pure_run _ _ _ w) by by rewrite Ew.
  fold (witness_path output leaf). rewrite (cmd_run _ _ _ fs (witness_path output leaf)) by by apply safe_child_run.
  rewrite Hw, (change_run _ _ _ _ _ (fs_write_child _ _ _ _ Hd Hnew)).
  apply IH.
  - eapply fs_write_wf; [exact Hfs|]. by apply fs_write_child.
  - rewrite lookup_insert_ne; [done|]. intros E%(f_equal length). rewrite !length_app in E. cbn in E. lia.
  - intros leaf'. destruct (decide ((output ++ ["witnesses"%string]) ++ [witness_name leaf] = witness_path output leaf')) as [<-|Hne].
    + by rewrite lookup_insert_eq.
    + by rewrite lookup_insert_ne.
  - intros l Hl. apply Hi. by right.
Qed.

Lemma commit_runs input output st max fs raw leaves n
    (Hfs : wf_fs fs) (Hi : fs !! input = Some (FsFile raw)) (Hm : Z.of_nat (length raw) <= max)
    (Hu : utf8_valid raw = true) (Hl : build_leaves st raw = Ok (leaves, n))
    (Hd : (log_depth (length leaves) < 32)%nat) (Hne : output ≠ [])
    (Ho : is_ok (create_dir_all fs output) = true) (Hfresh : ∀ q, q ≠ [] → fs !! (output ++ q) = None) :
  is_ok (commit input output st max fs).2 = true.
Proof.
  destruct (create_dir_all fs output) as [fs1| |] eqn:E1; [|done..]. clear Ho.
  assert (Hfs1 : wf_fs fs1) by (eapply create_dirs_wf; [exact Hfs|by left|exact E1]).
  assert (Hd1 : fs1 !! output = Some FsDir) by by apply (create_dirs_creates _ _ _ _ E1).
  assert (Hi1 : fs1 !! input = Some (FsFile raw)) by by apply (create_dirs_file _ _ _ _ _ E1).
  assert (Hn1 : ∀ q, q ≠ [] → fs1 !! (output ++ q) = None).
  { intros q Hq. rewrite (create_dirs_outside _ _ _ _ E1); [by apply Hfresh|].
    intros [k Hk]. rewrite <- app_assoc, <- (app_nil_r output) in Hk at 1. apply app_inv_head in Hk. by destruct q. }
  destruct (build_grown leaves) as (t & Et & Hg). pose proof (grown_root _ _ _ _ Hg) as Hr.
  set (fs2 := <[output ++ ["witnesses"%string] := FsDir]> fs1).
  assert (E2 : create_dir_all fs1 (output ++ ["witnesses"%string]) = Ok fs2) by by apply create_dir_child, Hn1.
  assert (Hfs2 : wf_fs fs2) by (eapply create_dirs_wf; [exact Hfs1|by left|exact E2]).
  assert (Hd2 : fs2 !! output = Some FsDir).
  { unfold fs2. rewrite lookup_insert_ne; [done|]. intros E%(f_equal length). rewrite length_app in E. cbn in E. lia. }
  assert (Hc2 : fs2 !! (output ++ ["commitment.json"%string]) = None).
  { unfold fs2. rewrite lookup_insert_ne; [by apply Hn1|]. by intros E%app_inv_head. }
  unfold commit. rewrite (look_run _ _ _ _ _ (canonicalize_exists _ _ _ Hfs Hi)).
  rewrite (look_run _ _ _ _ (Z.of_nat (length raw))) by (unfold metadata_len; by rewrite Hi).
  rewrite (pure_run _ _ _ tt) by by rewrite (proj2 (Z.leb_le _ _) Hm).
  rewrite (change_run _ _ _ _ _ E1), (look_run _ _ _ _ _ (canonicalize_exists _ _ _ Hfs1 Hd1)).
  rewrite (cmd_run _ _ _ fs1 raw) by (apply read_to_string_ok; split_and!; [done|by apply fs_read_exists|done]).
  rewrite (pure_run _ _ _ _ Hl), (pure_run _ _ _ t) by by rewrite Et. rewrite (change_run _ _ _ _ _ E2).
  erewrite pure_run by by rewrite Hr. unfold persist.
  erewrite change_run by (apply fs_write_child; [done|by rewrite Hc2]).
  edestruct (write_witnesses_total output t (leaf_index_map 0 (mt_leaves t) ∅) leaves) as [fs' Ew];
    [| | | |by erewrite cmd_run by exact Ew].
  - eapply fs_write_wf; [exact Hfs2|]. apply fs_write_child; [done|]. by rewrite Hc2.
  - unfold fs2. rewrite lookup_insert_ne by (by intros E%app_inv_head). by rewrite lookup_insert_eq.
  - intros leaf. unfold witness_path. rewrite lookup_insert_ne by (by intros E%app_inv_head).
    unfold fs2. rewrite lookup_insert_ne by (by intros E%app_inv_head). by rewrite Hn1.
  - intros leaf Hleaf. destruct (indexed_witness leaves t _ leaf Et Hr Hd Hleaf) as (i & w & ? & ? & _). eauto.
Qed.

(** [omega-commitment commit] succeeds on every input it can read: a file
    of at most [max_input_bytes], valid UTF-8, that parses into fewer than
    [2^31] leaves, with an output directory that can be created and has
    nothing below it. *)
Theorem commit_succeeds input output st max fs raw leaves n
    (Hfs : wf_fs fs) (Hi : fs !! input = Some (FsFile raw)) (Hm : Z.of_nat (length raw) <= max)
    (Hu : utf8_valid raw = true) (Hl : build_leaves st raw = Ok (leaves, n))
    (Hd : (log_depth (length leaves) < 32)%nat) (Hne : output ≠ [])
    (Ho : is_ok (create_dir_all fs output) = true) (Hfresh : ∀ q, q ≠ [] → fs !! (output ++ q) = None) :
  is_ok (commit input output st max fs).2 = true.
Proof. by apply (commit_runs _ _ _ _ _ raw leaves n). Qed.

End CommitSpec.

(** ** Chains of commands *)

Section Chains.
Context {HF : HashFns} {JI : JsonInputs} {JO : JsonOutputs} {HX : HexOps}.

Lemma bundle_verify_assembled b dir : assemble dir = Ok b → bundle_verify b dir = Ok ().
Proof.
  intros E. unfold bundle_verify. rewrite E. cbn [res_bind].
  by rewrite !bool_decide_eq_true_2, Nat.eqb_refl, item_count_mismatch_refl, Z.eqb_refl by done.
Qed.

Lemma fs_read_other fs p q b fs' raw :
  wf_fs fs → fs_write fs p b = Ok fs' → p ≠ q → fs_read fs q = Ok raw → fs_read fs' q = Ok raw.
Proof.
  intros Hfs Hw Hne Hr%fs_read_lookup. pose proof (fs_write_wf _ _ _ _ Hfs Hw) as Hfs'.
  apply fs_read_exists; [done|]. apply fs_write_ok in Hw as [-> _]. by rewrite lookup_insert_ne.
Qed.

Lemma assemble_inputs_ext d1 d2 b : (∀ st raw, d1 st = Some raw → d2 st = Some raw) → assemble d1 = Ok b → assemble d2 = Ok b.
Proof.
  intros Hd. unfold assemble. intros H. apply res_bind_ok in H as (l & El & H). apply res_mapM_ok in El.
  assert (El2 : res_mapM (assemble_one d2) ALL = Ok l); [|rewrite El2; done].
  apply res_mapM_ok. eapply Forall2_impl; [exact El|]. intros st r Hr. cbn beta in *. unfold assemble_one in *.
  destruct (d1 st) as [raw|] eqn:E; [|done]. by rewrite (Hd _ _ E).
Qed.

(** C31: A bundle that [omega-bundle assemble] has written verifies: when the
    output is not one of the seven inputs, [omega-bundle verify] reads the file
    back, accepts it against the same directory and changes nothing. *)
Theorem assemble_then_verify (JL : JsonLaws JI JO) input_dir output fs fs' b
    (Hfs : wf_fs fs) (Hdir : is_Some (fs !! input_dir))
    (Hout : ∀ st, output ≠ input_dir ++ [filename st])
    (Ha : cmd_assemble input_dir output fs = (fs', Ok b)) :
  cmd_verify output input_dir fs' = (fs', Ok b).
Proof.
  unfold cmd_assemble in Ha. cmd_in Ha dir fs0 E1. apply canonicalize_id in E1 as ->.
  apply fs_bind_ok in Ha as (fs1 & b' & E2 & Ha). injection E2 as <- E2.
  cmd_in Ha u fs2 E3. apply pure_step_ok in Ha as [-> Hb]. injection Hb as ->.
  destruct (assemble _) as [b'| |] eqn:Eb; [|done..]. injection E2 as ->.
  pose proof (fs_write_wf _ _ _ _ Hfs E3) as Hfs'. pose proof (fs_write_ok _ _ _ _ E3) as [Hw Hnd].
  unfold cmd_verify. rewrite (cmd_run _ _ _ fs2 (json_bundle b)).
  2: { apply read_to_string_ok. split; [done|]. split; [|apply bundle_utf8].
       apply fs_read_exists; [done|]. by rewrite Hw, lookup_insert_eq. }
  rewrite (pure_run _ _ _ b) by by rewrite bundle_roundtrip.
  assert (Hdir' : is_Some (fs2 !! input_dir)).
  { rewrite Hw. destruct (decide (output = input_dir)) as [->|]; [by rewrite lookup_insert_eq|by rewrite lookup_insert_ne]. }
  destruct Hdir' as [x Hx]. rewrite (look_run _ _ _ _ _ (canonicalize_exists _ _ _ Hfs' Hx)).
  rewrite (cmd_run _ _ _ fs2 ()); [done|]. rewrite bundle_verify_assembled; [done|].
  eapply assemble_inputs_ext; [|exact Eb]. intros st raw. unfold input_files.
  destruct (fs_read fs _) as [raw'| |] eqn:Er; [|done..]. by rewrite (fs_read_other _ _ _ _ _ _ Hfs E3 (Hout st) Er).
Qed.

Context {CO : CborOps} {MO : CborMapOps}.

(** C10: From a CBOR snapshot to witnesses.  When [omega-ingest utxo] and then
    [omega-commitment commit] succeed, the commitment counts the entries of
    the snapshot, and every entry's UTxO encodes to a leaf for which a witness
    file was written that verifies against the committed root. *)
Theorem ingest_then_commit (JL : JsonLaws JI JO) (HXL : HexLaws HX) size cbor_path json_path output max fs fs1 fs2 us rec
    (Hi : run_utxo size cbor_path json_path fs = (fs1, Ok us))
    (Hc : commit json_path output SUtxo max fs1 = (fs2, Ok rec)) :
  ∃ cbor es, fs !! cbor_path = Some (FsFile cbor) ∧ read_snapshot cbor = Ok es ∧ us = utxo_of <$> es ∧
    cm_item_count rec = length es ∧
    ((log_depth (length es) < 32)%nat → Forall (λ e, ∃ leaf w, utxo_leaf_hash (utxo_of e) = Ok leaf ∧
      fs2 !! witness_path output leaf = Some (FsFile (json_witness w)) ∧
      iw_leaf w = leaf ∧ verify w (cm_root rec) = true) es).
Proof.
  unfold run_utxo, run_ingest in Hi. cmd_in Hi cbor fs0 E1. cmd_in Hi out fs0 E2. cmd_in Hi u fs3 E3.
  apply pure_step_ok in Hi as [-> Hi]. injection Hi as ->. apply fs_read_lookup in E1.
  destruct (ingest_utxos size cbor) as [us'| |] eqn:Eu; [|done..]. injection E2 as ->.
  apply ingest_utxos_ok in Eu as (_ & es & Ees & _ & ->). exists cbor, es. split; [done|]. split; [done|]. split; [done|].
  apply (commit_ok HXL) in Hc as (raw & leaves & n & t & r & Hraw & _ & Hl & _ & _ & -> & _ & Hw & _).
  apply fs_write_ok in E3 as [-> _]. rewrite lookup_insert_eq in Hraw. injection Hraw as <-.
  cbn [build_leaves cm_item_count cm_root] in *. unfold build_utxo_leaves in Hl. rewrite utxos_roundtrip in Hl. cbn [ok_or res_bind] in Hl.
  destruct (res_mapM utxo_leaf_hash _) as [ls| |] eqn:El; [|done..]. cbn in Hl. injection Hl as -> <-.
  rewrite length_fmap. split; [done|]. apply res_mapM_ok in El. intros Hd.
  assert (Hlen : length es = length leaves) by (rewrite <- (Forall2_length _ _ _ El); by rewrite length_fmap).
  apply list.Forall_forall. intros e He. apply list_elem_of_lookup_1 in He as [i He].
  destruct (Forall2_lookup_l _ _ _ i (utxo_of e) El) as (leaf & Hleaf & Hh); [by rewrite list_lookup_fmap, He|].
  destruct (Hw leaf) as (w & Hf & Hwl & Hv); [by eapply list_elem_of_lookup_2|by rewrite <- Hlen|].
  by exists leaf, w.
Qed.

End Chains.
