(* ===== verification/SnapshotTool.v ===== *)
(** * The snapshot tool

    [omega-utxo-snapshot/src/main.rs]: the acquisition of a whole-UTxO snapshot
    from a Cardano node.  The node behind the pallas client is a parameter,
    [CardanoNode]: what it answers may depend on every message of the session.
    A run is a function of the session and of the file system, so that the
    messages sent and the files written before a failure are kept.  The
    network magics of pallas and the JSON parser are parameters as well; the
    texts printed are kept as values ([Notice]), timing is left out. *)

From S2P Require Import Prelude Files Text Serde Hash Tree Leaves Witness Bundle Cbor Ingest IngestSpec Cli CliSpec.
From Stdlib Require Import ZArith Lia List String.
From stdpp Require Import base decidable strings gmap list.

Local Open Scope Z_scope.

Inductive Point : Type := Origin | Specific (slot : Z) (hash : bytes).

Inductive LsqMessage : Type :=
| Connect (socket : Path) (magic : Z)
| Acquire (target : option Point)
| GetChainPoint
| GetUTxOWhole (era : Z)
| SendRelease
| SendDone.

(** The answers of the node, after the messages of the session up to and
    including the one that is answered. *)
Class CardanoNode := {
  node_accepts : list LsqMessage → bool;
  node_point : list LsqMessage → option Point;
  node_utxo : list LsqMessage → option bytes
}.

Class SnapshotInputs := {
  MAINNET_MAGIC : Z;
  PREVIEW_MAGIC : Z;
  PREPROD_MAGIC : Z;
  parse_manifest : bytes → option SnapshotManifest
}.

Record Args := {
  ar_socket : Path;
  ar_network : string;
  ar_era : Z;
  ar_out : Path;
  ar_manifest : option Path;
  ar_snapshot_tip : bool
}.

Inductive SnapshotError : Type :=
| BadNetwork (network : string)
| ReadManifest
| ParseManifest
| ValidateManifest (e : ManifestError)
| ConnectFailed
| AcquireFailed
| GetChainPointFailed
| QueryFailed
| ReleaseFailed
| DoneFailed
| WriteFailed.

(** What [resolve_target] prints. *)
Inductive Notice : Type :=
| Pinning (m : SnapshotManifest)
| WarnTipSelected
| WarnTipDefault.

Section Tool.
Context {CN : CardanoNode} {SI : SnapshotInputs}.

Definition parse_magic (s : string) : result Z SnapshotError :=
  if decide (s = "mainnet"%string) then Ok MAINNET_MAGIC
  else if decide (s = "preview"%string) then Ok PREVIEW_MAGIC
  else if decide (s = "preprod"%string) then Ok PREPROD_MAGIC
  else ok_or (parse_u64 s) (BadNetwork s).

Definition resolve_target (fs : Fs) (manifest_path : option Path) (snapshot_tip_flag : bool) :
    result (Notice * option Point) SnapshotError :=
  match manifest_path with
  | Some path =>
      let? raw := res_map_err (λ _, ReadManifest) (fs_read fs path) in
      guard! utf8_valid raw else ReadManifest;
      let? manifest := ok_or (parse_manifest raw) ParseManifest in
      let? _ := res_map_err ValidateManifest (manifest_validate manifest) in
      Ok (Pinning manifest, Some (Specific (sm_slot manifest) (sm_block_hash manifest)))
  | None => Ok (if snapshot_tip_flag then WarnTipSelected else WarnTipDefault, None)
  end.

(** A part of a run that talks to the node. *)
Definition SessM (A : Type) : Type := list LsqMessage → list LsqMessage * result A SnapshotError.

Definition sess_bind {A B} (m : SessM A) (k : A → SessM B) : SessM B :=
  λ ms, match m ms with
        | (ms', Ok a) => k a ms'
        | (ms', Err e) => (ms', Err e)
        | (ms', Panic) => (ms', Panic)
        end.

Definition send {A} (m : LsqMessage) (answer : list LsqMessage → option A) (err : SnapshotError) : SessM A :=
  λ ms, (ms ++ [m], ok_or (answer (ms ++ [m])) err).

Definition acked (ms : list LsqMessage) : option () := if node_accepts ms then Some () else None.

(** From [NodeClient::connect] to [send_done]: the slot of the acquired point
    and the raw response. *)
Definition session (args : Args) (magic : Z) (target : option Point) : SessM (Z * bytes) :=
  sess_bind (send (Connect (ar_socket args) magic) acked ConnectFailed) (λ _,
  sess_bind (send (Acquire target) acked AcquireFailed) (λ _,
  sess_bind (send GetChainPoint node_point GetChainPointFailed) (λ tip,
  let slot := match tip with Origin => 0 | Specific s _ => s end in
  sess_bind (send (GetUTxOWhole (ar_era args)) node_utxo QueryFailed) (λ raw,
  sess_bind (send SendRelease acked ReleaseFailed) (λ _,
  sess_bind (send SendDone acked DoneFailed) (λ _, λ ms, (ms, Ok (slot, raw)))))))).

Record Report := { rp_notice : Notice; rp_len : nat; rp_slot : Z }.

(** [main]: the messages sent, the file system and the outcome; the report
    is what the last line prints. *)
Definition main (args : Args) (fs : Fs) : list LsqMessage * Fs * result Report SnapshotError :=
  match (let? magic := parse_magic (ar_network args) in
         let? p := resolve_target fs (ar_manifest args) (ar_snapshot_tip args) in Ok (magic, p)) with
  | Ok (magic, (notice, target)) =>
      match session args magic target [] with
      | (ms, Ok (slot, raw)) =>
          match fs_write fs (ar_out args) raw with
          | Ok fs' => (ms, fs', Ok {| rp_notice := notice; rp_len := length raw; rp_slot := slot |})
          | Err _ => (ms, fs, Err WriteFailed)
          | Panic => (ms, fs, Panic)
          end
      | (ms, Err e) => (ms, fs, Err e)
      | (ms, Panic) => (ms, fs, Panic)
      end
  | Err e => ([], fs, Err e)
  | Panic => ([], fs, Panic)
  end.

(** ** Specification *)

(** The complete session. *)
Definition full_session (args : Args) (magic : Z) (target : option Point) : list LsqMessage :=
  [Connect (ar_socket args) magic; Acquire target; GetChainPoint; GetUTxOWhole (ar_era args); SendRelease; SendDone].

(** The point a manifest pins, from the text of its file. *)
Definition pinned (fs : Fs) (path : Path) (target : option Point) : Prop :=
  ∃ raw m, fs !! path = Some (FsFile raw) ∧ parse_manifest raw = Some m ∧ K_STABILITY <= stability_depth m ∧
    target = Some (Specific (sm_slot m) (sm_block_hash m)).

Lemma session_prefix args magic target ms r :
  session args magic target [] = (ms, r) →
  ms `prefix_of` full_session args magic target ∧
  (is_ok r = true → ms = full_session args magic target).
Proof.
  unfold session, sess_bind, send. cbn [app].
  do 6 (match goal with |- match ok_or ?x _ with _ => _ end = _ → _ => destruct x end; cbn [ok_or];
    [|intros [= <- <-]; split; [by eexists|done]]).
  intros [= <- <-]. split; [by exists []|done].
Qed.

Lemma session_answer args magic target ms slot raw :
  session args magic target [] = (ms, Ok (slot, raw)) →
  node_utxo (take 4 (full_session args magic target)) = Some raw ∧
  ∃ tip, node_point (take 3 (full_session args magic target)) = Some tip ∧
    slot = match tip with Origin => 0 | Specific s _ => s end.
Proof.
  unfold session, sess_bind, send. cbn [app full_session take].
  destruct (acked _); cbn [ok_or]; [|done]. destruct (acked _); cbn [ok_or]; [|done].
  destruct (node_point _) as [tip|]; cbn [ok_or]; [|done]. destruct (node_utxo _) as [raw'|]; cbn [ok_or]; [|done].
  destruct (acked _); cbn [ok_or]; [|done]. destruct (acked _); cbn [ok_or]; [|done].
  intros [= <- <- <-]. split; [done|]. by exists tip.
Qed.

Lemma resolve_target_ok fs mp tip notice target :
  resolve_target fs mp tip = Ok (notice, target) →
  match mp with
  | Some path => pinned fs path target
  | None => target = None ∧ notice = if tip then WarnTipSelected else WarnTipDefault
  end.
Proof.
  destruct mp as [path|]; cbn [resolve_target]; [|by intros [= <- <-]]. intros H.
  destruct (fs_read fs path) as [raw| |] eqn:Er; [|done..]. cbn [res_map_err res_bind] in H.
  destruct (utf8_valid raw); [|done]. destruct (parse_manifest raw) as [m|] eqn:Em; [|done].
  cbn [ok_or res_bind] in H. destruct (manifest_validate m) eqn:Ev; [|done..]. cbn in H. injection H as <- <-.
  exists raw, m. apply fs_read_lookup in Er. split_and!; [done|done| |done].
  unfold manifest_validate in Ev. by destruct (Z.ltb_spec (stability_depth m) K_STABILITY).
Qed.

(** However a run ends, the messages it sent are a prefix of connect,
    acquire, get chain point, query, release, done.  An acquisition is pinned
    to the point of a manifest at least 2160 blocks deep when a manifest is
    given, and follows the tip only when none is.  The output file is written
    only after the session has been released and closed, with the node's
    answer to the query as its contents; otherwise no file changes. *)
Theorem snapshot_session_safe (args : Args) (fs : Fs) ms fs' r
    (Hm : main args fs = (ms, fs', r)) :
  (∃ magic target, ms `prefix_of` full_session args magic target ∧
     (ms ≠ [] → match ar_manifest args with Some path => pinned fs path target | None => target = None end) ∧
     (fs' = fs ∨ ms = full_session args magic target ∧ ∃ raw,
        node_utxo (take 4 ms) = Some raw ∧ fs' = <[ar_out args := FsFile raw]> fs)) ∧
  (is_ok r = false → fs' = fs).
Proof.
  unfold main in Hm. destruct (res_bind _ _) as [[magic [notice target]]| |] eqn:E;
    [|injection Hm as <- <- <-; split; [|done]; exists 0, None; split_and!; [apply prefix_nil|done|by left]..].
  apply res_bind_ok in E as (magic' & _ & E). apply res_bind_ok in E as (p & Et & E). injection E as -> ->.
  apply resolve_target_ok in Et.
  assert (Hp : match ar_manifest args with Some path => pinned fs path target | None => target = None end)
    by (destruct (ar_manifest args); [done|by destruct Et]).
  destruct (session args magic target []) as [ms' r'] eqn:Es.
  pose proof (session_prefix _ _ _ _ _ Es) as [Hpre Hfull].
  destruct r' as [[slot raw]|e|]; [|injection Hm as <- <- <-; split; [|done]; by exists magic, target; split_and!; [|done|left]..].
  pose proof (session_answer _ _ _ _ _ _ Es) as [Hraw _]. rewrite Hfull in * by done.
  destruct (fs_write fs (ar_out args) raw) as [fs1| |] eqn:Ew; injection Hm as <- <- <-;
    (split; [exists magic, target; split_and!; [done|done|]|done]); [|by left..].
  right. split; [done|]. exists raw. split; [done|]. by apply fs_write_ok in Ew as [-> _].
Qed.

(** ** The chain to the ingestion *)

Context {HF : HashFns} {JI : JsonInputs} {JO : JsonOutputs} {CO : CborOps} {MO : CborMapOps}.

(** From the node to a list of UTxOs.  After a successful snapshot,
    [omega-ingest utxo] reads the very bytes the node answered, and what it
    lists are the entries of that answer; a response that is no snapshot is
    rejected there and leaves the files as they are. *)
Theorem snapshot_then_ingest (args : Args) (size : Z) (json_path : Path) (fs fs1 : Fs) ms rep
    (Hfs : wf_fs fs) (Hm : main args fs = (ms, fs1, Ok rep)) :
  ∃ raw, node_utxo (take 4 ms) = Some raw ∧ rp_len rep = length raw ∧
    match run_utxo size (ar_out args) json_path fs1 with
    | (fs2, Ok us) => ∃ es, read_snapshot raw = Ok es ∧ us = utxo_of <$> es ∧
        fs2 = <[json_path := FsFile (json_utxos us)]> fs1
    | (fs2, _) => fs2 = fs1
    end.
Proof.
  unfold main in Hm. destruct (res_bind _ _) as [[magic [notice target]]| |]; [|done..].
  destruct (session args magic target []) as [ms' [[slot raw]| |]] eqn:Es; [|done..].
  pose proof (session_prefix _ _ _ _ _ Es) as [_ Hfull]. pose proof (session_answer _ _ _ _ _ _ Es) as [Hraw _].
  rewrite Hfull in * by done. destruct (fs_write fs (ar_out args) raw) as [fs'| |] eqn:Ew; [|done..].
  injection Hm as <- <- <-. exists raw. split; [done|]. split; [done|].
  pose proof (fs_write_wf _ _ _ _ Hfs Ew) as Hfs'. pose proof (fs_write_ok _ _ _ _ Ew) as [Hw _].
  assert (Hr : fs_read fs' (ar_out args) = Ok raw).
  { apply fs_read_exists; [done|]. by rewrite Hw, lookup_insert_eq. }
  unfold run_utxo, run_ingest. rewrite (look_run _ _ _ _ _ Hr).
  destruct (ingest_utxos size raw) as [us| |] eqn:Ei; [|done..].
  rewrite (pure_run _ _ _ us) by done. unfold fs_bind at 1, change.
  destruct (fs_write fs' json_path (json_utxos us)) as [fs2| |] eqn:E2; [|done..]. cbn.
  apply ingest_utxos_ok in Ei as (_ & es & Ees & _ & ->). exists es. by apply fs_write_ok in E2 as [-> _].
Qed.

End Tool.
