(* ===== verification/CliExamples.v ===== *)
(** * The tools, evaluated

    Hex and a JSON of encoded [Countable] values satisfy the laws of the
    parameters of [Cli.v]; the theorems on the tools at small file systems. *)

From S2P Require Import Prelude Files Text Serde Hash Tree TreeSpec Leaves Witness Bundle BundleSpec Cbor.
From S2P Require Import Ingest IngestSpec IngestExamples Cli CliSpec SnapshotTool.
From Stdlib Require Import ZArith Lia List String Ascii.
From stdpp Require Import base decidable strings gmap list.

Local Open Scope Z_scope.

(** ** Encoded values *)

#[export] Instance Asset_eq_dec : EqDecision Asset.
Proof. solve_decision. Defined.
#[export] Instance DatumOption_eq_dec : EqDecision DatumOption.
Proof. solve_decision. Defined.
#[export] Instance ScriptLanguage_eq_dec : EqDecision ScriptLanguage.
Proof. solve_decision. Defined.
#[export] Instance ScriptRef_eq_dec : EqDecision ScriptRef.
Proof. solve_decision. Defined.
#[export] Instance Utxo_eq_dec : EqDecision Utxo.
Proof. solve_decision. Defined.
#[export] Instance TokenPolicy_eq_dec : EqDecision TokenPolicy.
Proof. solve_decision. Defined.
#[export] Instance ScriptEntry_eq_dec : EqDecision ScriptEntry.
Proof. solve_decision. Defined.
#[export] Instance DrepDelegation_eq_dec : EqDecision DrepDelegation.
Proof. solve_decision. Defined.
#[export] Instance StakeEntry_eq_dec : EqDecision StakeEntry.
Proof. solve_decision. Defined.
#[export] Instance GovernanceFact_eq_dec : EqDecision GovernanceFact.
Proof. solve_decision. Defined.
#[export] Instance BundleRecord_eq_dec : EqDecision BundleRecord.
Proof. solve_decision. Defined.

#[export] Instance Asset_countable : Countable Asset.
Proof.
  apply (inj_countable' (λ a, (asset_id a, quantity a)) (λ '(i, q), {| asset_id := i; quantity := q |})). by intros [].
Defined.

#[export] Instance DatumOption_countable : Countable DatumOption.
Proof.
  apply (inj_countable'
    (λ d, match d with DatumNone => inl () | DatumHash h => inr (inl h) | DatumInline b => inr (inr b) end)
    (λ s, match s with inl _ => DatumNone | inr (inl h) => DatumHash h | inr (inr b) => DatumInline b end)).
  by intros [].
Defined.

#[export] Instance ScriptRef_countable : Countable ScriptRef.
Proof.
  apply (inj_countable'
    (λ s, (language_tag_byte (sr_language s), sr_bytes s))
    (λ '(t, b), {| sr_language := if t =? 1 then Native else if t =? 2 then PlutusV1 else if t =? 3 then PlutusV2 else PlutusV3;
                   sr_bytes := b |})).
  by intros [[] ?].
Defined.

#[export] Instance Utxo_countable : Countable Utxo.
Proof.
  apply (inj_countable'
    (λ u, (utxo_tx_id u, output_index u, address u, value_lovelace u, assets u, datum_option u, script_ref u))
    (λ '(t, i, a, v, l, d, s), {| utxo_tx_id := t; output_index := i; address := a; value_lovelace := v;
                                  assets := l; datum_option := d; script_ref := s |})).
  by intros [].
Defined.

#[export] Instance TokenPolicy_countable : Countable TokenPolicy.
Proof.
  apply (inj_countable' (λ p, (policy_id p, first_issuance_slot p, total_supply_at_h p))
    (λ '(i, s, t), {| policy_id := i; first_issuance_slot := s; total_supply_at_h := t |})). by intros [].
Defined.

#[export] Instance ScriptEntry_countable : Countable ScriptEntry.
Proof.
  apply (inj_countable' (λ s, (script_hash s, deployment_slot s, script_size_bytes s, se_language s))
    (λ '(h, d, n, l), {| script_hash := h; deployment_slot := d; script_size_bytes := n; se_language := l |})).
  by intros [].
Defined.

#[export] Instance StakeEntry_countable : Countable StakeEntry.
Proof.
  apply (inj_countable'
    (λ s, (stake_credential_hash s, delegated_pool s, drep_tag_byte (delegated_drep s),
           match delegated_drep s with DrepKeyHash h | DrepScriptHash h => h | _ => [] end,
           rewards_lovelace s, is_pool_operator s))
    (λ '(c, p, t, h, r, o), {| stake_credential_hash := c; delegated_pool := p;
       delegated_drep := if t =? 0 then DrepNone else if t =? 1 then DrepKeyHash h else if t =? 2 then DrepScriptHash h
                         else if t =? 3 then DrepAlwaysAbstain else DrepAlwaysNoConfidence;
       rewards_lovelace := r; is_pool_operator := o |})).
  by intros [? ? [] ? ?].
Defined.

#[export] Instance GovernanceFact_countable : Countable GovernanceFact.
Proof.
  apply (inj_countable'
    (λ f, match f with
          | Treasury k v s => inl (0, k, v, s) | CcSeat k v s => inl (1, k, v, s)
          | RatifiedAction k v s => inl (2, k, v, s) | InFlightAction k v s => inl (3, k, v, s)
          | AccountState r t d p => inr (r, t, d, p)
          end)
    (λ x, match x with
          | inl (n, k, v, s) => if n =? 0 then Treasury k v s else if n =? 1 then CcSeat k v s
                                else if n =? 2 then RatifiedAction k v s else InFlightAction k v s
          | inr (r, t, d, p) => AccountState r t d p
          end)).
  by intros [].
Defined.

#[export] Instance SubTreeRecord_countable : Countable SubTreeRecord.
Proof.
  apply (inj_countable'
    (λ r, (sub_tree r, blake3_root r, sha3_root r, input_digest r, rec_leaf_count r, rec_tree_depth r, item_count r))
    (λ '(n, b, s, i, l, d, c), {| sub_tree := n; blake3_root := b; sha3_root := s; input_digest := i;
                                  rec_leaf_count := l; rec_tree_depth := d; item_count := c |})).
  by intros [].
Defined.

#[export] Instance BundleRecord_countable : Countable BundleRecord.
Proof.
  apply (inj_countable' (λ b, (schema_version b, blake3_bundle_root b, sha3_bundle_root b, sub_trees b))
    (λ '(v, b, s, l), {| schema_version := v; blake3_bundle_root := b; sha3_bundle_root := s; sub_trees := l |})).
  by intros [].
Defined.

(** ** JSON and hex *)

Fixpoint pos_text (p : positive) : bytes :=
  match p with
  | xH => [z2b 46]
  | xO p => z2b 48 :: pos_text p
  | xI p => z2b 49 :: pos_text p
  end.

Fixpoint text_pos (b : bytes) : option positive :=
  match b with
  | [] => None
  | c :: b =>
      if b2z c =? 46 then match b with [] => Some xH | _ => None end
      else if b2z c =? 48 then xO <$> text_pos b
      else if b2z c =? 49 then xI <$> text_pos b
      else None
  end.

Lemma text_pos_text p : text_pos (pos_text p) = Some p.
Proof. induction p as [p IH|p IH|]; cbn [pos_text text_pos]; [..|done]; cbn; by rewrite IH. Qed.

Lemma pos_text_utf8 p : utf8_valid (pos_text p) = true.
Proof. induction p as [p IH|p IH|]; [..|done]; cbn [pos_text utf8_valid]; by rewrite IH. Qed.

Definition print_value `{Countable A} (x : A) : bytes := pos_text (encode x).

(** An empty file is read as the value [x]. *)
Definition parse_value `{Countable A} (x : A) (b : bytes) : option A :=
  match b with [] => Some x | _ => text_pos b ≫= decode end.

Lemma parse_print_value `{Countable A} (d x : A) : parse_value d (print_value x) = Some x.
Proof.
  unfold parse_value, print_value. pose proof (text_pos_text (encode x)) as E.
  destruct (pos_text (encode x)); [done|]. rewrite E. apply decode_encode.
Qed.

Lemma print_value_utf8 `{Countable A} (x : A) : utf8_valid (print_value x) = true.
Proof. apply pos_text_utf8. Qed.

Definition hex_digit (n : Z) : Ascii.ascii := Ascii.ascii_of_nat (Z.to_nat (if n <? 10 then 48 + n else 87 + n)).

Definition hex_value (a : Ascii.ascii) : option Z :=
  let n := Z.of_nat (Ascii.nat_of_ascii a) in
  if (48 <=? n) && (n <=? 57) then Some (n - 48)
  else if (97 <=? n) && (n <=? 102) then Some (n - 87)
  else if (65 <=? n) && (n <=? 70) then Some (n - 55)
  else None.

Fixpoint hex_text (b : bytes) : string :=
  match b with
  | [] => EmptyString
  | c :: b => String (hex_digit (b2z c / 16)) (String (hex_digit (b2z c mod 16)) (hex_text b))
  end.

Fixpoint text_hex (s : string) : option bytes :=
  match s with
  | EmptyString => Some []
  | String a (String b s) =>
      hi ← hex_value a; lo ← hex_value b; rest ← text_hex s; Some (z2b (16 * hi + lo) :: rest)
  | String _ EmptyString => None
  end.

Module ExampleTools.

Import Rfc8949 Rfc8949Map.

#[export] Instance hex_ops : HexOps := {| hex_encode := hex_text; hex_decode := text_hex |}.

#[export] Instance hex_laws : HexLaws hex_ops.
Proof.
  split. cbn. intros x. induction x as [|c x IH]; [done|]. cbn [hex_text text_hex].
  assert (E : hex_value (hex_digit (b2z c / 16)) = Some (b2z c / 16) ∧
              hex_value (hex_digit (b2z c mod 16)) = Some (b2z c mod 16) ∧
              z2b (16 * (b2z c / 16) + b2z c mod 16) = c) by (by destruct c).
  destruct E as (-> & -> & Ec). cbn [mbind option_bind]. rewrite IH. cbn. by rewrite Ec.
Qed.

#[export] Existing Instance toy_hashes.

(** Headers as in the example of the bundle. *)
#[export] Instance json_in : JsonInputs := {|
  parse_utxos := parse_value [];
  parse_headers := @parse_headers ExampleBundle.toy_json;
  parse_entries _ := Some [];
  parse_policies := parse_value [];
  parse_scripts := parse_value [];
  parse_stake_entries := parse_value [];
  parse_facts := parse_value []
|}.

#[export] Instance json_out : JsonOutputs := {|
  json_commitment c := cm_root c;
  json_witness w := be_bytes 4 (iw_leaf_index w);
  json_bundle := print_value;
  parse_bundle := parse_value {| schema_version := 0; blake3_bundle_root := []; sha3_bundle_root := []; sub_trees := [] |};
  json_utxos := print_value;
  json_policies := print_value;
  json_scripts := print_value;
  json_stake_entries := print_value;
  json_facts := print_value
|}.

#[export] Instance json_laws : JsonLaws json_in json_out.
Proof. split; intros; apply parse_print_value || apply print_value_utf8. Qed.

(** ** Serde *)

Definition digest (n : Z) : bytes := replicate 32 (z2b n).

Lemma serde_roundtrip_witness :
  hex_vec_hash_deserialize (hex_vec_hash_serialize [digest 17; digest 34]) = Ok [digest 17; digest 34] ∧
  opt_hex_deserialize (opt_hex_serialize (Some (digest 170))) = Ok (Some (digest 170)) ∧
  u128_dec_deserialize (u128_dec_serialize (2 ^ 128 - 1)) = Ok (2 ^ 128 - 1).
Proof.
  apply (serde_roundtrip hex_laws [digest 17; digest 34] (Some (digest 170)) (2 ^ 128 - 1)).
  - by repeat constructor.
  - done.
  - unfold in_range. lia.
Defined.

(** ** A directory of headers *)

Local Open Scope string_scope.
Local Open Scope list_scope.

(** Three headers: the second and the third are the same. *)
Definition header_bytes : bytes := [z2b 1; z2b 2; z2b 2].

Definition headers_fs : Fs := <[["in"; "headers.json"] := FsFile header_bytes]> {[ ["in"] := FsDir ]}.

Definition header_leaves : list bytes :=
  match build_leaves SHeader header_bytes with Ok (l, _) => l | _ => [] end.

Lemma headers_wf : wf_fs headers_fs.
Proof. apply wf_fs_check. vm_compute. reflexivity. Qed.

Lemma headers_fresh q : q ≠ [] → headers_fs !! (["out"; "c"] ++ q) = None.
Proof. intros _. unfold headers_fs. cbn [app]. by rewrite lookup_insert_ne, lookup_singleton_ne. Qed.

Lemma header_leaves_ok : build_leaves SHeader header_bytes = Ok (header_leaves, 3%nat).
Proof. vm_compute. reflexivity. Qed.

Lemma header_depth : (log_depth (length header_leaves) < 32)%nat.
Proof. vm_compute. lia. Qed.

Lemma commit_succeeds_witness :
  is_ok (commit ["in"; "headers.json"] ["out"; "c"] SHeader 100 headers_fs).2 = true.
Proof.
  apply (commit_succeeds ["in"; "headers.json"] ["out"; "c"] SHeader 100 headers_fs header_bytes header_leaves 3);
    [exact headers_wf|reflexivity|cbn; lia|reflexivity|exact header_leaves_ok|exact header_depth|done|reflexivity|].
  exact headers_fresh.
Defined.

Definition commit_record (r : result CommitmentRecord CliError) : CommitmentRecord :=
  match r with
  | Ok r => r
  | _ => {| cm_sub_tree := SHeader; cm_input_digest := []; cm_root := []; cm_leaf_count := 0; cm_tree_depth := 0; cm_item_count := 0 |}
  end.

Lemma is_ok_pair (x : Fs * result CommitmentRecord CliError) : is_ok x.2 = true → x = (x.1, Ok (commit_record x.2)).
Proof. by destruct x as [? []]. Qed.

Lemma commit_spec_witness :
  let c := commit ["in"; "headers.json"] ["out"; "c"] SHeader 100 headers_fs in
  Forall (λ leaf, ∃ w, c.1 !! witness_path ["out"; "c"] leaf = Some (FsFile (json_witness w)) ∧
    iw_leaf w = leaf ∧ verify w (cm_root (commit_record c.2)) = true) header_leaves.
Proof.
  cbv zeta. edestruct (commit_spec hex_laws ["in"; "headers.json"] ["out"; "c"] SHeader 100 headers_fs)
    as (raw & leaves & H1 & _ & H3 & _ & _ & _ & H7 & _).
  { apply is_ok_pair. apply (commit_runs _ _ _ _ _ header_bytes header_leaves 3);
      [exact headers_wf|reflexivity|cbn; lia|reflexivity|exact header_leaves_ok|exact header_depth|done|reflexivity|].
    exact headers_fresh. }
  change (Some (FsFile header_bytes) = Some (FsFile raw)) in H1. assert (raw = header_bytes) as -> by congruence.
  rewrite header_leaves_ok in H3. assert (leaves = header_leaves) as -> by congruence.
  apply list.Forall_forall. intros leaf Hl. exact (H7 leaf Hl header_depth).
Defined.

(** ** A bundle *)

Definition bundle_fs : Fs :=
  foldr (λ st fs, <[["in"; filename st] := FsFile (if decide (st = StHeader) then [z2b 1; z2b 2] else [])]> fs)
    {[ ["in"] := FsDir ]} ALL.

Lemma assemble_then_verify_witness :
  let a := cmd_assemble ["in"] ["bundle.json"] bundle_fs in
  match a.2 with Ok b => cmd_verify ["bundle.json"] ["in"] a.1 = (a.1, Ok b) | _ => False end.
Proof.
  cbv zeta. assert (Hok : is_ok (cmd_assemble ["in"] ["bundle.json"] bundle_fs).2 = true) by (vm_compute; reflexivity).
  destruct (cmd_assemble ["in"] ["bundle.json"] bundle_fs) as [fs' [b| |]] eqn:E; [|done..]. cbn [fst snd].
  apply (assemble_then_verify json_laws ["in"] ["bundle.json"] bundle_fs fs' b).
  - apply wf_fs_check. vm_compute. reflexivity.
  - by eexists.
  - by intros [].
  - exact E.
Defined.

(** ** From a node to witnesses *)

Definition cbor_fs : Fs := {[ ["utxo.cbor"] := FsFile ExampleIngest.file ]}.

Definition utxos : list Utxo := [utxo_of ExampleIngest.entry1; utxo_of ExampleIngest.entry2].

Definition utxo_leaves : list bytes := match res_mapM utxo_leaf_hash utxos with Ok l => l | _ => [] end.

Lemma utxo_leaves_ok : build_leaves SUtxo (json_utxos utxos) = Ok (utxo_leaves, 2%nat).
Proof.
  unfold build_leaves, build_utxo_leaves. rewrite utxos_roundtrip. cbn [ok_or res_bind].
  assert (E : res_mapM utxo_leaf_hash utxos = Ok utxo_leaves) by (vm_compute; reflexivity). by rewrite E.
Qed.

Definition json_fs : Fs := <[["utxos.json"] := FsFile (json_utxos utxos)]> cbor_fs.

Lemma utxo_run : run_utxo 152 ["utxo.cbor"] ["utxos.json"] cbor_fs = (json_fs, Ok utxos).
Proof.
  unfold run_utxo, run_ingest. rewrite (look_run _ _ _ _ ExampleIngest.file) by reflexivity.
  rewrite (pure_run _ _ _ utxos) by by rewrite ExampleIngest.file_utxos.
  by rewrite (change_run _ _ _ _ json_fs).
Qed.

Lemma json_fs_wf : wf_fs json_fs.
Proof.
  apply (fs_write_wf cbor_fs ["utxos.json"] (json_utxos utxos)); [|done].
  apply wf_fs_check. vm_compute. reflexivity.
Qed.

Lemma ingest_then_commit_witness :
  let c := commit ["utxos.json"] ["out"] SUtxo (Z.of_nat (length (json_utxos utxos))) json_fs in
  ∃ leaf w, utxo_leaf_hash (utxo_of ExampleIngest.entry1) = Ok leaf ∧
    c.1 !! witness_path ["out"] leaf = Some (FsFile (json_witness w)) ∧
    iw_leaf w = leaf ∧ verify w (cm_root (commit_record c.2)) = true.
Proof.
  cbv zeta. edestruct (ingest_then_commit json_laws hex_laws 152 ["utxo.cbor"] ["utxos.json"] ["out"]
    (Z.of_nat (length (json_utxos utxos))) cbor_fs json_fs) as (cbor & es & H1 & H2 & _ & _ & H5).
  - exact utxo_run.
  - apply is_ok_pair. apply (commit_runs _ _ _ _ _ (json_utxos utxos) utxo_leaves 2);
      [exact json_fs_wf|reflexivity|reflexivity|apply utxos_utf8|exact utxo_leaves_ok|vm_compute; lia|done|reflexivity|].
    intros q _. unfold json_fs, cbor_fs. cbn [app]. by rewrite lookup_insert_ne, lookup_singleton_ne.
  - change (Some (FsFile ExampleIngest.file) = Some (FsFile cbor)) in H1.
    assert (cbor = ExampleIngest.file) as -> by congruence.
    assert (es = [ExampleIngest.entry1; ExampleIngest.entry2]) as ->.
    { assert (E : read_snapshot ExampleIngest.file = Ok [ExampleIngest.entry1; ExampleIngest.entry2])
        by (vm_compute; reflexivity). congruence. }
    specialize (H5 ltac:(vm_compute; lia)). by inversion H5.
Defined.

(** ** A node *)

Definition manifest : SnapshotManifest :=
  {| sm_block_hash := digest 9; sm_slot := 100; sm_epoch := 5; stability_depth := 2160; stake_snapshot_select := Mark |}.

(** Follows the protocol and serves the example file. *)
#[local] Instance serving_node : CardanoNode := {|
  node_accepts _ := true;
  node_point ms := match ms with [_; Acquire (Some p); _] => Some p | _ => Some Origin end;
  node_utxo _ := Some ExampleIngest.file
|}.

#[local] Instance snapshot_inputs : SnapshotInputs := {|
  MAINNET_MAGIC := 764824073; PREVIEW_MAGIC := 2; PREPROD_MAGIC := 1; parse_manifest _ := Some manifest
|}.

Definition snapshot_args : Args :=
  {| ar_socket := ["node.socket"]; ar_network := "preview"; ar_era := 6; ar_out := ["utxo.cbor"];
     ar_manifest := Some ["manifest.json"]; ar_snapshot_tip := false |}.

Definition manifest_fs : Fs := {[ ["manifest.json"] := FsFile [] ]}.

Definition pinned_point : Point := Specific 100 (digest 9).

Lemma snapshot_main :
  SnapshotTool.main snapshot_args manifest_fs =
  (full_session snapshot_args 2 (Some pinned_point), <[["utxo.cbor"] := FsFile ExampleIngest.file]> manifest_fs,
   Ok {| rp_notice := Pinning manifest; rp_len := length ExampleIngest.file; rp_slot := 100 |}).
Proof. reflexivity. Qed.

Lemma snapshot_session_safe_witness :
  ∃ magic target, full_session snapshot_args 2 (Some pinned_point) `prefix_of` full_session snapshot_args magic target ∧
    pinned manifest_fs ["manifest.json"] target.
Proof.
  destruct (snapshot_session_safe snapshot_args manifest_fs _ _ _ snapshot_main) as [(magic & target & H1 & H2 & _) _].
  exists magic, target. split; [exact H1|]. by apply H2.
Defined.

Lemma snapshot_then_ingest_witness :
  match run_utxo 152 ["utxo.cbor"] ["utxos.json"] (<[["utxo.cbor"] := FsFile ExampleIngest.file]> manifest_fs) with
  | (_, Ok us) => ∃ es, read_snapshot ExampleIngest.file = Ok es ∧ us = utxo_of <$> es
  | _ => True
  end.
Proof.
  destruct (snapshot_then_ingest snapshot_args 152 ["utxos.json"] manifest_fs _ _ _
    ltac:(apply wf_fs_check; vm_compute; reflexivity) snapshot_main) as (raw & H1 & _ & H3).
  change (Some ExampleIngest.file = Some raw) in H1. assert (raw = ExampleIngest.file) as -> by congruence.
  change (ar_out snapshot_args) with ["utxo.cbor"] in H3.
  destruct (run_utxo _ _ _ _) as [fs2 [us| |]]; [|done..]. destruct H3 as (es & E1 & E2 & _). by exists es.
Defined.

End ExampleTools.
